(* ===== verification/_CoqProject ===== *)
-Q . S2P
Prelude.v
Types.v
QueueSpec.v
MutexQueue.v
MutexWait.v
IndexRing.v
RingWords.v
RingAbs.v
RingSolo.v
RingConc.v
RingFifo.v
DataPath.v
LockFreeQueue.v
QueuePolicies.v
LockFreeConc.v
LockFreeWait.v
LockFreeStop.v
LockFreeCalls.v
Subscriber.v
Invocation.v
SubscriberConc.v
MailboxWait.v
SubscriberLifetime.v
Registry.v
RegistryConc.v
Subscription.v
WorkerPool.v
Dispatcher.v
DispatcherConc.v
DispatcherLockFree.v
Examples.v
