(* ===== verification/Prelude.v ===== *)
(** * A verification library for the high-performance event dispatcher

    The program is a C++20 header library: callers publish events into a
    bounded queue, worker threads take batches out of it and hand each event
    to the active subscribers, and [shutdown] drains or discards what is
    left. This library models its components from the sources under [src/]
    and proves what they promise. Paths below are relative to
    [src/include/event_dispatcher/] unless they start with [src/].

    ** The program and the files that model it

    - [Types]: the enumerations and structs of [queue/queue_status.hpp],
      [queue/pop_result.hpp], [batch_publish_result.hpp], [lifecycle.hpp],
      [config.hpp], [delivery.hpp], [metrics.hpp].
    - [QueueSpec]: the concepts of [queue/concurrent_queue.hpp] as the class
      [ConcurrentQueue]; the bounded FIFO [bounded_fifo] with its operations
      [spec_*]; the law [QueueRefines] between the two.
    - [MutexQueue], [MutexWait]: [queue/bounded_mutex_queue.hpp]. The first
      has one state transformer per method (the body under the mutex), the
      second the threads that sleep on its condition variables.
    - [IndexRing], [RingWords], [RingAbs], [RingSolo], [RingConc], [RingFifo]:
      [queue/detail/scalable_circular_index_queue.hpp]. [IndexRing.step] is
      the source, one atomic access per step on 64-bit words; [RingWords] and
      [RingAbs] decode it to cells with unbounded tickets, [RingSolo] runs one
      operation at a time, [RingConc] any number of threads; [RingFifo] is
      what overlapping calls may rely on.
    - [DataPath], [LockFreeQueue], [LockFreeConc], [LockFreeWait],
      [LockFreeStop], [LockFreeCalls]: [queue/bounded_lock_free_queue.hpp].
      [DataPath] runs [try_push] and [try_pop] as threads whose ring calls are
      those of [RingConc], one atomic access per step. [LockFreeQueue] has
      every method run alone on two word-level rings, [LockFreeConc] all
      methods as threads, one atomic access or ring call per step, with stop
      requests and deadlines. The others follow its runs: what sleepers wait
      for, what a stop request does, and what each call contributes to the
      events.
    - [QueuePolicies]: what a client may rely on under either queue.
    - [Subscriber], [Invocation], [SubscriberConc], [MailboxWait],
      [SubscriberLifetime]: [subscription/subscriber_state.hpp]. The critical
      sections and the operations of one thread; the thread-local list of
      invocations that the reentrancy queries walk; deliveries, the mailbox
      executor, [unsubscribe] and [stop_delivery] as threads with stacks of
      frames; the condition variables of the mailbox; and the threads with
      the pointers that keep the subscriber alive, down to its destructor.
    - [Registry], [RegistryConc]: [registry/snapshot_registry.hpp],
      copy-on-write membership, one operation at a time and as threads.
    - [Subscription]: the handle of [subscription/subscription.hpp] and
      [src/src/subscription/subscription.cpp] over the interface of
      [detail/subscription_control.hpp], a class which registries implement.
    - [WorkerPool]: [execution/worker_pool.hpp] and
      [src/src/execution/worker_pool.cpp].
    - [Dispatcher], [DispatcherConc], [DispatcherLockFree]: [dispatcher.hpp]
      over any [ConcurrentQueue] one thread at a time; then publishers,
      workers and callers of [shutdown] interleaved, first over a queue whose
      operations are atomic, then with every queue call run by the threads of
      [LockFreeConc], step by step.
    - [Examples]: the programs of [src/examples] with the text they write.

    Definitions keep the names of the source. Members of a class are fields
    of a record ([MutexQueue.queue], [LockFreeQueue.queue], [IndexRing.ring],
    [Subscriber.subscriber], [Registry.registry], [Dispatcher.dispatcher]);
    a method is a function in the monad [M] below, which returns, throws with
    the state as it was left, or is stuck (undefined behaviour,
    [std::terminate], blocked for good). Threads are program counters in a
    [config], moved by an executable [step] on a [choice]; [run] follows a
    schedule and [reachable] is its relational closure.

    ** What the theorems show

    - Queues. Both policies refine [bounded_fifo] (instances of
      [QueueRefines]); a mutex queue and a lock-free queue of one capacity
      answer every program of calls alike; pushed events come back once and
      in order; a closed queue drains and then reports [closed]; no call gets
      stuck, and the answers of any program of calls account for every event
      it put in. For the mutex queue, no wake-up is lost unless copying an event
      throws in a waiting push, and then one can be.
    - Index ring. Run alone it is a FIFO list and returns within its fuel;
      under every schedule a value is taken once, only at the ticket it was
      enqueued at, none is lost, and an index stored earlier is claimed no
      later. While at most [capacity] indices and [capacity] dequeues are
      under way, a dequeue reports an empty ring only if it was empty during
      the call; a schedule with more dequeues leaves an index in the ring
      that no dequeue finds any more.
    - Data path of the lock-free queue, with calls overlapping inside the
      rings. Slots are used in turn, an event sent is received once at most
      and never lost, events leave by their tickets, and [size] counts them.
      With no more threads than slots a pop reports [empty] and a push [full]
      only if it was so during the call; a schedule with more pops ends with
      an event in the queue that no pop finds until the next push.
    - Lock-free queue under interleaving. Slots are never misused, events
      leave in the order of publication, [size] is bounded, and after [close]
      or [close_and_discard] nothing is accepted any more. With no more
      threads than slots [close_and_discard] leaves no event behind, and until
      the queue is closed no wake-up is lost. A call whose stop callback has run is awake
      and every step of it brings its end closer, closed queue or not. Two
      schedules show a pop that reports [closed] while an accepted event is
      queued and a [close] that leaves a consumer asleep.
    - Subscribers. The metrics account for every offered event, the mailbox
      is a bounded FIFO, a serialized subscriber runs one callback at a time,
      nothing runs after [unsubscribe] or a joined [stop_delivery]; the
      destructor runs when nobody can call any more, never waits and loses no
      event; the reentrancy queries see exactly the enclosing callbacks. While
      copies do not throw, notifications are enough to let every lossless
      delivery return, and they run out. One schedule shows the deadlock of a
      callback that unsubscribes itself while its executor is being joined,
      one a producer asleep beside an empty mailbox after a throwing copy.
    - Registry, handle, pool. Membership refines an ordered list whatever
      allocations fail; under interleaving it is exactly the subscribed
      identifiers in order, a retired one never comes back and a snapshot
      misses nobody; a handle ends its own registration only; [join] waits
      for all workers.
    - Dispatcher. Outcomes of construction, publication, batches, broadcast
      (isolated mailboxes included) and both shutdown policies (with one
      worker and nobody isolated, a drain delivers in order); under interleaving, a returned [shutdown]
      is complete, the first policy wins, shutdown terminates, counters
      account for events, and one worker keeps their order. On the lock-free
      queue events are conserved and a returned [shutdown] accounts for them;
      with no more threads than slots a discarding one leaves none behind and
      a drain that no pop reports [closed] too early delivers all. Two
      schedules show a drain that leaves an event behind and one that never
      returns.
    - Examples. What each program prints; where workers run between its
      statements, however many rounds they run.

    ** Bounds and fuel

    [IndexRing.solo_fuel] (10100 steps) covers an operation run alone: an
    enqueue takes 6 steps, a dequeue 4, and one on an empty ring at most the
    10000 probes of [catchup_attempts] and a few more; [RingSolo] proves it
    enough. [RingConc] and [DataPath] hold for schedules of at most [2^60]
    steps, so that tickets and cycles do not wrap within the comparisons; [RingSolo] has no
    such bound. [LockFreeWait] and [LockFreeStop] count the epochs of runs of
    fewer than [2^64] steps; [LockFreeConc] has fewer than [2^63 - 1] threads. Rings have [2^r] entries with [r <= 59], that is capacities
    up to [2^58] (the source accepts up to [2^61]). Loops over a finite
    collection recurse on it; [discard_loop] and [destroy] take the number of
    slots as fuel, and the refinement theorems prove they end before it. A
    walk of the invocations has the height of the stack as fuel, which the
    list does not exceed; [Examples] gives each loop one round more than it
    has events.

    ** Not modelled

    Memory orders: the machines are sequentially consistent. A ring call is
    one step of [LockFreeConc], so that a ring call may starve or a probe be
    repeated in [RingConc] only. What overlapping inside a ring can do to the
    answer of a dequeue is in that step: with more threads than slots it may
    find nothing on a ring that is not empty, as the last schedule of
    [DataPath] shows; with no more an empty answer is true
    ([RingFifo.empty_answers_are_true]). [DataPath] has the pushes and pops
    of an open queue overlapping inside the rings, without its guards,
    signals and waiting calls. A queue operation is one step of [DispatcherConc], as
    under the mutex of the mutex queue. The delivery of
    one event is one step of the dispatcher's machines; what may interleave
    with it is in [SubscriberConc]. A token that is already stopped is one
    whose request comes right after the call begins; clocks are the [expired]
    argument of a waiting call, or a deadline that passes at some point.
    [timed_wait_mutex_] guards no data and is left out, as are the
    lock-freedom queries of atomics, the wait of [unsubscribe] for callbacks
    in [RegistryConc] (it is in [SubscriberConc]), [detail/cache_line.hpp]
    (alignment), the umbrella header, and the tests and benchmarks. *)

From stdpp Require Export base prelude list gmap sets.
From Stdlib Require Export ZArith Lia.

#[global] Set Default Goal Selector "1".

Declare Scope dispatcher_scope.
Delimit Scope dispatcher_scope with disp.

Local Open Scope Z_scope.

(** ** Machine words

    [std::size_t] and [std::uint64_t] are 64-bit unsigned words, kept as
    integers in [[0, 2^64)]; [u64] is the wrap-around of their arithmetic.
    [s64] is [static_cast<std::intptr_t>] of such a word (two's complement). *)

Definition word_modulus : Z := 2 ^ 64.
Definition u64 (z : Z) : Z := z mod 2 ^ 64.
Definition s64 (z : Z) : Z := if u64 z <? 2 ^ 63 then u64 z else u64 z - 2 ^ 64.

Definition size_max : Z := 2 ^ 64 - 1.

Lemma u64_range z : 0 <= u64 z < 2 ^ 64.
Proof. apply Z.mod_pos_bound; lia. Qed.

Lemma u64_small z : 0 <= z < 2 ^ 64 -> u64 z = z.
Proof. apply Z.mod_small. Qed.

Lemma u64_idemp z : u64 (u64 z) = u64 z.
Proof. apply u64_small, u64_range. Qed.

Lemma u64_add_l a b : u64 (u64 a + b) = u64 (a + b).
Proof. unfold u64. by rewrite Zplus_mod_idemp_l. Qed.

Lemma u64_add_r a b : u64 (a + u64 b) = u64 (a + b).
Proof. unfold u64. by rewrite Zplus_mod_idemp_r. Qed.

Lemma u64_sub_l a b : u64 (u64 a - b) = u64 (a - b).
Proof. unfold u64. by rewrite Zminus_mod_idemp_l. Qed.

Lemma u64_sub_r a b : u64 (a - u64 b) = u64 (a - b).
Proof. unfold u64. by rewrite Zminus_mod_idemp_r. Qed.

Lemma u64_eq_iff a b : u64 a = u64 b <-> (a - b) mod 2 ^ 64 = 0.
Proof.
  unfold u64. split; intros H.
  - rewrite Zminus_mod, H, Z.sub_diag. by rewrite Z.mod_0_l.
  - pose proof (Z.div_mod (a - b) (2 ^ 64) ltac:(lia)) as Hd.
    replace a with (b + ((a - b) / 2 ^ 64) * 2 ^ 64) by lia.
    apply Z_mod_plus_full.
Qed.

Lemma u64_eq_by a b k : a - b = k * 2 ^ 64 -> u64 a = u64 b.
Proof. intros H. apply u64_eq_iff. rewrite H. apply Z_mod_mult. Qed.

(** Two integers less than [2^64] apart are equal once their words are. *)
Lemma u64_inj_close a b : Z.abs (a - b) < 2 ^ 64 -> u64 a = u64 b -> a = b.
Proof.
  intros Hc H%u64_eq_iff. apply Z.mod_divide in H as [k Hk]; [|lia].
  assert (k = 0) as -> by nia. lia.
Qed.

Lemma s64_small z : - 2 ^ 63 <= z < 2 ^ 63 -> s64 z = z.
Proof.
  intros Hz. unfold s64, u64.
  destruct (decide (0 <= z)).
  - rewrite Z.mod_small by lia. by destruct (Z.ltb_spec z (2 ^ 63)); lia.
  - replace (z mod 2 ^ 64) with (z + 2 ^ 64).
    + destruct (Z.ltb_spec (z + 2 ^ 64) (2 ^ 63)); lia.
    + symmetry. rewrite <- (Z_mod_plus_full z 1). rewrite Z.mod_small; lia.
Qed.

Lemma s64_u64 z : s64 (u64 z) = s64 z.
Proof. unfold s64. by rewrite u64_idemp. Qed.

Lemma s64_range z : - 2 ^ 63 <= s64 z < 2 ^ 63.
Proof.
  unfold s64. pose proof (u64_range z).
  destruct (Z.ltb_spec (u64 z) (2 ^ 63)); lia.
Qed.

(** Equality of words up to wrap-around, the equivalence the monotonic
    counters are compared with; addition and subtraction respect it. *)
Definition eq64 (a b : Z) : Prop := u64 a = u64 b.

#[export] Instance eq64_equivalence : Equivalence eq64.
Proof. split; repeat intro; unfold eq64 in *; congruence. Qed.

#[export] Instance add_eq64_proper : Proper (eq64 ==> eq64 ==> eq64) Z.add.
Proof.
  intros a a' Ha b b' Hb. unfold eq64 in *.
  by rewrite <- u64_add_l, Ha, u64_add_l, <- u64_add_r, Hb, u64_add_r.
Qed.

#[export] Instance sub_eq64_proper : Proper (eq64 ==> eq64 ==> eq64) Z.sub.
Proof.
  intros a a' Ha b b' Hb. unfold eq64 in *.
  by rewrite <- u64_sub_l, Ha, u64_sub_l, <- u64_sub_r, Hb, u64_sub_r.
Qed.

Lemma eq64_u64 z : eq64 (u64 z) z.
Proof. apply u64_idemp. Qed.

(** [fetch_add(1)] and [++] on a 64-bit counter. *)
Definition incr64 (z : Z) : Z := u64 (z + 1).
Definition decr64 (z : Z) : Z := u64 (z - 1).

Lemma eq64_incr64 z : eq64 (incr64 z) (z + 1).
Proof. apply eq64_u64. Qed.

Lemma incr64_small z : 0 <= z < 2 ^ 64 - 1 -> incr64 z = z + 1.
Proof. intros. apply u64_small. lia. Qed.

Lemma decr64_small z : 0 < z < 2 ^ 64 -> decr64 z = z - 1.
Proof. intros. apply u64_small. lia. Qed.

(** ** Ring positions *)

(** Tickets less than a ring apart fall on different positions. *)
Lemma mod_window_inj R t t' :
  0 < R -> Z.abs (t - t') < R -> t mod R = t' mod R -> t = t'.
Proof.
  intros HR Hc He.
  assert ((t - t') mod R = 0) as H.
  { by rewrite Zminus_mod, He, Z.sub_diag, Z.mod_0_l by lia. }
  apply Z.mod_divide in H as [k Hk]; [|lia].
  assert (k = 0) as -> by nia. lia.
Qed.

Lemma mod_add_self n i : (i + n) mod n = i mod n.
Proof. rewrite <- (Z_mod_plus_full i 1 n). f_equal. lia. Qed.

Lemma mod_succ_wrap n i :
  0 < n -> (if (i mod n) + 1 =? n then 0 else (i mod n) + 1) = (i + 1) mod n.
Proof.
  intros Hn. pose proof (Z.mod_pos_bound i n Hn).
  rewrite <- Zplus_mod_idemp_l.
  destruct (Z.eqb_spec (i mod n + 1) n) as [E|].
  - rewrite E, Z.mod_same; lia.
  - rewrite (Z.mod_small (i mod n + 1)); lia.
Qed.

(** Every position is reached by exactly one ticket of a window. *)
Lemma mod_window_surj R lo p :
  0 < R -> 0 <= p < R -> ∃ t, lo <= t < lo + R /\ t mod R = p.
Proof.
  intros HR Hp. exists (lo + (p - lo) mod R).
  pose proof (Z.mod_pos_bound (p - lo) R HR). split; [lia|].
  rewrite Zplus_mod_idemp_r. replace (lo + (p - lo)) with p by lia.
  by apply Z.mod_small.
Qed.

(** ** Array access by a word-sized index

    [vec !!z i] and [vec_set vec i x] are [vec[i]] and [vec[i] = x]; an
    index out of range has no value, which the models turn into
    undefined behaviour. *)

Definition zlookup {A} (l : list A) (i : Z) : option A :=
  if (0 <=? i) then l !! Z.to_nat i else None.
Definition zinsert {A} (l : list A) (i : Z) (x : A) : list A :=
  if (0 <=? i) then <[Z.to_nat i := x]> l else l.
Notation "l !!z i" := (zlookup l i) (at level 20) : dispatcher_scope.
Notation "<[ i :=z x ]> l" := (zinsert l i x)
  (at level 5, right associativity, format "<[ i :=z x ]> l") : dispatcher_scope.
Open Scope dispatcher_scope.

Definition zlength {A} (l : list A) : Z := Z.of_nat (length l).

Lemma zlength_nonneg {A} (l : list A) : 0 <= zlength l.
Proof. unfold zlength. lia. Qed.

(** [zlength []] is [0] by computation. *)
Ltac zlen_nil :=
  repeat match goal with
  | H : context [@zlength ?A []] |- _ => change (@zlength A []) with 0 in H
  | |- context [@zlength ?A []] => change (@zlength A []) with 0
  end.

Lemma zlength_cons {A} (x : A) l : zlength (x :: l) = zlength l + 1.
Proof. unfold zlength. simpl. lia. Qed.

Lemma zlength_app {A} (l k : list A) : zlength (l ++ k) = zlength l + zlength k.
Proof. unfold zlength. rewrite length_app. lia. Qed.

Lemma zlength_zinsert {A} (l : list A) i x : zlength (<[i :=z x]> l) = zlength l.
Proof. unfold zlength, zinsert. destruct (0 <=? i); [|done]. by rewrite length_insert. Qed.

Lemma zlookup_of_nat {A} (l : list A) j : l !!z Z.of_nat j = l !! j.
Proof. unfold zlookup. rewrite (proj2 (Z.leb_le 0 (Z.of_nat j))) by lia. by rewrite Nat2Z.id. Qed.

Lemma zlookup_range {A} (l : list A) i x : l !!z i = Some x -> 0 <= i < zlength l.
Proof.
  unfold zlookup, zlength. destruct (Z.leb_spec 0 i); [|done].
  intros ?%lookup_lt_Some. lia.
Qed.

Lemma zlookup_lt {A} (l : list A) i : 0 <= i < zlength l -> ∃ x, l !!z i = Some x.
Proof.
  unfold zlookup, zlength. intros. destruct (Z.leb_spec 0 i); [|lia].
  apply lookup_lt_is_Some. lia.
Qed.

Lemma zlookup_zinsert_eq {A} (l : list A) i x :
  0 <= i < zlength l -> (<[i :=z x]> l) !!z i = Some x.
Proof.
  unfold zlookup, zinsert, zlength. intros. destruct (Z.leb_spec 0 i); [|lia].
  apply list_lookup_insert_eq. lia.
Qed.

Lemma zlookup_zinsert_ne {A} (l : list A) i j x :
  i <> j -> (<[i :=z x]> l) !!z j = l !!z j.
Proof.
  unfold zlookup, zinsert. intros.
  destruct (Z.leb_spec 0 i), (Z.leb_spec 0 j); try done.
  apply list_lookup_insert_ne. lia.
Qed.

Lemma zlookup_zinsert {A} (l : list A) i j x :
  0 <= i < zlength l ->
  (<[i :=z x]> l) !!z j = if decide (i = j) then Some x else l !!z j.
Proof.
  intros. case_decide; subst; [by apply zlookup_zinsert_eq | by apply zlookup_zinsert_ne].
Qed.

Lemma zlookup_cons {A} (x : A) l i :
  0 < i -> (x :: l) !!z i = l !!z (i - 1).
Proof.
  intros Hi. unfold zlookup.
  destruct (Z.leb_spec 0 i), (Z.leb_spec 0 (i - 1)); try lia.
  by replace (Z.to_nat i) with (S (Z.to_nat (i - 1))) by lia.
Qed.

Lemma zlookup_snoc {A} (l : list A) x i :
  0 <= i <= zlength l ->
  (l ++ [x]) !!z i = if decide (i = zlength l) then Some x else l !!z i.
Proof.
  unfold zlookup, zlength. intros. destruct (Z.leb_spec 0 i); [|lia].
  case_decide; subst.
  - rewrite Nat2Z.id. by apply list_lookup_middle.
  - apply lookup_app_l. lia.
Qed.

Lemma zlookup_replicate {A} n (x : A) i :
  0 <= i < n -> replicate (Z.to_nat n) x !!z i = Some x.
Proof.
  unfold zlookup. intros. destruct (Z.leb_spec 0 i); [|lia].
  apply lookup_replicate_2. lia.
Qed.

Lemma zlength_replicate {A} n (x : A) : 0 <= n -> zlength (replicate (Z.to_nat n) x) = n.
Proof. unfold zlength. rewrite length_replicate. lia. Qed.

Lemma zlookup_fmap {A B} (f : A -> B) (l : list A) i : (f <$> l) !!z i = f <$> l !!z i.
Proof. unfold zlookup. destruct (0 <=? i); [apply list_lookup_fmap|done]. Qed.

Lemma zlength_insert {A} (l : list A) j x : zlength (<[j := x]> l) = zlength l.
Proof. unfold zlength. by rewrite length_insert. Qed.
Lemma zlength_fmap {A B} (f : A -> B) (l : list A) : zlength (f <$> l) = zlength l.
Proof. unfold zlength. by rewrite length_fmap. Qed.

Lemma fmap_zinsert {A B} (f : A -> B) (l : list A) i x :
  f <$> <[i :=z x]> l = <[i :=z f x]> (f <$> l).
Proof. unfold zinsert. destruct (0 <=? i); [apply list_fmap_insert|done]. Qed.

Lemma zlist_eq {A} (l k : list A) :
  zlength l = zlength k -> (∀ i, 0 <= i < zlength l -> l !!z i = k !!z i) -> l = k.
Proof.
  intros Hl He. apply list_eq. intros i. destruct (decide (i < length l)%nat) as [Hi|Hi].
  - specialize (He (Z.of_nat i) ltac:(unfold zlength; lia)). unfold zlookup in He.
    rewrite Nat2Z.id in He. by destruct (Z.leb_spec 0 (Z.of_nat i)); [|lia].
  - unfold zlength in Hl. rewrite !lookup_ge_None_2 by lia. done.
Qed.

Lemma zlookup_seqZ m n i : 0 <= i < n -> seqZ m n !!z i = Some (m + i).
Proof.
  intros Hi. unfold zlookup. destruct (Z.leb_spec 0 i); [|lia].
  rewrite lookup_seqZ_lt by lia. f_equal. lia.
Qed.

Lemma zlength_seqZ m n : 0 <= n -> zlength (seqZ m n) = n.
Proof. intros. unfold zlength. rewrite length_seqZ. lia. Qed.

Lemma zlookup_app {A} (l k : list A) i :
  (l ++ k) !!z i = if decide (i < zlength l) then l !!z i else k !!z (i - zlength l).
Proof.
  unfold zlookup, zlength. case_decide.
  - destruct (Z.leb_spec 0 i); [|done]. apply lookup_app_l. lia.
  - destruct (Z.leb_spec 0 i), (Z.leb_spec 0 (i - Z.of_nat (length l))); try lia.
    rewrite lookup_app_r by lia. f_equal. lia.
Qed.

Lemma Forall2_impl_elem {A B} (P Q : A -> B -> Prop) l k :
  Forall2 P l k -> (∀ x y, x ∈ l -> P x y -> Q x y) -> Forall2 Q l k.
Proof.
  induction 1 as [|x y l k Hxy Hlk IH]; intros Hi; constructor.
  - apply Hi; [apply list_elem_of_here|done].
  - apply IH. intros x' y' Hx. apply Hi. by apply list_elem_of_further.
Qed.

(** Membership in concatenations. *)
Ltac in_list :=
  repeat first [rewrite elem_of_app in * | rewrite elem_of_cons in * | rewrite elem_of_nil in *];
  tauto.

(** ** Sums of integer weights over lists *)

Definition sum_of {A} (f : A -> Z) (l : list A) : Z := foldr (fun x a => f x + a) 0 l.

(** Replacing one element of a list that is mapped and flattened. *)
Lemma concat_split {A B} (f : A -> list B) (ws : list A) j w :
  ws !! j = Some w ->
  ∃ l k, (∀ w', concat (f <$> <[j:=w']> ws) = l ++ f w' ++ k) /\
    concat (f <$> ws) = l ++ f w ++ k /\
    (length ws = 1%nat -> l = [] /\ k = []).
Proof.
  intros Hj. assert (Hlt := lookup_lt_Some _ _ _ Hj).
  exists (concat (f <$> take j ws)), (concat (f <$> drop (S j) ws)). split_and!.
  - intros w'. rewrite insert_take_drop by done.
    by rewrite fmap_app, fmap_cons, concat_app, concat_cons.
  - rewrite <- (take_drop_middle ws j w Hj) at 1.
    by rewrite fmap_app, fmap_cons, concat_app, concat_cons.
  - intros Hl. destruct ws as [|? []]; cbn in *; [lia| |lia].
    destruct j; [done|lia].
Qed.

Lemma concat_only {A B} (f : A -> list B) (ws : list A) j w :
  ws !! j = Some w -> (∀ i x, ws !! i = Some x -> i ≠ j -> f x = []) -> concat (f <$> ws) = f w.
Proof.
  revert j. induction ws as [|x ws IH]; intros [|j] Hj Ho; simplify_eq/=.
  - assert (concat (f <$> ws) = []) as ->; [|by rewrite app_nil_r].
    clear IH. induction ws as [|y ws IH]; [done|]. cbn. rewrite (Ho 1%nat y) by done. cbn.
    apply IH. intros [|i] z Hz Hi; [done|]. by apply (Ho (S (S i))).
  - rewrite (Ho 0%nat x) by done. cbn. apply (IH j); [done|]. intros i z Hz Hi.
    apply (Ho (S i)); [done|]. lia.
Qed.

Lemma sum_of_insert {A} (f : A -> Z) l j x y :
  l !! j = Some x -> sum_of f (<[j := y]> l) = sum_of f l - f x + f y.
Proof.
  revert j. induction l as [|z l IH]; intros [|j] Hx; simplify_eq/=; [lia|].
  rewrite (IH j Hx). lia.
Qed.

Lemma sum_of_nonneg {A} (f : A -> Z) l : (∀ x, 0 <= f x) -> 0 <= sum_of f l.
Proof. intros Hf. induction l as [|x l IH]; simpl; [done|]. specialize (Hf x). lia. Qed.

Lemma sum_of_elem {A} (f : A -> Z) l x : (∀ y, 0 <= f y) -> x ∈ l -> f x <= sum_of f l.
Proof.
  intros Hf. induction 1 as [x l|x y l _ IH]; simpl.
  - pose proof (sum_of_nonneg f l Hf). lia.
  - specialize (Hf y). lia.
Qed.

Lemma sum_of_lookup {A} (f : A -> Z) l j x : (∀ y, 0 <= f y) -> l !! j = Some x -> f x <= sum_of f l.
Proof. intros Hf Hx. apply sum_of_elem; [done|]. by eapply list_elem_of_lookup_2. Qed.

Lemma sum_of_pos {A} (f : A -> Z) l : 0 < sum_of f l -> ∃ j x, l !! j = Some x /\ 0 < f x.
Proof.
  induction l as [|x l IH]; cbn [sum_of foldr]; [done|]. intros Hs.
  destruct (Z.ltb_spec 0 (f x)); [by exists 0%nat, x|].
  destruct IH as (j & y & Hj & Hy); [cbn in *; unfold sum_of; lia|]. by exists (S j), y.
Qed.

Lemma sum_of_cons {A} (f : A -> Z) x l : sum_of f (x :: l) = f x + sum_of f l.
Proof. done. Qed.

Ltac sum_cons :=
  rewrite ?sum_of_cons;
  repeat match goal with |- context [@sum_of ?A ?f []] => change (@sum_of A f []) with 0 end.

(** A bound on every weight bounds the sum. *)
Lemma sum_of_bound {A} (f : A -> Z) l b :
  (∀ x, x ∈ l -> f x <= b) -> sum_of f l <= b * zlength l.
Proof.
  induction l as [|x l IH]; intros Hb; [zlen_nil; simpl; lia|].
  rewrite zlength_cons. simpl. pose proof (Hb x ltac:(left)).
  assert (sum_of f l <= b * zlength l) by (apply IH; intros y Hy; apply Hb; by right). lia.
Qed.

Lemma sum_of_le {A} (f g : A -> Z) l :
  (∀ x, x ∈ l -> f x <= g x) -> sum_of f l <= sum_of g l.
Proof.
  induction l as [|x l IH]; intros Hfg; simpl; [done|].
  pose proof (Hfg x ltac:(left)).
  assert (sum_of f l <= sum_of g l) by (apply IH; intros y Hy; apply Hfg; by right). lia.
Qed.

Lemma sum_of_fmap {A B} (f : B -> Z) (g : A -> B) l : sum_of f (g <$> l) = sum_of (λ x, f (g x)) l.
Proof. induction l as [|x l IH]; [done|]. rewrite fmap_cons, !sum_of_cons. by rewrite IH. Qed.

Lemma sum_of_app {A} (f : A -> Z) l k : sum_of f (l ++ k) = sum_of f l + sum_of f k.
Proof. induction l as [|x l IH]; [done|]. cbn [app]. rewrite !sum_of_cons, IH. lia. Qed.

(** Changing every element: the sum changes as the elements do. *)
Lemma sum_of_fmap_le {A} (f : A -> Z) g l :
  (∀ x, x ∈ l -> f (g x) <= f x) -> sum_of f (g <$> l) <= sum_of f l.
Proof. intros Hf. rewrite sum_of_fmap. by apply sum_of_le. Qed.

Lemma sum_of_fmap_ge {A} (f : A -> Z) g l :
  (∀ x, x ∈ l -> f x <= f (g x)) -> sum_of f l <= sum_of f (g <$> l).
Proof. intros Hf. rewrite sum_of_fmap. by apply sum_of_le. Qed.

Lemma sum_of_fmap_eq {A} (f : A -> Z) g l :
  (∀ x, x ∈ l -> f (g x) = f x) -> sum_of f (g <$> l) = sum_of f l.
Proof.
  intros Hf. apply Z.le_antisymm; [apply sum_of_fmap_le|apply sum_of_fmap_ge]; intros x Hx; by rewrite Hf.
Qed.

Lemma sum_of_add_const {A} (f : A -> Z) k l : sum_of (λ x, f x + k) l = sum_of f l + k * zlength l.
Proof. induction l as [|x l IH]; [zlen_nil; cbn; lia|]. rewrite !sum_of_cons, zlength_cons, IH. lia. Qed.

#[global] Arguments sum_of : simpl never.

(** ** Outcomes of C++ code

    Code returns, throws, or is stuck: it runs into undefined behaviour,
    calls [std::terminate], or blocks for good. A computation passes the
    state it may change; what it had changed before a throw stays changed. *)

Inductive exn : Type :=
  | invalid_argument
  | logic_error
  | overflow_error
  | bad_optional_access
  | bad_alloc
  | user_exception (tag : Z).

#[export] Instance exn_eq_dec : EqDecision exn.
Proof. solve_decision. Defined.

Inductive fault : Type := undefined_behaviour | terminated | blocked.

#[export] Instance fault_eq_dec : EqDecision fault.
Proof. solve_decision. Defined.

Inductive result (S A : Type) : Type :=
  | Ret (a : A) (s : S)
  | Throw (e : exn) (s : S)
  | Stuck (f : fault).
Arguments Ret {S A} a s.
Arguments Throw {S A} e s.
Arguments Stuck {S A} f.

Definition M (S A : Type) : Type := S -> result S A.

#[export] Instance M_ret S : MRet (M S) := fun A a s => Ret a s.
#[export] Instance M_bind S : MBind (M S) := fun A B k m s =>
  match m s with
  | Ret a s' => k a s'
  | Throw e s' => Throw e s'
  | Stuck f => Stuck f
  end.

Definition throw {S A} (e : exn) : M S A := fun s => Throw e s.
Definition stuck {S A} (f : fault) : M S A := fun _ => Stuck f.
Definition gets {S A} (f : S -> A) : M S A := fun s => Ret (f s) s.
Definition modify {S} (f : S -> S) : M S unit := fun s => Ret tt (f s).

(** [try { m } catch (...) { h }]. *)
Definition catch {S A} (m : M S A) (h : exn -> M S A) : M S A := fun s =>
  match m s with
  | Throw e s' => h e s'
  | r => r
  end.

(** Run a computation on the first component of a larger state. *)
Definition on_fst {S C A} (m : M S A) : M (S * C) A := fun '(s, c) =>
  match m s with
  | Ret a s' => Ret a (s', c)
  | Throw e s' => Throw e (s', c)
  | Stuck f => Stuck f
  end.

Lemma bind_ret {S A B} (m : M S A) (k : A -> M S B) s a s' :
  m s = Ret a s' -> (m ≫= k) s = k a s'.
Proof. unfold mbind, M_bind. by intros ->. Qed.

Lemma bind_gets_id {S A} (k : S -> M S A) s : (gets id ≫= k) s = k s s.
Proof. done. Qed.

(** A callback that builds the event: a constructor call that may consume
    (move from) the caller's storage [C], and may throw. Moves, copies and
    emplacement arguments are all instances. *)
Definition forward (C E : Type) : Type := C -> (exn + E) * C.

(** [std::move(event)]: the source is moved from, the move does not throw
    (the queues require a nothrow move constructor). *)
Definition move_from {E} : forward (option E) E := fun c =>
  match c with
  | Some e => (inr e, None)
  | None => (inl bad_optional_access, None)
  end.

(** [const Event&]: the source is left alone, the copy may throw. *)
Definition copy_from {E} (copy : E -> exn + E) : forward E E := fun e => (copy e, e).

(** ** Invariants of step relations *)

Lemma rtc_invariant {A} (R : relation A) (P : A -> Prop) x y :
  (∀ a b, P a -> R a b -> P b) -> P x -> rtc R x y -> P y.
Proof. intros Hs Hx Hr. induction Hr; eauto. Qed.

(** Filling up to [n] in two rounds. *)
Lemma take_app_take {A} n (l k : list A) : take n (take n l ++ k) = take n (l ++ k).
Proof. rewrite !take_app, take_take, length_take. f_equal; f_equal; lia. Qed.

(** ** Permutations *)

(** Two parts of a list that exchange elements across a third. *)
Lemma perm_across {A} (a a' h h' mid rest : list A) : a' ++ h' ≡ₚ a ++ h ->
  a' ++ mid ++ h' ++ rest ≡ₚ a ++ mid ++ h ++ rest.
Proof.
  intros Hp. assert (∀ x y : list A, x ++ mid ++ y ++ rest ≡ₚ (x ++ y) ++ mid ++ rest) as Hs.
  { intros x y. rewrite <- app_assoc. apply Permutation_app_head. apply Permutation_app_swap_app. }
  rewrite !Hs. by rewrite Hp.
Qed.

(** ** Numbered lists *)

Definition numbered {A} (d : A) (l : list A) : list (Z * A) := (λ i, (i, default d (l !!z i))) <$> seqZ 0 (zlength l).

Lemma numbered_lookup {A} (d : A) l i x : (i, x) ∈ numbered d l -> l !!z i = Some x.
Proof.
  unfold numbered. rewrite list_elem_of_fmap. intros (k & [= -> ->] & Hk%elem_of_seqZ).
  destruct (zlookup_lt l k) as [y Hy]; [lia|]. by rewrite Hy.
Qed.

Lemma numbered_snd {A} (d : A) l : (numbered d l).*2 = l.
Proof.
  pose proof (zlength_nonneg l). unfold numbered. rewrite <- list_fmap_compose.
  apply zlist_eq; rewrite zlength_fmap, zlength_seqZ by lia; try done.
  intros i Hi. rewrite zlookup_fmap, zlookup_seqZ by lia. destruct (zlookup_lt l i Hi) as [x Hx]. cbn.
  rewrite Hx, Z.add_0_l. by rewrite Hx.
Qed.

(** One entry of a numbered list and the rest, before and after an update. *)
Lemma numbered_insert {A} (d : A) l i x y : l !!z i = Some x ->
  ∃ rest, numbered d l ≡ₚ (i, x) :: rest /\ numbered d (<[i :=z y]> l) ≡ₚ (i, y) :: rest.
Proof.
  intros Hi. pose proof (zlookup_range _ _ _ Hi) as Hr. unfold numbered. rewrite zlength_zinsert.
  assert (i ∈ seqZ 0 (zlength l)) as Hin by (rewrite elem_of_seqZ; lia).
  apply list_elem_of_split in Hin as (l1 & l2 & Hs). pose proof (NoDup_seqZ 0 (zlength l)) as Hnd. rewrite Hs in *.
  apply NoDup_app in Hnd as (_ & H1 & [H2 _]%NoDup_cons). rewrite !fmap_app, !fmap_cons, Hi, zlookup_zinsert_eq by lia.
  exists (((λ i, (i, default d (l !!z i))) <$> l1) ++ ((λ i, (i, default d (l !!z i))) <$> l2)).
  split; [symmetry; apply Permutation_middle|].
  assert (∀ ks : list Z, i ∉ ks -> (λ k, (k, default d (<[i :=z y]> l !!z k))) <$> ks = (λ k, (k, default d (l !!z k))) <$> ks) as Heq.
  { intros ks Hks. apply list_fmap_ext. intros k z Hz. rewrite zlookup_zinsert_ne; [done|]. intros ->.
    apply Hks. by eapply list_elem_of_lookup_2. }
  rewrite !Heq; [symmetry; apply Permutation_middle|done|]. intros Hi1. apply (H1 i Hi1). left.
Qed.

(** ** Families over an initial segment *)

(** Changing a family of lists at one place. *)
Lemma family_update {B} (f g : nat -> list B) n j : (j < n)%nat -> (∀ i, i <> j -> f i = g i) ->
  ∃ rest, concat (f <$> seq 0 n) ≡ₚ f j ++ rest /\ concat (g <$> seq 0 n) ≡ₚ g j ++ rest.
Proof.
  intros Hj Hfg. exists (concat (f <$> seq 0 j) ++ concat (f <$> seq (S j) (n - S j))).
  assert (seq 0 n = seq 0 j ++ j :: seq (S j) (n - S j)) as ->.
  { replace n with (j + S (n - S j))%nat at 1 by lia. by rewrite seq_app. }
  rewrite !fmap_app, !fmap_cons, !concat_app, !concat_cons. split.
  - rewrite !app_assoc. apply Permutation_app_tail, Permutation_app_comm.
  - assert (∀ s m, (∀ i, i ∈ seq s m -> i <> j) -> g <$> seq s m = f <$> seq s m) as Heq.
    { intros s m Hs. apply list_fmap_ext. intros i x Hx. symmetry. apply Hfg, Hs. by eapply list_elem_of_lookup_2. }
    rewrite !Heq by (intros i Hi; rewrite elem_of_seq in Hi; lia).
    rewrite !app_assoc. apply Permutation_app_tail, Permutation_app_comm.
Qed.

Lemma sum_update (f g : nat -> Z) n j : (j < n)%nat -> (∀ i, i <> j -> f i = g i) ->
  sum_of g (seq 0 n) = sum_of f (seq 0 n) - f j + g j.
Proof.
  intros Hj Hfg. assert (seq 0 n = seq 0 j ++ j :: seq (S j) (n - S j)) as ->.
  { replace n with (j + S (n - S j))%nat at 1 by lia. by rewrite seq_app. }
  assert (∀ s m, (∀ i, i ∈ seq s m -> i <> j) -> sum_of g (seq s m) = sum_of f (seq s m)) as Heq.
  { intros s m Hs. induction (seq s m) as [|i l IH]; [done|]. rewrite !sum_of_cons, IH by (intros; apply Hs; by right).
    rewrite (Hfg i); [done|]. apply Hs. left. }
  rewrite !sum_of_app, !sum_of_cons, !Heq by (intros i Hi; rewrite elem_of_seq in Hi; lia). lia.
Qed.

(** A list read by position. *)
Lemma sum_by_position {A} (f : A -> Z) l :
  sum_of f l = sum_of (λ i, from_option f 0 (l !! i)) (seq 0 (length l)).
Proof.
  induction l as [|x l IH]; [done|]. cbn [length seq]. rewrite !sum_of_cons, IH, <- fmap_S_seq, sum_of_fmap. done.
Qed.

Lemma zlength_concat {A B} (f : A -> list B) l : zlength (concat (f <$> l)) = sum_of (λ x, zlength (f x)) l.
Proof. induction l as [|x l IH]; [done|]. rewrite fmap_cons, concat_cons, zlength_app, sum_of_cons, IH. done. Qed.

Lemma concat_nils {A B} (f : A -> list B) l : (∀ x, x ∈ l -> f x = []) -> concat (f <$> l) = [].
Proof.
  induction l as [|x l IH]; intros Hf; [done|]. rewrite fmap_cons, concat_cons, (Hf x) by left.
  apply IH. intros y Hy. apply Hf. by right.
Qed.

Lemma sum_zeros {A} (f : A -> Z) l : (∀ x, x ∈ l -> f x = 0) -> sum_of f l = 0.
Proof.
  induction l as [|x l IH]; intros Hf; [done|]. rewrite sum_of_cons, (Hf x) by left.
  rewrite IH; [done|]. intros y Hy. apply Hf. by right.
Qed.

#[export] Instance sum_of_perm {A} (f : A -> Z) : Proper (Permutation ==> eq) (sum_of f).
Proof. intros l l' Hl. unfold sum_of. induction Hl; cbn; lia. Qed.

(** Bounding a sum, with some room at one element. *)
Lemma sum_of_le_at {A} (f g : A -> Z) l x d : (∀ y, y ∈ l -> f y <= g y) -> x ∈ l -> f x + d <= g x -> 0 <= d ->
  sum_of f l + d <= sum_of g l.
Proof.
  intros Hfg Hx Hd Hd0. apply list_elem_of_split in Hx as (l1 & l2 & ->). rewrite !sum_of_app, !sum_of_cons.
  pose proof (sum_of_le f g l1 ltac:(intros y Hy; apply Hfg, elem_of_app; by left)).
  pose proof (sum_of_le f g l2 ltac:(intros y Hy; apply Hfg, elem_of_app; right; by right)). lia.
Qed.

(** ** Sizes of finite sets *)

Section set_sizes.
Context {K : Type} `{Countable K}.
Implicit Types X Y : gset K.

Lemma size_union_le X Y : (base.size (X ∪ Y) <= base.size X + base.size Y)%nat.
Proof. rewrite size_union_alt. assert (Y ∖ X ⊆ Y) as Hsub by (by intros x [? _]%elem_of_difference).
  pose proof (subseteq_size _ _ Hsub). lia. Qed.

Lemma size_remove x X : x ∈ X -> Z.of_nat (base.size (X ∖ {[x]})) = Z.of_nat (base.size X) - 1.
Proof.
  intros Hx. assert ({[x]} ⊆ X) as Hsub by (by apply singleton_subseteq_l). pose proof (subseteq_size _ _ Hsub) as Hle.
  rewrite size_difference, size_singleton in * by done. lia.
Qed.

Lemma size_list_le (l : list K) : (base.size (list_to_set (C := gset K) l) <= length l)%nat.
Proof.
  induction l as [|x l IH]; cbn [list_to_set length]; [by rewrite size_empty|].
  pose proof (size_union_le {[x]} (list_to_set l)) as Hle. rewrite size_singleton in Hle. lia.
Qed.

End set_sizes.

(** ** Automation *)

Ltac destruct_ltb :=
  repeat match goal with
  | |- context [?a <? ?b] => destruct (Z.ltb_spec a b)
  | |- context [?a <=? ?b] => destruct (Z.leb_spec a b)
  | |- context [?a =? ?b] => destruct (Z.eqb_spec a b)
  end.

(** Case analysis on the tests of a definition, in the goal or in a
    hypothesis, closing the contradictory branches. *)
Ltac case_tests :=
  repeat (case_match; simplify_eq/=; try lia).

(** Run the primitive steps of a computation. *)
Ltac run_m := unfold mret, M_ret, mbind, M_bind, gets, modify, throw, stuck, id; cbn.
(** Equality of word counters: drop the wrap-arounds, rewrite with [H]. *)
Ltac eq64_by H :=
  repeat rewrite eq64_u64; repeat rewrite H; repeat rewrite eq64_u64;
  unfold eq64; apply f_equal; lia.

Ltac run_in H :=
  unfold mret, M_ret, mbind, M_bind, gets, modify, throw, stuck, id in H; cbn in H.

Create HintDb word.
Create Rewrite HintDb zlen.
#[export] Hint Resolve u64_range s64_range zlength_nonneg : word.
#[export] Hint Rewrite @zlength_app @zlength_cons @zlength_zinsert @zlength_fmap : zlen.
Ltac zlen := zlen_nil; autorewrite with zlen in *; zlen_nil; try lia.
