(* ===== verification/Types.v ===== *)
(** * Value types shared by the components

    The enumerations and plain structs of the public headers
    ([queue_status.hpp], [pop_result.hpp], [batch_publish_result.hpp],
    [lifecycle.hpp], [config.hpp], [delivery.hpp], [metrics.hpp]). *)

From S2P Require Import Prelude.
Local Open Scope Z_scope.

(** ** queue/queue_status.hpp *)

Inductive queue_status : Type :=
  | success | full | empty | closed | stopped | timeout.

#[export] Instance queue_status_eq_dec : EqDecision queue_status.
Proof. solve_decision. Defined.

(** ** queue/pop_result.hpp *)

Module PopResult.
Section pop_result.
Context {E : Type}.

Record pop_result : Type := mk_pop_result {
  status_ : queue_status;
  value_ : option E;
}.

Definition make_success (event : E) : pop_result := mk_pop_result success (Some event).
Definition make_empty : pop_result := mk_pop_result empty None.
Definition make_closed : pop_result := mk_pop_result closed None.
Definition make_stopped : pop_result := mk_pop_result stopped None.

Definition status (r : pop_result) : queue_status := status_ r.
Definition has_value (r : pop_result) : bool := bool_decide (is_Some (value_ r)).
(** [value()] on a disengaged optional throws [std::bad_optional_access]. *)
Definition value (r : pop_result) : exn + E :=
  match value_ r with
  | Some event => inr event
  | None => inl bad_optional_access
  end.

(** The results the class can build: its constructors are private and the
    four factories are the only callers. *)
Inductive built : pop_result -> Prop :=
  | built_success event : built (make_success event)
  | built_empty : built make_empty
  | built_closed : built make_closed
  | built_stopped : built make_stopped.

Lemma built_engaged r : built r -> (has_value r = true <-> status r = success).
Proof. by destruct 1; split. Qed.

End pop_result.
Arguments pop_result : clear implicits.
End PopResult.
Export (hints) PopResult.

(** ** batch_publish_result.hpp *)

Record batch_publish_result : Type := mk_batch_publish_result {
  requested : Z;
  accepted_prefix : Z;
  batch_status : queue_status;
}.

Definition complete (r : batch_publish_result) : bool :=
  (accepted_prefix r =? requested r) && bool_decide (batch_status r = success).

(** ** lifecycle.hpp *)

Inductive lifecycle_state : Type :=
  | created | running | drain_stopping | discard_stopping | lifecycle_stopped.

#[export] Instance lifecycle_state_eq_dec : EqDecision lifecycle_state.
Proof. solve_decision. Defined.

(** ** config.hpp and src/config.cpp *)

Inductive shutdown_policy : Type := drain | discard.

#[export] Instance shutdown_policy_eq_dec : EqDecision shutdown_policy.
Proof. solve_decision. Defined.

Record dispatcher_config : Type := mk_dispatcher_config {
  queue_capacity : Z;
  worker_count : Z;
  worker_batch_size : Z;
  shutdown : shutdown_policy;
}.

Definition default_config : dispatcher_config := mk_dispatcher_config 4096 1 1 drain.

(** [detected] is what [std::thread::hardware_concurrency()] returns. *)
Definition hardware_concurrency_defaults (detected : Z) : dispatcher_config :=
  mk_dispatcher_config (queue_capacity default_config)
    (if detected =? 0 then 1 else detected)
    (worker_batch_size default_config) (shutdown default_config).

(** ** delivery.hpp *)

Inductive delivery_policy : Type := concurrent | serialized | isolated.
Inductive delivery_guarantee : Type := best_effort | lossless.

#[export] Instance delivery_policy_eq_dec : EqDecision delivery_policy.
Proof. solve_decision. Defined.
#[export] Instance delivery_guarantee_eq_dec : EqDecision delivery_guarantee.
Proof. solve_decision. Defined.

(** [slow_callback_threshold] is a signed count of nanoseconds. *)
Record subscription_options : Type := mk_subscription_options {
  delivery : delivery_policy;
  guarantee : delivery_guarantee;
  mailbox_capacity : Z;
  slow_callback_threshold : Z;
}.

Definition default_options : subscription_options :=
  mk_subscription_options concurrent best_effort 64 0.

Record subscription_metrics : Type := mk_subscription_metrics {
  offered : Z;
  delivered : Z;
  dropped : Z;
  rejected : Z;
  callback_errors : Z;
  slow_callbacks : Z;
}.

Definition zero_metrics : subscription_metrics := mk_subscription_metrics 0 0 0 0 0 0.

(** ** metrics.hpp *)

Record dispatcher_metrics : Type := mk_dispatcher_metrics {
  events_accepted : Z;
  events_rejected : Z;
  events_dropped : Z;
}.
