(* ===== verification/QueueSpec.v ===== *)
(** * The queue policy contract

    [ConcurrentQueue] is the operation set of [queue/concurrent_queue.hpp]
    (and [emplacing_queue]); [spec_*] is the bounded FIFO every policy
    promises, and [QueueRefines] the law that an implementation computes
    the same results on related states. A waiting operation is its
    evaluation at one wake-up: [None] says the caller parks. *)

From S2P Require Import Prelude Types.
Import PopResult.
Local Open Scope Z_scope.

(** ** The abstract bounded FIFO *)

Record bounded_fifo (E : Type) : Type := mk_fifo {
  items : list E;
  bound : Z;
  is_closed : bool;
}.
Arguments mk_fifo {E} items bound is_closed.
Arguments items {E} b.
Arguments bound {E} b.
Arguments is_closed {E} b.

Section spec.
Context {E C : Type}.
Abbreviation fifo := (bounded_fifo E).

Definition is_full (q : fifo) : bool := zlength (items q) =? bound q.

(** Construct the event and append it; a throwing constructor leaves the
    queue as it was. *)
Definition spec_append (fwd : forward C E) : M (fifo * C) unit := fun '(q, c) =>
  match fwd c with
  | (inr e, c') => Ret tt (mk_fifo (items q ++ [e]) (bound q) (is_closed q), c')
  | (inl ex, c') => Throw ex (q, c')
  end.

Definition spec_try_push (fwd : forward C E) : M (fifo * C) queue_status :=
  '(q, _) ← gets id;
  if is_closed q then mret closed
  else if is_full q then mret full
  else spec_append fwd;; mret success.

Definition spec_wait_push (stop : bool) (fwd : forward C E) :
    M (fifo * C) (option queue_status) :=
  '(q, _) ← gets id;
  if is_closed q then mret (Some closed)
  else if is_full q then mret (if stop then Some stopped else None)
  else spec_append fwd;; mret (Some success).

Definition spec_wait_push_until (stop expired : bool) (fwd : forward C E) :
    M (fifo * C) (option queue_status) :=
  '(q, _) ← gets id;
  if is_closed q then mret (Some closed)
  else if is_full q then
    mret (if stop then Some stopped else if expired then Some timeout else None)
  else spec_append fwd;; mret (Some success).

Definition spec_try_pop : M fifo (pop_result E) :=
  q ← gets id;
  match items q with
  | e :: rest => modify (fun q => mk_fifo rest (bound q) (is_closed q));; mret (make_success e)
  | [] => mret (if is_closed q then make_closed else make_empty)
  end.

Definition spec_wait_pop (stop : bool) : M fifo (option (pop_result E)) :=
  q ← gets id;
  match items q with
  | e :: rest =>
      modify (fun q => mk_fifo rest (bound q) (is_closed q));; mret (Some (make_success e))
  | [] =>
      mret (if is_closed q then Some make_closed
            else if stop then Some make_stopped else None)
  end.

Definition spec_close : M fifo unit := modify (fun q => mk_fifo (items q) (bound q) true).

Definition spec_close_and_discard : M fifo Z :=
  q ← gets id;
  modify (fun q => mk_fifo [] (bound q) true);;
  mret (zlength (items q)).

End spec.

(** ** The operations of a queue policy *)

Class ConcurrentQueue (E Q : Type) : Type := {
  q_try_push : ∀ {C}, forward C E -> M (Q * C) queue_status;
  q_try_emplace : ∀ {C}, forward C E -> M (Q * C) queue_status;
  q_wait_push : ∀ {C}, bool -> forward C E -> M (Q * C) (option queue_status);
  q_wait_push_until : ∀ {C}, bool -> bool -> forward C E -> M (Q * C) (option queue_status);
  q_try_pop : M Q (pop_result E);
  q_wait_pop : bool -> M Q (option (pop_result E));
  q_close : M Q unit;
  q_close_and_discard : M Q Z;
  q_capacity : Q -> Z;
  q_size : M Q Z;
  q_closed : M Q bool;
}.

(** ** Refinement of a computation

    Started in related states, the implementation returns (or throws) what
    the specification does, in related states; it never gets stuck. *)
Definition refines {S S' A} (R : S -> S' -> Prop) (m : M S A) (m' : M S' A) : Prop :=
  ∀ s s', R s s' ->
    match m' s' with
    | Ret a t' => ∃ t, m s = Ret a t /\ R t t'
    | Throw e t' => ∃ t, m s = Throw e t /\ R t t'
    | Stuck f => m s = Stuck f
    end.

(** Lift a relation to states that carry the caller's storage along. *)
Definition with_caller {S S' C} (R : S -> S' -> Prop) (p : S * C) (p' : S' * C) : Prop :=
  R p.1 p'.1 /\ p.2 = p'.2.

Class QueueRefines (E Q : Type) `{ConcurrentQueue E Q} : Type := {
  q_rep : Q -> bounded_fifo E -> Prop;
  q_rep_bound : ∀ q b, q_rep q b -> zlength (items b) <= bound b /\ q_capacity q = bound b;
  q_try_push_refines : ∀ {C} (fwd : forward C E),
    refines (with_caller q_rep) (q_try_push fwd) (spec_try_push fwd);
  q_try_emplace_refines : ∀ {C} (fwd : forward C E),
    refines (with_caller q_rep) (q_try_emplace fwd) (spec_try_push fwd);
  q_wait_push_refines : ∀ {C} stop (fwd : forward C E),
    refines (with_caller q_rep) (q_wait_push stop fwd) (spec_wait_push stop fwd);
  q_wait_push_until_refines : ∀ {C} stop expired (fwd : forward C E),
    refines (with_caller q_rep) (q_wait_push_until stop expired fwd)
      (spec_wait_push_until stop expired fwd);
  q_try_pop_refines : refines q_rep q_try_pop spec_try_pop;
  q_wait_pop_refines : ∀ stop, refines q_rep (q_wait_pop stop) (spec_wait_pop stop);
  q_close_refines : refines q_rep q_close spec_close;
  q_close_and_discard_refines : refines q_rep q_close_and_discard spec_close_and_discard;
  q_size_refines : refines q_rep q_size (gets (fun b => zlength (items b)));
  q_closed_refines : refines q_rep q_closed (gets is_closed);
}.

(** The specification is itself a policy; it refines itself. *)
#[export] Instance fifo_queue E : ConcurrentQueue E (bounded_fifo E) := {
  q_try_push C := spec_try_push;
  q_try_emplace C := spec_try_push;
  q_wait_push C := spec_wait_push;
  q_wait_push_until C := spec_wait_push_until;
  q_try_pop := spec_try_pop;
  q_wait_pop := spec_wait_pop;
  q_close := spec_close;
  q_close_and_discard := spec_close_and_discard;
  q_capacity := bound;
  q_size := gets (fun b => zlength (items b));
  q_closed := gets is_closed;
}.

Lemma refines_ret {S S' A} (R : S -> S' -> Prop) (a : A) : refines R (mret a) (mret a).
Proof. intros s s' HR. by exists s. Qed.

Lemma refines_bind {S S' A B} (R : S -> S' -> Prop) (m : M S A) (m' : M S' A)
    (k : A -> M S B) (k' : A -> M S' B) :
  refines R m m' -> (∀ a, refines R (k a) (k' a)) -> refines R (m ≫= k) (m' ≫= k').
Proof.
  intros Hm Hk s s' HR. specialize (Hm s s' HR). unfold mbind, M_bind.
  destruct (m' s') as [a t'|e t'|f].
  - destruct Hm as (t & -> & Ht). by apply Hk.
  - destruct Hm as (t & -> & Ht). eauto.
  - by rewrite Hm.
Qed.

Lemma refines_on_fst {S S' C A} (R : S -> S' -> Prop) (m : M S A) (m' : M S' A) :
  refines R m m' -> refines (with_caller (C:=C) R) (on_fst m) (on_fst m').
Proof.
  intros Hm [s c] [s' c'] [HR Hc]. simpl in *. subst c'. specialize (Hm s s' HR).
  destruct (m' s') as [a t'|e t'|f].
  - destruct Hm as (t & -> & Ht). by exists (t, c).
  - destruct Hm as (t & -> & Ht). by exists (t, c).
  - by rewrite Hm.
Qed.

(** ** Programs over the non-blocking operations

    A program is a sequence of calls; its observations are the statuses,
    values and exceptions the caller sees, together with what is left of
    the pushed objects. *)

Inductive queue_op (E : Type) : Type :=
  | OpTryPush (arg : exn + E)
  | OpTryEmplace (arg : exn + E)
  | OpWaitPush (stop : bool) (arg : exn + E)
  | OpWaitPushUntil (stop expired : bool) (arg : exn + E)
  | OpTryPop
  | OpWaitPop (stop : bool)
  | OpClose
  | OpCloseAndDiscard
  | OpSize
  | OpClosed.
Arguments OpTryPush {E} arg.
Arguments OpTryEmplace {E} arg.
Arguments OpWaitPush {E} stop arg.
Arguments OpWaitPushUntil {E} stop expired arg.
Arguments OpTryPop {E}.
Arguments OpWaitPop {E} stop.
Arguments OpClose {E}.
Arguments OpCloseAndDiscard {E}.
Arguments OpSize {E}.
Arguments OpClosed {E}.

Inductive queue_obs (E : Type) : Type :=
  | ObsStatus (st : queue_status) (consumed : bool)
  | ObsParked
  | ObsThrew (e : exn)
  | ObsPop (r : pop_result E)
  | ObsUnit
  | ObsCount (n : Z)
  | ObsFlag (b : bool)
  | ObsStuck (f : fault).
Arguments ObsStatus {E} st consumed.
Arguments ObsParked {E}.
Arguments ObsThrew {E} e.
Arguments ObsPop {E} r.
Arguments ObsUnit {E}.
Arguments ObsCount {E} n.
Arguments ObsFlag {E} b.
Arguments ObsStuck {E} f.

Section programs.
Context {E Q : Type} `{!ConcurrentQueue E Q}.

(** The caller's object: [Some] until it is moved from. Constructing from
    [inl ex] throws [ex]. *)
Definition consume (arg : exn + E) : forward bool E := fun _ =>
  match arg with
  | inr e => (inr e, true)
  | inl ex => (inl ex, false)
  end.

Definition observe_push (m : M (Q * bool) queue_status) (q : Q) : queue_obs E * Q :=
  match m (q, false) with
  | Ret st (q', used) => (ObsStatus st used, q')
  | Throw e (q', _) => (ObsThrew e, q')
  | Stuck f => (ObsStuck f, q)
  end.

Definition observe_wait_push (m : M (Q * bool) (option queue_status)) (q : Q) : queue_obs E * Q :=
  match m (q, false) with
  | Ret (Some st) (q', used) => (ObsStatus st used, q')
  | Ret None (q', _) => (ObsParked, q')
  | Throw e (q', _) => (ObsThrew e, q')
  | Stuck f => (ObsStuck f, q)
  end.

Definition observe {A} (m : M Q A) (obs : A -> queue_obs E) (q : Q) : queue_obs E * Q :=
  match m q with
  | Ret a q' => (obs a, q')
  | Throw e q' => (ObsThrew e, q')
  | Stuck f => (ObsStuck f, q)
  end.

Definition run_op (op : queue_op E) : Q -> queue_obs E * Q :=
  match op with
  | OpTryPush arg => observe_push (q_try_push (consume arg))
  | OpTryEmplace arg => observe_push (q_try_emplace (consume arg))
  | OpWaitPush stop arg => observe_wait_push (q_wait_push stop (consume arg))
  | OpWaitPushUntil stop expired arg =>
      observe_wait_push (q_wait_push_until stop expired (consume arg))
  | OpTryPop => observe q_try_pop ObsPop
  | OpWaitPop stop =>
      observe (q_wait_pop stop) (fun r => if r is Some r then ObsPop r else ObsParked)
  | OpClose => observe q_close (fun _ => ObsUnit)
  | OpCloseAndDiscard => observe q_close_and_discard ObsCount
  | OpSize => observe q_size ObsCount
  | OpClosed => observe q_closed ObsFlag
  end.

Fixpoint run_ops (ops : list (queue_op E)) (q : Q) : list (queue_obs E) * Q :=
  match ops with
  | [] => ([], q)
  | op :: ops =>
      let '(o, q') := run_op op q in
      let '(os, q'') := run_ops ops q' in
      (o :: os, q'')
  end.

Lemma run_ops_cons op ops q :
  (run_ops (op :: ops) q).1 = (run_op op q).1 :: (run_ops ops (run_op op q).2).1.
Proof.
  cbn [run_ops]. destruct (run_op op q) as [o q']. simpl. by destruct (run_ops ops q').
Qed.

End programs.

Section equivalence.
Context {E Q : Type} `{HQ : QueueRefines E Q}.

Lemma observe_push_refines m m' (q : Q) (b : bounded_fifo E) :
  refines (with_caller q_rep) m m' -> q_rep q b ->
  (observe_push (E:=E) m q).1 = (observe_push (E:=E) (Q:=bounded_fifo E) m' b).1 /\
  q_rep (observe_push (E:=E) m q).2 (observe_push (E:=E) (Q:=bounded_fifo E) m' b).2.
Proof.
  intros Hm Hr. specialize (Hm (q, false) (b, false) (conj Hr eq_refl)).
  unfold observe_push. destruct (m' (b, false)) as [a [b' u']|e [b' u']|f].
  - destruct Hm as ([q' u] & -> & Hr' & Hu). simpl in *. by subst.
  - destruct Hm as ([q' u] & -> & Hr' & Hu). simpl in *. by subst.
  - by rewrite Hm.
Qed.

Lemma observe_wait_push_refines m m' (q : Q) (b : bounded_fifo E) :
  refines (with_caller q_rep) m m' -> q_rep q b ->
  (observe_wait_push (E:=E) m q).1 = (observe_wait_push (E:=E) (Q:=bounded_fifo E) m' b).1 /\
  q_rep (observe_wait_push (E:=E) m q).2 (observe_wait_push (E:=E) (Q:=bounded_fifo E) m' b).2.
Proof.
  intros Hm Hr. specialize (Hm (q, false) (b, false) (conj Hr eq_refl)).
  unfold observe_wait_push. destruct (m' (b, false)) as [[a|] [b' u']|e [b' u']|f].
  1-3: destruct Hm as ([q' u] & -> & Hr' & Hu); simpl in *; by subst.
  by rewrite Hm.
Qed.

Lemma observe_refines {A} (m : M Q A) m' obs (q : Q) (b : bounded_fifo E) :
  refines q_rep m m' -> q_rep q b ->
  (observe m obs q).1 = (observe (E:=E) (Q:=bounded_fifo E) m' obs b).1 /\
  q_rep (observe m obs q).2 (observe (E:=E) (Q:=bounded_fifo E) m' obs b).2.
Proof.
  intros Hm Hr. specialize (Hm q b Hr). unfold observe.
  destruct (m' b) as [a b'|e b'|f].
  1-2: destruct Hm as (q' & -> & Hr'); by simpl.
  by rewrite Hm.
Qed.

Lemma run_op_refines op (q : Q) (b : bounded_fifo E) :
  q_rep q b ->
  (run_op op q).1 = (run_op op b).1 /\ q_rep (run_op op q).2 (run_op op b).2.
Proof.
  intros Hr. destruct op; cbn [run_op];
    [ apply observe_push_refines | apply observe_push_refines | apply observe_wait_push_refines
    | apply observe_wait_push_refines | apply observe_refines.. ]; try done.
  - apply q_try_push_refines.
  - apply q_try_emplace_refines.
  - apply q_wait_push_refines.
  - apply q_wait_push_until_refines.
  - apply q_try_pop_refines.
  - apply q_wait_pop_refines.
  - apply q_close_refines.
  - apply q_close_and_discard_refines.
  - apply q_size_refines.
  - apply q_closed_refines.
Qed.

(** Whatever the program, a policy that refines the bounded FIFO shows its
    caller what the bounded FIFO would. *)
Lemma run_ops_refines ops (q : Q) (b : bounded_fifo E) :
  q_rep q b ->
  (run_ops ops q).1 = (run_ops ops b).1 /\ q_rep (run_ops ops q).2 (run_ops ops b).2.
Proof.
  revert q b. induction ops as [|op ops IH]; intros q b Hr; simpl; [done|].
  destruct (run_op_refines op q b Hr) as [Ho Hr'].
  destruct (run_op op q) as [o q'], (run_op op b) as [o' b']. simpl in *. subst o'.
  destruct (IH q' b' Hr') as [Hos Hr''].
  destruct (run_ops ops q') as [os q''], (run_ops ops b') as [os' b'']. simpl in *.
  by subst os'.
Qed.

(** Draining the abstract FIFO: its items in order, then [closed] for good. *)
Lemma spec_drain (l : list E) bd k :
  (run_ops (replicate (length l + k) OpTryPop) (mk_fifo l bd true)).1 =
    ((fun e => ObsPop (make_success e)) <$> l) ++ replicate k (ObsPop make_closed).
Proof.
  induction l as [|e l IH]; cbn [length Nat.add replicate].
  - induction k as [|k IHk]; [done|]. cbn [replicate]. rewrite run_ops_cons.
    by apply (f_equal2 cons).
  - rewrite run_ops_cons. by apply (f_equal2 cons).
Qed.

Lemma close_then_drain (q : Q) (b : bounded_fifo E) k :
  q_rep q b ->
  (run_ops (OpClose :: replicate (length (items b) + k) OpTryPop) q).1 =
    ObsUnit :: ((fun e => ObsPop (make_success e)) <$> items b) ++
      replicate k (ObsPop make_closed).
Proof.
  intros Hr. rewrite (proj1 (run_ops_refines _ q b Hr)), run_ops_cons.
  apply (f_equal2 cons); [done|]. apply spec_drain.
Qed.

End equivalence.
