(* ===== verification/MutexQueue.v ===== *)
(** * [bounded_mutex_queue]: the ring under its mutex

    Every method holds the queue mutex for its whole body (waiting methods
    between two sleeps), so each is one state transformer. The condition
    variables and the threads that sleep on them are in [MutexWait]. *)

From S2P Require Import Prelude Types QueueSpec.
Import PopResult.
Local Open Scope Z_scope.

Module MutexQueue.

Record queue (E : Type) : Type := mk_queue {
  slots_ : list (option E);
  head_ : Z;
  tail_ : Z;
  size_ : Z;
  closed_ : bool;
}.
Arguments mk_queue {E} slots_ head_ tail_ size_ closed_.
Arguments slots_ {E} q.
Arguments head_ {E} q.
Arguments tail_ {E} q.
Arguments size_ {E} q.
Arguments closed_ {E} q.

Section ops.
Context {E C : Type}.
Implicit Types q : queue E.

(** The constructor; [slots_(capacity)] fills the ring with empty optionals. *)
Definition make (capacity : Z) : exn + queue E :=
  if capacity =? 0 then inl invalid_argument
  else inr (mk_queue (replicate (Z.to_nat capacity) None) 0 0 0 false).

Definition capacity q : Z := zlength (slots_ q).
Definition size : M (queue E) Z := gets size_.
Definition is_closed : M (queue E) bool := gets closed_.

Definition increment q (index : Z) : Z :=
  let index := u64 (index + 1) in
  if index =? capacity q then 0 else index.

Definition with_slots q (l : list (option E)) : queue E :=
  mk_queue l (head_ q) (tail_ q) (size_ q) (closed_ q).

(** [slots_[index].emplace(forward...)]: whatever the optional held is
    destroyed first; a throwing constructor leaves it disengaged. *)
Definition emplace (index : Z) (fwd : forward C E) : M (queue E * C) unit := fun '(q, c) =>
  match slots_ q !!z index with
  | None => Stuck undefined_behaviour
  | Some _ =>
      match fwd c with
      | (inr e, c') => Ret tt (with_slots q (<[index :=z Some e]> (slots_ q)), c')
      | (inl ex, c') => Throw ex (with_slots q (<[index :=z None]> (slots_ q)), c')
      end
  end.

(** [tail_ = increment(tail_); ++size_;] *)
Definition advance_tail q : queue E :=
  mk_queue (slots_ q) (head_ q) (increment q (tail_ q)) (incr64 (size_ q)) (closed_ q).

Definition push_locked (fwd : forward C E) : M (queue E * C) unit :=
  '(q, _) ← gets id;
  emplace (tail_ q) fwd;;
  on_fst (modify advance_tail).

Definition try_push_impl (fwd : forward C E) : M (queue E * C) queue_status :=
  '(q, _) ← gets id;
  if closed_ q then mret closed
  else if size_ q =? capacity q then mret full
  else push_locked fwd;; mret success.

(** [try_emplace] repeats the body of [push_locked] with its own arguments. *)
Definition try_emplace (fwd : forward C E) : M (queue E * C) queue_status :=
  '(q, _) ← gets id;
  if closed_ q then mret closed
  else if size_ q =? capacity q then mret full
  else emplace (tail_ q) fwd;; on_fst (modify advance_tail);; mret success.

(** The predicates of the waits. *)
Definition can_push q : bool := negb (size_ q =? capacity q) || closed_ q.
Definition can_pop q : bool := negb (size_ q =? 0) || closed_ q.

(** [condition_variable_any::wait(lock, stop, pred)] at one wake-up:
    [Some ready] is its return, [None] means the thread goes (back) to sleep. *)
Definition cv_wait (stop pred : bool) : option bool :=
  if stop then Some pred else if pred then Some true else None.

(** [wait_until(lock, stop, deadline, pred)]; [expired] says the deadline
    has passed, when the inner wait times out and the predicate is returned. *)
Definition cv_wait_until (stop expired pred : bool) : option bool :=
  if stop then Some pred
  else if pred then Some true
  else if expired then Some pred else None.

Definition wait_push_impl (stop : bool) (fwd : forward C E) :
    M (queue E * C) (option queue_status) :=
  '(q, _) ← gets id;
  match cv_wait stop (can_push q) with
  | None => mret None
  | Some false => mret (Some stopped)
  | Some true =>
      if closed_ q then mret (Some closed)
      else push_locked fwd;; mret (Some success)
  end.

Definition wait_push_until_impl (stop expired : bool) (fwd : forward C E) :
    M (queue E * C) (option queue_status) :=
  '(q, _) ← gets id;
  match cv_wait_until stop expired (can_push q) with
  | None => mret None
  | Some false => mret (Some (if stop then stopped else timeout))
  | Some true =>
      if closed_ q then mret (Some closed)
      else push_locked fwd;; mret (Some success)
  end.

(** Moving out of a disengaged optional is undefined behaviour. *)
Definition pop_locked : M (queue E) (pop_result E) :=
  q ← gets id;
  match slots_ q !!z head_ q with
  | Some (Some event) =>
      modify (fun q => with_slots q (<[head_ q :=z None]> (slots_ q)));;
      modify (fun q => mk_queue (slots_ q) (increment q (head_ q)) (tail_ q)
                                (decr64 (size_ q)) (closed_ q));;
      mret (make_success event)
  | _ => stuck undefined_behaviour
  end.

Definition try_pop : M (queue E) (pop_result E) :=
  q ← gets id;
  if size_ q =? 0 then mret (if closed_ q then make_closed else make_empty)
  else pop_locked.

Definition wait_pop (stop : bool) : M (queue E) (option (pop_result E)) :=
  q ← gets id;
  match cv_wait stop (can_pop q) with
  | None => mret None
  | Some false => mret (Some make_stopped)
  | Some true =>
      if size_ q =? 0 then mret (Some make_closed)
      else r ← pop_locked; mret (Some r)
  end.

Definition set_closed q : queue E :=
  mk_queue (slots_ q) (head_ q) (tail_ q) (size_ q) true.

Definition close : M (queue E) unit := modify set_closed.

(** The [while (size_ != 0U)] loop; [n] bounds its iterations, and running
    out of it while [size_ != 0] counts as not terminating. *)
Fixpoint discard_loop (n : nat) : M (queue E) unit :=
  q ← gets id;
  if size_ q =? 0 then mret tt
  else match n with
  | O => stuck blocked
  | S n =>
      (if decide (is_Some (slots_ q !!z head_ q)) then
         modify (fun q => with_slots q (<[head_ q :=z None]> (slots_ q)))
       else stuck undefined_behaviour);;
      modify (fun q => mk_queue (slots_ q) (increment q (head_ q)) (tail_ q)
                                (decr64 (size_ q)) (closed_ q));;
      discard_loop n
  end.

Definition close_and_discard : M (queue E) Z :=
  modify set_closed;;
  discarded ← gets size_;
  q ← gets id;
  discard_loop (length (slots_ q));;
  modify (fun q => mk_queue (slots_ q) (tail_ q) (tail_ q) (size_ q) (closed_ q));;
  mret discarded.

End ops.

#[export] Instance mutex_queue E : ConcurrentQueue E (queue E) := {
  q_try_push C := try_push_impl;
  q_try_emplace C := try_emplace;
  q_wait_push C := wait_push_impl;
  q_wait_push_until C := wait_push_until_impl;
  q_try_pop := try_pop;
  q_wait_pop := wait_pop;
  q_close := close;
  q_close_and_discard := close_and_discard;
  q_capacity := capacity;
  q_size := size;
  q_closed := is_closed;
}.

(** ** The representation invariant

    [rep q b]: some ticket [h] is the position of the oldest event; the
    slots at tickets [h .. h + size) hold the queued events in order and all
    others are disengaged. *)
Section rep.
Context {E : Type}.
Implicit Types (q : queue E) (b : bounded_fifo E).

Record rep_at (h : Z) q b : Prop := {
  rep_capacity : 0 < capacity q < 2 ^ 64;
  rep_head : head_ q = h mod capacity q;
  rep_tail : tail_ q = (h + zlength (items b)) mod capacity q;
  rep_size : size_ q = zlength (items b);
  rep_bound : bound b = capacity q;
  rep_closed : closed_ q = QueueSpec.is_closed b;
  rep_fits : zlength (items b) <= capacity q;
  rep_live : ∀ t, h <= t < h + zlength (items b) ->
    slots_ q !!z (t mod capacity q) = Some (items b !!z (t - h));
  rep_free : ∀ t, h + zlength (items b) <= t < h + capacity q ->
    slots_ q !!z (t mod capacity q) = Some None;
}.

Definition rep q b : Prop := ∃ h, rep_at h q b.

Lemma mutex_make_rep cap q :
  0 <= cap < 2 ^ 64 -> make cap = inr q -> rep q (mk_fifo [] cap false).
Proof.
  unfold make. intros Hc. destruct (Z.eqb_spec cap 0); [done|]. intros [= <-].
  assert (Hcap : capacity (mk_queue (replicate (Z.to_nat cap) (@None E)) 0 0 0 false) = cap).
  { apply zlength_replicate. lia. }
  exists 0. split; rewrite ?Hcap; simpl; zlen_nil; try done; try lia.
  all: intros t Ht; try lia.
  apply zlookup_replicate, Z.mod_pos_bound. lia.
Qed.

Lemma increment_mod q i :
  0 < capacity q < 2 ^ 64 -> increment q (i mod capacity q) = (i + 1) mod capacity q.
Proof.
  intros Hc. pose proof (Z.mod_pos_bound i (capacity q) ltac:(lia)).
  unfold increment. rewrite u64_small by lia. apply mod_succ_wrap. lia.
Qed.

Lemma rep_at_set_closed h q b :
  rep_at h q b -> rep_at h (set_closed q) (mk_fifo (items b) (bound b) true).
Proof. by intros []; split. Qed.

(** Pushing at the tail slot. *)
Lemma rep_at_push h q b e :
  rep_at h q b -> zlength (items b) < capacity q ->
  rep_at h (advance_tail (with_slots q (<[tail_ q :=z Some e]> (slots_ q))))
    (mk_fifo (items b ++ [e]) (bound b) (QueueSpec.is_closed b)).
Proof.
  intros [Hc Hh Ht Hs Hb Hcl Hf Hl Hr] Hlt.
  set (q' := with_slots _ _). assert (Hc' : capacity q' = capacity q).
  { apply zlength_zinsert. }
  pose proof (Z.mod_pos_bound (h + zlength (items b)) (capacity q) ltac:(lia)).
  pose proof (zlength_nonneg (items b)).
  split; unfold advance_tail; change (capacity (mk_queue _ _ _ _ _)) with (capacity q');
    rewrite ?Hc'; simpl; zlen; try done.
  - rewrite Ht, <- Hc', increment_mod, Hc' by lia. f_equal. lia.
  - rewrite Hs. apply incr64_small. lia.
  - intros t Htr. rewrite zlookup_zinsert by (unfold capacity in *; lia).
    rewrite zlookup_snoc by lia. rewrite Ht. repeat case_decide; try done.
    + exfalso. assert (t = h + zlength (items b)); [|lia].
      eapply (mod_window_inj (capacity q)); try done; lia.
    + exfalso. replace t with (h + zlength (items b)) in * by lia. done.
    + apply Hl. lia.
  - intros t Htr. rewrite zlookup_zinsert_ne; [apply Hr; lia|].
    rewrite Ht. intros Heq. assert (h + zlength (items b) = t); [|lia].
    eapply (mod_window_inj (capacity q)); try done; lia.
Qed.

(** Emptying the head slot. *)
Definition pop_state q : queue E :=
  let q := with_slots q (<[head_ q :=z None]> (slots_ q)) in
  mk_queue (slots_ q) (increment q (head_ q)) (tail_ q) (decr64 (size_ q)) (closed_ q).

Lemma rep_at_pop h q b e rest :
  rep_at h q b -> items b = e :: rest ->
  slots_ q !!z head_ q = Some (Some e) /\
  rep_at (h + 1) (pop_state q) (mk_fifo rest (bound b) (QueueSpec.is_closed b)).
Proof.
  intros [Hc Hh Ht Hs Hb Hcl Hf Hl Hr] Hi. rewrite Hi, zlength_cons in *.
  pose proof (zlength_nonneg rest).
  split. { rewrite Hh, Hl by lia. by replace (h - h) with 0 by lia. }
  unfold pop_state. set (q' := with_slots _ _).
  assert (Hc' : capacity q' = capacity q) by apply zlength_zinsert.
  pose proof (Z.mod_pos_bound h (capacity q) ltac:(lia)).
  split; change (capacity (mk_queue _ _ _ _ _)) with (capacity q'); rewrite ?Hc';
    simpl; try done; try lia.
  - rewrite Hh, <- Hc', increment_mod; [done|lia].
  - rewrite Ht. f_equal. lia.
  - rewrite Hs, decr64_small; lia.
  - intros t Htr. rewrite zlookup_zinsert_ne.
    + rewrite Hl, zlookup_cons by lia. do 2 f_equal. lia.
    + rewrite Hh. intros Heq. assert (h = t); [|lia].
      eapply (mod_window_inj (capacity q)); try done; lia.
  - intros t Htr. destruct (decide (t = h + capacity q)) as [->|].
    + rewrite mod_add_self, Hh. apply zlookup_zinsert_eq. unfold capacity in *. lia.
    + rewrite zlookup_zinsert_ne; [apply Hr; lia|].
      rewrite Hh. intros Heq. assert (h = t); [|lia].
      eapply (mod_window_inj (capacity q)); try done; lia.
Qed.

Lemma rep_at_full h q b :
  rep_at h q b -> (size_ q =? capacity q) = QueueSpec.is_full b.
Proof. intros []. unfold QueueSpec.is_full. congruence. Qed.

Lemma rep_at_empty h q b :
  rep_at h q b -> (size_ q =? 0) = match items b with [] => true | _ => false end.
Proof.
  intros []. rewrite rep_size0. destruct (items b) as [|e l]; [done|].
  rewrite zlength_cons. pose proof (zlength_nonneg l). destruct_ltb; [lia|done].
Qed.

(** A disengaged optional overwritten with [None] leaves the ring as it was. *)
Lemma rep_at_throw h q b :
  rep_at h q b -> zlength (items b) < capacity q ->
  with_slots q (<[tail_ q :=z None]> (slots_ q)) = q.
Proof.
  intros [Hc Hh Ht Hs Hb Hcl Hf Hl Hr] Hlt. destruct q as [sl hd tl sz cl].
  unfold with_slots; simpl in *. f_equal. unfold zinsert.
  destruct (Z.leb_spec 0 tl) as [Htl|]; [|done]. apply list_insert_id.
  specialize (Hr (h + zlength (items b)) ltac:(lia)). rewrite <- Ht in Hr.
  unfold zlookup in Hr. by destruct (Z.leb_spec 0 tl); [|lia].
Qed.

Lemma emplace_spec {C} h q b (fwd : forward C E) (c : C) :
  rep_at h q b -> zlength (items b) < capacity q ->
  emplace (tail_ q) fwd (q, c) =
    match fwd c with
    | (inr e, c') => Ret tt (with_slots q (<[tail_ q :=z Some e]> (slots_ q)), c')
    | (inl ex, c') => Throw ex (q, c')
    end.
Proof.
  intros Hr Hlt. unfold emplace.
  destruct (zlookup_lt (slots_ q) (tail_ q)) as [o ->].
  { rewrite (rep_tail _ _ _ Hr). apply Z.mod_pos_bound. apply Hr. }
  destruct (fwd c) as [[ex|e] c']; [|done].
  by rewrite (rep_at_throw h q b).
Qed.

Lemma push_locked_spec {C} h q b (fwd : forward C E) (c : C) :
  rep_at h q b -> zlength (items b) < capacity q ->
  match fwd c with
  | (inr e, c') => ∃ q', push_locked fwd (q, c) = Ret tt (q', c') /\
      rep_at h q' (mk_fifo (items b ++ [e]) (bound b) (QueueSpec.is_closed b))
  | (inl ex, c') => push_locked fwd (q, c) = Throw ex (q, c')
  end.
Proof.
  intros Hr Hlt. unfold push_locked.
  pose proof (emplace_spec h q b fwd c Hr Hlt) as He.
  rewrite bind_gets_id. unfold mbind, M_bind. rewrite He.
  destruct (fwd c) as [[ex|e] c']; [done|].
  eexists. split; [done|]. by apply rep_at_push.
Qed.

Lemma not_full_room h q b :
  rep_at h q b -> QueueSpec.is_full b = false -> zlength (items b) < capacity q.
Proof.
  intros [] Hf. unfold QueueSpec.is_full in Hf. apply Z.eqb_neq in Hf. lia.
Qed.

End rep.

Section refinement.
Context {E : Type}.
Implicit Types (q : queue E) (b : bounded_fifo E).

(** Close a branch that leaves the queue as it was. *)
Local Ltac unchanged h :=
  cbn; eexists; split; [done | first [by exists h | split; [by exists h | done]]].

(** Shared last part of the push operations: once the guards let the push
    through, [push_locked] refines appending to the FIFO. *)
Lemma push_refines_append {C A} (fwd : forward C E) (a : A) h q b (c : C) :
  rep_at h q b -> QueueSpec.is_full b = false ->
  match (spec_append fwd;; mret a) (b, c) with
  | Ret x t' => ∃ t, (push_locked fwd;; mret a) (q, c) = Ret x t /\ with_caller rep t t'
  | Throw e t' => ∃ t, (push_locked fwd;; mret a) (q, c) = Throw e t /\ with_caller rep t t'
  | Stuck f => (push_locked fwd;; mret a) (q, c) = Stuck f
  end.
Proof.
  intros Hr Hf. pose proof (push_locked_spec h q b fwd c Hr (not_full_room _ _ _ Hr Hf)) as Hp.
  unfold mbind, M_bind, spec_append. destruct (fwd c) as [[ex|e] c'].
  - rewrite Hp. eexists. split; [done|]. split; [by exists h|done].
  - destruct Hp as (q' & -> & Hr'). eexists. split; [done|]. split; [by exists h|done].
Qed.

Lemma mutex_try_push_impl_refines {C} (fwd : forward C E) :
  refines (with_caller rep) (try_push_impl fwd) (spec_try_push fwd).
Proof.
  intros [q c] [b c'] [[h Hr] Hc]. simpl in *. subst c'.
  unfold try_push_impl, spec_try_push. rewrite !bind_gets_id.
  rewrite (rep_closed _ _ _ Hr), (rep_at_full _ _ _ Hr).
  destruct (QueueSpec.is_closed b); [unchanged h|].
  destruct (QueueSpec.is_full b) eqn:Hf; [unchanged h|].
  by eapply push_refines_append.
Qed.

(** [try_emplace] is [try_push] on other constructor arguments. *)
Lemma mutex_try_emplace_try_push {C} (fwd : forward C E) p :
  try_emplace fwd p = try_push_impl fwd p.
Proof.
  destruct p as [q c]. unfold try_emplace, try_push_impl, push_locked.
  rewrite !bind_gets_id. unfold mbind, M_bind, gets, id.
  destruct (closed_ q); [done|]. destruct (size_ q =? capacity q); [done|].
  by destruct (emplace _ _ _).
Qed.

Lemma mutex_wait_push_impl_refines {C} stop (fwd : forward C E) :
  refines (with_caller rep) (wait_push_impl stop fwd) (spec_wait_push stop fwd).
Proof.
  intros [q c] [b c'] [[h Hr] Hc]. simpl in *. subst c'.
  unfold wait_push_impl, spec_wait_push, can_push, cv_wait. rewrite !bind_gets_id.
  rewrite (rep_closed _ _ _ Hr), (rep_at_full _ _ _ Hr).
  destruct stop, (QueueSpec.is_closed b), (QueueSpec.is_full b) eqn:Hf; simpl;
    first [by unchanged h | by eapply push_refines_append].
Qed.

Lemma mutex_wait_push_until_impl_refines {C} stop expired (fwd : forward C E) :
  refines (with_caller rep) (wait_push_until_impl stop expired fwd)
    (spec_wait_push_until stop expired fwd).
Proof.
  intros [q c] [b c'] [[h Hr] Hc]. simpl in *. subst c'.
  unfold wait_push_until_impl, spec_wait_push_until, can_push, cv_wait_until.
  rewrite !bind_gets_id.
  rewrite (rep_closed _ _ _ Hr), (rep_at_full _ _ _ Hr).
  destruct stop, expired, (QueueSpec.is_closed b), (QueueSpec.is_full b) eqn:Hf; simpl;
    first [by unchanged h | by eapply push_refines_append].
Qed.

Lemma pop_locked_spec h q b e rest :
  rep_at h q b -> items b = e :: rest ->
  pop_locked q = Ret (make_success e) (pop_state q).
Proof.
  intros Hr Hi. destruct (rep_at_pop h q b e rest Hr Hi) as [Hh _].
  unfold pop_locked. rewrite bind_gets_id. by rewrite Hh.
Qed.

Lemma mutex_try_pop_refines : refines rep (try_pop (E:=E)) spec_try_pop.
Proof.
  intros q b [h Hr]. unfold try_pop, spec_try_pop. rewrite !bind_gets_id.
  rewrite (rep_at_empty _ _ _ Hr), (rep_closed _ _ _ Hr).
  destruct (items b) as [|e rest] eqn:Hi; simpl.
  - unchanged h.
  - rewrite (pop_locked_spec h q b e rest) by done. eexists. split; [done|].
    exists (h + 1). by apply (rep_at_pop h q b e rest).
Qed.

Lemma mutex_wait_pop_refines stop : refines rep (wait_pop (E:=E) stop) (spec_wait_pop stop).
Proof.
  intros q b [h Hr]. unfold wait_pop, spec_wait_pop, can_pop, cv_wait. rewrite !bind_gets_id.
  rewrite (rep_at_empty _ _ _ Hr), (rep_closed _ _ _ Hr).
  pose proof (pop_locked_spec h q b) as Hp. pose proof (rep_at_pop h q b) as Hq.
  destruct (items b) as [|e rest] eqn:Hi.
  - destruct stop, (QueueSpec.is_closed b); simpl; unchanged h.
  - replace (if stop then _ else _) with (Some true) by by destruct stop.
    specialize (Hp e rest Hr eq_refl). specialize (Hq e rest Hr eq_refl). simpl.
    unfold mbind, M_bind. rewrite Hp. eexists. split; [done|]. exists (h + 1). apply Hq.
Qed.

Lemma mutex_discard_loop_spec n : ∀ h q b,
  rep_at h q b -> (length (items b) <= n)%nat ->
  ∃ q' h', discard_loop n q = Ret tt q' /\
    rep_at h' q' (mk_fifo [] (bound b) (QueueSpec.is_closed b)).
Proof.
  induction n as [|n IH]; intros h q b Hr Hn; cbn [discard_loop]; rewrite bind_gets_id;
    rewrite (rep_at_empty _ _ _ Hr); destruct b as [[|e rest] bd cl]; simpl in *; try lia.
  1-2: exists q, h; done.
  destruct (rep_at_pop h q _ e rest Hr eq_refl) as [Hs Hr']. simpl in *.
  rewrite decide_True by by rewrite Hs.
  apply (IH (h + 1) _ _ Hr'). simpl. lia.
Qed.

Lemma mutex_close_and_discard_refines :
  refines rep (close_and_discard (E:=E)) spec_close_and_discard.
Proof.
  intros q b [h Hr]. unfold close_and_discard, spec_close_and_discard.
  pose proof (rep_at_set_closed h q b Hr) as Hc.
  destruct (mutex_discard_loop_spec (length (slots_ (set_closed q))) h _ _ Hc) as (q' & h' & Hd & Hr').
  { pose proof (rep_fits _ _ _ Hr). unfold capacity, zlength in *. simpl. lia. }
  unfold mbind, M_bind, modify, gets, id, mret, M_ret. simpl in *. rewrite Hd. simpl.
  rewrite (rep_size _ _ _ Hr). eexists. split; [done|].
  exists h'. destruct Hr'. split; try done.
  simpl in *. zlen_nil. by rewrite rep_tail0, Z.add_0_r.
Qed.

#[export] Instance mutex_queue_refines : QueueRefines E (queue E).
Proof.
  refine {| q_rep := rep |}.
  - intros q b [h []]. split; [lia|done].
  - intros C fwd. apply mutex_try_push_impl_refines.
  - intros C fwd p p' Hr. cbn. rewrite mutex_try_emplace_try_push. by apply mutex_try_push_impl_refines.
  - intros C stop fwd. apply mutex_wait_push_impl_refines.
  - intros C stop expired fwd. apply mutex_wait_push_until_impl_refines.
  - apply mutex_try_pop_refines.
  - apply mutex_wait_pop_refines.
  - intros q b [h Hr]. eexists. split; [done|]. exists h. by apply rep_at_set_closed.
  - apply mutex_close_and_discard_refines.
  - intros q b [h Hr]. exists q. split; [|by exists h].
    cbn. unfold size, gets. by rewrite (rep_size _ _ _ Hr).
  - intros q b [h Hr]. exists q. split; [|by exists h].
    cbn. unfold is_closed, gets. by rewrite (rep_closed _ _ _ Hr).
Defined.

End refinement.
End MutexQueue.
Export (hints) MutexQueue.
