(* ===== verification/MutexWait.v ===== *)
(** * Sleeping and waking on [bounded_mutex_queue]

    The queue's methods as threads: a critical section is one step, the
    notifications that follow the unlock are further steps, and a waiting
    call whose predicate is false sleeps on its condition variable until a
    notification, a stop request, its deadline or a spurious wake-up. *)

From S2P Require Import Prelude Types QueueSpec MutexQueue.
Import PopResult MutexQueue.
Local Open Scope Z_scope.

Module MutexWait.

Section threads.
Context {E : Type}.

Inductive condvar : Type := not_empty_ | not_full_.

#[export] Instance condvar_eq_dec : EqDecision condvar.
Proof. solve_decision. Defined.

Inductive notification : Type := notify_one (cv : condvar) | notify_all (cv : condvar).

#[export] Instance notification_eq_dec : EqDecision notification.
Proof. solve_decision. Defined.

(** A push carries the outcome of constructing its event: [inl ex] throws. *)
Inductive call : Type :=
  | CallTryPush (arg : exn + E)
  | CallWaitPush (arg : exn + E)
  | CallWaitPushUntil (arg : exn + E)
  | CallTryPop
  | CallWaitPop
  | CallClose
  | CallCloseAndDiscard.

Inductive outcome : Type :=
  | Returned (st : queue_status)
  | Popped (r : pop_result E)
  | Done
  | Discarded (n : Z)
  | Threw (e : exn).

Inductive phase : Type :=
  | Ready (c : call)
  | Sleeping (c : call)
  | Notifying (ns : list notification) (o : outcome)
  | Finished (o : outcome).

(** [stop] is the caller's stop token, [expired] whether its deadline passed. *)
Record thread : Type := mk_thread { phase_of : phase; stop : bool; expired : bool }.

Record config : Type := mk_config { shared : queue E; threads : list thread }.

(** What a call does between taking and releasing the mutex: [None] goes
    back to sleep, [Some (o, ns)] will return [o] after notifying [ns]. *)
Definition after_push (st : queue_status) : outcome * list notification :=
  (Returned st, if bool_decide (st = success) then [notify_one not_empty_] else []).
Definition after_pop (r : pop_result E) : outcome * list notification :=
  (Popped r, if bool_decide (status r = success) then [notify_one not_full_] else []).

Definition run_push (m : M (queue E * bool) queue_status) :
    M (queue E) (option (outcome * list notification)) := fun q =>
  match m (q, false) with
  | Ret st (q', _) => Ret (Some (after_push st)) q'
  | Throw e (q', _) => Ret (Some (Threw e, [])) q'
  | Stuck f => Stuck f
  end.

Definition run_wait_push (m : M (queue E * bool) (option queue_status)) :
    M (queue E) (option (outcome * list notification)) := fun q =>
  match m (q, false) with
  | Ret st (q', _) => Ret (after_push <$> st) q'
  | Throw e (q', _) => Ret (Some (Threw e, [])) q'
  | Stuck f => Stuck f
  end.

Definition closing_notifications : list notification :=
  [notify_all not_empty_; notify_all not_full_].

Definition critical_section (c : call) (stop expired : bool) :
    M (queue E) (option (outcome * list notification)) :=
  match c with
  | CallTryPush arg => run_push (try_push_impl (consume arg))
  | CallWaitPush arg => run_wait_push (wait_push_impl stop (consume arg))
  | CallWaitPushUntil arg => run_wait_push (wait_push_until_impl stop expired (consume arg))
  | CallTryPop => r ← try_pop; mret (Some (after_pop r))
  | CallWaitPop => r ← wait_pop stop; mret (after_pop <$> r)
  | CallClose => close;; mret (Some (Done, closing_notifications))
  | CallCloseAndDiscard =>
      n ← close_and_discard; mret (Some (Discarded n, closing_notifications))
  end.

(** The condition variable whose predicate a call needs. *)
Definition cv_of (c : call) : option condvar :=
  match c with
  | CallTryPush _ | CallWaitPush _ | CallWaitPushUntil _ => Some not_full_
  | CallTryPop | CallWaitPop => Some not_empty_
  | CallClose | CallCloseAndDiscard => None
  end.

Definition sleeps_on (cv : condvar) (t : thread) : bool :=
  match phase_of t with
  | Sleeping c => bool_decide (cv_of c = Some cv)
  | _ => false
  end.

Definition set_phase (t : thread) (p : phase) : thread := mk_thread p (stop t) (expired t).

Definition wake (t : thread) : thread :=
  match phase_of t with
  | Sleeping c => set_phase t (Ready c)
  | _ => t
  end.

Definition wake_on (cv : condvar) (t : thread) : thread :=
  if sleeps_on cv t then wake t else t.

Definition next_phase (c : call) (r : option (outcome * list notification)) : phase :=
  match r with
  | None => Sleeping c
  | Some (o, ns) => Notifying ns o
  end.

Inductive step : config -> config -> Prop :=
  | step_run i t c r q q' ts :
      ts !! i = Some t -> phase_of t = Ready c ->
      critical_section c (stop t) (expired t) q = Ret r q' ->
      step (mk_config q ts) (mk_config q' (<[i := set_phase t (next_phase c r)]> ts))
  | step_notify_one i t cv ns o j u q ts :
      ts !! i = Some t -> phase_of t = Notifying (notify_one cv :: ns) o ->
      ts !! j = Some u -> sleeps_on cv u = true ->
      step (mk_config q ts)
        (mk_config q (<[i := set_phase t (Notifying ns o)]> (<[j := wake u]> ts)))
  | step_notify_nobody i t cv ns o q ts :
      ts !! i = Some t -> phase_of t = Notifying (notify_one cv :: ns) o ->
      (∀ j u, ts !! j = Some u -> sleeps_on cv u = false) ->
      step (mk_config q ts) (mk_config q (<[i := set_phase t (Notifying ns o)]> ts))
  | step_notify_all i t cv ns o q ts :
      ts !! i = Some t -> phase_of t = Notifying (notify_all cv :: ns) o ->
      step (mk_config q ts)
        (mk_config q (<[i := set_phase t (Notifying ns o)]> (wake_on cv <$> ts)))
  | step_return i t o q ts :
      ts !! i = Some t -> phase_of t = Notifying [] o ->
      step (mk_config q ts) (mk_config q (<[i := set_phase t (Finished o)]> ts))
  | step_spurious i t c q ts :
      ts !! i = Some t -> phase_of t = Sleeping c ->
      step (mk_config q ts) (mk_config q (<[i := wake t]> ts))
  | step_request_stop i t q ts :
      ts !! i = Some t ->
      step (mk_config q ts)
        (mk_config q (<[i := wake (mk_thread (phase_of t) true (expired t))]> ts))
  | step_deadline i t q ts :
      ts !! i = Some t ->
      step (mk_config q ts)
        (mk_config q (<[i := wake (mk_thread (phase_of t) (stop t) true)]> ts)).

(** A fresh queue and calls that have not started. *)
Definition start (q : queue E) (cs : list call) : config :=
  mk_config q ((fun c => mk_thread (Ready c) false false) <$> cs).

(** No thread can run: every one sleeps or has returned. *)
Definition quiescent (cfg : config) : Prop :=
  ∀ i t, threads cfg !! i = Some t ->
    match phase_of t with Sleeping _ | Finished _ => True | _ => False end.

(** Calls whose event construction does not throw. *)
Definition nothrow (c : call) : Prop :=
  match c with
  | CallTryPush (inl _) | CallWaitPush (inl _) | CallWaitPushUntil (inl _) => False
  | _ => True
  end.

(** ** Counting threads *)

Definition count (f : thread -> bool) (ts : list thread) : Z :=
  Z.of_nat (length (filter (fun t => f t = true) ts)).

Definition b2z (b : bool) : Z := if b then 1 else 0.

Lemma b2z_nonneg b : 0 <= b2z b.
Proof. by destruct b. Qed.

Lemma count_cons f t ts : count f (t :: ts) = b2z (f t) + count f ts.
Proof.
  unfold count, b2z. rewrite filter_cons. destruct (f t) eqn:Hf.
  - rewrite decide_True by done. simpl. lia.
  - rewrite decide_False by done. lia.
Qed.

Lemma count_insert f ts i t u :
  ts !! i = Some t -> count f (<[i := u]> ts) = count f ts - b2z (f t) + b2z (f u).
Proof.
  revert i. induction ts as [|x ts IH]; intros [|i] Hi; simplify_eq/=.
  - rewrite !count_cons. lia.
  - rewrite !count_cons, (IH i) by done. lia.
Qed.

Lemma count_nonneg f ts : 0 <= count f ts.
Proof. unfold count. lia. Qed.

Lemma count_pos f ts i t : ts !! i = Some t -> f t = true -> 0 < count f ts.
Proof.
  intros Hi Hf. unfold count.
  destruct (filter (fun t => f t = true) ts) eqn:He; [|simpl; lia].
  assert (t ∈ filter (fun t => f t = true) ts) as Hin.
  { apply list_elem_of_filter. split; [done|]. by eapply list_elem_of_lookup_2. }
  rewrite He in Hin. by apply elem_of_nil in Hin.
Qed.

Lemma count_zero f ts : (∀ i t, ts !! i = Some t -> f t = false) -> count f ts = 0.
Proof.
  intros H. unfold count. destruct (filter (fun t => f t = true) ts) as [|u l] eqn:He; [done|].
  assert (u ∈ filter (fun t => f t = true) ts) as [Hf Hin]%list_elem_of_filter.
  { rewrite He. by left. }
  apply list_elem_of_lookup in Hin as [i Hi]. rewrite (H i u Hi) in Hf. done.
Qed.

Lemma count_fmap_eq f g ts : (∀ t, f (g t) = f t) -> count f (g <$> ts) = count f ts.
Proof.
  intros H. induction ts as [|t ts IH]; [done|]. cbn [fmap list_fmap].
  by rewrite !count_cons, H, IH.
Qed.

(** Threads that are about to (re)evaluate their predicate, or owe a
    notification. *)
Definition ready_for (cv : condvar) (t : thread) : bool :=
  match phase_of t with Ready c => bool_decide (cv_of c = Some cv) | _ => false end.
Definition owes_one (cv : condvar) (t : thread) : bool :=
  match phase_of t with
  | Notifying ns _ => bool_decide (ns = [notify_one cv])
  | _ => false
  end.
Definition owes_all (cv : condvar) (t : thread) : bool :=
  match phase_of t with
  | Notifying ns _ => match cv with
      | not_empty_ => bool_decide (ns = closing_notifications)
      | not_full_ => bool_decide (ns = closing_notifications \/ ns = [notify_all not_full_])
      end
  | _ => false
  end.

(** ** The invariant that no wake-up is lost

    [work cv q] is the number of operations the queue could serve now among
    those that wait on [cv]: queued events for consumers, free slots for
    producers. While somebody sleeps on [cv], that work is covered by
    threads already awake and by notifications still owed. *)
Definition work (cv : condvar) (q : queue E) : Z :=
  match cv with not_empty_ => size_ q | not_full_ => capacity q - size_ q end.

Definition phase_ok (t : thread) : Prop :=
  match phase_of t with
  | Ready c => nothrow c
  | Sleeping c => nothrow c /\ stop t = false /\
      (if c is CallWaitPushUntil _ then expired t = false else True)
  | Notifying ns _ =>
      ns = [] \/ ns = closing_notifications \/ ns = [notify_all not_full_] \/
      ∃ cv, ns = [notify_one cv]
  | Finished _ => True
  end.

Record inv (cfg : config) : Prop := {
  inv_rep : ∃ b, rep (shared cfg) b;
  inv_phase : ∀ i t, threads cfg !! i = Some t -> phase_ok t;
  inv_covered : ∀ cv, 0 < count (sleeps_on cv) (threads cfg) ->
    count (owes_all cv) (threads cfg) = 0 ->
    closed_ (shared cfg) = false /\
    work cv (shared cfg) <=
      count (ready_for cv) (threads cfg) + count (owes_one cv) (threads cfg);
}.

(** What a critical section does to the queue. *)
Record effect (c : call) (t : thread) (q : queue E)
    (r : option (outcome * list notification)) (q' : queue E) : Prop := {
  effect_rep : ∃ b, rep q' b;
  effect_cap : capacity q' = capacity q;
  effect_served : ∀ cv, cv_of c = Some cv ->
    match r with
    | None => q' = q /\ work cv q = 0 /\ closed_ q = false /\ stop t = false /\
        (if c is CallWaitPushUntil _ then expired t = false else True)
    | Some (_, []) => q' = q /\ (work cv q = 0 \/ closed_ q = true)
    | Some (_, ns) =>
        ns = [notify_one (match cv with not_empty_ => not_full_ | not_full_ => not_empty_ end)] /\
        work cv q' = work cv q - 1 /\ closed_ q' = closed_ q
    end;
  effect_closing : cv_of c = None -> ∃ o, r = Some (o, closing_notifications);
}.

Lemma rep_shape (q : queue E) b : rep q b -> 0 <= size_ q <= capacity q /\ 0 < capacity q.
Proof. intros [h []]. pose proof (zlength_nonneg (items b)). lia. Qed.

(** A call that leaves the queue alone. *)
Lemma effect_unchanged c t q cv o :
  (∃ b, rep q b) -> cv_of c = Some cv -> work cv q = 0 \/ closed_ q = true ->
  effect c t q (Some (o, [])) q.
Proof.
  intros Hb Hc Hw. split; try done; [|by rewrite Hc].
  intros cv' Hcv. by simplify_eq.
Qed.

Lemma effect_parked c t q cv :
  (∃ b, rep q b) -> cv_of c = Some cv -> work cv q = 0 -> closed_ q = false -> stop t = false ->
  (if c is CallWaitPushUntil _ then expired t = false else True) ->
  effect c t q None q.
Proof.
  intros Hb Hc Hw ? ? ?. split; try done; [|by rewrite Hc].
  intros cv' Hcv. by simplify_eq.
Qed.

Lemma effect_pushed c t q b h e q' o :
  rep_at h q b -> cv_of c = Some not_full_ ->
  rep_at h q' (mk_fifo (items b ++ [e]) (bound b) (QueueSpec.is_closed b)) ->
  effect c t q (Some (o, [notify_one not_empty_])) q'.
Proof.
  intros Hr Hc Hr'.
  pose proof (rep_size _ _ _ Hr) as Hs. pose proof (rep_size _ _ _ Hr') as Hs'.
  pose proof (rep_bound _ _ _ Hr) as Hb. pose proof (rep_bound _ _ _ Hr') as Hb'.
  pose proof (rep_closed _ _ _ Hr) as Hl. pose proof (rep_closed _ _ _ Hr') as Hl'.
  simpl in *. zlen. change (zlength []) with 0 in *.
  split; [by eexists _, h | lia | | by rewrite Hc].
  intros cv Hcv. rewrite Hc in Hcv. simplify_eq. simpl. split; [done|]. split; [lia|congruence].
Qed.

Lemma effect_popped c t q b h e rest o :
  rep_at h q b -> items b = e :: rest -> cv_of c = Some not_empty_ ->
  effect c t q (Some (o, [notify_one not_full_])) (pop_state q).
Proof.
  intros Hr Hi Hc. destruct (rep_at_pop h q b e rest Hr Hi) as [_ Hr'].
  pose proof (rep_size _ _ _ Hr) as Hs. pose proof (rep_size _ _ _ Hr') as Hs'.
  pose proof (rep_bound _ _ _ Hr) as Hb. pose proof (rep_bound _ _ _ Hr') as Hb'.
  rewrite Hi in Hs. simpl in *. zlen.
  split; [by eexists _, _ | lia | | by rewrite Hc].
  intros cv Hcv. rewrite Hc in Hcv. simplify_eq. simpl. split; [done|]. split; [lia|done].
Qed.

(** The three push calls on an event whose construction succeeds. *)
Lemma push_effect c e (t : thread) q r q' :
  c = CallTryPush (inr e) \/ c = CallWaitPush (inr e) \/ c = CallWaitPushUntil (inr e) ->
  (∃ b, rep q b) ->
  critical_section c (stop t) (expired t) q = Ret r q' -> effect c t q r q'.
Proof.
  intros Hc Hex Hcs. pose proof Hex as [b [h Hr]].
  assert (cv_of c = Some not_full_) as Hcv by (by destruct Hc as [->|[->| ->]]).
  assert ((size_ q =? capacity q) = true -> work not_full_ q = 0) as Hw
    by (intros Heq%Z.eqb_eq; simpl; lia).
  pose proof (push_locked_spec h q b (consume (inr e)) false Hr) as Hp. simpl in Hp.
  assert (∀ A (a : A), (size_ q =? capacity q) = false ->
    ∃ q', (push_locked (consume (inr e));; mret a) (q, false) = Ret a (q', true) /\
      rep_at h q' (mk_fifo (items b ++ [e]) (bound b) (QueueSpec.is_closed b))) as Hpush.
  { intros A a Hf. rewrite (rep_at_full _ _ _ Hr) in Hf.
    destruct Hp as (q'' & Hq & Hr'); [by eapply not_full_room|].
    exists q''. split; [|done]. unfold mbind, M_bind. by rewrite Hq. }
  destruct Hc as [->|[->| ->]];
    cbn [critical_section] in Hcs; unfold run_push, run_wait_push, try_push_impl, wait_push_impl,
      wait_push_until_impl, can_push, cv_wait, cv_wait_until in Hcs;
    rewrite bind_gets_id in Hcs;
    destruct (closed_ q) eqn:Hcl, (size_ q =? capacity q) eqn:Hf, (stop t) eqn:Hs,
      (expired t) eqn:Hx; cbn [negb orb] in Hcs;
    first
    [ destruct (Hpush _ success eq_refl) as (q'' & Hq & Hr'); rewrite Hq in Hcs;
      simplify_eq/=; by eapply effect_pushed
    | destruct (Hpush _ (Some success) eq_refl) as (q'' & Hq & Hr'); rewrite Hq in Hcs;
      simplify_eq/=; by eapply effect_pushed
    | run_in Hcs; simplify_eq; eapply effect_unchanged; eauto
    | run_in Hcs; simplify_eq; eapply effect_parked; eauto ].
Qed.

Lemma pop_effect c (t : thread) q r q' :
  c = CallTryPop \/ c = CallWaitPop -> (∃ b, rep q b) ->
  critical_section c (stop t) (expired t) q = Ret r q' -> effect c t q r q'.
Proof.
  intros Hc Hex Hcs. pose proof Hex as [b [h Hr]].
  assert (cv_of c = Some not_empty_) as Hcv by (by destruct Hc as [->| ->]).
  assert ((size_ q =? 0) = true -> work not_empty_ q = 0) as Hw
    by (intros Heq%Z.eqb_eq; simpl; lia).
  pose proof (rep_at_empty _ _ _ Hr) as He.
  pose proof (λ e rest, pop_locked_spec h q b e rest Hr) as Hp.
  pose proof (λ o e rest, effect_popped c t q b h e rest o Hr) as Hpop.
  destruct Hc as [->| ->];
    cbn [critical_section] in Hcs; unfold try_pop, wait_pop, can_pop, cv_wait in Hcs;
    unfold mbind, M_bind in Hcs; unfold gets, id in Hcs;
    destruct (closed_ q) eqn:Hcl, (size_ q =? 0) eqn:Hf, (stop t) eqn:Hs;
    cbn [negb orb] in Hcs; destruct (items b) as [|e rest] eqn:Hi; try done;
    first
    [ rewrite (Hp e rest eq_refl) in Hcs; run_in Hcs; simplify_eq; by eapply Hpop
    | run_in Hcs; simplify_eq; eapply effect_unchanged; eauto
    | run_in Hcs; simplify_eq; eapply effect_parked; eauto ].
Qed.

Lemma close_effect c (t : thread) q r q' :
  cv_of c = None -> (∃ b, rep q b) ->
  critical_section c (stop t) (expired t) q = Ret r q' -> effect c t q r q'.
Proof.
  intros Hc [b Hb] Hcs. destruct c; try done; cbn [critical_section] in Hcs.
  - unfold close in Hcs. run_in Hcs. simplify_eq. destruct Hb as [h Hr].
    split; try done; [|by eexists]. eexists _, h. by apply rep_at_set_closed.
  - pose proof (mutex_close_and_discard_refines q b Hb) as Hd. cbn in Hd.
    destruct Hd as (q'' & Hd & Hr''). unfold mbind, M_bind in Hcs.
    rewrite Hd in Hcs. run_in Hcs. simplify_eq.
    split; [by eexists | | done | by eexists].
    destruct Hb as [h Hr], Hr'' as [h' Hr'].
    pose proof (rep_bound _ _ _ Hr). pose proof (rep_bound _ _ _ Hr'). simpl in *. lia.
Qed.

Lemma critical_section_effect c (t : thread) q r q' :
  nothrow c -> (∃ b, rep q b) ->
  critical_section c (stop t) (expired t) q = Ret r q' -> effect c t q r q'.
Proof.
  intros Hn Hb. destruct c as [[|e]|[|e]|[|e]| | | |]; try done.
  1-3: apply (push_effect _ e); [tauto|done].
  1-2: apply pop_effect; [tauto|done].
  1-2: by apply close_effect.
Qed.

Lemma phase_ok_insert i u (ts : list thread) :
  (∀ j t, ts !! j = Some t -> phase_ok t) -> phase_ok u ->
  ∀ j t, <[i := u]> ts !! j = Some t -> phase_ok t.
Proof.
  intros Hts Hu j t [(<- & <- & _)|[_ Hj]]%list_lookup_insert_Some; [done|by eapply Hts].
Qed.

Lemma phase_ok_wake t : phase_ok t -> phase_ok (wake t).
Proof. destruct t as [[c|c|ns o|o] s x]; [done|by intros (? & _)|done|done]. Qed.

Lemma wake_on_other cv cv' t :
  owes_all cv' (wake_on cv t) = owes_all cv' t /\
  owes_one cv' (wake_on cv t) = owes_one cv' t /\
  (cv' <> cv -> ready_for cv' (wake_on cv t) = ready_for cv' t /\
                sleeps_on cv' (wake_on cv t) = sleeps_on cv' t).
Proof.
  destruct t as [[c|c|ns o|o] s x]; try done.
  unfold wake_on, sleeps_on, ready_for, owes_all, owes_one; simpl.
  repeat (case_bool_decide; simpl; try done).
  all: split_and!; try done; intros; split; congruence.
Qed.

Lemma wake_on_sleeps cv t : sleeps_on cv (wake_on cv t) = false.
Proof.
  destruct t as [[c|c|ns o|o] s x]; try done.
  unfold wake_on, sleeps_on; simpl. repeat (case_bool_decide; simpl; try done).
Qed.

Lemma counts_wake_on cv cv' (ts : list thread) :
  count (sleeps_on cv) (wake_on cv <$> ts) = 0 /\
  count (owes_all cv') (wake_on cv <$> ts) = count (owes_all cv') ts /\
  count (owes_one cv') (wake_on cv <$> ts) = count (owes_one cv') ts /\
  (cv' <> cv -> count (ready_for cv') (wake_on cv <$> ts) = count (ready_for cv') ts /\
                count (sleeps_on cv') (wake_on cv <$> ts) = count (sleeps_on cv') ts).
Proof.
  split_and!.
  - apply count_zero. intros i t. rewrite list_lookup_fmap. intros (u & _ & ->)%fmap_Some. apply wake_on_sleeps.
  - apply count_fmap_eq. intros t. apply wake_on_other.
  - apply count_fmap_eq. intros t. apply wake_on_other.
  - intros Hne. split; apply count_fmap_eq; intros t; by apply wake_on_other.
Qed.

(** Replacing one thread by another that sleeps no more and covers no less. *)
Lemma inv_replace q ts i t u :
  inv (mk_config q ts) -> ts !! i = Some t -> phase_ok u ->
  (∀ cv, b2z (sleeps_on cv u) <= b2z (sleeps_on cv t) /\
    b2z (owes_all cv u) = b2z (owes_all cv t) /\
    b2z (ready_for cv t) + b2z (owes_one cv t) <= b2z (ready_for cv u) + b2z (owes_one cv u)) ->
  inv (mk_config q (<[i := u]> ts)).
Proof.
  intros [Hr Hp Hc] Hi Hu Hb. split; simpl in *; [done|by apply phase_ok_insert|].
  intros cv. rewrite !(count_insert _ _ _ _ _ Hi). intros Hs Ha.
  destruct (Hb cv) as (? & ? & ?). destruct (Hc cv); [lia..|]. split; [done|lia].
Qed.

Lemma inv_wake q ts i t st ex :
  inv (mk_config q ts) -> ts !! i = Some t ->
  (stop t = true -> st = true) -> (expired t = true -> ex = true) ->
  inv (mk_config q (<[i := wake (mk_thread (phase_of t) st ex)]> ts)).
Proof.
  intros Hinv Hi Hst Hex. pose proof (inv_phase _ Hinv i t Hi) as Hok.
  eapply inv_replace; [done|done| |].
  - destruct t as [[c|c|ns o|o] s x]; try done. by destruct Hok.
  - intros cv. destruct t as [[c|c|ns o|o] s x]; try (simpl; split_and!; reflexivity || lia).
    unfold sleeps_on, owes_all, owes_one, ready_for; simpl.
    destruct (bool_decide (cv_of c = Some cv)); simpl; lia.
Qed.

Definition other (cv : condvar) : condvar :=
  match cv with not_empty_ => not_full_ | not_full_ => not_empty_ end.

Lemma work_other cv (q q' : queue E) :
  capacity q' = capacity q -> work cv q' = work cv q - 1 ->
  work (other cv) q' = work (other cv) q + 1.
Proof. destruct cv; simpl; lia. Qed.

Lemma other_ne cv cv' : cv' <> cv -> cv' = other cv.
Proof. by destruct cv, cv'. Qed.

(** The counters of the one thread that ran, before and after. *)
Lemma counts_ready cv t c :
  phase_of t = Ready c ->
  b2z (sleeps_on cv t) = 0 /\ b2z (owes_one cv t) = 0 /\ b2z (owes_all cv t) = 0 /\
  b2z (ready_for cv t) = b2z (bool_decide (cv_of c = Some cv)).
Proof. destruct t as [ph s x]; simpl. by intros ->. Qed.

Lemma counts_next cv t c r :
  b2z (ready_for cv (set_phase t (next_phase c r))) = 0 /\
  b2z (sleeps_on cv (set_phase t (next_phase c r))) =
    (match r with Some _ => 0 | None => b2z (bool_decide (cv_of c = Some cv)) end) /\
  match r with
  | Some (o, ns) =>
      b2z (owes_one cv (set_phase t (next_phase c r))) = b2z (bool_decide (ns = [notify_one cv])) /\
      (ns = closing_notifications -> b2z (owes_all cv (set_phase t (next_phase c r))) = 1) /\
      (b2z (owes_all cv (set_phase t (next_phase c r))) >= 0)
  | None => b2z (owes_one cv (set_phase t (next_phase c r))) = 0 /\
      b2z (owes_all cv (set_phase t (next_phase c r))) = 0
  end.
Proof.
  destruct r as [[o ns]|]; simpl; [|done].
  split_and!; try done; unfold owes_all; simpl.
  - intros ->. by destruct cv.
  - pose proof (b2z_nonneg (match cv with
      | not_empty_ => bool_decide (ns = closing_notifications)
      | not_full_ => bool_decide (ns = closing_notifications \/ ns = [notify_all not_full_])
      end)). lia.
Qed.

Lemma inv_run q q' ts i t c r :
  inv (mk_config q ts) -> ts !! i = Some t -> phase_of t = Ready c ->
  effect c t q r q' -> inv (mk_config q' (<[i := set_phase t (next_phase c r)]> ts)).
Proof.
  intros [Hr Hp Hc] Hi Ht [Er Ec Es Ecl]. simpl in *.
  pose proof (Hp i t Hi) as Hok. unfold phase_ok in Hok. rewrite Ht in Hok.
  split; simpl; [done| |].
  - apply phase_ok_insert; [done|]. destruct (cv_of c) as [cv|] eqn:Hcv.
    + specialize (Es cv eq_refl). destruct r as [[o [|n ns]]|]; simpl.
      * by left.
      * destruct Es as ([= -> ->] & _). right. right. right. by eexists.
      * split_and!; try done; apply Es.
    + destruct (Ecl eq_refl) as [o ->]. simpl. right. by left.
  - intros cv. set (u := set_phase t (next_phase c r)).
    pose proof (count_nonneg (ready_for cv) (<[i := u]> ts)) as N1.
    pose proof (count_nonneg (owes_one cv) (<[i := u]> ts)) as N2.
    pose proof (count_nonneg (owes_all cv) ts) as N3.
    rewrite !(count_insert _ _ _ _ _ Hi) in *.
    destruct (counts_ready cv t c Ht) as (B1 & B2 & B3 & B4).
    destruct (counts_next cv t c r) as (A1 & A2 & A3). fold u in A1, A2, A3.
    pose proof (b2z_nonneg (owes_one cv u)) as B5.
    specialize (Hc cv). destruct (cv_of c) as [cv0|] eqn:Hcv.
    + specialize (Es cv0 eq_refl). destruct r as [[o [|n ns]]|].
      * destruct Es as (-> & Hw), A3 as (A3 & _ & A4). simpl in *.
        intros Hs Ha. destruct Hc as [Hcl Hc]; [lia..|]. split; [done|].
        case_bool_decide; simplify_eq; simpl in *; [|lia].
        destruct Hw as [Hw|Hw]; [lia|congruence].
      * destruct Es as ([= -> ->] & Hw & ->), A3 as (A3 & _ & A4). simpl in *.
        intros Hs Ha. destruct Hc as [-> Hc]; [lia..|]. split; [done|].
        destruct (decide (cv = cv0)) as [->|Hne].
        -- rewrite bool_decide_true in * by done. simpl in *. lia.
        -- apply other_ne in Hne as ->. rewrite (work_other cv0 q q') by done.
           fold (other cv0) in *. rewrite (bool_decide_true ([_] = _)) in * by done.
           rewrite bool_decide_false in * by (by destruct cv0). simpl in *. lia.
      * destruct Es as (-> & Hw & Hcl & _), A3 as (A3 & A4). simpl in *.
        case_bool_decide; simplify_eq; simpl in *; intros Hs Ha; [split; [done|lia]|].
        destruct Hc as [-> Hc]; [lia..|]. split; [done|lia].
    + destruct (Ecl eq_refl) as [o ->]. destruct A3 as (_ & A3 & _).
      rewrite (A3 eq_refl). intros. lia.
Qed.

Lemma counts_notifying cv t ns o :
  phase_of t = Notifying ns o ->
  sleeps_on cv t = false /\ ready_for cv t = false /\
  owes_one cv t = bool_decide (ns = [notify_one cv]) /\
  owes_all cv t = match cv with
    | not_empty_ => bool_decide (ns = closing_notifications)
    | not_full_ => bool_decide (ns = closing_notifications \/ ns = [notify_all not_full_])
    end.
Proof. destruct t as [ph s x]; simpl. by intros ->. Qed.

Lemma counts_sleeping cv cv' t :
  sleeps_on cv t = true ->
  sleeps_on cv' t = bool_decide (cv = cv') /\ ready_for cv' t = false /\
  owes_one cv' t = false /\ owes_all cv' t = false /\
  sleeps_on cv' (wake t) = false /\ ready_for cv' (wake t) = bool_decide (cv = cv') /\
  owes_one cv' (wake t) = false /\ owes_all cv' (wake t) = false.
Proof.
  destruct t as [[c|c|ns o|o] s x]; try done. unfold sleeps_on, ready_for; simpl.
  intros ->%bool_decide_eq_true. split_and!; try done; repeat case_bool_decide; congruence.
Qed.

Lemma inv_notify_one q ts i t cv ns o j u :
  inv (mk_config q ts) -> ts !! i = Some t -> phase_of t = Notifying (notify_one cv :: ns) o ->
  ts !! j = Some u -> sleeps_on cv u = true ->
  inv (mk_config q (<[i := set_phase t (Notifying ns o)]> (<[j := wake u]> ts))).
Proof.
  intros [Hr Hp Hc] Hi Ht Hj Hu. simpl in *.
  assert (ns = []) as ->.
  { pose proof (Hp i t Hi) as Hok. unfold phase_ok in Hok. rewrite Ht in Hok.
    by destruct Hok as [?|[?|[?|[cv' ?]]]]; simplify_eq. }
  assert (i <> j) as Hij.
  { intros ->. simplify_eq. unfold sleeps_on in Hu. by rewrite Ht in Hu. }
  assert (Hi' : <[j := wake u]> ts !! i = Some t) by (by rewrite list_lookup_insert_ne).
  split; simpl; [done| |].
  - apply phase_ok_insert; [|by left].
    apply phase_ok_insert; [done|]. apply phase_ok_wake. by eapply Hp.
  - intros cv'. rewrite !(count_insert _ _ _ _ _ Hi'), !(count_insert _ _ _ _ _ Hj).
    destruct (counts_notifying cv' t _ _ Ht) as (-> & -> & -> & ->).
    destruct (counts_notifying cv' (set_phase t (Notifying [] o)) [] o eq_refl)
      as (-> & -> & -> & ->).
    destruct (counts_sleeping cv cv' u Hu) as (-> & -> & -> & -> & -> & -> & -> & ->).
    specialize (Hc cv'). destruct cv, cv'; simpl in *; intros Hs Ha;
      (destruct Hc as [Hcl Hc]; [lia..|]); split; try done; lia.
Qed.

Lemma inv_notify_nobody q ts i t cv ns o :
  inv (mk_config q ts) -> ts !! i = Some t -> phase_of t = Notifying (notify_one cv :: ns) o ->
  (∀ j u, ts !! j = Some u -> sleeps_on cv u = false) ->
  inv (mk_config q (<[i := set_phase t (Notifying ns o)]> ts)).
Proof.
  intros [Hr Hp Hc] Hi Ht Hn. simpl in *.
  pose proof (count_zero (sleeps_on cv) ts Hn) as Hz.
  assert (ns = []) as ->.
  { pose proof (Hp i t Hi) as Hok. unfold phase_ok in Hok. rewrite Ht in Hok.
    by destruct Hok as [?|[?|[?|[cv' ?]]]]; simplify_eq. }
  split; simpl; [done| |].
  - apply phase_ok_insert; [done|by left].
  - intros cv'. rewrite !(count_insert _ _ _ _ _ Hi).
    destruct (counts_notifying cv' t _ _ Ht) as (-> & -> & -> & ->).
    destruct (counts_notifying cv' (set_phase t (Notifying [] o)) [] o eq_refl)
      as (-> & -> & -> & ->).
    specialize (Hc cv'). destruct cv, cv'; simpl in *; intros Hs Ha; try lia;
      (destruct Hc as [Hcl Hc]; [lia..|]); split; try done; lia.
Qed.

Lemma inv_notify_all q ts i t cv ns o :
  inv (mk_config q ts) -> ts !! i = Some t -> phase_of t = Notifying (notify_all cv :: ns) o ->
  inv (mk_config q (<[i := set_phase t (Notifying ns o)]> (wake_on cv <$> ts))).
Proof.
  intros [Hr Hp Hc] Hi Ht. simpl in *.
  assert (cv = not_empty_ /\ ns = [notify_all not_full_] \/ cv = not_full_ /\ ns = []) as Hns.
  { pose proof (Hp i t Hi) as Hok. unfold phase_ok in Hok. rewrite Ht in Hok.
    unfold closing_notifications in Hok.
    destruct Hok as [?|[?|[?|[cv' ?]]]]; simplify_eq; [by left|by right]. }
  assert (Hi' : (wake_on cv <$> ts) !! i = Some t).
  { rewrite list_lookup_fmap, Hi. simpl. unfold wake_on, sleeps_on. by rewrite Ht. }
  split; simpl; [done| |].
  - apply phase_ok_insert; [|by destruct Hns as [[_ ->]|[_ ->]]; [right; right; left|left]].
    intros k v. rewrite list_lookup_fmap. intros (w & Hw & ->)%fmap_Some.
    unfold wake_on. destruct (sleeps_on cv w); [apply phase_ok_wake|]; by eapply Hp.
  - intros cv'. rewrite !(count_insert _ _ _ _ _ Hi').
    destruct (counts_wake_on cv cv' ts) as (W1 & -> & -> & W4).
    destruct (counts_notifying cv' t _ _ Ht) as (-> & -> & -> & ->).
    destruct (counts_notifying cv' (set_phase t (Notifying ns o)) ns o eq_refl)
      as (-> & -> & -> & ->).
    specialize (Hc cv').
    destruct Hns as [[-> ->]|[-> ->]], cv'; simpl in *; intros Hs Ha; try lia;
      (destruct W4 as [W4 W5]; [done|]); rewrite W4, W5 in *;
      (destruct Hc as [Hcl Hc]; [lia..|]); split; try done; lia.
Qed.

Lemma inv_return q ts i t o :
  inv (mk_config q ts) -> ts !! i = Some t -> phase_of t = Notifying [] o ->
  inv (mk_config q (<[i := set_phase t (Finished o)]> ts)).
Proof.
  intros Hinv Hi Ht. eapply inv_replace; [done..|]. intros cv.
  destruct (counts_notifying cv t _ _ Ht) as (-> & -> & -> & ->).
  by destruct cv; simpl.
Qed.

Lemma inv_step cfg cfg' : inv cfg -> step cfg cfg' -> inv cfg'.
Proof.
  intros Hinv Hs. destruct Hs.
  - eapply inv_run; try done. apply critical_section_effect; [|apply Hinv|done].
    pose proof (inv_phase _ Hinv i t H) as Hok. unfold phase_ok in Hok. by rewrite H0 in Hok.
  - by eapply inv_notify_one.
  - by eapply inv_notify_nobody.
  - by eapply inv_notify_all.
  - by eapply inv_return.
  - replace t with (mk_thread (phase_of t) (stop t) (expired t)) by by destruct t.
    by apply inv_wake.
  - by apply inv_wake.
  - by apply inv_wake.
Qed.

Lemma inv_start cap q cs :
  0 <= cap < 2 ^ 64 -> make cap = inr q -> Forall nothrow cs -> inv (start q cs).
Proof.
  intros Hc Hm Hn. split; simpl.
  - eexists. by eapply mutex_make_rep.
  - intros i t. rewrite list_lookup_fmap. intros (c & Hc' & ->)%fmap_Some.
    unfold phase_ok. simpl. by eapply Forall_lookup.
  - intros cv. rewrite (count_zero (sleeps_on cv)); [lia|].
    intros i t. rewrite list_lookup_fmap. by intros (c & Hc' & ->)%fmap_Some.
Qed.

(** In a state where nothing can run, whoever sleeps has a reason to. *)
Lemma inv_quiescent cfg cv i t :
  inv cfg -> quiescent cfg -> threads cfg !! i = Some t -> sleeps_on cv t = true ->
  closed_ (shared cfg) = false /\ work cv (shared cfg) = 0 /\ stop t = false.
Proof.
  intros [Hr Hp Hc] Hq Hi Hs.
  assert (∀ f, (∀ u, match phase_of u with Sleeping _ | Finished _ => True | _ => False end ->
    f u = false) -> count f (threads cfg) = 0) as Hz.
  { intros f Hf. apply count_zero. intros k u Hk. apply Hf. by eapply Hq. }
  destruct (Hc cv) as [Hcl Hw].
  - by eapply count_pos.
  - apply Hz. intros u. unfold owes_all. by destruct (phase_of u).
  - rewrite !Hz in Hw.
    + split_and!; [done| |].
      * destruct Hr as [b Hr]. apply rep_shape in Hr. destruct cv; simpl in *; lia.
      * pose proof (Hp i t Hi) as Hok. unfold phase_ok, sleeps_on in *.
        destruct (phase_of t); try done. by destruct Hok as (_ & ? & _).
    + intros u. unfold owes_one. by destruct (phase_of u).
    + intros u. unfold ready_for. by destruct (phase_of u).
Qed.

(** A critical section always returns: no undefined behaviour, no
    unbounded loop under the mutex. *)
Lemma critical_section_total c st ex (q : queue E) b :
  rep q b -> ∃ r q', critical_section c st ex q = Ret r q' /\ ∃ b', rep q' b'.
Proof.
  intros Hr. assert (with_caller rep (q, false) (b, false)) as Hp by done.
  destruct c as [arg|arg|arg| | | |]; cbn [critical_section].
  - pose proof (mutex_try_push_impl_refines (consume arg) _ _ Hp) as Hm. unfold run_push.
    unfold spec_try_push in Hm. rewrite bind_gets_id in Hm.
    destruct (QueueSpec.is_closed b), (QueueSpec.is_full b), arg; cbn in Hm;
      destruct Hm as ([q' u] & -> & Hr' & _); by eauto.
  - pose proof (mutex_wait_push_impl_refines st (consume arg) _ _ Hp) as Hm. unfold run_wait_push.
    unfold spec_wait_push in Hm. rewrite bind_gets_id in Hm.
    destruct (QueueSpec.is_closed b), (QueueSpec.is_full b), arg; cbn in Hm;
      destruct Hm as ([q' u] & -> & Hr' & _); by eauto.
  - pose proof (mutex_wait_push_until_impl_refines st ex (consume arg) _ _ Hp) as Hm.
    unfold run_wait_push. unfold spec_wait_push_until in Hm. rewrite bind_gets_id in Hm.
    destruct (QueueSpec.is_closed b), (QueueSpec.is_full b), arg; cbn in Hm;
      destruct Hm as ([q' u] & -> & Hr' & _); by eauto.
  - pose proof (mutex_try_pop_refines q b Hr) as Hm. unfold spec_try_pop in Hm.
    rewrite bind_gets_id in Hm. unfold mbind, M_bind.
    destruct (items b); cbn in Hm; destruct Hm as (q' & -> & Hr'); by eauto.
  - pose proof (mutex_wait_pop_refines st q b Hr) as Hm. unfold spec_wait_pop in Hm.
    rewrite bind_gets_id in Hm. unfold mbind, M_bind.
    destruct (items b); cbn in Hm; destruct Hm as (q' & -> & Hr'); by eauto.
  - destruct Hr as [h Hr]. do 2 eexists. split; [done|].
    eexists _, h. by apply rep_at_set_closed.
  - destruct (mutex_close_and_discard_refines q b Hr) as (q' & Hm & Hr').
    unfold mbind, M_bind. rewrite Hm. by eauto.
Qed.

End threads.
Arguments call : clear implicits.
Arguments outcome : clear implicits.
Arguments phase : clear implicits.
Arguments thread : clear implicits.
Arguments config : clear implicits.


(** ** Properties *)

(** C31: No lost wake-up: if no event construction throws, then whenever
    the calls on a queue have come to rest, a caller still asleep in a push
    sees a full, open queue and no stop request (nor, for a timed push, an
    expired deadline), and a caller still asleep in a pop sees an empty,
    open queue and no stop request. *)
Theorem no_lost_wakeup {E} cap (q : queue E) cs cfg i t c cv :
  0 <= cap < 2 ^ 64 -> make cap = inr q -> Forall nothrow cs ->
  rtc step (start q cs) cfg -> quiescent cfg ->
  threads cfg !! i = Some t -> phase_of t = Sleeping c -> cv_of c = Some cv ->
  closed_ (shared cfg) = false /\ stop t = false /\
  match c with
  | CallTryPop | CallWaitPop => size_ (shared cfg) = 0
  | CallWaitPushUntil _ => size_ (shared cfg) = capacity (shared cfg) /\ expired t = false
  | _ => size_ (shared cfg) = capacity (shared cfg)
  end.
Proof.
  intros Hc Hm Hn Hr Hq Hi Ht Hcv.
  assert (inv cfg) as Hinv.
  { eapply rtc_invariant; [apply inv_step|by eapply inv_start|done]. }
  assert (sleeps_on cv t = true) as Hs.
  { unfold sleeps_on. rewrite Ht. by apply bool_decide_eq_true. }
  destruct (inv_quiescent cfg cv i t Hinv Hq Hi Hs) as (Hcl & Hw & Hst).
  pose proof (inv_phase _ Hinv i t Hi) as Hok. unfold phase_ok in Hok. rewrite Ht in Hok.
  split; [done|]. split; [done|].
  destruct c; simplify_eq/=; try lia. split; [lia|]. by destruct Hok as (_ & _ & ?).
Qed.

(** A fresh queue of one slot, and three calls on it. *)
Definition one_slot : queue Z := mk_queue [None] 0 0 0 false.

Ltac run_thread i :=
  eapply rtc_l; [eapply (step_run i); [reflexivity|reflexivity|vm_compute; reflexivity]|].

Lemma no_lost_wakeup_witness :
  ∃ cfg t, rtc step (start one_slot [CallWaitPush (inr 7); CallWaitPush (inr 8)]) cfg /\
    quiescent cfg /\ threads cfg !! 1%nat = Some t /\
    phase_of t = Sleeping (CallWaitPush (inr 8)) /\
    size_ (shared cfg) = capacity (shared cfg).
Proof.
  assert (∃ cfg, rtc step (start one_slot [CallWaitPush (inr 7); CallWaitPush (inr 8)]) cfg /\
    cfg = mk_config (mk_queue [Some 7] 0 0 1 false)
      [mk_thread (Finished (Returned success)) false false;
       mk_thread (Sleeping (CallWaitPush (inr 8))) false false]) as (cfg & Hr & ->).
  { eexists. split; [|reflexivity].
    run_thread 0%nat. run_thread 1%nat.
    eapply rtc_l; [eapply (step_notify_nobody 0%nat); [reflexivity..|]|].
    { intros [|[|j]] u Hj; vm_compute in Hj; by simplify_eq. }
    eapply rtc_l; [eapply (step_return 0%nat); reflexivity|]. apply rtc_refl. }
  assert (quiescent (mk_config (mk_queue [Some 7] 0 0 1 false)
      [mk_thread (Finished (Returned success)) false false;
       mk_thread (Sleeping (CallWaitPush (inr 8))) false false])) as Hq.
  { intros [|[|j]] u Hj; vm_compute in Hj; by simplify_eq. }
  eexists _, _. split; [exact Hr|]. split; [exact Hq|]. split; [reflexivity|].
  split; [reflexivity|].
  refine (proj2 (proj2 (no_lost_wakeup 1 one_slot _ _ 1%nat _ (CallWaitPush (inr 8)) not_full_
    _ _ _ Hr Hq _ _ _))); try reflexivity; [lia|by repeat constructor].
Defined.

(** C32: A throwing event copy loses a wake-up: a pop on a full queue
    notifies one of two producers blocked in [wait_push]; if the copy of that
    producer's event throws, it leaves without passing the notification on,
    and the other producer sleeps on although the queue is open and empty and
    every other call has returned. *)
Theorem throwing_copy_loses_wakeup :
  ∃ cfg t, rtc step
      (start one_slot [CallTryPush (inr 1); CallWaitPush (inl (user_exception 0));
                       CallWaitPush (inr 2); CallTryPop]) cfg /\
    quiescent cfg /\ threads cfg !! 2%nat = Some t /\
    phase_of t = Sleeping (CallWaitPush (inr 2)) /\ stop t = false /\
    closed_ (shared cfg) = false /\ size_ (shared cfg) = 0 /\ capacity (shared cfg) = 1.
Proof.
  assert (∃ cfg, rtc step
      (start one_slot [CallTryPush (inr 1); CallWaitPush (inl (user_exception 0));
                       CallWaitPush (inr 2); CallTryPop]) cfg /\
    cfg = mk_config (mk_queue [None] 0 0 0 false)
      [mk_thread (Finished (Returned success)) false false;
       mk_thread (Finished (Threw (user_exception 0))) false false;
       mk_thread (Sleeping (CallWaitPush (inr 2))) false false;
       mk_thread (Finished (Popped (make_success 1))) false false]) as (cfg & Hr & ->).
  { eexists. split; [|reflexivity].
    run_thread 0%nat. run_thread 1%nat. run_thread 2%nat.
    eapply rtc_l; [eapply (step_notify_nobody 0%nat); [reflexivity..|]|].
    { intros [|[|[|[|j]]]] u Hj; vm_compute in Hj; by simplify_eq. }
    eapply rtc_l; [eapply (step_return 0%nat); reflexivity|].
    run_thread 3%nat.
    eapply rtc_l; [eapply (step_notify_one 3%nat _ _ _ _ 1%nat); reflexivity|].
    eapply rtc_l; [eapply (step_return 3%nat); reflexivity|].
    run_thread 1%nat.
    eapply rtc_l; [eapply (step_return 1%nat); reflexivity|]. apply rtc_refl. }
  eexists _, _. split; [exact Hr|].
  split; [intros [|[|[|[|j]]]] u Hj; vm_compute in Hj; by simplify_eq|].
  by repeat (split; [reflexivity|]).
Qed.

End MutexWait.
