(* ===== verification/IndexRing.v ===== *)
(** * [scalable_circular_index_queue]: the SCQ index ring on 64-bit words

    Each operation is a program counter that advances by one atomic access
    (load, store, fetch-and-add, fetch-or or compare-exchange) per step;
    local computation is folded into the step that precedes it. Interleaving
    the steps of several operations is the ring's concurrent behaviour, and
    running one operation alone is its sequential behaviour. *)

From S2P Require Import Prelude.
Local Open Scope Z_scope.

Module IndexRing.

Record ring : Type := mk_ring {
  capacity_ : Z;
  ring_size_ : Z;
  ring_mask_ : Z;
  entries_ : list Z;
  head_ : Z;
  threshold_ : Z;
  tail_ : Z;
}.

Definition catchup_attempts : Z := 10000.

(** [~x] on a 64-bit word. *)
Definition not64 (x : Z) : Z := u64 (Z.lnot x).

Definition map (r : ring) (index : Z) : Z := Z.land index (ring_mask_ r).
Definition cycle_mask (r : ring) : Z := u64 (ring_size_ r * 2 - 1).
Definition initial_threshold (r : ring) : Z := s64 (u64 (capacity_ r + ring_size_ r - 1)).
Definition before (left right : Z) : bool := s64 (u64 (left - right)) <? 0.
Definition before_or_equal (left right : Z) : bool := s64 (u64 (left - right)) <=? 0.

(** [(ticket << 1U) | cycle_mask()]. *)
Definition ticket_cycle (r : ring) (ticket : Z) : Z :=
  Z.lor (u64 (Z.shiftl ticket 1)) (cycle_mask r).

Definition with_entries (r : ring) (es : list Z) : ring :=
  mk_ring (capacity_ r) (ring_size_ r) (ring_mask_ r) es (head_ r) (threshold_ r) (tail_ r).
Definition with_head (r : ring) (h : Z) : ring :=
  mk_ring (capacity_ r) (ring_size_ r) (ring_mask_ r) (entries_ r) h (threshold_ r) (tail_ r).
Definition with_threshold (r : ring) (t : Z) : ring :=
  mk_ring (capacity_ r) (ring_size_ r) (ring_mask_ r) (entries_ r) (head_ r) t (tail_ r).
Definition with_tail (r : ring) (t : Z) : ring :=
  mk_ring (capacity_ r) (ring_size_ r) (ring_mask_ r) (entries_ r) (head_ r) (threshold_ r) t.

(** ** Construction *)

(** [for (index = first; index < first + n; ++index) entries_[...].store(value(index))]. *)
Fixpoint store_loop (r : ring) (slot value : Z -> Z) (first : Z) (n : nat) : ring :=
  match n with
  | O => r
  | S n =>
      store_loop (with_entries r (<[slot first :=z value first]> (entries_ r)))
        slot value (first + 1) n
  end.

Definition initialize_empty (r : ring) : ring :=
  let r := store_loop r (fun i => i) (fun _ => size_max) 0 (Z.to_nat (ring_size_ r)) in
  with_tail (with_threshold (with_head r 0) (-1)) 0.

Definition initialize_full (r : ring) : ring :=
  let r := store_loop r (map r) (fun i => u64 (ring_size_ r + i)) 0 (Z.to_nat (capacity_ r)) in
  let r := store_loop r (map r) (fun _ => size_max) (capacity_ r)
             (Z.to_nat (ring_size_ r) - Z.to_nat (capacity_ r)) in
  with_tail (with_threshold (with_head r 0) (initial_threshold r)) (capacity_ r).

Definition make (capacity : Z) (initially_full : bool) : ring :=
  let size := u64 (capacity * 2) in
  let r := mk_ring capacity size (u64 (size - 1)) (replicate (Z.to_nat size) 0) 0 (-1) 0 in
  if initially_full then initialize_full r else initialize_empty r.

(** ** Program counters

    [W] is the type of entries: words here, decoded cells in the abstract
    machine. Tickets are the values [fetch_add] returned. *)
Inductive pc (W : Type) : Type :=
  | EnqTicket (index : Z) (known : bool)
  | EnqLoad (index : Z) (known : bool) (ticket : Z)
  | EnqHead (index : Z) (known : bool) (ticket : Z) (entry : W)
  | EnqCas (index : Z) (known : bool) (ticket : Z) (entry : W)
  | EnqThreshold
  | EnqRearm
  | EnqDone
  | DeqThreshold
  | DeqTicket (known : bool)
  | DeqLoad (known : bool) (ticket attempts : Z)
  | DeqConsume (ticket : Z) (entry : W)
  | DeqCas (known : bool) (ticket attempts : Z) (entry replacement : W)
  | DeqTail (ticket : Z)
  | DeqCatchCas (tail head : Z)
  | DeqCatchHead
  | DeqCatchTail (head : Z)
  | DeqEmpty
  | DeqRetry
  | DeqDone (result : option Z).
Arguments EnqTicket {W} index known.
Arguments EnqLoad {W} index known ticket.
Arguments EnqHead {W} index known ticket entry.
Arguments EnqCas {W} index known ticket entry.
Arguments EnqThreshold {W}.
Arguments EnqRearm {W}.
Arguments EnqDone {W}.
Arguments DeqThreshold {W}.
Arguments DeqTicket {W} known.
Arguments DeqLoad {W} known ticket attempts.
Arguments DeqConsume {W} ticket entry.
Arguments DeqCas {W} known ticket attempts entry replacement.
Arguments DeqTail {W} ticket.
Arguments DeqCatchCas {W} tail head.
Arguments DeqCatchHead {W}.
Arguments DeqCatchTail {W} head.
Arguments DeqEmpty {W}.
Arguments DeqRetry {W}.
Arguments DeqDone {W} result.

Definition finished {W} (p : pc W) : bool :=
  match p with EnqDone | DeqDone _ => true | _ => false end.

(** First step of [enqueue(index, known_nonempty)] and of
    [try_dequeue(known_nonempty)]. *)
Definition enqueue_start {W} (index : Z) (known : bool) : pc W := EnqTicket index known.
Definition dequeue_start {W} (known : bool) : pc W :=
  if known then DeqTicket known else DeqThreshold.

(** The test [reusable] on a loaded entry; an unsafe empty entry needs a
    further load of [head_]. *)
Definition enq_inspect (r : ring) (index : Z) (known : bool) (ticket entry : Z) : pc Z :=
  let tail_cycle := ticket_cycle r ticket in
  let entry_cycle := Z.lor entry (cycle_mask r) in
  if before entry_cycle tail_cycle then
    if entry =? entry_cycle then EnqCas index known ticket entry
    else if entry =? Z.lxor entry_cycle (ring_size_ r) then EnqHead index known ticket entry
    else EnqTicket index known
  else EnqTicket index known.

(** Leaving the inner loop of [try_dequeue] without a value. *)
Definition deq_missed {W} (known : bool) (ticket : Z) : pc W :=
  if known then DeqTicket known else DeqTail ticket.

(** The inner loop of [try_dequeue] on a loaded entry. *)
Definition deq_inspect (r : ring) (known : bool) (ticket attempts entry : Z) : pc Z :=
  let head_cycle := ticket_cycle r ticket in
  let entry_cycle := Z.lor entry (cycle_mask r) in
  if entry_cycle =? head_cycle then DeqConsume ticket entry
  else
    let exchange attempts replacement :=
      if negb (before entry_cycle head_cycle) then deq_missed known ticket
      else DeqCas known ticket attempts entry replacement in
    if negb (Z.lor entry (ring_size_ r) =? entry_cycle) then
      let replacement := Z.land entry (not64 (ring_size_ r)) in
      if entry =? replacement then deq_missed known ticket
      else exchange attempts replacement
    else
      let attempts := attempts + 1 in
      if attempts <=? catchup_attempts then DeqLoad known ticket attempts
      else exchange attempts
             (Z.lxor head_cycle (Z.land (not64 entry) (ring_size_ r))).

Definition entry_at (r : ring) (ticket : Z) : Z :=
  default 0 (entries_ r !!z map r ticket).
Definition store_entry (r : ring) (ticket w : Z) : ring :=
  with_entries r (<[map r ticket :=z w]> (entries_ r)).

(** One atomic access. [spurious] makes a [compare_exchange_weak] fail
    although it found the expected value; a failed one reloads the entry. *)
Definition step (spurious : bool) (p : pc Z) (r : ring) : pc Z * ring :=
  match p with
  | EnqTicket index known =>
      (EnqLoad index known (tail_ r), with_tail r (u64 (tail_ r + 1)))
  | EnqLoad index known ticket =>
      (enq_inspect r index known ticket (entry_at r ticket), r)
  | EnqHead index known ticket entry =>
      (if before_or_equal (head_ r) ticket then EnqCas index known ticket entry
       else EnqTicket index known, r)
  | EnqCas index known ticket entry =>
      if negb spurious && (entry_at r ticket =? entry) then
        (if known then EnqDone else EnqThreshold,
         store_entry r ticket
           (Z.lxor (ticket_cycle r ticket) (Z.lxor index (ring_mask_ r))))
      else (enq_inspect r index known ticket (entry_at r ticket), r)
  | EnqThreshold =>
      (if threshold_ r =? initial_threshold r then EnqDone else EnqRearm, r)
  | EnqRearm => (EnqDone, with_threshold r (initial_threshold r))
  | EnqDone => (EnqDone, r)
  | DeqThreshold =>
      (if threshold_ r <? 0 then DeqDone None else DeqTicket false, r)
  | DeqTicket known =>
      (DeqLoad known (head_ r) 0, with_head r (u64 (head_ r + 1)))
  | DeqLoad known ticket attempts =>
      (deq_inspect r known ticket attempts (entry_at r ticket), r)
  | DeqConsume ticket entry =>
      (DeqDone (Some (Z.land entry (ring_mask_ r))),
       store_entry r ticket (Z.lor (entry_at r ticket) (ring_mask_ r)))
  | DeqCas known ticket attempts entry replacement =>
      if negb spurious && (entry_at r ticket =? entry) then
        (deq_missed known ticket, store_entry r ticket replacement)
      else (deq_inspect r known ticket attempts (entry_at r ticket), r)
  | DeqTail ticket =>
      (if before_or_equal (tail_ r) (u64 (ticket + 1))
       then DeqCatchCas (tail_ r) (u64 (ticket + 1)) else DeqRetry, r)
  | DeqCatchCas tail head =>
      if negb spurious && (tail_ r =? tail) then (DeqEmpty, with_tail r head)
      else (DeqCatchHead, r)
  | DeqCatchHead => (DeqCatchTail (head_ r), r)
  | DeqCatchTail head =>
      (if before (tail_ r) head then DeqCatchCas (tail_ r) head else DeqEmpty, r)
  | DeqEmpty => (DeqDone None, with_threshold r (s64 (threshold_ r - 1)))
  | DeqRetry =>
      (if threshold_ r <=? 0 then DeqDone None else DeqTicket false,
       with_threshold r (s64 (threshold_ r - 1)))
  | DeqDone o => (DeqDone o, r)
  end.

(** ** Running one operation alone *)

Fixpoint run (fuel : nat) (p : pc Z) (r : ring) : pc Z * ring :=
  match fuel with
  | O => (p, r)
  | S fuel => if finished p then (p, r) else let '(p', r') := step false p r in run fuel p' r'
  end.

(** Enough for the longest solo operation: a dequeue on an empty ring spins
    [catchup_attempts] times. *)
Definition solo_fuel : nat := N.to_nat 10100.

Definition enqueue (index : Z) (known : bool) : M ring unit := fun r =>
  match run solo_fuel (enqueue_start index known) r with
  | (EnqDone, r') => Ret tt r'
  | _ => Stuck blocked
  end.

Definition try_dequeue (known : bool) : M ring (option Z) := fun r =>
  match run solo_fuel (dequeue_start known) r with
  | (DeqDone o, r') => Ret o r'
  | _ => Stuck blocked
  end.

End IndexRing.
