(* ===== verification/RingWords.v ===== *)
(** * The entry encoding of the index ring

    An entry word holds an index in its low [r] bits (all ones when the
    entry is empty), the safe bit above them, and a cycle above that, where
    the ring has [2^r] entries. These lemmas read the bit operations of the
    algorithm on that layout. *)

From S2P Require Import Prelude IndexRing.
Import IndexRing.
Local Open Scope Z_scope.

Lemma testbit_split k h x i :
  0 <= k -> 0 <= x < 2 ^ k -> 0 <= i ->
  Z.testbit (2 ^ k * h + x) i = if i <? k then Z.testbit x i else Z.testbit h (i - k).
Proof.
  intros Hk Hx Hi. destruct (Z.ltb_spec i k).
  - rewrite <- (Z.mod_pow2_bits_low (2 ^ k * h + x) k i) by lia.
    rewrite Z.add_comm, Z.mul_comm, Z_mod_plus_full, Z.mod_small by lia. done.
  - replace i with ((i - k) + k) at 1 by lia. rewrite <- Z.div_pow2_bits by lia.
    rewrite Z.mul_comm, Z.div_add_l by lia. rewrite Z.div_small by lia. by rewrite Z.add_0_r.
Qed.

Lemma high_bits_false k x i : 0 <= k <= i -> 0 <= x < 2 ^ k -> Z.testbit x i = false.
Proof. intros Hk Hx. rewrite <- (Z.mod_small x (2 ^ k)) by lia. by apply Z.mod_pow2_bits_high. Qed.

Lemma bounded_bits k z :
  0 <= k -> (∀ i, k <= i -> Z.testbit z i = false) -> 0 <= z < 2 ^ k.
Proof.
  intros Hk Hb. replace z with (z mod 2 ^ k); [apply Z.mod_pos_bound; lia|].
  apply Z.bits_inj'. intros i Hi. destruct (decide (i < k)).
  - by apply Z.mod_pow2_bits_low.
  - rewrite Z.mod_pow2_bits_high by lia. symmetry. apply Hb. lia.
Qed.

Section bounded.
Context (k x y : Z) (Hk : 0 <= k) (Hx : 0 <= x < 2 ^ k) (Hy : 0 <= y < 2 ^ k).

Ltac bounded_op :=
  apply bounded_bits; [done|]; intros i Hi;
  rewrite ?Z.lor_spec, ?Z.land_spec, ?Z.lxor_spec, !(high_bits_false k) by lia; done.

Lemma lor_bounded : 0 <= Z.lor x y < 2 ^ k.
Proof. bounded_op. Qed.
Lemma land_bounded : 0 <= Z.land x y < 2 ^ k.
Proof. bounded_op. Qed.
Lemma lxor_bounded : 0 <= Z.lxor x y < 2 ^ k.
Proof. bounded_op. Qed.
End bounded.

(** Bitwise operations act separately on the two parts of a split. *)
Section split.
Context (k p q x y : Z) (Hk : 0 <= k) (Hx : 0 <= x < 2 ^ k) (Hy : 0 <= y < 2 ^ k).

Ltac split_op :=
  apply Z.bits_inj'; intros i Hi;
  rewrite ?Z.lor_spec, ?Z.land_spec, ?Z.lxor_spec, !testbit_split
    by first [lia | apply lor_bounded; lia | apply land_bounded; lia | apply lxor_bounded; lia];
  rewrite ?Z.lor_spec, ?Z.land_spec, ?Z.lxor_spec; by destruct (i <? k).

Lemma lor_split : Z.lor (2 ^ k * p + x) (2 ^ k * q + y) = 2 ^ k * Z.lor p q + Z.lor x y.
Proof. split_op. Qed.
Lemma land_split : Z.land (2 ^ k * p + x) (2 ^ k * q + y) = 2 ^ k * Z.land p q + Z.land x y.
Proof. split_op. Qed.
Lemma lxor_split : Z.lxor (2 ^ k * p + x) (2 ^ k * q + y) = 2 ^ k * Z.lxor p q + Z.lxor x y.
Proof. split_op. Qed.
End split.

Lemma ones_bits k i : 0 <= k -> 0 <= i -> Z.testbit (2 ^ k - 1) i = (i <? k).
Proof.
  intros Hk Hi. replace (2 ^ k - 1) with (Z.ones k) by (rewrite Z.ones_equiv; lia).
  destruct (Z.ltb_spec i k).
  - apply Z.ones_spec_low. lia.
  - apply Z.ones_spec_high. lia.
Qed.

Section ones.
Context (k x : Z) (Hk : 0 <= k) (Hx : 0 <= x < 2 ^ k).

Lemma lor_ones : Z.lor x (2 ^ k - 1) = 2 ^ k - 1.
Proof.
  apply Z.bits_inj'. intros i Hi. rewrite Z.lor_spec, ones_bits by lia.
  destruct (Z.ltb_spec i k); [by rewrite orb_true_r|].
  by rewrite (high_bits_false k x) by lia.
Qed.

Lemma land_ones_low : Z.land x (2 ^ k - 1) = x.
Proof.
  apply Z.bits_inj'. intros i Hi. rewrite Z.land_spec, ones_bits by lia.
  destruct (Z.ltb_spec i k); [by rewrite andb_true_r|].
  by rewrite (high_bits_false k x) by lia.
Qed.

(** Complementing within the low bits. *)
Lemma lxor_ones : Z.lxor (2 ^ k - 1) x = 2 ^ k - 1 - x.
Proof.
  rewrite <- Z.sub_lor_land, Z.lor_comm, lor_ones, Z.land_comm, land_ones_low. done.
Qed.
End ones.

(** ** Decoded words *)

Section words.
Context (r : Z) (Hr : 1 <= r <= 60).

Definition wd (c : Z) (s : bool) (v : Z) : Z :=
  2 ^ r * (2 * (c mod 2 ^ (63 - r)) + Z.b2z s) + v.

Lemma pow_r_pos : 0 < 2 ^ r.
Proof. apply Z.pow_pos_nonneg; lia. Qed.

Lemma pow_r_ge2 : 2 <= 2 ^ r.
Proof. change 2 with (2 ^ 1) at 1. apply Z.pow_le_mono_r; lia. Qed.

Lemma pow_high_pos : 0 < 2 ^ (63 - r).
Proof. apply Z.pow_pos_nonneg; lia. Qed.

Lemma pow_word : 2 * 2 ^ r * 2 ^ (63 - r) = 2 ^ 64.
Proof.
  rewrite <- Z.mul_assoc, <- Z.pow_add_r by lia. by replace (r + (63 - r)) with 63 by lia.
Qed.

Lemma pow_r_small : 4 * 2 ^ r <= 2 ^ 62.
Proof.
  change 4 with (2 ^ 2). rewrite <- Z.pow_add_r by lia. apply Z.pow_le_mono_r; lia.
Qed.

Ltac pows := pose proof pow_r_pos; pose proof pow_r_ge2; pose proof pow_high_pos;
  pose proof pow_word; pose proof pow_r_small.

Lemma high_range c : 0 <= c mod 2 ^ (63 - r) < 2 ^ (63 - r).
Proof. apply Z.mod_pos_bound, pow_high_pos. Qed.

Lemma b2z_range b : 0 <= Z.b2z b <= 1.
Proof. destruct b; simpl; lia. Qed.

Lemma wd_range c s v : 0 <= v < 2 ^ r -> 0 <= wd c s v < 2 ^ 64.
Proof. intros Hv. pows. pose proof (high_range c). pose proof (b2z_range s). unfold wd. nia. Qed.

Lemma wd_u64 c s v :
  0 <= v < 2 ^ r -> u64 (2 ^ r * (2 * c + Z.b2z s) + v) = wd c s v.
Proof.
  intros Hv. pows. pose proof (wd_range c s v Hv) as Hw. rewrite <- (u64_small (wd c s v)) by done.
  apply (u64_eq_by _ _ (c / 2 ^ (63 - r))). unfold wd. rewrite <- pow_word.
  rewrite (Z.div_mod c (2 ^ (63 - r))) at 1 by lia. ring.
Qed.

Lemma wd_inj c s v c' s' v' :
  0 <= v < 2 ^ r -> 0 <= v' < 2 ^ r ->
  wd c s v = wd c' s' v' ->
  c mod 2 ^ (63 - r) = c' mod 2 ^ (63 - r) /\ s = s' /\ v = v'.
Proof.
  intros Hv Hv' He. unfold wd in He. pows.
  set (x := c mod _) in *. set (y := c' mod _) in *.
  assert (2 * x + Z.b2z s = 2 * y + Z.b2z s') as Hh by nia.
  assert (v = v') by nia. destruct s, s'; simpl in *; split_and!; try done; lia.
Qed.

Lemma wd_inj_close c s v c' s' v' :
  0 <= v < 2 ^ r -> 0 <= v' < 2 ^ r -> Z.abs (c - c') * (2 * 2 ^ r) < 2 ^ 63 ->
  wd c s v = wd c' s' v' -> c = c' /\ s = s' /\ v = v'.
Proof.
  intros Hv Hv' Hc (Hm & -> & ->)%wd_inj; [|done..]. split; [|done]. pows.
  apply (mod_window_inj (2 ^ (63 - r))); [done| |done]. nia.
Qed.

(** The masks of a ring of [2^r] entries. *)
Definition wm : Z := 2 ^ r - 1.

Lemma wm_range : 0 <= wm < 2 ^ r.
Proof. unfold wm. pows. lia. Qed.

Ltac low_bits := first [lia | apply wm_range | pows; lia].

Lemma lor_bit h b : Z.lor (2 * h + Z.b2z b) 1 = 2 * h + 1.
Proof.
  change 1 with (2 ^ 1 * 0 + 1) at 1. change (2 * h) with (2 ^ 1 * h).
  rewrite lor_split; [|lia|destruct b; simpl; lia|lia]. rewrite Z.lor_0_r. by destruct b.
Qed.

Lemma wd_lor_cycle c s v : 0 <= v < 2 ^ r -> Z.lor (wd c s v) (2 * 2 ^ r - 1) = wd c true wm.
Proof.
  intros Hv. pows. replace (2 * 2 ^ r - 1) with (2 ^ r * 1 + (2 ^ r - 1)) by lia.
  unfold wd. rewrite lor_split by lia. by rewrite lor_bit, lor_ones by lia.
Qed.

Lemma wd_lor_size c s v : 0 <= v < 2 ^ r -> Z.lor (wd c s v) (2 ^ r) = wd c true v.
Proof.
  intros Hv. pows. replace (2 ^ r) with (2 ^ r * 1 + 0) at 1 by lia.
  unfold wd. rewrite lor_split by lia. by rewrite lor_bit, Z.lor_0_r.
Qed.

Lemma wd_lor_mask c s v : 0 <= v < 2 ^ r -> Z.lor (wd c s v) wm = wd c s wm.
Proof.
  intros Hv. pows. unfold wm. replace (2 ^ r - 1) with (2 ^ r * 0 + (2 ^ r - 1)) at 1 by lia.
  unfold wd. rewrite lor_split by lia. by rewrite Z.lor_0_r, lor_ones by lia.
Qed.

Lemma wd_land_mask c s v : 0 <= v < 2 ^ r -> Z.land (wd c s v) wm = v.
Proof.
  intros Hv. pows. unfold wm. replace (2 ^ r - 1) with (2 ^ r * 0 + (2 ^ r - 1)) by lia.
  unfold wd. rewrite land_split by lia. rewrite Z.land_0_r, land_ones_low by lia. lia.
Qed.

Lemma wd_lxor_size c v : 0 <= v < 2 ^ r -> Z.lxor (wd c true v) (2 ^ r) = wd c false v.
Proof.
  intros Hv. pows. replace (2 ^ r) with (2 ^ r * 1 + 0) at 1 by lia.
  unfold wd. rewrite lxor_split, Z.lxor_0_r by lia. f_equal. f_equal.
  change 1 with (2 ^ 1 * 0 + 1) at 1. change (Z.b2z true) with 1.
  set (h := c mod _). change (2 * h) with (2 ^ 1 * h).
  rewrite lxor_split by lia. by rewrite Z.lxor_0_r.
Qed.

Lemma wd_lxor_low c s x : 0 <= x < 2 ^ r -> Z.lxor (wd c s wm) x = wd c s (wm - x).
Proof.
  intros Hv. pows. replace x with (2 ^ r * 0 + x) at 1 by lia.
  unfold wd. rewrite lxor_split by (first [lia|apply wm_range]).
  unfold wm. by rewrite Z.lxor_0_r, lxor_ones by lia.
Qed.

Lemma wd_lxor_index c s i :
  0 <= i < 2 ^ r -> Z.lxor (wd c s wm) (Z.lxor i wm) = wd c s i.
Proof.
  intros Hi. pows. unfold wm at 2. rewrite Z.lxor_comm with (a := i), lxor_ones by lia.
  rewrite wd_lxor_low by lia. f_equal. unfold wm. lia.
Qed.

Lemma not64_small x : 0 <= x < 2 ^ 64 -> not64 x = 2 ^ 64 - 1 - x.
Proof.
  intros Hx. unfold not64. rewrite <- (u64_small (2 ^ 64 - 1 - x)) by lia.
  apply (u64_eq_by _ _ (-1)). pose proof (Z.add_lnot_diag x). lia.
Qed.

Lemma wd_land_unsafe c s v :
  0 <= v < 2 ^ r -> Z.land (wd c s v) (not64 (2 ^ r)) = wd c false v.
Proof.
  intros Hv. pows. rewrite not64_small by lia.
  replace (2 ^ 64 - 1 - 2 ^ r) with (2 ^ r * (2 ^ 1 * (2 ^ (63 - r) - 1) + 0) + (2 ^ r - 1)) by nia.
  unfold wd. rewrite land_split, land_ones_low by lia. f_equal. f_equal.
  change (2 * (c mod 2 ^ (63 - r))) with (2 ^ 1 * (c mod 2 ^ (63 - r))).
  pose proof (b2z_range s). pose proof (high_range c).
  rewrite land_split, Z.land_0_r, land_ones_low by lia. simpl. lia.
Qed.

Lemma wd_unsafe_bit c s v :
  0 <= v < 2 ^ r -> Z.land (not64 (wd c s v)) (2 ^ r) = if s then 0 else 2 ^ r.
Proof.
  intros Hv. pows. rewrite not64_small by by apply wd_range.
  pose proof (b2z_range s). pose proof (high_range c). set (h := c mod _) in *.
  replace (2 ^ 64 - 1 - wd c s v) with
    (2 ^ r * (2 ^ 1 * (2 ^ (63 - r) - 1 - h) + (1 - Z.b2z s)) + (2 ^ r - 1 - v))
    by (unfold wd; fold h; nia).
  match goal with |- Z.land ?a _ = _ =>
    replace (Z.land a (2 ^ r)) with (Z.land a (2 ^ r * (2 ^ 1 * 0 + 1) + 0)) by (f_equal; lia) end.
  rewrite land_split, Z.land_0_r by lia. rewrite land_split, Z.land_0_r by lia.
  destruct s; [change (Z.land (1 - Z.b2z true) 1) with 0 | change (Z.land (1 - Z.b2z false) 1) with 1];
    lia.
Qed.

Lemma wd_restore_safe c (s : bool) :
  Z.lxor (wd c true wm) (if s then 0 else 2 ^ r) = wd c s wm.
Proof. destruct s; [apply Z.lxor_0_r|]. apply wd_lxor_size, wm_range. Qed.

(** A ticket's cycle: its multiple of the ring size, all lower bits set. *)
Lemma wd_ticket t : Z.lor (u64 (Z.shiftl (u64 t) 1)) (2 * 2 ^ r - 1) = wd (t / 2 ^ r) true wm.
Proof.
  pows. rewrite Z.shiftl_mul_pow2 by lia. change (2 ^ 1) with 2.
  pose proof (Z.div_mod t (2 ^ r) ltac:(lia)). pose proof (Z.mod_pos_bound t (2 ^ r) ltac:(lia)).
  set (x := t mod 2 ^ r) in *. set (c := t / 2 ^ r) in *.
  assert (∃ s v, 0 <= v < 2 ^ r /\ u64 (u64 t * 2) = wd c s v) as (s & v & Hv & ->);
    [|by apply wd_lor_cycle].
  assert (u64 (u64 t * 2) = u64 (t * 2)) as ->.
  { unfold u64. by rewrite Zmult_mod_idemp_l. }
  destruct (decide (2 * x < 2 ^ r)).
  - exists false, (2 * x). split; [lia|]. rewrite <- wd_u64 by lia. f_equal. simpl. lia.
  - exists true, (2 * x - 2 ^ r). split; [lia|]. rewrite <- wd_u64 by lia. f_equal. simpl. lia.
Qed.

Lemma before_cycles c c' :
  Z.abs (c - c') * (2 * 2 ^ r) < 2 ^ 63 ->
  before (wd c true wm) (wd c' true wm) = (c <? c').
Proof.
  intros Hc. pows. unfold before. pose proof wm_range.
  rewrite <- !wd_u64, u64_sub_l, u64_sub_r by lia. simpl.
  match goal with |- (s64 (u64 ?x) <? 0) = _ =>
    replace x with ((c - c') * (2 * 2 ^ r)) by lia end.
  rewrite s64_u64, s64_small by nia.
  destruct (Z.ltb_spec c c'), (Z.ltb_spec ((c - c') * (2 * 2 ^ r)) 0); nia || done.
Qed.

Lemma cycles_eqb c c' :
  Z.abs (c - c') * (2 * 2 ^ r) < 2 ^ 63 ->
  (wd c true wm =? wd c' true wm) = (c =? c').
Proof.
  intros Hc. pose proof wm_range.
  destruct (Z.eqb_spec c c') as [->|Hne]; [apply Z.eqb_refl|].
  apply Z.eqb_neq. intros (? & _)%wd_inj_close; done.
Qed.

End words.
