(* ===== verification/RingAbs.v ===== *)
(** * The index ring on decoded cells

    The algorithm of [IndexRing] with entries decoded into a cycle, a safe
    flag and an optional index, and with tickets as unbounded integers. The
    word-level machine computes exactly its encoding while all tickets and
    cycles in play lie in one window of [2^61] tickets. *)

From S2P Require Import Prelude IndexRing RingWords.
Import IndexRing.
Local Open Scope Z_scope.

Module RingAbs.

Record cell : Type := mk_cell { cyc : Z; safe : bool; val : option Z }.

#[export] Instance cell_eq_dec : EqDecision cell.
Proof. solve_decision. Defined.

Record aring : Type := mk_aring {
  cells : list cell;
  a_head : Z;
  a_threshold : Z;
  a_tail : Z;
}.

Section machine.
Context (r : Z).

(** The ring holds [2^r] entries for a capacity of [2^(r-1)]. *)
Definition size : Z := 2 ^ r.
Definition half : Z := 2 ^ (r - 1).
Definition full_threshold : Z := s64 (u64 (half + size - 1)).
Definition pos (ticket : Z) : Z := ticket mod size.
Definition cycle (ticket : Z) : Z := ticket / size.

Definition cell_at (a : aring) (ticket : Z) : cell :=
  default (mk_cell 0 false None) (cells a !!z pos ticket).
Definition set_cells (a : aring) (cs : list cell) : aring :=
  mk_aring cs (a_head a) (a_threshold a) (a_tail a).
Definition store_cell (a : aring) (ticket : Z) (c : cell) : aring :=
  set_cells a (<[pos ticket :=z c]> (cells a)).
Definition set_head (a : aring) (h : Z) : aring :=
  mk_aring (cells a) h (a_threshold a) (a_tail a).
Definition set_threshold (a : aring) (t : Z) : aring :=
  mk_aring (cells a) (a_head a) t (a_tail a).
Definition set_tail (a : aring) (t : Z) : aring :=
  mk_aring (cells a) (a_head a) (a_threshold a) t.

(** The index bits of a cell; all ones when it is empty. *)
Definition index_bits (c : cell) : Z := default (wm r) (val c).

Definition a_enq_inspect (index : Z) (known : bool) (ticket : Z) (c : cell) : pc cell :=
  if cyc c <? cycle ticket then
    match val c with
    | Some _ => EnqTicket index known
    | None => if safe c then EnqCas index known ticket c else EnqHead index known ticket c
    end
  else EnqTicket index known.

Definition a_deq_inspect (known : bool) (ticket attempts : Z) (c : cell) : pc cell :=
  if cyc c =? cycle ticket then DeqConsume ticket c
  else
    let exchange attempts replacement :=
      if negb (cyc c <? cycle ticket) then deq_missed known ticket
      else DeqCas known ticket attempts c replacement in
    match val c with
    | Some _ =>
        if safe c then exchange attempts (mk_cell (cyc c) false (val c))
        else deq_missed known ticket
    | None =>
        let attempts := attempts + 1 in
        if attempts <=? catchup_attempts then DeqLoad known ticket attempts
        else exchange attempts (mk_cell (cycle ticket) (safe c) None)
    end.

Definition astep (spurious : bool) (p : pc cell) (a : aring) : pc cell * aring :=
  match p with
  | EnqTicket index known => (EnqLoad index known (a_tail a), set_tail a (a_tail a + 1))
  | EnqLoad index known ticket => (a_enq_inspect index known ticket (cell_at a ticket), a)
  | EnqHead index known ticket c =>
      (if a_head a <=? ticket then EnqCas index known ticket c else EnqTicket index known, a)
  | EnqCas index known ticket c =>
      if negb spurious && bool_decide (cell_at a ticket = c) then
        (if known then EnqDone else EnqThreshold,
         store_cell a ticket (mk_cell (cycle ticket) true (Some index)))
      else (a_enq_inspect index known ticket (cell_at a ticket), a)
  | EnqThreshold => (if a_threshold a =? full_threshold then EnqDone else EnqRearm, a)
  | EnqRearm => (EnqDone, set_threshold a full_threshold)
  | EnqDone => (EnqDone, a)
  | DeqThreshold => (if a_threshold a <? 0 then DeqDone None else DeqTicket false, a)
  | DeqTicket known => (DeqLoad known (a_head a) 0, set_head a (a_head a + 1))
  | DeqLoad known ticket attempts => (a_deq_inspect known ticket attempts (cell_at a ticket), a)
  | DeqConsume ticket c =>
      (DeqDone (Some (index_bits c)),
       store_cell a ticket (mk_cell (cyc (cell_at a ticket)) (safe (cell_at a ticket)) None))
  | DeqCas known ticket attempts c replacement =>
      if negb spurious && bool_decide (cell_at a ticket = c) then
        (deq_missed known ticket, store_cell a ticket replacement)
      else (a_deq_inspect known ticket attempts (cell_at a ticket), a)
  | DeqTail ticket =>
      (if a_tail a <=? ticket + 1 then DeqCatchCas (a_tail a) (ticket + 1) else DeqRetry, a)
  | DeqCatchCas tail head =>
      if negb spurious && (a_tail a =? tail) then (DeqEmpty, set_tail a head)
      else (DeqCatchHead, a)
  | DeqCatchHead => (DeqCatchTail (a_head a), a)
  | DeqCatchTail head =>
      (if a_tail a <? head then DeqCatchCas (a_tail a) head else DeqEmpty, a)
  | DeqEmpty => (DeqDone None, set_threshold a (s64 (a_threshold a - 1)))
  | DeqRetry =>
      (if a_threshold a <=? 0 then DeqDone None else DeqTicket false,
       set_threshold a (s64 (a_threshold a - 1)))
  | DeqDone o => (DeqDone o, a)
  end.

(** ** Encoding into words *)

Definition enc_cell (c : cell) : Z := wd r (cyc c) (safe c) (index_bits c).

Definition enc (a : aring) : ring :=
  mk_ring half size (wm r) (enc_cell <$> cells a) (u64 (a_head a)) (a_threshold a)
    (u64 (a_tail a)).

Definition enc_pc (p : pc cell) : pc Z :=
  match p with
  | EnqTicket index known => EnqTicket index known
  | EnqLoad index known ticket => EnqLoad index known (u64 ticket)
  | EnqHead index known ticket c => EnqHead index known (u64 ticket) (enc_cell c)
  | EnqCas index known ticket c => EnqCas index known (u64 ticket) (enc_cell c)
  | EnqThreshold => EnqThreshold
  | EnqRearm => EnqRearm
  | EnqDone => EnqDone
  | DeqThreshold => DeqThreshold
  | DeqTicket known => DeqTicket known
  | DeqLoad known ticket attempts => DeqLoad known (u64 ticket) attempts
  | DeqConsume ticket c => DeqConsume (u64 ticket) (enc_cell c)
  | DeqCas known ticket attempts c replacement =>
      DeqCas known (u64 ticket) attempts (enc_cell c) (enc_cell replacement)
  | DeqTail ticket => DeqTail (u64 ticket)
  | DeqCatchCas tail head => DeqCatchCas (u64 tail) (u64 head)
  | DeqCatchHead => DeqCatchHead
  | DeqCatchTail head => DeqCatchTail (u64 head)
  | DeqEmpty => DeqEmpty
  | DeqRetry => DeqRetry
  | DeqDone o => DeqDone o
  end.

(** ** The window *)

Definition index_ok (i : Z) : Prop := 0 <= i < size - 1.
Definition ticket_in (lo t : Z) : Prop := lo <= t <= lo + 2 ^ 61.
Definition cell_in (lo : Z) (c : cell) : Prop :=
  lo - size <= cyc c * size <= lo + 2 ^ 61 /\ (∀ v, val c = Some v -> index_ok v).

Definition pc_in (lo : Z) (p : pc cell) : Prop :=
  match p with
  | EnqTicket index _ => index_ok index
  | EnqLoad index _ ticket => index_ok index /\ ticket_in lo ticket
  | EnqHead index _ ticket c | EnqCas index _ ticket c =>
      index_ok index /\ ticket_in lo ticket /\ cell_in lo c
  | DeqLoad _ ticket _ | DeqTail ticket => ticket_in lo ticket
  | DeqConsume ticket c => ticket_in lo ticket /\ cell_in lo c
  | DeqCas _ ticket _ c _ => ticket_in lo ticket /\ cell_in lo c
  | DeqCatchCas tail head => ticket_in lo tail /\ ticket_in lo head
  | DeqCatchTail head => ticket_in lo head
  | _ => True
  end.

Definition ring_in (lo : Z) (a : aring) : Prop :=
  zlength (cells a) = size /\ ticket_in lo (a_head a) /\ ticket_in lo (a_tail a) /\
  ∀ i c, cells a !!z i = Some c -> cell_in lo c.

(** ** Simulation *)

Context (Hr : 1 <= r <= 59).

Ltac pows := pose proof (pow_r_pos r ltac:(lia)); pose proof (pow_r_ge2 r ltac:(lia));
  pose proof (pow_word r ltac:(lia)); pose proof (pow_r_small r ltac:(lia)).

Lemma size_bound : 2 <= size <= 2 ^ 59.
Proof.
  unfold size. split; [apply pow_r_ge2; lia|]. apply Z.pow_le_mono_r; lia.
Qed.

Lemma size_half : size = 2 * half.
Proof.
  unfold size, half. change 2 with (2 ^ 1) at 2. rewrite <- Z.pow_add_r by lia. f_equal. lia.
Qed.

Lemma index_bits_range lo c : cell_in lo c -> 0 <= index_bits c < 2 ^ r.
Proof.
  intros [_ Hv]. unfold index_bits. pose proof (wm_range r ltac:(lia)).
  destruct (val c) as [v|]; simpl; [|done]. specialize (Hv v eq_refl).
  unfold index_ok, size in Hv. lia.
Qed.

Lemma index_bits_full lo c : cell_in lo c -> (index_bits c =? wm r) = bool_decide (val c = None).
Proof.
  intros [_ Hv]. unfold index_bits. destruct (val c) as [v|]; simpl; [|apply Z.eqb_refl].
  specialize (Hv v eq_refl). unfold index_ok, size, wm in *. apply Z.eqb_neq. lia.
Qed.

Lemma pos_range t : 0 <= pos t < size.
Proof. apply Z.mod_pos_bound. pose proof size_bound. lia. Qed.

Lemma cycle_close lo t c :
  ticket_in lo t -> cell_in lo c -> Z.abs (cyc c - cycle t) * (2 * 2 ^ r) < 2 ^ 63.
Proof.
  intros Ht [Hc _]. pose proof size_bound as Hs. unfold ticket_in in Ht.
  unfold cycle. pose proof (Z.div_mod t size ltac:(lia)).
  pose proof (Z.mod_pos_bound t size ltac:(lia)). unfold size in *. nia.
Qed.

Lemma cells_close lo c d :
  cell_in lo c -> cell_in lo d -> Z.abs (cyc c - cyc d) * (2 * 2 ^ r) < 2 ^ 63.
Proof. intros [Hc _] [Hd _]. pose proof size_bound as Hs. unfold size in *. nia. Qed.

Lemma enc_cell_inj lo c d : cell_in lo c -> cell_in lo d -> enc_cell c = enc_cell d -> c = d.
Proof.
  intros Hc Hd He. apply wd_inj_close in He as (H1 & H2 & H3); [|lia|..].
  - pose proof (index_bits_full lo c Hc) as Fc. pose proof (index_bits_full lo d Hd) as Fd.
    destruct c as [cc sc vc], d as [cd sd vd]; simpl in *. subst. f_equal.
    rewrite H3 in Fc. rewrite Fc in Fd. unfold index_bits in H3; simpl in H3.
    destruct vc, vd; simpl in *; try done. by subst.
  - by eapply index_bits_range.
  - by eapply index_bits_range.
  - by eapply cells_close.
Qed.

Lemma enc_cell_eqb lo c d :
  cell_in lo c -> cell_in lo d -> (enc_cell c =? enc_cell d) = bool_decide (c = d).
Proof.
  intros Hc Hd. case_bool_decide as He; [subst; apply Z.eqb_refl|].
  apply Z.eqb_neq. intros ?. apply He. by eapply enc_cell_inj.
Qed.

Lemma tickets_eqb lo t u : ticket_in lo t -> ticket_in lo u -> (u64 t =? u64 u) = (t =? u).
Proof.
  unfold ticket_in. intros Ht Hu. destruct (Z.eqb_spec t u) as [->|]; [apply Z.eqb_refl|].
  apply Z.eqb_neq. intros ?%u64_inj_close; lia.
Qed.

Lemma before_tickets lo t u :
  ticket_in lo t -> ticket_in lo u -> before (u64 t) (u64 u) = (t <? u).
Proof.
  unfold ticket_in, before. intros Ht Hu. rewrite u64_sub_l, u64_sub_r, s64_u64, s64_small by lia.
  destruct_ltb; lia.
Qed.

Lemma before_or_equal_tickets t u :
  Z.abs (t - u) < 2 ^ 63 -> before_or_equal (u64 t) (u64 u) = (t <=? u).
Proof.
  unfold before_or_equal. intros Ht. rewrite u64_sub_l, u64_sub_r, s64_u64, s64_small by lia.
  destruct_ltb; lia.
Qed.

Lemma enc_cycle_mask a : cycle_mask (enc a) = 2 * 2 ^ r - 1.
Proof. unfold cycle_mask. cbn -[Z.pow Z.mul]. unfold size. pows. rewrite u64_small; lia. Qed.

Lemma enc_ticket_cycle a t : ticket_cycle (enc a) (u64 t) = wd r (cycle t) true (wm r).
Proof. unfold ticket_cycle. rewrite enc_cycle_mask. apply wd_ticket. lia. Qed.

Lemma enc_map a t : map (enc a) (u64 t) = pos t.
Proof.
  unfold map, pos, size. cbn -[Z.pow]. unfold wm.
  replace (2 ^ r - 1) with (Z.ones r) by (rewrite Z.ones_equiv; lia).
  rewrite Z.land_ones by lia. unfold u64.
  replace (2 ^ 64) with (2 ^ r * 2 ^ (64 - r)) by (rewrite <- Z.pow_add_r by lia; f_equal; lia).
  assert (0 < 2 ^ (64 - r)) by (apply Z.pow_pos_nonneg; lia). pows.
  rewrite Z.rem_mul_r by lia. rewrite Z.mul_comm, Z_mod_plus_full. apply Z.mod_mod. lia.
Qed.

Lemma enc_entry_at lo a t : ring_in lo a -> entry_at (enc a) (u64 t) = enc_cell (cell_at a t).
Proof.
  intros (Hl & _). unfold entry_at, cell_at. rewrite enc_map. simpl. rewrite zlookup_fmap.
  destruct (zlookup_lt (cells a) (pos t)) as [c ->]; [|done]. rewrite Hl. apply pos_range.
Qed.

Lemma cell_at_in lo a t : ring_in lo a -> cell_in lo (cell_at a t).
Proof.
  intros (Hl & _ & _ & Hc). unfold cell_at.
  destruct (zlookup_lt (cells a) (pos t)) as [c Hcc]; [rewrite Hl; apply pos_range|].
  rewrite Hcc. simpl. by eapply Hc.
Qed.

Lemma enc_store_entry a t c : store_entry (enc a) (u64 t) (enc_cell c) = enc (store_cell a t c).
Proof. unfold store_entry. rewrite enc_map. unfold enc, store_cell. simpl. by rewrite fmap_zinsert. Qed.

Lemma enc_lor_cycle lo a c :
  cell_in lo c -> Z.lor (enc_cell c) (cycle_mask (enc a)) = wd r (cyc c) true (wm r).
Proof. intros Hc. rewrite enc_cycle_mask. apply wd_lor_cycle; [lia|]. by eapply index_bits_range. Qed.

(** An entry compared with its own cycle word. *)
Lemma enc_eqb_cycle lo c :
  cell_in lo c ->
  (enc_cell c =? wd r (cyc c) true (wm r)) = safe c && bool_decide (val c = None).
Proof.
  intros Hc. rewrite <- (index_bits_full lo c Hc). pose proof (index_bits_range lo c Hc).
  pose proof (wm_range r ltac:(lia)).
  destruct (Z.eqb_spec (index_bits c) (wm r)) as [Hb|Hb]; [destruct (safe c) eqn:Hs|]; simpl.
  - apply Z.eqb_eq. unfold enc_cell. by rewrite Hs, Hb.
  - apply Z.eqb_neq. unfold enc_cell. intros (_ & ? & _)%wd_inj; [congruence|lia..].
  - rewrite andb_false_r. apply Z.eqb_neq. unfold enc_cell. intros (_ & _ & ?)%wd_inj; [done|lia..].
Qed.

Lemma enc_eqb_unsafe lo c :
  cell_in lo c ->
  (enc_cell c =? Z.lxor (wd r (cyc c) true (wm r)) size) =
    negb (safe c) && bool_decide (val c = None).
Proof.
  intros Hc. rewrite <- (index_bits_full lo c Hc). pose proof (index_bits_range lo c Hc).
  pose proof (wm_range r ltac:(lia)). unfold size. rewrite wd_lxor_size by lia.
  destruct (Z.eqb_spec (index_bits c) (wm r)) as [Hb|Hb]; [destruct (safe c) eqn:Hs|]; simpl.
  - apply Z.eqb_neq. unfold enc_cell. intros (_ & ? & _)%wd_inj; [congruence|lia..].
  - apply Z.eqb_eq. unfold enc_cell. by rewrite Hs, Hb.
  - rewrite andb_false_r. apply Z.eqb_neq. unfold enc_cell. intros (_ & _ & ?)%wd_inj; [done|lia..].
Qed.

Lemma enc_enq_inspect lo a index known t c :
  ticket_in lo t -> cell_in lo c ->
  enq_inspect (enc a) index known (u64 t) (enc_cell c) =
    enc_pc (a_enq_inspect index known t c).
Proof.
  intros Ht Hc. unfold enq_inspect, a_enq_inspect.
  rewrite (enc_lor_cycle lo), enc_ticket_cycle, before_cycles by first [lia | done | by eapply cycle_close].
  destruct (cyc c <? cycle t); [|done].
  rewrite (enc_eqb_cycle lo), (enc_eqb_unsafe lo) by done.
  destruct (val c), (safe c); done.
Qed.

Lemma enc_lor_size lo c : cell_in lo c -> Z.lor (enc_cell c) size = wd r (cyc c) true (index_bits c).
Proof. intros Hc. apply wd_lor_size; [lia|]. by eapply index_bits_range. Qed.

Lemma enc_land_unsafe lo c :
  cell_in lo c -> Z.land (enc_cell c) (not64 size) = wd r (cyc c) false (index_bits c).
Proof. intros Hc. apply wd_land_unsafe; [lia|]. by eapply index_bits_range. Qed.

Lemma enc_restore lo c k :
  cell_in lo c ->
  Z.lxor (wd r k true (wm r)) (Z.land (not64 (enc_cell c)) size) = wd r k (safe c) (wm r).
Proof.
  intros Hc. unfold enc_cell, size. rewrite wd_unsafe_bit by (lia || by eapply index_bits_range).
  apply wd_restore_safe. lia.
Qed.

Lemma enc_missed known t : enc_pc (deq_missed known t) = deq_missed known (u64 t).
Proof. by destruct known. Qed.

Lemma enc_deq_inspect lo a known t attempts c :
  ticket_in lo t -> cell_in lo c ->
  deq_inspect (enc a) known (u64 t) attempts (enc_cell c) =
    enc_pc (a_deq_inspect known t attempts c).
Proof.
  intros Ht Hc. pose proof (index_bits_range lo c Hc) as Hb.
  pose proof (wm_range r ltac:(lia)) as Hm.
  unfold deq_inspect, a_deq_inspect.
  rewrite (enc_lor_cycle lo), enc_ticket_cycle, cycles_eqb, before_cycles
    by first [lia | done | by eapply cycle_close].
  destruct (cyc c =? cycle t); [done|]. cbn [ring_size_ enc].
  rewrite (enc_lor_size lo), (enc_land_unsafe lo), (enc_restore lo) by done.
  assert ((wd r (cyc c) true (index_bits c) =? wd r (cyc c) true (wm r)) =
    bool_decide (val c = None)) as ->.
  { rewrite <- (index_bits_full lo c Hc). destruct (Z.eqb_spec (index_bits c) (wm r)) as [->|Hn].
    - apply Z.eqb_refl.
    - apply Z.eqb_neq. intros (_ & _ & ?)%wd_inj; [done|lia..]. }
  destruct (val c) as [v|] eqn:Hv; simpl.
  - assert ((enc_cell c =? wd r (cyc c) false (index_bits c)) = negb (safe c)) as ->.
    { unfold enc_cell. destruct (safe c); simpl; [|apply Z.eqb_refl].
      apply Z.eqb_neq. intros (_ & ? & _)%wd_inj; [done|lia..]. }
    destruct (safe c); simpl; [|by rewrite enc_missed].
    destruct (cyc c <? cycle t); simpl; [|by rewrite enc_missed].
    unfold enc_cell, index_bits. by rewrite Hv.
  - destruct (attempts + 1 <=? catchup_attempts); [done|].
    destruct (cyc c <? cycle t); simpl; [done|by rewrite enc_missed].
Qed.

Lemma enc_set_tail a t : with_tail (enc a) (u64 t) = enc (set_tail a t).
Proof. done. Qed.

Lemma enc_index_store a t index :
  index_ok index ->
  Z.lxor (ticket_cycle (enc a) (u64 t)) (Z.lxor index (ring_mask_ (enc a))) =
    enc_cell (mk_cell (cycle t) true (Some index)).
Proof.
  intros Hi. rewrite enc_ticket_cycle. unfold index_ok, size in Hi. apply wd_lxor_index; lia.
Qed.

Lemma enc_consume lo c :
  cell_in lo c -> Z.lor (enc_cell c) (wm r) = enc_cell (mk_cell (cyc c) (safe c) None).
Proof. intros Hc. apply wd_lor_mask; [lia|]. by eapply index_bits_range. Qed.

Lemma enc_consume_value lo c : cell_in lo c -> Z.land (enc_cell c) (wm r) = index_bits c.
Proof. intros Hc. apply wd_land_mask; [lia|]. by eapply index_bits_range. Qed.

Lemma enc_initial_threshold a : initial_threshold (enc a) = full_threshold.
Proof. done. Qed.

Lemma cycle_bounds t : t - size < cycle t * size <= t.
Proof.
  pose proof size_bound. unfold cycle. pose proof (Z.div_mod t size ltac:(lia)).
  pose proof (Z.mod_pos_bound t size ltac:(lia)). lia.
Qed.

Lemma cycle_cell_in lo t s o :
  ticket_in lo t -> (∀ v, o = Some v -> index_ok v) -> cell_in lo (mk_cell (cycle t) s o).
Proof.
  intros Ht Ho. pose proof (cycle_bounds t). pose proof size_bound. unfold ticket_in in Ht.
  split; simpl; [lia|done].
Qed.

Lemma store_cell_in lo a t c : ring_in lo a -> cell_in lo c -> ring_in lo (store_cell a t c).
Proof.
  intros (Hl & Hh & Ht & Hc) Hcin. split; [simpl; by rewrite zlength_zinsert|].
  split; [done|]. split; [done|]. intros i d. simpl.
  rewrite zlookup_zinsert by (rewrite Hl; apply pos_range).
  case_decide; [intros; by simplify_eq|apply Hc].
Qed.

(** One atomic access of the word machine is one of the cell machine. *)
Lemma step_enc lo b p a :
  ring_in lo a -> pc_in lo p ->
  IndexRing.step b (enc_pc p) (enc a) = (enc_pc (astep b p a).1, enc (astep b p a).2).
Proof.
  intros Ha Hp. pose proof Ha as (Hl & Hh & Ht & Hc).
  destruct p; cbn [enc_pc step astep fst snd]; cbn [pc_in] in Hp.
  - cbn [tail_ head_ enc]. by rewrite u64_add_l.
  - destruct Hp as [Hi Hp]. rewrite (enc_entry_at lo), (enc_enq_inspect lo); try done.
    by apply cell_at_in.
  - destruct Hp as (Hi & Hp & Hce). simpl. unfold ticket_in in *.
    rewrite before_or_equal_tickets by lia. by destruct (a_head a <=? ticket).
  - destruct Hp as (Hi & Hp & Hce). rewrite (enc_entry_at lo), (enc_cell_eqb lo) by
      first [done | by apply cell_at_in].
    destruct b, (bool_decide (cell_at a ticket = entry)); cbn [negb andb fst snd];
      rewrite ?(enc_enq_inspect lo) by first [done | by apply cell_at_in]; try done.
    rewrite enc_index_store, enc_store_entry by done. by destruct known.
  - rewrite enc_initial_threshold. simpl. by destruct (a_threshold a =? full_threshold).
  - done.
  - done.
  - simpl. by destruct (a_threshold a <? 0).
  - cbn [tail_ head_ enc]. by rewrite u64_add_l.
  - rewrite (enc_entry_at lo), (enc_deq_inspect lo); try done. by apply cell_at_in.
  - destruct Hp as [Hp Hce]. rewrite (enc_entry_at lo) by done. cbn [ring_mask_ enc].
    rewrite (enc_consume_value lo) by done.
    by rewrite (enc_consume lo), enc_store_entry by by apply cell_at_in.
  - destruct Hp as (Hp & Hce). rewrite (enc_entry_at lo), (enc_cell_eqb lo) by
      first [done | by apply cell_at_in].
    destruct b, (bool_decide (cell_at a ticket = entry)); cbn [negb andb fst snd];
      rewrite ?(enc_deq_inspect lo) by first [done | by apply cell_at_in]; try done.
    by rewrite enc_store_entry, enc_missed.
  - simpl. rewrite u64_add_l. unfold ticket_in in *. rewrite before_or_equal_tickets by lia.
    by destruct (a_tail a <=? ticket + 1).
  - destruct Hp as [Hp1 Hp2]. simpl. rewrite (tickets_eqb lo) by done.
    by destruct b, (a_tail a =? tail).
  - done.
  - simpl. rewrite (before_tickets lo) by done. by destruct (a_tail a <? head).
  - done.
  - simpl. by destruct (a_threshold a <=? 0).
  - done.
Qed.

(** ** Construction *)

Definition a_make (full : bool) : aring :=
  if full then
    mk_aring (((fun i => mk_cell 0 true (Some i)) <$> seqZ 0 half) ++
              replicate (Z.to_nat half) (mk_cell (-1) true None)) 0 full_threshold half
  else mk_aring (replicate (Z.to_nat size) (mk_cell (-1) true None)) 0 (-1) 0.

Lemma store_loop_spec q slot value n : ∀ first,
  (∀ i, first <= i < first + Z.of_nat n -> slot i = i) -> 0 <= first ->
  first + Z.of_nat n <= zlength (entries_ q) ->
  ∃ es, store_loop q slot value first n = with_entries q es /\
    zlength es = zlength (entries_ q) /\
    ∀ j, es !!z j = if decide (first <= j < first + Z.of_nat n) then Some (value j)
                    else entries_ q !!z j.
Proof.
  revert q. induction n as [|n IH]; intros q first Hs Hf Hn; cbn [store_loop].
  - exists (entries_ q). split; [by destruct q|]. split; [done|]. intros j.
    by rewrite decide_False by lia.
  - rewrite (Hs first) by lia.
    destruct (IH (with_entries q (<[first :=z value first]> (entries_ q))) (first + 1))
      as (es & -> & Hlen & Hes).
    + intros i Hi. apply Hs. lia.
    + lia.
    + simpl. zlen.
    + exists es. split; [done|]. simpl in *. rewrite zlength_zinsert in Hlen. split; [done|].
      intros j. rewrite Hes, zlookup_zinsert by lia. repeat case_decide; subst; done || lia.
Qed.

Lemma enc_fresh_cell : enc_cell (mk_cell (-1) true None) = size_max.
Proof.
  unfold enc_cell, index_bits. simpl. rewrite <- wd_u64 by first [lia | apply wm_range; lia].
  unfold wm, size_max. pows. apply (u64_eq_by _ (2 ^ 64 - 1) (-1)). simpl Z.b2z. lia.
Qed.

Lemma enc_first_cell i : 0 <= i < half -> enc_cell (mk_cell 0 true (Some i)) = u64 (size + i).
Proof.
  intros Hi. pose proof size_half. unfold enc_cell, index_bits. simpl.
  unfold size in *. rewrite <- wd_u64 by lia. f_equal. simpl Z.b2z. lia.
Qed.

Lemma half_pos : 1 <= half.
Proof. unfold half. assert (0 < 2 ^ (r - 1)) by (apply Z.pow_pos_nonneg; lia). lia. Qed.

Lemma full_threshold_eq : full_threshold = 3 * half - 1.
Proof.
  pose proof size_half. pose proof size_bound. pose proof half_pos.
  unfold full_threshold. rewrite s64_u64, s64_small; lia.
Qed.

Lemma make_sizes : u64 (half * 2) = size /\ u64 (size - 1) = wm r.
Proof.
  pose proof size_half. pose proof size_bound. unfold wm. fold size.
  split; rewrite u64_small; lia.
Qed.

Lemma map_id q i : ring_mask_ q = wm r -> 0 <= i < size -> map q i = i.
Proof. intros Hq Hi. unfold map. rewrite Hq. apply land_ones_low; [lia|done]. Qed.

Lemma make_enc full : make half full = enc (a_make full).
Proof.
  destruct make_sizes as [Hs Hm]. pose proof size_half as Hh. pose proof size_bound as Hb.
  pose proof half_pos as Hp. unfold make. rewrite Hs, Hm.
  destruct full; [unfold initialize_full | unfold initialize_empty].
  - cbn [ring_size_ capacity_].
    match goal with |- context [store_loop ?q _ _ 0 _] => set (q0 := q) end.
    assert (zlength (entries_ q0) = size) as Hl0 by (apply zlength_replicate; lia).
    destruct (store_loop_spec q0 (map q0) (fun i => u64 (size + i)) (Z.to_nat half) 0)
      as (es & -> & Hl & He).
    { intros i Hi. apply map_id; [done|lia]. }
    { lia. }
    { lia. }
    cbn [capacity_ ring_size_ with_entries q0].
    match goal with |- context [store_loop ?q _ _ half _] => set (q1 := q) end.
    destruct (store_loop_spec q1 (map q1) (fun _ => size_max) (Z.to_nat size - Z.to_nat half) half)
      as (es' & -> & Hl' & He').
    { intros i Hi. apply map_id; [done|lia]. }
    { lia. }
    { simpl in *. lia. }
    unfold enc, with_tail, with_threshold, with_head, with_entries. simpl in *.
    rewrite (u64_small half), (u64_small 0) by lia. f_equal.
    apply zlist_eq.
    { zlen. rewrite zlength_seqZ, zlength_replicate; lia. }
    intros i Hi. rewrite He', zlookup_fmap, zlookup_app, zlookup_fmap. zlen.
    rewrite zlength_seqZ by lia.
    case_decide; [rewrite decide_False by lia | rewrite decide_True, He, decide_True by lia].
    + rewrite zlookup_replicate by lia. simpl. by rewrite enc_fresh_cell.
    + rewrite zlookup_seqZ by lia. simpl. by rewrite enc_first_cell by lia.
  - cbn [ring_size_ capacity_].
    match goal with |- context [store_loop ?q _ _ 0 _] => set (q0 := q) end.
    assert (zlength (entries_ q0) = size) as Hl0 by (apply zlength_replicate; lia).
    destruct (store_loop_spec q0 (fun i => i) (fun _ => size_max) (Z.to_nat size) 0)
      as (es & -> & Hl & He); [done|lia|lia|].
    unfold enc, with_tail, with_threshold, with_head, with_entries. simpl.
    rewrite (u64_small 0) by lia. f_equal.
    apply zlist_eq.
    { zlen. rewrite zlength_replicate; lia. }
    intros i Hi. rewrite He, zlookup_fmap, zlookup_replicate, decide_True by lia.
    simpl. by rewrite enc_fresh_cell.
Qed.

End machine.
End RingAbs.
