(* ===== verification/RingSolo.v ===== *)
(** * The index ring run by one operation at a time

    An operation that runs alone is a FIFO operation: [solo] relates a ring
    to the list of indices it holds, on words that wrap around freely. *)

From S2P Require Import Prelude IndexRing RingWords RingAbs.
Import IndexRing RingAbs.
Local Open Scope Z_scope.

Module RingSolo.
Section solo.
Context (r : Z) (Hr : 1 <= r <= 59).
Abbreviation size := (size r).
Abbreviation half := (half r).

(** [h] is the ticket of the oldest index. Tickets [h .. h + |l|) hold the
    indices of [l]; the rest of the last lap is empty and safe. *)
Record solo (h : Z) (l : list Z) (a : aring) : Prop := {
  solo_head : a_head a = h;
  solo_tail : a_tail a = h + zlength l;
  solo_cells : zlength (cells a) = size;
  solo_fits : zlength l <= half;
  solo_live : ∀ t, h <= t < h + zlength l ->
    ∃ i, l !!z (t - h) = Some i /\
         cells a !!z pos r t = Some (mk_cell (cycle r t) true (Some i));
  solo_free : ∀ t, h + zlength l - size <= t < h ->
    cells a !!z pos r t = Some (mk_cell (cycle r t) true None);
  solo_index : ∀ i x, l !!z i = Some x -> index_ok r x;
  solo_threshold : -1 <= a_threshold a <= full_threshold r;
  solo_armed : l <> [] -> a_threshold a = full_threshold r;
}.

(** The words of a ring that holds [l]. *)
Definition holds (l : list Z) (q : ring) : Prop := ∃ h a, q = enc r a /\ solo h l a.

Ltac sizes := pose proof (size_bound r Hr); pose proof (size_half r Hr);
  pose proof (half_pos r Hr).

Lemma cycle_prev t : cycle r (t - size) = cycle r t - 1.
Proof.
  sizes. unfold cycle. replace (t - size) with (t + -1 * size) by lia.
  rewrite Z.div_add by lia. lia.
Qed.

Lemma pos_prev t : pos r (t - size) = pos r t.
Proof. unfold pos. replace (t - size) with (t + -1 * size) by lia. apply Z_mod_plus_full. Qed.

Lemma solo_window h l a : solo h l a -> ring_in r (h - size) a.
Proof.
  intros []. sizes. pose proof (zlength_nonneg l).
  split; [done|]. unfold ticket_in. split; [lia|]. split; [lia|].
  intros p c Hc. pose proof (zlookup_range _ _ _ Hc).
  destruct (mod_window_surj size (h + zlength l - size) p) as (t & Ht & <-); [lia|lia|].
  assert (t - size < cycle r t * size <= t).
  { unfold cycle. pose proof (Z.div_mod t size ltac:(lia)).
    pose proof (Z.mod_pos_bound t size ltac:(lia)). lia. }
  fold (pos r t) in Hc. destruct (decide (t < h)).
  - rewrite (solo_free0 t ltac:(lia)) in Hc. simplify_eq. split; simpl; [lia|done].
  - destruct (solo_live0 t ltac:(lia)) as (i & Hi & Hl). rewrite Hl in Hc. simplify_eq.
    split; simpl; [lia|]. intros v [= <-]. by eapply solo_index0.
Qed.

Lemma run_enc lo n p a :
  finished p = false -> ring_in r lo a -> pc_in r lo p ->
  run (S n) (enc_pc r p) (enc r a) =
    run n (enc_pc r (astep r false p a).1) (enc r (astep r false p a).2).
Proof.
  intros Hf Ha Hp. cbn [run].
  replace (finished (enc_pc r p)) with false by (by destruct p).
  by rewrite (step_enc r Hr lo).
Qed.

Lemma run_finished n p q : finished p = true -> run n p q = (p, q).
Proof. intros Hf. destruct n; cbn [run]; by rewrite ?Hf. Qed.

Lemma run_more n m p q p' q' :
  run n p q = (p', q') -> finished p' = true -> run (n + m) p q = (p', q').
Proof.
  revert p q. induction n as [|n IH]; intros p q Hn Hf; cbn [run Nat.add] in *.
  - simplify_eq. by apply run_finished.
  - destruct (finished p); [done|]. destruct (step false p q) as [p1 q1]. by apply IH.
Qed.

Lemma solo_fuel_split n : (N.of_nat n <= 10100)%N -> ∃ m, solo_fuel = (n + m)%nat.
Proof. intros Hn. exists (solo_fuel - n)%nat. unfold solo_fuel. lia. Qed.

(** ** Enqueue *)

Lemma solo_tail_cell h l a :
  solo h l a -> cell_at r a (a_tail a) = mk_cell (cycle r (a_tail a) - 1) true None.
Proof.
  intros []. sizes. pose proof (zlength_nonneg l). unfold cell_at.
  rewrite <- pos_prev, <- cycle_prev, solo_free0; [done|]. lia.
Qed.

Lemma solo_enqueued h l a i :
  solo h l a -> zlength l < half -> index_ok r i ->
  solo h (l ++ [i])
    (set_threshold (set_tail (store_cell r a (a_tail a) (mk_cell (cycle r (a_tail a)) true (Some i)))
       (a_tail a + 1)) (full_threshold r)).
Proof.
  intros [] Hl Hi. sizes. pose proof (zlength_nonneg l). pose proof (full_threshold_eq r Hr).
  assert (0 <= pos r (a_tail a) < zlength (cells a)) as Hp.
  { rewrite solo_cells0. by apply pos_range. }
  split; simpl; zlen; try done.
  - intros t Ht. rewrite zlookup_snoc by lia.
    destruct (decide (t = a_tail a)) as [->|Hne].
    + exists i. rewrite decide_True by lia. split; [done|]. by apply zlookup_zinsert_eq.
    + rewrite decide_False by lia. destruct (solo_live0 t ltac:(lia)) as (x & Hx & Hc).
      exists x. split; [done|]. rewrite zlookup_zinsert_ne; [done|].
      intros He. apply Hne. symmetry. apply (mod_window_inj size); [lia|lia|done].
  - intros t Ht. rewrite zlookup_zinsert_ne; [apply solo_free0; lia|].
    intros He. assert (a_tail a = t); [|lia]. apply (mod_window_inj size); [lia|lia|done].
  - intros k x Hk. pose proof (zlookup_range _ _ _ Hk) as Hkr. zlen.
    rewrite zlookup_snoc in Hk by lia. case_decide; simplify_eq; [done|by eapply solo_index0].
Qed.

Lemma enqueue_run h l a i :
  solo h l a -> zlength l < half -> index_ok r i ->
  ∃ a', run 6 (enqueue_start i false) (enc r a) = (EnqDone, enc r a') /\ solo h (l ++ [i]) a'.
Proof.
  intros Hs Hl Hi. pose proof (solo_window h l a Hs) as Hw. sizes.
  pose proof (solo_tail_cell h l a Hs) as Hc. pose proof (solo_enqueued h l a i Hs Hl Hi) as He.
  set (T := a_tail a) in *. set (c := mk_cell (cycle r T - 1) true None) in *.
  assert (ticket_in (h - size) T) as HT by apply Hw.
  assert (ring_in r (h - size) (set_tail a (T + 1))) as Hw1.
  { destruct Hw as (? & ? & ? & ?). destruct Hs. unfold T, ticket_in in *.
    split; [done|]. split; [done|]. split; [unfold ticket_in; simpl; lia|done]. }
  assert (cell_in r (h - size) c) as Hcin.
  { rewrite <- Hc. by apply cell_at_in. }
  change (enqueue_start i false) with (enc_pc r (EnqTicket i false)).
  rewrite (run_enc (h - size)) by done. cbn [astep fst snd].
  rewrite (run_enc (h - size)) by done. cbn [astep fst snd].
  fold T. change (cell_at r (set_tail a (T + 1)) T) with (cell_at r a T).
  rewrite Hc. unfold a_enq_inspect. replace (cyc c <? cycle r T) with true
    by (symmetry; apply Z.ltb_lt; simpl; lia).
  cbn [val safe c]. fold c. rewrite (run_enc (h - size)) by done. cbn [astep negb andb].
  change (cell_at r (set_tail a (T + 1)) T) with (cell_at r a T).
  rewrite Hc, bool_decide_true by done. cbn [fst snd].
  set (a2 := store_cell r (set_tail a (T + 1)) T _).
  assert (ring_in r (h - size) a2) as Hw2 by exact (solo_window h _ _ He).
  rewrite (run_enc (h - size)) by done. cbn [astep fst snd].
  destruct (Z.eqb_spec (a_threshold a2) (full_threshold r)) as [Ht|Ht].
  - eexists. rewrite run_finished by done. split; [done|].
    replace a2 with (set_threshold a2 (full_threshold r)) by (unfold a2 in *; by rewrite <- Ht).
    exact He.
  - rewrite (run_enc (h - size)) by done. cbn [astep fst snd].
    eexists. rewrite run_finished by done. split; [done|]. exact He.
Qed.

Lemma enqueue_holds l q i :
  holds l q -> zlength l < half -> index_ok r i ->
  ∃ q', enqueue i false q = Ret tt q' /\ holds (l ++ [i]) q'.
Proof.
  intros (h & a & -> & Hs) Hl Hi. destruct (enqueue_run h l a i Hs Hl Hi) as (a' & Hrun & Hs').
  unfold enqueue. destruct (solo_fuel_split 6) as [m ->]; [lia|].
  rewrite (run_more _ _ _ _ _ _ Hrun) by done. eexists. split; [done|]. by eexists _, _.
Qed.

(** ** Dequeue *)

Lemma solo_dequeued h i l a :
  solo h (i :: l) a ->
  cell_at r a h = mk_cell (cycle r h) true (Some i) /\
  solo (h + 1) l (store_cell r (set_head a (h + 1)) h (mk_cell (cycle r h) true None)).
Proof.
  intros []. sizes. pose proof (zlength_nonneg l). zlen.
  assert (cell_at r a h = mk_cell (cycle r h) true (Some i)) as Hc.
  { unfold cell_at. destruct (solo_live0 h ltac:(lia)) as (x & Hx & ->).
    replace (h - h) with 0 in Hx by lia. change (Some i = Some x) in Hx. by simplify_eq. }
  split; [done|].
  assert (0 <= pos r h < zlength (cells a)) as Hp.
  { rewrite solo_cells0. by apply pos_range. }
  assert (∀ t, Z.abs (t - h) < size -> t <> h -> pos r h <> pos r t) as Hne.
  { intros t Ht Hn He. apply Hn. symmetry. apply (mod_window_inj size); [lia|lia|done]. }
  split; simpl; zlen; try done.
  - intros t Ht. destruct (solo_live0 t ltac:(lia)) as (x & Hx & Hcx). exists x.
    rewrite zlookup_cons in Hx by lia. replace (t - (h + 1)) with (t - h - 1) by lia.
    split; [done|]. rewrite zlookup_zinsert_ne; [done|]. apply Hne; lia.
  - intros t Ht. destruct (decide (t = h)) as [->|Hn].
    + by apply zlookup_zinsert_eq.
    + rewrite zlookup_zinsert_ne; [apply solo_free0; lia|]. apply Hne; lia.
  - intros k x Hk. pose proof (zlookup_range _ _ _ Hk). apply (solo_index0 (k + 1)).
    rewrite zlookup_cons by lia. by replace (k + 1 - 1) with k by lia.
  - intros _. by apply solo_armed0.
Qed.

Lemma window_head h l a :
  solo h l a -> ring_in r (h - size) (set_head a (h + 1)).
Proof.
  intros Hs. pose proof (solo_window h l a Hs) as (? & ? & ? & ?). sizes.
  split; [done|]. unfold ticket_in in *. simpl. split; [lia|done].
Qed.

Lemma dequeue_run h i l a :
  solo h (i :: l) a ->
  ∃ a', run 4 (dequeue_start false) (enc r a) = (DeqDone (Some i), enc r a') /\ solo (h + 1) l a'.
Proof.
  intros Hs. pose proof (solo_window _ _ _ Hs) as Hw. pose proof (window_head _ _ _ Hs) as Hw1.
  destruct (solo_dequeued h i l a Hs) as [Hc Hd]. pose proof (solo_head _ _ _ Hs) as Hh.
  pose proof (solo_armed _ _ _ Hs ltac:(done)) as Ha. pose proof (full_threshold_eq r Hr). sizes.
  assert (ticket_in (h - size) h) as Hth by (rewrite <- Hh at 2; apply Hw).
  change (dequeue_start false) with (enc_pc r DeqThreshold).
  rewrite (run_enc (h - size)) by done. cbn [astep fst snd].
  replace (a_threshold a <? 0) with false by (symmetry; apply Z.ltb_ge; lia).
  rewrite (run_enc (h - size)) by done. cbn [astep fst snd]. rewrite Hh.
  rewrite (run_enc (h - size)) by done. cbn [astep fst snd].
  change (cell_at r (set_head a (h + 1)) h) with (cell_at r a h).
  rewrite Hc. unfold a_deq_inspect. cbn [cyc]. rewrite Z.eqb_refl.
  assert (cell_in r (h - size) (mk_cell (cycle r h) true (Some i))) as Hcin.
  { rewrite <- Hc. by apply cell_at_in. }
  rewrite (run_enc (h - size)) by done. cbn [astep fst snd].
  change (cell_at r (set_head a (h + 1)) h) with (cell_at r a h). rewrite Hc.
  eexists. rewrite run_finished by done. split; [done|]. exact Hd.
Qed.

(** A dequeue that finds its slot empty reloads it [catchup_attempts] times. *)
Lemma spin lo h a m k :
  ring_in r lo a -> ticket_in lo h -> val (cell_at r a h) = None ->
  cyc (cell_at r a h) < cycle r h -> (Z.of_nat k <= catchup_attempts) ->
  run (S k + m) (enc_pc r (DeqLoad false h (catchup_attempts - Z.of_nat k))) (enc r a) =
  run m (enc_pc r (DeqCas false h (catchup_attempts + 1) (cell_at r a h)
           (mk_cell (cycle r h) (safe (cell_at r a h)) None))) (enc r a).
Proof.
  intros Hw Hh Hv Hc. induction k as [|k IH]; intros Hk; cbn [Nat.add];
    rewrite (run_enc lo) by done; cbn [astep fst snd]; unfold a_deq_inspect; rewrite Hv.
  - rewrite (proj2 (Z.eqb_neq _ _)), (proj2 (Z.ltb_lt _ _)) by lia. cbn [negb].
    replace (catchup_attempts - Z.of_nat 0 + 1) with (catchup_attempts + 1) by lia.
    by rewrite (proj2 (Z.leb_gt _ _)) by lia.
  - rewrite (proj2 (Z.eqb_neq _ _)) by lia.
    replace (catchup_attempts - Z.of_nat (S k) + 1) with (catchup_attempts - Z.of_nat k) by lia.
    rewrite (proj2 (Z.leb_le _ _)) by lia. cbn [Nat.add] in IH. apply IH. lia.
Qed.

(** The state after an empty dequeue: head and tail have moved past the
    slot, which now carries the cycle of the ticket that found it empty. *)
Definition skipped (h : Z) (a : aring) : aring :=
  set_threshold
    (set_tail (store_cell r (set_head a (h + 1)) h (mk_cell (cycle r h) true None)) (h + 1))
    (a_threshold a - 1).

Lemma solo_skipped h a : solo h [] a -> 0 <= a_threshold a -> solo (h + 1) [] (skipped h a).
Proof.
  intros [] Ht. sizes. zlen_nil.
  assert (0 <= pos r h < zlength (cells a)) as Hp.
  { rewrite solo_cells0. by apply pos_range. }
  split; simpl; zlen; try done.
  intros t Hlt. destruct (decide (t = h)) as [->|Hn]; [by apply zlookup_zinsert_eq|].
  rewrite zlookup_zinsert_ne; [apply solo_free0; lia|].
  intros He. apply Hn. symmetry. apply (mod_window_inj size); [lia|lia|done].
Qed.

Lemma dequeue_empty_run h a :
  solo h [] a -> 0 <= a_threshold a ->
  run (2 + (S (Z.to_nat catchup_attempts) + 4)) (dequeue_start false) (enc r a) =
    (DeqDone None, enc r (skipped h a)).
Proof.
  intros Hs Ht. pose proof (solo_window _ _ _ Hs) as Hw. pose proof (window_head _ _ _ Hs) as Hw1.
  pose proof (solo_head _ _ _ Hs) as Hh. pose proof (solo_tail _ _ _ Hs) as Htl. sizes.
  pose proof (solo_tail_cell _ _ _ Hs) as Hc. zlen_nil. rewrite Z.add_0_r in Htl.
  rewrite Htl in Hc. pose proof (solo_window _ _ _ (solo_skipped h a Hs Ht)) as Hw2.
  assert (ticket_in (h - size) h) as Hth by (rewrite <- Hh at 2; apply Hw).
  assert (ticket_in (h - size) (h + 1)) as Hth1 by (unfold ticket_in in *; lia).
  pose proof (solo_threshold _ _ _ Hs). pose proof (full_threshold_eq r Hr).
  change (dequeue_start false) with (enc_pc r DeqThreshold). cbn [Nat.add].
  rewrite (run_enc (h - size)) by done. cbn [astep fst snd].
  replace (a_threshold a <? 0) with false by (symmetry; apply Z.ltb_ge; lia).
  rewrite (run_enc (h - size)) by done. cbn [astep fst snd]. rewrite Hh.
  pose proof (spin (h - size) h (set_head a (h + 1)) 4 (Z.to_nat catchup_attempts) Hw1 Hth) as Hspin.
  change (cell_at r (set_head a (h + 1)) h) with (cell_at r a h) in Hspin.
  rewrite Hc in Hspin. cbn [cyc val safe] in Hspin.
  rewrite Z2Nat.id, Z.sub_diag in Hspin by done. cbn [Nat.add] in Hspin.
  rewrite Hspin by (done || lia). clear Hspin.
  assert (cell_in r (h - size) (mk_cell (cycle r h - 1) true None)) as Hcin.
  { rewrite <- Hc. by apply cell_at_in. }
  rewrite (run_enc (h - size)) by done. cbn [astep].
  change (cell_at r (set_head a (h + 1)) h) with (cell_at r a h).
  rewrite Hc, bool_decide_true by done. cbn [negb andb fst snd deq_missed].
  set (a2 := store_cell r (set_head a (h + 1)) h _).
  assert (ring_in r (h - size) a2) as Hw3.
  { by apply store_cell_in, cycle_cell_in. }
  rewrite (run_enc (h - size)) by done. cbn [astep fst snd].
  change (a_tail a2) with (a_tail a). rewrite Htl.
  rewrite (proj2 (Z.leb_le _ _)) by lia.
  rewrite (run_enc (h - size)) by done. cbn [astep negb andb].
  change (a_tail a2) with (a_tail a). rewrite Htl, Z.eqb_refl. cbn [fst snd].
  assert (ring_in r (h - size) (set_tail a2 (h + 1))) as Hw4.
  { destruct Hw3 as (? & ? & ? & ?). by split. }
  rewrite (run_enc (h - size)) by done. cbn [astep fst snd].
  rewrite run_finished by done. unfold skipped. do 3 f_equal.
  change (a_threshold (set_tail a2 (h + 1))) with (a_threshold a). rewrite s64_small; [done|lia].
Qed.

Lemma dequeue_disarmed_run h l a :
  solo h l a -> a_threshold a < 0 ->
  run 1 (dequeue_start false) (enc r a) = (DeqDone None, enc r a).
Proof.
  intros Hs Ht. pose proof (solo_window _ _ _ Hs) as Hw.
  change (dequeue_start false) with (enc_pc r DeqThreshold).
  rewrite (run_enc (h - size)) by done. cbn [astep fst snd].
  by rewrite (proj2 (Z.ltb_lt _ _)).
Qed.

Lemma try_dequeue_holds l q :
  holds l q -> ∃ q', try_dequeue false q = Ret (head l) q' /\ holds (tail l) q'.
Proof.
  intros (h & a & -> & Hs). unfold try_dequeue. destruct l as [|i l].
  - destruct (decide (a_threshold a < 0)) as [Ht|Ht].
    + destruct (solo_fuel_split 1) as [m ->]; [lia|].
      rewrite (run_more _ _ _ _ _ _ (dequeue_disarmed_run h [] a Hs Ht)) by done.
      eexists. split; [done|]. by eexists _, _.
    + destruct (solo_fuel_split (2 + (S (Z.to_nat catchup_attempts) + 4))) as [m ->];
        [unfold catchup_attempts; lia|].
      rewrite (run_more _ _ _ _ _ _ (dequeue_empty_run h a Hs ltac:(lia))) by done.
      eexists. split; [done|]. eexists _, _. split; [done|]. apply solo_skipped; [done|lia].
  - destruct (dequeue_run h i l a Hs) as (a' & Hrun & Hs').
    destruct (solo_fuel_split 4) as [m ->]; [lia|].
    rewrite (run_more _ _ _ _ _ _ Hrun) by done. eexists. split; [done|]. by eexists _, _.
Qed.

(** ** Construction *)

Lemma make_holds (full : bool) :
  holds (if full then seqZ 0 half else []) (make half full).
Proof.
  exists 0, (a_make r full). split; [by apply make_enc|].
  sizes. pose proof (full_threshold_eq r Hr).
  assert (∀ t, - size <= t < 0 -> cycle r t = -1) as Hneg.
  { intros t Ht. unfold cycle. symmetry. apply (Z.div_unique_pos _ _ _ (t + size)); lia. }
  assert (∀ t, 0 <= t < size -> cycle r t = 0 /\ pos r t = t) as Hzero.
  { intros t Ht. unfold cycle, pos. by rewrite Z.div_small, Z.mod_small. }
  assert (∀ t, - size <= t < 0 -> pos r t = t + size) as Hwrap.
  { intros t Ht. unfold pos. rewrite <- (mod_add_self size t). apply Z.mod_small. lia. }
  destruct full; split; unfold a_make; cbn [a_head a_tail a_threshold cells];
    zlen; rewrite ?zlength_seqZ, ?zlength_replicate by lia; try done; try lia.
  - intros t Ht. rewrite ?zlength_seqZ in Ht by lia. exists t.
    destruct (Hzero t ltac:(lia)) as [-> ->].
    rewrite zlookup_seqZ, zlookup_app, zlookup_fmap by lia. zlen.
    rewrite zlength_seqZ, decide_True, zlookup_seqZ by lia. simpl.
    by replace (0 + (t - 0)) with t by lia.
  - intros t Ht. rewrite ?zlength_seqZ in Ht by lia. rewrite Hwrap, Hneg by lia.
    rewrite zlookup_app. zlen. rewrite zlength_seqZ, decide_False, zlookup_replicate by lia. done.
  - intros i x Hx. pose proof (zlookup_range _ _ _ Hx) as Hi. rewrite zlength_seqZ in Hi by lia.
    rewrite zlookup_seqZ in Hx by lia. simplify_eq. unfold index_ok. lia.
  - intros t Ht. rewrite Hwrap, Hneg by lia. apply zlookup_replicate. lia.
  - intros i x Hx. apply zlookup_range in Hx. zlen_nil. lia.
Qed.

(** ** Programs of one thread *)

Inductive ring_op : Type := Enqueue (index : Z) | Dequeue.

(** What each dequeue returns; [None] if an operation does not come back. *)
Fixpoint run_ring (ops : list ring_op) (q : ring) : option (list (option Z)) :=
  match ops with
  | [] => Some []
  | Enqueue i :: ops =>
      match enqueue i false q with Ret _ q' => run_ring ops q' | _ => None end
  | Dequeue :: ops =>
      match try_dequeue false q with
      | Ret o q' => (cons o) <$> run_ring ops q'
      | _ => None
      end
  end.

(** The list that holds [l] would answer so. *)
Fixpoint fifo_answers (ops : list ring_op) (l : list Z) : list (option Z) :=
  match ops with
  | [] => []
  | Enqueue i :: ops => fifo_answers ops (l ++ [i])
  | Dequeue :: ops => head l :: fifo_answers ops (tail l)
  end.

(** The callers' side of the contract: indices below the capacity, and never
    more of them at once than the ring has room for. *)
Fixpoint within (capacity : Z) (ops : list ring_op) (l : list Z) : bool :=
  match ops with
  | [] => true
  | Enqueue i :: ops =>
      bool_decide (0 <= i < capacity) && (zlength l <? capacity) && within capacity ops (l ++ [i])
  | Dequeue :: ops => within capacity ops (tail l)
  end.

Lemma run_ring_holds ops : ∀ l q,
  holds l q -> within half ops l = true -> run_ring ops q = Some (fifo_answers ops l).
Proof.
  sizes. induction ops as [|[i|] ops IH]; intros l q Hq Hw; [done|..]; cbn [within run_ring] in *.
  - apply andb_true_iff in Hw as [[Hi Hl]%andb_true_iff Hw].
    apply bool_decide_eq_true in Hi. apply Z.ltb_lt in Hl.
    destruct (enqueue_holds l q i Hq Hl ltac:(unfold index_ok; lia)) as (q' & -> & Hq').
    by apply IH.
  - destruct (try_dequeue_holds l q Hq) as (q' & -> & Hq'). by rewrite (IH _ _ Hq' Hw).
Qed.

(** Run by one thread, a fresh ring, started empty or full, returns
    from every operation within its fuel and answers as a FIFO list does,
    over any number of laps and across the wrap-around of its 64-bit tickets. *)
Theorem ring_runs_as_fifo full ops :
  let l := if full : bool then seqZ 0 half else [] in
  within half ops l = true -> run_ring ops (make half full) = Some (fifo_answers ops l).
Proof. intros l Hw. apply run_ring_holds; [apply make_holds|done]. Qed.

End solo.

Lemma ring_runs_as_fifo_witness :
  let ops := [Dequeue; Enqueue 0; Dequeue; Dequeue; Enqueue 1; Enqueue 0; Dequeue] in
  run_ring ops (make (half 2) true) = Some [Some 0; Some 1; Some 0; Some 1].
Proof.
  exact (ring_runs_as_fifo 2 ltac:(lia) true
    [Dequeue; Enqueue 0; Dequeue; Dequeue; Enqueue 1; Enqueue 0; Dequeue]
    ltac:(vm_compute; reflexivity)).
Defined.

End RingSolo.
