(* ===== verification/RingConc.v ===== *)
(** * The index ring under concurrent operations

    Any number of threads run [enqueue] and [try_dequeue], one atomic access
    at a time, in any order. Tickets identify the slots of an unbounded
    sequence; the logs record which index was enqueued at and dequeued from
    each ticket. The invariant is proved on decoded cells and carried to the
    words by [step_enc], for as long as the tickets fit the window. *)

From S2P Require Import Prelude IndexRing RingWords RingAbs.
Import IndexRing RingAbs.
Local Open Scope Z_scope.

Module RingConc.

(** ** Schedules *)

Inductive action : Type :=
  | Run (thread : nat) (spurious : bool)
  | StartEnqueue (thread : nat) (index : Z) (known : bool)
  | StartDequeue (thread : nat) (known : bool).

Record config (R W : Type) : Type := mk_config {
  the_ring : R;
  threads : list (pc W);
  enqueued : gmap Z Z;
  dequeued : gmap Z Z;
}.
Arguments mk_config {R W} the_ring threads enqueued dequeued.
Arguments the_ring {R W} c.
Arguments threads {R W} c.
Arguments enqueued {R W} c.
Arguments dequeued {R W} c.

Section schedules.
Context {R W : Type} (index_limit : Z) (step : bool -> pc W -> R -> pc W * R)
  (log_enqueue log_dequeue : bool -> pc W -> R -> gmap Z Z -> gmap Z Z).

(** An operation starts on a thread whose last one is over; [enqueue] takes
    an index below the capacity. Anything else has no effect. *)
Definition exec (act : action) (c : config R W) : config R W :=
  match act with
  | Run j spurious =>
      match threads c !! j with
      | None => c
      | Some p =>
          let '(p', q') := step spurious p (the_ring c) in
          mk_config q' (<[j := p']> (threads c))
            (log_enqueue spurious p (the_ring c) (enqueued c))
            (log_dequeue spurious p (the_ring c) (dequeued c))
      end
  | StartEnqueue j index known =>
      match threads c !! j with
      | Some p =>
          if finished p && bool_decide (0 <= index < index_limit) then
            mk_config (the_ring c) (<[j := enqueue_start index known]> (threads c))
              (enqueued c) (dequeued c)
          else c
      | None => c
      end
  | StartDequeue j known =>
      match threads c !! j with
      | Some p =>
          if finished p then
            mk_config (the_ring c) (<[j := dequeue_start known]> (threads c))
              (enqueued c) (dequeued c)
          else c
      | None => c
      end
  end.

Definition exec_all (acts : list action) (c : config R W) : config R W :=
  foldl (fun c act => exec act c) c acts.

End schedules.

(** The ticket an operation owns until it stores at or gives up its slot. *)
Definition enq_ticket {W} (p : pc W) : option Z :=
  match p with
  | EnqLoad _ _ t | EnqHead _ _ t _ | EnqCas _ _ t _ => Some t
  | _ => None
  end.
Definition deq_ticket {W} (p : pc W) : option Z :=
  match p with
  | DeqLoad _ t _ | DeqConsume t _ | DeqCas _ t _ _ _ => Some t
  | _ => None
  end.

(** ** The word machine *)

(** A successful exchange of [enqueue] and the [fetch_or] of [try_dequeue]. *)
Definition log_enqueue (spurious : bool) (p : pc Z) (q : ring) (log : gmap Z Z) : gmap Z Z :=
  match p with
  | EnqCas index _ ticket entry =>
      if negb spurious && (entry_at q ticket =? entry) then <[ticket := index]> log else log
  | _ => log
  end.
Definition log_dequeue (spurious : bool) (p : pc Z) (q : ring) (log : gmap Z Z) : gmap Z Z :=
  match p with
  | DeqConsume ticket entry => <[ticket := Z.land entry (ring_mask_ q)]> log
  | _ => log
  end.

Definition w_exec_all (capacity : Z) : list action -> config ring Z -> config ring Z :=
  exec_all capacity step log_enqueue log_dequeue.

(** A ring that starts full holds index [i] at ticket [i]. *)
Definition initial_log (capacity : Z) (full : bool) : gmap Z Z :=
  if full then list_to_map ((fun i => (i, i)) <$> seqZ 0 capacity) else ∅.

Definition w_start (capacity : Z) (full : bool) (n : nat) : config ring Z :=
  mk_config (make capacity full) (replicate n EnqDone) (initial_log capacity full) ∅.

(** ** The machine on decoded cells *)

Section cells.
Context (r : Z) (Hr : 1 <= r <= 59).
Abbreviation size := (size r).
Abbreviation half := (half r).
Abbreviation pos := (pos r).
Abbreviation cycle := (cycle r).

Definition a_log_enqueue (spurious : bool) (p : pc cell) (a : aring) (log : gmap Z Z) :
    gmap Z Z :=
  match p with
  | EnqCas index _ ticket c =>
      if negb spurious && bool_decide (cell_at r a ticket = c) then <[ticket := index]> log
      else log
  | _ => log
  end.
Definition a_log_dequeue (spurious : bool) (p : pc cell) (a : aring) (log : gmap Z Z) :
    gmap Z Z :=
  match p with
  | DeqConsume ticket c => <[ticket := index_bits r c]> log
  | _ => log
  end.

Definition a_exec := exec half (astep r) a_log_enqueue a_log_dequeue.

(** ** The slot discipline

    [cs] maps a ticket to the cell of its slot and [dead] holds of the
    dequeue tickets that are over. *)
Implicit Types (cs : Z -> cell) (dead : Z -> Prop) (E D : gmap Z Z).

(** A cell a dequeuer may leave behind for ticket [t]: no enqueue at [t]
    can succeed on it any more. *)
Definition passed (c : cell) (t : Z) : Prop :=
  cycle t < cyc c \/ (cyc c = cycle t /\ val c = None) \/ (cyc c < cycle t /\ safe c = false).

(** What it is when the dequeuer leaves. *)
Definition left_behind (c : cell) (t : Z) : Prop :=
  cycle t < cyc c \/ (cyc c = cycle t /\ val c = None) \/
  (cyc c < cycle t /\ safe c = false /\ val c <> None).

Record slots_inv cs dead E D : Prop := {
  slots_pos : ∀ t u, pos t = pos u -> cs t = cs u;
  slots_sub : D ⊆ E;
  slots_full : ∀ t i, E !! t = Some i -> D !! t = None ->
    cyc (cs t) = cycle t /\ val (cs t) = Some i;
  slots_value : ∀ t i, cyc (cs t) = cycle t -> val (cs t) = Some i ->
    E !! t = Some i /\ D !! t = None;
  slots_empty : ∀ t, 0 <= t -> cyc (cs t) = cycle t -> val (cs t) = None -> dead t;
  slots_dead : ∀ t, dead t -> passed (cs t) t;
}.

(** Every store to a cell raises its rank. *)
Definition rank (c : cell) : Z :=
  cyc c * 4 + (if val c is Some _ then 0 else 2) + (if safe c then 0 else 1).

Definition pc_inv cs dead E (p : pc cell) : Prop :=
  match p with
  | EnqHead _ _ t c => cyc c < cycle t /\ val c = None /\ rank c <= rank (cs t)
  | EnqCas _ _ t c =>
      cyc c < cycle t /\ val c = None /\ rank c <= rank (cs t) /\
      (cs t = c -> ∀ d, dead d -> pos d = pos t -> d < t)
  | DeqConsume t c => cyc c = cycle t /\ ∃ i, val c = Some i /\ E !! t = Some i
  | DeqCas _ t _ c replacement =>
      cyc c < cycle t /\
      ((∃ v, val c = Some v /\ safe c = true /\ replacement = mk_cell (cyc c) false (Some v)) \/
       (val c = None /\ replacement = mk_cell (cycle t) (safe c) None))
  | DeqCatchCas tail head => tail <= head
  | _ => True
  end.

(** Store [c] in the slot of ticket [t]. *)
Definition put cs (t : Z) (c : cell) : Z -> cell :=
  fun u => if decide (pos u = pos t) then c else cs u.

Definition also dead (t : Z) : Z -> Prop := fun d => dead d \/ d = t.

#[local] Instance slots_inv_proper :
  Proper (pointwise_relation Z eq ==> pointwise_relation Z iff ==> eq ==> eq ==> iff) slots_inv.
Proof.
  assert (∀ cs cs' d d' E D, pointwise_relation Z eq cs cs' -> pointwise_relation Z iff d d' ->
    slots_inv cs d E D -> slots_inv cs' d' E D) as H.
  { intros cs cs' d d' E D Hcs Hd []. split; try done; intros t; rewrite <- ?(Hd t), <- ?(Hcs t); auto.
    intros u Hu. rewrite <- (Hcs u). auto. }
  intros cs cs' Hcs d d' Hd E ? <- D ? <-. split; apply H; done || by symmetry.
Qed.

#[local] Instance pc_inv_proper :
  Proper (pointwise_relation Z eq ==> pointwise_relation Z iff ==> eq ==> eq ==> iff) pc_inv.
Proof.
  assert (∀ cs cs' d d' E p, pointwise_relation Z eq cs cs' -> pointwise_relation Z iff d d' ->
    pc_inv cs d E p -> pc_inv cs' d' E p) as H.
  { intros cs cs' d d' E p Hcs Hd. destruct p; simpl; try done; rewrite (Hcs ticket); try done.
    intros (? & ? & ? & Hc). split_and!; auto. intros Heq t. rewrite <- (Hd t). auto. }
  intros cs cs' Hcs d d' Hd E ? <- D ? <-. split; apply H; done || by symmetry.
Qed.

Lemma ticket_eq t u : pos t = pos u -> cycle t = cycle u -> t = u.
Proof.
  pose proof (size_bound r Hr). unfold RingAbs.pos, RingAbs.cycle. intros Hp Hc.
  pose proof (Z.div_mod t size ltac:(lia)). pose proof (Z.div_mod u size ltac:(lia)). congruence.
Qed.

Lemma cycle_lt t u : t < u -> pos t = pos u -> cycle t < cycle u.
Proof.
  intros Hlt Hp. pose proof (size_bound r Hr).
  assert (cycle t <= cycle u) by (apply Z.div_le_mono; lia).
  destruct (decide (cycle t = cycle u)) as [He|]; [|lia]. apply ticket_eq in He; [lia|done].
Qed.

Lemma cycle_le_inv t u : pos t = pos u -> cycle t < cycle u -> t < u.
Proof.
  intros Hp Hlt. pose proof (size_bound r Hr). destruct (decide (u <= t)); [|lia].
  assert (cycle u <= cycle t) by (apply Z.div_le_mono; lia). lia.
Qed.

Lemma put_eq cs t c u : pos u = pos t -> put cs t c u = c.
Proof. intros. unfold put. by rewrite decide_True. Qed.

Lemma put_ne cs t c u : pos u <> pos t -> put cs t c u = cs u.
Proof. intros. unfold put. by rewrite decide_False. Qed.

Lemma put_pos cs t c :
  (∀ u v, pos u = pos v -> cs u = cs v) -> ∀ u v, pos u = pos v -> put cs t c u = put cs t c v.
Proof. intros Hcs u v Huv. unfold put. rewrite Huv. case_decide; auto. Qed.

(** Split on whether a ticket shares the stored slot. *)
Local Ltac at_slot Hp u t :=
  destruct (decide (pos u = pos t)) as [Hp|Hp]; [rewrite !(put_eq _ _ _ u Hp) in * |
    rewrite !(put_ne _ _ _ u Hp) in *].

Lemma slots_enqueue cs dead E D u i :
  slots_inv cs dead E D -> val (cs u) = None -> cyc (cs u) < cycle u ->
  E !! u = None -> (∀ d, dead d -> pos d = pos u -> d < u) ->
  slots_inv (put cs u (mk_cell (cycle u) true (Some i))) dead (<[u := i]> E) D.
Proof.
  intros [] Hv Hc He Hd. pose proof (λ t, slots_pos0 t u) as Hsame. split.
  - by apply put_pos.
  - apply insert_subseteq_r; [|done]. by eapply lookup_weaken_None.
  - intros t j Ht HD. at_slot Hp t u.
    + destruct (decide (t = u)) as [->|Hne].
      * rewrite lookup_insert_eq in Ht. by simplify_eq.
      * rewrite lookup_insert_ne in Ht by done. destruct (slots_full0 t j Ht HD) as [_ Hv'].
        rewrite (Hsame t Hp) in Hv'. congruence.
    + rewrite lookup_insert_ne in Ht by (intros ->; done). by apply slots_full0.
  - intros t j Ht HV. at_slot Hp t u.
    + simpl in *. rewrite (ticket_eq t u) by done. simplify_eq. rewrite lookup_insert_eq.
      split; [done|]. apply eq_None_not_Some. intros [x Hx]. eapply lookup_weaken in Hx; [|done].
      congruence.
    + rewrite lookup_insert_ne by (intros ->; done). by apply slots_value0.
  - intros t Ht0 Ht HV. at_slot Hp t u; [done|]. by apply slots_empty0.
  - intros t Ht. at_slot Hp t u; [|by apply slots_dead0]. left. simpl.
    apply cycle_lt; [by apply Hd|done].
Qed.

Lemma slots_consume cs dead E D t i :
  slots_inv cs dead E D -> E !! t = Some i -> D !! t = None ->
  slots_inv (put cs t (mk_cell (cycle t) (safe (cs t)) None)) (also dead t) E (<[t := i]> D).
Proof.
  intros [] HE HD. pose proof (λ u, slots_pos0 u t) as Hsame.
  destruct (slots_full0 t i HE HD) as [Hc Hv]. split.
  - by apply put_pos.
  - by apply insert_subseteq_l.
  - intros u j Hu HDu. apply lookup_insert_None in HDu as [HDu Hne].
    destruct (slots_full0 u j Hu HDu) as [Hcu Hvu]. at_slot Hp u t; [|done].
    exfalso. apply Hne, ticket_eq; [done|]. rewrite <- Hc, <- Hcu. by rewrite (Hsame u Hp).
  - intros u j Hu HV. at_slot Hp u t; [done|]. rewrite lookup_insert_ne by (intros ->; done).
    by apply slots_value0.
  - intros u Hu0 Hu HV. at_slot Hp u t; [right; by apply ticket_eq|left; by apply slots_empty0].
  - intros u [Hu| ->].
    + at_slot Hp u t; [|by apply slots_dead0]. pose proof (slots_dead0 u Hu) as Hpa.
      rewrite (Hsame u Hp) in Hpa. unfold passed in *. rewrite Hc, Hv in Hpa. simpl.
      destruct Hpa as [?|[[? ?]|[? ?]]]; [by left|done|]. right; right. done.
    + rewrite put_eq by done. right; left. done.
Qed.

Lemma slots_unsafe cs dead E D t v :
  slots_inv cs dead E D -> val (cs t) = Some v ->
  slots_inv (put cs t (mk_cell (cyc (cs t)) false (Some v))) dead E D.
Proof.
  intros [] Hv. pose proof (λ u, slots_pos0 u t) as Hsame. split; [by apply put_pos|done|..].
  - intros u j Hu HDu. specialize (slots_full0 u j Hu HDu). at_slot Hp u t; [|done].
    rewrite (Hsame u Hp), Hv in slots_full0. done.
  - intros u j Hu HV. specialize (slots_value0 u j). at_slot Hp u t; [|by apply slots_value0].
    rewrite (Hsame u Hp), Hv in slots_value0. by apply slots_value0.
  - intros u Hu0 Hu HV. at_slot Hp u t; [done|]. by apply slots_empty0.
  - intros u Hu. specialize (slots_dead0 u Hu). at_slot Hp u t; [|done].
    rewrite (Hsame u Hp) in slots_dead0. unfold passed in *. rewrite Hv in slots_dead0. simpl.
    destruct slots_dead0 as [?|[[? ?]|[? ?]]]; auto; done.
Qed.

Lemma slots_skip cs dead E D t :
  slots_inv cs dead E D -> val (cs t) = None -> cyc (cs t) < cycle t ->
  slots_inv (put cs t (mk_cell (cycle t) (safe (cs t)) None)) (also dead t) E D.
Proof.
  intros [] Hv Hc. pose proof (λ u, slots_pos0 u t) as Hsame. split; [by apply put_pos|done|..].
  - intros u j Hu HDu. destruct (slots_full0 u j Hu HDu) as [? Hu']. at_slot Hp u t; [|done].
    rewrite (Hsame u Hp), Hv in Hu'. done.
  - intros u j Hu HV. at_slot Hp u t; [done|]. by apply slots_value0.
  - intros u Hu0 Hu HV. at_slot Hp u t; [right; by apply ticket_eq|left; by apply slots_empty0].
  - intros u [Hu| ->].
    + specialize (slots_dead0 u Hu). at_slot Hp u t; [|done].
      rewrite (Hsame u Hp) in slots_dead0. unfold passed in *. simpl.
      destruct slots_dead0 as [?|[[? ?]|[? ?]]]; [left; lia|left; lia|].
      destruct (Z.lt_trichotomy (cycle t) (cycle u)) as [?|[?|?]]; auto.
    + rewrite put_eq by done. right; left. done.
Qed.

Lemma left_behind_passed c t : left_behind c t -> passed c t.
Proof. unfold left_behind, passed. tauto. Qed.

Lemma slots_release cs dead E D t :
  slots_inv cs dead E D -> left_behind (cs t) t -> slots_inv cs (also dead t) E D.
Proof.
  intros [] Hl. split; try done.
  - intros u Hu0 Hu HV. left. by apply slots_empty0.
  - intros u [Hu| ->]; [by apply slots_dead0|by apply left_behind_passed].
Qed.

(** What other threads know survives a store and a departure. *)
Lemma pc_inv_put cs dead E E' t c p :
  (∀ u v, pos u = pos v -> cs u = cs v) -> rank (cs t) < rank c -> E ⊆ E' ->
  pc_inv cs dead E p -> pc_inv (put cs t c) dead E' p.
Proof.
  intros Hcs Hrank HE. assert (∀ u, rank (cs u) <= rank (put cs t c u)) as Hmono.
  { intros u. at_slot Hp u t; [rewrite (Hcs u t Hp)|]; lia. }
  destruct p; simpl; try done.
  - intros (? & ? & ?). specialize (Hmono ticket). split_and!; [done..|lia].
  - intros (? & ? & Hle & Hd). pose proof (Hmono ticket). split_and!; [done..|lia|].
    at_slot Hp ticket t; [|done]. intros ->. rewrite (Hcs ticket t Hp) in Hle. lia.
  - intros (? & i & ? & ?). split; [done|]. exists i. split; [done|]. by eapply lookup_weaken.
Qed.

Lemma pc_inv_also cs dead E t p :
  (∀ u v, pos u = pos v -> cs u = cs v) -> left_behind (cs t) t ->
  pc_inv cs dead E p -> pc_inv cs (also dead t) E p.
Proof.
  intros Hcs Hl. destruct p; simpl; try done.
  intros (Hc & Hv & Hle & Hd). split_and!; try done. intros Heq d [Hdd| ->] Hp; [by apply Hd|].
  rewrite (Hcs t ticket Hp), Heq in Hl. apply cycle_le_inv; [done|].
  destruct Hl as [?|[[? ?]|(? & ? & ?)]]; [lia|lia|done].
Qed.

(** ** Ticket ownership *)

Section owners.
Context (ticket : pc cell -> option Z).

(** The operations inside their slots own distinct tickets below [limit],
    at which nothing is logged yet. *)
Record owners (limit : Z) (log : gmap Z Z) (ts : list (pc cell)) : Prop := {
  owners_limit : 0 <= limit;
  owners_fresh : ∀ j p t, ts !! j = Some p -> ticket p = Some t -> 0 <= t < limit /\ log !! t = None;
  owners_unique : ∀ j k p q t, ts !! j = Some p -> ts !! k = Some q ->
    ticket p = Some t -> ticket q = Some t -> j = k;
  owners_log : ∀ t i, log !! t = Some i -> 0 <= t < limit;
}.

Definition owned (ts : list (pc cell)) (t : Z) : Prop := ∃ j p, ts !! j = Some p /\ ticket p = Some t.

Lemma owners_keep limit limit' log ts j p p' :
  owners limit log ts -> ts !! j = Some p -> ticket p' = ticket p \/ ticket p' = None ->
  limit <= limit' -> owners limit' log (<[j := p']> ts).
Proof.
  intros [] Hp Ht Hl. split; [lia|..].
  - intros k q t [(<- & <- & _)|[_ Hq]]%list_lookup_insert_Some Hqt.
    + destruct Ht as [Ht|Ht]; [|congruence].
      destruct (owners_fresh0 j p t Hp); [congruence|]. split; [lia|done].
    + destruct (owners_fresh0 k q t Hq Hqt). split; [lia|done].
  - intros k k' q q' t [(<- & <- & _)|[? Hq]]%list_lookup_insert_Some
      [(<- & <- & _)|[? Hq']]%list_lookup_insert_Some Hqt Hqt'; try done.
    + destruct Ht as [Ht|Ht]; [|congruence]. eapply owners_unique0; try done. congruence.
    + destruct Ht as [Ht|Ht]; [|congruence]. eapply owners_unique0; try done. congruence.
    + by eapply owners_unique0.
  - intros t i Hi. specialize (owners_log0 t i Hi). lia.
Qed.

Lemma owners_take limit log ts j p' :
  owners limit log ts -> ticket p' = Some limit -> owners (limit + 1) log (<[j := p']> ts).
Proof.
  intros [] Ht. split; [lia|..].
  - intros k q t [(<- & <- & _)|[_ Hq]]%list_lookup_insert_Some Hqt.
    + simplify_eq. split; [lia|]. apply eq_None_not_Some. intros [x Hx].
      specialize (owners_log0 _ _ Hx). lia.
    + destruct (owners_fresh0 k q t Hq Hqt). split; [lia|done].
  - intros k k' q q' t [(<- & <- & _)|[? Hq]]%list_lookup_insert_Some
      [(<- & <- & _)|[? Hq']]%list_lookup_insert_Some Hqt Hqt'; try done.
    + destruct (owners_fresh0 _ _ _ Hq' Hqt'). simplify_eq. lia.
    + destruct (owners_fresh0 _ _ _ Hq Hqt). simplify_eq. lia.
    + by eapply owners_unique0.
  - intros t i Hi. specialize (owners_log0 t i Hi). lia.
Qed.

Lemma owners_leave limit log ts j p p' t i :
  owners limit log ts -> ts !! j = Some p -> ticket p = Some t -> ticket p' = None ->
  owners limit (<[t := i]> log) (<[j := p']> ts).
Proof.
  intros Ho Hp Ht Ht'. pose proof (owners_fresh _ _ _ Ho j p t Hp Ht) as [Htl _].
  pose proof (owners_unique _ _ _ Ho j) as Hu.
  destruct (owners_keep limit limit log ts j p p' Ho Hp (or_intror Ht') ltac:(lia)).
  split; try done.
  - intros k q u Hk Hq. destruct (owners_fresh0 k q u Hk Hq) as [? ?]. split; [done|].
    rewrite lookup_insert_ne; [done|]. intros ->.
    apply list_lookup_insert_Some in Hk as [(<- & <- & _)|[Hjk Hk]]; [congruence|].
    apply Hjk. by eapply Hu.
  - intros u x [[<- <-]|[_ Hu']]%lookup_insert_Some; [done|]. by eapply owners_log0.
Qed.

(** Tickets below the limit that nobody owns. *)
Definition over (limit : Z) (ts : list (pc cell)) (t : Z) : Prop := 0 <= t < limit /\ ~ owned ts t.

Lemma over_keep limit ts j p p' t :
  ts !! j = Some p -> ticket p' = ticket p -> over limit (<[j := p']> ts) t <-> over limit ts t.
Proof.
  intros Hp Ht. unfold over. f_equiv. f_equiv. unfold owned. split.
  - intros (k & q & [(<- & <- & _)|[_ Hq]]%list_lookup_insert_Some & Hqt).
    + exists j, p. split; [done|congruence].
    + by exists k, q.
  - intros (k & q & Hq & Hqt). destruct (decide (j = k)) as [<-|Hne].
    + exists j, p'. split; [|congruence]. apply list_lookup_insert_eq. by eapply lookup_lt_Some.
    + exists k, q. by rewrite list_lookup_insert_ne.
Qed.

Lemma over_take limit ts j p p' t :
  ts !! j = Some p -> ticket p = None -> ticket p' = Some limit ->
  over (limit + 1) (<[j := p']> ts) t <-> over limit ts t.
Proof.
  intros Hp Hn Ht. unfold over, owned. split.
  - intros [Hl Ho]. split.
    + destruct (decide (t = limit)) as [->|]; [|lia]. exfalso. apply Ho. exists j, p'.
      split; [|done]. apply list_lookup_insert_eq. by eapply lookup_lt_Some.
    + intros (k & q & Hq & Hqt). apply Ho. exists k, q. split; [|done].
      rewrite list_lookup_insert_ne; [done|]. intros ->. congruence.
  - intros [Hl Ho]. split; [lia|].
    intros (k & q & [(<- & <- & _)|[_ Hq]]%list_lookup_insert_Some & Hqt).
    + simplify_eq. lia.
    + apply Ho. by exists k, q.
Qed.

Lemma over_leave limit log ts j p p' t u :
  owners limit log ts -> ts !! j = Some p -> ticket p = Some t -> ticket p' = None ->
  over limit (<[j := p']> ts) u <-> also (over limit ts) t u.
Proof.
  intros Hw Hp Ht Ht'. unfold also, over, owned. split.
  - intros [Hl Ho]. destruct (decide (u = t)) as [->|Hne]; [by right|left]. split; [done|].
    intros (k & q & Hq & Hqt). apply Ho. exists k, q. split; [|done].
    rewrite list_lookup_insert_ne; [done|]. intros ->. congruence.
  - intros [[Hl Ho]| ->].
    + split; [done|].
      intros (k & q & [(<- & <- & _)|[_ Hq]]%list_lookup_insert_Some & Hqt); [congruence|].
      apply Ho. by exists k, q.
    + split; [by apply (owners_fresh _ _ _ Hw j p)|].
      intros (k & q & [(<- & <- & _)|[Hjk Hq]]%list_lookup_insert_Some & Hqt); [congruence|].
      apply Hjk. by eapply (owners_unique _ _ _ Hw).
Qed.

End owners.

(** ** The invariant of the concurrent machine *)

Abbreviation aconfig := (config aring cell).
Implicit Types c : aconfig.

Definition dead_in (a : aring) (ts : list (pc cell)) : Z -> Prop :=
  over deq_ticket (a_head a) ts.

Record inv c : Prop := {
  inv_length : zlength (cells (the_ring c)) = size;
  inv_enq : owners enq_ticket (a_tail (the_ring c)) (enqueued c) (threads c);
  inv_deq : owners deq_ticket (a_head (the_ring c)) (dequeued c) (threads c);
  inv_slots : slots_inv (cell_at r (the_ring c)) (dead_in (the_ring c) (threads c))
    (enqueued c) (dequeued c);
  inv_pcs : ∀ j p, threads c !! j = Some p ->
    pc_inv (cell_at r (the_ring c)) (dead_in (the_ring c) (threads c)) (enqueued c) p;
}.

Lemma cell_at_store a t x :
  zlength (cells a) = size ->
  pointwise_relation Z eq (cell_at r (store_cell r a t x)) (put (cell_at r a) t x).
Proof.
  intros Hl u. unfold cell_at, store_cell, put. simpl.
  rewrite zlookup_zinsert by (rewrite Hl; by apply pos_range).
  destruct (decide (pos t = pos u)), (decide (pos u = pos t)); congruence || done.
Qed.

(** The other threads' knowledge, after thread [j] moved to [p']. *)
Lemma pcs_update (ts : list (pc cell)) j p' (P P' : pc cell -> Prop) :
  (∀ k p, ts !! k = Some p -> P p) -> (∀ p, P p -> P' p) -> P' p' ->
  ∀ k p, <[j := p']> ts !! k = Some p -> P' p.
Proof. intros Hts HP Hp' k p [(_ & <- & _)|[_ Hk]]%list_lookup_insert_Some; eauto. Qed.

(** A step that touches neither cells nor the head, nor leaves a slot. *)
Lemma inv_local c j p p' a' :
  inv c -> threads c !! j = Some p ->
  cells a' = cells (the_ring c) -> a_head a' = a_head (the_ring c) ->
  a_tail (the_ring c) <= a_tail a' ->
  enq_ticket p' = enq_ticket p \/ enq_ticket p' = None -> deq_ticket p' = deq_ticket p ->
  pc_inv (cell_at r (the_ring c)) (dead_in (the_ring c) (threads c)) (enqueued c) p' ->
  inv (mk_config a' (<[j := p']> (threads c)) (enqueued c) (dequeued c)).
Proof.
  intros [] Hp Hc Hh Ht He Hd Hp'. destruct a' as [cs hd th tl]. simpl in *. subst.
  assert (pointwise_relation Z iff (dead_in (mk_aring (cells (the_ring c)) (a_head (the_ring c)) th tl)
    (<[j := p']> (threads c))) (dead_in (the_ring c) (threads c))) as Hdead.
  { intros t. by apply (over_keep _ _ _ _ p). }
  split; simpl.
  - done.
  - by eapply owners_keep.
  - eapply owners_keep; [done..|by left|lia].
  - by rewrite Hdead.
  - eapply (pcs_update _ _ _ (pc_inv _ _ _)); [exact inv_pcs0|..]; intros; by rewrite Hdead.
Qed.

Lemma inv_take_enqueue c j p index known :
  inv c -> threads c !! j = Some p -> enq_ticket p = None -> deq_ticket p = None ->
  inv (mk_config (set_tail (the_ring c) (a_tail (the_ring c) + 1))
         (<[j := EnqLoad index known (a_tail (the_ring c))]> (threads c))
         (enqueued c) (dequeued c)).
Proof.
  intros [] Hp He Hd.
  assert (pointwise_relation Z iff (dead_in (set_tail (the_ring c) (a_tail (the_ring c) + 1))
    (<[j := EnqLoad index known (a_tail (the_ring c))]> (threads c)))
    (dead_in (the_ring c) (threads c))) as Hdead.
  { intros t. apply (over_keep _ _ _ _ p); [done|by rewrite Hd]. }
  split; simpl.
  - done.
  - by apply owners_take.
  - eapply owners_keep; [done..|right; done|lia].
  - by rewrite Hdead.
  - eapply (pcs_update _ _ _ (pc_inv _ _ _)); [exact inv_pcs0|..]; intros; by rewrite ?Hdead.
Qed.

Lemma inv_take_dequeue c j p known :
  inv c -> threads c !! j = Some p -> enq_ticket p = None -> deq_ticket p = None ->
  inv (mk_config (set_head (the_ring c) (a_head (the_ring c) + 1))
         (<[j := DeqLoad known (a_head (the_ring c)) 0]> (threads c))
         (enqueued c) (dequeued c)).
Proof.
  intros [] Hp He Hd.
  assert (pointwise_relation Z iff (dead_in (set_head (the_ring c) (a_head (the_ring c) + 1))
    (<[j := DeqLoad known (a_head (the_ring c)) 0]> (threads c)))
    (dead_in (the_ring c) (threads c))) as Hdead.
  { intros t. by apply (over_take _ _ _ _ p). }
  split; simpl.
  - done.
  - eapply owners_keep; [done..|right; done|lia].
  - by apply owners_take.
  - by rewrite Hdead.
  - eapply (pcs_update _ _ _ (pc_inv _ _ _)); [exact inv_pcs0|..]; intros; by rewrite ?Hdead.
Qed.

(** A dequeuer gives up its ticket without a store. *)
Lemma inv_leave c j p p' t :
  inv c -> threads c !! j = Some p -> deq_ticket p = Some t ->
  enq_ticket p' = None -> deq_ticket p' = None -> left_behind (cell_at r (the_ring c) t) t ->
  (∀ cs d E, pc_inv cs d E p') ->
  inv (mk_config (the_ring c) (<[j := p']> (threads c)) (enqueued c) (dequeued c)).
Proof.
  intros [] Hp Ht He Hd Hl Hp'.
  assert (pointwise_relation Z iff (dead_in (the_ring c) (<[j := p']> (threads c)))
    (also (dead_in (the_ring c) (threads c)) t)) as Hdead.
  { intros u. by eapply over_leave. }
  split; simpl.
  - done.
  - eapply owners_keep; [done..|by right|lia].
  - eapply owners_keep; [done..|by right|lia].
  - rewrite Hdead. by apply slots_release.
  - eapply (pcs_update _ _ _ (pc_inv _ _ _)); [exact inv_pcs0|..]; intros; rewrite ?Hdead; [|done].
    apply pc_inv_also; [|done..]. apply inv_slots0.
Qed.

Lemma rank_cyc x y : cyc x < cyc y -> rank x < rank y.
Proof. unfold rank. destruct (val x), (val y), (safe x), (safe y); lia. Qed.

Lemma inv_enqueue_store c j p' index known u x :
  inv c -> threads c !! j = Some (EnqCas index known u x) -> cell_at r (the_ring c) u = x ->
  enq_ticket p' = None -> deq_ticket p' = None -> (∀ cs d E, pc_inv cs d E p') ->
  inv (mk_config (store_cell r (the_ring c) u (mk_cell (cycle u) true (Some index)))
         (<[j := p']> (threads c)) (<[u := index]> (enqueued c)) (dequeued c)).
Proof.
  intros [] Hp Hx He Hd Hp'. destruct (inv_pcs0 _ _ Hp) as (Hc & Hv & _ & Hlt).
  destruct (owners_fresh _ _ _ _ inv_enq0 _ _ u Hp eq_refl) as [Hu Hfresh].
  set (y := mk_cell (cycle u) true (Some index)).
  assert (pointwise_relation Z iff (dead_in (store_cell r (the_ring c) u y) (<[j := p']> (threads c)))
    (dead_in (the_ring c) (threads c))) as Hdead.
  { intros t. by eapply over_keep. }
  pose proof (cell_at_store (the_ring c) u y inv_length0) as Hcs.
  split; simpl.
  - by rewrite zlength_zinsert.
  - by eapply owners_leave.
  - eapply owners_keep; [done..|by right|lia].
  - rewrite Hdead, Hcs. apply slots_enqueue; rewrite ?Hx; done || by apply Hlt.
  - eapply (pcs_update _ _ _ (pc_inv _ _ _)); [exact inv_pcs0|..]; intros; rewrite ?Hdead, ?Hcs;
      [|done].
    eapply pc_inv_put; [apply inv_slots0| |by apply insert_subseteq|done].
    apply rank_cyc. by rewrite Hx.
Qed.

Lemma inv_consume c j t x o :
  inv c -> threads c !! j = Some (DeqConsume t x) ->
  inv (mk_config (store_cell r (the_ring c) t
           (mk_cell (cyc (cell_at r (the_ring c) t)) (safe (cell_at r (the_ring c) t)) None))
         (<[j := DeqDone o]> (threads c)) (enqueued c) (<[t := index_bits r x]> (dequeued c))).
Proof.
  intros [] Hp. destruct (inv_pcs0 _ _ Hp) as (Hc & i & Hv & HE).
  destruct (owners_fresh _ _ _ _ inv_deq0 _ _ t Hp eq_refl) as [Ht HD].
  destruct (slots_full _ _ _ _ inv_slots0 t i HE HD) as [Hct Hvt].
  assert (index_bits r x = i) as -> by (unfold index_bits; by rewrite Hv).
  rewrite Hct. set (y := mk_cell (cycle t) _ None).
  assert (pointwise_relation Z iff
    (dead_in (store_cell r (the_ring c) t y) (<[j := DeqDone o]> (threads c)))
    (also (dead_in (the_ring c) (threads c)) t)) as Hdead.
  { intros u. by eapply over_leave. }
  pose proof (cell_at_store (the_ring c) t y inv_length0) as Hcs.
  split; simpl.
  - by rewrite zlength_zinsert.
  - eapply owners_keep; [done..|by right|lia].
  - by eapply owners_leave.
  - rewrite Hdead, Hcs. by apply slots_consume.
  - eapply (pcs_update _ _ _ (pc_inv _ _ _)); [exact inv_pcs0|..]; intros; rewrite ?Hdead, ?Hcs;
      [|done].
    apply pc_inv_also.
    + apply put_pos, inv_slots0.
    + rewrite put_eq by done. right; left. done.
    + apply (pc_inv_put _ _ (enqueued c)); [apply inv_slots0| |done|done].
      unfold rank, y. rewrite Hct, Hvt. simpl. lia.
Qed.

Lemma inv_dequeue_cas c j p' known t n x y :
  inv c -> threads c !! j = Some (DeqCas known t n x y) -> cell_at r (the_ring c) t = x ->
  enq_ticket p' = None -> deq_ticket p' = None -> (∀ cs d E, pc_inv cs d E p') ->
  inv (mk_config (store_cell r (the_ring c) t y) (<[j := p']> (threads c))
         (enqueued c) (dequeued c)).
Proof.
  intros [] Hp Hx He Hd Hp'. destruct (inv_pcs0 _ _ Hp) as (Hc & Hy).
  assert (pointwise_relation Z iff
    (dead_in (store_cell r (the_ring c) t y) (<[j := p']> (threads c)))
    (also (dead_in (the_ring c) (threads c)) t)) as Hdead.
  { intros u. by eapply over_leave. }
  pose proof (cell_at_store (the_ring c) t y inv_length0) as Hcs.
  assert (slots_inv (put (cell_at r (the_ring c)) t y)
    (also (dead_in (the_ring c) (threads c)) t) (enqueued c) (dequeued c) /\
    left_behind y t /\ rank x < rank y) as (Hs & Hl & Hk).
  { destruct Hy as [(v & Hv & Hsf & ->)|[Hv ->]].
    - assert (left_behind (mk_cell (cyc x) false (Some v)) t) as Hl by (right; right; done).
      split_and!; [|done|].
      + apply slots_release; [|by rewrite put_eq]. rewrite <- Hx at 1.
        apply slots_unsafe; [done|by rewrite Hx].
      + unfold rank. rewrite Hv, Hsf. simpl. lia.
    - split_and!; [|right; left; done|by apply rank_cyc].
      rewrite <- Hx. apply slots_skip; by rewrite ?Hx. }
  split; simpl.
  - by rewrite zlength_zinsert.
  - eapply owners_keep; [done..|by right|lia].
  - eapply owners_keep; [done..|by right|lia].
  - by rewrite Hdead, Hcs.
  - eapply (pcs_update _ _ _ (pc_inv _ _ _)); [exact inv_pcs0|..]; intros; rewrite ?Hdead, ?Hcs;
      [|done].
    apply pc_inv_also; [apply put_pos, inv_slots0|by rewrite put_eq|].
    apply (pc_inv_put _ _ (enqueued c)); [apply inv_slots0| |done|done]. by rewrite Hx.
Qed.

(** ** Every step preserves it *)

Lemma inv_enq_inspect c j p index known u :
  inv c -> threads c !! j = Some p -> enq_ticket p = Some u -> deq_ticket p = None ->
  inv (mk_config (the_ring c)
         (<[j := a_enq_inspect r index known u (cell_at r (the_ring c) u)]> (threads c))
         (enqueued c) (dequeued c)).
Proof.
  intros Hi Hp He Hd. set (x := cell_at r (the_ring c) u).
  eapply inv_local; try done; unfold a_enq_inspect;
    destruct (Z.ltb_spec (cyc x) (cycle u)); simpl; auto;
    destruct (val x) eqn:Hv; simpl; auto; destruct (safe x) eqn:Hs; simpl; auto.
  2: { by split_and!. }
  split_and!; try done. intros _ d Hdead Hpos.
  pose proof (slots_dead _ _ _ _ (inv_slots _ Hi) d Hdead) as Hpa.
  rewrite (slots_pos _ _ _ _ (inv_slots _ Hi) d u Hpos) in Hpa. fold x in Hpa.
  apply cycle_le_inv; [done|].
  destruct Hpa as [?|[[? _]|[_ ?]]]; [lia|lia|congruence].
Qed.

Lemma missed_pc known t :
  enq_ticket (W:=cell) (deq_missed known t) = None /\ deq_ticket (W:=cell) (deq_missed known t) = None /\
  ∀ cs d E, pc_inv cs d E (deq_missed known t).
Proof. by destruct known. Qed.

Lemma inv_deq_inspect c j p known t n :
  inv c -> threads c !! j = Some p -> deq_ticket p = Some t -> enq_ticket p = None ->
  inv (mk_config (the_ring c)
         (<[j := a_deq_inspect r known t n (cell_at r (the_ring c) t)]> (threads c))
         (enqueued c) (dequeued c)).
Proof.
  intros Hi Hp Hd He. set (x := cell_at r (the_ring c) t).
  destruct (owners_fresh _ _ _ _ (inv_deq _ Hi) _ _ t Hp Hd) as [Ht HD].
  destruct (missed_pc known t) as (Hm1 & Hm2 & Hm3).
  unfold a_deq_inspect. destruct (Z.eqb_spec (cyc x) (cycle t)) as [Hc|Hc].
  { eapply inv_local; try done; [by right|simpl].
    split; [done|]. destruct (val x) as [i|] eqn:Hv.
    - exists i. split; [done|]. by apply (slots_value _ _ _ _ (inv_slots _ Hi) t).
    - destruct (slots_empty _ _ _ _ (inv_slots _ Hi) t) as [_ Hno]; [lia|done|done|].
      exfalso. apply Hno. by exists j, p. }
  assert (∀ y, cycle t < cyc x \/ cyc x < cycle t /\ safe x = false /\ val x <> None ->
    y = deq_missed known t ->
    inv (mk_config (the_ring c) (<[j := y]> (threads c)) (enqueued c) (dequeued c))) as Hleave.
  { intros y Hl ->. apply (inv_leave c j p _ t); try done.
    fold x. unfold left_behind. tauto. }
  assert (∀ k y, cyc x < cycle t ->
    ((∃ v, val x = Some v /\ safe x = true /\ y = mk_cell (cyc x) false (Some v)) \/
     (val x = None /\ y = mk_cell (cycle t) (safe x) None)) ->
    inv (mk_config (the_ring c) (<[j := DeqCas known t k x y]> (threads c))
      (enqueued c) (dequeued c))) as Hcas.
  { intros k y Hlt Hy. eapply inv_local; try done. by right. }
  destruct (val x) as [v|] eqn:Hv; [destruct (safe x) eqn:Hs|].
  - destruct (Z.ltb_spec (cyc x) (cycle t)); simpl; [|apply Hleave; [left; lia|done]].
    apply Hcas; [done|]. left. eauto.
  - apply Hleave; [|done]. destruct (Z.lt_trichotomy (cyc x) (cycle t)) as [?|[?|?]]; auto.
    done.
  - destruct (n + 1 <=? catchup_attempts).
    { eapply inv_local; try done. by right. }
    destruct (Z.ltb_spec (cyc x) (cycle t)); simpl; [|apply Hleave; [left; lia|done]].
    apply Hcas; [done|]. by right.
Qed.

Lemma ring_inv_step c j b p :
  inv c -> threads c !! j = Some p -> inv (a_exec (Run j b) c).
Proof.
  intros Hi Hp. cbn [a_exec exec]. rewrite Hp.
  destruct (astep r b p (the_ring c)) as [p' a'] eqn:Hs.
  destruct p; cbn [astep a_log_enqueue a_log_dequeue] in *; simplify_eq.
  - by eapply inv_take_enqueue.
  - by eapply inv_enq_inspect.
  - destruct (inv_pcs _ Hi _ _ Hp) as (? & ? & ?).
    eapply inv_local; try done; [destruct (Z.leb_spec (a_head (the_ring c)) ticket); auto..].
    2: { done. }
    simpl. split_and!; try done. intros _ d [Hdl _] _. lia.
  - destruct b, (bool_decide (cell_at r (the_ring c) ticket = entry)) eqn:Hb;
      cbn [negb andb] in *; simplify_eq; try by eapply inv_enq_inspect.
    apply bool_decide_eq_true in Hb. eapply inv_enqueue_store; done || by destruct known.
  - eapply inv_local; try done; destruct (_ =? _);
      first [done | by right | simpl; lia].
  - eapply inv_local; try done. by right.
  - eapply inv_local; try done. by right.
  - eapply inv_local; try done; destruct (_ <? _);
      first [done | by right | simpl; lia].
  - by eapply inv_take_dequeue.
  - by eapply inv_deq_inspect.
  - by apply inv_consume.
  - destruct (missed_pc known ticket) as (Hm1 & Hm2 & Hm3).
    destruct b, (bool_decide (cell_at r (the_ring c) ticket = entry)) eqn:Hb;
      cbn [negb andb] in *; simplify_eq; try by eapply inv_deq_inspect.
    apply bool_decide_eq_true in Hb. by eapply inv_dequeue_cas.
  - eapply inv_local; try done; destruct (Z.leb_spec (a_tail (the_ring c)) (ticket + 1));
      first [done | by right | simpl; lia].
  - pose proof (inv_pcs _ Hi _ _ Hp) as Hle. simpl in Hle.
    destruct b, (Z.eqb_spec (a_tail (the_ring c)) tail); cbn [negb andb] in *; simplify_eq;
      eapply inv_local; try done;
      first [done | by right | simpl; lia].
  - eapply inv_local; try done. by right.
  - eapply inv_local; try done; destruct (Z.ltb_spec (a_tail (the_ring c)) head);
      first [done | by right | simpl; lia].
  - eapply inv_local; try done. by right.
  - eapply inv_local; try done; destruct (_ <=? _);
      first [done | by right | simpl; lia].
  - eapply inv_local; try done. by right.
Qed.

Lemma finished_tickets (p : pc cell) :
  finished p = true -> enq_ticket p = None /\ deq_ticket p = None.
Proof. by destruct p. Qed.

Lemma inv_exec act c : inv c -> inv (a_exec act c).
Proof.
  intros Hi. destruct act as [j b|j index known|j known].
  - destruct (threads c !! j) as [p|] eqn:Hp; [by eapply ring_inv_step|].
    cbn [a_exec exec]. by rewrite Hp.
  - cbn [a_exec exec]. destruct (threads c !! j) as [p|] eqn:Hp; [|done].
    destruct (finished p) eqn:Hf; [|done]. destruct (finished_tickets p Hf) as [He Hd].
    case_bool_decide; [|done]. cbn. eapply inv_local; try done. by right.
  - cbn [a_exec exec]. destruct (threads c !! j) as [p|] eqn:Hp; [|done].
    destruct (finished p) eqn:Hf; [|done]. destruct (finished_tickets p Hf) as [He Hd].
    eapply inv_local; try done; destruct known; first [done | by right].
Qed.

Lemma inv_exec_all acts c :
  inv c -> inv (exec_all half (astep r) a_log_enqueue a_log_dequeue acts c).
Proof.
  revert c. induction acts as [|act acts IH]; intros c Hi; [done|]. by apply IH, inv_exec.
Qed.

(** ** The initial configuration *)

Definition a_start (full : bool) (n : nat) : aconfig :=
  mk_config (a_make r full) (replicate n EnqDone) (initial_log half full) ∅.

Lemma initial_log_full t i : initial_log half true !! t = Some i <-> 0 <= t < half /\ i = t.
Proof.
  unfold initial_log. rewrite <- elem_of_list_to_map.
  - rewrite list_elem_of_fmap. setoid_rewrite elem_of_seqZ. split.
    + intros (x & [= <- <-] & Hx). lia.
    + intros [? ->]. exists t. split; [done|lia].
  - rewrite <- list_fmap_compose. apply NoDup_fmap_2; [|apply NoDup_seqZ].
    intros x y Hxy. exact Hxy.
Qed.

Lemma make_cell full t :
  cell_at r (a_make r full) t =
    if full && (pos t <? half) then mk_cell 0 true (Some (pos t)) else mk_cell (-1) true None.
Proof.
  pose proof (pos_range r Hr t). pose proof (size_half r Hr). pose proof (half_pos r Hr).
  unfold cell_at, a_make. destruct full; cbn [cells andb].
  - rewrite zlookup_app, zlookup_fmap, zlength_fmap, zlength_seqZ by lia.
    case_decide; destruct (Z.ltb_spec (pos t) half); try lia.
    + rewrite zlookup_seqZ by lia. done.
    + by rewrite zlookup_replicate by lia.
  - by rewrite zlookup_replicate by lia.
Qed.

Lemma start_owners (tk : pc cell -> option Z) limit log n :
  tk EnqDone = None -> 0 <= limit -> (∀ t i, log !! t = Some i -> 0 <= t < limit) ->
  owners tk limit log (replicate n EnqDone).
Proof.
  intros Hn Hl Hlog. assert (∀ j p t, replicate n EnqDone !! j = Some p -> tk p <> Some t) as H.
  { intros j p t [-> _]%lookup_replicate. congruence. }
  split; try done.
  - intros j p t Hp Ht. by destruct (H j p t Hp).
  - intros j k p q t Hp _ Ht. by destruct (H j p t Hp).
Qed.

Lemma ring_start_inv full n : inv (a_start full n).
Proof.
  pose proof (size_bound r Hr). pose proof (size_half r Hr). pose proof (half_pos r Hr).
  assert (∀ t, cell_at r (a_make r full) t = if full && (pos t <? half)
    then mk_cell 0 true (Some (pos t)) else mk_cell (-1) true None) as Hcell by apply make_cell.
  assert (∀ t, t = size * cycle t + pos t /\ 0 <= pos t < size) as Ht.
  { intros t. split; [apply Z.div_mod; lia|by apply pos_range]. }
  assert (∀ t i, initial_log half full !! t = Some i -> full = true /\ 0 <= t < half /\ i = t) as HE.
  { intros t i Hi. destruct full; [|done]. by apply initial_log_full in Hi. }
  split; unfold a_start; cbn [the_ring threads enqueued dequeued].
  - unfold a_make. destruct full; simpl; zlen; rewrite ?zlength_seqZ, ?zlength_replicate; lia.
  - apply start_owners; [done|destruct full; simpl; lia|].
    intros t i Hi. destruct (HE t i Hi) as (-> & ? & _). simpl. lia.
  - apply start_owners; [done|by destruct full|done].
  - split.
    + intros t u Htu. by rewrite !Hcell, Htu.
    + apply map_empty_subseteq.
    + intros t i Hi _. destruct (HE t i Hi) as (-> & ? & ->). destruct (Ht t).
      assert (cycle t = 0) as Hc by nia. rewrite Hcell. simpl.
      destruct (Z.ltb_spec (pos t) half); [|nia]. simpl. split; [done|]. f_equal. nia.
    + intros t i. rewrite Hcell. destruct full; simpl; [|done].
      destruct (Z.ltb_spec (pos t) half); simpl; [|done]. intros Hc [= <-]. split; [|done].
      apply initial_log_full. destruct (Ht t). nia.
    + intros t Ht0. rewrite Hcell. destruct (full && (pos t <? half)); simpl; [done|].
      intros Hc _. destruct (Ht t). nia.
    + intros t [Hlt _]. destruct full; simpl in Hlt; lia.
  - by intros j p [-> _]%lookup_replicate.
Qed.

(** ** Tickets in play are bounded by the number of steps *)

Definition cell_bd (B : Z) (x : cell) : Prop :=
  - size <= cyc x * size <= B /\ ∀ v, val x = Some v -> index_ok r v.

Definition pc_bd (B : Z) (p : pc cell) : Prop :=
  match p with
  | EnqTicket index _ => index_ok r index
  | EnqLoad index _ t => index_ok r index /\ 0 <= t <= B
  | EnqHead index _ t x | EnqCas index _ t x => index_ok r index /\ 0 <= t <= B /\ cell_bd B x
  | DeqLoad _ t _ | DeqTail t | DeqCatchTail t => 0 <= t <= B
  | DeqConsume t x => 0 <= t <= B /\ cell_bd B x
  | DeqCas _ t _ x y => 0 <= t <= B /\ cell_bd B x /\ cell_bd B y
  | DeqCatchCas t h => 0 <= t <= B /\ 0 <= h <= B
  | _ => True
  end.

Definition ring_bd (B : Z) (a : aring) : Prop :=
  zlength (cells a) = size /\ 0 <= a_head a <= B /\ 0 <= a_tail a <= B /\
  ∀ i x, cells a !!z i = Some x -> cell_bd B x.

Definition config_bd (B : Z) c : Prop :=
  ring_bd B (the_ring c) /\ ∀ j p, threads c !! j = Some p -> pc_bd B p.

(** What the window of [2^61] tickets leaves room for. *)
Definition bound_ok (B : Z) : Prop := B <= 2 ^ 61 - 2 ^ 59.

Lemma cell_bd_mono B B' x : B <= B' -> cell_bd B x -> cell_bd B' x.
Proof. intros HB [Hx Hv]. split; [lia|done]. Qed.

Lemma pc_bd_mono B B' p : B <= B' -> pc_bd B p -> pc_bd B' p.
Proof.
  intros HB. pose proof (λ x, cell_bd_mono B B' x HB).
  destruct p; simpl; intuition (auto; lia).
Qed.

Lemma ring_bd_mono B B' a : B <= B' -> ring_bd B a -> ring_bd B' a.
Proof.
  intros HB (Hl & Hh & Ht & Hc). split_and!; try done; try lia.
  intros i x Hx. by eapply cell_bd_mono, Hc.
Qed.

Lemma cell_bd_in B x : bound_ok B -> cell_bd B x -> cell_in r (- size) x.
Proof. pose proof (size_bound r Hr). intros HB [Hx Hv]. split; [|done]. unfold bound_ok in HB. lia. Qed.

Lemma pc_bd_in B p : bound_ok B -> pc_bd B p -> pc_in r (- size) p.
Proof.
  pose proof (size_bound r Hr). intros HB. pose proof (cell_bd_in B).
  unfold bound_ok, ticket_in in *.
  destruct p; simpl; unfold ticket_in; intuition (auto; lia).
Qed.

Lemma ring_bd_in B a : bound_ok B -> ring_bd B a -> ring_in r (- size) a.
Proof.
  pose proof (size_bound r Hr). intros HB (Hl & Hh & Ht & Hc). pose proof (cell_bd_in B).
  unfold bound_ok, ring_in, ticket_in in *. split_and!; try done; try lia. eauto.
Qed.

Lemma cell_at_bd B a t : ring_bd B a -> cell_bd B (cell_at r a t).
Proof.
  intros (Hl & _ & _ & Hc). unfold cell_at.
  destruct (zlookup_lt (cells a) (pos t)) as [x Hx]; [rewrite Hl; by apply pos_range|].
  rewrite Hx. by eapply Hc.
Qed.

Lemma cycle_bd B t s o :
  0 <= t <= B -> (∀ v, o = Some v -> index_ok r v) -> cell_bd B (mk_cell (cycle t) s o).
Proof.
  intros Ht Ho. pose proof (cycle_bounds r Hr t). split; simpl; [lia|done].
Qed.

Lemma store_cell_bd B a t x : ring_bd B a -> cell_bd B x -> ring_bd B (store_cell r a t x).
Proof.
  intros (Hl & Hh & Ht & Hc) Hx. split; [simpl; by rewrite zlength_zinsert|].
  split; [done|]. split; [done|]. intros i y. simpl. rewrite zlookup_zinsert by (rewrite Hl; by apply pos_range).
  case_decide; [intros; by simplify_eq|apply Hc].
Qed.

Lemma enq_inspect_bd B index known t x :
  index_ok r index -> 0 <= t <= B -> cell_bd B x -> pc_bd B (a_enq_inspect r index known t x).
Proof.
  intros. unfold a_enq_inspect. destruct (_ <? _); [|done]. destruct (val x); [done|].
  by destruct (safe x).
Qed.

Lemma missed_bd B known t : 0 <= t <= B -> pc_bd B (deq_missed known t).
Proof. by destruct known. Qed.

Lemma deq_inspect_bd B known t n x :
  0 <= t <= B -> cell_bd B x -> pc_bd B (a_deq_inspect r known t n x).
Proof.
  intros Ht Hx. unfold a_deq_inspect. destruct (_ =? _); [done|].
  destruct (val x) as [v|] eqn:Hv.
  - destruct (safe x); [|by apply missed_bd]. destruct (negb _); [by apply missed_bd|].
    split_and!; try done; try lia. destruct Hx as [Hx1 Hx2]. split; simpl; [done|].
    by rewrite <- Hv.
  - destruct (_ <=? _); [done|]. destruct (negb _); [by apply missed_bd|].
    split_and!; try done; try lia. by apply cycle_bd.
Qed.

Lemma step_bd B b p a :
  ring_bd B a -> pc_bd B p ->
  pc_bd (B + 1) (astep r b p a).1 /\ ring_bd (B + 1) (astep r b p a).2.
Proof.
  intros Ha Hp. assert (ring_bd (B + 1) a) as Ha' by (eapply ring_bd_mono; [|done]; lia).
  assert (pc_bd (B + 1) p) as Hp' by (eapply pc_bd_mono; [|done]; lia).
  pose proof (cell_at_bd (B + 1) a) as Hat. pose proof Ha as (_ & Hh & Ht & _).
  destruct p; cbn [astep fst snd]; try done.
  - split; [split; [done|lia]|]. destruct Ha' as (? & ? & ? & ?). split_and!; simpl; try done; lia.
  - destruct Hp'. split; [|done]. apply enq_inspect_bd; auto.
  - destruct Hp' as (? & ? & ?). by destruct (_ <=? _).
  - destruct Hp' as (? & ? & ?). destruct (negb b && _); cbn [fst snd].
    + split; [by destruct known|]. apply store_cell_bd; [done|]. apply cycle_bd; [done|]. by intros v [= <-].
    + split; [|done]. apply enq_inspect_bd; auto.
  - by destruct (_ =? _).
  - by destruct (_ <? _).
  - split; [simpl; lia|]. destruct Ha' as (? & ? & ? & ?). split_and!; simpl; try done; lia.
  - split; [|done]. apply deq_inspect_bd; auto.
  - split; [done|]. apply store_cell_bd; [done|]. by split; [apply Hat|].
  - destruct Hp' as (? & ? & ?). destruct (negb b && _); cbn [fst snd].
    + split; [by apply missed_bd|]. by apply store_cell_bd.
    + split; [|done]. apply deq_inspect_bd; auto.
  - simpl in Hp. destruct (_ <=? _); [|done]. split; [simpl; lia|done].
  - destruct Hp'. destruct (negb b && _); cbn [fst snd]; [|done]. split; [done|].
    destruct Ha' as (? & ? & ? & ?). split_and!; simpl; done || lia.
  - split; [simpl; lia|done].
  - simpl in Hp. destruct (_ <? _); [|done]. split; [simpl; lia|done].
  - by destruct (_ <=? _).
Qed.

Lemma exec_bd B act c : 0 <= B -> config_bd B c -> config_bd (B + 1) (a_exec act c).
Proof.
  intros HB [Ha Hts].
  assert (config_bd (B + 1) c) as Hmono.
  { split; [eapply ring_bd_mono; [|done]; lia|].
    intros j p Hp. eapply pc_bd_mono; [|by eapply Hts]. lia. }
  pose proof (size_half r Hr). pose proof (half_pos r Hr).
  destruct act as [j b|j index known|j known]; cbn [a_exec exec];
    destruct (threads c !! j) as [p|] eqn:Hp; try done.
  - destruct (step_bd B b p (the_ring c) Ha (Hts j p Hp)) as [Hp' Ha'].
    destruct (astep r b p (the_ring c)) as [p' a']. split; [done|].
    simpl. intros k q [(_ & <- & _)|[_ Hq]]%list_lookup_insert_Some; [done|]. by eapply Hmono.
  - destruct (finished p && bool_decide (0 <= index < half)) eqn:Hf; [|done].
    apply andb_true_iff in Hf as [_ Hf%bool_decide_eq_true]. split; [apply Hmono|].
    simpl. intros k q [(_ & <- & _)|[_ Hq]]%list_lookup_insert_Some; [|by eapply Hmono].
    unfold index_ok. simpl. unfold index_ok. lia.
  - destruct (finished p); [|done]. split; [apply Hmono|].
    simpl. intros k q [(_ & <- & _)|[_ Hq]]%list_lookup_insert_Some; [|by eapply Hmono].
    by destruct known.
Qed.

Lemma exec_all_bd acts : ∀ B c, 0 <= B -> config_bd B c ->
  config_bd (B + zlength acts) (exec_all half (astep r) a_log_enqueue a_log_dequeue acts c).
Proof.
  induction acts as [|act acts IH]; intros B c HB Hc; [zlen_nil; by rewrite Z.add_0_r|].
  rewrite zlength_cons. replace (B + (zlength acts + 1)) with ((B + 1) + zlength acts) by lia.
  apply IH; [lia|]. by apply exec_bd.
Qed.

(** ** The word machine runs the encoding *)

Definition enc_config c : config ring Z :=
  mk_config (enc r (the_ring c)) (enc_pc r <$> threads c) (enqueued c) (dequeued c).

Lemma enc_finished p : finished (enc_pc r p) = finished p.
Proof. by destruct p. Qed.

Lemma enc_log_enqueue B b p a log :
  bound_ok B -> ring_bd B a -> pc_bd B p ->
  log_enqueue b (enc_pc r p) (enc r a) log = a_log_enqueue b p a log.
Proof.
  intros HB Ha Hp. pose proof (pc_bd_in B p HB Hp) as Hpi. pose proof (ring_bd_in B a HB Ha) as Hai.
  destruct p; try done. simpl in *. destruct Hp as (_ & Ht & _), Hpi as (_ & _ & Hx).
  rewrite (enc_entry_at r Hr (- size)) by done.
  rewrite (enc_cell_eqb r Hr (- size)) by (done || by apply cell_at_in).
  unfold bound_ok in HB. by rewrite u64_small by lia.
Qed.

Lemma enc_log_dequeue B b p a log :
  bound_ok B -> pc_bd B p -> log_dequeue b (enc_pc r p) (enc r a) log = a_log_dequeue b p a log.
Proof.
  intros HB Hp. pose proof (pc_bd_in B p HB Hp) as Hpi. destruct p; try done. simpl in *.
  destruct Hp as (Ht & _), Hpi as (_ & Hx). rewrite (enc_consume_value r Hr (- size)) by done.
  unfold bound_ok in HB. by rewrite u64_small by lia.
Qed.

Lemma exec_enc B act c :
  bound_ok B -> config_bd B c ->
  exec half step log_enqueue log_dequeue act (enc_config c) = enc_config (a_exec act c).
Proof.
  intros HB [Ha Hts]. destruct act as [j b|j index known|j known]; cbn [a_exec exec];
    unfold enc_config; cbn [threads the_ring enqueued dequeued];
    rewrite list_lookup_fmap; destruct (threads c !! j) as [p|] eqn:Hp; try done;
    cbn [fmap option_fmap option_map]; rewrite ?enc_finished.
  - specialize (Hts j p Hp).
    rewrite (step_enc r Hr (- size)) by (by eapply ring_bd_in || by eapply pc_bd_in).
    rewrite (enc_log_enqueue B), (enc_log_dequeue B) by done.
    destruct (astep r b p (the_ring c)) as [p' a']. simpl. by rewrite list_fmap_insert.
  - destruct (finished p && _); [|done]. simpl. by rewrite list_fmap_insert.
  - destruct (finished p); [|done]. simpl. rewrite list_fmap_insert. by destruct known.
Qed.

Lemma exec_all_enc acts : ∀ B c,
  0 <= B -> bound_ok (B + zlength acts) -> config_bd B c ->
  w_exec_all half acts (enc_config c) =
    enc_config (exec_all half (astep r) a_log_enqueue a_log_dequeue acts c).
Proof.
  induction acts as [|act acts IH]; intros B c HB0 HB Hc; [done|].
  rewrite zlength_cons in HB. pose proof (zlength_nonneg acts). unfold bound_ok in *.
  cbn [w_exec_all exec_all foldl]. rewrite (exec_enc B) by (done || unfold bound_ok; lia).
  apply (IH (B + 1)); [lia|lia|]. by apply exec_bd.
Qed.

Lemma start_bd full n : config_bd half (a_start full n).
Proof.
  pose proof (size_half r Hr). pose proof (half_pos r Hr).
  split; [|by intros j p [-> _]%lookup_replicate].
  split; [apply (ring_start_inv full n)|]. split; [destruct full; simpl; lia|].
  split; [destruct full; simpl; lia|]. intros i x Hx. simpl in Hx.
  pose proof (zlookup_range _ _ _ Hx) as Hi.
  pose proof (inv_length _ (ring_start_inv full n)) as Hl. simpl in Hl.
  pose proof (make_cell full i) as Hc. unfold cell_at, RingAbs.pos in Hc.
  rewrite Z.mod_small, Hx in Hc by lia. simpl in Hc. subst x.
  destruct full; simpl; [|split; simpl; [lia|done]].
  destruct (Z.ltb_spec i half); split; simpl; try lia; try done.
  intros v [= <-]. unfold index_ok. lia.
Qed.

Lemma start_enc full n : w_start half full n = enc_config (a_start full n).
Proof. unfold w_start, enc_config, a_start. simpl. by rewrite make_enc, fmap_replicate. Qed.

(** Every schedule of fewer than [2^60] steps is one of the cell machine. *)
Lemma schedule_enc full n acts :
  zlength acts <= 2 ^ 60 ->
  ∃ c, w_exec_all half acts (w_start half full n) = enc_config c /\ inv c /\
    ∃ B, bound_ok B /\ config_bd B c.
Proof.
  intros Hacts. pose proof (size_bound r Hr). pose proof (size_half r Hr). pose proof (half_pos r Hr).
  eexists. split; [|split].
  - rewrite start_enc. apply (exec_all_enc acts half); [lia|unfold bound_ok; lia|apply start_bd].
  - apply inv_exec_all, ring_start_inv.
  - exists (half + zlength acts). split; [unfold bound_ok; lia|].
    apply exec_all_bd; [lia|apply start_bd].
Qed.

Lemma enc_deq_ticket p : deq_ticket (enc_pc r p) = u64 <$> deq_ticket p.
Proof. by destruct p. Qed.

Lemma owned_ticket_small B c j p t :
  bound_ok B -> config_bd B c -> threads c !! j = Some p -> deq_ticket p = Some t -> u64 t = t.
Proof.
  intros HB [_ Hts] Hp Ht. specialize (Hts j p Hp). unfold bound_ok in HB.
  apply u64_small. destruct p; simplify_eq/=; intuition lia.
Qed.

Lemma head_small B c : bound_ok B -> config_bd B c -> u64 (a_head (the_ring c)) = a_head (the_ring c).
Proof.
  intros HB [(_ & Hh & _) _]. unfold bound_ok in HB. apply u64_small. lia.
Qed.

(** An index whose ticket the head has passed is about to be taken. *)
Lemma claimed_has_owner c t i :
  inv c -> enqueued c !! t = Some i -> dequeued c !! t = None -> t < a_head (the_ring c) ->
  ∃ j p, threads c !! j = Some p /\ deq_ticket p = Some t.
Proof.
  intros Hi HE HD Hth. destruct (slots_full _ _ _ _ (inv_slots _ Hi) t i HE HD) as [Hc Hv].
  pose proof (owners_log _ _ _ _ (inv_enq _ Hi) t i HE) as Ht.
  assert (~ dead_in (the_ring c) (threads c) t) as Hnd.
  { intros Hd%(slots_dead _ _ _ _ (inv_slots _ Hi)).
    unfold passed in Hd. rewrite Hc, Hv in Hd. destruct Hd as [?|[[_ ?]|[? _]]]; [lia|done|lia]. }
  destruct (decide (Exists (λ p, deq_ticket p = Some t) (threads c))) as [Hex|Hnex].
  - apply Exists_exists in Hex as (p & [j Hp]%list_elem_of_lookup & Hpt). by exists j, p.
  - exfalso. apply Hnd. split; [lia|]. intros (j & p & Hp & Hpt). apply Hnex.
    apply Exists_exists. exists p. split; [|done]. by eapply list_elem_of_lookup_2.
Qed.

End cells.

(** ** What every schedule guarantees *)

Section guarantees.
Context (r : Z) (Hr : 1 <= r <= 59).

(** However the threads are scheduled, what was dequeued at a ticket
    was enqueued at that ticket. *)
Theorem dequeues_match_enqueues full n acts :
  zlength acts <= 2 ^ 60 ->
  let c := w_exec_all (half r) acts (w_start (half r) full n) in
  dequeued c ⊆ enqueued c.
Proof.
  intros Hacts. destruct (schedule_enc r Hr full n acts Hacts) as (c & -> & Hi & _).
  apply (inv_slots _ _ Hi).
Qed.

(** However the threads are scheduled, an index enqueued and not yet
    dequeued is still in its slot, and once the head has passed its ticket
    some operation is bound to return it: nothing is lost or skipped. *)
Theorem enqueued_index_stays full n acts :
  zlength acts <= 2 ^ 60 ->
  let c := w_exec_all (half r) acts (w_start (half r) full n) in
  ∀ t i, enqueued c !! t = Some i -> dequeued c !! t = None ->
    Z.land (entry_at (the_ring c) t) (ring_mask_ (the_ring c)) = i /\
    (t < head_ (the_ring c) ->
     ∃ j p, threads c !! j = Some p /\ deq_ticket p = Some t).
Proof.
  intros Hacts. destruct (schedule_enc r Hr full n acts Hacts) as (c & -> & Hi & B & HB & Hbd).
  cbv zeta. intros t i HE HD. cbn [enc_config enqueued dequeued the_ring threads] in *.
  destruct (slots_full _ _ _ _ _ (inv_slots _ _ Hi) t i HE HD) as [_ Hv].
  pose proof (owners_log _ _ _ _ (inv_enq _ _ Hi) t i HE) as Ht.
  pose proof Hbd as [(Hl & Hh & Htl & _) _].
  assert (u64 t = t) as Hu by (unfold bound_ok in HB; apply u64_small; lia).
  split.
  - rewrite <- Hu, (enc_entry_at r Hr (- size r)) by (eapply ring_bd_in; [done|exact HB|apply Hbd]).
    cbn [ring_mask_ enc]. rewrite (enc_consume_value r Hr (- size r)).
    + unfold index_bits. by rewrite Hv.
    + apply (cell_bd_in r Hr B); [done|]. by apply cell_at_bd, Hbd.
  - cbn [head_ enc]. rewrite (head_small r B c) by done. intros Hth.
    destruct (claimed_has_owner r c t i Hi HE HD Hth) as (j & p & Hp & Hpt).
    exists j, (enc_pc r p). rewrite list_lookup_fmap, Hp. split; [done|].
    rewrite enc_deq_ticket, Hpt. simpl. by rewrite Hu.
Qed.

(** C16: an operation about to take a value takes the index enqueued at its
    ticket, which no other operation has taken or is about to take. *)
Theorem dequeue_takes_once full n acts :
  zlength acts <= 2 ^ 60 ->
  let c := w_exec_all (half r) acts (w_start (half r) full n) in
  ∀ j t entry b, threads c !! j = Some (DeqConsume t entry) ->
    ∃ i, enqueued c !! t = Some i /\ dequeued c !! t = None /\
      threads (w_exec_all (half r) [Run j b] c) !! j = Some (DeqDone (Some i)) /\
      ∀ k p, threads c !! k = Some p -> deq_ticket p = Some t -> k = j.
Proof.
  intros Hacts. destruct (schedule_enc r Hr full n acts Hacts) as (c & -> & Hi & B & HB & Hbd).
  cbv zeta. intros j t entry b. cbn [enc_config enqueued dequeued the_ring threads].
  rewrite list_lookup_fmap. destruct (threads c !! j) as [p|] eqn:Hp; [|done].
  intros [= Hpe]. destruct p; try done. injection Hpe as <- <-. rename ticket into u, entry0 into x.
  pose proof (owned_ticket_small r Hr B c j _ u HB Hbd Hp eq_refl) as Hu. rewrite Hu.
  destruct (inv_pcs _ _ Hi _ _ Hp) as (Hc & i & Hv & HE).
  destruct (owners_fresh _ _ _ _ (inv_deq _ _ Hi) _ _ u Hp eq_refl) as [Ht HD].
  exists i. split_and!; try done.
  - cbn. rewrite list_lookup_fmap, Hp. cbn.
    rewrite list_lookup_insert_eq by (rewrite length_fmap; by eapply lookup_lt_Some).
    rewrite (enc_consume_value r Hr (- size r)).
    + unfold index_bits. by rewrite Hv.
    + apply (cell_bd_in r Hr B); [done|]. destruct Hbd as [_ Hts]. by apply (Hts j _ Hp).
  - intros k q Hq Hqt. rewrite list_lookup_fmap in Hq.
    destruct (threads c !! k) as [q'|] eqn:Hk; [|done]. simplify_eq/=.
    rewrite enc_deq_ticket in Hqt. destruct (deq_ticket q') as [v|] eqn:Hv'; [|done].
    simplify_eq/=. rewrite (owned_ticket_small r Hr B c k _ v HB Hbd Hk Hv') in *.
    by eapply (owners_unique _ _ _ _ (inv_deq _ _ Hi)).
Qed.

End guarantees.

(** ** An exchange on a ring of two indices: thread 0 enqueues, thread 1
    is about to take the value *)

Definition exchange_schedule : list action :=
  [StartEnqueue 0 1 false] ++ replicate 6 (Run 0 false) ++ [StartDequeue 1 false] ++
  replicate 3 (Run 1 false).

Definition exchanging : config ring Z :=
  w_exec_all (half 2) exchange_schedule (w_start (half 2) false 2).

Lemma two_in_range : 1 <= 2 <= 59.
Proof. lia. Qed.

Lemma dequeues_match_enqueues_witness :
  let acts := exchange_schedule ++ [Run 1 false] in
  let c := w_exec_all (half 2) acts (w_start (half 2) false 2) in
  dequeued c !! 0 = Some 1 /\ dequeued c ⊆ enqueued c.
Proof.
  split; [vm_compute; reflexivity|].
  apply (dequeues_match_enqueues 2 two_in_range false 2 (exchange_schedule ++ [Run 1 false])).
  vm_compute. discriminate.
Defined.

Lemma enqueued_index_stays_witness :
  Z.land (entry_at (the_ring exchanging) 0) (ring_mask_ (the_ring exchanging)) = 1 /\
  ∃ j p, threads exchanging !! j = Some p /\ deq_ticket p = Some 0.
Proof.
  destruct (enqueued_index_stays 2 two_in_range false 2 exchange_schedule
    ltac:(vm_compute; discriminate) 0 1
    ltac:(vm_compute; reflexivity) ltac:(vm_compute; reflexivity)) as [Hv Ho].
  split; [exact Hv|apply Ho; vm_compute; reflexivity].
Defined.

Lemma dequeue_takes_once_witness :
  ∃ i, enqueued exchanging !! 0 = Some i /\ dequeued exchanging !! 0 = None /\
    threads (w_exec_all (half 2) [Run 1 false] exchanging) !! 1%nat = Some (DeqDone (Some i)) /\
    ∀ k p, threads exchanging !! k = Some p -> deq_ticket p = Some 0 -> k = 1%nat.
Proof.
  exact (dequeue_takes_once 2 two_in_range false 2 exchange_schedule
    ltac:(vm_compute; discriminate) 1%nat 0 5 false ltac:(vm_compute; reflexivity)).
Defined.

End RingConc.
