(* ===== verification/RingFifo.v ===== *)
(** * The ring as a queue of its callers

    Two promises of the ring to threads that overlap. First in, first out: an
    index stored before another enqueue drew its ticket is claimed no later.
    And a dequeue that reports an empty ring saw it empty at some moment of
    the call, as long as at most [capacity] indices are in the ring or on
    their way to it and at most [capacity] dequeues are under way. A last
    schedule shows that the second bound is needed: [threshold_] falls below
    zero while an index waits, and every dequeue gives up. *)

From S2P Require Import Prelude IndexRing RingWords RingAbs RingConc.
Import IndexRing RingAbs RingConc.
Local Open Scope Z_scope.

Module RingFifo.

(** ** What callers keep to *)

(** Operations that hold an index they have not stored, and dequeues under
    way. *)
Definition enqueuing {W} (p : pc W) : bool :=
  match p with EnqTicket _ _ | EnqLoad _ _ _ | EnqHead _ _ _ _ | EnqCas _ _ _ _ => true | _ => false end.
Definition dequeuing {W} (p : pc W) : bool :=
  match p with
  | DeqThreshold | DeqTicket _ | DeqLoad _ _ _ | DeqConsume _ _ | DeqCas _ _ _ _ _ | DeqTail _
  | DeqCatchCas _ _ | DeqCatchHead | DeqCatchTail _ | DeqEmpty | DeqRetry => true
  | _ => false
  end.

Definition number {W} (f : pc W -> bool) (ts : list (pc W)) : Z := sum_of (λ p, Z.b2z (f p)) ts.
Definition held {R W} (c : config R W) : Z :=
  number enqueuing (threads c) + Z.of_nat (base.size (enqueued c ∖ dequeued c)).
Definition working {R W} (c : config R W) : Z := number dequeuing (threads c).

(** Calls pass [false], as all calls of the queue do. *)
Definition allowed {R W} (capacity : Z) (act : action) (c : config R W) : bool :=
  match act with
  | Run _ _ => true
  | StartEnqueue _ _ known => negb known && (held c <? capacity)
  | StartDequeue _ known => negb known && (working c <? capacity)
  end.

(** The tickets of enqueues that stored their index but have not returned. *)
Definition track {W} (p p' : pc W) (o : option Z) : option Z :=
  match p, p' with
  | EnqCas _ _ t _, EnqThreshold => Some t
  | EnqThreshold, EnqRearm => o
  | _, _ => None
  end.

Section runs.
Context {R W : Type} (capacity : Z) (ex : action -> config R W -> config R W).

Definition returning_step (act : action) (c : config R W) (g : gmap nat Z) : gmap nat Z :=
  match act with
  | Run j _ =>
      match threads c !! j, threads (ex act c) !! j with
      | Some p, Some p' => partial_alter (track p p') j g
      | _, _ => g
      end
  | _ => g
  end.

Fixpoint keeps_bounds (acts : list action) (c : config R W) : bool :=
  match acts with
  | [] => true
  | act :: acts => allowed capacity act c && keeps_bounds acts (ex act c)
  end.

Fixpoint returning (acts : list action) (c : config R W) (g : gmap nat Z) : gmap nat Z :=
  match acts with
  | [] => g
  | act :: acts => returning acts (ex act c) (returning_step act c g)
  end.

(** Whatever was enqueued by calls that have returned has been claimed. *)
Definition exhausted (head : Z) (c : config R W) (g : gmap nat Z) : Prop :=
  ∀ t i, enqueued c !! t = Some i -> dequeued c !! t = None -> (∀ j, g !! j <> Some t) -> t < head.

End runs.

(** Nobody has drawn the ticket; the index stored at it was dequeued, or a
    dequeue owns the ticket. *)
Definition undrawn {R W} (c : config R W) (u : Z) : Prop :=
  enqueued c !! u = None /\ ∀ j p, threads c !! j = Some p -> enq_ticket p <> Some u.
Definition claimed {R W} (c : config R W) (t i : Z) : Prop :=
  dequeued c !! t = Some i \/ ∃ j p, threads c !! j = Some p /\ deq_ticket p = Some t.

(** ** Counting tickets *)

Section window.
Context (r : Z) (Hr : 1 <= r <= 59).
Abbreviation size := (size r).
Abbreviation half := (half r).
Abbreviation pos := (pos r).
Abbreviation cycle := (cycle r).
Implicit Types (logged owner live : Z -> Prop) (A L : gset Z).

Definition covers A (P : Z -> Prop) : Prop := ∀ t, P t -> t ∈ A.

(** For a window of [size] tickets from [x], between the head and the tail:
    those that were given up in it, and the live ones before it whose slots
    the tail has still to pass there, are no more than the capacity. *)
Definition window (head tail : Z) logged owner live : Prop :=
  ∀ x, head <= x <= tail -> ∃ A, Z.of_nat (base.size A) <= half /\
    (∀ u, x <= u < x + size -> u < tail -> ~ logged u -> ~ owner u -> u ∈ A) /\
    (∀ w u, w < x -> x <= u < x + size -> pos w = pos u -> live w -> tail <= u \/ owner u -> w ∈ A).

Lemma window_mono head head' tail logged logged' owner owner' live live' :
  window head tail logged owner live -> head <= head' ->
  (∀ u, logged u \/ owner u -> logged' u \/ owner' u) -> (∀ u, owner' u -> owner u) ->
  (∀ u, live' u -> live u) -> window head' tail logged' owner' live'.
Proof.
  intros Hw Hh Hl Ho Hv x Hx. destruct (Hw x ltac:(lia)) as (A & HA & H1 & H2). exists A. split; [done|]. split.
  - intros u Hu Ht Hn Hn'. apply H1; [done..| |]; intros ?; destruct (Hl u); tauto.
  - intros w u ? ? ? ? Hu. apply (H2 w u); try done; auto. destruct Hu; auto.
Qed.

(** A new window, at the tail. *)
Lemma window_new tail logged owner live L :
  Z.of_nat (base.size L) <= half -> covers L live ->
  ∃ A, Z.of_nat (base.size A) <= half /\
    (∀ u, tail <= u < tail + size -> u < tail -> ~ logged u -> ~ owner u -> u ∈ A) /\
    (∀ w u, w < tail -> tail <= u < tail + size -> pos w = pos u -> live w -> tail <= u \/ owner u -> w ∈ A).
Proof. intros HL Hc. exists L. split; [done|]. split; [lia|]. intros w u _ _ _ Hw _. by apply Hc. Qed.

Lemma window_take head tail logged owner owner' live live' L :
  window head tail logged owner live ->
  (∀ u, owner' u <-> owner u \/ u = tail) -> (∀ u, live' u -> live u \/ u = tail) ->
  Z.of_nat (base.size L) <= half -> covers L live' -> window head (tail + 1) logged owner' live'.
Proof.
  intros Hw Ho Hv HL Hc x Hx. destruct (decide (x = tail + 1)) as [->|Hne]; [by eapply window_new|].
  destruct (Hw x ltac:(lia)) as (A & HA & H1 & H2). exists A. split; [done|]. split.
  - intros u Hu Ht Hn Hn'. rewrite Ho in Hn'. apply H1; [done| |done|tauto]. destruct (decide (u = tail)); [tauto|lia].
  - intros w u ? ? ? Hlw Hu. apply (H2 w u); try done.
    + destruct (Hv w Hlw); [done|lia].
    + rewrite Ho in Hu. destruct Hu as [?|[?| ->]]; auto; left; lia.
Qed.

Lemma window_jump head tail logged owner live L :
  tail <= head -> Z.of_nat (base.size L) <= half -> covers L live -> window head tail logged owner live.
Proof. intros Ht HL Hc x Hx. replace x with tail by lia. by eapply window_new. Qed.

Lemma pos_apart t u : pos t = pos u -> t < u -> t + size <= u.
Proof.
  intros Hp Hlt. pose proof (cycle_lt r Hr t u Hlt Hp) as Hc. pose proof (size_bound r Hr).
  unfold RingAbs.cycle, RingAbs.pos in *.
  pose proof (Z.div_mod t size ltac:(lia)). pose proof (Z.div_mod u size ltac:(lia)). nia.
Qed.

(** A ticket of the window is given up because of a live one in its slot. *)
Lemma window_fail head tail logged owner owner' live live' v :
  window head tail logged owner live -> owner v -> v < tail ->
  (∀ u, owner' u <-> owner u /\ u <> v) -> (∀ u, live' u -> live u) ->
  (head <= v -> ∃ w, w < v /\ pos w = pos v /\ live w) -> window head tail logged owner' live'.
Proof.
  intros Hw Hov Hvt Ho Hv Hwhy x Hx. destruct (Hw x Hx) as (A & HA & H1 & H2).
  destruct (decide (x <= v < x + size)) as [Hin|Hout].
  - destruct Hwhy as (w & Hwv & Hpos & Hlw); [lia|]. pose proof (pos_apart w v Hpos Hwv).
    assert (w ∈ A) as HwA by (apply (H2 w v); auto; lia).
    exists ({[v]} ∪ A ∖ {[w]}). split; [|split].
    + pose proof (size_union_le {[v]} (A ∖ {[w]})) as Hle. rewrite size_singleton in Hle.
      pose proof (size_remove w A HwA). lia.
    + intros u Hu Ht Hn Hn'. rewrite Ho in Hn'. destruct (decide (u = v)) as [->|Hne]; [by apply elem_of_union_l, elem_of_singleton|].
      apply elem_of_union_r, elem_of_difference. split; [apply H1; tauto|]. rewrite elem_of_singleton. lia.
    + intros w' u ? ? Hp' ? Hu. rewrite Ho in Hu. assert (u <> v) as Hne by (destruct Hu as [?|[_ ?]]; [lia|done]).
      apply elem_of_union_r, elem_of_difference. split.
      * apply (H2 w' u); auto. destruct Hu as [?|[? _]]; auto.
      * rewrite elem_of_singleton. intros ->. rewrite Hpos in Hp'.
        destruct (Z.lt_trichotomy u v) as [Hlt|[?|Hlt]]; [|done|];
          [pose proof (pos_apart u v (eq_sym Hp') Hlt)|pose proof (pos_apart v u Hp' Hlt)]; lia.
  - exists A. split; [done|]. split.
    + intros u Hu Ht Hn Hn'. rewrite Ho in Hn'. apply H1; try done. intros Hou. apply Hn'. split; [done|]. intros ->. lia.
    + intros w u ? ? ? ? Hu. apply (H2 w u); auto. rewrite Ho in Hu. tauto.
Qed.

(** No ticket is stored at a whole ring beyond the head. *)
Lemma window_near head tail logged owner live L v `{∀ u, Decision (logged u)} `{∀ u, Decision (owner u)} :
  window head tail logged owner live -> (∀ u, head <= u -> logged u -> live u) -> (∀ u, owner u -> live u) ->
  owner v -> v < tail -> Z.of_nat (base.size L) <= half -> covers L live -> v < head + size.
Proof.
  intros Hw Hlog Hown Hv Hvt HL Hc. destruct (Z.lt_ge_cases v (head + size)) as [|Hge]; [done|exfalso].
  pose proof (size_bound r Hr). pose proof (size_half r Hr).
  destruct (Hw head ltac:(lia)) as (A & HA & HA1 & _).
  assert (list_to_set (seqZ head size) ⊆ A ∪ L ∖ {[v]}) as Hsub.
  { intros u. rewrite elem_of_list_to_set, elem_of_seqZ. intros Hu.
    destruct (decide (logged u)); [|destruct (decide (owner u))].
    - apply elem_of_union_r, elem_of_difference. split; [apply Hc, Hlog; [lia|done]|]. rewrite elem_of_singleton. lia.
    - apply elem_of_union_r, elem_of_difference. split; [by apply Hc, Hown|]. rewrite elem_of_singleton. lia.
    - apply elem_of_union_l, HA1; [lia|lia|done|done]. }
  apply subseteq_size in Hsub. rewrite size_list_to_set, length_seqZ in Hsub by apply NoDup_seqZ.
  pose proof (size_union_le A (L ∖ {[v]})). assert (v ∈ L) as HvL by (by apply Hc, Hown).
  pose proof (size_remove v L HvL). lia.
Qed.

(** ** The invariant *)

Implicit Types (c : config aring cell) (g : gmap nat Z).

Definition logged c (t : Z) : Prop := is_Some (enqueued c !! t).
Definition owner c : Z -> Prop := owned enq_ticket (threads c).
Definition live c (t : Z) : Prop := (logged c t /\ dequeued c !! t = None) \/ owner c t.

(** Dequeues that have still to lower the threshold, and those past its
    test. *)
Definition owing (p : pc cell) : bool :=
  match p with
  | DeqLoad _ _ _ | DeqCas _ _ _ _ _ | DeqTail _ | DeqCatchCas _ _ | DeqCatchHead | DeqCatchTail _
  | DeqEmpty | DeqRetry => true
  | _ => false
  end.
Definition entered (p : pc cell) : bool :=
  match p with DeqTicket _ => true | _ => owing p end.

(** No call passes [true], and tickets to catch up with are the head's. *)
Definition pc_ok (head : Z) (p : pc cell) : Prop :=
  match p with
  | EnqTicket _ known | EnqLoad _ known _ | EnqHead _ known _ _ | EnqCas _ known _ _
  | DeqTicket known | DeqLoad known _ _ | DeqCas known _ _ _ _ => known = false
  | DeqTail t => t < head
  | DeqCatchCas _ h | DeqCatchTail h => h <= head
  | _ => True
  end.

Definition armed_at c g (t : Z) : Prop := logged c t /\ a_head (the_ring c) <= t /\ ∀ j, g !! j <> Some t.

Record bounded c g : Prop := {
  bounded_inv : inv r c;
  bounded_pcs : ∀ j p, threads c !! j = Some p -> pc_ok (a_head (the_ring c)) p;
  bounded_held : held c <= half;
  bounded_working : working c <= half;
  bounded_far : ∀ t, logged c t -> t < a_head (the_ring c) + size;
  bounded_window : window (a_head (the_ring c)) (a_tail (the_ring c)) (logged c) (owner c) (live c);
  bounded_armed : ∀ t, armed_at c g t ->
    t - a_head (the_ring c) + number owing (threads c) <= a_threshold (the_ring c);
  bounded_threshold : number entered (threads c) - half - 1 <= a_threshold (the_ring c) <= 3 * half - 1;
  bounded_track : ∀ j t, g !! j = Some t ->
    threads c !! j = Some EnqThreshold \/ threads c !! j = Some EnqRearm;
}.

#[local] Instance logged_dec c u : Decision (logged c u).
Proof. unfold logged. apply _. Defined.

#[local] Instance owner_dec c u : Decision (owner c u).
Proof.
  destruct (decide (Exists (λ p, enq_ticket p = Some u) (threads c))) as [He|He]; [left|right].
  - apply Exists_exists in He as (p & [j Hp]%list_elem_of_lookup & Hu). by exists j, p.
  - intros (j & p & Hp & Hu). apply He, Exists_exists. exists p. split; [|done]. by eapply list_elem_of_lookup_2.
Defined.

Lemma number_insert {W} (f : pc W -> bool) (ts : list (pc W)) j p p' : ts !! j = Some p ->
  number f (<[j := p']> ts) = number f ts - Z.b2z (f p) + Z.b2z (f p').
Proof. intros Hj. unfold number. by rewrite (sum_of_insert _ _ _ _ _ Hj). Qed.

Lemma number_nonneg {W} (f : pc W -> bool) (ts : list (pc W)) : 0 <= number f ts.
Proof. apply sum_of_nonneg. intros p. by destruct (f p). Qed.

Lemma number_le {W} (f h : pc W -> bool) (ts : list (pc W)) :
  (∀ p, Z.b2z (f p) <= Z.b2z (h p)) -> number f ts <= number h ts.
Proof. intros Hf. apply sum_of_le. intros p _. apply Hf. Qed.

Lemma owing_working ts : number owing ts <= number dequeuing ts.
Proof. apply number_le. by intros []. Qed.
Lemma entered_working ts : number entered ts <= number dequeuing ts.
Proof. apply number_le. by intros []. Qed.
Lemma owing_entered ts : number owing ts <= number entered ts.
Proof. apply number_le. by intros []. Qed.

Lemma tickets_enqueuing (ts : list (pc cell)) : Z.of_nat (length (omap enq_ticket ts)) <= number enqueuing ts.
Proof.
  induction ts as [|p ts IH]; [done|]. unfold number in *. rewrite sum_of_cons. cbn [omap list_omap].
  destruct p; cbn in *; lia.
Qed.

(** The live tickets are no more than the indices held. *)
Lemma live_covered c : ∃ L : gset Z, covers L (live c) /\ Z.of_nat (base.size L) <= held c.
Proof.
  exists (dom (enqueued c ∖ dequeued c) ∪ list_to_set (omap enq_ticket (threads c))). split.
  - intros t [[[i Hi] Hd]|(j & p & Hp & Ht)].
    + apply elem_of_union_l, elem_of_dom. exists i. by apply lookup_difference_Some.
    + apply elem_of_union_r, elem_of_list_to_set, list_elem_of_omap. exists p. split; [|done].
      by eapply list_elem_of_lookup_2.
  - pose proof (size_union_le (dom (enqueued c ∖ dequeued c)) (list_to_set (omap enq_ticket (threads c)))) as Hle.
    rewrite size_dom in Hle. pose proof (size_list_le (omap enq_ticket (threads c))).
    pose proof (tickets_enqueuing (threads c)). unfold held. lia.
Qed.

(** Entries at or past the head are not dequeued. *)
Lemma logged_live c t : inv r c -> a_head (the_ring c) <= t -> logged c t -> live c t.
Proof.
  intros Hi Ht Hl. left. split; [done|]. apply eq_None_not_Some. intros [x Hx].
  pose proof (owners_log _ _ _ _ (inv_deq _ _ Hi) t x Hx). lia.
Qed.

(** ** How a step changes it *)

Lemma owned_insert (ts : list (pc cell)) j p p' u : ts !! j = Some p ->
  owned enq_ticket (<[j := p']> ts) u <->
  enq_ticket p' = Some u \/ ∃ k q, k <> j /\ ts !! k = Some q /\ enq_ticket q = Some u.
Proof.
  intros Hj. split.
  - intros (k & q & [(<- & <- & _)|[Hne Hq]]%list_lookup_insert_Some & Hu); [by left|right]. exists k, q. auto.
  - intros [Hu|(k & q & Hne & Hq & Hu)].
    + exists j, p'. by rewrite list_lookup_insert_eq by (by eapply lookup_lt_Some).
    + exists k, q. by rewrite list_lookup_insert_ne.
Qed.

Lemma owned_split (ts : list (pc cell)) j p u : ts !! j = Some p ->
  owned enq_ticket ts u <-> enq_ticket p = Some u \/ ∃ k q, k <> j /\ ts !! k = Some q /\ enq_ticket q = Some u.
Proof. intros Hj. rewrite <- (owned_insert ts j p p u Hj). by rewrite list_insert_id. Qed.

Lemma owned_keep (ts : list (pc cell)) j p p' u : ts !! j = Some p -> enq_ticket p' = enq_ticket p ->
  owned enq_ticket (<[j := p']> ts) u <-> owned enq_ticket ts u.
Proof. intros Hj He. by rewrite (owned_insert _ _ _ _ _ Hj), (owned_split _ _ _ _ Hj), He. Qed.

Lemma owned_take (ts : list (pc cell)) j p p' t u : ts !! j = Some p -> enq_ticket p = None ->
  enq_ticket p' = Some t -> owned enq_ticket (<[j := p']> ts) u <-> owned enq_ticket ts u \/ u = t.
Proof.
  intros Hj He He'. rewrite (owned_insert _ _ _ _ _ Hj), (owned_split _ _ _ _ Hj), He, He'.
  split; [intros [[= ->]|?]|intros [[?|?]| ->]]; auto. done.
Qed.

Lemma owned_leave limit log (ts : list (pc cell)) j p p' t u : owners enq_ticket limit log ts ->
  ts !! j = Some p -> enq_ticket p = Some t -> enq_ticket p' = None ->
  owned enq_ticket (<[j := p']> ts) u <-> owned enq_ticket ts u /\ u <> t.
Proof.
  intros Ho Hj He He'. rewrite (owned_insert _ _ _ _ _ Hj), (owned_split _ _ _ _ Hj), He, He'. split.
  - intros [?|(k & q & Hne & Hq & Hu)]; [done|]. split; [right; by exists k, q|]. intros ->.
    apply Hne. by apply (owners_unique _ _ _ _ Ho k j q p t).
  - intros [[[= ->]|?] Hne]; [done|by right].
Qed.

(** What a step of thread [j] to [p'] has to show. *)
Lemma bounded_intro c g j p p' a' E' D' g' :
  bounded c g -> threads c !! j = Some p ->
  let c' := mk_config a' (<[j := p']> (threads c)) E' D' in
  inv r c' -> a_head (the_ring c) <= a_head a' -> pc_ok (a_head a') p' -> held c' <= half ->
  working c' <= half ->
  (∀ t, logged c' t -> t < a_head a' + size) ->
  window (a_head a') (a_tail a') (logged c') (owner c') (live c') ->
  (∀ t, armed_at c' g' t -> t - a_head a' + number owing (threads c') <= a_threshold a') ->
  number entered (threads c') - half - 1 <= a_threshold a' <= 3 * half - 1 ->
  (∀ i t, g' !! i = Some t -> <[j := p']> (threads c) !! i = Some EnqThreshold \/
    <[j := p']> (threads c) !! i = Some EnqRearm) ->
  bounded c' g'.
Proof.
  intros Hb Hj c' Hi Hh Hp Hheld Hw Hfar Hwin Harm Hlow Htr. split; try done; unfold c'; cbn [the_ring threads].
  - intros k q [(_ & <- & _)|[_ Hq]]%list_lookup_insert_Some; [done|].
    pose proof (bounded_pcs _ _ Hb k q Hq). destruct q; cbn in *; done || lia.
Qed.

Lemma bounded_goto c g j p p' a' E' D' g' :
  bounded c g -> threads c !! j = Some p ->
  let c' := mk_config a' (<[j := p']> (threads c)) E' D' in
  inv r c' -> a_head (the_ring c) <= a_head a' -> pc_ok (a_head a') p' -> held c' <= half ->
  Z.b2z (dequeuing p') <= Z.b2z (dequeuing p) ->
  (∀ t, logged c' t -> t < a_head a' + size) ->
  window (a_head a') (a_tail a') (logged c') (owner c') (live c') ->
  (∀ t, armed_at c' g' t -> t - a_head a' + number owing (threads c') <= a_threshold a') ->
  number entered (threads c') - half - 1 <= a_threshold a' <= 3 * half - 1 ->
  (∀ i t, g' !! i = Some t -> <[j := p']> (threads c) !! i = Some EnqThreshold \/
    <[j := p']> (threads c) !! i = Some EnqRearm) ->
  bounded c' g'.
Proof.
  intros Hb Hj c' Hi Hh Hp Hheld Hw. apply (bounded_intro c g j p); try done.
  unfold working. cbn [threads]. rewrite (number_insert _ _ _ _ _ Hj).
  pose proof (bounded_working _ _ Hb) as Hwk. unfold working in Hwk. lia.
Qed.

Lemma track_idle g j (p p' : pc cell) : g !! j = None -> track p p' None = None ->
  partial_alter (track p p') j g = g.
Proof.
  intros Hg Ht. apply map_eq. intros k. destruct (decide (k = j)) as [->|Hne].
  - by rewrite lookup_partial_alter_eq, Hg, Ht.
  - by rewrite lookup_partial_alter_ne.
Qed.

Lemma track_other c g j p p' : bounded c g -> threads c !! j = Some p -> p <> EnqThreshold -> p <> EnqRearm ->
  g !! j = None /\ ∀ i t, g !! i = Some t ->
    <[j := p']> (threads c) !! i = Some EnqThreshold \/ <[j := p']> (threads c) !! i = Some EnqRearm.
Proof.
  intros Hb Hj H1 H2. assert (g !! j = None) as Hg.
  { apply eq_None_not_Some. intros [t Ht]. destruct (bounded_track _ _ Hb j t Ht); congruence. }
  split; [done|]. intros i t Hi. assert (i <> j) as Hne by congruence.
  rewrite list_lookup_insert_ne by done. by eapply bounded_track.
Qed.

(** Steps that keep the positions and the logs of enqueues. *)
Lemma bounded_quiet c g j p p' a' D' :
  bounded c g -> threads c !! j = Some p -> p <> EnqThreshold -> p <> EnqRearm ->
  let c' := mk_config a' (<[j := p']> (threads c)) (enqueued c) D' in
  inv r c' -> a_head a' = a_head (the_ring c) -> a_tail a' = a_tail (the_ring c) ->
  dequeued c ⊆ D' -> pc_ok (a_head a') p' -> enq_ticket p' = enq_ticket p -> enqueuing p' = enqueuing p ->
  Z.b2z (dequeuing p') <= Z.b2z (dequeuing p) ->
  Z.b2z (owing p') - Z.b2z (owing p) <= a_threshold a' - a_threshold (the_ring c) ->
  number entered (threads c') - half - 1 <= a_threshold a' <= 3 * half - 1 ->
  bounded c' g.
Proof.
  intros Hb Hj H1 H2 c' Hi Hh Ht HD Hp He Hen Hw Hle Hlow.
  destruct (track_other c g j p p' Hb Hj H1 H2) as [Hg Htr].
  apply (bounded_goto c g j p p' a' (enqueued c) D' g); try done; cbn [the_ring threads].
  - lia.
  - unfold held. cbn [threads enqueued dequeued]. rewrite (number_insert _ _ _ _ _ Hj), Hen.
    pose proof (bounded_held _ _ Hb) as Hheld. unfold held in Hheld.
    assert (base.size (enqueued c ∖ D') <= base.size (enqueued c ∖ dequeued c))%nat; [|lia].
    apply map_subseteq_size, map_subseteq_spec. intros t x [Hx Hn]%lookup_difference_Some.
    apply lookup_difference_Some. split; [done|]. by eapply lookup_weaken_None.
  - rewrite Hh. apply (bounded_far _ _ Hb).
  - rewrite Hh, Ht. eapply window_mono; [apply (bounded_window _ _ Hb)|lia|..]; cbn.
    + intros u. unfold owner. cbn. rewrite (owned_keep _ _ _ _ _ Hj He). auto.
    + intros u. unfold owner. cbn. by rewrite (owned_keep _ _ _ _ _ Hj He).
    + intros u [[Hl Hn]|Ho]; [left|right]; cbn in *.
      * split; [done|]. by eapply lookup_weaken_None.
      * unfold owner in *. cbn in Ho. by rewrite (owned_keep _ _ _ _ _ Hj He) in Ho.
  - intros t (Hl & Hht & Hna). cbn in *. rewrite (number_insert _ _ _ _ _ Hj), Hh.
    pose proof (bounded_armed _ _ Hb t) as Ha. rewrite Hh in Hht. unfold armed_at in Ha. specialize (Ha ltac:(done)). lia.
Qed.

Lemma bounded_live c g : bounded c g -> ∃ L : gset Z, covers L (live c) /\ Z.of_nat (base.size L) <= half.
Proof.
  intros Hb. destruct (live_covered c) as (L & Hc & HL). exists L. split; [done|].
  pose proof (bounded_held _ _ Hb). lia.
Qed.

(** An enqueue draws a ticket. *)
Lemma bounded_take c g j index :
  bounded c g -> threads c !! j = Some (EnqTicket index false) ->
  let c' := mk_config (set_tail (the_ring c) (a_tail (the_ring c) + 1))
    (<[j := EnqLoad index false (a_tail (the_ring c))]> (threads c)) (enqueued c) (dequeued c) in
  inv r c' -> bounded c' g.
Proof.
  intros Hb Hj c' Hi. destruct (track_other c g j _ (EnqLoad index false (a_tail (the_ring c))) Hb Hj) as [Hg Htr]; [done..|].
  assert (held c' <= half) as Hheld.
  { unfold held. cbn. rewrite (number_insert _ _ _ _ _ Hj). pose proof (bounded_held _ _ Hb) as Hh. unfold held in Hh. cbn. lia. }
  assert (∀ u, owner c' u <-> owner c u \/ u = a_tail (the_ring c)) as Ho
    by (intros u; by apply (owned_take _ _ _ _ _ _ Hj)).
  destruct (live_covered c') as (L & Hc & HL).
  eapply bounded_goto; try done; cbn [the_ring threads set_tail a_head a_tail a_threshold].
  - apply (bounded_far _ _ Hb).
  - apply (window_take _ _ (logged c) (owner c) (owner c') (live c) (live c') L); try done.
    + apply (bounded_window _ _ Hb).
    + intros u [Hl|Hu]; [left; by left|]. apply Ho in Hu as [Hu|Hu]; [left; by right|by right].
    + lia.
  - intros t Ha. rewrite (number_insert _ _ _ _ _ Hj). pose proof (bounded_armed _ _ Hb t Ha). cbn. lia.
  - rewrite (number_insert _ _ _ _ _ Hj). pose proof (bounded_threshold _ _ Hb). cbn. lia.
Qed.

(** An enqueue gives up its ticket. *)
Lemma bounded_fail c g j p u index :
  bounded c g -> threads c !! j = Some p -> enq_ticket p = Some u ->
  let c' := mk_config (the_ring c) (<[j := EnqTicket index false]> (threads c)) (enqueued c) (dequeued c) in
  inv r c' -> (a_head (the_ring c) <= u -> ∃ w, w < u /\ pos w = pos u /\ live c w) -> bounded c' g.
Proof.
  intros Hb Hj Hu c' Hi Hwhy.
  destruct (track_other c g j p (EnqTicket index false) Hb Hj) as [Hg Htr]; [by destruct p..|].
  pose proof (inv_enq _ _ (bounded_inv _ _ Hb)) as Hen.
  assert (∀ t, owner c' t <-> owner c t /\ t <> u) as Ho by (intros t; by eapply owned_leave).
  assert (enqueuing p = true /\ owing p = false /\ entered p = false) as (E1 & E2 & E3) by (by destruct p).
  apply (bounded_goto c g j p _ _ (enqueued c) (dequeued c) g); try done.
  - unfold held. cbn. rewrite (number_insert _ _ _ _ _ Hj), E1. pose proof (bounded_held _ _ Hb) as Hh. unfold held in Hh. cbn. lia.
  - cbn. by destruct (dequeuing p).
  - apply (bounded_far _ _ Hb).
  - apply (window_fail _ _ (logged c) (owner c) (owner c') (live c) (live c') u); try done.
    + apply (bounded_window _ _ Hb).
    + by exists j, p.
    + by apply (owners_fresh _ _ _ _ Hen j p u).
    + intros t [Hl|Ht]; [by left|right]. by apply Ho in Ht as [Ht _].
  - intros t Ha. cbn. rewrite (number_insert _ _ _ _ _ Hj), E2. pose proof (bounded_armed _ _ Hb t Ha). cbn. lia.
  - cbn. rewrite (number_insert _ _ _ _ _ Hj), E3. pose proof (bounded_threshold _ _ Hb). cbn. lia.
Qed.

(** An enqueue stores its index. *)
Lemma bounded_store c g j u x index a' :
  bounded c g -> threads c !! j = Some (EnqCas index false u x) ->
  let c' := mk_config a' (<[j := EnqThreshold]> (threads c)) (<[u := index]> (enqueued c)) (dequeued c) in
  inv r c' -> a_head a' = a_head (the_ring c) -> a_tail a' = a_tail (the_ring c) ->
  a_threshold a' = a_threshold (the_ring c) -> bounded c' (<[j := u]> g).
Proof.
  intros Hb Hj c' Hi Hh Ht Hth. destruct (track_other c g j _ EnqThreshold Hb Hj) as [Hg Htr]; [done..|].
  pose proof (inv_enq _ _ (bounded_inv _ _ Hb)) as Hen.
  destruct (owners_fresh _ _ _ _ Hen j _ u Hj eq_refl) as [Hut Hfresh].
  assert (owner c u) as Hou by (by exists j, (EnqCas index false u x)).
  assert (∀ t, owner c' t <-> owner c t /\ t <> u) as Ho by (intros t; by eapply owned_leave).
  assert (∀ t, logged c' t <-> t = u \/ logged c t) as Hl.
  { intros t. unfold logged. cbn. rewrite lookup_insert_is_Some'. split; intros [?|?]; auto. }
  destruct (bounded_live c g Hb) as (L & Hc & HL). cbn [c'].
  apply (bounded_goto c g j (EnqCas index false u x)); try done; cbn [the_ring threads].
  - lia.
  - unfold held. cbn. rewrite (number_insert _ _ _ _ _ Hj). cbn.
    pose proof (bounded_held _ _ Hb) as Hheld. unfold held in Hheld.
    assert (<[u := index]> (enqueued c) ∖ dequeued c ⊆ <[u := index]> (enqueued c ∖ dequeued c)) as Hsub.
    { apply map_subseteq_spec. intros t y [Hy Hn]%lookup_difference_Some.
      apply lookup_insert_Some in Hy as [[<- <-]|[Hne Hy]]; [apply lookup_insert_eq|].
      rewrite lookup_insert_ne by done. by apply lookup_difference_Some. }
    apply map_subseteq_size in Hsub. rewrite map_size_insert in Hsub. unfold id in Hsub. case_match; lia.
  - rewrite Hh. intros t [->|Hlt]%Hl; [|by apply (bounded_far _ _ Hb)].
    apply (window_near (a_head (the_ring c)) (a_tail (the_ring c)) (logged c) (owner c) (live c) L u); try done.
    + apply (bounded_window _ _ Hb).
    + intros t. apply logged_live. apply (bounded_inv _ _ Hb).
    + intros t. by right.
    + lia.
  - rewrite Hh, Ht. apply (window_mono (a_head (the_ring c)) _ _ (logged c) (logged c') (owner c) (owner c') (live c) (live c'));
      [apply (bounded_window _ _ Hb)|lia|..].
    + intros t [?|?]; [left; apply Hl; by right|]. destruct (decide (t = u)) as [->|]; [left; apply Hl; by left|].
      right. by apply Ho.
    + intros t. rewrite Ho. tauto.
    + intros t [[Hlt Hd]|Hot]; [|right; by apply Ho in Hot as [? _]]. apply Hl in Hlt as [->|?]; [by right|by left].
  - intros t (Hlt & Hht & Hna). cbn in *. rewrite (number_insert _ _ _ _ _ Hj), Hh, Hth. cbn.
    pose proof (bounded_armed _ _ Hb t) as Ha. unfold armed_at in Ha. rewrite Hh in Hht.
    assert (t <> u) as Hne by (intros ->; apply (Hna j), lookup_insert_eq).
    assert (logged c t) as Hlo by (by apply Hl in Hlt as [?|?]).
    assert (∀ k, g !! k <> Some t) as Hgn.
    { intros k Hk. apply (Hna k). rewrite lookup_insert_ne; [done|]. congruence. }
    specialize (Ha ltac:(done)). lia.
  - rewrite (number_insert _ _ _ _ _ Hj), Hth. pose proof (bounded_threshold _ _ Hb). cbn. lia.
  - intros i t [[<- <-]|[Hne Hi']]%lookup_insert_Some; [left|by eapply Htr].
    rewrite list_lookup_insert_eq; [done|]. by eapply lookup_lt_Some.
Qed.

(** An enqueue returns, having seen or set the threshold at its top. *)
Lemma bounded_arm c g j p a' :
  bounded c g -> threads c !! j = Some p -> p = EnqThreshold \/ p = EnqRearm ->
  let c' := mk_config a' (<[j := EnqDone]> (threads c)) (enqueued c) (dequeued c) in
  inv r c' -> a_head a' = a_head (the_ring c) -> a_tail a' = a_tail (the_ring c) ->
  a_threshold a' = 3 * half - 1 -> bounded c' (delete j g).
Proof.
  intros Hb Hj Hp c' Hi Hh Ht Hth. pose proof (size_half r Hr).
  assert (enqueuing p = false /\ owing p = false /\ entered p = false /\ enq_ticket p = None) as (E1 & E2 & E3 & E4)
    by (by destruct Hp as [-> | ->]).
  assert (∀ t, owner c' t <-> owner c t) as Ho by (intros t; by apply (owned_keep _ _ _ _ _ Hj)).
  pose proof (bounded_working _ _ Hb) as Hwk. unfold working in Hwk.
  pose proof (owing_working (threads c)). pose proof (entered_working (threads c)).
  apply (bounded_goto c g j p); try done; cbn [the_ring threads].
  - lia.
  - unfold held. cbn. rewrite (number_insert _ _ _ _ _ Hj), E1. pose proof (bounded_held _ _ Hb) as Hheld.
    unfold held in Hheld. cbn. lia.
  - cbn. by destruct (dequeuing p).
  - rewrite Hh. apply (bounded_far _ _ Hb).
  - rewrite Hh, Ht. apply (window_mono (a_head (the_ring c)) _ _ (logged c) (logged c') (owner c) (owner c') (live c) (live c'));
      [apply (bounded_window _ _ Hb)|lia|..].
    + intros t. by rewrite Ho.
    + intros t. by rewrite Ho.
    + intros t. unfold live. by rewrite Ho.
  - intros t (Hl & _ & _). pose proof (bounded_far _ _ Hb t Hl). rewrite (number_insert _ _ _ _ _ Hj), E2, Hh, Hth. cbn. lia.
  - rewrite (number_insert _ _ _ _ _ Hj), E3, Hth. pose proof (half_pos r Hr). cbn. lia.
  - intros i t [Hne Hi']%lookup_delete_Some. rewrite list_lookup_insert_ne by done. by eapply bounded_track.
Qed.

Lemma bounded_rearm c g j :
  bounded c g -> threads c !! j = Some EnqThreshold ->
  let c' := mk_config (the_ring c) (<[j := EnqRearm]> (threads c)) (enqueued c) (dequeued c) in
  inv r c' -> bounded c' g.
Proof.
  intros Hb Hj c' Hi.
  assert (∀ t, owner c' t <-> owner c t) as Ho by (intros t; by apply (owned_keep _ _ _ _ _ Hj)).
  apply (bounded_goto c g j EnqThreshold); try done; cbn [the_ring threads].
  - unfold held. cbn. rewrite (number_insert _ _ _ _ _ Hj). pose proof (bounded_held _ _ Hb) as Hheld.
    unfold held in Hheld. cbn. lia.
  - apply (bounded_far _ _ Hb).
  - apply (window_mono (a_head (the_ring c)) _ _ (logged c) (logged c') (owner c) (owner c') (live c) (live c'));
      [apply (bounded_window _ _ Hb)|done|..].
    + intros t. by rewrite Ho.
    + intros t. by rewrite Ho.
    + intros t. unfold live. by rewrite Ho.
  - intros t Ha. rewrite (number_insert _ _ _ _ _ Hj). pose proof (bounded_armed _ _ Hb t Ha). cbn. lia.
  - rewrite (number_insert _ _ _ _ _ Hj). pose proof (bounded_threshold _ _ Hb). cbn. lia.
  - intros i t Hi'. destruct (decide (i = j)) as [->|Hne].
    + right. rewrite list_lookup_insert_eq; [done|]. by eapply lookup_lt_Some.
    + rewrite list_lookup_insert_ne by done. by eapply bounded_track.
Qed.

(** The ticket of a cycle in the slot of [u]. *)
Lemma ticket_of k u : cycle (k * size + pos u) = k /\ pos (k * size + pos u) = pos u.
Proof.
  pose proof (size_bound r Hr). pose proof (pos_range r Hr u). unfold RingAbs.cycle.
  assert (k * size + pos u = pos u + k * size) as -> by lia. rewrite Z.div_add, Z.div_small by lia.
  split; [lia|]. unfold RingAbs.pos at 1 3. rewrite Z.mod_add by lia. unfold RingAbs.pos. by rewrite Z.mod_mod by lia.
Qed.

(** A slot that is not reusable for a ticket past the head holds an index
    that is not dequeued, of an earlier ticket. *)
Lemma not_reusable c g j p u index :
  bounded c g -> threads c !! j = Some p -> enq_ticket p = Some u -> a_head (the_ring c) <= u ->
  a_enq_inspect r index false u (cell_at r (the_ring c) u) = EnqTicket index false ->
  ∃ w, w < u /\ pos w = pos u /\ live c w.
Proof.
  intros Hb Hj Hu Hh Hins. pose proof (bounded_inv _ _ Hb) as Hi. pose proof (inv_slots _ _ Hi) as Hs.
  destruct (owners_fresh _ _ _ _ (inv_enq _ _ Hi) j p u Hj Hu) as [Hut Hfresh].
  set (x := cell_at r (the_ring c) u) in *. destruct (ticket_of (cyc x) u) as [Hc Hp].
  set (w := cyc x * size + pos u) in *.
  assert (cell_at r (the_ring c) w = x) as Hx by (by apply (slots_pos _ _ _ _ _ Hs)).
  assert (∀ i, val x = Some i -> enqueued c !! w = Some i /\ dequeued c !! w = None) as Hval.
  { intros i Hv. by apply (slots_value _ _ _ _ _ Hs); rewrite Hx. }
  unfold a_enq_inspect in Hins. destruct (Z.ltb_spec (cyc x) (cycle u)) as [Hlt|Hge].
  - destruct (val x) as [i|] eqn:Hv; [|by destruct (safe x)]. destruct (Hval i eq_refl) as [HE HD].
    exists w. split; [apply (cycle_le_inv r Hr); [done|lia]|]. split; [done|]. left. split; [by exists i|done].
  - exfalso. assert (u <= w) as Huw.
    { destruct (Z.le_gt_cases u w) as [|Hwu]; [done|]. pose proof (cycle_lt r Hr w u Hwu Hp). lia. }
    destruct (val x) as [i|] eqn:Hv.
    + destruct (Hval i eq_refl) as [HE HD]. assert (u <> w) as Hne by congruence.
      pose proof (pos_apart u w (eq_sym Hp) ltac:(lia)). pose proof (bounded_far _ _ Hb w ltac:(by exists i)). lia.
    + destruct (slots_empty _ _ _ _ _ Hs w) as [Hw _]; [lia|by rewrite Hx|by rewrite Hx|]. lia.
Qed.

(** A dequeue draws a ticket. *)
Lemma bounded_advance c g j :
  bounded c g -> threads c !! j = Some (DeqTicket false) ->
  let c' := mk_config (set_head (the_ring c) (a_head (the_ring c) + 1))
    (<[j := DeqLoad false (a_head (the_ring c)) 0]> (threads c)) (enqueued c) (dequeued c) in
  inv r c' -> bounded c' g.
Proof.
  intros Hb Hj c' Hi. destruct (track_other c g j _ (DeqLoad false (a_head (the_ring c)) 0) Hb Hj) as [Hg Htr]; [done..|].
  assert (∀ t, owner c' t <-> owner c t) as Ho by (intros t; by apply (owned_keep _ _ _ _ _ Hj)).
  apply (bounded_goto c g j (DeqTicket false)); try done; cbn [the_ring threads set_head a_head a_tail a_threshold].
  - lia.
  - unfold held. cbn. rewrite (number_insert _ _ _ _ _ Hj). pose proof (bounded_held _ _ Hb) as Hheld.
    unfold held in Hheld. cbn. lia.
  - intros t Hl. pose proof (bounded_far _ _ Hb t Hl). lia.
  - apply (window_mono (a_head (the_ring c)) _ _ (logged c) (logged c') (owner c) (owner c') (live c) (live c'));
      [apply (bounded_window _ _ Hb)|lia|..].
    + intros t. by rewrite Ho.
    + intros t. by rewrite Ho.
    + intros t. unfold live. by rewrite Ho.
  - intros t (Hl & Hht & Hna). cbn in Hht. rewrite (number_insert _ _ _ _ _ Hj). cbn.
    pose proof (bounded_armed _ _ Hb t) as Ha. assert (armed_at c g t) as Hat by (split_and!; [done|lia|done]).
    specialize (Ha Hat). lia.
  - rewrite (number_insert _ _ _ _ _ Hj). pose proof (bounded_threshold _ _ Hb). cbn. lia.
Qed.

(** The tail catches up with a head. *)
Lemma bounded_jump c g j tail h :
  bounded c g -> threads c !! j = Some (DeqCatchCas tail h) -> a_tail (the_ring c) <= h ->
  let c' := mk_config (set_tail (the_ring c) h) (<[j := DeqEmpty]> (threads c)) (enqueued c) (dequeued c) in
  inv r c' -> bounded c' g.
Proof.
  intros Hb Hj Hh c' Hi. destruct (track_other c g j _ DeqEmpty Hb Hj) as [Hg Htr]; [done..|].
  pose proof (bounded_pcs _ _ Hb _ _ Hj) as Hp. cbn in Hp.
  assert (held c' <= half) as Hheld.
  { unfold held. cbn. rewrite (number_insert _ _ _ _ _ Hj). pose proof (bounded_held _ _ Hb) as Hheld.
    unfold held in Hheld. cbn. lia. }
  destruct (live_covered c') as (L & Hc & HL).
  apply (bounded_goto c g j (DeqCatchCas tail h)); try done; cbn [the_ring threads set_tail a_head a_tail a_threshold].
  - apply (bounded_far _ _ Hb).
  - apply (window_jump _ _ _ _ _ L); [done|lia|done].
  - intros t Ha. rewrite (number_insert _ _ _ _ _ Hj). pose proof (bounded_armed _ _ Hb t Ha). cbn. lia.
  - rewrite (number_insert _ _ _ _ _ Hj). pose proof (bounded_threshold _ _ Hb). cbn. lia.
Qed.

(** ** Every allowed step keeps it *)

Lemma run_eq c j b p : threads c !! j = Some p ->
  a_exec r (Run j b) c =
    mk_config (astep r b p (the_ring c)).2 (<[j := (astep r b p (the_ring c)).1]> (threads c))
      (a_log_enqueue r b p (the_ring c) (enqueued c)) (a_log_dequeue r b p (the_ring c) (dequeued c)).
Proof. intros Hj. unfold a_exec, exec. rewrite Hj. by destruct (astep r b p (the_ring c)). Qed.

Lemma returning_run c g j b p : threads c !! j = Some p ->
  returning_step (a_exec r) (Run j b) c g = partial_alter (track p (astep r b p (the_ring c)).1) j g.
Proof.
  intros Hj. unfold returning_step. rewrite Hj, (run_eq c j b p Hj). cbn [threads].
  by rewrite list_lookup_insert_eq by (by eapply lookup_lt_Some).
Qed.

Lemma entered_room c g j p : bounded c g -> threads c !! j = Some p -> dequeuing p = true -> entered p = false ->
  number entered (threads c) + 1 <= half.
Proof.
  intros Hb Hj Hd He. pose proof (bounded_working _ _ Hb) as Hw. unfold working in Hw.
  pose proof (entered_working (<[j := EnqDone]> (threads c))) as Hle.
  rewrite !(number_insert _ _ _ _ _ Hj), Hd, He in Hle. cbn in Hle. lia.
Qed.

(** A step that stays where it is in these counts, with the threshold. *)
Lemma bounded_local c g j p p' a' D' :
  bounded c g -> threads c !! j = Some p -> p <> EnqThreshold -> p <> EnqRearm ->
  inv r (mk_config a' (<[j := p']> (threads c)) (enqueued c) D') ->
  a_head a' = a_head (the_ring c) -> a_tail a' = a_tail (the_ring c) -> a_threshold a' = a_threshold (the_ring c) ->
  dequeued c ⊆ D' -> pc_ok (a_head (the_ring c)) p' -> enq_ticket p' = enq_ticket p -> enqueuing p' = enqueuing p ->
  Z.b2z (dequeuing p') <= Z.b2z (dequeuing p) -> Z.b2z (owing p') <= Z.b2z (owing p) ->
  Z.b2z (entered p') <= Z.b2z (entered p) -> track p p' None = None ->
  bounded (mk_config a' (<[j := p']> (threads c)) (enqueued c) D') (partial_alter (track p p') j g).
Proof.
  intros Hb Hj H1 H2 Hi Hh Ht Hth HD Hp He Hen Hw Hle Hle' Htr.
  destruct (track_other c g j p p' Hb Hj H1 H2) as [Hg _]. rewrite track_idle by done.
  apply (bounded_quiet c g j p p' a' D'); try done; [by rewrite Hh|lia|].
  cbn [threads]. rewrite (number_insert _ _ _ _ _ Hj), Hth. pose proof (bounded_threshold _ _ Hb). lia.
Qed.

(** The loads and failed exchanges of an enqueue. *)
Lemma bounded_inspect c g j p u index :
  bounded c g -> threads c !! j = Some p -> enq_ticket p = Some u ->
  let p' := a_enq_inspect r index false u (cell_at r (the_ring c) u) in
  inv r (mk_config (the_ring c) (<[j := p']> (threads c)) (enqueued c) (dequeued c)) ->
  bounded (mk_config (the_ring c) (<[j := p']> (threads c)) (enqueued c) (dequeued c))
    (partial_alter (track p p') j g).
Proof.
  intros Hb Hj Hu p' Hi.
  assert (enqueuing p = true /\ p <> EnqThreshold /\ p <> EnqRearm) as (E1 & E2 & E3) by (by destruct p).
  pose proof (not_reusable c g j p u index Hb Hj Hu) as Hwhy. fold p' in Hwhy.
  assert (p' = EnqTicket index false \/ (enq_ticket p' = Some u /\ enqueuing p' = true /\ dequeuing p' = false /\
    owing p' = false /\ entered p' = false /\ pc_ok (a_head (the_ring c)) p' /\ track p p' None = None)) as [->|Hp'].
  { unfold p', a_enq_inspect. destruct (_ <? _); [|by left]. destruct (val _); [by left|].
    right. destruct (safe _); by destruct p. }
  - destruct (track_other c g j p (EnqTicket index false) Hb Hj E2 E3) as [Hg _].
    rewrite track_idle by (by destruct p). apply (bounded_fail c g j p u index); auto.
  - destruct Hp' as (Q1 & Q2 & Q3 & Q4 & Q5 & Q6 & Q7).
    apply bounded_local; try done; rewrite ?Q1, ?Q2, ?Q3, ?Q4, ?Q5; try done; by destruct p.
Qed.

Lemma bounded_deq_inspect c g j p t n :
  bounded c g -> threads c !! j = Some p -> deq_ticket p = Some t -> owing p = true ->
  let p' := a_deq_inspect r false t n (cell_at r (the_ring c) t) in
  inv r (mk_config (the_ring c) (<[j := p']> (threads c)) (enqueued c) (dequeued c)) ->
  bounded (mk_config (the_ring c) (<[j := p']> (threads c)) (enqueued c) (dequeued c))
    (partial_alter (track p p') j g).
Proof.
  intros Hb Hj Ht Hp p' Hi. pose proof (inv_deq _ _ (bounded_inv _ _ Hb)) as Hd.
  destruct (owners_fresh _ _ _ _ Hd j p t Hj Ht) as [Hlt _].
  assert (enq_ticket p' = None /\ enqueuing p' = false /\ dequeuing p' = true /\
    pc_ok (a_head (the_ring c)) p' /\ track p p' None = None) as (Q1 & Q2 & Q3 & Q4 & Q5).
  { unfold p', a_deq_inspect, deq_missed. repeat case_match; split_and!; try done; try (cbn; lia); by destruct p. }
  apply bounded_local; try done; rewrite ?Q1, ?Q2, ?Q3; try done; try (by destruct p).
  - rewrite Hp. by destruct (owing p').
  - replace (entered p) with true by (by destruct p). by destruct (entered p').
Qed.

(** The end of a round of a dequeue that lowers the threshold. *)
Lemma bounded_lower c g j p p' a' :
  bounded c g -> threads c !! j = Some p -> p = DeqEmpty \/ p = DeqRetry ->
  p' = DeqDone None \/ (p' = DeqTicket false /\ 0 < a_threshold (the_ring c)) ->
  a' = set_threshold (the_ring c) (s64 (a_threshold (the_ring c) - 1)) ->
  inv r (mk_config a' (<[j := p']> (threads c)) (enqueued c) (dequeued c)) ->
  bounded (mk_config a' (<[j := p']> (threads c)) (enqueued c) (dequeued c)) (partial_alter (track p p') j g).
Proof.
  intros Hb Hj Hp Hp' -> Hi. pose proof (bounded_threshold _ _ Hb) as Hth. pose proof (size_half r Hr).
  pose proof (size_bound r Hr). pose proof (half_pos r Hr). pose proof (number_nonneg entered (threads c)).
  rewrite s64_small in * by lia.
  assert (p <> EnqThreshold /\ p <> EnqRearm /\ track p p' None = None) as (E1 & E2 & E3)
    by (destruct Hp as [-> | ->], Hp' as [-> | [-> _]]; done).
  destruct (track_other c g j p p' Hb Hj E1 E2) as [Hg _]. rewrite track_idle by done.
  pose proof (entered_working (<[j := p']> (threads c))) as Hew. rewrite !(number_insert _ _ _ _ _ Hj) in Hew.
  pose proof (bounded_working _ _ Hb) as Hwk. unfold working in Hwk.
  apply (bounded_quiet c g j p p'); try done; cbn [the_ring threads set_threshold a_threshold];
    try (destruct Hp as [-> | ->], Hp' as [-> | [-> ?]]; cbn; done || lia).
  rewrite (number_insert _ _ _ _ _ Hj). split; [|lia].
  destruct Hp as [-> | ->], Hp' as [-> | [-> ?]]; cbn in *; lia.
Qed.

(** A call begins. *)
Lemma bounded_begin c g j p p' :
  bounded c g -> threads c !! j = Some p -> finished p = true ->
  let c' := mk_config (the_ring c) (<[j := p']> (threads c)) (enqueued c) (dequeued c) in
  inv r c' -> pc_ok (a_head (the_ring c)) p' -> enq_ticket p' = None -> owing p' = false -> entered p' = false ->
  held c' <= half -> working c' <= half -> bounded c' g.
Proof.
  intros Hb Hj Hf c' Hi Hp He Ho Hen Hheld Hw.
  destruct (track_other c g j p p' Hb Hj) as [Hg Htr]; [by destruct p..|].
  assert (enq_ticket p = None /\ owing p = false /\ entered p = false) as (E1 & E2 & E3) by (by destruct p).
  assert (∀ t, owner c' t <-> owner c t) as How by (intros t; apply (owned_keep _ _ _ _ _ Hj); congruence).
  apply (bounded_intro c g j p); try done; cbn [the_ring threads].
  - apply (bounded_far _ _ Hb).
  - apply (window_mono (a_head (the_ring c)) _ _ (logged c) (logged c') (owner c) (owner c') (live c) (live c'));
      [apply (bounded_window _ _ Hb)|done|..].
    + intros t. by rewrite How.
    + intros t. by rewrite How.
    + intros t. unfold live. by rewrite How.
  - intros t Ha. rewrite (number_insert _ _ _ _ _ Hj), E2, Ho. pose proof (bounded_armed _ _ Hb t Ha). cbn. lia.
  - rewrite (number_insert _ _ _ _ _ Hj), E3, Hen. pose proof (bounded_threshold _ _ Hb). cbn. lia.
Qed.

Lemma bounded_run c g j b p : bounded c g -> threads c !! j = Some p ->
  bounded (a_exec r (Run j b) c) (partial_alter (track p (astep r b p (the_ring c)).1) j g).
Proof.
  intros Hb Hj. pose proof (inv_exec r Hr (Run j b) c (bounded_inv _ _ Hb)) as Hi.
  rewrite (run_eq c j b p Hj) in *. pose proof (bounded_pcs _ _ Hb j p Hj) as Hp.
  assert (∀ p', p <> EnqThreshold -> p <> EnqRearm -> track p p' None = None -> partial_alter (track p p') j g = g) as Hidle.
  { intros p' H1 H2. by apply track_idle, (track_other c g j p p' Hb Hj H1 H2). }
  destruct p; cbn [astep a_log_enqueue a_log_dequeue fst snd pc_ok] in *; subst.
  - rewrite Hidle by done. by apply bounded_take.
  - by apply bounded_inspect.
  - destruct (Z.leb_spec (a_head (the_ring c)) ticket); [by apply bounded_local|].
    rewrite Hidle by done. apply (bounded_fail c g j (EnqHead index false ticket entry) ticket index); try done. lia.
  - destruct (negb b && bool_decide (cell_at r (the_ring c) ticket = entry)) eqn:Hcas; cbn [fst snd] in *;
      [|by apply bounded_inspect].
    replace (partial_alter _ j g) with (<[j := ticket]> g) by done.
    by apply (bounded_store c g j ticket entry index).
  - pose proof (full_threshold_eq r Hr) as Hfull. destruct (Z.eqb_spec (a_threshold (the_ring c)) (full_threshold r)).
    + replace (partial_alter _ j g) with (delete j g) by done. apply (bounded_arm c g j EnqThreshold); try done; [by left|lia].
    + replace (partial_alter (track EnqThreshold EnqRearm) j g) with g; [by apply bounded_rearm|].
      apply map_eq. intros i. destruct (decide (i = j)) as [->|?]; [by rewrite lookup_partial_alter_eq|by rewrite lookup_partial_alter_ne].
  - pose proof (full_threshold_eq r Hr) as Hfull. replace (partial_alter _ j g) with (delete j g) by done.
    apply (bounded_arm c g j EnqRearm); try done. by right.
  - by apply bounded_local.
  - destruct (Z.ltb_spec (a_threshold (the_ring c)) 0); [by apply bounded_local|].
    rewrite Hidle by done. apply (bounded_quiet c g j DeqThreshold); try done; [cbn; lia|]. cbn [threads].
    rewrite (number_insert _ _ _ _ _ Hj). pose proof (bounded_threshold _ _ Hb).
    pose proof (entered_room c g j _ Hb Hj eq_refl eq_refl). cbn. lia.
  - rewrite Hidle by done. by apply bounded_advance.
  - by apply (bounded_deq_inspect c g j _ ticket attempts).
  - apply bounded_local; try done. cbn [a_log_dequeue].
    destruct (owners_fresh _ _ _ _ (inv_deq _ _ (bounded_inv _ _ Hb)) _ _ ticket Hj eq_refl) as [_ HD].
    by apply insert_subseteq.
  - destruct (negb b && _); cbn [fst snd] in *; [|by apply (bounded_deq_inspect c g j _ ticket attempts)].
    apply bounded_local; try done. cbn.
    by apply (owners_fresh _ _ _ _ (inv_deq _ _ (bounded_inv _ _ Hb)) _ _ ticket Hj eq_refl).
  - destruct (_ <=? _); apply bounded_local; try done. cbn. lia.
  - pose proof (inv_pcs _ _ (bounded_inv _ _ Hb) _ _ Hj) as Hle. cbn in Hle.
    destruct (negb b && (a_tail (the_ring c) =? tail)) eqn:Hcas; cbn [fst snd] in *; [|by apply bounded_local].
    rewrite Hidle by done. apply andb_true_iff in Hcas as [_ Hcas%Z.eqb_eq]. apply (bounded_jump c g j tail head); done || lia.
  - apply bounded_local; try done. cbn. lia.
  - destruct (_ <? _); by apply bounded_local.
  - apply (bounded_lower c g j); auto.
  - apply (bounded_lower c g j); auto. destruct (Z.leb_spec (a_threshold (the_ring c)) 0); auto.
  - by apply bounded_local.
Qed.

Lemma bounded_step act c g : bounded c g -> allowed half act c = true ->
  bounded (a_exec r act c) (returning_step (a_exec r) act c g).
Proof.
  intros Hb Ha. pose proof (inv_exec r Hr act c (bounded_inv _ _ Hb)) as Hi.
  pose proof (bounded_held _ _ Hb) as Hheld. pose proof (bounded_working _ _ Hb) as Hw.
  destruct act as [j b|j index known|j known].
  - destruct (threads c !! j) as [p|] eqn:Hj.
    + rewrite (returning_run c g j b p Hj). by apply bounded_run.
    + unfold returning_step, a_exec, exec in *. by rewrite Hj in *.
  - apply andb_true_iff in Ha as [Hk Hroom%Z.ltb_lt]. destruct known; [done|].
    unfold a_exec, exec in *. destruct (threads c !! j) as [p|] eqn:Hj; [|done].
    destruct (finished p && _) eqn:Hf; [|done]. apply andb_true_iff in Hf as [Hf _].
    apply (bounded_begin c g j p); try done.
    + unfold held in *. cbn. rewrite (number_insert _ _ _ _ _ Hj). destruct p; cbn; done || lia.
    + unfold working in *. cbn. rewrite (number_insert _ _ _ _ _ Hj). destruct p; cbn; done || lia.
  - apply andb_true_iff in Ha as [Hk Hroom%Z.ltb_lt]. destruct known; [done|].
    unfold a_exec, exec in *. destruct (threads c !! j) as [p|] eqn:Hj; [|done].
    destruct (finished p) eqn:Hf; [|done].
    apply (bounded_begin c g j p); try done.
    + unfold held in *. cbn. rewrite (number_insert _ _ _ _ _ Hj). destruct p; cbn; done || lia.
    + unfold working in *. cbn. rewrite (number_insert _ _ _ _ _ Hj). destruct p; cbn; done || lia.
Qed.

(** ** The beginning *)

Lemma number_idle {W} (f : pc W -> bool) n : f EnqDone = false -> number f (replicate n EnqDone) = 0.
Proof.
  intros Hf. induction n as [|n IH]; [done|]. unfold number in *. cbn [replicate]. rewrite sum_of_cons, IH, Hf. done.
Qed.

Lemma start_logged full n t : logged (a_start r full n) t <-> full = true /\ 0 <= t < half.
Proof.
  unfold logged, a_start. cbn. destruct full; [|split; [by intros [? ?]|by intros [? _]]]. split.
  - intros [i Hi]. apply (initial_log_full r) in Hi as [? _]. done.
  - intros [_ Ht]. exists t. by apply (initial_log_full r).
Qed.

Lemma start_held full n : held (a_start r full n) <= half.
Proof.
  unfold held, a_start. cbn [threads enqueued dequeued]. rewrite number_idle by done. pose proof (half_pos r Hr).
  assert (base.size (initial_log half full ∖ ∅) <= base.size (initial_log half full))%nat as Hle.
  { apply map_subseteq_size, map_subseteq_spec. intros t x [Hx _]%lookup_difference_Some. done. }
  destruct full; cbn [initial_log] in *; [|rewrite map_size_empty in Hle; lia].
  rewrite map_size_list_to_map in Hle.
  - rewrite length_fmap, length_seqZ in Hle. lia.
  - rewrite <- list_fmap_compose. apply NoDup_fmap_2; [intros x y Hxy; exact Hxy|apply NoDup_seqZ].
Qed.

Lemma bounded_start full n : bounded (a_start r full n) ∅.
Proof.
  pose proof (half_pos r Hr). pose proof (size_half r Hr). pose proof (full_threshold_eq r Hr) as Hft.
  pose proof (start_held full n) as Hheld.
  assert (a_head (the_ring (a_start r full n)) = 0 /\ a_tail (the_ring (a_start r full n)) = (if full then half else 0) /\
    a_threshold (the_ring (a_start r full n)) = if full then 3 * half - 1 else -1) as (Eh & Et & Eth)
    by (unfold a_start, a_make; destruct full; cbn; auto).
  split; rewrite ?Eh, ?Et, ?Eth; try done.
  - apply (ring_start_inv r Hr).
  - by intros j p [-> _]%lookup_replicate.
  - unfold working, a_start. cbn. rewrite number_idle by done. lia.
  - intros t [_ Ht]%start_logged. lia.
  - intros x Hx. destruct (live_covered (a_start r full n)) as (L & Hc & HL). exists L. split; [lia|]. split.
    + intros u Hu Hut Hn. destruct Hn. apply start_logged. destruct full; [split; [done|lia]|lia].
    + intros w u _ _ _ Hw _. by apply Hc.
  - intros t (Hl & _ & _). apply start_logged in Hl as [-> Ht]. unfold a_start. cbn. rewrite number_idle by done. lia.
  - unfold a_start. cbn. rewrite number_idle by done. destruct full; lia.
Qed.

(** ** Giving up *)

(** A dequeue that will report, or has reported, an empty ring. *)
Definition gave_up {W} (p : pc W) : bool :=
  match p with
  | DeqCatchCas _ _ | DeqCatchHead | DeqCatchTail _ | DeqEmpty | DeqDone None => true
  | _ => false
  end.

Definition starts (act : action) : option nat :=
  match act with Run _ _ => None | StartEnqueue j _ _ | StartDequeue j _ => Some j end.

Abbreviation a_exec_all := (exec_all half (astep r) (a_log_enqueue r) (a_log_dequeue r)).

(** It does so only where everything stored by returned calls is claimed. *)
Lemma gives_up c g j b p : bounded c g -> threads c !! j = Some p -> gave_up p = false ->
  gave_up (astep r b p (the_ring c)).1 = true -> exhausted (a_head (the_ring c)) c g.
Proof.
  intros Hb Hj Hp Hg t i HE HD Hna. destruct (Z.lt_ge_cases t (a_head (the_ring c))) as [|Hge]; [done|exfalso].
  pose proof (bounded_armed _ _ Hb t) as Harm. assert (armed_at c g t) as Hat by (split_and!; [by exists i|done|done]).
  specialize (Harm Hat). pose proof (number_nonneg owing (threads c)).
  pose proof (owners_log _ _ _ _ (inv_enq _ _ (bounded_inv _ _ Hb)) t i HE) as Ht.
  pose proof (bounded_pcs _ _ Hb _ _ Hj) as Hok.
  destruct p; cbn [astep fst gave_up] in *; try done.
  - unfold a_enq_inspect in Hg. repeat case_match; done.
  - by destruct (_ <=? _).
  - destruct (_ && _); cbn in Hg; [by destruct known|]. unfold a_enq_inspect in Hg. repeat case_match; done.
  - by destruct (_ =? _).
  - destruct (Z.ltb_spec (a_threshold (the_ring c)) 0); [lia|done].
  - unfold a_deq_inspect, deq_missed in Hg. repeat case_match; done.
  - unfold a_deq_inspect, deq_missed in Hg. destruct (_ && _); cbn in Hg; repeat case_match; done.
  - cbn in Hok. destruct (Z.leb_spec (a_tail (the_ring c)) (ticket + 1)); [lia|done].
  - pose proof (sum_of_lookup (λ p, Z.b2z (owing p)) (threads c) j _ ltac:(intros q; cbn; by destruct (owing q)) Hj) as Hone.
    unfold number in *. cbn in Hone. destruct (Z.leb_spec (a_threshold (the_ring c)) 0); [lia|done].
  - congruence.
Qed.

Lemma bounded_all acts : ∀ c g, bounded c g -> keeps_bounds half (a_exec r) acts c = true ->
  bounded (a_exec_all acts c) (returning (a_exec r) acts c g).
Proof.
  induction acts as [|act acts IH]; intros c g Hb Ha; [done|].
  apply andb_true_iff in Ha as [Ha Hacts]. apply IH; [by apply bounded_step|done].
Qed.

(** The moment of an empty answer. *)
Lemma gave_up_moment j acts : ∀ c g p p', bounded c g -> keeps_bounds half (a_exec r) acts c = true ->
  Forall (λ act, starts act <> Some j) acts -> threads c !! j = Some p -> gave_up p = false ->
  threads (a_exec_all acts c) !! j = Some p' -> gave_up p' = true ->
  ∃ a b, acts = a ++ b /\
    exhausted (a_head (the_ring (a_exec_all a c))) (a_exec_all a c) (returning (a_exec r) a c g).
Proof.
  induction acts as [|act acts IH]; intros c g p p' Hb Ha Hst Hj Hp Hj' Hp'; [cbn in Hj'; congruence|].
  apply andb_true_iff in Ha as [Hact Hacts].
  assert (∃ q, threads (a_exec r act c) !! j = Some q /\ (gave_up q = true -> exhausted (a_head (the_ring c)) c g))
    as (q & Hq & Hgq).
  { apply Forall_cons in Hst as [Hst _]. destruct act as [k b|k index known|k known]; cbn [starts] in Hst.
    - destruct (decide (k = j)) as [->|Hne].
      + exists (astep r b p (the_ring c)).1. split; [|by apply (gives_up c g j b p)].
        rewrite (run_eq c j b p Hj). cbn. apply list_lookup_insert_eq. by eapply lookup_lt_Some.
      + exists p. split; [|congruence]. unfold a_exec, exec. destruct (threads c !! k); [|done].
        destruct (astep _ _ _ _). cbn. by rewrite list_lookup_insert_ne.
    - exists p. split; [|congruence]. unfold a_exec, exec. destruct (threads c !! k); [|done].
      destruct (_ && _); [|done]. cbn. rewrite list_lookup_insert_ne; [done|congruence].
    - exists p. split; [|congruence]. unfold a_exec, exec. destruct (threads c !! k); [|done].
      destruct (finished _); [|done]. cbn. rewrite list_lookup_insert_ne; [done|congruence]. }
  destruct (gave_up q) eqn:Hgu.
  - exists [], (act :: acts). split; [done|]. by apply Hgq.
  - destruct (IH _ _ q p' (bounded_step act c g Hb Hact) Hacts) as (a & b & -> & Hex); try done.
    { by apply Forall_cons in Hst as [_ Hst]. }
    by exists (act :: a), b.
Qed.

(** ** First in, first out *)

Lemma enq_ticket_step b p a u : enq_ticket (astep r b p a).1 = Some u ->
  enq_ticket p = Some u \/ (∃ index known, p = EnqTicket index known) /\ u = a_tail a.
Proof.
  destruct p; cbn [astep fst enq_ticket]; unfold a_enq_inspect, a_deq_inspect, deq_missed; intros Hu;
    repeat case_match; cbn in *; simplify_eq; eauto.
Qed.

(** Entries stay, the tail only rises, and new tickets come from it. *)
Lemma exec_grows act c : inv r c ->
  enqueued c ⊆ enqueued (a_exec r act c) /\ a_tail (the_ring c) <= a_tail (the_ring (a_exec r act c)) /\
  ∀ u, logged (a_exec r act c) u \/ owner (a_exec r act c) u ->
    logged c u \/ owner c u \/ a_tail (the_ring c) <= u.
Proof.
  intros Hi. destruct act as [j b|j index known|j known]; unfold a_exec, exec.
  - destruct (threads c !! j) as [p|] eqn:Hj; [|split_and!; [done|lia|tauto]].
    pose proof (run_eq c j b p Hj) as Heq. unfold a_exec, exec in Heq. rewrite Hj in Heq. rewrite Heq.
    cbn [enqueued the_ring]. split_and!.
    + destruct p; cbn [a_log_enqueue]; try done. destruct (_ && _); [|done]. apply insert_subseteq.
      by apply (owners_fresh _ _ _ _ (inv_enq _ _ Hi) j _ ticket Hj).
    + pose proof (inv_pcs _ _ Hi _ _ Hj) as Hp. destruct p; cbn; try lia; repeat case_match; cbn; try lia.
      cbn in Hp. lia.
    + intros u [[i Hl]|Ho].
      * destruct p; cbn [a_log_enqueue enqueued] in Hl; try (left; by exists i).
        destruct (_ && _); [|left; by exists i]. apply lookup_insert_Some in Hl as [[<- _]|[_ Hl]]; [|left; by exists i].
        right; left. by exists j, (EnqCas index known ticket entry).
      * unfold owner in Ho. cbn [threads] in Ho. apply (owned_insert _ _ _ _ _ Hj) in Ho as [Hu|(k & q & _ & Hq & Hu)].
        -- apply enq_ticket_step in Hu as [Hu|[_ ->]]; [right; left; by exists j, p|right; right; lia].
        -- right; left. by exists k, q.
  - destruct (threads c !! j) as [p|] eqn:Hj; [|split_and!; [done|lia|tauto]].
    destruct (_ && _); [|split_and!; [done|lia|tauto]]. cbn [enqueued the_ring]. split_and!; [done|lia|].
    intros u [Hl|Ho]; [by left|]. apply (owned_insert _ _ _ _ _ Hj) in Ho as [?|(k & q & _ & Hq & Hu)]; [done|].
    right; left. by exists k, q.
  - destruct (threads c !! j) as [p|] eqn:Hj; [|split_and!; [done|lia|tauto]].
    destruct (finished p); [|split_and!; [done|lia|tauto]]. cbn [enqueued the_ring]. split_and!; [done|lia|].
    intros u [Hl|Ho]; [by left|]. apply (owned_insert _ _ _ _ _ Hj) in Ho as [Hu|(k & q & _ & Hq & Hu)]; [by destruct known|].
    right; left. by exists k, q.
Qed.

Lemma exec_all_grows acts : ∀ c, inv r c ->
  enqueued c ⊆ enqueued (a_exec_all acts c) /\
  ∀ u, logged (a_exec_all acts c) u -> logged c u \/ owner c u \/ a_tail (the_ring c) <= u.
Proof.
  enough (∀ c, inv r c -> enqueued c ⊆ enqueued (a_exec_all acts c) /\
    ∀ u, logged (a_exec_all acts c) u \/ owner (a_exec_all acts c) u ->
      logged c u \/ owner c u \/ a_tail (the_ring c) <= u) as H.
  { intros c Hi. destruct (H c Hi) as [HE Hn]. split; [done|]. intros u Hu. apply Hn. by left. }
  induction acts as [|act acts IH]; intros c Hi; [split; [done|tauto]|].
  destruct (exec_grows act c Hi) as (HE & Ht & Hn). destruct (IH _ (inv_exec r Hr act c Hi)) as [HE' Hn'].
  split; [by etrans|]. intros u Hu. destruct (Hn' u Hu) as [?|[?|?]]; [apply Hn; by left|apply Hn; by right|].
  right; right. etrans; [exact Ht|done].
Qed.

Lemma earlier_is_claimed acts c t i u v : inv r c ->
  enqueued c !! t = Some i -> ~ logged c u -> ~ owner c u -> dequeued (a_exec_all acts c) !! u = Some v ->
  claimed (a_exec_all acts c) t i.
Proof.
  intros Hi Ht Hl Ho Hu. destruct (exec_all_grows acts c Hi) as [HE Hn].
  assert (inv r (a_exec_all acts c)) as Hi' by (by apply inv_exec_all).
  set (c' := a_exec_all acts c) in *. pose proof (lookup_weaken _ _ _ _ Ht HE) as Ht'.
  pose proof (slots_sub _ _ _ _ _ (inv_slots _ _ Hi')) as HD.
  assert (a_tail (the_ring c) <= u) as Htu.
  { destruct (Hn u) as [?|[?|?]]; [|done..]. exists v. by apply (lookup_weaken _ _ _ _ Hu HD). }
  pose proof (owners_log _ _ _ _ (inv_enq _ _ Hi) t i Ht). pose proof (owners_log _ _ _ _ (inv_deq _ _ Hi') u v Hu).
  destruct (dequeued c' !! t) as [x|] eqn:Hdt.
  - left. pose proof (lookup_weaken _ _ _ _ Hdt HD). congruence.
  - right. apply (claimed_has_owner r c' t i Hi' Ht' Hdt). lia.
Qed.

(** ** The word machine does the same *)

Abbreviation w_exec := (exec half step log_enqueue log_dequeue).

Lemma schedule_run full n acts : zlength acts <= 2 ^ 60 ->
  let c := a_exec_all acts (a_start r full n) in
  w_exec_all half acts (w_start half full n) = enc_config r c /\ inv r c /\
  ∃ B, bound_ok B /\ config_bd r B c.
Proof.
  intros Ha c. pose proof (size_bound r Hr). pose proof (size_half r Hr). pose proof (half_pos r Hr).
  split; [|split].
  - rewrite (start_enc r Hr). apply (exec_all_enc r Hr acts half); [lia|unfold bound_ok; lia|by apply start_bd].
  - by apply inv_exec_all, ring_start_inv.
  - exists (half + zlength acts). split; [unfold bound_ok; lia|].
    apply (exec_all_bd r Hr); [lia|by apply start_bd].
Qed.

Lemma number_enc (f : ∀ W, pc W -> bool) (ts : list (pc cell)) :
  (∀ p, f Z (enc_pc r p) = f cell p) -> number (f Z) (enc_pc r <$> ts) = number (f cell) ts.
Proof.
  intros Hf. unfold number. rewrite sum_of_fmap. induction ts as [|p ts IH]; [done|].
  rewrite !sum_of_cons, IH. by rewrite Hf.
Qed.

Lemma allowed_enc act c : allowed half act (enc_config r c) = allowed half act c.
Proof.
  unfold allowed, held, working, enc_config. cbn [threads enqueued dequeued].
  rewrite (number_enc (@enqueuing)), (number_enc (@dequeuing)) by (by intros []). done.
Qed.

Lemma enq_ticket_enc p : enq_ticket (enc_pc r p) = u64 <$> enq_ticket p.
Proof. by destruct p. Qed.

Lemma enq_ticket_small B c j p t : bound_ok B -> config_bd r B c -> threads c !! j = Some p ->
  enq_ticket p = Some t -> u64 t = t.
Proof.
  intros HB [_ Hts] Hp Ht. specialize (Hts j p Hp). unfold bound_ok in HB.
  apply u64_small. destruct p; simplify_eq/=; intuition lia.
Qed.

Lemma returning_enc B act c g : bound_ok B -> config_bd r B c ->
  returning_step w_exec act (enc_config r c) g = returning_step (a_exec r) act c g.
Proof.
  intros HB Hc. destruct act as [j b|j index known|j known]; try done. unfold returning_step.
  rewrite (exec_enc r Hr B) by done. unfold enc_config at 1 2. cbn [threads]. rewrite !list_lookup_fmap.
  destruct (threads c !! j) as [p|] eqn:Hj; [|done]. cbn [fmap option_fmap option_map].
  destruct (threads (a_exec r (Run j b) c) !! j) as [p'|]; [|done]. cbn [fmap option_fmap option_map].
  apply partial_alter_ext. intros o _. destruct p, p'; try done. cbn [enc_pc track].
  f_equal. by eapply enq_ticket_small.
Qed.

Lemma schedule_run_enc acts : ∀ B c g, 0 <= B -> bound_ok (B + zlength acts) -> config_bd r B c ->
  keeps_bounds half w_exec acts (enc_config r c) = keeps_bounds half (a_exec r) acts c /\
  returning w_exec acts (enc_config r c) g = returning (a_exec r) acts c g.
Proof.
  induction acts as [|act acts IH]; intros B c g HB0 HB Hc; [done|].
  rewrite zlength_cons in HB. pose proof (zlength_nonneg acts). unfold bound_ok in *.
  cbn [keeps_bounds returning]. rewrite allowed_enc, (returning_enc B) by (done || unfold bound_ok; lia).
  rewrite (exec_enc r Hr B) by (done || unfold bound_ok; lia).
  destruct (IH (B + 1) (a_exec r act c) (returning_step (a_exec r) act c g)) as [H1 H2]; [lia|lia|by apply exec_bd|].
  rewrite H1, H2. done.
Qed.

Lemma start_run_enc full n acts : zlength acts <= 2 ^ 60 ->
  keeps_bounds half w_exec acts (w_start half full n) = keeps_bounds half (a_exec r) acts (a_start r full n) /\
  returning w_exec acts (w_start half full n) ∅ = returning (a_exec r) acts (a_start r full n) ∅.
Proof.
  intros Ha. pose proof (size_bound r Hr). pose proof (size_half r Hr). pose proof (half_pos r Hr).
  rewrite (start_enc r Hr). apply (schedule_run_enc acts half); [lia|unfold bound_ok; lia|by apply start_bd].
Qed.

Lemma keeps_bounds_app acts acts' c : keeps_bounds half (a_exec r) (acts ++ acts') c =
  keeps_bounds half (a_exec r) acts c && keeps_bounds half (a_exec r) acts' (a_exec_all acts c).
Proof. revert c. induction acts as [|act acts IH]; intros c; [done|]. cbn. by rewrite IH, andb_assoc. Qed.

Lemma returning_app acts acts' c g : returning (a_exec r) (acts ++ acts') c g =
  returning (a_exec r) acts' (a_exec_all acts c) (returning (a_exec r) acts c g).
Proof. revert c g. induction acts as [|act acts IH]; intros c g; [done|]. cbn. by rewrite IH. Qed.

Lemma exec_all_app acts acts' c : a_exec_all (acts ++ acts') c = a_exec_all acts' (a_exec_all acts c).
Proof. unfold exec_all. by rewrite foldl_app. Qed.

Lemma empty_moment full n before after j p : let start := a_start r full n in
  keeps_bounds half (a_exec r) (before ++ StartDequeue j false :: after) start = true ->
  threads (a_exec_all before start) !! j = Some p -> finished p = true ->
  Forall (λ act, starts act <> Some j) after ->
  threads (a_exec_all (before ++ StartDequeue j false :: after) start) !! j = Some (DeqDone None) ->
  ∃ a b, after = a ++ b /\
    let c := a_exec_all (before ++ StartDequeue j false :: a) start in
    exhausted (a_head (the_ring c)) c (returning (a_exec r) (before ++ StartDequeue j false :: a) start ∅).
Proof.
  intros start Hk Hj Hf Hst Hend. rewrite keeps_bounds_app in Hk. apply andb_true_iff in Hk as [Hk1 Hk2].
  cbn [keeps_bounds] in Hk2. apply andb_true_iff in Hk2 as [Hka Hk2]. rewrite exec_all_app in Hend.
  pose proof (bounded_all before _ _ (bounded_start full n) Hk1) as Hb0. fold start in Hb0.
  set (c0 := a_exec_all before start) in *. pose proof (bounded_step _ _ _ Hb0 Hka) as Hb1.
  assert (threads (a_exec r (StartDequeue j false) c0) !! j = Some DeqThreshold) as Hj1.
  { unfold a_exec, exec. rewrite Hj, Hf. cbn. apply list_lookup_insert_eq. by eapply lookup_lt_Some. }
  destruct (gave_up_moment j after _ _ _ _ Hb1 Hk2 Hst Hj1 eq_refl Hend eq_refl) as (a & b & -> & Hex).
  exists a, b. split; [done|]. cbv zeta. rewrite exec_all_app, returning_app. exact Hex.
Qed.

End window.

(** ** What every schedule guarantees *)

Section guarantees.
Context (r : Z) (Hr : 1 <= r <= 59).

(** First in, first out. At some moment index [i] is stored, and no
    enqueue has yet drawn the ticket [u]; once the index of [u] has been
    dequeued, [i] has been dequeued too, or a dequeue owns its ticket and is
    about to return it. *)
Theorem first_in_first_out full n acts1 acts2 t i u v :
  zlength (acts1 ++ acts2) <= 2 ^ 60 ->
  let c1 := w_exec_all (half r) acts1 (w_start (half r) full n) in
  let c2 := w_exec_all (half r) acts2 c1 in
  enqueued c1 !! t = Some i -> undrawn c1 u -> dequeued c2 !! u = Some v -> claimed c2 t i.
Proof.
  intros Ha c1 c2. rewrite zlength_app in Ha.
  pose proof (zlength_nonneg acts1). pose proof (zlength_nonneg acts2).
  destruct (schedule_run r Hr full n acts1) as (E1 & Hi & B & HB & Hbd); [lia|].
  destruct (schedule_run r Hr full n (acts1 ++ acts2)) as (E2 & Hi2 & B2 & HB2 & Hbd2); [rewrite zlength_app; lia|].
  rewrite exec_all_app in E2, Hi2, Hbd2. set (a := exec_all _ _ _ _ acts1 _) in *.
  assert (c2 = enc_config r (exec_all (half r) (astep r) (a_log_enqueue r) (a_log_dequeue r) acts2 a)) as Hc2.
  { rewrite <- E2. unfold c2, c1, w_exec_all, exec_all. by rewrite foldl_app. }
  assert (c1 = enc_config r a) as Hc1 by exact E1. rewrite Hc1, Hc2. unfold undrawn, claimed. cbn [enc_config enqueued dequeued threads].
  intros Ht [Hu Hno] Hv. destruct (earlier_is_claimed r Hr acts2 a t i u v Hi Ht) as [?|(j & p & Hp & Hpt)]; auto.
  - unfold logged. rewrite Hu. by intros [? ?].
  - intros (j & p & Hp & Hpu). apply (Hno j (enc_pc r p)); [by rewrite list_lookup_fmap, Hp|].
    rewrite enq_ticket_enc, Hpu. cbn. by rewrite (enq_ticket_small r Hr B a j p u HB Hbd Hp Hpu).
  - right. exists j, (enc_pc r p). rewrite list_lookup_fmap, Hp. split; [done|].
    rewrite enc_deq_ticket, Hpt. cbn. by rewrite (owned_ticket_small r Hr B2 _ j p t HB2 Hbd2 Hp Hpt).
Qed.

(** C17: while callers keep to their bounds, an empty answer is true. If a
    dequeue of an idle thread [j] reports an empty ring, then at some moment
    between its call and its end every index stored by an enqueue that had
    returned was claimed. *)
Theorem empty_answers_are_true full n before j after p :
  let ex := exec (half r) step log_enqueue log_dequeue in
  let start := w_start (half r) full n in
  let acts := before ++ StartDequeue j false :: after in
  zlength acts <= 2 ^ 60 -> keeps_bounds (half r) ex acts start = true ->
  threads (w_exec_all (half r) before start) !! j = Some p -> finished p = true ->
  Forall (λ act, starts act <> Some j) after ->
  threads (w_exec_all (half r) acts start) !! j = Some (DeqDone None) ->
  ∃ a b, after = a ++ b /\
    let sofar := before ++ StartDequeue j false :: a in
    let c := w_exec_all (half r) sofar start in
    exhausted (head_ (the_ring c)) c (returning ex sofar start ∅).
Proof.
  intros ex start acts Hlen Hk Hj Hf Hst Hend. pose proof Hlen as Hlen'. unfold acts in Hlen'.
  rewrite zlength_app, zlength_cons in Hlen'. pose proof (zlength_nonneg before). pose proof (zlength_nonneg after).
  destruct (schedule_run r Hr full n acts Hlen) as (Eall & _). destruct (start_run_enc r Hr full n acts Hlen) as [Ek _].
  destruct (schedule_run r Hr full n before) as (Eb & _); [lia|]. unfold ex, start in Hk. rewrite Ek in Hk.
  unfold start in Hj, Hend. rewrite Eall in Hend. rewrite Eb in Hj.
  cbn [enc_config threads] in Hj, Hend. rewrite list_lookup_fmap in Hj, Hend.
  apply fmap_Some in Hj as (q & Hq & ->). apply fmap_Some in Hend as (q' & Hq' & He). rewrite enc_finished in Hf.
  assert (q' = DeqDone None) as -> by (by destruct q'; simplify_eq/=).
  destruct (empty_moment r Hr full n before after j q Hk Hq Hf Hst Hq') as (a & b & -> & Hex).
  exists a, b. split; [done|]. cbv zeta. rewrite zlength_app in Hlen'. pose proof (zlength_nonneg b).
  assert (zlength (before ++ StartDequeue j false :: a) <= 2 ^ 60) as Hpre by (rewrite zlength_app, zlength_cons; lia).
  destruct (schedule_run r Hr full n _ Hpre) as (E & _ & B & HB & Hbd). destruct (start_run_enc r Hr full n _ Hpre) as [_ Er].
  unfold start. rewrite E. unfold ex. rewrite Er. cbn [enc_config the_ring head_ enc].
  rewrite (head_small r B _ HB Hbd). exact Hex.
Qed.

End guarantees.

(** ** A dequeue that finds nothing, and a crowd that hides an index *)

Lemma four_slots : 1 <= 2 <= 59.
Proof. lia. Qed.

Definition runs (j : nat) (k : N) : list action := replicate (N.to_nat k) (Run j false).

(** One index goes through the ring; the next dequeue waits for its slot to
    be filled, in vain. *)
Definition emptied : list action :=
  StartEnqueue 0 1 false :: runs 0 6 ++ StartDequeue 0 false :: runs 0 4.
Definition in_vain : list action := runs 1 10010.

Lemma empty_answers_are_true_witness :
  ∃ a b, in_vain = a ++ b /\
    let sofar := emptied ++ StartDequeue 1 false :: a in
    let c := w_exec_all (half 2) sofar (w_start (half 2) false 2) in
    exhausted (head_ (the_ring c)) c
      (returning (exec (half 2) step log_enqueue log_dequeue) sofar (w_start (half 2) false 2) ∅).
Proof.
  apply (empty_answers_are_true 2 four_slots false 2 emptied 1 in_vain EnqDone).
  - vm_compute. discriminate.
  - vm_compute. reflexivity.
  - vm_compute. reflexivity.
  - reflexivity.
  - apply Forall_replicate. discriminate.
  - vm_compute. reflexivity.
Defined.

(** Index 1 is stored before another enqueue begins; both are dequeued. *)
Lemma first_in_first_out_witness :
  let c1 := w_exec_all (half 2) (StartEnqueue 0 1 false :: runs 0 6) (w_start (half 2) false 2) in
  let c2 := w_exec_all (half 2) (StartEnqueue 0 0 false :: runs 0 6 ++ StartDequeue 1 false :: runs 1 2 ++
    StartDequeue 0 false :: runs 0 4) c1 in
  dequeued c2 !! 1 = Some 0 /\ claimed c2 0 1.
Proof.
  split; [vm_compute; reflexivity|].
  apply (first_in_first_out 2 four_slots false 2 (StartEnqueue 0 1 false :: runs 0 6)
    (StartEnqueue 0 0 false :: runs 0 6 ++ StartDequeue 1 false :: runs 1 2 ++ StartDequeue 0 false :: runs 0 4) 0 1 1 0).
  - vm_compute. discriminate.
  - vm_compute. reflexivity.
  - split; [vm_compute; reflexivity|]. intros j p Hp. vm_compute in Hp. destruct j as [|[|j]]; cbn in Hp; simplify_eq; discriminate.
  - vm_compute. reflexivity.
Defined.

(** On a ring for two indices seven dequeues pass the test of [threshold_];
    one takes the index there is, six find nothing and stop short of lowering
    the threshold; another index is stored meanwhile. *)
Definition crowd : list action :=
  StartEnqueue 0 0 false :: runs 0 6 ++
  flat_map (λ j, StartDequeue j false :: runs j 1) (seq 1 7) ++ runs 1 3 ++
  flat_map (λ j, runs j 10005) (seq 2 6) ++
  StartEnqueue 0 1 false :: runs 0 6 ++
  flat_map (λ j, runs j 1) (seq 2 6).

(** With more dequeues under way than the capacity an empty answer may
    be false, and for good: every call has returned, an index whose enqueue
    returned is in the ring, and any further dequeue gives up at once and
    leaves the ring as it is. *)
Theorem crowded_ring_hides_an_index :
  let c := w_exec_all (half 2) crowd (w_start (half 2) false 8) in
  forallb finished (threads c) = true /\
  enqueued c !! 7 = Some 1 /\ dequeued c !! 7 = None /\ head_ (the_ring c) = 7 /\
  try_dequeue false (the_ring c) = Ret None (the_ring c).
Proof. vm_compute. split_and!; reflexivity. Qed.

End RingFifo.
