(* ===== verification/DataPath.v ===== *)
(** * The data path of the lock-free queue, access by access

    [LockFreeConc] runs a ring call as one step. Here threads run [try_push]
    and [try_pop] on an open queue with every ring call taken through
    [RingConc], one atomic access at a time, so calls of different threads
    overlap as they may. The guards, which only count while the queue is
    open, and the signals, which touch no event, are left out.

    The invariant puts every slot index in one place, in a ring or in the
    hands of a thread, beside what its slot holds. From it follow what every
    schedule keeps to and, through [RingFifo], the order of the events and
    the truth of the answers [empty] and [full] while threads are no more than
    slots; a schedule with more pops ends with an event out of reach. *)

From S2P Require Import Prelude Types IndexRing RingWords RingAbs RingConc RingFifo.
Import IndexRing RingAbs RingConc RingFifo PopResult.
Local Open Scope Z_scope.

Module DataPath.

(** ** A ring and the calls on it *)

(** The threads of a ring call, with the tickets of enqueues that have stored
    their index but not returned. *)
Record ring_calls : Type := mk_ring_calls {
  calls : RingConc.config ring Z;
  pending : gmap nat Z;
}.

Section rings.
Context (r : Z).

Definition ring_exec : action -> RingConc.config ring Z -> RingConc.config ring Z :=
  exec (half r) step log_enqueue log_dequeue.

Definition act (a : action) (q : ring_calls) : ring_calls :=
  mk_ring_calls (ring_exec a (calls q)) (returning_step ring_exec a (calls q) (pending q)).

Definition fresh (full : bool) (n : nat) : ring_calls := mk_ring_calls (w_start (half r) full n) ∅.

Definition at_call (j : nat) (q : ring_calls) : option (IndexRing.pc Z) := RingConc.threads (calls q) !! j.

End rings.

(** The indices in a ring with their tickets, and the index a call has in
    hand: not stored yet, or taken. *)
Definition stored (q : ring_calls) : gmap Z Z := enqueued (calls q) ∖ dequeued (calls q).
Definition in_hand {W} (p : IndexRing.pc W) : list Z :=
  match p with
  | EnqTicket i _ | EnqLoad i _ _ | EnqHead i _ _ _ | EnqCas i _ _ _ | DeqDone (Some i) => [i]
  | _ => []
  end.

(** ** The calls of the queue *)

Section queue.
Context {E : Type} (r : Z).

Inductive outcome : Type :=
  | Ready
  | Pushed (st : queue_status)
  | PushThrew (e : exn)
  | Popped (result : pop_result E).

(** A ring call of the thread is under way in [Reserve], [Publish],
    [GiveBack], [Take] and [Free]. [Take] and [MoveOut] record the ticket the
    index was taken at. *)
Inductive pc : Type :=
  | Done (o : outcome)
  (* try_push_impl, publish_constructed_index *)
  | Reserve (event : exn + E)
  | Construct (index : Z) (event : exn + E)
  | GiveBack (e : exn)
  | Count (index : Z) (event : E)
  | Publish (event : E)
  (* try_pop *)
  | Take (ticket : Z)
  | MoveOut (index ticket : Z)
  | Release (index : Z) (event : E)
  | Free (event : E)
  | Crashed.

Record config : Type := mk_config {
  available : ring_calls;
  published : ring_calls;
  slots : list (option E);
  occupied_count : Z;
  threads : list pc;
  (* the events published, by ticket, and those moved out, with theirs *)
  sent : gmap Z E;
  returned : list (Z * E);
}.

Definition goto (j : nat) (p : pc) (c : config) : config :=
  mk_config (available c) (published c) (slots c) (occupied_count c) (<[j := p]> (threads c)) (sent c) (returned c).
Definition on_available (a : action) (c : config) : config :=
  mk_config (act r a (available c)) (published c) (slots c) (occupied_count c) (threads c) (sent c) (returned c).
Definition on_published (a : action) (c : config) : config :=
  mk_config (available c) (act r a (published c)) (slots c) (occupied_count c) (threads c) (sent c) (returned c).
Definition with_slot (i : Z) (o : option E) (c : config) : config :=
  mk_config (available c) (published c) (<[i :=z o]> (slots c)) (occupied_count c) (threads c) (sent c) (returned c).
Definition with_count (n : Z) (c : config) : config :=
  mk_config (available c) (published c) (slots c) (u64 n) (threads c) (sent c) (returned c).
Definition with_sent (s : gmap Z E) (c : config) : config :=
  mk_config (available c) (published c) (slots c) (occupied_count c) (threads c) s (returned c).
Definition with_returned (l : list (Z * E)) (c : config) : config :=
  mk_config (available c) (published c) (slots c) (occupied_count c) (threads c) (sent c) l.

Inductive choice : Type :=
  | StartPush (j : nat) (event : exn + E)
  | StartPop (j : nat)
  | Go (j : nat) (spurious : bool).

(** An access of an enqueue on [published_indices_]; storing the index sends
    the event. *)
Definition publish_access (j : nat) (b : bool) (event : E) (c : config) : config :=
  let c' := on_published (Run j b) c in
  match at_call j (published c), at_call j (published c') with
  | Some (EnqCas _ _ t _), Some EnqThreshold => with_sent (<[t := event]> (sent c)) c'
  | _, _ => c'
  end.

(** An access of a dequeue on it. *)
Definition take_access (j : nat) (b : bool) (c : config) : config :=
  match at_call j (published c) with
  | Some (DeqConsume t _) => goto j (Take t) (on_published (Run j b) c)
  | _ => on_published (Run j b) c
  end.

Definition go_push (j : nat) (b : bool) (p : pc) (c : config) : config :=
  match p with
  | Reserve event =>
      match at_call j (available c) with
      | Some (DeqDone None) => goto j (Done (Pushed full)) c
      | Some (DeqDone (Some i)) => goto j (Construct i event) c
      | _ => on_available (Run j b) c
      end
  | Construct i event =>
      match slots c !!z i, event with
      | Some None, inr e => goto j (Count i e) (with_slot i (Some e) c)
      | Some None, inl e => goto j (GiveBack e) (on_available (StartEnqueue j i false) c)
      | _, _ => goto j Crashed c
      end
  | GiveBack e =>
      match at_call j (available c) with
      | Some EnqDone => goto j (Done (PushThrew e)) c
      | _ => on_available (Run j b) c
      end
  | Count i e =>
      goto j (Publish e) (on_published (StartEnqueue j i false) (with_count (occupied_count c + 1) c))
  | Publish e =>
      match at_call j (published c) with
      | Some EnqDone => goto j (Done (Pushed success)) c
      | _ => publish_access j b e c
      end
  | _ => c
  end.

Definition go_pop (j : nat) (b : bool) (p : pc) (c : config) : config :=
  match p with
  | Take t =>
      match at_call j (published c) with
      | Some (DeqDone None) => goto j (Done (Popped make_empty)) c
      | Some (DeqDone (Some i)) => goto j (MoveOut i t) c
      | _ => take_access j b c
      end
  | MoveOut i t =>
      match slots c !!z i with
      | Some (Some e) => goto j (Release i e) (with_returned (returned c ++ [(t, e)]) (with_slot i None c))
      | _ => goto j Crashed c
      end
  | Release i e =>
      goto j (Free e) (on_available (StartEnqueue j i false) (with_count (occupied_count c - 1) c))
  | Free e =>
      match at_call j (available c) with
      | Some EnqDone => goto j (Done (Popped (make_success e))) c
      | _ => on_available (Run j b) c
      end
  | _ => c
  end.

Definition go (j : nat) (b : bool) (p : pc) (c : config) : config :=
  match p with
  | Reserve _ | Construct _ _ | GiveBack _ | Count _ _ | Publish _ => go_push j b p c
  | Take _ | MoveOut _ _ | Release _ _ | Free _ => go_pop j b p c
  | Done _ | Crashed => c
  end.

Definition step (ch : choice) (c : config) : config :=
  match ch with
  | StartPush j event =>
      match threads c !! j with
      | Some (Done _) => goto j (Reserve event) (on_available (StartDequeue j false) c)
      | _ => c
      end
  | StartPop j =>
      match threads c !! j with
      | Some (Done _) => goto j (Take 0) (on_published (StartDequeue j false) c)
      | _ => c
      end
  | Go j b => match threads c !! j with Some p => go j b p c | None => c end
  end.

Definition run (sched : list choice) (c : config) : config := foldl (fun c ch => step ch c) c sched.

(** A queue of [half r] slots and [n] threads about to call. *)
Definition start (n : nat) : config :=
  mk_config (fresh r true n) (fresh r false n) (replicate (Z.to_nat (half r)) None) 0 (replicate n (Done Ready)) ∅ [].

(** [size()]. *)
Definition size (c : config) : Z := occupied_count c.

End queue.
Arguments outcome : clear implicits.
Arguments pc : clear implicits.
Arguments config : clear implicits.
Arguments choice : clear implicits.

(** ** What a ring keeps between the calls of the queue *)

Section ring_facts.
Context (r : Z) (Hr : 1 <= r <= 59) (n : nat).
Abbreviation half := (half r).

(** No enqueue was told that the ring is not empty. *)
Definition plain (p : IndexRing.pc cell) : Prop :=
  match p with
  | EnqTicket _ known | EnqLoad _ known _ | EnqHead _ known _ _ | EnqCas _ known _ _ => known = false
  | _ => True
  end.

(** After [k] steps. The bounds of [RingFifo] hold if the threads are no more
    than the capacity. *)
Definition ring_ok (k : Z) (q : ring_calls) : Prop :=
  ∃ a, calls q = enc_config r a /\ inv r a /\ config_bd r (half + k) a /\
    length (RingConc.threads a) = n /\ (∀ j p, RingConc.threads a !! j = Some p -> plain p) /\
    (Z.of_nat n <= half -> bounded r a (pending q)).

Lemma plain_step b p a : plain p -> plain (astep r b p a).1.
Proof.
  destruct p; cbn [astep fst plain]; unfold a_enq_inspect, a_deq_inspect, deq_missed; intros; subst;
    repeat case_match; done.
Qed.

Lemma exec_threads a (c : RingConc.config aring cell) : length (RingConc.threads (a_exec r a c)) = length (RingConc.threads c).
Proof.
  destruct a as [j b|j i known|j known]; unfold a_exec, exec; destruct (RingConc.threads c !! j) as [p|]; try done.
  - destruct (astep r b p (the_ring c)). cbn. apply length_insert.
  - destruct (_ && _); [|done]. cbn. apply length_insert.
  - destruct (finished p); [|done]. cbn. apply length_insert.
Qed.

Definition known_false (a : action) : bool :=
  match a with Run _ _ => true | StartEnqueue _ _ known | StartDequeue _ known => negb known end.

Lemma plain_exec a c : known_false a = true -> (∀ j p, RingConc.threads c !! j = Some p -> plain p) ->
  ∀ j p, RingConc.threads (a_exec r a c) !! j = Some p -> plain p.
Proof.
  intros Ha Hc. destruct a as [i b|i index known|i known]; unfold a_exec, exec;
    destruct (RingConc.threads c !! i) as [q|] eqn:Hi; try done.
  - destruct (astep r b q (the_ring c)) as [q' a'] eqn:Hs. cbn.
    intros j p [(<- & <- & _)|[_ Hp]]%list_lookup_insert_Some; [|by eapply Hc].
    replace q' with (astep r b q (the_ring c)).1 by (by rewrite Hs). apply plain_step. by eapply Hc.
  - destruct (_ && _); [|done]. cbn. destruct known; [done|].
    intros j p [(<- & <- & _)|[_ Hp]]%list_lookup_insert_Some; [done|by eapply Hc].
  - destruct (finished q); [|done]. cbn. destruct known; [done|].
    intros j p [(<- & <- & _)|[_ Hp]]%list_lookup_insert_Some; [done|by eapply Hc].
Qed.

Lemma ring_fresh full : ring_ok 0 (fresh r full n).
Proof.
  exists (a_start r full n). split_and!.
  - by apply start_enc.
  - by apply ring_start_inv.
  - rewrite Z.add_0_r. by apply start_bd.
  - apply length_replicate.
  - by intros j p [-> _]%lookup_replicate.
  - intros _. by apply bounded_start.
Qed.

Lemma ring_mono k k' q : k <= k' -> ring_ok k q -> ring_ok k' q.
Proof.
  intros Hk (a & Ha & Hi & [Hb Ht] & Hrest). exists a. split; [done|]. split; [done|]. split; [|done].
  split; [by eapply (ring_bd_mono r (half + k)); [lia|]|]. intros j p Hp. eapply (pc_bd_mono r Hr (half + k)); [lia|]. by eapply Ht.
Qed.

Lemma room k : k <= 2 ^ 60 -> bound_ok (half + k).
Proof. pose proof (size_bound r Hr). pose proof (size_half r Hr). unfold bound_ok. lia. Qed.

Lemma ring_act a k q : ring_ok k q -> 0 <= k <= 2 ^ 60 -> known_false a = true ->
  (Z.of_nat n <= half -> allowed half a (calls q) = true) -> ring_ok (k + 1) (act r a q).
Proof.
  intros (c & Hc & Hi & Hb & Hl & Hp & Hbound) Hk Ha Hal. pose proof (half_pos r Hr). pose proof (room k ltac:(lia)) as HB.
  exists (a_exec r a c). cbn [act calls pending]. unfold ring_exec. rewrite Hc. split_and!.
  - by apply (exec_enc r Hr (half + k)).
  - by apply inv_exec.
  - replace (half + (k + 1)) with (half + k + 1) by lia. apply (exec_bd r Hr); [lia|done].
  - by rewrite exec_threads.
  - by apply plain_exec.
  - intros Hn. rewrite (returning_enc r Hr (half + k)) by done. apply bounded_step; [done|by apply Hbound|].
    rewrite <- (allowed_enc r). rewrite <- Hc. by apply Hal.
Qed.

Lemma hand_enc p : in_hand (enc_pc r p) = in_hand p.
Proof. by destruct p. Qed.

(** ** What an access changes *)

Definition enqueue_call {W} (p : IndexRing.pc W) : bool :=
  enqueuing p || match p with EnqThreshold | EnqRearm | EnqDone => true | _ => false end.
Definition dequeue_call {W} (p : IndexRing.pc W) : bool :=
  dequeuing p || match p with DeqDone _ => true | _ => false end.

(** It stores the index in hand, takes the index of its ticket, or neither. *)
Inductive change (p p' : IndexRing.pc Z) (q q' : RingConc.config ring Z) : Prop :=
  | change_store i t x : p = EnqCas i false t x -> p' = EnqThreshold -> enqueued q !! t = None ->
      enqueued q' = <[t := i]> (enqueued q) -> dequeued q' = dequeued q -> change p p' q q'
  | change_take i t x : p = DeqConsume t x -> p' = DeqDone (Some i) -> enqueued q !! t = Some i ->
      dequeued q !! t = None -> enqueued q' = enqueued q -> dequeued q' = <[t := i]> (dequeued q) -> change p p' q q'
  | change_none : enqueued q' = enqueued q -> dequeued q' = dequeued q -> in_hand p' = in_hand p ->
      (∀ i known t x, p = EnqCas i known t x -> p' <> EnqThreshold) -> (∀ t x, p <> DeqConsume t x) -> change p p' q q'.

Lemma call_kind b p a :
  (enqueue_call p = true -> enqueue_call (astep r b p a).1 = true) /\
  (dequeue_call p = true -> dequeue_call (astep r b p a).1 = true).
Proof.
  destruct p; cbn [astep fst]; unfold a_enq_inspect, a_deq_inspect, deq_missed; split; intros; try done;
    repeat case_match; done.
Qed.

Lemma access_change k c j b p : inv r c -> (∀ i q, RingConc.threads c !! i = Some q -> plain q) ->
  bound_ok (half + k) -> config_bd r (half + k) c -> RingConc.threads c !! j = Some p ->
  change (enc_pc r p) (enc_pc r (astep r b p (the_ring c)).1) (enc_config r c) (enc_config r (a_exec r (Run j b) c)).
Proof.
  intros Hi Hpl HB Hbd Hj. rewrite (run_eq r c j b p Hj). pose proof (Hpl j p Hj) as Hp.
  assert (∀ t, enq_ticket p = Some t -> u64 t = t) as Hte by (intros t Ht; by eapply (enq_ticket_small r Hr (half + k))).
  assert (∀ t, deq_ticket p = Some t -> u64 t = t) as Htd by (intros t Ht; by eapply (owned_ticket_small r Hr (half + k))).
  destruct p; try (by apply change_none).
  - apply change_none; cbn; try done; unfold a_enq_inspect; repeat case_match; done.
  - apply change_none; cbn; try done; repeat case_match; done.
  - destruct (owners_fresh _ _ _ _ (inv_enq _ _ Hi) j _ ticket Hj eq_refl) as [_ Hfresh].
    cbn [plain] in Hp. subst. cbn [astep fst snd a_log_enqueue a_log_dequeue].
    destruct (negb b && _) eqn:Hcas; cbn [fst snd].
    + apply (change_store _ _ _ _ index ticket (enc_cell r entry)); try done. cbn. by rewrite Hte.
    + apply change_none; cbn; try done; unfold a_enq_inspect; repeat case_match; done.
  - apply change_none; cbn; try done; repeat case_match; done.
  - apply change_none; cbn; try done; repeat case_match; done.
  - apply change_none; cbn; try done; unfold a_deq_inspect, deq_missed; repeat case_match; done.
  - destruct (owners_fresh _ _ _ _ (inv_deq _ _ Hi) j _ ticket Hj eq_refl) as [_ Hfresh].
    destruct (inv_pcs _ _ Hi _ _ Hj) as (_ & i & Hv & HE).
    assert (index_bits r entry = i) as Hx by (unfold index_bits; by rewrite Hv).
    apply (change_take _ _ _ _ i ticket (enc_cell r entry)); cbn; rewrite ?Hx, ?Htd; done.
  - apply change_none; cbn; try done; unfold a_deq_inspect, deq_missed; repeat case_match; done.
  - apply change_none; cbn; try done; repeat case_match; done.
  - apply change_none; cbn; try done; repeat case_match; done.
  - apply change_none; cbn; try done; repeat case_match; done.
  - apply change_none; cbn; try done; repeat case_match; done.
Qed.

Lemma run_change k q j b p : ring_ok k q -> 0 <= k <= 2 ^ 60 -> at_call j q = Some p ->
  ∃ p', at_call j (act r (Run j b) q) = Some p' /\ change p p' (calls q) (calls (act r (Run j b) q)) /\
    (enqueue_call p = true -> enqueue_call p' = true) /\ (dequeue_call p = true -> dequeue_call p' = true).
Proof.
  intros (c & Hc & Hi & Hb & Hl & Hp & _) Hk Hj. pose proof (room k ltac:(lia)) as HB.
  unfold at_call in *. cbn [act calls]. unfold ring_exec. rewrite Hc in *. rewrite (exec_enc r Hr (half + k)) by done.
  cbn [enc_config RingConc.threads] in Hj. rewrite list_lookup_fmap in Hj.
  apply fmap_Some in Hj as (pa & Hpa & ->). exists (enc_pc r (astep r b pa (the_ring c)).1). split; [|split].
  - rewrite (run_eq r c j b pa Hpa). cbn. rewrite list_lookup_fmap, list_lookup_insert_eq; [done|]. by eapply lookup_lt_Some.
  - by apply (access_change k).
  - assert (∀ p, enqueue_call (enc_pc r p) = enqueue_call p) as He by (by intros []).
    assert (∀ p, dequeue_call (enc_pc r p) = dequeue_call p) as Hd by (by intros []).
    rewrite !He, !Hd. apply call_kind.
Qed.

Definition actor (a : action) : nat :=
  match a with Run j _ | StartEnqueue j _ _ | StartDequeue j _ => j end.

Lemma act_others a q i : i <> actor a -> at_call i (act r a q) = at_call i q.
Proof.
  unfold at_call. cbn [act calls]. unfold ring_exec, exec. intros Hne.
  destruct a as [k b|k index known|k known]; cbn [actor] in Hne;
    destruct (RingConc.threads (calls q) !! k) as [p|]; try done.
  - destruct (IndexRing.step b p _). cbn. by rewrite list_lookup_insert_ne.
  - destruct (_ && _); [|done]. cbn. by rewrite list_lookup_insert_ne.
  - destruct (finished p); [|done]. cbn. by rewrite list_lookup_insert_ne.
Qed.

(** A call begins. *)
Lemma begin_dequeue q j p : at_call j q = Some p -> finished p = true ->
  at_call j (act r (StartDequeue j false) q) = Some DeqThreshold /\
  enqueued (calls (act r (StartDequeue j false) q)) = enqueued (calls q) /\
  dequeued (calls (act r (StartDequeue j false) q)) = dequeued (calls q).
Proof.
  unfold at_call. cbn [act calls]. unfold ring_exec, exec. intros Hj Hf. rewrite Hj, Hf. cbn. split; [|done].
  apply list_lookup_insert_eq. by eapply lookup_lt_Some.
Qed.

Lemma begin_enqueue q j p i : at_call j q = Some p -> finished p = true -> 0 <= i < half ->
  at_call j (act r (StartEnqueue j i false) q) = Some (EnqTicket i false) /\
  enqueued (calls (act r (StartEnqueue j i false) q)) = enqueued (calls q) /\
  dequeued (calls (act r (StartEnqueue j i false) q)) = dequeued (calls q).
Proof.
  unfold at_call. cbn [act calls]. unfold ring_exec, exec. intros Hj Hf Hi. rewrite Hj, Hf.
  rewrite bool_decide_eq_true_2 by done. cbn. split; [|done].
  apply list_lookup_insert_eq. by eapply lookup_lt_Some.
Qed.

End ring_facts.

(** ** Every slot index in its place *)

Section queue_facts.
Context {E : Type} (r : Z) (Hr : 1 <= r <= 59) (n : nat).
Abbreviation half := (half r).
Implicit Types (c : config E).

Definition hand (j : nat) (q : ring_calls) : list Z := from_option in_hand [] (at_call j q).
Definition tag (o : option E) (l : list Z) : list (Z * option E) := (λ i, (i, o)) <$> l.

(** The index a thread holds, with what its slot contains. *)
Definition held_by c (j : nat) (p : pc E) : list (Z * option E) :=
  match p with
  | Reserve _ | GiveBack _ | Free _ => tag None (hand j (available c))
  | Construct i _ | Release i _ => [(i, None)]
  | Count i e => [(i, Some e)]
  | Publish e => tag (Some e) (hand j (published c))
  | Take t => tag (sent c !! t) (hand j (published c))
  | MoveOut i t => [(i, sent c !! t)]
  | Done _ | Crashed => []
  end.
Definition held c j : list (Z * option E) := from_option (held_by c j) [] (threads c !! j).

Definition in_available c : list (Z * option E) := tag None (map_to_list (stored (available c))).*2.
Definition in_published c : list (Z * option E) :=
  (λ ti, (ti.2, sent c !! ti.1)) <$> map_to_list (stored (published c)).

(** The tickets of events that a pop has taken and not moved out yet. *)
Definition drawn_by c (j : nat) (p : pc E) : list Z :=
  match p with
  | Take t => (λ _, t) <$> hand j (published c)
  | MoveOut _ t => [t]
  | _ => []
  end.
Definition drawn c j : list Z := from_option (drawn_by c j) [] (threads c !! j).
Definition keys {A} (m : gmap Z A) : list Z := (map_to_list m).*1.

(** Events counted in [occupied_count_] outside the published ring. *)
Definition counted_by c (j : nat) (p : pc E) : Z :=
  match p with
  | Publish _ | Take _ => zlength (hand j (published c))
  | MoveOut _ _ | Release _ _ => 1
  | _ => 0
  end.
Definition counted c j : Z := from_option (counted_by c j) 0 (threads c !! j).

Definition shape (p : pc E) (pa pp : IndexRing.pc Z) : bool :=
  match p with
  | Reserve _ => dequeue_call pa && finished pp
  | GiveBack _ | Free _ => enqueue_call pa && finished pp
  | Publish _ => finished pa && enqueue_call pp
  | Take _ => finished pa && dequeue_call pp
  | Done _ | Construct _ _ | Count _ _ | MoveOut _ _ | Release _ _ => finished pa && finished pp
  | Crashed => false
  end.

Definition shaped c j p : Prop :=
  ∃ pa pp, at_call j (available c) = Some pa /\ at_call j (published c) = Some pp /\ shape p pa pp = true.

Definition places c (rest : list (Z * option E)) : Prop :=
  in_available c ++ in_published c ++ rest ≡ₚ numbered None (slots c).
Definition tickets c (rest : list Z) : Prop :=
  (returned c).*1 ++ rest ≡ₚ keys (dequeued (calls (published c))).
Definition stored_events c : Z := Z.of_nat (base.size (stored (published c))).

Record inv (k : Z) c : Prop := {
  inv_available : ring_ok r n k (available c);
  inv_published : ring_ok r n k (published c);
  inv_threads : length (threads c) = n;
  inv_slots : zlength (slots c) = half;
  inv_shape : ∀ j p, threads c !! j = Some p -> shaped c j p;
  inv_places : places c (concat (held c <$> seq 0 n));
  inv_sent : ∀ t, is_Some (sent c !! t) <-> is_Some (enqueued (calls (published c)) !! t);
  inv_tickets : tickets c (concat (drawn c <$> seq 0 n));
  inv_returned : ∀ t e, (t, e) ∈ returned c -> sent c !! t = Some e;
  inv_occupied : occupied_count c = stored_events c + sum_of (counted c) (seq 0 n);
}.

Lemma dequeued_enqueued k q t : ring_ok r n k q -> is_Some (dequeued (calls q) !! t) -> is_Some (enqueued (calls q) !! t).
Proof.
  intros (a & -> & Hi & _) [x Hx]. exists x. cbn in *.
  apply (lookup_weaken _ _ _ _ Hx). apply (slots_sub _ _ _ _ _ (RingConc.inv_slots _ _ Hi)).
Qed.

(** A ticket some pop has drawn belongs to an event that was sent. *)
Lemma drawn_sent k c j t : inv k c -> t ∈ drawn c j -> (j < n)%nat -> is_Some (sent c !! t).
Proof.
  intros Hi Ht Hj. apply (inv_sent _ _ Hi). apply (dequeued_enqueued k); [apply Hi|].
  assert (t ∈ keys (dequeued (calls (published c)))) as Hk.
  { rewrite <- (inv_tickets _ _ Hi). apply elem_of_app. right. apply list_elem_of_In, in_concat.
    exists (drawn c j). split; [|by apply list_elem_of_In]. apply list_elem_of_In, list_elem_of_fmap.
    exists j. split; [done|]. apply elem_of_seq. lia. }
  unfold keys in Hk. apply list_elem_of_fmap in Hk as ([t' x] & -> & Hx%elem_of_map_to_list). by exists x.
Qed.

(** What the other threads hold stays. *)
Lemma others_same k c c' j : inv k c -> (∀ i, i <> j -> threads c' !! i = threads c !! i) ->
  (∀ i, i <> j -> at_call i (available c') = at_call i (available c)) ->
  (∀ i, i <> j -> at_call i (published c') = at_call i (published c)) ->
  (∀ t e, sent c !! t = Some e -> sent c' !! t = Some e) ->
  ∀ i, i <> j -> drawn c i = drawn c' i /\ held c i = held c' i /\ counted c i = counted c' i.
Proof.
  intros Hi Hto Hoa Hop Hsent i Hne. pose proof (drawn_sent k c i) as Hdr. unfold drawn, held, counted in *.
  rewrite Hto by done. destruct (threads c !! i) as [q|] eqn:Hq; [|done]. cbn [from_option] in *.
  assert (i < n)%nat as Hin by (rewrite <- (inv_threads _ _ Hi); by eapply lookup_lt_Some).
  assert (∀ t, t ∈ drawn_by c i q -> sent c' !! t = sent c !! t) as Hs.
  { intros t Ht. destruct (Hdr t Hi Ht Hin) as [e He]. by rewrite He, (Hsent _ _ He). }
  destruct q; cbn [held_by drawn_by counted_by] in *; unfold hand in *; rewrite ?Hoa, ?Hop by done;
    split_and!; try done.
  - unfold tag. apply list_fmap_ext. intros m x Hx. rewrite Hs; [done|].
    apply list_elem_of_fmap. exists x. split; [done|]. by eapply list_elem_of_lookup_2.
  - rewrite Hs; [done|]. by left.
Qed.

(** A step of one thread: what it has to show. *)
Lemma inv_update k c c' j p p' :
  inv k c -> threads c !! j = Some p -> threads c' = <[j := p']> (threads c) ->
  ring_ok r n (k + 1) (available c') -> ring_ok r n (k + 1) (published c') -> zlength (slots c') = half ->
  (∀ i, i <> j -> at_call i (available c') = at_call i (available c)) ->
  (∀ i, i <> j -> at_call i (published c') = at_call i (published c)) ->
  shaped c' j p' -> (∀ t e, sent c !! t = Some e -> sent c' !! t = Some e) ->
  (∀ t, is_Some (sent c' !! t) <-> is_Some (enqueued (calls (published c')) !! t)) ->
  (∀ rest, places c (held_by c j p ++ rest) -> places c' (held_by c' j p' ++ rest)) ->
  (∀ rest, tickets c (drawn_by c j p ++ rest) -> tickets c' (drawn_by c' j p' ++ rest)) ->
  (∀ t e, (t, e) ∈ returned c' -> (t, e) ∈ returned c \/ sent c' !! t = Some e) ->
  occupied_count c' - stored_events c' - counted_by c' j p' = occupied_count c - stored_events c - counted_by c j p ->
  inv (k + 1) c'.
Proof.
  intros Hi Hj Hts Ha Hp Hs Hoa Hop Hsh Hsent Hsent' Hpl Htk Hret Hocc.
  assert (j < n)%nat as Hjn by (rewrite <- (inv_threads _ _ Hi); by eapply lookup_lt_Some).
  assert (∀ i, i <> j -> threads c' !! i = threads c !! i) as Hto by (intros i Hne; by rewrite Hts, list_lookup_insert_ne).
  assert (threads c' !! j = Some p') as Hj'.
  { rewrite Hts. apply list_lookup_insert_eq. by rewrite (inv_threads _ _ Hi). }
  pose proof (others_same k c c' j Hi Hto Hoa Hop Hsent) as Hsame.
  assert (∀ i, i <> j -> drawn c i = drawn c' i) as Hd by (intros; by apply Hsame).
  assert (∀ i, i <> j -> held c i = held c' i) as Hhe by (intros; by apply Hsame).
  assert (∀ i, i <> j -> counted c i = counted c' i) as Hco by (intros; by apply Hsame).
  assert (held c j = held_by c j p /\ held c' j = held_by c' j p') as [Eh Eh'] by (unfold held; by rewrite Hj, Hj').
  assert (drawn c j = drawn_by c j p /\ drawn c' j = drawn_by c' j p') as [Ed Ed'] by (unfold drawn; by rewrite Hj, Hj').
  assert (counted c j = counted_by c j p /\ counted c' j = counted_by c' j p') as [Ec Ec'] by (unfold counted; by rewrite Hj, Hj').
  split; try done.
  - rewrite Hts, length_insert. apply Hi.
  - intros i q Hq. destruct (decide (i = j)) as [->|Hne]; [congruence|]. rewrite Hto in Hq by done.
    destruct (inv_shape _ _ Hi i q Hq) as (pa & pp & H1 & H2 & H3). exists pa, pp. by rewrite Hoa, Hop.
  - destruct (family_update (held c) (held c') n j Hjn Hhe) as (rest & P1 & P2). rewrite Eh in P1. rewrite Eh' in P2.
    unfold places. rewrite P2. apply Hpl. unfold places. rewrite <- P1. apply Hi.
  - destruct (family_update (drawn c) (drawn c') n j Hjn Hd) as (rest & P1 & P2). rewrite Ed in P1. rewrite Ed' in P2.
    unfold tickets. rewrite P2. apply Htk. unfold tickets. rewrite <- P1. apply Hi.
  - intros t e [Hin|?]%Hret; [|done]. apply Hsent. by apply (inv_returned _ _ Hi).
  - rewrite (sum_update (counted c) (counted c') n j Hjn Hco), Ec, Ec'. pose proof (inv_occupied _ _ Hi). lia.
Qed.

(** ** What the places of the indices tell *)

Lemma held_slot k c j p i o : inv k c -> threads c !! j = Some p -> (i, o) ∈ held_by c j p ->
  slots c !!z i = Some o /\ 0 <= i < half.
Proof.
  intros Hi Hj Hin. assert (slots c !!z i = Some o) as Hs.
  { apply (numbered_lookup None). rewrite <- (inv_places _ _ Hi). rewrite !elem_of_app. right; right.
    apply list_elem_of_In, in_concat. exists (held c j). split; apply list_elem_of_In.
    - apply list_elem_of_fmap. exists j. split; [done|]. apply elem_of_seq. apply lookup_lt_Some in Hj.
      rewrite (inv_threads _ _ Hi) in Hj. lia.
    - unfold held. by rewrite Hj. }
  split; [done|]. apply zlookup_range in Hs. rewrite (inv_slots _ _ Hi) in Hs. lia.
Qed.

Lemma stored_length (q : ring_calls) : zlength (map_to_list (stored q)) = Z.of_nat (base.size (stored q)).
Proof. unfold zlength. by rewrite length_map_to_list. Qed.

(** All slots are accounted for. *)
Lemma all_slots k c : inv k c ->
  Z.of_nat (base.size (stored (available c))) + stored_events c + sum_of (λ i, zlength (held c i)) (seq 0 n) = half.
Proof.
  intros Hi. pose proof (inv_places _ _ Hi) as Hp. unfold places in Hp. apply Permutation_length in Hp.
  assert (zlength (in_available c ++ in_published c ++ concat (held c <$> seq 0 n)) = half) as Hz.
  { unfold zlength. rewrite Hp. fold (zlength (numbered None (slots c))). unfold numbered.
    rewrite zlength_fmap, zlength_seqZ, (inv_slots _ _ Hi); [done|]. pose proof (zlength_nonneg (slots c)). lia. }
  rewrite !zlength_app, zlength_concat in Hz. unfold in_available, in_published, tag in Hz.
  rewrite !zlength_fmap, !stored_length in Hz. unfold stored_events. lia.
Qed.

Lemma thread_of k c i : inv k c -> (i < n)%nat -> ∃ p, threads c !! i = Some p /\ shaped c i p.
Proof.
  intros Hi Hn. rewrite <- (inv_threads _ _ Hi) in Hn. apply lookup_lt_is_Some in Hn as [p Hp].
  exists p. split; [done|]. by apply (inv_shape _ _ Hi).
Qed.

Lemma hand_nonneg i q : 0 <= zlength (hand i q).
Proof. apply zlength_nonneg. Qed.

Lemma counted_held c i p : 0 <= counted_by c i p <= zlength (held_by c i p).
Proof.
  pose proof (hand_nonneg i (available c)). pose proof (hand_nonneg i (published c)).
  destruct p; cbn [counted_by held_by]; unfold tag; rewrite ?zlength_fmap, ?zlength_cons; try lia; zlen_nil; lia.
Qed.

(** The counter stays below the capacity, with room for an index in hand
    that it does not count. *)
Lemma occupied_room k c j p : inv k c -> threads c !! j = Some p ->
  0 <= counted_by c j p <= occupied_count c /\
  occupied_count c + zlength (held_by c j p) - counted_by c j p <= half.
Proof.
  intros Hi Hj. pose proof (all_slots k c Hi) as Hall. rewrite (inv_occupied _ _ Hi).
  assert (j ∈ seq 0 n) as Hin.
  { apply elem_of_seq. apply lookup_lt_Some in Hj. rewrite (inv_threads _ _ Hi) in Hj. lia. }
  assert (∀ i, 0 <= counted c i <= zlength (held c i)) as Hle.
  { intros i. unfold counted, held. destruct (threads c !! i) as [q|]; cbn; [apply counted_held|by zlen_nil]. }
  pose proof (sum_of_le_at (counted c) (λ i, zlength (held c i)) (seq 0 n) j
    (zlength (held_by c j p) - counted_by c j p) ltac:(intros i _; apply Hle) Hin) as Hs.
  pose proof (sum_of_elem (counted c) (seq 0 n) j ltac:(intros i; apply Hle) Hin) as Hc.
  pose proof (counted_held c j p). unfold held, counted in Hs, Hc. rewrite Hj in Hs, Hc. cbn [from_option] in Hs, Hc.
  unfold stored_events in *. unfold counted, held in *. lia.
Qed.

(** The bounds of [RingFifo] hold for the calls of the queue. *)
Lemma ring_numbers (f : IndexRing.pc Z -> bool) k q : ring_ok r n k q ->
  number f (RingConc.threads (calls q)) = sum_of (λ i, from_option (λ p, Z.b2z (f p)) 0 (at_call i q)) (seq 0 n).
Proof.
  intros (a & Ha & _ & _ & Hl & _). unfold number. rewrite sum_by_position. f_equal. f_equal.
  rewrite Ha. cbn [enc_config RingConc.threads]. by rewrite length_fmap.
Qed.

Lemma in_range k q j p : ring_ok r n k q -> at_call j q = Some p -> j ∈ seq 0 n.
Proof.
  intros (a & Ha & _ & _ & Hl & _) Hj. apply elem_of_seq. unfold at_call in Hj. rewrite Ha in Hj. cbn in Hj.
  apply lookup_lt_Some in Hj. rewrite length_fmap in Hj. lia.
Qed.

Lemma may_dequeue k q j p : ring_ok r n k q -> at_call j q = Some p -> dequeuing p = false ->
  Z.of_nat n <= half -> allowed half (StartDequeue j false) (calls q) = true.
Proof.
  intros Hq Hj Hp Hn. cbn. apply Z.ltb_lt. unfold working. rewrite (ring_numbers _ k) by done.
  pose proof (sum_of_le_at (λ i, from_option (λ p, Z.b2z (dequeuing p)) 0 (at_call i q)) (λ _, 1) (seq 0 n) j 1) as Hs.
  pose proof (sum_of_bound (λ _ : nat, 1) (seq 0 n) 1 ltac:(done)) as Hb. unfold zlength in Hb. rewrite length_seq in Hb.
  enough (sum_of (λ i, from_option (λ p, Z.b2z (dequeuing p)) 0 (at_call i q)) (seq 0 n) + 1 <= sum_of (λ _, 1) (seq 0 n)) by lia.
  apply Hs; [|by eapply in_range|rewrite Hj; cbn; rewrite Hp; cbn; lia|lia].
  intros i _. destruct (at_call i q) as [p'|]; cbn; [by destruct (dequeuing p')|lia].
Qed.

Lemma finished_idle {W} (p : IndexRing.pc W) : finished p = true -> enqueuing p = false /\ dequeuing p = false.
Proof. by destruct p. Qed.
Lemma dequeue_idle {W} (p : IndexRing.pc W) : dequeue_call p = true -> enqueuing p = false.
Proof. by destruct p. Qed.
Lemma enqueuing_hand {W} (p : IndexRing.pc W) : enqueuing p = true -> zlength (in_hand p) = 1.
Proof. by destruct p. Qed.

(** A thread inside an enqueue holds its index. *)
Lemma enqueuing_held c j p pa pp : at_call j (available c) = Some pa -> at_call j (published c) = Some pp ->
  shape p pa pp = true -> enqueuing pa = true \/ enqueuing pp = true -> zlength (held_by c j p) = 1.
Proof.
  intros Ha Hp Hs He. destruct p; cbn [shape held_by] in *; try done; apply andb_true_iff in Hs as [H1 H2];
    unfold tag, hand; rewrite ?zlength_fmap, ?Ha, ?Hp; cbn [from_option];
    try (apply finished_idle in H1 as [H1 _]); try (apply finished_idle in H2 as [H2 _]);
    try (apply dequeue_idle in H1); try (apply dequeue_idle in H2);
    destruct He as [He|He]; try congruence; by apply enqueuing_hand.
Qed.

(** An index in hand is not yet one of the ring's. *)
Lemma may_store k c j p q : inv k c -> q = available c \/ q = published c -> threads c !! j = Some p ->
  zlength (held_by c j p) = 1 -> (∀ p', at_call j q = Some p' -> enqueuing p' = false) -> ∀ i,
  allowed half (StartEnqueue j i false) (calls q) = true.
Proof.
  intros Hi Hq Hj Hh Hp i. cbn. apply Z.ltb_lt. unfold RingFifo.held.
  assert (ring_ok r n k q) as Hrq by (destruct Hq as [-> | ->]; apply Hi). rewrite (ring_numbers _ k) by done.
  pose proof (all_slots k c Hi) as Hall. fold (stored q).
  assert (Z.of_nat (base.size (stored q)) <= Z.of_nat (base.size (stored (available c))) + stored_events c) as Hst
    by (unfold stored_events; destruct Hq as [-> | ->]; lia).
  enough (sum_of (λ i, from_option (λ p, Z.b2z (enqueuing p)) 0 (at_call i q)) (seq 0 n) + 1 <=
    sum_of (λ i, zlength (held c i)) (seq 0 n)) by lia.
  apply (sum_of_le_at _ _ _ j); [| | |lia].
  - intros m Hm%elem_of_seq. destruct (thread_of k c m Hi ltac:(lia)) as (t & Ht & pa & pp & Ha & Hpp & Hs).
    unfold held. rewrite Ht. cbn [from_option].
    assert (∀ p', at_call m q = Some p' -> enqueuing p' = true -> 1 <= zlength (held_by c m t)) as H1.
    { intros p' Hp' He. rewrite (enqueuing_held c m t pa pp Ha Hpp Hs); [lia|].
      destruct Hq as [-> | ->]; [left|right]; congruence. }
    destruct (at_call m q) as [p'|] eqn:Hp'; cbn [from_option]; [|apply zlength_nonneg].
    destruct (enqueuing p') eqn:He; cbn; [by eapply H1|apply zlength_nonneg].
  - apply elem_of_seq. apply lookup_lt_Some in Hj. rewrite (inv_threads _ _ Hi) in Hj. lia.
  - unfold held. rewrite Hj. cbn [from_option]. rewrite Hh.
    destruct (at_call j q) as [p'|]; cbn [from_option]; [|lia]. rewrite (Hp p') by done. cbn. lia.
Qed.

(** ** Accesses and the places *)

Lemma ring_later k q : ring_ok r n k q -> ring_ok r n (k + 1) q.
Proof. apply ring_mono; [done|lia]. Qed.

Definition ptags (s : gmap Z E) (m : gmap Z Z) : list (Z * option E) := (λ ti, (ti.2, s !! ti.1)) <$> map_to_list m.

Lemma ptags_store s m t i e : m !! t = None -> ptags (<[t := e]> s) (<[t := i]> m) ≡ₚ (i, Some e) :: ptags s m.
Proof.
  intros Hm. unfold ptags. rewrite map_to_list_insert by done. cbn. rewrite lookup_insert_eq. f_equiv.
  assert ((λ ti : Z * Z, (ti.2, <[t := e]> s !! ti.1)) <$> map_to_list m = (λ ti, (ti.2, s !! ti.1)) <$> map_to_list m) as ->; [|done].
  apply list_fmap_ext. intros k [t' i'] Hk. apply list_elem_of_lookup_2, elem_of_map_to_list in Hk. cbn.
  rewrite lookup_insert_ne; [done|]. intros ->. congruence.
Qed.

Lemma ptags_take s m t i : m !! t = Some i -> ptags s m ≡ₚ (i, s !! t) :: ptags s (delete t m).
Proof. intros Hm. unfold ptags. by rewrite <- (map_to_list_delete m t i). Qed.

Lemma keys_insert {A} (m : gmap Z A) t x : m !! t = None -> keys (<[t := x]> m) ≡ₚ t :: keys m.
Proof. intros Hm. unfold keys. by rewrite map_to_list_insert. Qed.

(** What a change does to the indices in the ring. *)
Lemma stored_change p p' q q' : change p p' (calls q) (calls q') -> dequeued (calls q) ⊆ enqueued (calls q) ->
  (∃ i t x, p = EnqCas i false t x /\ p' = EnqThreshold /\ enqueued (calls q) !! t = None /\
    enqueued (calls q') = <[t := i]> (enqueued (calls q)) /\ dequeued (calls q') = dequeued (calls q) /\
    stored q !! t = None /\ stored q' = <[t := i]> (stored q)) \/
  (∃ i t x, p = DeqConsume t x /\ p' = DeqDone (Some i) /\ dequeued (calls q) !! t = None /\
    enqueued (calls q') = enqueued (calls q) /\ dequeued (calls q') = <[t := i]> (dequeued (calls q)) /\
    stored q !! t = Some i /\ stored q' = delete t (stored q)) \/
  (enqueued (calls q') = enqueued (calls q) /\ dequeued (calls q') = dequeued (calls q) /\ in_hand p' = in_hand p /\
   stored q' = stored q /\ (∀ i known t x, p = EnqCas i known t x -> p' <> EnqThreshold) /\ (∀ t x, p <> DeqConsume t x)).
Proof.
  intros Hc Hsub. unfold stored. destruct Hc as [i t x -> -> Hf HE HD|i t x -> -> Hi Hf HE HD|HE HD Hh Hn1 Hn2].
  - left. exists i, t, x. split_and!; try done.
    + apply lookup_difference_None. by left.
    + rewrite HE, HD. apply map_eq. intros u. destruct (decide (u = t)) as [->|Hne].
      * rewrite lookup_insert_eq. apply lookup_difference_Some. rewrite lookup_insert_eq. split; [done|].
        apply eq_None_not_Some. intros [y Hy]. pose proof (lookup_weaken _ _ _ _ Hy Hsub). congruence.
      * rewrite lookup_insert_ne by done. rewrite !lookup_difference, lookup_insert_ne by done. done.
  - right; left. exists i, t, x. split_and!; try done.
    + by apply lookup_difference_Some.
    + rewrite HE, HD. apply map_eq. intros u. destruct (decide (u = t)) as [->|Hne].
      * rewrite lookup_delete_eq. apply lookup_difference_None. right. rewrite lookup_insert_eq. by eexists.
      * rewrite lookup_delete_ne by done. rewrite !lookup_difference, lookup_insert_ne by done. done.
  - right; right. rewrite HE, HD. done.
Qed.

Lemma ring_sub k q : ring_ok r n k q -> dequeued (calls q) ⊆ enqueued (calls q).
Proof. intros (a & -> & Hi & _). apply (slots_sub _ _ _ _ _ (RingConc.inv_slots _ _ Hi)). Qed.

(** An index moves between the available ring and a hand. *)
Lemma values_change p p' q q' : change p p' (calls q) (calls q') -> dequeued (calls q) ⊆ enqueued (calls q) ->
  (map_to_list (stored q')).*2 ++ in_hand p' ≡ₚ (map_to_list (stored q)).*2 ++ in_hand p.
Proof.
  intros Hc Hsub. destruct (stored_change p p' q q' Hc Hsub) as
    [(i & t & x & -> & -> & _ & _ & _ & Hn & ->)|[(i & t & x & -> & -> & _ & _ & _ & Hn & ->)|(_ & _ & -> & -> & _)]]; cbn [in_hand].
  - rewrite map_to_list_insert by done. rewrite fmap_cons, app_nil_r. cbn. apply Permutation_cons_append.
  - rewrite <- (map_to_list_delete (stored q) t i Hn). cbn. rewrite app_nil_r. symmetry. apply Permutation_cons_append.
  - done.
Qed.

(** ** Each step keeps the invariant *)

Context (k : Z) (Hk : 0 <= k <= 2 ^ 60).

Lemma inv_run_available c j b p : inv k c -> threads c !! j = Some p ->
  match p with Reserve _ | GiveBack _ | Free _ => true | _ => false end = true ->
  inv (k + 1) (on_available r (Run j b) c).
Proof.
  intros Hi Hj Hp. destruct (inv_shape _ _ Hi j p Hj) as (pa & pp & Ha & Hpp & Hs).
  destruct (run_change r Hr n k (available c) j b pa (inv_available _ _ Hi) Hk Ha) as (pa' & Ha' & Hc & He & Hd).
  pose proof (values_change _ _ _ _ Hc (ring_sub k _ (inv_available _ _ Hi))) as Hv.
  assert (held_by c j p = tag None (in_hand pa) /\ held_by (on_available r (Run j b) c) j p = tag None (in_hand pa') /\
    drawn_by c j p = [] /\ drawn_by (on_available r (Run j b) c) j p = [] /\
    counted_by c j p = 0 /\ counted_by (on_available r (Run j b) c) j p = 0) as (H1 & H2 & H3 & H4 & H5 & H6)
    by (destruct p; try done; cbn [held_by drawn_by counted_by on_available available]; unfold hand; by rewrite Ha, Ha').
  apply (inv_update k c _ j p p); try done; cbn [on_available available published slots threads sent returned occupied_count].
  - by rewrite list_insert_id.
  - apply ring_act; try done. apply Hi.
  - apply ring_later, Hi.
  - apply Hi.
  - intros i Hne. by apply act_others.
  - exists pa', pp. split; [done|]. split; [done|].
    destruct p; try done; cbn [shape] in *; apply andb_true_iff in Hs as [Hs1 Hs2]; apply andb_true_iff; auto.
  - apply Hi.
  - intros rest. unfold places. rewrite H1, H2. unfold in_available, in_published, tag. cbn [available published slots sent].
    intros <-. apply perm_across. rewrite <- !fmap_app. by apply fmap_Permutation.
  - intros t e Hin. by left.
Qed.

(** An access on the published ring that leaves its indices where they are. *)
Lemma inv_run_published c j b p pp pp' : inv k c -> threads c !! j = Some p ->
  match p with Publish _ | Take _ => true | _ => false end = true ->
  at_call j (published c) = Some pp -> at_call j (act r (Run j b) (published c)) = Some pp' ->
  enqueued (calls (act r (Run j b) (published c))) = enqueued (calls (published c)) ->
  dequeued (calls (act r (Run j b) (published c))) = dequeued (calls (published c)) ->
  in_hand pp' = in_hand pp -> stored (act r (Run j b) (published c)) = stored (published c) ->
  (∀ pa, at_call j (available c) = Some pa -> shape p pa pp = true -> shape p pa pp' = true) ->
  inv (k + 1) (on_published r (Run j b) c).
Proof.
  intros Hi Hj Hp Hpp Hpp' HE HD Hh Hst Hsh. destruct (inv_shape _ _ Hi j _ Hj) as (pa & pp0 & Ha & H0 & Hs).
  rewrite Hpp in H0. injection H0 as <-.
  apply (inv_update k c _ j p p); try done; cbn [on_published available published slots threads sent returned occupied_count].
  - by rewrite list_insert_id.
  - apply ring_later, Hi.
  - apply ring_act; try done. apply Hi.
  - apply Hi.
  - intros m Hne. by apply act_others.
  - exists pa, pp'. auto.
  - intros u. rewrite HE. apply Hi.
  - intros rest. unfold places, in_available, in_published. destruct p; try done; cbn [held_by available published slots sent on_published];
      unfold hand; by rewrite Hpp, Hpp', Hst; cbn [from_option]; rewrite Hh.
  - intros rest. unfold tickets. destruct p; try done; cbn [on_published published returned drawn_by];
      unfold hand; rewrite ?Hpp, ?Hpp', HD; cbn [from_option]; by rewrite ?Hh.
  - intros u e' Hin. by left.
  - unfold stored_events. destruct p; try done; cbn [on_published published counted_by]; unfold hand; rewrite Hst, Hpp, Hpp';
      cbn; by rewrite Hh.
Qed.

(** An access of a publication; storing the index sends the event. *)
Lemma inv_publish_access c j b e : inv k c -> threads c !! j = Some (Publish e) ->
  inv (k + 1) (publish_access r j b e c).
Proof.
  intros Hi Hj. destruct (inv_shape _ _ Hi j _ Hj) as (pa & pp & Ha & Hpp & Hs). cbn [shape] in Hs.
  apply andb_true_iff in Hs as [Hs1 Hs2].
  destruct (run_change r Hr n k (published c) j b pp (inv_published _ _ Hi) Hk Hpp) as (pp' & Hpp' & Hc & He & _).
  pose proof (ring_sub k _ (inv_published _ _ Hi)) as Hsub.
  assert (publish_access r j b e c = match pp, pp' with
    | EnqCas _ _ t _, EnqThreshold => with_sent (<[t := e]> (sent c)) (on_published r (Run j b) c)
    | _, _ => on_published r (Run j b) c end) as Hq.
  { unfold publish_access. rewrite Hpp. cbn [on_published published]. by rewrite Hpp'. }
  assert (ring_ok r n (k + 1) (act r (Run j b) (published c))) as Hring by (apply ring_act; try done; apply Hi).
  destruct (stored_change pp pp' (published c) (act r (Run j b) (published c)) Hc Hsub) as
    [(i & t & x & -> & -> & Hf & HE & HD & Hn & Hst)|[(i & t & x & -> & _)|(HE & HD & Hh & Hst & Hn & _)]]; [|done|].
  - rewrite Hq. assert (sent c !! t = None) as Hs0.
    { apply eq_None_not_Some. intros Hs0%(inv_sent _ _ Hi). rewrite Hf in Hs0. by destruct Hs0. }
    apply (inv_update k c _ j (Publish e) (Publish e)); try done;
      cbn [with_sent on_published available published slots threads sent returned occupied_count].
    + by rewrite list_insert_id.
    + apply ring_later, Hi.
    + apply Hi.
    + intros m Hne. by apply act_others.
    + exists pa, EnqThreshold. split; [done|]. split; [done|]. cbn. by rewrite Hs1.
    + intros u e' Hu. rewrite lookup_insert_ne; [done|]. congruence.
    + intros u. rewrite HE, !lookup_insert_is_Some, (inv_sent _ _ Hi). done.
    + intros rest. unfold places. cbn [held_by available published slots sent with_sent on_published].
      unfold in_available, in_published, hand. cbn [available published sent with_sent on_published].
      rewrite Hpp, Hpp', Hst. cbn [from_option in_hand tag]. fold (ptags (sent c) (stored (published c))).
      intros <-. fold (ptags (<[t := e]> (sent c)) (<[t := i]> (stored (published c)))).
      rewrite ptags_store by done. cbn. f_equiv. by rewrite <- Permutation_middle.
    + intros rest. unfold tickets. cbn [with_sent on_published published returned drawn_by]. by rewrite HD.
    + intros u e' Hin. by left.
    + unfold stored_events, hand. cbn [with_sent on_published published counted_by]. unfold hand. rewrite Hst, Hpp, Hpp', map_size_insert_None by done. cbn.
      zlen.
  - assert (publish_access r j b e c = on_published r (Run j b) c) as ->.
    { rewrite Hq. destruct pp; try done. by destruct pp'. }
    apply (inv_run_published c j b (Publish e) pp pp'); try done. intros pa' _. cbn [shape].
    intros [-> Hx]%andb_true_iff. by rewrite He.
Qed.

(** An access of a pop's dequeue; taking the index draws its ticket. *)
Lemma inv_take_access c j b t0 : inv k c -> threads c !! j = Some (Take t0) -> inv (k + 1) (take_access r j b c).
Proof.
  intros Hi Hj. destruct (inv_shape _ _ Hi j _ Hj) as (pa & pp & Ha & Hpp & Hs). cbn [shape] in Hs.
  apply andb_true_iff in Hs as [Hs1 Hs2].
  destruct (run_change r Hr n k (published c) j b pp (inv_published _ _ Hi) Hk Hpp) as (pp' & Hpp' & Hc & _ & Hd).
  pose proof (ring_sub k _ (inv_published _ _ Hi)) as Hsub.
  assert (ring_ok r n (k + 1) (act r (Run j b) (published c))) as Hring by (apply ring_act; try done; apply Hi).
  destruct (stored_change pp pp' (published c) (act r (Run j b) (published c)) Hc Hsub) as
    [(i & t & x & -> & _)|[(i & t & x & -> & -> & Hf & HE & HD & Hn & Hst)|(HE & HD & Hh & Hst & _ & Hn)]]; [done| |].
  - unfold take_access. rewrite Hpp.
    apply (inv_update k c _ j (Take t0) (Take t)); try done;
      cbn [goto on_published available published slots threads sent returned occupied_count].
    + apply ring_later, Hi.
    + apply Hi.
    + intros m Hne. by apply act_others.
    + exists pa, (DeqDone (Some i)). split; [done|]. split; [done|]. cbn. by rewrite Hs1.
    + intros u. rewrite HE. apply Hi.
    + intros rest. unfold places. cbn [held_by available published slots sent goto on_published].
      unfold in_available, in_published, hand. cbn [available published sent goto on_published].
      rewrite Hpp, Hpp', Hst. cbn [from_option in_hand tag fmap list_fmap app].
      fold (ptags (sent c) (stored (published c))). fold (ptags (sent c) (delete t (stored (published c)))).
      intros <-. rewrite (ptags_take _ _ t i Hn). cbn. f_equiv. by rewrite <- Permutation_middle.
    + intros rest. unfold tickets. cbn [goto on_published published returned drawn_by]. unfold hand.
      cbn [goto on_published published]. rewrite Hpp, Hpp', HD, keys_insert by done. cbn. intros <-.
      symmetry. apply Permutation_middle.
    + intros u e' Hin. by left.
    + unfold stored_events. cbn [goto on_published published counted_by]. unfold hand. cbn [goto published on_published].
      rewrite Hst, Hpp, Hpp'. cbn [from_option in_hand]. zlen_nil. rewrite zlength_cons. zlen_nil.
      assert (base.size (stored (published c)) = S (base.size (delete t (stored (published c))))) as ->; [|lia].
      rewrite <- (map_size_insert_None t i) by apply lookup_delete_eq. by rewrite insert_delete_id.
  - assert (take_access r j b c = on_published r (Run j b) c) as ->.
    { unfold take_access. rewrite Hpp. destruct pp; try done. by destruct (Hn ticket entry eq_refl). }
    apply (inv_run_published c j b (Take t0) pp pp'); try done. intros pa' _. cbn [shape].
    intros [-> Hx]%andb_true_iff. by rewrite Hd.
Qed.

(** A thread that goes on with the same index in hand. *)
Lemma inv_elsewhere c j p p' : inv k c -> threads c !! j = Some p -> shaped c j p' ->
  held_by c j p' = held_by c j p -> drawn_by c j p' = drawn_by c j p -> counted_by c j p' = counted_by c j p ->
  inv (k + 1) (goto j p' c).
Proof.
  intros Hi Hj Hs Hh Hd Hc. apply (inv_update k c _ j p p'); try done; cbn [goto available published slots threads].
  - apply ring_later, Hi.
  - apply ring_later, Hi.
  - apply Hi.
  - apply Hi.
  - intros rest. unfold places. change (held_by (goto j p' c) j p') with (held_by c j p'). by rewrite Hh.
  - intros rest. unfold tickets. change (drawn_by (goto j p' c) j p') with (drawn_by c j p'). by rewrite Hd.
  - intros t e Hin. by left.
  - change (counted_by (goto j p' c) j p') with (counted_by c j p'). rewrite Hc. done.
Qed.

(** A ring call begins, with the index its thread holds. *)
Definition begins (a : action) (j : nat) (x : IndexRing.pc Z) (q : ring_calls) : Prop :=
  actor a = j /\ known_false a = true /\ (Z.of_nat n <= half -> allowed half a (calls q) = true) /\
  at_call j (act r a q) = Some x /\ enqueued (calls (act r a q)) = enqueued (calls q) /\
  dequeued (calls (act r a q)) = dequeued (calls q).

Lemma begins_stored a j x q : begins a j x q -> stored (act r a q) = stored q.
Proof. intros (_ & _ & _ & _ & HE & HD). unfold stored. by rewrite HE, HD. Qed.

Lemma begins_dequeue q j p : ring_ok r n k q -> at_call j q = Some p -> finished p = true ->
  begins (StartDequeue j false) j DeqThreshold q.
Proof.
  intros Hq Hj Hf. destruct (begin_dequeue r q j p Hj Hf) as (H1 & H2 & H3). split_and!; try done.
  intros Hn. apply (may_dequeue k q j p); try done. by apply finished_idle.
Qed.

Lemma begins_enqueue c q j p p' i o : inv k c -> q = available c \/ q = published c -> threads c !! j = Some p ->
  held_by c j p = [(i, o)] -> at_call j q = Some p' -> finished p' = true ->
  begins (StartEnqueue j i false) j (EnqTicket i false) q.
Proof.
  intros Hi Hq Hj Hh Hp Hf. assert (0 <= i < half) as Hir.
  { apply (held_slot k c j p i o Hi Hj). rewrite Hh. by left. }
  destruct (begin_enqueue r q j p' i Hp Hf Hir) as (H1 & H2 & H3). split_and!; try done.
  intros Hn. apply (may_store k c j p q); try done; [by rewrite Hh|].
  intros p1 Hp1. rewrite Hp in Hp1. injection Hp1 as <-. by apply finished_idle.
Qed.

Lemma inv_begin_available c j p p' a x m : inv k c -> threads c !! j = Some p -> begins a j x (available c) ->
  let c' := mk_config (act r a (available c)) (published c) (slots c) m (<[j := p']> (threads c)) (sent c) (returned c) in
  (∀ pp, at_call j (published c) = Some pp -> finished pp = true -> shape p' x pp = true) ->
  (∀ pa pp, shape p pa pp = true -> finished pp = true) ->
  held_by c' j p' = held_by c j p -> drawn_by c' j p' = drawn_by c j p ->
  m - counted_by c' j p' = occupied_count c - counted_by c j p -> inv (k + 1) c'.
Proof.
  intros Hi Hj Hb c' Hsh Hfin Hh Hd Hm. destruct (inv_shape _ _ Hi j p Hj) as (pa & pp & Ha & Hpp & Hs).
  pose proof (begins_stored _ _ _ _ Hb) as Hst. destruct Hb as (Hact & Hkn & Hal & Hx & HE & HD).
  apply (inv_update k c c' j p p'); try done; cbn [c' available published slots threads sent returned occupied_count].
  - apply ring_act; try done. apply Hi.
  - apply ring_later, Hi.
  - apply Hi.
  - intros i Hne. apply act_others. congruence.
  - exists x, pp. split; [done|]. split; [done|]. apply Hsh; [done|]. by eapply Hfin.
  - apply Hi.
  - intros rest. unfold places. rewrite Hh. unfold in_available, in_published. cbn [c' available published sent slots]. by rewrite Hst.
  - intros rest. unfold tickets. rewrite Hd. done.
  - intros t e Hin. by left.
  - unfold stored_events. cbn [c' published]. lia.
Qed.

Lemma inv_begin_published c j p p' a x m : inv k c -> threads c !! j = Some p -> begins a j x (published c) ->
  let c' := mk_config (available c) (act r a (published c)) (slots c) m (<[j := p']> (threads c)) (sent c) (returned c) in
  (∀ pa, at_call j (available c) = Some pa -> finished pa = true -> shape p' pa x = true) ->
  (∀ pa pp, shape p pa pp = true -> finished pa = true) ->
  held_by c' j p' = held_by c j p -> drawn_by c' j p' = drawn_by c j p ->
  m - counted_by c' j p' = occupied_count c - counted_by c j p -> inv (k + 1) c'.
Proof.
  intros Hi Hj Hb c' Hsh Hfin Hh Hd Hm. destruct (inv_shape _ _ Hi j p Hj) as (pa & pp & Ha & Hpp & Hs).
  pose proof (begins_stored _ _ _ _ Hb) as Hst. destruct Hb as (Hact & Hkn & Hal & Hx & HE & HD).
  apply (inv_update k c c' j p p'); try done; cbn [c' available published slots threads sent returned occupied_count].
  - apply ring_later, Hi.
  - apply ring_act; try done. apply Hi.
  - apply Hi.
  - intros i Hne. apply act_others. congruence.
  - exists pa, x. split; [done|]. split; [done|]. apply Hsh; [done|]. by eapply Hfin.
  - intros t. rewrite HE. apply Hi.
  - intros rest. unfold places. rewrite Hh. unfold in_available, in_published. cbn [c' available published sent slots]. by rewrite Hst.
  - intros rest. unfold tickets. rewrite Hd. cbn [c' published returned]. by rewrite HD.
  - intros t e Hin. by left.
  - unfold stored_events. cbn [c' published]. rewrite Hst. lia.
Qed.

(** A slot is filled or emptied by the thread that holds its index. *)
Lemma slot_update c i o o' rest : places c ((i, o) :: rest) ->
  in_available c ++ in_published c ++ (i, o') :: rest ≡ₚ numbered None (<[i :=z o']> (slots c)).
Proof.
  unfold places. intros Hp. assert (slots c !!z i = Some o) as Hs.
  { apply (numbered_lookup None). rewrite <- Hp, !elem_of_app. right; right. by left. }
  destruct (numbered_insert None (slots c) i o o' Hs) as (l & H1 & H2). rewrite H2. rewrite H1 in Hp.
  rewrite !app_assoc in *. rewrite <- Permutation_middle in Hp. apply Permutation_cons_inv in Hp.
  rewrite <- Permutation_middle. by f_equiv.
Qed.

Lemma inv_stay c : inv k c -> inv (k + 1) c.
Proof. intros Hi. destruct Hi. split; try done; by apply ring_later. Qed.

(** The event is constructed in the slot of the index. *)
Lemma inv_construct c j i e : inv k c -> threads c !! j = Some (Construct i (inr e)) ->
  inv (k + 1) (goto j (Count i e) (with_slot i (Some e) c)).
Proof.
  intros Hi Hj. apply (inv_update k c _ j (Construct i (inr e)) (Count i e)); try done;
    cbn [goto with_slot available published slots threads sent returned occupied_count].
  - apply ring_later, Hi.
  - apply ring_later, Hi.
  - rewrite zlength_zinsert. apply Hi.
  - apply (inv_shape _ _ Hi j _ Hj).
  - apply Hi.
  - intros rest Hp. by apply (slot_update c i None (Some e) rest).
  - intros t x Hin. by left.
Qed.

(** A pop moves its event out. *)
Lemma inv_move_out c j i t e : inv k c -> threads c !! j = Some (MoveOut i t) -> sent c !! t = Some e ->
  inv (k + 1) (goto j (Release i e) (with_returned (returned c ++ [(t, e)]) (with_slot i None c))).
Proof.
  intros Hi Hj He. apply (inv_update k c _ j (MoveOut i t) (Release i e)); try done;
    cbn [goto with_slot with_returned available published slots threads sent returned occupied_count].
  - apply ring_later, Hi.
  - apply ring_later, Hi.
  - rewrite zlength_zinsert. apply Hi.
  - apply (inv_shape _ _ Hi j _ Hj).
  - apply Hi.
  - intros rest Hp. by apply (slot_update c i (sent c !! t) None rest).
  - intros rest. unfold tickets. cbn. intros <-. rewrite fmap_app, <- app_assoc. done.
  - intros u x [Hin|Hin%list_elem_of_singleton]%elem_of_app; [by left|right]. by simplify_eq.
Qed.

(** An index a thread holds in a ring call, or by itself. *)
Lemma inv_go_push c j b p : inv k c -> threads c !! j = Some p -> inv (k + 1) (go_push r j b p c).
Proof.
  intros Hi Hj. destruct (inv_shape _ _ Hi j p Hj) as (pa & pp & Ha & Hpp & Hs).
  pose proof (λ i o, held_slot k c j p i o Hi Hj) as Hslot.
  pose proof (occupied_room k c j p Hi Hj) as [Hlow Hroom]. pose proof (half_pos r Hr). pose proof (size_half r Hr).
  pose proof (size_bound r Hr).
  destruct p; cbn [go_push shape held_by counted_by] in *; try (by apply inv_stay).
  - rewrite Ha. apply andb_true_iff in Hs as [Hs1 Hs2].
    assert (hand j (available c) = in_hand pa) as Hh by (unfold hand; by rewrite Ha).
    destruct pa as [| | | | | | | | | | | | | | | | | |[i|]]; try done; try (by apply inv_run_available with (Reserve event)).
    + apply (inv_elsewhere c j (Reserve event)); try done; [by exists (DeqDone (Some i)), pp|]. cbn. by rewrite Hh.
    + apply (inv_elsewhere c j (Reserve event)); try done; [by exists (DeqDone None), pp|]. cbn. by rewrite Hh.
  - destruct (Hslot index None ltac:(by left)) as [-> Hrange]. apply andb_true_iff in Hs as [Hs1 Hs2].
    destruct event as [e|e]; [|by apply inv_construct].
    apply (inv_begin_available c j (Construct index (inl e)) (GiveBack e) _ (EnqTicket index false)); try done.
    + eapply (begins_enqueue c (available c) j); try done. by left.
    + intros p1 p2. cbn. by intros [_ ?]%andb_true_iff.
    + cbn. unfold hand. cbn [available].
      destruct (begins_enqueue c (available c) j _ pa index None Hi ltac:(by left) Hj eq_refl Ha Hs1) as (_ & _ & _ & Hx & _).
      by rewrite Hx.
  - rewrite Ha. apply andb_true_iff in Hs as [Hs1 Hs2].
    destruct pa; try done; try (by apply inv_run_available with (GiveBack e)).
    apply (inv_elsewhere c j (GiveBack e)); try done; [by exists EnqDone, pp|]. cbn. unfold hand. by rewrite Ha.
  - apply andb_true_iff in Hs as [Hs1 Hs2].
    pose proof (begins_enqueue c (published c) j _ pp index (Some event) Hi ltac:(by right) Hj eq_refl Hpp Hs2) as Hb.
    apply (inv_begin_published c j (Count index event) (Publish event) _ (EnqTicket index false)); try done.
    + intros pa' _ Hf. cbn. by rewrite Hf.
    + intros p1 p2. cbn. by intros [? _]%andb_true_iff.
    + cbn. unfold hand. cbn [published]. destruct Hb as (_ & _ & _ & Hx & _). by rewrite Hx.
    + cbn. unfold hand. cbn [published]. destruct Hb as (_ & _ & _ & Hx & _). rewrite Hx. cbn.
      revert Hroom. rewrite !zlength_cons. zlen_nil. intros Hroom. rewrite u64_small by lia. lia.
  - rewrite Hpp. apply andb_true_iff in Hs as [Hs1 Hs2].
    destruct pp; try done; try (by apply inv_publish_access).
    apply (inv_elsewhere c j (Publish event)); try done.
    + exists pa, EnqDone. split_and!; try done. cbn. by rewrite Hs1.
    + cbn. unfold hand. by rewrite Hpp.
    + cbn. unfold hand. by rewrite Hpp.
Qed.

Lemma inv_go_pop c j b p : inv k c -> threads c !! j = Some p -> inv (k + 1) (go_pop r j b p c).
Proof.
  intros Hi Hj. destruct (inv_shape _ _ Hi j p Hj) as (pa & pp & Ha & Hpp & Hs).
  pose proof (λ i o, held_slot k c j p i o Hi Hj) as Hslot.
  pose proof (occupied_room k c j p Hi Hj) as [Hlow Hroom]. pose proof (half_pos r Hr). pose proof (size_half r Hr).
  pose proof (size_bound r Hr).
  destruct p; cbn [go_pop shape held_by counted_by] in *; try (by apply inv_stay).
  - rewrite Hpp. apply andb_true_iff in Hs as [Hs1 Hs2].
    assert (hand j (published c) = in_hand pp) as Hh by (unfold hand; by rewrite Hpp).
    destruct pp as [| | | | | | | | | | | | | | | | | |[i|]]; try done; try (by eapply inv_take_access).
    + apply (inv_elsewhere c j (Take ticket)); try done; cbn; rewrite ?Hh; try done.
      exists pa, (DeqDone (Some i)). split_and!; try done. cbn. by rewrite Hs1.
    + apply (inv_elsewhere c j (Take ticket)); try done; cbn; rewrite ?Hh; try done.
      exists pa, (DeqDone None). split_and!; try done. cbn. by rewrite Hs1.
  - destruct (Hslot index (sent c !! ticket) ltac:(by left)) as [-> _].
    destruct (drawn_sent k c j ticket Hi) as [e He].
    + unfold drawn. rewrite Hj. by left.
    + apply lookup_lt_Some in Hj. by rewrite (inv_threads _ _ Hi) in Hj.
    + rewrite He. by apply inv_move_out.
  - apply andb_true_iff in Hs as [Hs1 Hs2].
    pose proof (begins_enqueue c (available c) j _ pa index None Hi ltac:(by left) Hj eq_refl Ha Hs1) as Hb.
    apply (inv_begin_available c j (Release index event) (Free event) _ (EnqTicket index false)); try done.
    + intros p1 p2. cbn. by intros [_ ?]%andb_true_iff.
    + cbn. unfold hand. cbn [available]. destruct Hb as (_ & _ & _ & Hx & _). by rewrite Hx.
    + cbn. revert Hroom. rewrite !zlength_cons. zlen_nil. intros Hroom. rewrite u64_small by lia. lia.
  - rewrite Ha. apply andb_true_iff in Hs as [Hs1 Hs2].
    destruct pa; try done; try (by apply inv_run_available with (Free event)).
    apply (inv_elsewhere c j (Free event)); try done; [by exists EnqDone, pp|]. cbn. unfold hand. by rewrite Ha.
Qed.

Lemma inv_go c j b p : inv k c -> threads c !! j = Some p -> inv (k + 1) (go r j b p c).
Proof.
  intros Hi Hj. destruct p; cbn [go]; first [by apply inv_stay|by apply inv_go_push|by apply inv_go_pop].
Qed.

Lemma inv_one_step c ch : inv k c -> inv (k + 1) (step r ch c).
Proof.
  intros Hi. destruct ch as [j event|j|j b]; cbn [step]; destruct (threads c !! j) as [p|] eqn:Hj; try (by apply inv_stay).
  - destruct p as [o| | | | | | | | | |]; try (by apply inv_stay).
    destruct (inv_shape _ _ Hi j _ Hj) as (pa & pp & Ha & Hpp & Hs). cbn in Hs. apply andb_true_iff in Hs as [Hs1 Hs2].
    pose proof (begins_dequeue (available c) j pa (inv_available _ _ Hi) Ha Hs1) as Hb.
    apply (inv_begin_available c j (Done o) (Reserve event) _ DeqThreshold); try done.
    + intros p1 p2. cbn. by intros [_ ?]%andb_true_iff.
    + cbn. unfold hand. cbn [available]. destruct Hb as (_ & _ & _ & Hx & _). by rewrite Hx.
  - destruct p as [o| | | | | | | | | |]; try (by apply inv_stay).
    destruct (inv_shape _ _ Hi j _ Hj) as (pa & pp & Ha & Hpp & Hs). cbn in Hs. apply andb_true_iff in Hs as [Hs1 Hs2].
    pose proof (begins_dequeue (published c) j pp (inv_published _ _ Hi) Hpp Hs2) as Hb.
    assert (hand j (act r (StartDequeue j false) (published c)) = []) as Hh.
    { unfold hand. destruct Hb as (_ & _ & _ & Hx & _). by rewrite Hx. }
    apply (inv_begin_published c j (Done o) (Take 0) _ DeqThreshold); try done.
    + intros pa' _ Hf. cbn. by rewrite Hf.
    + intros p1 p2. cbn. by intros [? _]%andb_true_iff.
    + cbn. by rewrite Hh.
    + cbn. by rewrite Hh.
    + cbn. by rewrite Hh.
  - by apply inv_go.
Qed.

End queue_facts.

(** ** Every run *)

Section runs.
Context {E : Type} (r : Z) (Hr : 1 <= r <= 59) (n : nat).
Abbreviation half := (half r).

Lemma inv_at_start : inv r n 0 (start r n : config E).
Proof.
  pose proof (half_pos r Hr). pose proof (size_half r Hr).
  assert (∀ full j, (j < n)%nat -> at_call j (fresh r full n) = Some EnqDone) as Hat.
  { intros full j Hj. unfold at_call, fresh, w_start. cbn. by apply lookup_replicate. }
  assert (∀ j p, threads (start r n : config E) !! j = Some p -> (j < n)%nat /\ p = Done Ready) as Hth.
  { intros j p [-> ?]%lookup_replicate. done. }
  split.
  - by apply ring_fresh.
  - by apply ring_fresh.
  - apply length_replicate.
  - cbn. rewrite zlength_replicate; lia.
  - intros j p Hp. destruct (Hth j p Hp) as [Hj ->]. exists EnqDone, EnqDone. cbn. by rewrite !Hat.
  - unfold places. rewrite concat_nils.
    + replace (in_published (start r n : config E)) with (@nil (Z * option E)) by reflexivity.
      rewrite !app_nil_r. unfold in_available. cbn [available slots start]. unfold stored, fresh, w_start, numbered. cbn [calls enqueued dequeued].
      rewrite map_difference_empty, zlength_replicate by lia. unfold tag.
      assert ((map_to_list (initial_log half true)).*2 ≡ₚ seqZ 0 half) as ->.
      { unfold initial_log. rewrite map_to_list_to_map; rewrite <- list_fmap_compose.
        - by rewrite list_fmap_id.
        - apply NoDup_fmap_2; [intros x y Hxy; exact Hxy|apply NoDup_seqZ]. }
      apply reflexive_eq, list_fmap_ext. intros m x Hx. cbn.
      apply list_elem_of_lookup_2, elem_of_seqZ in Hx. by rewrite zlookup_replicate by lia.
    + intros j Hj%elem_of_seq. unfold held. cbn. by rewrite lookup_replicate_2 by lia.
  - intros t. cbn. by rewrite !lookup_empty.
  - unfold tickets. rewrite concat_nils; [done|]. intros j Hj%elem_of_seq. unfold drawn. cbn. by rewrite lookup_replicate_2 by lia.
  - intros t e Hin. cbn in Hin. by apply not_elem_of_nil in Hin.
  - replace (stored_events (start r n : config E)) with 0 by reflexivity. rewrite sum_zeros; [done|].
    intros j Hj%elem_of_seq. unfold counted. cbn. by rewrite lookup_replicate_2 by lia.
Qed.

Lemma inv_runs sched : ∀ k (c : config E), inv r n k c -> 0 <= k -> k + zlength sched <= 2 ^ 60 -> inv r n (k + zlength sched) (run r sched c).
Proof.
  induction sched as [|ch sched IH]; intros k c Hi Hk Hl; [zlen_nil; by rewrite Z.add_0_r|].
  rewrite zlength_cons in *. pose proof (zlength_nonneg sched). cbn [run foldl].
  replace (k + (zlength sched + 1)) with (k + 1 + zlength sched) by lia.
  apply IH; [apply inv_one_step; [done|lia|done]|lia|lia].
Qed.

Lemma inv_sched sched : zlength sched <= 2 ^ 60 -> inv r n (zlength sched) (run r sched (start r n : config E)).
Proof. intros Hl. apply (inv_runs sched 0); [apply inv_at_start|lia|lia]. Qed.

(** *** Where an event is *)

(** A pop owns the ticket of an event, or has its index in hand. *)
Definition claims (c : config E) (j : nat) (t : Z) : Prop :=
  ∃ p, threads c !! j = Some p /\
    (t ∈ drawn_by c j p \/ ∃ q, at_call j (published c) = Some q /\ deq_ticket q = Some t).
Definition taken (c : config E) (t : Z) : Prop := t ∈ (returned c).*1 \/ ∃ j, claims c j t.
Definition filled (c : config E) (e : E) : Prop := ∃ i, slots c !!z i = Some (Some e).

Lemma drawn_at k (c : config E) t : inv r n k c -> is_Some (dequeued (calls (published c)) !! t) ->
  t ∈ (returned c).*1 \/ ∃ j p, threads c !! j = Some p /\ t ∈ drawn_by c j p.
Proof.
  intros Hi [x Hx]. assert (t ∈ keys (dequeued (calls (published c)))) as Hk.
  { unfold keys. apply list_elem_of_fmap. exists (t, x). split; [done|]. by apply elem_of_map_to_list. }
  rewrite <- (inv_tickets _ _ _ _ Hi) in Hk. apply elem_of_app in Hk as [?|Hk]; [by left|right].
  apply list_elem_of_In, in_concat in Hk as (l & Hl%list_elem_of_In & Ht%list_elem_of_In).
  apply list_elem_of_fmap in Hl as (j & -> & _). unfold drawn in Ht.
  destruct (threads c !! j) as [p|] eqn:Hj; [by exists j, p|by apply not_elem_of_nil in Ht].
Qed.

(** A thread that has drawn an event holds its index, so the event is in the
    slot. *)
Lemma drawn_filled k (c : config E) j p t e : inv r n k c -> threads c !! j = Some p -> t ∈ drawn_by c j p ->
  sent c !! t = Some e -> filled c e.
Proof.
  intros Hi Hj Ht Hs. assert (∃ i, (i, Some e) ∈ held_by c j p) as [i Hin].
  { destruct p; cbn [drawn_by held_by] in *; try by apply not_elem_of_nil in Ht.
    - apply list_elem_of_fmap in Ht as (i & -> & Hh). exists i. unfold tag. rewrite Hs. apply list_elem_of_fmap. by exists i.
    - apply list_elem_of_singleton in Ht as ->. exists index. rewrite Hs. by left. }
  exists i. by apply (held_slot r n k c j p i (Some e) Hi Hj).
Qed.

Lemma stored_filled k (c : config E) t i e : inv r n k c -> stored (published c) !! t = Some i ->
  sent c !! t = Some e -> slots c !!z i = Some (Some e).
Proof.
  intros Hi Ht He. apply (numbered_lookup None). rewrite <- (inv_places _ _ _ _ Hi), !elem_of_app. right; left.
  unfold in_published. apply list_elem_of_fmap. exists (t, i). split; [by rewrite <- He|]. by apply elem_of_map_to_list.
Qed.

(** *** How many there are *)

Definition event_count (l : list (option E)) : Z := sum_of (λ o, match o with Some _ => 1 | None => 0 end) l.

Definition idle (p : pc E) : bool := match p with Done _ => true | _ => false end.

Lemma idle_nothing k (c : config E) : inv r n k c -> forallb idle (threads c) = true ->
  concat (held c <$> seq 0 n) = [] /\ concat (drawn c <$> seq 0 n) = [] /\ sum_of (counted c) (seq 0 n) = 0.
Proof.
  intros Hi Hd. assert (∀ j, j ∈ seq 0 n -> ∃ o, threads c !! j = Some (Done o)) as Hj.
  { intros j Hj%elem_of_seq. destruct (thread_of r n k c j Hi) as (p & Hp & _); [lia|]. rewrite Hp.
    rewrite forallb_forall in Hd. specialize (Hd p). apply list_elem_of_lookup_2, list_elem_of_In in Hp.
    destruct p; try (by specialize (Hd Hp)). by eexists. }
  split_and!; [apply concat_nils|apply concat_nils|apply sum_zeros]; intros j Hin; destruct (Hj j Hin) as [o Ho];
    unfold held, drawn, counted; by rewrite Ho.
Qed.

(** The slots of the available indices, and of those in hand when no call is
    under way, are empty; those of the published ones are not. *)
Lemma idle_slots k (c : config E) : inv r n k c -> forallb idle (threads c) = true ->
  event_count (slots c) = stored_events c.
Proof.
  intros Hi Hd. destruct (idle_nothing k c Hi Hd) as (Hh & _). unfold event_count.
  rewrite <- (numbered_snd None (slots c)), sum_of_fmap.
  assert (∀ l, sum_of (λ x : Z * option E, match x.2 with Some _ => 1 | None => 0 end) (tag None l) = 0) as Hnone.
  { intros l. apply sum_zeros. intros x (i & -> & _)%list_elem_of_fmap. done. }
  rewrite <- (inv_places _ _ _ _ Hi), Hh, app_nil_r, sum_of_app. unfold in_available. rewrite Hnone.
  unfold in_published, stored_events. rewrite sum_of_fmap. rewrite <- stored_length.
  assert (∀ m : list (Z * Z), (∀ x, x ∈ m -> is_Some (sent c !! x.1)) ->
    sum_of (λ x, match (x.2, sent c !! x.1).2 with Some _ => 1 | None => 0 end) m = zlength m) as Hall.
  { induction m as [|x m IH]; intros Hm; [done|]. rewrite sum_of_cons, zlength_cons, IH by (intros; apply Hm; by right).
    destruct (Hm x) as [e He]; [by left|]. cbn. rewrite He. lia. }
  rewrite Hall; [lia|]. intros [t i] Ht%elem_of_map_to_list. cbn. apply (inv_sent _ _ _ _ Hi).
  unfold stored in Ht. apply lookup_difference_Some in Ht as [Ht _]. by exists i.
Qed.

Lemma idle_difference k (c : config E) : inv r n k c -> forallb idle (threads c) = true ->
  stored_events c = Z.of_nat (base.size (sent c)) - zlength (returned c).
Proof.
  intros Hi Hd. destruct (idle_nothing k c Hi Hd) as (_ & Ht & _).
  pose proof (inv_tickets _ _ _ _ Hi) as Hk. unfold tickets in Hk. rewrite Ht, app_nil_r in Hk.
  apply Permutation_length in Hk. unfold keys in Hk. rewrite !length_fmap, length_map_to_list in Hk.
  assert (dom (sent c) = dom (enqueued (calls (published c)))) as Hs.
  { apply set_eq. intros t. rewrite !elem_of_dom. apply (inv_sent _ _ _ _ Hi). }
  rewrite <- (size_dom (sent c)), Hs, size_dom. pose proof (ring_sub r n k _ (inv_published _ _ _ _ Hi)) as Hsub.
  unfold stored_events, stored, zlength. rewrite Hk.
  rewrite <- (map_difference_union _ _ Hsub) at 2.
  rewrite map_size_disj_union; [lia|]. by apply map_disjoint_difference_r1.
Qed.

Lemma size_in_range k (c : config E) : inv r n k c -> 0 <= size c <= half.
Proof.
  intros Hi. unfold size. rewrite (inv_occupied _ _ _ _ Hi). pose proof (all_slots r n k c Hi) as Hall.
  unfold stored_events in *.
  assert (∀ j, 0 <= counted c j <= zlength (held c j)) as Hc.
  { intros j. unfold counted, held. destruct (threads c !! j) as [p|]; [apply counted_held|cbn; zlen_nil; lia]. }
  pose proof (sum_of_nonneg (counted c) (seq 0 n) ltac:(intros j; apply Hc)).
  pose proof (sum_of_le (counted c) (λ j, zlength (held c j)) (seq 0 n) ltac:(intros j _; apply Hc)). lia.
Qed.

(** *** The schedule of a ring *)

Definition ring_at (pushing : bool) (c : config E) : ring_calls := if pushing then available c else published c.
Definition who (ch : choice E) : nat := match ch with StartPush j _ | StartPop j | Go j _ => j end.

Lemma step_ring x (c : config E) ch : ring_at x (step r ch c) = ring_at x c \/
  ∃ a, ring_at x (step r ch c) = act r a (ring_at x c) /\ actor a = who ch.
Proof.
  assert (∀ a, actor a = who ch -> ring_at x c = ring_at x c \/ ∃ a', act r a (ring_at x c) = act r a' (ring_at x c) /\
    actor a' = who ch) as Hx by (by left).
  destruct ch as [j event|j|j b]; cbn [step who]; destruct (threads c !! j) as [p|]; try (by left).
  - destruct p; try (by left). destruct x; cbn; [right|by left]. by eexists.
  - destruct p; try (by left). destruct x; cbn; [by left|right]. by eexists.
  - destruct p; cbn [go go_push go_pop]; unfold publish_access, take_access; repeat case_match; destruct x; cbn; eauto.
Qed.

Definition act_all (acts : list action) (q : ring_calls) : ring_calls := foldl (λ q a, act r a q) q acts.

Lemma run_ring x sched : ∀ c : config E, ∃ acts, zlength acts <= zlength sched /\
  ring_at x (run r sched c) = act_all acts (ring_at x c).
Proof.
  induction sched as [|ch sched IH]; intros c; [by exists []|]. cbn [run foldl]. rewrite zlength_cons.
  destruct (IH (step r ch c)) as (acts & Hl & Hr'). unfold run in Hr'. rewrite Hr'.
  destruct (step_ring x c ch) as [->|(a & -> & _)]; [by exists acts; split; [lia|]|].
  exists (a :: acts). rewrite zlength_cons. split; [lia|done].
Qed.

Lemma act_all_calls acts : ∀ q, calls (act_all acts q) = w_exec_all half acts (calls q).
Proof. induction acts as [|a acts IH]; intros q; [done|]. apply IH. Qed.

(** *** An answer that the ring is empty *)

(** Every index in the ring belongs to an enqueue that has not returned, or to
    a dequeue that owns its ticket. *)
Definition drained (q : ring_calls) : Prop := ∀ t i, stored q !! t = Some i ->
  (∃ j, pending q !! j = Some t) \/ ∃ j p, at_call j q = Some p /\ deq_ticket p = Some t.

Lemma pending_cases (g : gmap nat Z) t : (∃ j, g !! j = Some t) \/ ∀ j, g !! j <> Some t.
Proof.
  destruct (decide (Exists (λ jt, jt.2 = t) (map_to_list g))) as [He|He]; [left|right].
  - apply Exists_exists in He as ([j t'] & Hj%elem_of_map_to_list & <-). by exists j.
  - intros j Hj. apply He, Exists_exists. exists (j, t). split; [by apply elem_of_map_to_list|done].
Qed.

Lemma enc_owner a k j q t : config_bd r (half + k) a -> 0 <= k <= 2 ^ 60 ->
  RingConc.threads a !! j = Some q -> deq_ticket q = Some t ->
  RingConc.threads (enc_config r a) !! j = Some (enc_pc r q) /\ deq_ticket (enc_pc r q) = Some t.
Proof.
  intros Hb Hk Hq Ht. cbn [enc_config RingConc.threads]. rewrite list_lookup_fmap, Hq. split; [done|].
  rewrite enc_deq_ticket, Ht. cbn. f_equal. apply (owned_ticket_small r Hr (half + k) a j q); [apply (room r Hr); lia|done..].
Qed.

Lemma exhausted_drained k q a : calls q = enc_config r a -> RingConc.inv r a -> config_bd r (half + k) a ->
  0 <= k <= 2 ^ 60 -> exhausted (a_head (the_ring a)) a (pending q) -> drained q.
Proof.
  intros Hq Hi Hb Hk Hex t i Ht. unfold stored, at_call in *. rewrite Hq in *.
  apply lookup_difference_Some in Ht as [HE HD]. destruct (pending_cases (pending q) t) as [?|Hnone]; [by left|right].
  destruct (claimed_has_owner r a t i Hi HE HD) as (j & p & Hp & Hpt); [by apply (Hex t i)|].
  exists j, (enc_pc r p). by eapply enc_owner.
Qed.

(** The access with which a dequeue gives up. *)
Lemma run_gives_up k q j b p : ring_ok r n k q -> 0 <= k <= 2 ^ 60 -> Z.of_nat n <= half ->
  at_call j q = Some p -> gave_up p = false ->
  ∃ p', at_call j (act r (Run j b) q) = Some p' /\ (gave_up p' = true -> drained q).
Proof.
  intros (a & Hq & Hi & Hb & _ & _ & Hbd) Hk Hn Hj Hp. pose proof (room r Hr k ltac:(lia)) as HB.
  specialize (Hbd Hn). unfold at_call in *. cbn [act calls]. unfold ring_exec. rewrite Hq in Hj |- *.
  rewrite (exec_enc r Hr (half + k)) by done. cbn [enc_config RingConc.threads] in Hj |- *.
  rewrite list_lookup_fmap in Hj. apply fmap_Some in Hj as (pa & Hpa & ->).
  assert (∀ p, gave_up (enc_pc r p) = gave_up p) as Hge by (by intros [| | | | | | | | | | | | | | | | | |[]]).
  exists (enc_pc r (astep r b pa (the_ring a)).1). rewrite Hge in Hp |- *. split.
  - rewrite (run_eq r a j b pa Hpa). cbn. rewrite list_lookup_fmap, list_lookup_insert_eq; [done|]. by eapply lookup_lt_Some.
  - intros Hg. eapply exhausted_drained; try done. by eapply gives_up.
Qed.

(** What a call is about: the available ring for a push, the published one for
    a pop. It waits for the answer, or has an index. *)
Definition calling (x : bool) (p : pc E) : bool :=
  match p with Reserve _ => x | Take _ => negb x | _ => false end.
Definition onward (x : bool) (p : pc E) : bool :=
  match p with
  | Construct _ _ | GiveBack _ | Count _ _ | Publish _ | Done (PushThrew _) => x
  | Done (Pushed st) => x && negb (bool_decide (st = full))
  | MoveOut _ _ | Release _ _ | Free _ => negb x
  | Done (Popped result) => negb x && has_value result
  | Crashed => true
  | Done Ready | Reserve _ | Take _ => false
  end.
Definition refused (x : bool) : pc E := Done (if x then Pushed full else Popped make_empty).
Definition starts_call (j : nat) (ch : choice E) : bool :=
  match ch with StartPush i _ | StartPop i => bool_decide (i = j) | Go _ _ => false end.

Lemma step_others (c : config E) ch i : i <> who ch -> threads (step r ch c) !! i = threads c !! i.
Proof.
  intros Hi. destruct ch as [j event|j|j b]; cbn [step who] in *; destruct (threads c !! j) as [p|]; try done.
  - destruct p; try done. cbn. by rewrite list_lookup_insert_ne.
  - destruct p; try done. cbn. by rewrite list_lookup_insert_ne.
  - destruct p; cbn [go go_push go_pop]; unfold publish_access, take_access; repeat case_match; cbn;
      by rewrite ?list_lookup_insert_ne by done.
Qed.

Lemma goto_same j p p' (c : config E) : threads c !! j = Some p -> threads (goto j p' c) !! j = Some p'.
Proof. intros Hj. cbn. apply list_lookup_insert_eq. by eapply lookup_lt_Some. Qed.

Lemma onward_step x j (c : config E) ch p : threads c !! j = Some p -> onward x p = true -> starts_call j ch = false ->
  ∃ p', threads (step r ch c) !! j = Some p' /\ onward x p' = true.
Proof.
  intros Hj Hp Hs. destruct (decide (j = who ch)) as [->|Hne]; [|exists p; by rewrite step_others].
  destruct ch as [i event|i|i b]; cbn [starts_call who step] in *; try by rewrite bool_decide_eq_true_2 in Hs.
  rewrite Hj. destruct p as [o| | | | | | | | | |]; cbn [go go_push go_pop]; unfold publish_access; try done;
    repeat case_match; try (by eexists); eexists; (split; [by eapply goto_same|by destruct x]).
Qed.

Lemma calling_step x j (c : config E) ch p pa : threads c !! j = Some p -> calling x p = true ->
  at_call j (ring_at x c) = Some pa -> gave_up pa = false ->
  ∃ p', threads (step r ch c) !! j = Some p' /\ (onward x p' = true \/
    calling x p' = true /\ (at_call j (ring_at x (step r ch c)) = Some pa \/
      ∃ b, ring_at x (step r ch c) = act r (Run j b) (ring_at x c))).
Proof.
  intros Hj Hp Ha Hg. destruct (decide (j = who ch)) as [->|Hne].
  - destruct ch as [i event|i|i b]; cbn [who step] in *; rewrite Hj.
    + destruct p; try done; eauto 10.
    + destruct p; try done; eauto 10.
    + destruct p; try done; destruct x; try done; cbn [go go_push go_pop ring_at] in *; unfold take_access; rewrite Ha;
        destruct pa as [| | | | | | | | | | | | | | | | | |[]]; try done;
        eexists; (split; [by eapply goto_same || done|]); eauto.
  - exists p. rewrite step_others by done. split; [done|right]. split; [done|left].
    destruct (step_ring x c ch) as [->|(a & -> & Hact)]; [done|]. rewrite act_others; [done|]. by rewrite Hact.
Qed.

Lemma onward_run x j sched : ∀ (c : config E) p, threads c !! j = Some p -> onward x p = true ->
  forallb (λ ch, negb (starts_call j ch)) sched = true -> threads (run r sched c) !! j <> Some (refused x).
Proof.
  induction sched as [|ch sched IH]; intros c p Hj Hp Hs.
  - cbn. rewrite Hj. intros [= ->]. destruct x; cbn in Hp; [by rewrite bool_decide_eq_true_2 in Hp|done].
  - apply andb_true_iff in Hs as [Hch%negb_true_iff Hs].
    destruct (onward_step x j c ch p Hj Hp Hch) as (p' & Hp' & Ho). by apply (IH _ p').
Qed.

(** A refused call saw the ring drained at some moment. *)
Lemma refusal_moment x j sched : ∀ k (c : config E) p pa, inv r n k c -> 0 <= k -> k + zlength sched <= 2 ^ 60 ->
  Z.of_nat n <= half -> threads c !! j = Some p -> calling x p = true -> at_call j (ring_at x c) = Some pa ->
  gave_up pa = false -> forallb (λ ch, negb (starts_call j ch)) sched = true ->
  threads (run r sched c) !! j = Some (refused x) ->
  ∃ a b, sched = a ++ b /\ drained (ring_at x (run r a c)).
Proof.
  induction sched as [|ch sched IH]; intros k c p pa Hi Hk Hl Hn Hj Hp Ha Hg Hs Hend.
  { cbn in Hend. rewrite Hj in Hend. by simplify_eq. }
  rewrite zlength_cons in Hl. pose proof (zlength_nonneg sched).
  pose proof (inv_one_step r Hr n k ltac:(lia) c ch Hi) as Hi'. pose proof Hs as [_ Hs']%andb_true_iff.
  destruct (calling_step x j c ch p pa Hj Hp Ha Hg) as (p' & Hj' & [Ho|[Hc Hring]]).
  { exfalso. by eapply (onward_run x j sched). }
  assert (ring_ok r n k (ring_at x c)) as Hq by (destruct x; apply Hi).
  assert (∀ pa', at_call j (ring_at x (step r ch c)) = Some pa' -> gave_up pa' = false ->
    ∃ a b, ch :: sched = a ++ b /\ drained (ring_at x (run r a c))) as Hgo.
  { intros pa' Ha' Hg'. destruct (IH (k + 1) (step r ch c) p' pa') as (a & b & -> & Hd); try done; [lia|lia|].
    by exists (ch :: a), b. }
  destruct Hring as [Ha'|[b Hb]]; [by eapply Hgo|].
  destruct (run_gives_up k _ j b pa Hq ltac:(lia) Hn Ha Hg) as (pa' & Ha' & Hd). rewrite <- Hb in Ha'.
  destruct (gave_up pa') eqn:Hg'; [|by eapply Hgo]. exists [], (ch :: sched). split; [done|]. by apply Hd.
Qed.

Lemma run_two s s' (c : config E) : run r (s ++ s') c = run r s' (run r s c).
Proof. unfold run. by rewrite foldl_app. Qed.

(** The same for a call from its start. *)
Lemma refused_call x j sched o before ch : let c := run r before (start r n) in
  zlength (before ++ ch :: sched) <= 2 ^ 60 -> Z.of_nat n <= half -> threads c !! j = Some (Done o) ->
  match ch with StartPush i _ => x = true /\ i = j | StartPop i => x = false /\ i = j | Go _ _ => False end ->
  forallb (λ ch, negb (starts_call j ch)) sched = true ->
  threads (run r (before ++ ch :: sched) (start r n)) !! j = Some (refused x) ->
  ∃ a b, sched = a ++ b /\ drained (ring_at x (run r (before ++ ch :: a) (start r n))).
Proof.
  intros c Hl Hn Hj Hch Hs Hend. rewrite zlength_app, zlength_cons in Hl. pose proof (zlength_nonneg sched).
  pose proof (zlength_nonneg before). pose proof (inv_sched before ltac:(lia)) as Hi.
  pose proof (inv_one_step r Hr n (zlength before) ltac:(lia) _ ch Hi) as Hi'. fold c in Hi, Hi'. rewrite run_two in Hend.
  destruct (inv_shape _ _ _ _ Hi j _ Hj) as (pa & pp & Ha & Hpp & Hsh). cbn in Hsh. apply andb_true_iff in Hsh as [H1 H2].
  assert (∃ p, threads (step r ch c) !! j = Some p /\ calling x p = true /\
    at_call j (ring_at x (step r ch c)) = Some DeqThreshold) as (p & Hp & Hc & Hat).
  { destruct ch as [i e|i|i b]; try done; destruct Hch as [-> ->]; cbn [step]; rewrite Hj;
      eexists; (split; [by eapply goto_same|]); (split; [done|]).
    - by destruct (begin_dequeue r _ j pa Ha H1).
    - by destruct (begin_dequeue r _ j pp Hpp H2). }
  destruct (refusal_moment x j sched _ _ p DeqThreshold Hi') as (a & b & -> & Hd); try done; [lia|lia|].
  exists a, b. split; [done|]. by rewrite run_two.
Qed.


(** *** What a drained ring means to the queue *)

Lemma owner_claims k (c : config E) j p t : inv r n k c -> at_call j (published c) = Some p -> deq_ticket p = Some t ->
  taken c t.
Proof.
  intros Hi Hj Ht. right. exists j. pose proof (in_range r n k _ j p (inv_published _ _ _ _ Hi) Hj) as Hn%elem_of_seq.
  destruct (thread_of r n k c j Hi) as (q & Hq & _); [lia|]. exists q. split; [done|]. right. by exists p.
Qed.

Lemma dequeued_taken k (c : config E) t : inv r n k c -> is_Some (dequeued (calls (published c)) !! t) -> taken c t.
Proof.
  intros Hi Ht. destruct (drawn_at k c t Hi Ht) as [?|(j & p & Hj & Hd)]; [by left|right].
  exists j, p. split; [done|by left].
Qed.

Lemma returned_dequeued k (c : config E) t : inv r n k c -> t ∈ (returned c).*1 ->
  is_Some (dequeued (calls (published c)) !! t).
Proof.
  intros Hi Ht. pose proof (inv_tickets _ _ _ _ Hi) as Hk. unfold tickets in Hk.
  assert (t ∈ keys (dequeued (calls (published c)))) as Hin by (rewrite <- Hk; apply elem_of_app; by left).
  unfold keys in Hin. apply list_elem_of_fmap in Hin as ([t' x] & -> & Hin%elem_of_map_to_list). by exists x.
Qed.

(** What [RingFifo] says of the ring across a run of the queue. *)
Lemma leaves_in_order k (c : config E) s t u : inv r n k c -> 0 <= k -> k + zlength s <= 2 ^ 60 ->
  is_Some (enqueued (calls (published c)) !! t) -> undrawn (calls (published c)) u ->
  is_Some (dequeued (calls (published (run r s c))) !! u) ->
  is_Some (dequeued (calls (published (run r s c))) !! t) \/
  ∃ j p, at_call j (published (run r s c)) = Some p /\ deq_ticket p = Some t.
Proof.
  intros Hi Hk Hl [i Ht] [Hu Hno] [v Hv]. pose proof (half_pos r Hr). pose proof (zlength_nonneg s).
  destruct (run_ring false s c) as (acts & Hacts & Hring). cbn [ring_at] in Hring.
  destruct (inv_published _ _ _ _ Hi) as (a & Ha & Hia & Hbd & _). pose proof (zlength_nonneg acts).
  pose proof (room r Hr (k + zlength acts) ltac:(lia)) as HB.
  assert (calls (published (run r s c)) = enc_config r (exec_all half (astep r) (a_log_enqueue r) (a_log_dequeue r) acts a)) as Hc.
  { rewrite Hring, act_all_calls, Ha. apply (exec_all_enc r Hr acts (half + k)); [lia| |done].
    unfold bound_ok in *. lia. }
  unfold at_call. rewrite Hc in *. rewrite Ha in *.
  destruct (earlier_is_claimed r Hr acts a t i u v Hia Ht) as [Hd|(j & p & Hp & Hpt)]; try done.
  - unfold logged. cbn in Hu. rewrite Hu. by intros [? ?].
  - intros (j & p & Hp & Hpu). apply (Hno j (enc_pc r p)); [cbn; by rewrite list_lookup_fmap, Hp|].
    rewrite enq_ticket_enc, Hpu. cbn. f_equal. apply (enq_ticket_small r Hr (half + k) a j p u); try done. apply (room r Hr). lia.
  - left. by exists i.
  - right. exists j, (enc_pc r p). apply (enc_owner _ (k + zlength acts)); try done; [|lia].
    replace (half + (k + zlength acts)) with (half + k + zlength acts) by lia. apply (exec_all_bd r Hr); [lia|done].
Qed.

(** Only a push that has stored its index and not returned is pending. *)
Lemma pending_push k (c : config E) j t : inv r n k c -> Z.of_nat n <= half -> pending (published c) !! j = Some t ->
  ∃ e, threads c !! j = Some (Publish e).
Proof.
  intros Hi Hn Hj. pose proof (inv_published _ _ _ _ Hi) as Hq.
  assert (∃ q, at_call j (published c) = Some q /\ (q = EnqThreshold \/ q = EnqRearm)) as (q & Hat & Hcase).
  { destruct Hq as (a & Ha & _ & _ & _ & _ & Hb). unfold at_call. rewrite Ha. cbn. rewrite list_lookup_fmap.
    destruct (bounded_track _ _ _ (Hb Hn) j t Hj) as [-> | ->]; eexists; split; [done|auto|done|auto]. }
  pose proof (in_range r n k _ j q Hq Hat) as Hr'%elem_of_seq.
  destruct (thread_of r n k c j Hi ltac:(lia)) as (p & Hp & pa & pp & _ & Hpp & Hs). rewrite Hat in Hpp.
  injection Hpp as <-. destruct p; cbn [shape] in Hs; try done; try (eexists; exact Hp).
  all: apply andb_true_iff in Hs as [_ Hs]; by destruct Hcase as [-> | ->].
Qed.

(** A slot that is published, in the hands of thread [j], on its way back to
    the available ring, or about to be taken from it. *)
Definition in_use (c : config E) (i : Z) : Prop :=
  (∃ t, stored (published c) !! t = Some i) \/
  ∃ j, i ∈ (held c j).*1 \/
    ∃ t, stored (available c) !! t = Some i /\
      (pending (available c) !! j = Some t \/ ∃ q, at_call j (available c) = Some q /\ deq_ticket q = Some t).

Lemma drained_in_use k (c : config E) i : inv r n k c -> drained (available c) -> 0 <= i < half -> in_use c i.
Proof.
  intros Hi Hd Hr'. destruct (zlookup_lt (slots c) i) as [o Ho]; [rewrite (inv_slots _ _ _ _ Hi); lia|].
  assert ((i, o) ∈ numbered None (slots c)) as Hin.
  { unfold numbered. apply list_elem_of_fmap. exists i. rewrite Ho. split; [done|]. apply elem_of_seqZ.
    apply zlookup_range in Ho. lia. }
  rewrite <- (inv_places _ _ _ _ Hi), !elem_of_app in Hin. destruct Hin as [Hin|[Hin|Hin]].
  - unfold in_available, tag in Hin. apply list_elem_of_fmap in Hin as (i' & [= <- _] & Hin).
    apply list_elem_of_fmap in Hin as ([t i'] & -> & Ht%elem_of_map_to_list). cbn in *. right.
    destruct (Hd t i' Ht) as [[j Hj]|(j & p & Hj & Hp)]; exists j; right; exists t; split; eauto.
  - left. unfold in_published in Hin. apply list_elem_of_fmap in Hin as ([t i'] & [= -> _] & Ht%elem_of_map_to_list). by exists t.
  - right. apply list_elem_of_In, in_concat in Hin as (l & Hl%list_elem_of_In & Hin%list_elem_of_In).
    apply list_elem_of_fmap in Hl as (j & -> & _). exists j. left. apply list_elem_of_fmap. by exists (i, o).
Qed.

End runs.

(** ** What every schedule guarantees *)

Section guarantees.
Context {E : Type} (r : Z) (Hr : 1 <= r <= 59) (n : nat) (sched : list (choice E)) (Hsched : zlength sched <= 2 ^ 60).
Abbreviation reached := (run r sched (start r n)).

(** C10: no slot is written while it holds an event or read while it holds
    none: no thread crashes in [Construct] or [MoveOut]. *)
Theorem slots_are_used_in_turn j : threads (run r sched (start r n)) !! j <> Some Crashed.
Proof.
  intros Hj. pose proof (inv_sched r Hr n sched Hsched) as Hi.
  by destruct (inv_shape _ _ _ _ Hi j _ Hj) as (pa & pp & _ & _ & ?).
Qed.

(** C9: every event sent is received at most once and never lost. No ticket
    is returned twice, what is returned at a ticket is the event sent there,
    and a sent event that has not been returned is in a slot. *)
Theorem events_arrive_once : let c := reached in
  NoDup (returned c).*1 /\ (∀ t e, (t, e) ∈ returned c -> sent c !! t = Some e) /\
  ∀ t e, sent c !! t = Some e -> (t, e) ∈ returned c \/ filled c e.
Proof.
  intros c. pose proof (inv_sched r Hr n sched Hsched) as Hi. fold c in Hi. split_and!.
  - pose proof (inv_tickets _ _ _ _ Hi) as Ht. unfold tickets in Ht.
    assert (NoDup (keys (dequeued (calls (published c))))) as Hn by apply NoDup_fst_map_to_list.
    rewrite <- Ht in Hn. by apply NoDup_app in Hn as [? _].
  - apply Hi.
  - intros t e He. destruct (dequeued (calls (published c)) !! t) as [x|] eqn:Hx.
    + destruct (drawn_at r n _ c t Hi ltac:(by exists x)) as [Ht|(j & p & Hj & Ht)].
      * left. apply list_elem_of_fmap in Ht as ([t' e'] & -> & Hin). pose proof (inv_returned _ _ _ _ Hi _ _ Hin).
        cbn in *. congruence.
      * right. by eapply drawn_filled.
    + right. destruct (inv_sent _ _ _ _ Hi t) as [[i Ht] _]; [by exists e|]. exists i.
      eapply stored_filled; [done| |done]. by apply lookup_difference_Some.
Qed.

(** C14: [size()] is never above the capacity, and when no call is under way
    it is the number of slots that hold an event, and of events sent and not
    returned. *)
Theorem size_counts_the_events : let c := reached in
  0 <= size c <= half r /\
  (forallb idle (threads c) = true ->
    size c = event_count (slots c) /\ size c = Z.of_nat (base.size (sent c)) - zlength (returned c)).
Proof.
  intros c. pose proof (inv_sched r Hr n sched Hsched) as Hi. fold c in Hi. split; [by eapply size_in_range|].
  intros Hd. rewrite (idle_slots r n _ c Hi Hd), <- (idle_difference r n _ c Hi Hd). unfold size.
  rewrite (inv_occupied _ _ _ _ Hi). destruct (idle_nothing r n _ c Hi Hd) as (_ & _ & ->). lia.
Qed.

(** C12: with no more threads than the capacity an empty answer of [try_pop]
    is true: at some moment of the call every event sent was taken by a pop, or
    its push had not returned. *)
Theorem empty_means_taken before j after o :
  sched = before ++ StartPop j :: after -> Z.of_nat n <= half r ->
  threads (run r before (start r n)) !! j = Some (Done o) ->
  forallb (λ ch, negb (starts_call j ch)) after = true ->
  threads reached !! j = Some (Done (Popped make_empty)) ->
  ∃ a b, after = a ++ b /\ let c := run r (before ++ StartPop j :: a) (start r n) in
    ∀ t, is_Some (sent c !! t) ->
      taken c t \/ ∃ i e, threads c !! i = Some (Publish e) /\ pending (published c) !! i = Some t.
Proof.
  intros Hs Hn Hj Hst Hend. rewrite Hs in Hend, Hsched.
  destruct (refused_call r Hr n false j after o before (StartPop j)) as (a & b & -> & Hd); try done.
  exists a, b. split; [done|]. intros c t Ht. rewrite zlength_app, zlength_cons, zlength_app in Hsched.
  pose proof (zlength_nonneg b). pose proof (inv_sched r Hr n (before ++ StartPop j :: a)) as Hi.
  rewrite zlength_app, zlength_cons in Hi. specialize (Hi ltac:(lia)). fold c in Hi, Hd.
  apply (inv_sent _ _ _ _ Hi) in Ht as [i Ht].
  destruct (dequeued (calls (published c)) !! t) as [x|] eqn:Hx; [left; eapply dequeued_taken; eauto|].
  destruct (Hd t i) as [[k Hk]|(k & p & Hk & Hp)]; [by apply lookup_difference_Some|right|left].
  - destruct (pending_push r n _ c k t Hi Hn Hk) as [e He]. by exists k, e.
  - by eapply owner_claims.
Qed.

(** C13: and a full answer of [try_push] is true: at some moment of the call
    every slot was in use. *)
Theorem full_means_in_use before j event after o :
  sched = before ++ StartPush j event :: after -> Z.of_nat n <= half r ->
  threads (run r before (start r n)) !! j = Some (Done o) ->
  forallb (λ ch, negb (starts_call j ch)) after = true ->
  threads reached !! j = Some (Done (Pushed full)) ->
  ∃ a b, after = a ++ b /\ let c := run r (before ++ StartPush j event :: a) (start r n) in
    ∀ i, 0 <= i < half r -> in_use c i.
Proof.
  intros Hs Hn Hj Hst Hend. rewrite Hs in Hend, Hsched.
  destruct (refused_call r Hr n true j after o before (StartPush j event)) as (a & b & -> & Hd); try done.
  exists a, b. split; [done|]. intros c i Hir. rewrite zlength_app, zlength_cons, zlength_app in Hsched.
  pose proof (zlength_nonneg b). pose proof (inv_sched r Hr n (before ++ StartPush j event :: a)) as Hi.
  rewrite zlength_app, zlength_cons in Hi. specialize (Hi ltac:(lia)). fold c in Hi, Hd. by eapply drained_in_use.
Qed.

(** C11: events leave in the order of their tickets. If the event at [t] was
    sent before any push had drawn the ticket [u], then once the event at [u]
    is returned, [t] has been returned too or a pop has it. *)
Theorem events_leave_by_ticket s1 s2 t u :
  sched = s1 ++ s2 -> let c1 := run r s1 (start r n : config E) in let c2 := run r s2 c1 in
  is_Some (sent c1 !! t) -> undrawn (calls (published c1)) u -> u ∈ (returned c2).*1 -> taken c2 t.
Proof.
  intros Hs c1 c2 Ht Hu Hret. pose proof (inv_sched r Hr n sched Hsched) as Hi2. rewrite Hs in Hi2, Hsched.
  rewrite run_two in Hi2. fold c1 c2 in Hi2. rewrite zlength_app in Hsched, Hi2.
  pose proof (zlength_nonneg s1). pose proof (zlength_nonneg s2). pose proof (half_pos r Hr).
  pose proof (inv_sched r Hr n s1 ltac:(lia)) as Hi1. fold c1 in Hi1.
  destruct (leaves_in_order r Hr n _ c1 s2 t u Hi1) as [Hd|(j & p & Hj & Hp)]; try done; try lia.
  - by apply (inv_sent _ _ _ _ Hi1).
  - by eapply returned_dequeued.
  - by eapply dequeued_taken.
  - by eapply owner_claims.
Qed.

End guarantees.

(** ** Runs to look at *)

(** Accesses of one call; steps past its end do nothing. *)
Definition goes (j : nat) (k : N) : list (choice nat) := replicate (N.to_nat k) (Go j false).
Definition push_alone (j : nat) (e : nat) : list (choice nat) := StartPush j (inr e) :: goes j 30.
Definition pop_alone (j : nat) : list (choice nat) := StartPop j :: goes j 2.

(** With a negative threshold a pop ends at once and changes nothing. *)
Section disarmed.
Context (r : Z).

Definition disarmed (n : nat) (c : config nat) : bool :=
  (threshold_ (the_ring (calls (published c))) <? 0) &&
  forallb (λ j, match threads c !! j, at_call j (published c) with
    | Some (Done _), Some p => finished p
    | _, _ => false
    end) (seq 0 n).

Lemma act_run j b q p : at_call j q = Some p ->
  at_call j (act r (Run j b) q) = Some (IndexRing.step b p (the_ring (calls q))).1 /\
  the_ring (calls (act r (Run j b) q)) = (IndexRing.step b p (the_ring (calls q))).2.
Proof.
  unfold at_call. cbn [act calls]. unfold ring_exec, exec. intros Hj. rewrite Hj.
  destruct (IndexRing.step b p (the_ring (calls q))) as [p' a]. cbn. split; [|done].
  apply list_lookup_insert_eq. by eapply lookup_lt_Some.
Qed.

Lemma start_ring j q : the_ring (calls (act r (StartDequeue j false) q)) = the_ring (calls q).
Proof. cbn. destruct (RingConc.threads (calls q) !! j) as [p|]; [|done]. by destruct (finished p). Qed.

Lemma pop_disarmed_eq c j o p : threads c !! j = Some (Done o) -> at_call j (published c) = Some p ->
  finished p = true -> threshold_ (the_ring (calls (published c))) < 0 ->
  let q := act r (Run j false) (act r (StartDequeue j false) (published c)) in
  run r (pop_alone j) c = goto j (Done (Popped make_empty)) (on_published r (Run j false) (on_published r (StartDequeue j false) c)) /\
  at_call j q = Some (DeqDone None) /\ the_ring (calls q) = the_ring (calls (published c)).
Proof.
  intros Ho Hp Hf Ht q. destruct (begin_dequeue r _ j p Hp Hf) as [H1 _]. pose proof (start_ring j (published c)) as R1.
  destruct (act_run j false _ _ H1) as [H2 R2]. rewrite R1 in H2, R2. cbn [IndexRing.step fst snd] in H2, R2.
  rewrite (proj2 (Z.ltb_lt _ 0) Ht) in H2. split; [|done].
  set (c1 := goto j (Take 0) (on_published r (StartDequeue j false) c)).
  assert (threads c1 !! j = Some (Take 0)) as T1 by by eapply goto_same.
  assert (step r (StartPop j) c = c1) as S1 by (cbn [step]; by rewrite Ho).
  assert (step r (Go j false) c1 = on_published r (Run j false) c1) as S2.
  { cbn [step]. rewrite T1. cbn [go go_push go_pop]. unfold take_access. change (published c1) with (act r (StartDequeue j false) (published c)).
    by rewrite H1. }
  assert (step r (Go j false) (on_published r (Run j false) c1) = goto j (Done (Popped make_empty)) (on_published r (Run j false) c1)) as S3.
  { cbn [step]. change (threads (on_published r (Run j false) c1)) with (threads c1). rewrite T1. cbn [go go_push go_pop].
    change (published (on_published r (Run j false) c1)) with (act r (Run j false) (act r (StartDequeue j false) (published c))).
    by rewrite H2. }
  change (run r (pop_alone j) c) with (step r (Go j false) (step r (Go j false) (step r (StartPop j) c))).
  rewrite S1, S2, S3. unfold c1, goto, on_published. cbn [available published slots occupied_count threads sent returned].
  by rewrite list_insert_insert_eq.
Qed.

Lemma disarmed_pop n c j : disarmed n c = true -> (j < n)%nat ->
  let c' := run r (pop_alone j) c in
  disarmed n c' = true /\ slots c' = slots c /\ returned c' = returned c /\
  ∀ i, threads c' !! i = if bool_decide (i = j) then Some (Done (Popped make_empty)) else threads c !! i.
Proof.
  intros [Ht%Z.ltb_lt Hd]%andb_true_iff Hj. rewrite forallb_forall in Hd.
  assert (In j (seq 0 n)) as Hin by (apply in_seq; lia). pose proof (Hd j Hin) as Hdj.
  destruct (threads c !! j) as [[o| | | | | | | | | |]|] eqn:Ho; try done.
  destruct (at_call j (published c)) as [p|] eqn:Hp; [|done].
  destruct (pop_disarmed_eq c j o p Ho Hp Hdj Ht) as (-> & H1 & H2). cbn [goto on_published slots returned threads published].
  split; [|split_and!; try done].
  2: { intros i. case_bool_decide as Hi; [subst; apply list_lookup_insert_eq; by eapply lookup_lt_Some|by rewrite list_lookup_insert_ne]. }
  unfold disarmed. cbn [goto on_published published threads]. rewrite H2. apply andb_true_iff. split; [by apply Z.ltb_lt|].
  apply forallb_forall. intros i Hi. destruct (decide (i = j)) as [->|Hne].
  - by rewrite list_lookup_insert_eq, H1 by (by eapply lookup_lt_Some).
  - rewrite list_lookup_insert_ne by done. rewrite !act_others by done. by apply Hd.
Qed.

Lemma disarmed_pops n js : ∀ c, disarmed n c = true -> Forall (λ j, (j < n)%nat) js ->
  let c' := run r (flat_map pop_alone js) c in
  slots c' = slots c /\ returned c' = returned c /\
  ∀ j, threads c' !! j = if bool_decide (j ∈ js) then Some (Done (Popped make_empty)) else threads c !! j.
Proof.
  induction js as [|j js IH]; intros c Hd Hjs; [done|]. apply Forall_cons in Hjs as [Hj Hjs].
  cbn [flat_map]. rewrite run_two. destruct (disarmed_pop n c j Hd Hj) as (Hd' & Hs & Hr & Ht).
  destruct (IH _ Hd' Hjs) as (Hs' & Hr' & Ht'). rewrite <- Hs, <- Hr. split; [done|]. split; [done|].
  intros i. rewrite Ht', Ht, (bool_decide_ext (i ∈ j :: js) (i = j \/ i ∈ js)) by apply elem_of_cons.
  repeat case_bool_decide; tauto.
Qed.

End disarmed.

(** Two threads on two slots: their pushes overlap, thread 1 is refused a third
    one, and thread 0 takes both events while thread 1 looks for more. *)
Definition overlapping : list (choice nat) :=
  StartPush 0 (inr 10%nat) :: StartPush 1 (inr 20%nat) :: goes 0 3 ++ goes 1 8 ++ goes 0 27 ++ goes 1 22.
Definition two_pops : list (choice nat) := StartPop 0 :: goes 0 30 ++ StartPop 0 :: goes 0 30.
Definition waiting (j : nat) : list (choice nat) := goes j 10050.

Lemma four_cells : 1 <= 2 <= 59.
Proof. lia. Qed.

Lemma slots_are_used_in_turn_witness :
  zlength (overlapping ++ two_pops) <= 2 ^ 60 /\ threads (run 2 (overlapping ++ two_pops) (start 2 2)) !! 0%nat <> Some Crashed.
Proof.
  assert (zlength (overlapping ++ two_pops) <= 2 ^ 60) as H by (vm_compute; discriminate).
  split; [exact H|]. exact (slots_are_used_in_turn 2 four_cells 2 _ H 0).
Defined.

Lemma events_arrive_once_witness : let c := run 2 (overlapping ++ StartPop 0 :: goes 0 4) (start 2 2) in
  NoDup (returned c).*1 /\ (∀ t e, (t, e) ∈ returned c -> sent c !! t = Some e) /\
  ∀ t e, sent c !! t = Some e -> (t, e) ∈ returned c \/ filled c e.
Proof. apply (events_arrive_once 2 four_cells 2). vm_compute. discriminate. Defined.

Lemma size_counts_the_events_witness : let c := run 2 overlapping (start 2 2) in
  forallb idle (threads c) = true /\ 0 <= size c <= half 2 /\
  (forallb idle (threads c) = true ->
    size c = event_count (slots c) /\ size c = Z.of_nat (base.size (sent c)) - zlength (returned c)).
Proof.
  split; [vm_compute; reflexivity|]. apply (size_counts_the_events 2 four_cells 2). vm_compute. discriminate.
Defined.

Lemma empty_means_taken_witness : ∃ a b, waiting 1 = a ++ b /\
  let c := run 2 ((overlapping ++ two_pops) ++ StartPop 1 :: a) (start 2 2) in
  ∀ t, is_Some (sent c !! t) ->
    taken c t \/ ∃ i e, threads c !! i = Some (Publish e) /\ pending (published c) !! i = Some t.
Proof.
  apply (empty_means_taken 2 four_cells 2 ((overlapping ++ two_pops) ++ StartPop 1 :: waiting 1)) with (o := Pushed success).
  - vm_compute. discriminate.
  - reflexivity.
  - vm_compute. discriminate.
  - vm_compute. reflexivity.
  - vm_compute. reflexivity.
  - vm_compute. reflexivity.
Defined.

Lemma full_means_in_use_witness : ∃ a b, waiting 1 = a ++ b /\
  let c := run 2 (overlapping ++ StartPush 1 (inr 30%nat) :: a) (start 2 2) in ∀ i, 0 <= i < half 2 -> in_use c i.
Proof.
  apply (full_means_in_use 2 four_cells 2 (overlapping ++ StartPush 1 (inr 30%nat) :: waiting 1)) with (o := Pushed success).
  - vm_compute. discriminate.
  - reflexivity.
  - vm_compute. discriminate.
  - vm_compute. reflexivity.
  - vm_compute. reflexivity.
  - vm_compute. reflexivity.
Defined.

Lemma events_leave_by_ticket_witness :
  let c1 := run 2 (push_alone 0 10) (start 2 2) in let c2 := run 2 (push_alone 0 20 ++ two_pops) c1 in
  1 ∈ (returned c2).*1 /\ taken c2 0.
Proof.
  assert (1 ∈ (returned (run 2 (push_alone 0 20 ++ two_pops) (run 2 (push_alone 0 10) (start 2 2)))).*1) as H.
  { vm_compute. right; left. }
  split; [exact H|].
  apply (events_leave_by_ticket 2 four_cells 2 (push_alone 0 10 ++ push_alone 0 20 ++ two_pops)) with (u := 1).
  - vm_compute. discriminate.
  - reflexivity.
  - vm_compute. eexists. reflexivity.
  - split; [vm_compute; reflexivity|]. intros j p Hp. vm_compute in Hp. destruct j as [|[|j]]; cbn in Hp; simplify_eq; discriminate.
  - exact H.
Defined.

(** Seven pops pass the test of [threshold_] on a queue of two slots that holds
    one event; one pop takes it, six find nothing and stop short of lowering
    the threshold; another event is pushed meanwhile. *)
Definition crowd : list (choice nat) :=
  push_alone 0 10 ++ flat_map (λ j, StartPop j :: goes j 1) (seq 1 7) ++ goes 1 30 ++
  flat_map (λ j, goes j 10005) (seq 2 6) ++ push_alone 0 20 ++ flat_map (λ j, goes j 30) (seq 2 6).

Definition crowded : config nat := run 2 crowd (start 2 8).

Definition summary (c : config nat) :=
  (forallb idle (threads c) && disarmed 8 c, threads c !! 0%nat, sent c !! 7, slots c, returned c, size c).

Lemma hidden_event c : summary c = (true, Some (Done (Pushed success)), Some 20%nat, [None; Some 20%nat], [(0, 10%nat)], 1) ->
  forallb idle (threads c) = true /\ threads c !! 0%nat = Some (Done (Pushed success)) /\
  sent c !! 7 = Some 20%nat /\ size c = 1 /\
  ∀ js, Forall (λ j, (j < 8)%nat) js -> let c' := run 2 (flat_map pop_alone js) c in
    slots c' = [None; Some 20%nat] /\ returned c' = [(0, 10%nat)] /\
    ∀ j, j ∈ js -> threads c' !! j = Some (Done (Popped make_empty)).
Proof.
  intros [= [H1 Hd]%andb_true_iff H2 H3 Hs Hr H4]. do 4 (split; [done|]).
  intros js Hjs. destruct (disarmed_pops 2 8 js c Hd Hjs) as (Hs' & Hr' & Ht). cbv zeta. rewrite Hs', Hr'.
  split_and!; try done. intros j Hj. by rewrite Ht, bool_decide_eq_true_2.
Qed.

(** C15: with more pops than the capacity a pushed event can be out of reach:
    every call has returned, the last push with success; its event is in its
    slot and [size()] is one, yet any further pops by any threads, as long as
    nothing is pushed, report an empty queue. *)
Theorem crowded_queue_hides_an_event :
  forallb idle (threads crowded) = true /\ threads crowded !! 0%nat = Some (Done (Pushed success)) /\
  sent crowded !! 7 = Some 20%nat /\ size crowded = 1 /\
  ∀ js, Forall (λ j, (j < 8)%nat) js -> let c := run 2 (flat_map pop_alone js) crowded in
    slots c = [None; Some 20%nat] /\ returned c = [(0, 10%nat)] /\
    ∀ j, j ∈ js -> threads c !! j = Some (Done (Popped make_empty)).
Proof. apply hidden_event. vm_compute. reflexivity. Qed.

End DataPath.
