(* ===== verification/LockFreeQueue.v ===== *)
(** * [bounded_lock_free_queue]: event slots behind two index rings

    One ring holds the indices of free slots, the other those of published
    events. The methods here are run one at a time; the ring calls are the
    word-level operations of [IndexRing]. Waiting methods are one pass of
    their loop, [None] standing for the wait at its end. *)

From S2P Require Import Prelude Types QueueSpec IndexRing RingWords RingAbs RingSolo.
Import PopResult.
Local Open Scope Z_scope.

Module LockFreeQueue.

Definition closed_bit : Z := 2 ^ 63.
Definition active_mask : Z := closed_bit - 1.

Record queue (E : Type) : Type := mk_queue {
  capacity_ : Z;
  slots_ : list (option E);
  available_indices_ : IndexRing.ring;
  published_indices_ : IndexRing.ring;
  occupied_count_ : Z;
  producer_gate_ : Z;
  consumer_gate_ : Z;
  producer_quiesced_ : bool;
  data_epoch_ : Z;
  capacity_epoch_ : Z;
}.
Arguments mk_queue {E}.
Arguments capacity_ {E} q.
Arguments slots_ {E} q.
Arguments available_indices_ {E} q.
Arguments published_indices_ {E} q.
Arguments occupied_count_ {E} q.
Arguments producer_gate_ {E} q.
Arguments consumer_gate_ {E} q.
Arguments producer_quiesced_ {E} q.
Arguments data_epoch_ {E} q.
Arguments capacity_epoch_ {E} q.

(** ** Construction *)

(** [std::has_single_bit]. *)
Definition has_single_bit (x : Z) : bool := negb (x =? 0) && (Z.land x (x - 1) =? 0).

Definition largest_capacity : Z := (2 ^ 63 - 1) / 3.

Definition validate_capacity (capacity : Z) : exn + Z :=
  if (capacity <? 2) || negb (has_single_bit capacity) then inl invalid_argument
  else if largest_capacity <? capacity then inl invalid_argument
  else inr capacity.

Definition make {E} (capacity : Z) : exn + queue E :=
  match validate_capacity capacity with
  | inl e => inl e
  | inr capacity => inr (mk_queue capacity (replicate (Z.to_nat capacity) None)
      (IndexRing.make capacity true) (IndexRing.make capacity false) 0 0 0 false 0 0)
  end.

(** ** Gates *)

Inductive gate : Type := producer_gate | consumer_gate.

Section ops.
Context {E : Type}.
Implicit Types q : queue E.

Definition gate_of (g : gate) q : Z :=
  match g with producer_gate => producer_gate_ q | consumer_gate => consumer_gate_ q end.

Definition with_gate (g : gate) (w : Z) q : queue E :=
  let '(mk_queue cap sl av pu oc pg cg qu de ce) := q in
  match g with
  | producer_gate => mk_queue cap sl av pu oc w cg qu de ce
  | consumer_gate => mk_queue cap sl av pu oc pg w qu de ce
  end.
Definition with_slots (sl : list (option E)) q : queue E :=
  let '(mk_queue cap _ av pu oc pg cg qu de ce) := q in
  mk_queue cap sl av pu oc pg cg qu de ce.
Definition with_available (av : IndexRing.ring) q : queue E :=
  let '(mk_queue cap sl _ pu oc pg cg qu de ce) := q in
  mk_queue cap sl av pu oc pg cg qu de ce.
Definition with_published (pu : IndexRing.ring) q : queue E :=
  let '(mk_queue cap sl av _ oc pg cg qu de ce) := q in
  mk_queue cap sl av pu oc pg cg qu de ce.
Definition with_occupied (oc : Z) q : queue E :=
  let '(mk_queue cap sl av pu _ pg cg qu de ce) := q in
  mk_queue cap sl av pu oc pg cg qu de ce.
Definition with_quiesced (qu : bool) q : queue E :=
  let '(mk_queue cap sl av pu oc pg cg _ de ce) := q in
  mk_queue cap sl av pu oc pg cg qu de ce.
Definition with_epochs (de ce : Z) q : queue E :=
  let '(mk_queue cap sl av pu oc pg cg qu _ _) := q in
  mk_queue cap sl av pu oc pg cg qu de ce.

(** The decision of the [operation_guard] constructor on a loaded gate word:
    the word to exchange it for, or nothing when the gate is closed. *)
Definition guard_admits (state : Z) : fault + option Z :=
  if Z.land state closed_bit =? 0 then
    if Z.land state active_mask =? active_mask then inl terminated
    else inr (Some (u64 (state + 1)))
  else inr None.

Definition guard_enter (g : gate) : M (queue E) bool :=
  q ← gets id;
  match guard_admits (gate_of g q) with
  | inl f => stuck f
  | inr None => mret false
  | inr (Some state) => modify (with_gate g state);; mret true
  end.

(** The destructor of an entered [operation_guard]. *)
Definition guard_leave (g : gate) q : queue E := with_gate g (u64 (gate_of g q - 1)) q.

(** The destructor runs when the body returns and when it throws. *)
Definition leaving {C A} (g : gate) (body : M (queue E * C) A) : M (queue E * C) A := fun s =>
  match body s with
  | Ret a (q, c) => Ret a (guard_leave g q, c)
  | Throw e (q, c) => Throw e (guard_leave g q, c)
  | Stuck f => Stuck f
  end.

(** Run [body] with the guard held, or return [refused]. *)
Definition guarded {C A} (g : gate) (refused : A) (body : M (queue E * C) A) :
    M (queue E * C) A :=
  entered ← on_fst (guard_enter g);
  if entered : bool then leaving g body else mret refused.

(** [close_gate]; with operations inside, it waits. *)
Definition close_gate (g : gate) : M (queue E) unit :=
  modify (fun q => with_gate g (Z.lor (gate_of g q) closed_bit) q);;
  q ← gets id;
  if Z.land (gate_of g q) active_mask =? 0 then mret tt else stuck blocked.

(** ** Calls on the rings and the counters *)

Definition on_available {A} (m : M IndexRing.ring A) : M (queue E) A := fun q =>
  match m (available_indices_ q) with
  | Ret a av => Ret a (with_available av q)
  | Throw e av => Throw e (with_available av q)
  | Stuck f => Stuck f
  end.
Definition on_published {A} (m : M IndexRing.ring A) : M (queue E) A := fun q =>
  match m (published_indices_ q) with
  | Ret a pu => Ret a (with_published pu q)
  | Throw e pu => Throw e (with_published pu q)
  | Stuck f => Stuck f
  end.

Definition signal_data : M (queue E) unit :=
  modify (fun q => with_epochs (u64 (data_epoch_ q + 1)) (capacity_epoch_ q) q).
Definition signal_capacity : M (queue E) unit :=
  modify (fun q => with_epochs (data_epoch_ q) (u64 (capacity_epoch_ q + 1)) q).

(** ** Slots *)

(** [std::construct_at(slots_[index].event(), ...)]: a slot that still holds
    an event would be overwritten without its destructor, which the model
    rules out as undefined behaviour; a throwing constructor leaves no event. *)
Definition construct_at {C} (index : Z) (fwd : forward C E) : M (queue E * C) unit := fun '(q, c) =>
  match slots_ q !!z index with
  | Some None =>
      match fwd c with
      | (inr e, c') => Ret tt (with_slots (<[index :=z Some e]> (slots_ q)) q, c')
      | (inl ex, c') => Throw ex (q, c')
      end
  | _ => Stuck undefined_behaviour
  end.

(** Move the event of a slot out and destroy what is left of it. *)
Definition take_at (index : Z) : M (queue E) E := fun q =>
  match slots_ q !!z index with
  | Some (Some e) => Ret e (with_slots (<[index :=z None]> (slots_ q)) q)
  | _ => Stuck undefined_behaviour
  end.

(** ** Operations *)

Definition publish_constructed_index (index : Z) : M (queue E) unit :=
  modify (fun q => with_occupied (u64 (occupied_count_ q + 1)) q);;
  on_published (IndexRing.enqueue index false);;
  signal_data.

Definition try_push_impl {C} (fwd : forward C E) : M (queue E * C) queue_status :=
  guarded producer_gate closed (
    o ← on_fst (on_available (IndexRing.try_dequeue false));
    match o with
    | None => mret full
    | Some index =>
        catch (construct_at index fwd) (fun e =>
          on_fst (on_available (IndexRing.enqueue index false);; signal_capacity);;
          throw e);;
        on_fst (publish_constructed_index index);;
        mret success
    end).

(** [try_emplace] repeats the body of [try_push_impl]. *)
Definition try_emplace {C} (fwd : forward C E) : M (queue E * C) queue_status :=
  guarded producer_gate closed (
    o ← on_fst (on_available (IndexRing.try_dequeue false));
    match o with
    | None => mret full
    | Some index =>
        catch (construct_at index fwd) (fun e =>
          on_fst (on_available (IndexRing.enqueue index false);; signal_capacity);;
          throw e);;
        on_fst (publish_constructed_index index);;
        mret success
    end).

Definition wait_push_impl {C} (stop : bool) (fwd : forward C E) :
    M (queue E * C) (option queue_status) :=
  result ← try_push_impl fwd;
  if negb (bool_decide (result = full)) then mret (Some result)
  else if stop then mret (Some stopped)
  else
    checked_result ← try_push_impl fwd;
    if negb (bool_decide (checked_result = full)) then mret (Some checked_result)
    else if stop then mret (Some stopped)
    else mret None.

Definition wait_push_until_impl {C} (stop expired : bool) (fwd : forward C E) :
    M (queue E * C) (option queue_status) :=
  result ← try_push_impl fwd;
  if negb (bool_decide (result = full)) then mret (Some result)
  else if stop then mret (Some stopped)
  else if expired then
    final_result ← try_push_impl fwd;
    mret (Some (if bool_decide (final_result = full) then timeout else final_result))
  else mret None.

Definition try_pop : M (queue E) (pop_result E) := fun q =>
  match guarded (C:=unit) consumer_gate make_closed (on_fst (
    o ← on_published (IndexRing.try_dequeue false);
    match o with
    | None => q ← gets id; mret (if producer_quiesced_ q then make_closed else make_empty)
    | Some index =>
        event ← take_at index;
        modify (fun q => with_occupied (u64 (occupied_count_ q - 1)) q);;
        on_available (IndexRing.enqueue index false);;
        signal_capacity;;
        mret (make_success event)
    end)) (q, tt) with
  | Ret r (q', _) => Ret r q'
  | Throw e (q', _) => Throw e q'
  | Stuck f => Stuck f
  end.

Definition is_empty_result (r : pop_result E) : bool := bool_decide (status r = empty).

Definition wait_pop (stop : bool) : M (queue E) (option (pop_result E)) :=
  result ← try_pop;
  if negb (is_empty_result result) then mret (Some result)
  else if stop then mret (Some make_stopped)
  else
    result ← try_pop;
    if negb (is_empty_result result) then mret (Some result)
    else if stop then mret (Some make_stopped)
    else mret None.

Definition close_producers : M (queue E) unit :=
  close_gate producer_gate;;
  modify (with_quiesced true);;
  signal_data;;
  signal_capacity.

Definition close : M (queue E) unit := close_producers.

(** The [while] loop of [close_and_discard]; [n] bounds its iterations. *)
Fixpoint discard_loop (n : nat) (discarded : Z) : M (queue E) Z :=
  o ← on_published (IndexRing.try_dequeue false);
  match o, n with
  | None, _ => mret discarded
  | Some _, O => stuck blocked
  | Some index, S n =>
      _ ← take_at index;
      modify (fun q => with_occupied (u64 (occupied_count_ q - 1)) q);;
      on_available (IndexRing.enqueue index false);;
      discard_loop n (u64 (discarded + 1))
  end.

Definition close_and_discard : M (queue E) Z :=
  close_producers;;
  close_gate consumer_gate;;
  q ← gets id;
  discarded ← discard_loop (length (slots_ q)) 0;
  signal_data;;
  signal_capacity;;
  mret discarded.

Definition capacity q : Z := capacity_ q.
Definition size : M (queue E) Z := gets occupied_count_.
Definition is_closed : M (queue E) bool :=
  gets (fun q => negb (Z.land (producer_gate_ q) closed_bit =? 0)).

(** The destructor's loop; it destroys every published event. *)
Fixpoint destroy (n : nat) : M (queue E) unit :=
  o ← on_published (IndexRing.try_dequeue false);
  match o, n with
  | None, _ => mret tt
  | Some _, O => stuck blocked
  | Some index, S n => _ ← take_at index; destroy n
  end.

End ops.

#[export] Instance lock_free_queue E : ConcurrentQueue E (queue E) := {
  q_try_push C := try_push_impl;
  q_try_emplace C := try_emplace;
  q_wait_push C := wait_push_impl;
  q_wait_push_until C := wait_push_until_impl;
  q_try_pop := try_pop;
  q_wait_pop := wait_pop;
  q_close := close;
  q_close_and_discard := close_and_discard;
  q_capacity := capacity;
  q_size := size;
  q_closed := is_closed;
}.

(** ** The representation invariant

    [core r free pub sl av pu its]: the slot indices are shared out between
    the two rings; the slots [sl] of the free ones hold nothing and those of
    the published ones hold [its], in order. *)
Section rep.
Context {E : Type}.
Implicit Types (q : queue E) (b : bounded_fifo E).
Abbreviation half := RingAbs.half.
Abbreviation holds := RingSolo.holds.

Record core (r : Z) (free pub : list Z) (sl : list (option E)) (av pu : IndexRing.ring)
    (its : list E) : Prop := {
  core_width : 2 <= r <= 59;
  core_slots : zlength sl = half r;
  core_available : holds r free av;
  core_published : holds r pub pu;
  core_indices : free ++ pub ≡ₚ seqZ 0 (half r);
  core_free : ∀ i, i ∈ free -> sl !!z i = Some None;
  core_live : Forall2 (fun i e => sl !!z i = Some (Some e)) pub its;
}.

(** The gates of a queue no operation is inside of. *)
Definition quiet q b : Prop :=
  producer_gate_ q = (if QueueSpec.is_closed b then closed_bit else 0) /\
  producer_quiesced_ q = QueueSpec.is_closed b /\
  (consumer_gate_ q = 0 \/
   consumer_gate_ q = closed_bit /\ QueueSpec.is_closed b = true /\ items b = []).

Definition rep q b : Prop :=
  ∃ r free pub,
    core r free pub (slots_ q) (available_indices_ q) (published_indices_ q) (items b) /\
    capacity_ q = half r /\ bound b = half r /\ occupied_count_ q = zlength (items b) /\
    quiet q b.

Lemma core_index r free pub sl av pu its i :
  core r free pub sl av pu its -> i ∈ free ++ pub -> 0 <= i < half r.
Proof. intros Hc Hi. rewrite (core_indices _ _ _ _ _ _ _ Hc) in Hi. apply elem_of_seqZ in Hi. lia. Qed.

Lemma core_disjoint r free pub sl av pu its : core r free pub sl av pu its -> NoDup (free ++ pub).
Proof. intros Hc. rewrite (core_indices _ _ _ _ _ _ _ Hc). apply NoDup_seqZ. Qed.

Lemma core_count r free pub sl av pu its :
  core r free pub sl av pu its ->
  zlength free + zlength its = half r /\ zlength pub = zlength its.
Proof.
  intros Hc. pose proof (Permutation_length (core_indices _ _ _ _ _ _ _ Hc)) as Hl.
  pose proof (Forall2_length _ _ _ (core_live _ _ _ _ _ _ _ Hc)).
  pose proof (core_width _ _ _ _ _ _ _ Hc). pose proof (RingAbs.half_pos r ltac:(lia)).
  rewrite length_app, length_seqZ in Hl. unfold zlength. lia.
Qed.

Lemma core_index_ok r free pub sl av pu its i :
  core r free pub sl av pu its -> i ∈ free ++ pub -> RingAbs.index_ok r i.
Proof.
  intros Hc Hi. pose proof (core_index _ _ _ _ _ _ _ _ Hc Hi).
  pose proof (core_width _ _ _ _ _ _ _ Hc). pose proof (RingAbs.size_half r ltac:(lia)).
  unfold RingAbs.index_ok. lia.
Qed.

(** The free ring gives an index whose slot is empty; without one the queue
    is full. *)
Lemma reserve r free pub sl av pu its :
  core r free pub sl av pu its ->
  ∃ av', IndexRing.try_dequeue false av = Ret (head free) av' /\ holds r (tail free) av'.
Proof.
  intros Hc. pose proof (core_width _ _ _ _ _ _ _ Hc).
  apply RingSolo.try_dequeue_holds; [lia|]. apply Hc.
Qed.

Lemma published_next r free pub sl av pu its :
  core r free pub sl av pu its ->
  ∃ pu', IndexRing.try_dequeue false pu = Ret (head pub) pu' /\ holds r (tail pub) pu'.
Proof.
  intros Hc. pose proof (core_width _ _ _ _ _ _ _ Hc).
  apply RingSolo.try_dequeue_holds; [lia|]. apply Hc.
Qed.

(** Storing an event in a reserved slot and publishing its index. *)
Lemma publish r i free pub sl av pu its av' e :
  core r (i :: free) pub sl av pu its -> holds r free av' ->
  ∃ pu', IndexRing.enqueue i false pu = Ret tt pu' /\
    core r free (pub ++ [i]) (<[i :=z Some e]> sl) av' pu' (its ++ [e]).
Proof.
  intros Hc Ha. pose proof (core_width _ _ _ _ _ _ _ Hc). pose proof (core_count _ _ _ _ _ _ _ Hc).
  pose proof (core_disjoint _ _ _ _ _ _ _ Hc) as Hd.
  assert (i ∈ (i :: free) ++ pub) as Hi by in_list.
  pose proof (core_index _ _ _ _ _ _ _ _ Hc Hi) as Hr.
  destruct (RingSolo.enqueue_holds r ltac:(lia) pub pu i) as (pu' & He & Hp).
  { apply Hc. }
  { zlen. pose proof (zlength_nonneg free). lia. }
  { by eapply core_index_ok. }
  exists pu'. split; [done|]. destruct Hc. simpl in Hd. apply NoDup_cons in Hd as [Hn _].
  assert (∀ j, j ∈ free ++ pub -> (<[i :=z Some e]> sl) !!z j = sl !!z j) as Hsame.
  { intros j Hj. apply zlookup_zinsert_ne. by intros ->. }
  split; try done.
  - by rewrite zlength_zinsert.
  - rewrite <- core_indices0. simpl. rewrite (assoc_L (++)), (Permutation_app_comm (free ++ pub)). done.
  - intros j Hj. rewrite Hsame by in_list. apply core_free0. in_list.
  - apply Forall2_app.
    + eapply Forall2_impl_elem; [exact core_live0|].
      intros j x Hj Hx. rewrite Hsame; [done|]. in_list.
    + constructor; [|done]. apply zlookup_zinsert_eq. lia.
Qed.

(** Giving the index back after the constructor threw. *)
Lemma give_back r i free pub sl av pu its av' :
  core r (i :: free) pub sl av pu its -> holds r free av' ->
  ∃ av'', IndexRing.enqueue i false av' = Ret tt av'' /\ core r (free ++ [i]) pub sl av'' pu its.
Proof.
  intros Hc Ha. pose proof (core_width _ _ _ _ _ _ _ Hc). pose proof (core_count _ _ _ _ _ _ _ Hc).
  assert (i ∈ (i :: free) ++ pub) as Hi by in_list.
  destruct (RingSolo.enqueue_holds r ltac:(lia) free av' i) as (av'' & He & Hp); [done|..].
  { zlen. pose proof (zlength_nonneg its). lia. }
  { by eapply core_index_ok. }
  exists av''. split; [done|]. destruct Hc. split; try done.
  - rewrite <- core_indices0. by rewrite (Permutation_app_comm free [i]).
  - intros j Hj. apply core_free0. in_list.
Qed.

(** Emptying the slot of the oldest event and freeing its index. *)
Lemma release r free i pub sl av pu e its pu' :
  core r free (i :: pub) sl av pu (e :: its) -> holds r pub pu' ->
  sl !!z i = Some (Some e) /\
  ∃ av', IndexRing.enqueue i false av = Ret tt av' /\
    core r (free ++ [i]) pub (<[i :=z None]> sl) av' pu' its.
Proof.
  intros Hc Hp. pose proof (core_width _ _ _ _ _ _ _ Hc). pose proof (core_count _ _ _ _ _ _ _ Hc).
  pose proof (core_disjoint _ _ _ _ _ _ _ Hc) as Hd.
  assert (i ∈ free ++ i :: pub) as Hi by in_list.
  pose proof (core_index _ _ _ _ _ _ _ _ Hc Hi) as Hr.
  destruct (RingSolo.enqueue_holds r ltac:(lia) free av i) as (av' & He & Ha).
  { apply Hc. }
  { zlen. pose proof (zlength_nonneg its). lia. }
  { by eapply core_index_ok. }
  destruct Hc. inversion core_live0 as [|? ? ? ? Hl Hls]; subst.
  split; [done|]. exists av'. split; [done|].
  rewrite <- Permutation_middle in Hd. apply NoDup_cons in Hd as [Hn _].
  assert (∀ j, j ∈ free ++ pub -> (<[i :=z None]> sl) !!z j = sl !!z j) as Hsame.
  { intros j Hj. apply zlookup_zinsert_ne. by intros ->. }
  split; try done.
  - by rewrite zlength_zinsert.
  - rewrite <- core_indices0. by rewrite <- (assoc_L (++)).
  - intros j [Hj| ->%list_elem_of_singleton]%elem_of_app.
    + rewrite Hsame by in_list. by apply core_free0.
    + apply zlookup_zinsert_eq. lia.
  - eapply Forall2_impl_elem; [exact Hls|].
    intros j x Hj Hx. rewrite Hsame; [done|]. in_list.
Qed.

End rep.

#[local] Arguments zlookup : simpl never.
#[local] Arguments zinsert : simpl never.

Section refinement.
Context {E : Type}.
Implicit Types (q : queue E) (b : bounded_fifo E).
Abbreviation half := RingAbs.half.

Lemma guarded_open {C A} g (refused : A) (body : M (queue E * C) A) q c :
  gate_of g q = 0 -> guarded g refused body (q, c) = leaving g body (with_gate g 1 q, c).
Proof. intros Hg. unfold guarded, guard_enter. run_m. by rewrite Hg. Qed.

Lemma guarded_closed {C A} g (refused : A) (body : M (queue E * C) A) q c :
  gate_of g q = closed_bit -> guarded g refused body (q, c) = Ret refused (q, c).
Proof. intros Hg. unfold guarded, guard_enter. run_m. by rewrite Hg. Qed.

Lemma core_full r free pub (sl : list (option E)) av pu b :
  core r free pub sl av pu (items b) -> bound b = RingAbs.half r ->
  QueueSpec.is_full b = match free with [] => true | _ => false end.
Proof.
  intros Hc Hb. destruct (core_count _ _ _ _ _ _ _ Hc) as [Hn _]. unfold QueueSpec.is_full.
  destruct free as [|i free].
  - zlen_nil. apply Z.eqb_eq. lia.
  - rewrite zlength_cons in Hn. pose proof (zlength_nonneg free). apply Z.eqb_neq. lia.
Qed.

(** Rebuild the invariant at the end of an operation. *)
Local Ltac close_rep r free pub :=
  exists r, free, pub; cbn; split_and!; try done; auto.

Lemma try_push_impl_refines {C} (fwd : forward C E) :
  refines (with_caller rep) (try_push_impl fwd) (spec_try_push fwd).
Proof.
  intros [q c] [b c'] [(r & free & pub & Hc & Hcap & Hb & Ho & Hpg & Hqu & Hcg) Heq].
  simpl in *. subst c'.
  unfold spec_try_push. rewrite bind_gets_id. unfold try_push_impl.
  destruct (QueueSpec.is_closed b) eqn:Hcl.
  { rewrite guarded_closed by done. cbn. eexists. split; [done|]. split; [|done].
    close_rep r free pub. unfold quiet. by rewrite Hcl. }
  destruct Hcg as [Hcg|(_ & ? & _)]; [|done].
  rewrite guarded_open, (core_full _ _ _ _ _ _ _ Hc Hb) by done.
  destruct (reserve _ _ _ _ _ _ _ Hc) as (av' & Hd & Ha').
  destruct q as [cap sl av pu oc pg cg qu de ce]. simpl in *. subst.
  pose proof (core_width _ _ _ _ _ _ _ Hc).
  unfold leaving, on_available, catch, construct_at. run_m. rewrite Hd.
  destruct free as [|i free]; cbn [head tail] in *.
  { cbn. eexists. split; [done|]. split; [|done]. close_rep r (@nil Z) pub.
    - destruct Hc. by split.
    - unfold quiet. cbn. rewrite Hcl. auto. }
  cbn. rewrite (core_free _ _ _ _ _ _ _ Hc i) by in_list.
  unfold spec_append. destruct (fwd c) as [[ex|e] c'].
  - destruct (give_back _ _ _ _ _ _ _ _ _ Hc Ha') as (av'' & He & Hc'). cbn. rewrite He. cbn.
    eexists. split; [done|]. split; [|done]. close_rep r (free ++ [i]) pub.
    unfold quiet. cbn. rewrite Hcl. auto.
  - destruct (publish _ _ _ _ _ _ _ _ _ e Hc Ha') as (pu' & He & Hc'). cbn.
    unfold publish_constructed_index, signal_data, on_published. run_m. rewrite He. cbn.
    eexists. split; [done|]. split; [|done]. close_rep r free (pub ++ [i]).
    + destruct (core_count _ _ _ _ _ _ _ Hc). rewrite zlength_app, zlength_cons. zlen_nil.
      pose proof (RingAbs.size_half r ltac:(lia)). pose proof (RingAbs.size_bound r ltac:(lia)).
      rewrite zlength_cons in *. pose proof (zlength_nonneg free). pose proof (zlength_nonneg (items b)).
      rewrite u64_small; lia.
    + unfold quiet. cbn. rewrite Hcl. auto.
Qed.

(** [try_emplace] is [try_push] on other constructor arguments. *)
Lemma try_emplace_try_push {C} (fwd : forward C E) : try_emplace fwd = try_push_impl fwd.
Proof. done. Qed.

(** The second attempt of a waiting push sees the queue of the first. *)
Lemma try_push_full {C} (fwd : forward C E) q b c :
  rep q b -> QueueSpec.is_closed b = false -> QueueSpec.is_full b = true ->
  ∃ q', try_push_impl fwd (q, c) = Ret full (q', c) /\ rep q' b.
Proof.
  intros Hr Hc Hf. pose proof (try_push_impl_refines fwd (q, c) (b, c) (conj Hr eq_refl)) as H.
  unfold spec_try_push in H. rewrite bind_gets_id, Hc, Hf in H.
  destruct H as ([q' c'] & Hq & [Hr' Hcc]). simpl in *. subst. by exists q'.
Qed.

(** A push that is not refused for lack of room behaves alike in the
    waiting and the non-waiting operations. *)
Lemma try_push_decided {C} (fwd : forward C E) q b c :
  rep q b -> QueueSpec.is_closed b || negb (QueueSpec.is_full b) = true ->
  match (if QueueSpec.is_closed b then mret closed else spec_append fwd;; mret success) (b, c) with
  | Ret st t' => ∃ t, try_push_impl fwd (q, c) = Ret st t /\ with_caller rep t t' /\ st <> full
  | Throw e t' => ∃ t, try_push_impl fwd (q, c) = Throw e t /\ with_caller rep t t'
  | Stuck f => False
  end.
Proof.
  intros Hr Hc. pose proof (try_push_impl_refines fwd (q, c) (b, c) (conj Hr eq_refl)) as H.
  unfold spec_try_push in H. rewrite bind_gets_id in H.
  destruct (QueueSpec.is_closed b); [by destruct H as (t & ? & ?); exists t|].
  destruct (QueueSpec.is_full b); [done|]. unfold mbind, M_bind, spec_append in *.
  destruct (fwd c) as [[ex|e] c']; [done|]. by destruct H as (t & ? & ?); exists t.
Qed.

Lemma wait_push_impl_refines {C} stop (fwd : forward C E) :
  refines (with_caller rep) (wait_push_impl stop fwd) (spec_wait_push stop fwd).
Proof.
  intros [q c] [b c'] [Hr Heq]. simpl in *. subst c'.
  unfold wait_push_impl, spec_wait_push. rewrite bind_gets_id.
  destruct (QueueSpec.is_closed b || negb (QueueSpec.is_full b)) eqn:Hd.
  - pose proof (try_push_decided fwd q b c Hr Hd) as H.
    destruct (QueueSpec.is_closed b) eqn:Hcl; [|destruct (QueueSpec.is_full b); [done|]];
      unfold mbind, M_bind, spec_append in *.
    + destruct H as (t & -> & Ht & Hne). rewrite bool_decide_false by done. by exists t.
    + destruct (fwd c) as [[ex|e] c'].
      * by destruct H as (t & -> & Ht); exists t.
      * destruct H as (t & -> & Ht & Hne). rewrite bool_decide_false by done. by exists t.
  - apply orb_false_iff in Hd as [Hcl Hf%negb_false_iff]. rewrite Hcl, Hf.
    destruct (try_push_full fwd q b c Hr Hcl Hf) as (q1 & H1 & Hr1).
    destruct (try_push_full fwd q1 b c Hr1 Hcl Hf) as (q2 & H2 & Hr2).
    unfold mbind, M_bind. rewrite H1, bool_decide_true by done. cbn [negb].
    destruct stop; [by eexists|]. rewrite H2, bool_decide_true by done. by eexists.
Qed.

Lemma wait_push_until_impl_refines {C} stop expired (fwd : forward C E) :
  refines (with_caller rep) (wait_push_until_impl stop expired fwd)
    (spec_wait_push_until stop expired fwd).
Proof.
  intros [q c] [b c'] [Hr Heq]. simpl in *. subst c'.
  unfold wait_push_until_impl, spec_wait_push_until. rewrite bind_gets_id.
  destruct (QueueSpec.is_closed b || negb (QueueSpec.is_full b)) eqn:Hd.
  - pose proof (try_push_decided fwd q b c Hr Hd) as H.
    destruct (QueueSpec.is_closed b) eqn:Hcl; [|destruct (QueueSpec.is_full b); [done|]];
      unfold mbind, M_bind, spec_append in *.
    + destruct H as (t & -> & Ht & Hne). rewrite bool_decide_false by done. by exists t.
    + destruct (fwd c) as [[ex|e] c'].
      * by destruct H as (t & -> & Ht); exists t.
      * destruct H as (t & -> & Ht & Hne). rewrite bool_decide_false by done. by exists t.
  - apply orb_false_iff in Hd as [Hcl Hf%negb_false_iff]. rewrite Hcl, Hf.
    destruct (try_push_full fwd q b c Hr Hcl Hf) as (q1 & H1 & Hr1).
    destruct (try_push_full fwd q1 b c Hr1 Hcl Hf) as (q2 & H2 & Hr2).
    unfold mbind, M_bind. rewrite H1, bool_decide_true by done. cbn [negb].
    destruct stop; [by eexists|]. destruct expired; [|by eexists].
    rewrite H2, bool_decide_true by done. by eexists.
Qed.

Lemma try_pop_refines : refines rep (try_pop (E:=E)) spec_try_pop.
Proof.
  intros q b (r & free & pub & Hc & Hcap & Hb & Ho & Hpg & Hqu & Hcg).
  unfold spec_try_pop. rewrite bind_gets_id. unfold try_pop.
  destruct Hcg as [Hcg|(Hcg & Hcl & Hi)].
  2: { rewrite guarded_closed, Hi, Hcl by done. cbn. eexists. split; [done|].
    exists r, free, pub. unfold quiet. rewrite Hcl in *. split_and!; auto. }
  rewrite guarded_open by done.
  destruct (published_next _ _ _ _ _ _ _ Hc) as (pu' & Hd & Hp').
  destruct q as [cap sl av pu oc pg cg qu de ce]. simpl in *. subst.
  pose proof (core_width _ _ _ _ _ _ _ Hc).
  unfold leaving, on_published, take_at. run_m. rewrite Hd. cbn.
  destruct (core_count _ _ _ _ _ _ _ Hc) as [Hn Hl].
  destruct (items b) as [|e its] eqn:Hi, pub as [|i pub]; rewrite ?zlength_cons in Hl;
    zlen_nil; cbn [head tail] in *; try (pose proof (zlength_nonneg its));
    try (pose proof (zlength_nonneg pub)); try lia.
  - cbn. eexists. split; [done|]. close_rep r free (@nil Z); rewrite ?Hi; try done.
    + destruct Hc. by split.
    + unfold quiet. cbn. auto.
  - destruct (release _ _ _ _ _ _ _ _ _ _ Hc Hp') as (Hs & av' & He & Hc'). cbn. rewrite Hs. cbn.
    unfold on_available. cbn. rewrite He. cbn. eexists. split; [done|].
    close_rep r (free ++ [i]) pub; rewrite ?zlength_cons; [|by unfold quiet; cbn; auto].
    pose proof (RingAbs.size_half r ltac:(lia)). pose proof (RingAbs.size_bound r ltac:(lia)).
    rewrite zlength_cons in *. pose proof (zlength_nonneg free). rewrite u64_small; lia.
Qed.

Lemma wait_pop_refines stop : refines rep (wait_pop (E:=E) stop) (spec_wait_pop stop).
Proof.
  intros q b Hr. unfold wait_pop, spec_wait_pop. rewrite bind_gets_id.
  pose proof (try_pop_refines q b Hr) as H. unfold spec_try_pop in H. rewrite bind_gets_id in H.
  unfold mbind, M_bind, modify, mret, M_ret in *.
  destruct (items b) as [|e its] eqn:Hi.
  2: { destruct H as (q1 & -> & Hr1). by exists q1. }
  destruct H as (q1 & -> & Hr1). destruct (QueueSpec.is_closed b) eqn:Hcl; [by exists q1|].
  cbn. destruct stop; [by exists q1|].
  pose proof (try_pop_refines q1 b Hr1) as H. unfold spec_try_pop in H.
  rewrite bind_gets_id, Hi, Hcl in H. cbn in H.
  destruct H as (q2 & H2 & Hr2). change (is_empty_result (E:=E) make_empty) with true. cbn.
  rewrite H2. by exists q2.
Qed.

Lemma close_producers_spec q b :
  rep q b ->
  ∃ q', close_producers q = Ret tt q' /\ rep q' (mk_fifo (items b) (bound b) true) /\
    consumer_gate_ q' = consumer_gate_ q.
Proof.
  intros (r & free & pub & Hc & Hcap & Hb & Ho & Hpg & Hqu & Hcg).
  unfold close_producers, close_gate. run_m.
  destruct q as [cap sl av pu oc pg cg qu de ce]. simpl in *. subst.
  assert (Z.lor (if QueueSpec.is_closed b then closed_bit else 0) closed_bit = closed_bit) as ->
    by by destruct (QueueSpec.is_closed b).
  change (Z.land closed_bit active_mask =? 0) with true. cbn.
  eexists. split; [done|]. split; [|done]. close_rep r free pub.
  unfold quiet. cbn. split_and!; auto. destruct Hcg as [|(? & ? & ?)]; auto.
Qed.

Lemma discard_loop_spec n : ∀ r free pub sl av pu (its : list E) k cap pg cg qu de ce,
  core r free pub sl av pu its -> (length its <= n)%nat -> 0 <= k ->
  k + zlength its < 2 ^ 64 ->
  ∃ r' free' sl' av' pu', half r' = half r /\ core r' free' [] sl' av' pu' (@nil E) /\
    discard_loop n k (mk_queue cap sl av pu (zlength its) pg cg qu de ce) =
      Ret (k + zlength its) (mk_queue cap sl' av' pu' 0 pg cg qu de ce).
Proof.
  induction n as [|n IH]; intros r free pub sl av pu its k cap pg cg qu de ce Hc Hn Hk Hb;
    destruct (published_next _ _ _ _ _ _ _ Hc) as (pu' & Hd & Hp');
    destruct (core_count _ _ _ _ _ _ _ Hc) as [Hf Hl]; unfold zlength in Hl;
    destruct its as [|e its], pub as [|i pub]; simpl in *; try lia; cbn [discard_loop];
    unfold on_published; run_m; rewrite Hd; cbn.
  1-2: exists r, free, sl, av, pu'; split_and!; try done; [by destruct Hc; split|];
       by rewrite Z.add_0_r.
  destruct (release _ _ _ _ _ _ _ _ _ _ Hc Hp') as (Hs & av' & He & Hc').
  unfold take_at. cbn. rewrite Hs. cbn. unfold on_available. cbn. rewrite He. cbn.
  rewrite zlength_cons in *. pose proof (zlength_nonneg its).
  replace (u64 (zlength its + 1 - 1)) with (zlength its) by (rewrite u64_small; lia).
  rewrite (u64_small (k + 1)) by lia.
  replace (k + (zlength its + 1)) with ((k + 1) + zlength its) by lia.
  by apply (IH r (free ++ [i]) pub); [done|lia..].
Qed.

Lemma close_and_discard_refines : refines rep (close_and_discard (E:=E)) spec_close_and_discard.
Proof.
  intros q b Hr. unfold close_and_discard, spec_close_and_discard. rewrite bind_gets_id.
  destruct (close_producers_spec q b Hr) as (q1 & H1 & Hr1 & Hcg1).
  destruct Hr1 as (r & free & pub & Hc & Hcap & Hb & Ho & Hpg & Hqu & Hcg).
  unfold mbind, M_bind. rewrite H1. unfold close_gate. run_m. clear H1.
  destruct q1 as [cap sl av pu oc pg cg qu de ce]. simpl in *. subst.
  assert (Z.lor (consumer_gate_ q) closed_bit = closed_bit) as ->.
  { by destruct Hcg as [-> |(-> & _)]. }
  change (Z.land closed_bit active_mask =? 0) with true. cbn.
  destruct (core_count _ _ _ _ _ _ _ Hc) as [Hf _]. pose proof (zlength_nonneg free).
  pose proof (core_width _ _ _ _ _ _ _ Hc). pose proof (core_slots _ _ _ _ _ _ _ Hc).
  pose proof (RingAbs.size_half r ltac:(lia)). pose proof (RingAbs.size_bound r ltac:(lia)).
  destruct (discard_loop_spec (length sl) r free pub sl av pu (items b) 0 (half r)
    closed_bit closed_bit true de ce Hc) as (r' & free' & sl' & av' & pu' & Hh & Hc' & Hd);
    [unfold zlength in *; lia|lia|lia|].
  rewrite Hd. cbn. eexists. split; [done|]. exists r', free', []. cbn.
  split_and!; try done; try congruence. unfold quiet. cbn. split_and!; auto.
Qed.

#[export] Instance lock_free_queue_refines : QueueRefines E (queue E).
Proof.
  refine {| q_rep := rep |}.
  - intros q b (r & free & pub & Hc & Hcap & Hb & _).
    destruct (core_count _ _ _ _ _ _ _ Hc). pose proof (zlength_nonneg free).
    split; [lia|]. cbn. unfold capacity. congruence.
  - intros C fwd. apply try_push_impl_refines.
  - intros C fwd. apply try_push_impl_refines.
  - intros C stop fwd. apply wait_push_impl_refines.
  - intros C stop expired fwd. apply wait_push_until_impl_refines.
  - apply try_pop_refines.
  - apply wait_pop_refines.
  - intros q b Hr. destruct (close_producers_spec q b Hr) as (q' & ? & ? & _). by exists q'.
  - apply close_and_discard_refines.
  - intros q b Hr. exists q. split; [|done]. destruct Hr as (? & ? & ? & _ & _ & _ & Ho & _).
    cbn. unfold size, gets. by rewrite Ho.
  - intros q b Hr. exists q. split; [|done]. destruct Hr as (? & ? & ? & _ & _ & _ & _ & Hpg & _).
    cbn. unfold is_closed, gets. rewrite Hpg. by destruct (QueueSpec.is_closed b).
Defined.

(** ** Construction *)

Lemma has_single_bit_pow k : 0 <= k -> has_single_bit (2 ^ k) = true.
Proof.
  intros Hk. unfold has_single_bit. pose proof (Z.pow_pos_nonneg 2 k ltac:(lia) Hk).
  apply andb_true_iff. split; [apply negb_true_iff, Z.eqb_neq; lia|].
  apply Z.eqb_eq. replace (2 ^ k - 1) with (Z.ones k) by (rewrite Z.ones_equiv; lia).
  rewrite Z.land_ones by lia. by apply Z.mod_same; lia.
Qed.

(** [validate_capacity] accepts exactly the powers of two in its range. *)
Lemma has_single_bit_inv x : 0 < x -> has_single_bit x = true -> x = 2 ^ Z.log2 x.
Proof.
  intros Hx. unfold has_single_bit. intros [_ Hl%Z.eqb_eq]%andb_true_iff.
  destruct (Z.log2_spec x Hx) as [Hlo Hhi].
  destruct (decide (x = 2 ^ Z.log2 x)) as [|Hne]; [done|exfalso].
  pose proof (Z.log2_nonneg x).
  assert (Z.log2 (x - 1) = Z.log2 x) as Hl1.
  { apply Z.log2_unique; [done|]. lia. }
  pose proof (Z.bit_log2 x Hx) as B1. pose proof (Z.bit_log2 (x - 1)) as B2.
  rewrite Hl1 in B2. assert (Z.testbit (Z.land x (x - 1)) (Z.log2 x) = false) as B.
  { rewrite Hl. apply Z.bits_0. }
  assert (0 < 2 ^ Z.log2 x) by (apply Z.pow_pos_nonneg; lia).
  rewrite Z.land_spec, B1, B2 in B by lia. done.
Qed.

Lemma make_rep cap q :
  0 <= cap <= 2 ^ 58 -> make (E:=E) cap = inr q -> rep q (mk_fifo [] cap false).
Proof.
  intros Hcap. unfold make, validate_capacity.
  destruct (Z.ltb_spec cap 2); [done|]. destruct (has_single_bit cap) eqn:Hs; [|done]. cbn.
  destruct (largest_capacity <? cap); [done|]. intros [= <-].
  apply has_single_bit_inv in Hs; [|lia]. set (k := Z.log2 cap) in *.
  assert (1 <= k).
  { subst k. change 1 with (Z.log2 2). apply Z.log2_le_mono. lia. }
  assert (k <= 58).
  { subst k. change 58 with (Z.log2 (2 ^ 58)). apply Z.log2_le_mono. lia. }
  assert (half (k + 1) = cap) as Hh.
  { unfold half. rewrite Hs. f_equal. lia. }
  pose proof (RingSolo.make_holds (k + 1) ltac:(lia)) as Hm. rewrite Hh in Hm.
  exists (k + 1), (seqZ 0 cap), []. cbn. split_and!; try done; try (by rewrite Hh).
  2: { unfold quiet. cbn. auto. }
  split; rewrite ?Hh; try done; try lia.
  - apply zlength_replicate. lia.
  - apply (Hm true).
  - apply (Hm false).
  - by rewrite app_nil_r.
  - intros i [? ?]%elem_of_seqZ. apply zlookup_replicate. lia.
Qed.

(** ** Destruction *)

(** The free ring is left alone; [av] follows it as if the indices were
    returned. *)
Lemma destroy_spec n : ∀ r free pub sl av av' pu (its : list E) cap oc pg cg qu de ce,
  core r free pub sl av pu its -> (length its <= n)%nat ->
  ∃ sl' pu', Forall (eq None) sl' /\
    destroy n (mk_queue cap sl av' pu oc pg cg qu de ce) =
      Ret tt (mk_queue cap sl' av' pu' oc pg cg qu de ce).
Proof.
  induction n as [|n IH]; intros r free pub sl av av' pu its cap oc pg cg qu de ce Hc Hn;
    destruct (published_next _ _ _ _ _ _ _ Hc) as (pu' & Hd & Hp');
    destruct (core_count _ _ _ _ _ _ _ Hc) as [Hf Hl]; unfold zlength in Hl;
    destruct its as [|e its], pub as [|i pub]; simpl in *; try lia; cbn [destroy];
    unfold on_published; run_m; rewrite Hd; cbn.
  1-2: exists sl, pu'; split; [|done]; apply Forall_lookup; intros j o Hj.
  1-2: assert (Hz : sl !!z Z.of_nat j = Some o) by by rewrite zlookup_of_nat.
  1-2: assert (Hjf : Z.of_nat j ∈ free).
  1,3: pose proof (core_indices _ _ _ _ _ _ _ Hc) as Hi; rewrite app_nil_r in Hi; rewrite Hi;
    apply elem_of_seqZ; apply zlookup_range in Hz; rewrite (core_slots _ _ _ _ _ _ _ Hc) in Hz; lia.
  1-2: rewrite (core_free _ _ _ _ _ _ _ Hc) in Hz by done; congruence.
  destruct (release _ _ _ _ _ _ _ _ _ _ Hc Hp') as (Hs & av1 & He & Hc').
  unfold take_at. cbn. rewrite Hs. cbn. apply (IH r (free ++ [i]) pub _ av1 av' pu' its); [done|lia].
Qed.

(** Destroying a queue that no operation is inside of ends, and
    destroys every event that was still queued: no slot holds one after. *)
Theorem destroy_releases_every_event (q : queue E) b :
  rep q b -> ∃ q', destroy (length (items b)) q = Ret tt q' /\ Forall (eq None) (slots_ q').
Proof.
  intros (r & free & pub & Hc & _). destruct q as [cap sl av pu oc pg cg qu de ce].
  destruct (destroy_spec (length (items b)) r free pub sl av av pu (items b) cap oc pg cg qu de ce Hc)
    as (sl' & pu' & Hf & He); [lia|]. by eexists.
Qed.

End refinement.

(** C40: of all the 64-bit capacities exactly the powers of two from [2] to
    [2^61] are accepted, and for those neither the ring size [2c] nor the
    retry threshold [3c - 1] overflows its word. *)
Theorem accepted_capacities c :
  0 <= c < 2 ^ 64 ->
  (validate_capacity c = inr c /\ ∃ k, 1 <= k <= 61 /\ c = 2 ^ k /\
     u64 (c * 2) = c * 2 /\ s64 (u64 (c + u64 (c * 2) - 1)) = 3 * c - 1) \/
  (validate_capacity c = inl invalid_argument /\ ∀ k, 1 <= k <= 61 -> c <> 2 ^ k).
Proof.
  intros Hc. unfold validate_capacity. destruct (Z.ltb_spec c 2) as [H2|H2]; cbn [orb].
  { right. split; [done|]. intros k Hk ->. pose proof (Z.pow_le_mono_r 2 1 k). lia. }
  destruct (has_single_bit c) eqn:Hs; cbn [negb].
  2: { right. split; [done|]. intros k Hk ->. by rewrite has_single_bit_pow in Hs by lia. }
  apply has_single_bit_inv in Hs; [|lia]. change largest_capacity with 3074457345618258602.
  assert (Hk1 : 1 <= Z.log2 c) by (change 1 with (Z.log2 2); apply Z.log2_le_mono; lia).
  destruct (Z.ltb_spec 3074457345618258602 c) as [Hl|Hl].
  - right. split; [done|]. intros k Hk Hck. pose proof (Z.pow_le_mono_r 2 k 61). lia.
  - left. split; [done|]. exists (Z.log2 c).
    assert (Z.log2 c <= 61) by (change 61 with (Z.log2 3074457345618258602); by apply Z.log2_le_mono).
    split_and!; [lia..|done| |].
    + apply u64_small. lia.
    + rewrite !u64_small, s64_small by (rewrite ?u64_small; lia). lia.
Qed.

(** ** A queue of two slots that holds one event *)

Definition two_free : queue Z :=
  mk_queue 2 [None; None] (IndexRing.make 2 true) (IndexRing.make 2 false) 0 0 0 false 0 0.

Lemma two_free_rep : q_rep two_free (mk_fifo [] 2 false).
Proof. by apply (make_rep 2). Qed.

Definition one_queued : queue Z := (run_ops [OpTryPush (inr 7)] two_free).2.

Lemma one_queued_rep : q_rep one_queued (mk_fifo [7] 2 false).
Proof. exact (proj2 (run_ops_refines [OpTryPush (inr 7)] two_free _ two_free_rep)). Qed.

Lemma destroy_releases_every_event_witness :
  slots_ one_queued = [Some 7; None] /\
  ∃ q', destroy 1 one_queued = Ret tt q' /\ Forall (eq None) (slots_ q').
Proof.
  split; [vm_compute; reflexivity|].
  exact (destroy_releases_every_event one_queued _ one_queued_rep).
Defined.

Lemma accepted_capacities_witness :
  validate_capacity 48 = inl invalid_argument /\ ∀ k, 1 <= k <= 61 -> 48 <> 2 ^ k.
Proof.
  destruct (accepted_capacities 48 ltac:(split; [discriminate|reflexivity])) as [[H _]|H];
    [discriminate H|exact H].
Defined.

End LockFreeQueue.
Export (hints) LockFreeQueue.
