(* ===== verification/QueuePolicies.v ===== *)
(** * The two queue policies side by side

    What a client may rely on whichever policy it picks: both run every
    program as the bounded FIFO does, give back what they were given, hand
    out well-formed results that account for every event, and undo a push
    whose event fails to build. *)

From S2P Require Import Prelude Types QueueSpec IndexRing RingWords RingAbs RingSolo.
From S2P Require Import MutexQueue LockFreeQueue.
Import PopResult.
Local Open Scope Z_scope.

Module QueuePolicies.

(** What the caller of a program of calls gets to see. *)
Definition answers {E Q : Type} {CQ : ConcurrentQueue E Q} (ops : list (queue_op E)) (q : Q) :
    list (queue_obs E) := (run_ops ops q).1.

Section generic.
Context {E Q : Type} {CQ : ConcurrentQueue E Q} {HQ : QueueRefines E Q}.

Lemma answers_refine ops (q : Q) (b : bounded_fifo E) :
  q_rep q b -> answers ops q = answers ops b.
Proof. intros Hq. apply (run_ops_refines ops q b Hq). Qed.

Lemma answers_cons {Q'} {CQ' : ConcurrentQueue E Q'} op ops (q : Q') :
  answers (op :: ops) q = (run_op op q).1 :: answers ops (run_op op q).2.
Proof. apply run_ops_cons. Qed.

Lemma answers_app {Q'} {CQ' : ConcurrentQueue E Q'} ops ops' (q : Q') :
  answers (ops ++ ops') q = answers ops q ++ answers ops' (run_ops ops q).2.
Proof.
  unfold answers.
  revert q. induction ops as [|op ops IH]; intros q; [done|]. cbn [app run_ops].
  destruct (run_op op q) as [o q']. specialize (IH q').
  destruct (run_ops (ops ++ ops') q') as [os1 q1], (run_ops ops q') as [os2 q2].
  cbn in *. by rewrite IH.
Qed.

(** Filling and emptying the abstract FIFO. *)
Lemma spec_fill (l k : list E) bd :
  zlength k + zlength l <= bd ->
  run_ops ((fun e => OpTryPush (inr e)) <$> l) (mk_fifo k bd false) =
    (replicate (length l) (ObsStatus success true), mk_fifo (k ++ l) bd false).
Proof.
  revert k. induction l as [|e l IH]; intros k Hl; [by rewrite app_nil_r|].
  cbn [fmap list_fmap run_ops length replicate]. zlen. pose proof (zlength_nonneg l).
  assert (Hop : run_op (OpTryPush (inr e)) (mk_fifo k bd false) =
    (ObsStatus success true, mk_fifo (k ++ [e]) bd false)).
  { cbn. unfold observe_push, spec_try_push, is_full. run_m.
    destruct (Z.eqb_spec (zlength k) bd); [lia|done]. }
  rewrite Hop, IH by (zlen; lia). by rewrite <- app_assoc.
Qed.

Lemma spec_empty (l : list E) bd n :
  answers (replicate (length l + n) OpTryPop) (mk_fifo l bd false) =
    ((fun e => ObsPop (make_success e)) <$> l) ++ replicate n (ObsPop make_empty).
Proof.
  induction l as [|e l IH]; cbn [length Nat.add replicate].
  - induction n as [|n IHn]; [done|]. cbn [replicate]. rewrite answers_cons.
    by apply (f_equal2 cons).
  - rewrite answers_cons. by apply (f_equal2 cons).
Qed.

(** C38: what is pushed into an empty queue within its capacity comes back
    from the pops, each event once and in the order of the pushes, and the
    pops after it report [empty]. *)
Theorem pushed_events_come_back (q : Q) bd (l : list E) n :
  q_rep q (mk_fifo [] bd false) -> zlength l <= bd ->
  answers (((fun e => OpTryPush (inr e)) <$> l) ++ replicate (length l + n) OpTryPop) q =
    replicate (length l) (ObsStatus success true) ++
    ((fun e => ObsPop (make_success e)) <$> l) ++ replicate n (ObsPop make_empty).
Proof.
  intros Hq Hl. rewrite (answers_refine _ q _ Hq), answers_app.
  unfold answers at 1. rewrite spec_fill by (zlen_nil; lia). cbn [fst snd]. f_equal. apply spec_empty.
Qed.

(** After [close], the events accepted before it still come out in
    order, then every pop reports [closed], and every push is refused with
    the caller's event untouched. *)
Theorem closed_queue_drains (q : Q) b e n :
  q_rep q b ->
  answers (OpClose :: OpTryPush (inr e) :: replicate (length (items b) + n) OpTryPop) q =
    ObsUnit :: ObsStatus closed false ::
    ((fun e => ObsPop (make_success e)) <$> items b) ++ replicate n (ObsPop make_closed).
Proof.
  intros Hq. rewrite (answers_refine _ q b Hq), answers_cons.
  apply (f_equal2 cons); [done|]. rewrite answers_cons.
  apply (f_equal2 cons); [done|]. apply spec_drain.
Qed.

Definition well_formed (o : queue_obs E) : Prop :=
  match o with ObsPop r => built r | ObsStuck _ => False | _ => True end.

Lemma spec_op_well_formed op (b : bounded_fifo E) : well_formed (run_op op b).1.
Proof.
  destruct b as [its bd cl].
  destruct op; cbn; unfold observe_push, observe_wait_push, observe, spec_try_push,
    spec_wait_push, spec_wait_push_until, spec_try_pop, spec_wait_pop, spec_append; run_m.
  all: try destruct arg; try destruct cl; try destruct (is_full _); try destruct stop;
    try destruct expired; try destruct its; cbn; try done; constructor.
Qed.

(** What a program put in, got out and threw away, read off its answers. *)
Definition argument (op : queue_op E) : list E :=
  match op with
  | OpTryPush (inr e) | OpTryEmplace (inr e) | OpWaitPush _ (inr e) | OpWaitPushUntil _ _ (inr e) => [e]
  | _ => []
  end.
Definition entered (ops : list (queue_op E)) (os : list (queue_obs E)) : list E :=
  concat (zip_with (fun op o => if o is ObsStatus success _ then argument op else []) ops os).
Definition came_out (os : list (queue_obs E)) : list E :=
  concat ((fun o => if o is ObsPop r then option_list (value_ r) else []) <$> os).
Definition thrown_away (ops : list (queue_op E)) (os : list (queue_obs E)) : Z :=
  sum_of id (zip_with (fun op o =>
    match op, o with OpCloseAndDiscard, ObsCount n => n | _, _ => 0 end) ops os).

(** The answers [os] to [ops] are well formed, and what has entered has come
    out in its order, was discarded, or is one of at most [cap] events left. *)
Definition accounts (cap : Z) (ops : list (queue_op E)) (os : list (queue_obs E)) : Prop :=
  Forall well_formed os /\
  ∃ gone left, entered ops os = came_out os ++ gone ++ left /\
    zlength gone = thrown_away ops os /\ zlength left <= cap.

(** One call on the bounded FIFO. *)
Lemma spec_op_accounts op (b : bounded_fifo E) :
  let os := [(run_op op b).1] in let b' := (run_op op b).2 in
  zlength (items b) <= bound b ->
  bound b' = bound b /\ zlength (items b') <= bound b /\
  (is_closed b = true -> is_closed b' = true /\ entered [op] os = []) /\
  ∃ gone, items b ++ entered [op] os = came_out os ++ gone ++ items b' /\
    zlength gone = thrown_away [op] os /\ (gone = [] \/ is_closed b' = true /\ items b' = []).
Proof.
  destruct b as [its bd cl]. cbn zeta. intros Hb. cbn in Hb. pose proof (zlength_nonneg its).
  unfold entered, came_out, thrown_away.
  destruct op as [[]|[]|? []|? ? []| | | | | |]; cbn; unfold observe_push, observe_wait_push, observe,
    spec_try_push, spec_wait_push, spec_wait_push_until, spec_try_pop, spec_wait_pop, spec_append,
    spec_close, spec_close_and_discard; run_m; unfold is_full; cbn.
  all: try (destruct cl; cbn). all: try (destruct (Z.eqb_spec (zlength its) bd); cbn).
  all: try (destruct stop; cbn). all: try (destruct expired; cbn).
  all: try match goal with |- context [match ?l with [] => _ | _ :: _ => _ end] => destruct l; cbn end.
  all: sum_cons; zlen; zlen_nil; split_and!; try done; try lia.
  all: first [exists []; rewrite ?app_nil_r; by auto | exists its; rewrite ?app_nil_r; split_and!; [done|lia|by auto]].
Qed.

Lemma entered_cons op ops o os : entered (op :: ops) (o :: os) = entered [op] [o] ++ entered ops os.
Proof. unfold entered. cbn. by rewrite app_nil_r. Qed.
Lemma came_out_cons o os : came_out (o :: os) = came_out [o] ++ came_out os.
Proof. unfold came_out. cbn. by rewrite app_nil_r. Qed.
Lemma thrown_away_cons op ops o os :
  thrown_away (op :: ops) (o :: os) = thrown_away [op] [o] + thrown_away ops os.
Proof. unfold thrown_away. cbn. sum_cons. lia. Qed.

(** Nothing enters a closed queue. *)
Lemma spec_closed_refuses ops : ∀ (b : bounded_fifo E),
  zlength (items b) <= bound b -> is_closed b = true -> entered ops (answers ops b) = [].
Proof.
  induction ops as [|op ops IH]; intros b Hb Hc; [done|].
  rewrite answers_cons, entered_cons. destruct (spec_op_accounts op b Hb) as (H1 & H2 & H3 & _).
  destruct (H3 Hc) as [H4 ->]. apply IH; [lia|done].
Qed.

Lemma spec_accounts ops : ∀ (b : bounded_fifo E),
  zlength (items b) <= bound b ->
  ∃ gone left, items b ++ entered ops (answers ops b) = came_out (answers ops b) ++ gone ++ left /\
    zlength gone = thrown_away ops (answers ops b) /\ zlength left <= bound b.
Proof.
  induction ops as [|op ops IH]; intros b Hb.
  - exists [], (items b). by rewrite app_nil_r.
  - rewrite answers_cons, entered_cons, came_out_cons, thrown_away_cons.
    destruct (spec_op_accounts op b Hb) as (H1 & H2 & H3 & gone & H4 & H5 & H6).
    destruct (IH (run_op op b).2) as (gone' & left & H7 & H8 & H9); [lia|]. rewrite H1 in H9.
    rewrite (assoc_L (++)), H4, <- !(assoc_L (++)), H7. destruct H6 as [->|[Hc Hi]].
    + exists gone', left. split_and!; [by rewrite <- (assoc_L (++))| |done]. rewrite <- H5, H8. done.
    + rewrite Hi, (spec_closed_refuses ops) in H7 by (lia || done). symmetry in H7.
      apply app_nil in H7 as [Hn [-> ->]%app_nil]. rewrite Hn. exists gone, []. rewrite !app_nil_r.
      split_and!; [done| |zlen_nil; pose proof (zlength_nonneg (items b)); lia].
      rewrite <- H8, H5. zlen_nil. lia.
Qed.

Lemma accounts_for ops (q : Q) cap : q_rep q (mk_fifo [] cap false) -> accounts cap ops (answers ops q).
Proof.
  intros Hq. destruct (q_rep_bound q _ Hq) as [Hb _]. rewrite (answers_refine _ q _ Hq). split.
  - clear Hq. revert Hb. generalize (mk_fifo (E:=E) [] cap false). induction ops as [|op ops IH]; intros b Hb; [constructor|].
    rewrite answers_cons. constructor; [apply spec_op_well_formed|]. apply IH.
    destruct (spec_op_accounts op b Hb) as (-> & ? & _). done.
  - destruct (spec_accounts ops (mk_fifo [] cap false) Hb) as (gone & left & H1 & H2 & H3). by exists gone, left.
Qed.

(** A push whose event fails to build, at whichever entry point, throws
    that exception and leaves the queue as it was for every later call. *)
Theorem failed_construction_is_undone (q : Q) b ex ops :
  q_rep q b -> is_closed b = false -> is_full b = false ->
  ∀ push, push ∈ [OpTryPush (inl ex); OpTryEmplace (inl ex); OpWaitPush false (inl ex);
             OpWaitPushUntil false true (inl ex)] ->
  answers (push :: ops) q = ObsThrew ex :: answers ops q.
Proof.
  intros Hq Hc Hf push Hp.
  rewrite (answers_refine _ q b Hq), (answers_refine _ q b Hq), answers_cons.
  assert (Hop : run_op push b = (ObsThrew ex, b)); [|by rewrite Hop].
  destruct b as [its bd cl]. cbn in Hc. subst cl.
  apply elem_of_cons in Hp as [->|[->|[->|[->|[]%elem_of_nil]%elem_of_cons]%elem_of_cons]%elem_of_cons];
    cbn; unfold observe_push, observe_wait_push, spec_try_push, spec_wait_push,
      spec_wait_push_until; run_m; by rewrite Hf.
Qed.

End generic.

(** C18: a mutex queue and a lock-free queue of the same capacity show the
    caller the same statuses, events, exceptions, counts and parkings,
    whatever the sequence of calls. *)
Theorem policies_are_interchangeable {E} cap (m : MutexQueue.queue E) (l : LockFreeQueue.queue E) ops :
  0 <= cap <= 2 ^ 58 -> MutexQueue.make cap = inr m -> LockFreeQueue.make cap = inr l ->
  answers ops m = answers ops l.
Proof.
  intros Hc Hm Hl.
  assert (Hm' : q_rep m (mk_fifo [] cap false)) by (apply MutexQueue.mutex_make_rep; [lia|done]).
  assert (Hl' : q_rep l (mk_fifo [] cap false)) by (by apply LockFreeQueue.make_rep).
  by rewrite (answers_refine ops m _ Hm'), (answers_refine ops l _ Hl').
Qed.

(** C39: whatever calls a program makes on a fresh queue of either policy, no
    call gets stuck, a pop hands out an event exactly when it reports
    [success], and the events whose pushes reported [success] are, in the
    order of the pushes, those the pops handed out, those counted by
    [close_and_discard], and at most [capacity] others. *)
Theorem calls_account_for_events {E} cap (m : MutexQueue.queue E) (l : LockFreeQueue.queue E) ops :
  0 <= cap <= 2 ^ 58 -> MutexQueue.make cap = inr m -> LockFreeQueue.make cap = inr l ->
  accounts cap ops (answers ops m) /\ accounts cap ops (answers ops l).
Proof.
  intros Hc Hm Hl. split; apply accounts_for.
  - apply MutexQueue.mutex_make_rep; [lia|done].
  - by apply LockFreeQueue.make_rep.
Qed.

(** ** Two queues of two slots *)

Definition mutex_two : MutexQueue.queue Z := MutexQueue.mk_queue [None; None] 0 0 0 false.
Definition lock_free_two : LockFreeQueue.queue Z :=
  LockFreeQueue.mk_queue 2 [None; None] (IndexRing.make 2 true) (IndexRing.make 2 false)
    0 0 0 false 0 0.

Lemma mutex_two_rep : q_rep mutex_two (mk_fifo [] 2 false).
Proof. by apply (MutexQueue.mutex_make_rep 2). Qed.
Lemma lock_free_two_rep : q_rep lock_free_two (mk_fifo [] 2 false).
Proof. by apply (LockFreeQueue.make_rep 2). Qed.

Lemma pushed_events_come_back_witness :
  answers [OpTryPush (inr 7); OpTryPush (inr 8); OpTryPop; OpTryPop; OpTryPop] lock_free_two =
    [ObsStatus success true; ObsStatus success true;
     ObsPop (make_success 7); ObsPop (make_success 8); ObsPop make_empty].
Proof.
  exact (pushed_events_come_back lock_free_two 2 [7; 8] 1 lock_free_two_rep ltac:(vm_compute; discriminate)).
Defined.

Lemma closed_queue_drains_witness :
  answers [OpClose; OpTryPush (inr 7); OpTryPop] lock_free_two =
    [ObsUnit; ObsStatus closed false; ObsPop make_closed].
Proof. exact (closed_queue_drains lock_free_two _ 7 1 lock_free_two_rep). Defined.

Lemma calls_account_for_events_witness :
  let ops := [OpTryPop; OpTryPush (inr 7); OpWaitPush false (inr 8); OpTryPop; OpCloseAndDiscard; OpTryPop] in
  accounts 2 ops (answers ops mutex_two) /\ accounts 2 ops (answers ops lock_free_two) /\
  answers ops lock_free_two =
    [ObsPop make_empty; ObsStatus success true; ObsStatus success true; ObsPop (make_success 7);
     ObsCount 1; ObsPop make_closed].
Proof.
  cbn zeta.
  destruct (calls_account_for_events 2 mutex_two lock_free_two
    [OpTryPop; OpTryPush (inr 7); OpWaitPush false (inr 8); OpTryPop; OpCloseAndDiscard; OpTryPop]
    ltac:(split; vm_compute; discriminate) eq_refl eq_refl) as [H1 H2].
  split; [exact H1|split; [exact H2|vm_compute; reflexivity]].
Defined.

Lemma failed_construction_is_undone_witness :
  answers [OpTryPush (inl (user_exception 0)); OpTryPush (inr 7); OpTryPop] lock_free_two =
    ObsThrew (user_exception 0) :: answers [OpTryPush (inr 7); OpTryPop] lock_free_two.
Proof.
  exact (failed_construction_is_undone lock_free_two _ (user_exception 0)
    [OpTryPush (inr 7); OpTryPop] lock_free_two_rep eq_refl eq_refl
    (OpTryPush (inl (user_exception 0))) (list_elem_of_here _ _)).
Defined.

Lemma policies_are_interchangeable_witness :
  answers [OpTryPush (inr 7); OpTryPop; OpTryPop] mutex_two =
  answers [OpTryPush (inr 7); OpTryPop; OpTryPop] lock_free_two.
Proof.
  exact (policies_are_interchangeable 2 mutex_two lock_free_two
    [OpTryPush (inr 7); OpTryPop; OpTryPop]
    ltac:(split; vm_compute; discriminate) eq_refl eq_refl).
Defined.

End QueuePolicies.
