(* ===== verification/LockFreeConc.v ===== *)
(** * The lock-free queue under concurrent calls

    Pushes, pops, their waiting forms, [close] and [close_and_discard] as
    threads on the state of [LockFreeQueue], one atomic access or ring
    operation per step; constructing, moving and destroying an event is
    folded into the access that follows. A ring operation is one step here,
    run by [IndexRing] on the words of its ring; [RingConc] and [DataPath]
    treat its own interleavings. Their effect on the answers is kept: with
    more threads than slots a dequeue may find nothing although an index is
    stored ([misses]). Each waiting call has a stop token of its own (calls that
    share one are calls whose requests come together) and [wait_push_until] a
    deadline that passes at some point. [timed_wait_mutex_] guards no data and
    is left out; the polling wait may end at any time. *)

From S2P Require Import Prelude Types QueueSpec IndexRing RingWords RingAbs RingSolo LockFreeQueue.
Import PopResult.
Local Open Scope Z_scope.

Module LockFreeConc.

#[export] Instance gate_eq_dec : EqDecision LockFreeQueue.gate.
Proof. solve_decision. Defined.

Section threads.
Context {E : Type}.
Abbreviation queue := (LockFreeQueue.queue E).

Inductive outcome : Type :=
  | Pushed (st : queue_status)
  | PushThrew (e : exn)
  | Popped (r : pop_result E)
  | Closed
  | Discarded (n : Z).

(** A single attempt, one of the two attempts of a pass of [wait_push] and
    [wait_pop], the second after the load of an epoch, or an attempt of
    [wait_push_until], before or after its deadline. *)
Inductive mode : Type := Once | First | Again (epoch : Z) | Polled (last : bool).

Inductive operation : Type := OpPush (md : mode) (event : exn + E) | OpPop (md : mode).

(** The word a sleeper waits on: [data_epoch_] or [capacity_epoch_]. *)
Inductive epoch_word : Type := data_epoch | capacity_epoch.

(** What follows the signals of a closing call. *)
Inductive closing : Type := AfterProducers (discards : bool) | AfterDiscard (n : Z).

Inductive pc : Type :=
  | Idle
  (* operation_guard *)
  | GateLoad (op : operation)
  | GateCas (op : operation) (state : Z)
  (* try_push_impl *)
  | Reserve (md : mode) (event : exn + E)
  | FullLeave (md : mode) (event : exn + E)
  | Construct (index : Z) (event : exn + E)
  | GiveBack (index : Z) (e : exn)
  | GiveBackRaise (e : exn)
  | GiveBackWake (e : exn)
  | Publish (index : Z) (event : E)
  | PushRaise
  | PushWake
  | PushLeave (o : outcome)
  (* wait_push_impl *)
  | StopPush (md : mode) (event : exn + E)
  | LoadCapacity (event : exn + E)
  | WaitCapacity (event : exn + E) (epoch : Z)
  | AsleepPush (event : exn + E) (epoch : Z)
  (* wait_push_until_impl *)
  | PollClock (event : exn + E)
  | PollWait (event : exn + E)
  (* try_pop; MoveOut records the event its slot holds *)
  | Take (md : mode)
  | Quiesced (md : mode)
  | MoveOut (md : mode) (index : Z) (event : E)
  | Free (md : mode) (index : Z) (event : E)
  | FreeRaise (md : mode) (event : E)
  | FreeWake (md : mode) (event : E)
  | PopLeave (md : mode) (r : pop_result E)
  (* wait_pop *)
  | StopPop (md : mode)
  | LoadData
  | WaitData (epoch : Z)
  | AsleepPop (epoch : Z)
  (* close and close_and_discard *)
  | CloseLock (discards : bool)
  | CloseOr (discards : bool)
  | CloseWait (discards : bool)
  | CloseQuiesce (discards : bool)
  | CloseRaise (k : closing)
  | CloseWake (k : closing)
  | CloseCapacity (k : closing)
  | CloseCapacityWake (k : closing)
  | DiscardOr
  | DiscardWait
  | DiscardTake (n : Z)
  | DiscardDestroy (index : Z) (event : E) (n : Z)
  | DiscardFree (index : Z) (n : Z)
  | Finished (o : outcome)
  | Crashed (f : fault).

(** A stop request raises the flag of the token, then runs the callback
    registered with it: an epoch is raised and all its sleepers are woken. *)
Inductive stopping : Type := Unstopped | StopRaise | StopWake | StopDone.

(** What surrounds a call: its token, the epoch its callback raises, and
    whether its deadline has passed. *)
Record surroundings : Type := mk_surroundings {
  stop_token : stopping;
  callback : option epoch_word;
  expired : bool;
}.

Definition unattended : surroundings := mk_surroundings Unstopped None false.

Record config : Type := mk_config {
  shared : queue;
  threads : list pc;
  close_mutex : option nat;
  (* events published, dequeued by pops, returned by pops, and discarded *)
  accepted : list E;
  taken : list E;
  returned : list E;
  discarded : list E;
  calls : list surroundings;
}.

(** [try_push], [wait_push] and [wait_push_until]. *)
Inductive push_kind : Type := KindTry | KindWait | KindUntil.

Inductive choice : Type :=
  | Go (j : nat) (spurious : bool) (woken : option nat)
  | StartPush (j : nat) (kind : push_kind) (event : exn + E)
  | StartPop (j : nat) (waits : bool)
  | StartClose (j : nat) (discards : bool)
  | SpuriousWake (j : nat)
  | RequestStop (j : nat)
  | StopCallback (j : nat)
  | Expire (j : nat).

Definition with_shared (q : queue) (c : config) : config :=
  mk_config q (threads c) (close_mutex c) (accepted c) (taken c) (returned c) (discarded c)
    (calls c).
Definition with_threads (ts : list pc) (c : config) : config :=
  mk_config (shared c) ts (close_mutex c) (accepted c) (taken c) (returned c) (discarded c)
    (calls c).
Definition with_mutex (o : option nat) (c : config) : config :=
  mk_config (shared c) (threads c) o (accepted c) (taken c) (returned c) (discarded c)
    (calls c).
Definition with_logs (acc tak ret dis : list E) (c : config) : config :=
  mk_config (shared c) (threads c) (close_mutex c) acc tak ret dis (calls c).
Definition with_calls (ws : list surroundings) (c : config) : config :=
  mk_config (shared c) (threads c) (close_mutex c) (accepted c) (taken c) (returned c) (discarded c) ws.
Definition goto (j : nat) (p : pc) (c : config) : config := with_threads (<[j := p]> (threads c)) c.

Definition gate_for (op : operation) : LockFreeQueue.gate :=
  match op with
  | OpPush _ _ => LockFreeQueue.producer_gate
  | OpPop _ => LockFreeQueue.consumer_gate
  end.
Definition entered (op : operation) : pc :=
  match op with OpPush md event => Reserve md event | OpPop md => Take md end.

(** Where [try_push_impl] returns [full] to. *)
Definition after_full (md : mode) (event : exn + E) : pc :=
  match md with
  | Once => Finished (Pushed full)
  | Polled true => Finished (Pushed timeout)
  | First | Again _ | Polled false => StopPush md event
  end.

(** Where [try_pop] returns to. *)
Definition after_pop (md : mode) (r : pop_result E) : pc :=
  if bool_decide (status r = empty) then
    match md with
    | Once | Polled _ => Finished (Popped r)
    | First | Again _ => StopPop md
    end
  else Finished (Popped r).

(** After a test of the token that was not stopped. *)
Definition push_unstopped (md : mode) (event : exn + E) : pc :=
  match md with
  | Once | First => LoadCapacity event
  | Again epoch => WaitCapacity event epoch
  | Polled _ => PollClock event
  end.
Definition pop_unstopped (md : mode) : pc :=
  match md with Again epoch => WaitData epoch | _ => LoadData end.
Definition refused (op : operation) : pc :=
  match op with
  | OpPush _ _ => Finished (Pushed closed)
  | OpPop md => after_pop md make_closed
  end.

Definition asleep_on (w : epoch_word) (p : pc) : bool :=
  match w, p with
  | data_epoch, AsleepPop _ | capacity_epoch, AsleepPush _ _ => true
  | _, _ => false
  end.
Definition wake (p : pc) : pc :=
  match p with
  | AsleepPop epoch => WaitData epoch
  | AsleepPush event epoch => WaitCapacity event epoch
  | _ => p
  end.

(** [notify_one()] on an epoch: it wakes the chosen sleeper, and nobody only
    if nobody sleeps. *)
Definition notify_one (w : epoch_word) (woken : option nat) (ts : list pc) : option (list pc) :=
  match woken with
  | Some k =>
      match ts !! k with
      | Some p => if asleep_on w p then Some (<[k := wake p]> ts) else None
      | None => None
      end
  | None => if existsb (asleep_on w) ts then None else Some ts
  end.

(** A ring or slot operation that does not return is a crash. *)
Definition call {A} (j : nat) (c : config) (m : M queue A) (k : A -> config -> config) : config :=
  match m (shared c) with
  | Ret a q => k a (with_shared q c)
  | Throw _ q => goto j (Crashed terminated) (with_shared q c)
  | Stuck f => goto j (Crashed f) c
  end.

Definition slot_event (q : queue) (index : Z) : option E :=
  match LockFreeQueue.slots_ q !!z index with Some o => o | None => None end.

(** With more threads than slots a dequeue may find nothing although its ring
    holds an index ([DataPath.crowded_queue_hides_an_event]); with no more it
    may not ([RingFifo.empty_answers_are_true]). *)
Definition crowded (c : config) : bool :=
  LockFreeQueue.capacity_ (shared c) <? zlength (threads c).
Definition misses (spurious : bool) (c : config) : bool := spurious && crowded c.

(** Dequeue a published index, for [try_pop] and for the discarding loop. *)
Definition dequeue_published (spurious : bool) (j : nat) (c : config) (none : pc)
    (some : Z -> E -> config -> config) : config :=
  if misses spurious c then goto j none c else
  call j c (LockFreeQueue.on_published (IndexRing.try_dequeue false)) (fun o c =>
    match o with
    | None => goto j none c
    | Some index =>
        match slot_event (shared c) index with
        | Some e => some index e c
        | None => goto j (Crashed undefined_behaviour) c
        end
    end).

(** Move the event out of (or destroy it in) its slot and decrement
    [occupied_count_]. *)
Definition empty_slot (index : Z) : M queue E :=
  e ← LockFreeQueue.take_at index;
  modify (fun q => LockFreeQueue.with_occupied (u64 (LockFreeQueue.occupied_count_ q - 1)) q);;
  mret e.

Definition free_index (index : Z) : M queue unit :=
  LockFreeQueue.on_available (IndexRing.enqueue index false).

Definition update (j : nat) (p : pc) (f : queue -> queue) (c : config) : config :=
  goto j p (with_shared (f (shared c)) c).

Definition signal (j : nat) (p : pc) (m : M queue unit) (c : config) : config :=
  call j c m (fun _ => goto j p).

Definition notify (j : nat) (p : pc) (w : epoch_word) (woken : option nat) (c : config) :
    option config :=
  (fun ts => goto j p (with_threads ts c)) <$> notify_one w woken (threads c).

(** The [operation_guard] constructor. *)
Definition guard_step (spurious : bool) (j : nat) (p : pc) (c : config) : option config :=
  match p with
  | GateLoad op =>
      Some (goto j (GateCas op (LockFreeQueue.gate_of (gate_for op) (shared c))) c)
  | GateCas op state =>
      match LockFreeQueue.guard_admits state with
      | inl f => Some (goto j (Crashed f) c)
      | inr None => Some (goto j (refused op) c)
      | inr (Some state') =>
          let now := LockFreeQueue.gate_of (gate_for op) (shared c) in
          if negb spurious && (now =? state) then
            Some (update j (entered op) (LockFreeQueue.with_gate (gate_for op) state') c)
          else Some (goto j (GateCas op now) c)
      end
  | _ => None
  end.

(** [try_push_impl] inside its guard, [publish_constructed_index] included. *)
Definition push_step (spurious : bool) (woken : option nat) (j : nat) (p : pc) (c : config) : option config :=
  match p with
  | Reserve md event =>
      Some (if misses spurious c then goto j (FullLeave md event) c else
        call j c (LockFreeQueue.on_available (IndexRing.try_dequeue false)) (fun o =>
          goto j (match o with
                  | None => FullLeave md event
                  | Some index => Construct index event
                  end)))
  | FullLeave md event =>
      Some (update j (after_full md event)
        (LockFreeQueue.guard_leave LockFreeQueue.producer_gate) c)
  | Construct index event =>
      match LockFreeQueue.construct_at index (fun u : unit => (event, u)) (shared c, tt) with
      | Ret _ (q', _) =>
          Some (goto j (match event with inr e => Publish index e | inl e => Crashed terminated end)
            (with_shared (LockFreeQueue.with_occupied
               (u64 (LockFreeQueue.occupied_count_ q' + 1)) q') c))
      | Throw e (q', _) => Some (goto j (GiveBack index e) (with_shared q' c))
      | Stuck f => Some (goto j (Crashed f) c)
      end
  | GiveBack index e => Some (call j c (free_index index) (fun _ => goto j (GiveBackRaise e)))
  | GiveBackRaise e => Some (signal j (GiveBackWake e) LockFreeQueue.signal_capacity c)
  | GiveBackWake e => notify j (PushLeave (PushThrew e)) capacity_epoch woken c
  | Publish index event =>
      Some (call j c (LockFreeQueue.on_published (IndexRing.enqueue index false)) (fun _ c =>
        goto j PushRaise
          (with_logs (accepted c ++ [event]) (taken c) (returned c) (discarded c) c)))
  | PushRaise => Some (signal j PushWake LockFreeQueue.signal_data c)
  | PushWake => notify j (PushLeave (Pushed success)) data_epoch woken c
  | PushLeave o =>
      Some (update j (Finished o) (LockFreeQueue.guard_leave LockFreeQueue.producer_gate) c)
  | _ => None
  end.

Definition surrounding (j : nat) (c : config) : surroundings := default unattended (calls c !! j).
Definition stop_requested (j : nat) (c : config) : bool :=
  match stop_token (surrounding j c) with Unstopped => false | _ => true end.

(** [wait_push_impl] and [wait_push_until_impl] between their attempts. *)
Definition wait_push_step (j : nat) (p : pc) (c : config) : option config :=
  match p with
  | StopPush md event =>
      Some (goto j (if stop_requested j c then Finished (Pushed stopped)
                    else push_unstopped md event) c)
  | PollClock event =>
      Some (goto j (if expired (surrounding j c) then GateLoad (OpPush (Polled true) event)
                    else PollWait event) c)
  | PollWait event => Some (goto j (GateLoad (OpPush (Polled false) event)) c)
  | LoadCapacity event =>
      Some (goto j (GateLoad (OpPush (Again (LockFreeQueue.capacity_epoch_ (shared c))) event)) c)
  | WaitCapacity event epoch =>
      Some (goto j (if LockFreeQueue.capacity_epoch_ (shared c) =? epoch
                    then AsleepPush event epoch
                    else GateLoad (OpPush First event)) c)
  | _ => None
  end.

(** [try_pop] inside its guard. *)
Definition pop_step (spurious : bool) (woken : option nat) (j : nat) (p : pc) (c : config) : option config :=
  match p with
  | Take md =>
      Some (dequeue_published spurious j c (Quiesced md) (fun index e c =>
        goto j (MoveOut md index e)
          (with_logs (accepted c) (taken c ++ [e]) (returned c) (discarded c) c)))
  | Quiesced md =>
      Some (goto j (PopLeave md
        (if LockFreeQueue.producer_quiesced_ (shared c) then make_closed else make_empty)) c)
  | MoveOut md index _ =>
      Some (call j c (empty_slot index) (fun e c =>
        goto j (Free md index e)
          (with_logs (accepted c) (taken c) (returned c ++ [e]) (discarded c) c)))
  | Free md index e => Some (call j c (free_index index) (fun _ => goto j (FreeRaise md e)))
  | FreeRaise md e => Some (signal j (FreeWake md e) LockFreeQueue.signal_capacity c)
  | FreeWake md e => notify j (PopLeave md (make_success e)) capacity_epoch woken c
  | PopLeave md r =>
      Some (update j (after_pop md r) (LockFreeQueue.guard_leave LockFreeQueue.consumer_gate) c)
  | _ => None
  end.

(** [wait_pop] between its attempts. *)
Definition wait_pop_step (j : nat) (p : pc) (c : config) : option config :=
  match p with
  | StopPop md =>
      Some (goto j (if stop_requested j c then Finished (Popped make_stopped)
                    else pop_unstopped md) c)
  | LoadData => Some (goto j (GateLoad (OpPop (Again (LockFreeQueue.data_epoch_ (shared c))))) c)
  | WaitData epoch =>
      Some (goto j (if LockFreeQueue.data_epoch_ (shared c) =? epoch then AsleepPop epoch
                    else GateLoad (OpPop First)) c)
  | _ => None
  end.

(** [close], and [close_and_discard] up to its loop: the mutex,
    [close_producers] with its [close_gate] and signals. After the loop
    [close_and_discard] signals the same way. *)
Definition close_step (woken : option nat) (j : nat) (p : pc) (c : config) : option config :=
  match p with
  | CloseLock discards =>
      match close_mutex c with
      | None => Some (goto j (CloseOr discards) (with_mutex (Some j) c))
      | Some _ => None
      end
  | CloseOr discards =>
      Some (update j (CloseWait discards) (fun q => LockFreeQueue.with_gate
        LockFreeQueue.producer_gate
        (Z.lor (LockFreeQueue.producer_gate_ q) LockFreeQueue.closed_bit) q) c)
  | CloseWait discards =>
      if Z.land (LockFreeQueue.producer_gate_ (shared c)) LockFreeQueue.active_mask =? 0
      then Some (goto j (CloseQuiesce discards) c) else None
  | CloseQuiesce discards =>
      Some (update j (CloseRaise (AfterProducers discards)) (LockFreeQueue.with_quiesced true) c)
  | CloseRaise k => Some (signal j (CloseWake k) LockFreeQueue.signal_data c)
  | CloseWake k => notify j (CloseCapacity k) data_epoch woken c
  | CloseCapacity k => Some (signal j (CloseCapacityWake k) LockFreeQueue.signal_capacity c)
  | CloseCapacityWake k =>
      match k with
      | AfterProducers true => notify j DiscardOr capacity_epoch woken c
      | AfterProducers false =>
          notify j (Finished Closed) capacity_epoch woken (with_mutex None c)
      | AfterDiscard n =>
          notify j (Finished (Discarded n)) capacity_epoch woken (with_mutex None c)
      end
  | _ => None
  end.

(** [close_gate(consumer_gate_)] and the loop of [close_and_discard]. *)
Definition discard_step (spurious : bool) (j : nat) (p : pc) (c : config) : option config :=
  match p with
  | DiscardOr =>
      Some (update j DiscardWait (fun q => LockFreeQueue.with_gate LockFreeQueue.consumer_gate
        (Z.lor (LockFreeQueue.consumer_gate_ q) LockFreeQueue.closed_bit) q) c)
  | DiscardWait =>
      if Z.land (LockFreeQueue.consumer_gate_ (shared c)) LockFreeQueue.active_mask =? 0
      then Some (goto j (DiscardTake 0) c) else None
  | DiscardTake n =>
      Some (dequeue_published spurious j c (CloseRaise (AfterDiscard n)) (fun index e c =>
        goto j (DiscardDestroy index e n)
          (with_logs (accepted c) (taken c) (returned c) (discarded c ++ [e]) c)))
  | DiscardDestroy index _ n =>
      Some (call j c (empty_slot index) (fun _ => goto j (DiscardFree index n)))
  | DiscardFree index n =>
      Some (call j c (free_index index) (fun _ => goto j (DiscardTake (u64 (n + 1)))))
  | _ => None
  end.

(** The step of thread [j] at [p]; a thread at rest, asleep or crashed has
    none. *)
Definition step_pc (spurious : bool) (woken : option nat) (j : nat) (p : pc) (c : config) :
    option config :=
  match p with
  | GateLoad _ | GateCas _ _ => guard_step spurious j p c
  | Reserve _ _ | FullLeave _ _ | Construct _ _ | GiveBack _ _ | GiveBackRaise _ | GiveBackWake _
  | Publish _ _ | PushRaise | PushWake | PushLeave _ => push_step spurious woken j p c
  | StopPush _ _ | LoadCapacity _ | WaitCapacity _ _ | PollClock _ | PollWait _ =>
      wait_push_step j p c
  | Take _ | Quiesced _ | MoveOut _ _ _ | Free _ _ _ | FreeRaise _ _ | FreeWake _ _
  | PopLeave _ _ => pop_step spurious woken j p c
  | StopPop _ | LoadData | WaitData _ => wait_pop_step j p c
  | CloseLock _ | CloseOr _ | CloseWait _ | CloseQuiesce _ | CloseRaise _ | CloseWake _
  | CloseCapacity _ | CloseCapacityWake _ => close_step woken j p c
  | DiscardOr | DiscardWait | DiscardTake _ | DiscardDestroy _ _ _ | DiscardFree _ _ =>
      discard_step spurious j p c
  | Idle | AsleepPush _ _ | AsleepPop _ | Finished _ | Crashed _ => None
  end.

Definition at_rest (p : pc) : bool := match p with Idle | Finished _ => true | _ => false end.

(** A thread at rest makes a call; [~stop_callback] has waited for a callback
    of the previous call that was under way. *)
Definition begin (j : nat) (p : pc) (w : option epoch_word) (c : config) : option config :=
  match threads c !! j, stop_token (surrounding j c) with
  | Some _, StopWake | None, _ => None
  | Some p0, _ =>
      if at_rest p0
      then Some (goto j p (with_calls (<[j := mk_surroundings Unstopped w false]> (calls c)) c))
      else None
  end.

Definition first_attempt (kind : push_kind) : mode :=
  match kind with KindTry => Once | KindWait => First | KindUntil => Polled false end.
Definition push_callback (kind : push_kind) : option epoch_word :=
  match kind with KindWait => Some capacity_epoch | _ => None end.

Definition raise (w : epoch_word) (q : queue) : queue :=
  match w with
  | data_epoch => LockFreeQueue.with_epochs (u64 (LockFreeQueue.data_epoch_ q + 1))
      (LockFreeQueue.capacity_epoch_ q) q
  | capacity_epoch => LockFreeQueue.with_epochs (LockFreeQueue.data_epoch_ q)
      (u64 (LockFreeQueue.capacity_epoch_ q + 1)) q
  end.

(** [notify_all()] on an epoch. *)
Definition notify_all (w : epoch_word) (ts : list pc) : list pc :=
  (fun p => if asleep_on w p then wake p else p) <$> ts.

Definition set_surrounding (j : nat) (f : surroundings -> surroundings) (c : config) : config :=
  with_calls (alter f j (calls c)) c.
Definition set_token (t : stopping) (s : surroundings) : surroundings :=
  mk_surroundings t (callback s) (expired s).

(** The callback of [j]'s token: it is registered while the call runs, and
    only [wait_push] and [wait_pop] have one that touches an epoch. *)
Definition stop_callback (j : nat) (c : config) : option config :=
  match threads c !! j with
  | None => None
  | Some p =>
      match stop_token (surrounding j c), callback (surrounding j c) with
      | StopRaise, Some w =>
          if at_rest p then None
          else Some (set_surrounding j (set_token StopWake) (with_shared (raise w (shared c)) c))
      | StopWake, Some w =>
          Some (set_surrounding j (set_token StopDone) (with_threads (notify_all w (threads c)) c))
      | _, _ => None
      end
  end.

Definition step (ch : choice) (c : config) : option config :=
  match ch with
  | Go j spurious woken =>
      match threads c !! j with Some p => step_pc spurious woken j p c | None => None end
  | StartPush j kind event =>
      begin j (GateLoad (OpPush (first_attempt kind) event)) (push_callback kind) c
  | StartPop j waits =>
      begin j (GateLoad (OpPop (if waits then First else Once)))
        (if waits then Some data_epoch else None) c
  | StartClose j discards => begin j (CloseLock discards) None c
  | SpuriousWake j =>
      match threads c !! j with
      | Some p =>
          if asleep_on data_epoch p || asleep_on capacity_epoch p
          then Some (goto j (wake p) c) else None
      | None => None
      end
  | RequestStop j =>
      match stop_token (surrounding j c) with
      | Unstopped => Some (set_surrounding j (set_token StopRaise) c)
      | _ => None
      end
  | StopCallback j => stop_callback j c
  | Expire j =>
      Some (set_surrounding j (fun s => mk_surroundings (stop_token s) (callback s) true) c)
  end.

Definition one_step (c c' : config) : Prop := ∃ ch, step ch c = Some c'.
Definition reachable : config -> config -> Prop := rtc one_step.

Definition start (q : queue) (n : nat) : config := 
  mk_config q (replicate n Idle) None [] [] [] [] (replicate n unattended).

Fixpoint run (sched : list choice) (c : config) : config :=
  match sched with
  | [] => c
  | ch :: sched => run sched (default c (step ch c))
  end.

(** ** The invariant

    Every slot index is free, published or in the hands of one thread, and
    its slot holds what that says; the gate words count the threads inside;
    what a thread past a closing step relies on stays true. *)

Abbreviation half := RingAbs.half.
Abbreviation holds := RingSolo.holds.

(** The slot in the hands of a thread, and what it holds. *)
Definition owned (p : pc) : list (Z * option E) :=
  match p with
  | Construct i _ | GiveBack i _ | Free _ i _ | DiscardFree i _ => [(i, None)]
  | Publish i e | MoveOut _ i e | DiscardDestroy i e _ => [(i, Some e)]
  | _ => []
  end.

(** Events dequeued and not yet moved out of their slot by a pop. *)
Definition carried (p : pc) : list E := match p with MoveOut _ _ e => [e] | _ => [] end.

(** Slots of [occupied_count_] outside the published ones. *)
Definition counted (p : pc) : Z :=
  match p with Publish _ _ | MoveOut _ _ _ | DiscardDestroy _ _ _ => 1 | _ => 0 end.

Definition inside (g : LockFreeQueue.gate) (p : pc) : Z :=
  match g, p with
  | LockFreeQueue.producer_gate, (Reserve _ _ | FullLeave _ _ | Construct _ _ | GiveBack _ _
      | GiveBackRaise _ | GiveBackWake _ | Publish _ _ | PushRaise | PushWake | PushLeave _) => 1
  | LockFreeQueue.consumer_gate, (Take _ | Quiesced _ | MoveOut _ _ _ | Free _ _ _
      | FreeRaise _ _ | FreeWake _ _ | PopLeave _ _) => 1
  | _, _ => 0
  end.

Definition gate_word (w n : Z) : Prop := 0 <= n /\ (w = n \/ w = LockFreeQueue.closed_bit + n).

Definition sealed (g : LockFreeQueue.gate) (q : queue) : Prop :=
  LockFreeQueue.gate_of g q = LockFreeQueue.closed_bit.

Definition closing_gate (g : LockFreeQueue.gate) (q : queue) : Prop :=
  LockFreeQueue.closed_bit <= LockFreeQueue.gate_of g q.

Definition few : Z := 2 ^ 63 - 1.

(** What each thread may rely on. *)
Definition pc_ok (cr : bool) (q : queue) (queued : list (Z * E)) (p : pc) : Prop :=
  match p with
  | PushLeave (Closed | Discarded _ | Popped _) => False
  | GateCas op state =>
      (∃ n, gate_word state n /\ n < few) /\
      (LockFreeQueue.closed_bit <= state -> closing_gate (gate_for op) q)
  | CloseWait _ => closing_gate LockFreeQueue.producer_gate q
  | CloseQuiesce _ | CloseRaise (AfterProducers _) | CloseWake (AfterProducers _)
  | CloseCapacity (AfterProducers _) | CloseCapacityWake (AfterProducers _) | DiscardOr
  | Finished Closed =>
      sealed LockFreeQueue.producer_gate q
  | DiscardWait => sealed LockFreeQueue.producer_gate q /\ closing_gate LockFreeQueue.consumer_gate q
  | DiscardTake _ | DiscardDestroy _ _ _ | DiscardFree _ _ => ∀ g, sealed g q
  | CloseRaise (AfterDiscard _) | CloseWake (AfterDiscard _) | CloseCapacity (AfterDiscard _)
  | CloseCapacityWake (AfterDiscard _) | Finished (Discarded _) => (∀ g, sealed g q) /\ (cr = true \/ queued = [])
  | Crashed _ => False
  | _ => True
  end.

Definition slot_table (free : list Z) (queued : list (Z * E)) (mine : list (Z * option E)) :
    list (Z * option E) :=
  ((λ i, (i, None)) <$> free) ++ ((λ '(i, e), (i, Some e)) <$> queued) ++ mine.

Definition table_ok (r : Z) (t : list (Z * option E)) (sl : list (option E)) : Prop :=
  t.*1 ≡ₚ seqZ 0 (half r) /\ zlength sl = half r /\ ∀ i o, (i, o) ∈ t -> sl !!z i = Some o.

Definition in_hands (c : config) : list (Z * option E) := concat (owned <$> threads c).

Record inv_with (r : Z) (c : config) (free : list Z) (queued : list (Z * E)) : Prop := mk_inv {
  inv_width : 2 <= r <= 59;
  inv_capacity : LockFreeQueue.capacity_ (shared c) = half r;
  inv_available : holds r free (LockFreeQueue.available_indices_ (shared c));
  inv_published : holds r queued.*1 (LockFreeQueue.published_indices_ (shared c));
  inv_table : table_ok r (slot_table free queued (in_hands c)) (LockFreeQueue.slots_ (shared c));
  inv_count : LockFreeQueue.occupied_count_ (shared c) =
    u64 (zlength queued + sum_of counted (threads c));
  inv_log : accepted c = taken c ++ discarded c ++ queued.*2;
  inv_taken : taken c ≡ₚ returned c ++ concat (carried <$> threads c);
  inv_gate : ∀ g, gate_word (LockFreeQueue.gate_of g (shared c)) (sum_of (inside g) (threads c));
  inv_quiesced : LockFreeQueue.producer_quiesced_ (shared c) = true ->
    sealed LockFreeQueue.producer_gate (shared c);
  inv_discard : discarded c ≠ [] -> sealed LockFreeQueue.consumer_gate (shared c);
  inv_pcs : ∀ k p, threads c !! k = Some p -> pc_ok (crowded c) (shared c) queued p;
  inv_few : zlength (threads c) < few;
}.

Definition inv (c : config) : Prop := ∃ r free queued, inv_with r c free queued.

(** Gates stay sealed, and a queue without producers stays empty. *)
Definition advances (q : queue) (queued : list (Z * E)) (q' : queue) (queued' : list (Z * E)) : Prop :=
  (∀ g, sealed g q -> sealed g q') /\
  (∀ g, closing_gate g q -> closing_gate g q') /\
  (sealed LockFreeQueue.producer_gate q -> queued = [] -> queued' = []).

Lemma pc_ok_advances cr q queued q' queued' p :
  advances q queued q' queued' -> pc_ok cr q queued p -> pc_ok cr q' queued' p.
Proof.
  intros (Hg & Hc & He). destruct p; cbn; auto; try (case_match; auto); intros [Hs Hx]; split; auto;
    destruct Hx as [?|?]; auto.
Qed.

(** ** Gate words *)

Lemma word_bits (b n : Z) : 0 <= n < 2 ^ 63 ->
  Z.land (2 ^ 63 * b + n) LockFreeQueue.closed_bit = 2 ^ 63 * Z.land b 1 /\
  Z.land (2 ^ 63 * b + n) LockFreeQueue.active_mask = n /\
  Z.lor (2 ^ 63 * b + n) LockFreeQueue.closed_bit = 2 ^ 63 * Z.lor b 1 + n.
Proof.
  intros Hn. change LockFreeQueue.closed_bit with (2 ^ 63 * 1 + 0).
  change LockFreeQueue.active_mask with (2 ^ 63 * 0 + (2 ^ 63 - 1)).
  rewrite !land_split, lor_split by lia.
  rewrite !Z.land_0_r, Z.lor_0_r, land_ones_low by lia. lia.
Qed.

Lemma gate_word_cases w n :
  gate_word w n -> n < few -> ∃ b, (b = 0 \/ b = 1) /\ w = 2 ^ 63 * b + n /\ 0 <= n < 2 ^ 63 - 1.
Proof.
  unfold gate_word, few, LockFreeQueue.closed_bit.
  intros [? [-> | ->]] ?; [exists 0|exists 1]; lia.
Qed.

Lemma guard_admits_word w n :
  gate_word w n -> n < few ->
  LockFreeQueue.guard_admits w = inr (if w =? n then Some (n + 1) else None).
Proof.
  intros Hw Hn. destruct (gate_word_cases w n Hw Hn) as (b & Hb & -> & Hr).
  destruct (word_bits b n ltac:(lia)) as (Hl & Hm & _). unfold LockFreeQueue.guard_admits.
  rewrite Hl, Hm. destruct Hb as [-> | ->]; cbn [Z.land Pos.land N.succ_double].
  - rewrite Z.mul_0_r, Z.add_0_l, !Z.eqb_refl. change LockFreeQueue.active_mask with (2 ^ 63 - 1).
    destruct (Z.eqb_spec n (2 ^ 63 - 1)); [lia|]. by rewrite u64_small by lia.
  - destruct (Z.eqb_spec (2 ^ 63 * 1 + n) n); [lia|done].
Qed.

Lemma gate_word_enter w n : gate_word w n -> (w =? n) = true -> gate_word (n + 1) (n + 1).
Proof. intros [? _] _. split; [lia|auto]. Qed.

Lemma gate_word_leave w n :
  gate_word w n -> n < few -> 1 <= n -> gate_word (u64 (w - 1)) (n - 1).
Proof.
  intros Hw Hn H1. destruct (gate_word_cases w n Hw Hn) as (b & Hb & -> & Hr).
  rewrite u64_small by lia. unfold gate_word, LockFreeQueue.closed_bit. lia.
Qed.

Lemma gate_word_leave_closed w n :
  gate_word w n -> n < few -> 1 <= n -> LockFreeQueue.closed_bit <= w ->
  LockFreeQueue.closed_bit <= u64 (w - 1).
Proof.
  intros Hw Hn H1 Hc. destruct (gate_word_cases w n Hw Hn) as (b & Hb & -> & Hr).
  unfold LockFreeQueue.closed_bit in *. rewrite u64_small; lia.
Qed.

Lemma gate_word_close w n :
  gate_word w n -> n < few -> Z.lor w LockFreeQueue.closed_bit = LockFreeQueue.closed_bit + n.
Proof.
  intros Hw Hn. destruct (gate_word_cases w n Hw Hn) as (b & Hb & -> & Hr).
  destruct (word_bits b n ltac:(lia)) as (_ & _ & ->). by destruct Hb as [-> | ->].
Qed.

Lemma gate_word_mask w n : gate_word w n -> n < few -> Z.land w LockFreeQueue.active_mask = n.
Proof.
  intros Hw Hn. destruct (gate_word_cases w n Hw Hn) as (b & Hb & -> & Hr).
  by apply word_bits; lia.
Qed.

Lemma gate_word_sealed w n : gate_word w n -> n < few -> w = LockFreeQueue.closed_bit -> n = 0.
Proof. unfold gate_word, few, LockFreeQueue.closed_bit. lia. Qed.

(** ** The slot table *)

#[local] Instance table_ok_proper r : Proper ((≡ₚ) ==> (=) ==> iff) (table_ok r).
Proof. intros t t' Ht sl ? <-. unfold table_ok. by setoid_rewrite Ht. Qed.
#[local] Instance slot_table_proper free queued : Proper ((≡ₚ) ==> (≡ₚ)) (slot_table free queued).
Proof. intros t t' Ht. unfold slot_table. by rewrite Ht. Qed.

Lemma table_slot r i o t sl :
  table_ok r ((i, o) :: t) sl -> 2 <= r <= 59 ->
  sl !!z i = Some o /\ RingAbs.index_ok r i /\ (i ∉ t.*1) /\ 0 <= i < zlength sl /\
  zlength t + 1 = half r.
Proof.
  intros (Hp & Hl & Hs) Hr.
  assert (i ∈ seqZ 0 (half r)) as Hi by (rewrite <- Hp; cbn; in_list).
  apply elem_of_seqZ in Hi. pose proof (RingAbs.size_half r ltac:(lia)).
  assert (NoDup (i :: t.*1)) as [Hn _]%NoDup_cons by (cbn in Hp; rewrite Hp; apply NoDup_seqZ).
  pose proof (Permutation_length Hp) as Hlen. pose proof (RingAbs.half_pos r ltac:(lia)).
  rewrite length_fmap, length_seqZ in Hlen. cbn in Hlen. unfold zlength in *.
  split_and!; [by apply Hs; left|unfold RingAbs.index_ok; lia|done|lia..].
Qed.

Lemma table_store r i o o' t sl :
  table_ok r ((i, o) :: t) sl -> 2 <= r <= 59 -> table_ok r ((i, o') :: t) (<[i :=z o']> sl).
Proof.
  intros Ht Hr. destruct (table_slot _ _ _ _ _ Ht Hr) as (_ & _ & Hn & Hi & _).
  destruct Ht as (Hp & Hl & Hs). split_and!; [done|by rewrite zlength_zinsert|].
  intros k x [[= -> ->]|Hk]%elem_of_cons; [by apply zlookup_zinsert_eq|].
  rewrite zlookup_zinsert_ne; [by apply Hs; right|].
  intros ->. apply Hn. apply (list_elem_of_fmap_2 fst _ (k, x)). done.
Qed.

(** ** Moving one thread *)

Lemma uncrowded_misses sp c : crowded c = false -> misses sp c = false.
Proof. unfold misses. intros ->. apply andb_false_r. Qed.

Lemma crowded_same c c' :
  LockFreeQueue.capacity_ (shared c') = LockFreeQueue.capacity_ (shared c) ->
  length (threads c') = length (threads c) -> crowded c' = crowded c.
Proof. unfold crowded, zlength. by intros -> ->. Qed.

Lemma inside_few r c free queued g : inv_with r c free queued -> sum_of (inside g) (threads c) < few.
Proof.
  intros Hi. pose proof (inv_few _ _ _ _ Hi).
  pose proof (sum_of_bound (inside g) (threads c) 1) as Hb.
  assert (sum_of (inside g) (threads c) <= 1 * zlength (threads c)); [|lia].
  apply Hb. intros p _. by destruct g, p.
Qed.

Lemma inside_nonneg g p : 0 <= inside g p.
Proof. by destruct g, p. Qed.

(** A thread inside a gate keeps it from being sealed. *)
Lemma inside_unsealed r c free queued g j p :
  inv_with r c free queued -> threads c !! j = Some p -> inside g p = 1 -> ~ sealed g (shared c).
Proof.
  intros Hi Hj Hp Hs. pose proof (inside_few _ _ _ _ g Hi) as Hf.
  pose proof (gate_word_sealed _ _ (inv_gate _ _ _ _ Hi g) Hf Hs).
  pose proof (sum_of_lookup _ _ _ _ (inside_nonneg g) Hj). lia.
Qed.

(** The step of thread [j] from [p] to [p']: what it does to the rings and
    slots, to the gates, and what it may rely on after. *)
Lemma inv_move r c free queued j p p' q' free' queued' acc tak ret dis mu ws :
  inv_with r c free queued -> threads c !! j = Some p ->
  LockFreeQueue.capacity_ q' = LockFreeQueue.capacity_ (shared c) ->
  holds r free' (LockFreeQueue.available_indices_ q') ->
  holds r queued'.*1 (LockFreeQueue.published_indices_ q') ->
  (∀ rest, table_ok r (slot_table free queued (owned p ++ rest)) (LockFreeQueue.slots_ (shared c)) ->
     table_ok r (slot_table free' queued' (owned p' ++ rest)) (LockFreeQueue.slots_ q')) ->
  LockFreeQueue.occupied_count_ q' = u64 (LockFreeQueue.occupied_count_ (shared c) +
    (zlength queued' + counted p' - zlength queued - counted p)) ->
  acc = tak ++ dis ++ queued'.*2 ->
  (∀ rest, taken c ≡ₚ returned c ++ carried p ++ rest -> tak ≡ₚ ret ++ carried p' ++ rest) ->
  (∀ g, gate_word (LockFreeQueue.gate_of g q')
     (sum_of (inside g) (threads c) - inside g p + inside g p')) ->
  (LockFreeQueue.producer_quiesced_ q' = true -> sealed LockFreeQueue.producer_gate q') ->
  (dis ≠ [] -> sealed LockFreeQueue.consumer_gate q') ->
  advances (shared c) queued q' queued' -> pc_ok (crowded c) q' queued' p' ->
  inv_with r (mk_config q' (<[j:=p']> (threads c)) mu acc tak ret dis ws) free' queued'.
Proof.
  intros [] Hj Hcap Hav Hpu Htab Hocc Hacc Htak Hgate Hqu Hdis Hadv Hok.
  destruct (concat_split owned _ _ _ Hj) as (l & k & Ho' & Ho & _).
  destruct (concat_split carried _ _ _ Hj) as (l' & k' & Hc' & Hc & _).
  split; cbn [shared threads accepted taken returned discarded]; try done.
  - congruence.
  - unfold in_hands in *. cbn [threads]. rewrite Ho', Ho in *.
    rewrite (Permutation_app_swap_app l) in *. by apply Htab.
  - rewrite Hocc, inv_count0, u64_add_l, (sum_of_insert _ _ _ _ _ Hj). f_equal. lia.
  - rewrite Hc', Hc in *. rewrite (Permutation_app_swap_app l') in *. by apply Htak.
  - intros g. by rewrite (sum_of_insert _ _ _ _ _ Hj).
  - rewrite (crowded_same c) by (done || apply length_insert).
    intros i x [(-> & -> & _)|[_ Hx]]%list_lookup_insert_Some; [done|].
    by eapply pc_ok_advances; [|by eapply inv_pcs0].
  - unfold zlength in *. by rewrite length_insert.
Qed.

(** A step that at most raises an epoch or takes or drops the mutex. *)
Lemma inv_quiet r c free queued j p p' q' mu ws :
  inv_with r c free queued -> threads c !! j = Some p ->
  LockFreeQueue.with_epochs 0 0 q' = LockFreeQueue.with_epochs 0 0 (shared c) ->
  owned p' = owned p -> carried p' = carried p -> counted p' = counted p ->
  (∀ g, inside g p' = inside g p) -> pc_ok (crowded c) (shared c) queued p' ->
  inv_with r (mk_config q' (<[j:=p']> (threads c)) mu
    (accepted c) (taken c) (returned c) (discarded c) ws) free queued.
Proof.
  intros Hi Hj Hq Ho Hc Hn Hin Hok. pose proof Hi as [].
  assert (∀ g, LockFreeQueue.gate_of g q' = LockFreeQueue.gate_of g (shared c)) as Hg.
  { destruct q', (shared c). cbn in Hq. injection Hq as -> -> -> -> -> -> -> ->. by intros []. }
  assert (advances (shared c) queued q' queued) as Ha.
  { split_and!; [..|done]; unfold sealed, closing_gate; intros g; by rewrite Hg. }
  destruct q' as [cap sl av pu oc pg cg qu de ce], (shared c) as [] eqn:Hs.
  cbn in Hq. injection Hq as -> -> -> -> -> -> -> ->. cbn in *.
  eapply inv_move; rewrite ?Hs; try done; cbn.
  - intros rest. by rewrite Ho.
  - rewrite Hn, inv_count0. rewrite u64_add_l. f_equal. lia.
  - intros rest. by rewrite Hc.
  - intros g. rewrite Hin. specialize (inv_gate0 g). destruct g; cbn in *;
      by rewrite Z.sub_add.
Qed.

Lemma inv_goto r c free queued j p p' :
  inv_with r c free queued -> threads c !! j = Some p ->
  owned p' = owned p -> carried p' = carried p -> counted p' = counted p ->
  (∀ g, inside g p' = inside g p) -> pc_ok (crowded c) (shared c) queued p' -> inv (goto j p' c).
Proof. intros. exists r, free, queued. by eapply inv_quiet. Qed.

(** A step on the rings, the slots and [occupied_count_]. *)
Lemma inv_storage r c free queued j p p' q' free' queued' acc tak ret dis ws :
  inv_with r c free queued -> threads c !! j = Some p ->
  LockFreeQueue.capacity_ q' = LockFreeQueue.capacity_ (shared c) ->
  (∀ g, LockFreeQueue.gate_of g q' = LockFreeQueue.gate_of g (shared c)) ->
  LockFreeQueue.producer_quiesced_ q' = LockFreeQueue.producer_quiesced_ (shared c) ->
  (∀ g, inside g p' = inside g p) ->
  queued' = queued \/ queued' = tail queued \/ inside LockFreeQueue.producer_gate p = 1 ->
  dis = discarded c \/ sealed LockFreeQueue.consumer_gate (shared c) ->
  (∀ q, (∀ g, LockFreeQueue.gate_of g q = LockFreeQueue.gate_of g (shared c)) ->
     pc_ok (crowded c) (shared c) queued p -> pc_ok (crowded c) q queued' p') ->
  holds r free' (LockFreeQueue.available_indices_ q') ->
  holds r queued'.*1 (LockFreeQueue.published_indices_ q') ->
  (∀ rest, table_ok r (slot_table free queued (owned p ++ rest)) (LockFreeQueue.slots_ (shared c)) ->
     table_ok r (slot_table free' queued' (owned p' ++ rest)) (LockFreeQueue.slots_ q')) ->
  LockFreeQueue.occupied_count_ q' = u64 (LockFreeQueue.occupied_count_ (shared c) +
    (zlength queued' + counted p' - zlength queued - counted p)) ->
  acc = tak ++ dis ++ queued'.*2 ->
  (∀ rest, taken c ≡ₚ returned c ++ carried p ++ rest -> tak ≡ₚ ret ++ carried p' ++ rest) ->
  inv_with r (mk_config q' (<[j:=p']> (threads c)) (close_mutex c) acc tak ret dis ws) free' queued'.
Proof.
  intros Hi Hj Hcap Hg Hqu Hin Hq Hd Hok Hav Hpu Htab Hocc Hacc Htak.
  eapply inv_move; try done.
  - intros g. rewrite Hin, Hg, Z.sub_add. apply Hi.
  - unfold sealed. rewrite Hqu, Hg. apply Hi.
  - unfold sealed. rewrite Hg. destruct Hd as [-> |?]; [apply Hi|done].
  - split_and!; unfold sealed, closing_gate; [intros g; by rewrite Hg..|]. intros Hs ->.
    destruct Hq as [->|[->|Hp]]; [done..|]. by destruct (inside_unsealed _ _ _ _ _ _ _ Hi Hj Hp).
  - apply Hok; [done|]. by eapply Hi.
Qed.

(** A step that writes one gate word. *)
Lemma inv_at_gate r c free queued j p p' g w mu ws :
  inv_with r c free queued -> threads c !! j = Some p ->
  owned p' = owned p -> carried p' = carried p -> counted p' = counted p ->
  (∀ g', g' ≠ g -> inside g' p' = inside g' p) ->
  gate_word w (sum_of (inside g) (threads c) - inside g p + inside g p') ->
  (sealed g (shared c) -> w = LockFreeQueue.closed_bit) ->
  (closing_gate g (shared c) -> LockFreeQueue.closed_bit <= w) ->
  (∀ q, (∀ g, sealed g (shared c) -> sealed g q) -> LockFreeQueue.gate_of g q = w ->
     pc_ok (crowded c) q queued p') ->
  inv_with r (mk_config (LockFreeQueue.with_gate g w (shared c)) (<[j:=p']> (threads c)) mu
    (accepted c) (taken c) (returned c) (discarded c) ws) free queued.
Proof.
  intros Hi Hj Ho Hc Hn Hin Hw Hse Hcl Hok. pose proof Hi as [].
  assert (∀ g', LockFreeQueue.gate_of g' (LockFreeQueue.with_gate g w (shared c)) =
    if decide (g' = g) then w else LockFreeQueue.gate_of g' (shared c)) as Hg.
  { destruct (shared c), g; by intros []. }
  assert (∀ g', sealed g' (shared c) -> sealed g' (LockFreeQueue.with_gate g w (shared c))) as Hs.
  { intros g' H. unfold sealed. rewrite Hg. destruct (decide (g' = g)) as [->|]; auto. }
  assert (advances (shared c) queued (LockFreeQueue.with_gate g w (shared c)) queued) as Ha.
  { split_and!; [done| |done]. intros g' H. unfold closing_gate. rewrite Hg.
    destruct (decide (g' = g)) as [->|]; auto. }
  destruct (shared c) as [cap sl av pu oc pg cg qu de ce] eqn:Hq. 
  eapply inv_move; rewrite ?Hq; try done; try (destruct g; done); cbn.
  - intros rest. rewrite Ho. by destruct g.
  - rewrite Hn. cbn in inv_count0. destruct g; cbn; rewrite inv_count0, u64_add_l; f_equal; lia.
  - intros rest. by rewrite Hc.
  - intros g'. rewrite Hg. destruct (decide (g' = g)) as [->|Hne]; [done|].
    rewrite Hin, Z.sub_add by done. apply inv_gate0.
  - intros H. apply Hs, inv_quiesced0. by destruct g.
  - auto.
  - apply (Hok _ Hs). specialize (Hg g). by rewrite decide_True in Hg.
Qed.

(** ** The storage steps *)

Local Ltac table_perm := apply table_ok_proper;
  [unfold slot_table; rewrite ?fmap_app; cbn; solve_Permutation|done].

(** The entries of a thread, brought to the front of the slot table. *)
Lemma table_own r c free queued j p :
  inv_with r c free queued -> threads c !! j = Some p ->
  ∃ rest, table_ok r (owned p ++ slot_table free queued rest) (LockFreeQueue.slots_ (shared c)).
Proof.
  intros Hi Hj. destruct (concat_split owned _ _ _ Hj) as (l & k & _ & Hl & _).
  exists (l ++ k). pose proof (inv_table _ _ _ _ Hi) as Ht. unfold in_hands in Ht. rewrite Hl in Ht.
  revert Ht. table_perm.
Qed.

Lemma table_store_own r free queued i o o' rest sl :
  2 <= r <= 59 -> table_ok r (slot_table free queued ([(i, o)] ++ rest)) sl ->
  table_ok r (slot_table free queued ([(i, o')] ++ rest)) (<[i :=z o']> sl).
Proof.
  intros Hr Ht.
  assert (table_ok r ((i, o) :: slot_table free queued rest) sl) as Ht' by (revert Ht; table_perm).
  apply (table_store _ _ _ o') in Ht'; [|done]. revert Ht'. table_perm.
Qed.

Lemma slot_table_length free queued mine :
  zlength (slot_table free queued mine) = zlength free + zlength queued + zlength mine.
Proof. unfold slot_table. zlen. Qed.

(** A held index goes back to the free ring. *)
Lemma free_index_ok r c free queued j p p' i :
  inv_with r c free queued -> threads c !! j = Some p ->
  owned p = [(i, None)] -> owned p' = [] -> carried p = [] -> carried p' = [] ->
  counted p = 0 -> counted p' = 0 -> (∀ g, inside g p' = inside g p) ->
  (∀ q, (∀ g, LockFreeQueue.gate_of g q = LockFreeQueue.gate_of g (shared c)) ->
     pc_ok (crowded c) (shared c) queued p -> pc_ok (crowded c) q queued p') ->
  inv (call j c (free_index i) (fun _ => goto j p')).
Proof.
  intros Hi Hj Ho Ho' Hc Hc' Hn Hn' Hin Hok. pose proof (inv_width _ _ _ _ Hi) as Hw.
  destruct (table_own _ _ _ _ _ _ Hi Hj) as [rest Ht]. rewrite Ho in Ht. cbn [app] in Ht.
  destruct (table_slot _ _ _ _ _ Ht Hw) as (_ & Hx & _ & _ & Hsz).
  rewrite slot_table_length in Hsz.
  destruct (RingSolo.enqueue_holds r ltac:(lia) free (LockFreeQueue.available_indices_ (shared c)) i)
    as (av & He & Hav); [apply Hi| |done|].
  { pose proof (zlength_nonneg queued). pose proof (zlength_nonneg rest). lia. }
  unfold call, free_index, LockFreeQueue.on_available. rewrite He.
  exists r, (free ++ [i]), queued. pose proof Hi as [].
  destruct c as [[cap sl av0 pu oc pg cg qu de ce] ts mu acc tak ret dis ws]. cbn in *.
  eapply (inv_storage _ _ _ _ _ _ _ _ _ _ _ _ _ _ _ Hi Hj); try done; cbn; auto.
  - intros rest'. rewrite Ho, Ho'. table_perm.
  - rewrite inv_count0, u64_add_l, Hn, Hn'. f_equal. lia.
  - intros rest'. by rewrite Hc, Hc'.
Qed.

Lemma reserve_ok sp wk c j md event c' :
  inv c -> threads c !! j = Some (Reserve md event) ->
  step_pc sp wk j (Reserve md event) c = Some c' -> inv c'.
Proof.
  intros (r & free & queued & Hi) Hj [= <-]. pose proof Hi as [].
  destruct (misses sp c); [by eapply inv_goto|].
  destruct (RingSolo.try_dequeue_holds r ltac:(lia) free _ inv_available0) as (av & Hd & Hav).
  unfold call, LockFreeQueue.on_available. rewrite Hd. exists r, (tail free), queued.
  destruct c as [[cap sl av0 pu oc pg cg qu de ce] ts mu acc tak ret dis ws]. cbn in *.
  eapply (inv_storage _ _ _ _ _ _ _ _ _ _ _ _ _ _ _ Hi Hj); destruct free as [|i free]; try done;
    cbn; auto; try (by intros []).
  - intros rest. table_perm.
  - rewrite inv_count0, u64_add_l. f_equal. lia.
  - rewrite inv_count0, u64_add_l. f_equal. lia.
Qed.

Lemma construct_ok sp wk c j i event c' :
  inv c -> threads c !! j = Some (Construct i event) ->
  step_pc sp wk j (Construct i event) c = Some c' -> inv c'.
Proof.
  intros (r & free & queued & Hi) Hj. pose proof Hi as [].
  destruct (table_own _ _ _ _ _ _ Hi Hj) as [rest Ht].
  destruct (table_slot _ _ _ _ _ Ht inv_width0) as (Hs & _).
  cbn [step_pc push_step LockFreeQueue.construct_at]. rewrite Hs.
  destruct c as [[cap sl av0 pu oc pg cg qu de ce] ts mu acc tak ret dis ws]. cbn in *.
  destruct event as [e|e]; intros [= <-]; exists r, free, queued;
    eapply (inv_storage _ _ _ _ _ _ _ _ _ _ _ _ _ _ _ Hi Hj); try done; cbn; auto;
    try (by intros []).
  - rewrite inv_count0, u64_add_l. f_equal. lia.
  - intros rest'. by apply (table_store_own r free queued i None).
  - do 2 f_equal. lia.
Qed.

Lemma publish_ok sp wk c j i e c' :
  inv c -> threads c !! j = Some (Publish i e) ->
  step_pc sp wk j (Publish i e) c = Some c' -> inv c'.
Proof.
  intros (r & free & queued & Hi) Hj [= <-]. pose proof Hi as [].
  destruct (table_own _ _ _ _ _ _ Hi Hj) as [rest Ht].
  destruct (table_slot _ _ _ _ _ Ht inv_width0) as (_ & Hx & _ & _ & Hsz).
  rewrite slot_table_length in Hsz.
  destruct (RingSolo.enqueue_holds r ltac:(lia) _ _ i inv_published0) as (pu & He & Hpu).
  { zlen. pose proof (zlength_nonneg free). pose proof (zlength_nonneg rest). lia. }
  { done. }
  unfold call, LockFreeQueue.on_published. rewrite He. exists r, free, (queued ++ [(i, e)]).
  destruct c as [[cap sl av0 pu0 oc pg cg qu de ce] ts mu acc tak ret dis ws]. cbn in *.
  eapply (inv_storage _ _ _ _ _ _ _ _ _ _ _ _ _ _ _ Hi Hj); try done; cbn; auto.
  - by rewrite fmap_app.
  - intros rest'. table_perm.
  - rewrite inv_count0, u64_add_l. f_equal. zlen.
  - rewrite inv_log0, fmap_app. by rewrite !(assoc_L (++)).
Qed.

Lemma dequeue_published_eq sp r c free queued :
  inv_with r c free queued ->
  ∃ pu, holds r (tail queued).*1 pu /\ ∀ j none some,
    dequeue_published sp j c none some = if misses sp c then goto j none c else
      let c' := with_shared (LockFreeQueue.with_published pu (shared c)) c in
      match queued with [] => goto j none c' | (i, e) :: _ => some i e c' end.
Proof.
  intros []. destruct (RingSolo.try_dequeue_holds r ltac:(lia) _ _ inv_published0) as (pu & Hd & Hpu).
  exists pu. split; [by destruct queued|]. intros j none some.
  unfold dequeue_published, call, LockFreeQueue.on_published. rewrite Hd. destruct (misses sp c); [done|].
  destruct queued as [|[i e] queued]; [done|]. cbn.
  assert (LockFreeQueue.slots_ (shared c) !!z i = Some (Some e)) as Hs.
  { apply (proj2 (proj2 inv_table0)). unfold slot_table. cbn. in_list. }
  unfold slot_event. destruct (shared c). cbn in *. by rewrite Hs.
Qed.

Lemma take_ok sp wk c j md c' :
  inv c -> threads c !! j = Some (Take md) -> step_pc sp wk j (Take md) c = Some c' -> inv c'.
Proof.
  intros (r & free & queued & Hi) Hj [= <-]. pose proof Hi as [].
  destruct (dequeue_published_eq sp _ _ _ _ Hi) as (pu & Hpu & ->).
  destruct (misses sp c); [by eapply inv_goto|].
  assert (discarded c = []) as Hnd.
  { destruct (discarded c); [done|]. exfalso.
    apply (inside_unsealed _ _ _ _ LockFreeQueue.consumer_gate _ _ Hi Hj); auto. }
  exists r, free, (tail queued).
  destruct c as [[cap sl av0 pu0 oc pg cg qu de ce] ts mu acc tak ret dis ws]. cbn in *.
  destruct queued as [|[i e] queued]; cbn in *;
    eapply (inv_storage _ _ _ _ _ _ _ _ _ _ _ _ _ _ _ Hi Hj); try done; cbn; auto.
  - rewrite inv_count0, u64_add_l. f_equal. zlen.
  - intros rest'. table_perm.
  - rewrite inv_count0, u64_add_l. f_equal. zlen.
  - rewrite inv_log0, Hnd. by rewrite <- (assoc_L (++)).
  - intros rest' ->. solve_Permutation.
Qed.

Lemma discard_take_ok sp wk c j n c' :
  inv c -> threads c !! j = Some (DiscardTake n) ->
  step_pc sp wk j (DiscardTake n) c = Some c' -> inv c'.
Proof.
  intros (r & free & queued & Hi) Hj [= <-]. pose proof Hi as [].
  destruct (dequeue_published_eq sp _ _ _ _ Hi) as (pu & Hpu & ->).
  pose proof (inv_pcs0 _ _ Hj) as Hs. destruct (misses sp c) eqn:Hm.
  { eapply inv_goto; try done; try (by intros []). split; [done|]. left. by apply andb_true_iff in Hm as [_ ?]. }
  exists r, free, (tail queued).
  destruct c as [[cap sl av0 pu0 oc pg cg qu de ce] ts mu acc tak ret dis ws]. cbn in *.
  assert (∀ g, inside g (DiscardTake n) = 0) as Hin by by intros [].
  destruct queued as [|[i e] queued]; cbn in *;
    eapply (inv_storage _ _ _ _ _ _ _ _ _ _ _ _ _ _ _ Hi Hj); try done; cbn; auto;
    try (by intros []); try (intros q Hg _; try split; try (by right); intros g; unfold sealed; rewrite Hg; apply Hs).
  - rewrite inv_count0, u64_add_l. f_equal. zlen.
  - intros rest'. table_perm.
  - rewrite inv_count0, u64_add_l. f_equal. zlen.
  - rewrite inv_log0. by rewrite <- !(assoc_L (++)).
Qed.

(** The event of a held slot is the one the thread dequeued. *)
Lemma empty_slot_eq r c free queued j p i e :
  inv_with r c free queued -> threads c !! j = Some p -> owned p = [(i, Some e)] ->
  empty_slot i (shared c) = Ret e
    (LockFreeQueue.with_occupied (u64 (LockFreeQueue.occupied_count_ (shared c) - 1))
      (LockFreeQueue.with_slots (<[i :=z None]> (LockFreeQueue.slots_ (shared c))) (shared c))).
Proof.
  intros Hi Hj Ho. destruct (table_own _ _ _ _ _ _ Hi Hj) as [rest Ht]. rewrite Ho in Ht.
  destruct (table_slot _ _ _ _ _ Ht (inv_width _ _ _ _ Hi)) as (Hs & _).
  unfold empty_slot, LockFreeQueue.take_at. run_m. rewrite Hs. by destruct (shared c).
Qed.

Lemma move_out_ok sp wk c j md i e c' :
  inv c -> threads c !! j = Some (MoveOut md i e) ->
  step_pc sp wk j (MoveOut md i e) c = Some c' -> inv c'.
Proof.
  intros (r & free & queued & Hi) Hj [= <-]. pose proof Hi as [].
  unfold call. rewrite (empty_slot_eq _ _ _ _ _ _ _ _ Hi Hj eq_refl). exists r, free, queued.
  destruct c as [[cap sl av0 pu0 oc pg cg qu de ce] ts mu acc tak ret dis ws]. cbn in *.
  eapply (inv_storage _ _ _ _ _ _ _ _ _ _ _ _ _ _ _ Hi Hj); try done; cbn; auto.
  - intros rest'. by apply (table_store_own r free queued i (Some e)).
  - do 2 f_equal. lia.
  - intros rest' ->. solve_Permutation.
Qed.

Lemma discard_destroy_ok sp wk c j i e n c' :
  inv c -> threads c !! j = Some (DiscardDestroy i e n) ->
  step_pc sp wk j (DiscardDestroy i e n) c = Some c' -> inv c'.
Proof.
  intros (r & free & queued & Hi) Hj [= <-]. pose proof Hi as [].
  unfold call. rewrite (empty_slot_eq _ _ _ _ _ _ _ _ Hi Hj eq_refl). exists r, free, queued.
  pose proof (inv_pcs0 _ _ Hj) as Hs.
  destruct c as [[cap sl av0 pu0 oc pg cg qu de ce] ts mu acc tak ret dis ws]. cbn in *.
  eapply (inv_storage _ _ _ _ _ _ _ _ _ _ _ _ _ _ _ Hi Hj); try done; cbn; auto; try (by intros []).
  - intros q Hg _ g. unfold sealed. rewrite Hg. apply Hs.
  - intros rest'. by apply (table_store_own r free queued i (Some e)).
  - do 2 f_equal. lia.
Qed.

(** ** The other steps *)

Lemma inv_signal r c free queued j p p' mu m :
  inv_with r c free queued -> threads c !! j = Some p ->
  m = LockFreeQueue.signal_data \/ m = LockFreeQueue.signal_capacity ->
  owned p' = owned p -> carried p' = carried p -> counted p' = counted p ->
  (∀ g, inside g p' = inside g p) -> pc_ok (crowded c) (shared c) queued p' ->
  inv (signal j p' m (with_mutex mu c)).
Proof.
  intros Hi Hj Hm **. exists r, free, queued.
  destruct Hm as [-> | ->]; apply (inv_quiet r c free queued j p); try done; by destruct c as [[]].
Qed.

Lemma notify_one_inv w wk ts' c :
  inv c -> notify_one w wk (threads c) = Some ts' ->
  inv (with_threads ts' c) /\
  ∀ j p, threads c !! j = Some p -> wake p = p -> ts' !! j = Some p.
Proof.
  intros (r & free & queued & Hi). unfold notify_one. destruct wk as [k|].
  - destruct (threads c !! k) as [p|] eqn:Hk; [|done].
    destruct (asleep_on w p) eqn:Hp; [|done]. intros [= <-]. split.
    + exists r, free, queued. destruct w, p; try done; by eapply inv_quiet.
    + intros j p' Hj Hp'. rewrite list_lookup_insert_ne; [done|]. intros ->.
      assert (p' = p) as -> by congruence. by destruct w, p.
  - destruct (existsb _ (threads c)); [done|]. intros [= <-].
    split; [|done]. exists r, free, queued. by destruct c.
Qed.

Lemma with_mutex_inv mu c : inv c -> inv (with_mutex mu c).
Proof. intros (r & free & queued & []). by exists r, free, queued. Qed.

Lemma notify_inv w wk c j p p' c' :
  inv c -> threads c !! j = Some p -> wake p = p ->
  owned p' = owned p -> carried p' = carried p -> counted p' = counted p ->
  (∀ g, inside g p' = inside g p) ->
  (∀ cr queued, pc_ok cr (shared c) queued p -> pc_ok cr (shared c) queued p') ->
  notify j p' w wk c = Some c' -> inv c'.
Proof.
  intros Hi Hj Hp ? ? ? ? Hok Hn. unfold notify in Hn.
  destruct (notify_one w wk (threads c)) as [ts'|] eqn:Ht; [|done].
  injection Hn as <-. destruct (notify_one_inv _ _ _ _ Hi Ht) as [(r & free & queued & Hi') Hts].
  specialize (Hts _ _ Hj Hp). eapply inv_goto; try done.
  apply Hok. apply (inv_pcs _ _ _ _ Hi' j p Hts).
Qed.

Lemma gate_load_ok sp wk c j op c' :
  inv c -> threads c !! j = Some (GateLoad op) -> step_pc sp wk j (GateLoad op) c = Some c' -> inv c'.
Proof.
  intros (r & free & queued & Hi) Hj [= <-]. eapply inv_goto; try done; try (by intros []).
  split; [|done]. eexists. split; [apply Hi|]. by eapply inside_few.
Qed.

Lemma after_full_quiet md event cr q queued :
  owned (after_full md event) = [] /\ carried (after_full md event) = [] /\
  counted (after_full md event) = 0 /\ (∀ g, inside g (after_full md event) = 0) /\
  pc_ok cr q queued (after_full md event).
Proof. destruct md as [| | |[]]; split_and!; try done; by intros []. Qed.

Lemma after_pop_quiet mode (res : pop_result E) cr q queued :
  owned (after_pop mode res) = [] /\ carried (after_pop mode res) = [] /\
  counted (after_pop mode res) = 0 /\ (∀ g, inside g (after_pop mode res) = 0) /\
  pc_ok cr q queued (after_pop mode res).
Proof. unfold after_pop. case_bool_decide; destruct mode; split_and!; try done; by intros []. Qed.

Lemma gate_cas_ok sp wk c j op state c' :
  inv c -> threads c !! j = Some (GateCas op state) ->
  step_pc sp wk j (GateCas op state) c = Some c' -> inv c'.
Proof.
  intros (r & free & queued & Hi) Hj. pose proof (inv_pcs _ _ _ _ Hi _ _ Hj) as ((n & Hw & Hn) & _).
  pose proof (inside_few _ _ _ _ (gate_for op) Hi) as Hf.
  pose proof (inv_gate _ _ _ _ Hi (gate_for op)) as Hg.
  cbn [step_pc guard_step]. rewrite (guard_admits_word _ _ Hw Hn). destruct (Z.eqb_spec state n) as [->|].
  - destruct (negb sp && _) eqn:Hc; intros [= <-].
    + apply andb_true_iff in Hc as [_ Hc%Z.eqb_eq]. exists r, free, queued.
      assert (sum_of (inside (gate_for op)) (threads c) = n) as Hsum.
      { rewrite Hc in Hg. destruct Hw as [? [_|?]], Hg as [? [?|?]]; unfold few, LockFreeQueue.closed_bit in *; lia. }
      eapply (inv_at_gate _ _ _ _ _ _ _ _ _ _ _ Hi Hj); try done; try (by destruct op); cbn.
      * intros g' Hne. by destruct op, g'.
      * rewrite Hsum. destruct Hw as [? _]. destruct op; split; cbn; lia.
      * unfold sealed. rewrite Hc. unfold few, LockFreeQueue.closed_bit in *. lia.
      * unfold closing_gate. rewrite Hc. unfold few, LockFreeQueue.closed_bit in *. lia.
    + eapply inv_goto; try done; try (by intros []). split; [by eexists|done].
  - intros [= <-]. destruct op as [event|mode]; cbn [refused].
    + by eapply inv_goto.
    + destruct (after_pop_quiet mode make_closed (crowded c) (shared c) queued) as (? & ? & ? & Hin & ?).
      by eapply inv_goto.
Qed.

Lemma guard_leave_ok c j p p' g :
  inv c -> threads c !! j = Some p -> inside g p = 1 -> (∀ g', g' ≠ g -> inside g' p = 0) ->
  owned p = [] -> carried p = [] -> counted p = 0 ->
  owned p' = [] -> carried p' = [] -> counted p' = 0 -> (∀ g, inside g p' = 0) ->
  (∀ q queued, pc_ok (crowded c) (shared c) queued p -> pc_ok (crowded c) q queued p') ->
  inv (update j p' (LockFreeQueue.guard_leave g) c).
Proof.
  intros (r & free & queued & Hi) Hj Hp Hp0 ? ? ? ? ? ? Hin Hok.
  pose proof (inside_few _ _ _ _ g Hi) as Hf. pose proof (inv_gate _ _ _ _ Hi g) as Hg.
  pose proof (sum_of_lookup _ _ _ _ (inside_nonneg g) Hj) as Hs.
  exists r, free, queued. eapply (inv_at_gate _ _ _ _ _ _ _ _ _ _ _ Hi Hj); try done; try congruence.
  - intros g' Hne. by rewrite Hin, Hp0.
  - rewrite Hin, Hp, Z.add_0_r. apply gate_word_leave; [done..|lia].
  - intros Hse. by destruct (inside_unsealed _ _ _ _ _ _ _ Hi Hj Hp).
  - apply (gate_word_leave_closed _ _ Hg); [done|lia].
  - intros q _ _. apply Hok. by eapply Hi.
Qed.

Lemma close_gate_ok c j p p' g :
  inv c -> threads c !! j = Some p ->
  owned p' = owned p -> carried p' = carried p -> counted p' = counted p ->
  (∀ g, inside g p' = inside g p) ->
  (∀ q queued, (∀ g, sealed g (shared c) -> sealed g q) -> closing_gate g q ->
     pc_ok (crowded c) (shared c) queued p -> pc_ok (crowded c) q queued p') ->
  inv (update j p' (fun q => LockFreeQueue.with_gate g
    (Z.lor (LockFreeQueue.gate_of g q) LockFreeQueue.closed_bit) q) c).
Proof.
  intros (r & free & queued & Hi) Hj ? ? ? Hin Hok.
  pose proof (inside_few _ _ _ _ g Hi) as Hf. pose proof (inv_gate _ _ _ _ Hi g) as Hg.
  pose proof (gate_word_close _ _ Hg Hf) as Hc. pose proof (proj1 Hg).
  exists r, free, queued. eapply (inv_at_gate _ _ _ _ _ _ _ _ _ _ _ Hi Hj); try done; rewrite ?Hc.
  - rewrite Hin, Z.sub_add. split; [done|auto].
  - intros Hs. pose proof (gate_word_sealed _ _ Hg Hf Hs). lia.
  - lia.
  - intros q Hq Hgq. apply Hok; [done| |by eapply Hi]. unfold closing_gate. lia.
Qed.

Lemma signal_ok c j p p' m :
  inv c -> threads c !! j = Some p ->
  m = LockFreeQueue.signal_data \/ m = LockFreeQueue.signal_capacity ->
  owned p' = owned p -> carried p' = carried p -> counted p' = counted p ->
  (∀ g, inside g p' = inside g p) ->
  (∀ cr queued, pc_ok cr (shared c) queued p -> pc_ok cr (shared c) queued p') ->
  inv (signal j p' m c) /\ inv (signal j p' m (with_mutex None c)).
Proof.
  intros (r & free & queued & Hi) Hj Hm ? ? ? ? Hok.
  assert (∀ mu, inv (signal j p' m (with_mutex mu c))) as Hs.
  { intros mu. eapply inv_signal; eauto. apply Hok. by eapply inv_pcs. }
  split; [|apply Hs]. specialize (Hs (close_mutex c)). by destruct c.
Qed.

(** [close_gate] stops waiting once nobody is inside. *)
Lemma close_wait_ok c j p p' g :
  inv c -> threads c !! j = Some p ->
  Z.land (LockFreeQueue.gate_of g (shared c)) LockFreeQueue.active_mask = 0 ->
  owned p' = owned p -> carried p' = carried p -> counted p' = counted p ->
  (∀ g, inside g p' = inside g p) ->
  (∀ cr queued, pc_ok cr (shared c) queued p ->
     closing_gate g (shared c) /\ (sealed g (shared c) -> pc_ok cr (shared c) queued p')) ->
  inv (goto j p' c).
Proof.
  intros (r & free & queued & Hi) Hj H0 ? ? ? ? Hok. eapply inv_goto; try done.
  destruct (Hok (crowded c) queued) as [Hc Hs]; [by eapply inv_pcs|]. apply Hs. clear Hs Hok.
  pose proof (inv_gate _ _ _ _ Hi g) as Hg. pose proof (inside_few _ _ _ _ g Hi) as Hf.
  rewrite (gate_word_mask _ _ Hg Hf) in H0. rewrite H0 in Hg.
  unfold sealed, closing_gate, gate_word, LockFreeQueue.closed_bit in *. lia.
Qed.

Lemma quiesce_ok c j d :
  inv c -> threads c !! j = Some (CloseQuiesce d) ->
  inv (update j (CloseRaise (AfterProducers d)) (LockFreeQueue.with_quiesced true) c).
Proof.
  intros (r & free & queued & Hi) Hj. exists r, free, queued. pose proof Hi as [].
  pose proof (inv_pcs0 _ _ Hj) as Hs.
  destruct c as [[cap sl av pu oc pg cg qu de ce] ts mu acc tak ret dis ws]. cbn in *.
  eapply (inv_move _ _ _ _ _ _ _ _ _ _ _ _ _ _ _ _ Hi Hj); try done; cbn.
  - rewrite inv_count0, u64_add_l. f_equal. lia.
  - intros g. specialize (inv_gate0 g). destruct g; by rewrite Z.sub_add.
Qed.

(** ** Every step keeps the invariant *)

Lemma guard_step_inv sp j p c c' :
  inv c -> threads c !! j = Some p -> guard_step sp j p c = Some c' -> inv c'.
Proof.
  intros Hc Hj. destruct p; try discriminate.
  - by apply (gate_load_ok sp None).
  - by apply (gate_cas_ok sp None).
Qed.

Lemma push_step_inv sp wk j p c c' :
  inv c -> threads c !! j = Some p -> push_step sp wk j p c = Some c' -> inv c'.
Proof.
  intros Hc Hj. destruct p; try discriminate.
  - by apply (reserve_ok sp wk).
  - intros [= <-]. destruct (after_full_quiet md event true (shared c) []) as (? & ? & ? & ? & _).
    eapply guard_leave_ok; try done; [by intros []|]. intros. apply after_full_quiet.
  - by apply (construct_ok sp wk).
  - intros [= <-]. destruct Hc as (r & free & queued & Hi). by eapply free_index_ok.
  - intros [= <-]. by eapply signal_ok; eauto.
  - by apply (notify_inv capacity_epoch wk c j (GiveBackWake e)).
  - by apply (publish_ok sp wk).
  - intros [= <-]. by eapply signal_ok; eauto.
  - by apply (notify_inv data_epoch wk c j PushWake).
  - intros [= <-]. eapply guard_leave_ok; try done; try (by intros []). by destruct o.
Qed.

Lemma pop_step_inv sp wk j p c c' :
  inv c -> threads c !! j = Some p -> pop_step sp wk j p c = Some c' -> inv c'.
Proof.
  intros Hc Hj. destruct p; try discriminate.
  - by apply (take_ok sp wk).
  - intros [= <-]. destruct Hc as (r & free & queued & Hi). by eapply inv_goto.
  - by apply (move_out_ok sp wk c j md index event).
  - intros [= <-]. destruct Hc as (r & free & queued & Hi). by eapply free_index_ok.
  - intros [= <-]. by eapply signal_ok; eauto.
  - by apply (notify_inv capacity_epoch wk c j (FreeWake md event)).
  - intros [= <-]. destruct (after_pop_quiet md r true (shared c) []) as (? & ? & ? & ? & _).
    eapply guard_leave_ok; try done; [by intros []|]. intros. apply after_pop_quiet.
Qed.

Lemma wait_step_inv j p c c' :
  inv c -> threads c !! j = Some p ->
  wait_push_step j p c = Some c' \/ wait_pop_step j p c = Some c' -> inv c'.
Proof.
  intros (r & free & queued & Hi) Hj.
  intros [Hs|Hs]; destruct p; try discriminate; injection Hs as <-; repeat case_match;
    try (by eapply inv_goto).
  - destruct md; eapply inv_goto; try done; by intros [].
  - destruct md; eapply inv_goto; try done; by intros [].
Qed.

Lemma close_step_inv wk j p c c' :
  inv c -> threads c !! j = Some p -> close_step wk j p c = Some c' -> inv c'.
Proof.
  intros Hc Hj. destruct p; try discriminate; cbn [close_step].
  - destruct (close_mutex c); [done|]. intros [= <-]. destruct Hc as (r & free & queued & Hi).
    exists r, free, queued. by apply (inv_quiet _ _ _ _ _ _ _ _ _ _ Hi Hj).
  - intros [= <-]. by eapply (close_gate_ok _ _ _ _ LockFreeQueue.producer_gate).
  - destruct (Z.eqb_spec (Z.land (LockFreeQueue.producer_gate_ (shared c)) LockFreeQueue.active_mask) 0);
      [|done]. intros [= <-]. by eapply (close_wait_ok _ _ _ _ LockFreeQueue.producer_gate).
  - intros [= <-]. by apply quiesce_ok.
  - intros [= <-]. eapply signal_ok; eauto; by destruct k.
  - apply (notify_inv data_epoch wk c j (CloseWake k)); try done; by destruct k.
  - intros [= <-]. eapply signal_ok; eauto; by destruct k.
  - destruct k as [[]|n]; intros Hs.
    + by apply (notify_inv capacity_epoch wk c j _ DiscardOr c' Hc Hj).
    + by apply (notify_inv capacity_epoch wk _ j _ (Finished Closed) c' (with_mutex_inv None _ Hc) Hj).
    + by apply (notify_inv capacity_epoch wk _ j _ (Finished (Discarded n)) c'
        (with_mutex_inv None _ Hc) Hj).
Qed.

Lemma discard_step_inv sp j p c c' :
  inv c -> threads c !! j = Some p -> discard_step sp j p c = Some c' -> inv c'.
Proof.
  intros Hc Hj. destruct p; try discriminate; cbn [discard_step].
  - intros [= <-]. eapply (close_gate_ok _ _ _ _ LockFreeQueue.consumer_gate); try done.
    intros q queued Hs Hc' Hp. split; [by apply Hs|done].
  - destruct (Z.eqb_spec (Z.land (LockFreeQueue.consumer_gate_ (shared c)) LockFreeQueue.active_mask) 0);
      [|done]. intros [= <-]. eapply (close_wait_ok _ _ _ _ LockFreeQueue.consumer_gate); try done.
    intros cr queued [Hp Hcl]. split; [done|]. by intros Hs [].
  - by apply (discard_take_ok sp None).
  - by apply (discard_destroy_ok sp None c j index event n).
  - intros [= <-]. destruct Hc as (r & free & queued & Hi). eapply free_index_ok; try done.
    intros q Hg Hs g. unfold sealed. rewrite Hg. apply Hs.
Qed.

Lemma step_pc_inv sp wk j p c c' :
  inv c -> threads c !! j = Some p -> step_pc sp wk j p c = Some c' -> inv c'.
Proof.
  intros Hc Hj. destruct p; try discriminate; cbn [step_pc];
    first [by apply guard_step_inv|by apply push_step_inv|by apply pop_step_inv
      |by intros Hs; eapply wait_step_inv; eauto|by apply close_step_inv|by apply discard_step_inv].
Qed.

Lemma begin_begins j p w c c' :
  begin j p w c = Some c' ->
  ∃ p0, threads c !! j = Some p0 /\ at_rest p0 = true /\
    stop_token (surrounding j c) ≠ StopWake /\
    c' = goto j p (with_calls (<[j := mk_surroundings Unstopped w false]> (calls c)) c).
Proof.
  unfold begin. destruct (threads c !! j) as [p0|]; [|by destruct (stop_token _)].
  destruct (at_rest p0) eqn:Hp; destruct (stop_token _); try done; intros [= <-]; eauto.
Qed.

Lemma begin_inv j p w c c' :
  inv c -> owned p = [] -> carried p = [] -> counted p = 0 -> (∀ g, inside g p = 0) ->
  (∀ cr q queued, pc_ok cr q queued p) -> begin j p w c = Some c' -> inv c'.
Proof.
  intros (r & free & queued & Hi) ? ? ? Hin Hok (p0 & Hj & Hp & _ & ->)%begin_begins.
  exists r, free, queued. eapply (inv_quiet r c free queued j p0); destruct p0; try done;
    intros g; rewrite Hin; by destruct g.
Qed.

(** A notification of every sleeper. *)
Lemma notify_all_lookup w ts j p :
  notify_all w ts !! j = Some p ->
  ∃ p0, ts !! j = Some p0 /\ p = if asleep_on w p0 then wake p0 else p0.
Proof. unfold notify_all. rewrite list_lookup_fmap_Some. intros (p0 & -> & ?). eauto. Qed.

Lemma inv_rethread r c free queued ts' :
  inv_with r c free queued -> Forall2 (λ p p', p' = p \/ p' = wake p) (threads c) ts' ->
  inv_with r (with_threads ts' c) free queued.
Proof.
  intros [] Hts.
  assert (∀ f : pc -> Z, (∀ p, f (wake p) = f p) -> sum_of f ts' = sum_of f (threads c)) as Hsum.
  { intros f Hf. clear -Hts Hf. induction Hts as [|p p' ts ts' [-> | ->] _ IH]; [done|..]; sum_cons;
      rewrite ?Hf; lia. }
  assert (∀ A (f : pc -> list A), (∀ p, f (wake p) = f p) -> f <$> ts' = f <$> threads c) as Hmap.
  { intros A f Hf. clear -Hts Hf. induction Hts as [|p p' ts ts' [-> | ->] _ IH]; [done|..]; cbn;
      rewrite ?Hf; by f_equal. }
  split; try done; cbn.
  - unfold in_hands. cbn. by rewrite Hmap by (by intros []).
  - by rewrite Hsum by (by intros []).
  - by rewrite Hmap by (by intros []).
  - intros g. by rewrite Hsum by (by destruct g; intros []).
  - rewrite (crowded_same c) by (done || by rewrite (Forall2_length _ _ _ Hts)).
    intros k p' Hk. destruct (Forall2_lookup_r _ _ _ _ _ Hts Hk) as (p & Hp & [-> | ->]);
      [by eapply inv_pcs0|]. specialize (inv_pcs0 _ _ Hp). by destruct p.
  - unfold zlength in *. by rewrite <- (Forall2_length _ _ _ Hts).
Qed.

Lemma raise_keeps w q :
  LockFreeQueue.with_epochs 0 0 (raise w q) = LockFreeQueue.with_epochs 0 0 q.
Proof. by destruct q, w. Qed.

Lemma inv_reshare r c free queued q' ws :
  inv_with r c free queued ->
  LockFreeQueue.with_epochs 0 0 q' = LockFreeQueue.with_epochs 0 0 (shared c) ->
  inv_with r (with_calls ws (with_shared q' c)) free queued.
Proof.
  intros [] Hq. destruct c as [[cap sl av pu oc pg cg qu de ce] ts mu acc tak ret dis ws0], q'.
  cbn in *. injection Hq as -> -> -> -> -> -> -> ->. split; try done.
  all: intros g; specialize (inv_gate0 g); by destruct g.
Qed.

Lemma stop_callback_inv j c c' : inv c -> stop_callback j c = Some c' -> inv c'.
Proof.
  intros (r & free & queued & Hi). unfold stop_callback.
  destruct (threads c !! j) as [p|]; [|done].
  destruct (surrounding j c) as [[] [w|] ex]; cbn; try done.
  - destruct (at_rest p); [done|]. intros [= <-]. exists r, free, queued.
    by eapply (inv_reshare r c); [|apply raise_keeps].
  - intros [= <-]. exists r, free, queued.
    assert (inv_with r (with_threads (notify_all w (threads c)) c) free queued) as Hi'.
    { apply inv_rethread; [done|]. unfold notify_all. apply Forall2_fmap_r, Forall_Forall2_diag.
      apply Forall_forall. intros x _. cbn. destruct (asleep_on w x); auto. }
    by apply (inv_reshare r _ _ _ (shared c) (alter (set_token StopDone) j (calls c))) in Hi'.
Qed.

Lemma lock_free_step_inv ch c c' : inv c -> step ch c = Some c' -> inv c'.
Proof.
  intros Hc. destruct ch as [j sp wk|j kind event|j waits|j d|j|j|j|j]; cbn [step].
  - destruct (threads c !! j) as [p|] eqn:Hj; [|done]. by eapply step_pc_inv.
  - apply begin_inv; try done. by intros [].
  - apply begin_inv; try done. by intros [].
  - apply begin_inv; try done. by intros [].
  - destruct (threads c !! j) as [p|] eqn:Hj; [|done]. destruct (_ || _) eqn:Hp; [|done].
    intros [= <-]. destruct Hc as (r & free & queued & Hi). destruct p; try done; by eapply inv_goto.
  - destruct Hc as (r & free & queued & Hi). destruct (stop_token _); try done. intros [= <-].
    exists r, free, queued. by eapply (inv_reshare r c _ _ (shared c) _ Hi).
  - by apply stop_callback_inv.
  - destruct Hc as (r & free & queued & Hi). intros [= <-]. exists r, free, queued.
    by eapply (inv_reshare r c _ _ (shared c) _ Hi).
Qed.

Lemma lock_free_start_inv cap (q : queue) n :
  0 <= cap <= 2 ^ 58 -> LockFreeQueue.make cap = inr q -> Z.of_nat n < few ->
  inv (start q n) /\ LockFreeQueue.capacity_ q = cap.
Proof.
  intros Hcap Hq Hn. destruct (LockFreeQueue.make_rep cap q Hcap Hq)
    as (r & free & pub & Hc & Hh & Hb & Ho & Hpg & Hqu & Hcg).
  cbn in *. destruct Hcg as [Hcg|(_ & ? & _)]; [|done]. split; [|congruence].
  destruct Hc. inversion core_live. subst pub. exists r, free, [].
  assert (∀ f : pc -> Z, f Idle = 0 -> sum_of f (replicate n Idle) = 0) as Hs.
  { intros f Hf. clear Hn. induction n as [|n IH]; [done|]. cbn [replicate]. sum_cons. lia. }
  assert (∀ A (f : pc -> list A), f Idle = [] -> concat (f <$> replicate n Idle) = []) as Hl.
  { intros A f Hf. clear Hn Hs. induction n as [|n IH]; [done|]. cbn. by rewrite Hf, IH. }
  split; try done; cbn.
  - unfold in_hands. cbn. rewrite Hl by done. unfold slot_table. cbn. rewrite app_nil_r.
    split_and!; [|done|].
    + rewrite <- list_fmap_compose. rewrite app_nil_r in core_indices.
      rewrite <- core_indices. by rewrite list_fmap_id.
    + intros i o (k & [= -> ->] & Hk)%list_elem_of_fmap. by apply core_free.
  - by rewrite Hs.
  - by rewrite Hl.
  - intros g. rewrite Hs by by destruct g. split; [done|left]. by destruct g.
  - congruence.
  - intros k p [-> _]%lookup_replicate. done.
  - unfold zlength. by rewrite length_replicate.
Qed.

Lemma start_uncrowded cap (q : queue) n :
  0 <= cap <= 2 ^ 58 -> LockFreeQueue.make cap = inr q -> Z.of_nat n < few -> Z.of_nat n <= cap ->
  crowded (start q n) = false.
Proof.
  intros Hcap Hq Hn Hle. destruct (lock_free_start_inv cap q n Hcap Hq Hn) as [_ Hc].
  unfold crowded, zlength. cbn. rewrite length_replicate, Hc. apply Z.ltb_ge. lia.
Qed.

(** ** What happens behind sealed gates *)

Definition frame (c c' : config) : Prop :=
  (∀ g, LockFreeQueue.gate_of g (shared c') = LockFreeQueue.gate_of g (shared c)) /\
  accepted c' = accepted c /\ taken c' = taken c.

Definition gentle {A} (m : M queue A) : Prop := ∀ q,
  match m q with
  | Ret _ q' | Throw _ q' => ∀ g, LockFreeQueue.gate_of g q' = LockFreeQueue.gate_of g q
  | Stuck _ => True
  end.

Lemma on_available_gentle {A} (m : M IndexRing.ring A) : gentle (LockFreeQueue.on_available m).
Proof. intros []. unfold LockFreeQueue.on_available. cbn. destruct (m _); cbn; done || by intros []. Qed.

Lemma on_published_gentle {A} (m : M IndexRing.ring A) : gentle (LockFreeQueue.on_published m).
Proof. intros []. unfold LockFreeQueue.on_published. cbn. destruct (m _); cbn; done || by intros []. Qed.

Lemma empty_slot_gentle i : gentle (empty_slot i).
Proof.
  intros []. unfold empty_slot, LockFreeQueue.take_at. run_m.
  destruct (_ !!z i) as [[]|]; by try intros [].
Qed.

Lemma signal_gentle m :
  m = LockFreeQueue.signal_data \/ m = LockFreeQueue.signal_capacity -> gentle m.
Proof. intros [-> | ->] []; by intros []. Qed.

Lemma call_frame {A} j c c0 (m : M queue A) k :
  frame c c0 -> gentle m -> (∀ a c1, frame c c1 -> frame c (k a c1)) -> frame c (call j c0 m k).
Proof.
  intros (Hg & Ha & Ht) Hm Hk. unfold call. specialize (Hm (shared c0)). destruct (m (shared c0)).
  - apply Hk. split_and!; [|done..]. intros g. by rewrite <- Hg, <- Hm.
  - split_and!; [|done..]. intros g. by rewrite <- Hg, <- Hm.
  - done.
Qed.

(** The steps that write a gate, [accepted] or [taken]. *)
Definition at_gate_or_log (p : pc) : bool :=
  match p with
  | GateCas _ _ | FullLeave _ _ | Publish _ _ | PushLeave _ | Take _ | PopLeave _ _ | CloseOr _
  | DiscardOr => true
  | _ => false
  end.

Lemma notify_frame w wk c c0 j p c' : frame c c0 -> notify j p w wk c0 = Some c' -> frame c c'.
Proof. unfold notify. destruct (notify_one w wk (threads c0)); [|done]. by intros ? [= <-]. Qed.

Lemma step_frame sp wk j p c c' :
  step_pc sp wk j p c = Some c' -> at_gate_or_log p = false -> frame c c'.
Proof.
  destruct p; try discriminate;
    cbn [step_pc guard_step push_step wait_push_step pop_step wait_pop_step close_step discard_step];
    unfold dequeue_published; intros Hs _; try (injection Hs as <-); try (destruct (misses sp c); [done|]); try done;
    try (by apply call_frame; [done|..]; first [apply on_available_gentle|apply on_published_gentle
      |apply empty_slot_gentle|apply signal_gentle; auto|intros ? ? H; exact H]);
    try (by apply (notify_frame _ _ c c) in Hs).
  - unfold LockFreeQueue.construct_at in Hs. destruct (shared c) eqn:Hq. cbn in Hs.
    destruct (_ !!z index) as [[]|]; try (by injection Hs as <-).
    destruct event; injection Hs as <-; split_and!; try done; by rewrite Hq; intros [].
  - case_match; [done|]. by injection Hs as <-.
  - case_match; [|done]. by injection Hs as <-.
  - by split_and!; [destruct c as [[]]; intros []|..].
  - by destruct k as [[]|]; eapply notify_frame in Hs.
  - case_match; [|done]. by injection Hs as <-.
  - apply call_frame; [done|apply on_published_gentle|].
    intros [i|] c1 H; [|exact H]. by destruct (slot_event _ _).
Qed.

(** *** Capacity and threads stay *)

Definition same_size (c c' : config) : Prop :=
  LockFreeQueue.capacity_ (shared c') = LockFreeQueue.capacity_ (shared c) /\
  length (threads c') = length (threads c).

Definition keeps_capacity {A} (m : M queue A) : Prop := ∀ q,
  match m q with
  | Ret _ q' | Throw _ q' => LockFreeQueue.capacity_ q' = LockFreeQueue.capacity_ q
  | Stuck _ => True
  end.

Lemma size_goto j p c c0 : same_size c c0 -> same_size c (goto j p c0).
Proof. intros [? ?]. split; [done|]. cbn. by rewrite length_insert. Qed.

Lemma size_shared q c c0 : LockFreeQueue.capacity_ q = LockFreeQueue.capacity_ (shared c0) ->
  same_size c c0 -> same_size c (with_shared q c0).
Proof. intros Hq [? ?]. split; [by rewrite <- H|done]. Qed.

Lemma size_call {A} j c c0 (m : M queue A) k :
  same_size c c0 -> keeps_capacity m -> (∀ a c1, same_size c c1 -> same_size c (k a c1)) ->
  same_size c (call j c0 m k).
Proof.
  intros Hs Hm Hk. unfold call. specialize (Hm (shared c0)). destruct (m (shared c0));
    [apply Hk|apply size_goto|by apply size_goto]; by apply size_shared.
Qed.

Lemma keeps_available {A} (m : M IndexRing.ring A) : keeps_capacity (LockFreeQueue.on_available m).
Proof. intros []. unfold LockFreeQueue.on_available. cbn. by destruct (m _). Qed.
Lemma keeps_published {A} (m : M IndexRing.ring A) : keeps_capacity (LockFreeQueue.on_published m).
Proof. intros []. unfold LockFreeQueue.on_published. cbn. by destruct (m _). Qed.
Lemma keeps_empty_slot i : keeps_capacity (empty_slot i).
Proof. intros []. unfold empty_slot, LockFreeQueue.take_at. run_m. by destruct (_ !!z i) as [[]|]. Qed.
Lemma keeps_free_index i : keeps_capacity (free_index i).
Proof. apply keeps_available. Qed.
Lemma keeps_signal_data : keeps_capacity (LockFreeQueue.signal_data (E:=E)).
Proof. by intros []. Qed.
Lemma keeps_signal_capacity : keeps_capacity (LockFreeQueue.signal_capacity (E:=E)).
Proof. by intros []. Qed.
#[local] Hint Resolve keeps_available keeps_published keeps_empty_slot keeps_free_index keeps_signal_data keeps_signal_capacity
  size_goto : core.

Lemma size_update j p f c :
  LockFreeQueue.capacity_ (f (shared c)) = LockFreeQueue.capacity_ (shared c) -> same_size c (update j p f c).
Proof. intros Hf. apply size_goto. by split. Qed.

Lemma size_dequeue sp j c none some :
  (∀ i e c1, same_size c c1 -> same_size c (some i e c1)) -> same_size c (dequeue_published sp j c none some).
Proof.
  intros Hs. unfold dequeue_published. destruct (misses sp c); [by apply size_goto|].
  apply size_call; [done|apply keeps_published|].
  - intros [i|] c1 Hc; [|by apply size_goto]. destruct (slot_event _ i); [by apply Hs|by apply size_goto].
Qed.

Lemma size_notify j p w wk c c0 c' : same_size c c0 -> notify j p w wk c0 = Some c' -> same_size c c'.
Proof.
  intros [Hc Ht]. unfold notify, notify_one. destruct wk as [k|].
  - destruct (threads c0 !! k) as [x|]; [|done]. destruct (asleep_on w x); [|done]. intros [= <-].
    split; [done|]. cbn. by rewrite !length_insert.
  - destruct (existsb _ _); [done|]. intros [= <-]. apply size_goto. by destruct c0.
Qed.

Lemma step_pc_size sp wk j p c c' : step_pc sp wk j p c = Some c' -> same_size c c'.
Proof.
  assert (same_size c c) as Hc by done. assert (∀ acc tak ret dis c1, same_size c c1 ->
    same_size c (with_logs acc tak ret dis c1)) as Hlogs by done.
  assert (∀ g w, LockFreeQueue.capacity_ (LockFreeQueue.with_gate g w (shared c)) = LockFreeQueue.capacity_ (shared c)) as Hg
    by (intros []; by destruct (shared c)).
  destruct p; try discriminate;
    cbn [step_pc guard_step push_step wait_push_step pop_step wait_pop_step close_step discard_step];
    intros Hs; try (injection Hs as <-); try (by eapply size_notify); try (by apply size_goto);
    try (by apply size_call; auto); try (by apply size_dequeue; auto); try (by apply size_update; destruct (shared c));
    try (by case_match; [|done]; injection Hs as <-; apply size_goto).
  - destruct (LockFreeQueue.guard_admits state) as [f|[state'|]]; [|destruct (negb sp && _)|];
      injection Hs as <-; auto. by apply size_update.
  - destruct (misses sp c); [by apply size_goto|]. apply size_call; auto.
  - unfold LockFreeQueue.construct_at in Hs. destruct (shared c) eqn:Hq. cbn in Hs.
    destruct (_ !!z index) as [[]|]; try (by injection Hs as <-; apply size_goto).
    destruct event; injection Hs as <-; apply size_goto; split; try done; cbn; by rewrite Hq.
  - destruct (close_mutex c); [done|]. injection Hs as <-. by apply size_goto.
  - by destruct k as [[]|n]; eapply size_notify in Hs.
Qed.

Lemma step_size ch c c' : step ch c = Some c' -> same_size c c'.
Proof.
  destruct ch as [j sp wk|j kind event|j waits|j d|j|j|j|j]; cbn [step]; unfold stop_callback;
    try (intros (p0 & _ & _ & _ & ->)%begin_begins; by apply size_goto).
  - destruct (threads c !! j); [|done]. apply step_pc_size.
  - destruct (threads c !! j); [|done]. destruct (_ || _); [|done]. intros [= <-]. by apply size_goto.
  - destruct (stop_token _); try done. by intros [= <-].
  - destruct (threads c !! j) as [p|]; [|done].
    destruct (surrounding j c) as [[] [w|] ex]; cbn; try done.
    + destruct (at_rest p); [done|]. intros [= <-]. split; [by destruct c as [[]], w|done].
    + intros [= <-]. split; [done|]. apply length_fmap.
  - by intros [= <-].
Qed.

Lemma step_crowded ch c c' : step ch c = Some c' -> crowded c' = crowded c.
Proof. intros [? ?]%step_size. by apply crowded_same. Qed.

Lemma reachable_size c c' : reachable c c' -> same_size c c'.
Proof.
  intros Hr. eapply (rtc_invariant one_step (same_size c)); [|done|exact Hr].
  intros a b [H1 H2] [ch Hs]. destruct (step_size ch a b Hs). split; congruence.
Qed.

(** Behind a sealed gate the events accepted, or dequeued by pops, are settled. *)
Definition settled (g : LockFreeQueue.gate) (c c' : config) : Prop :=
  sealed g (shared c') /\
  match g with
  | LockFreeQueue.producer_gate => accepted c' = accepted c
  | LockFreeQueue.consumer_gate => taken c' = taken c
  end.

Lemma frame_settled g c c' : sealed g (shared c) -> frame c c' -> settled g c c'.
Proof. intros Hs (Hg & ? & ?). split; [unfold sealed; by rewrite Hg|by destruct g]. Qed.

Lemma gate_step_settled g g' w j p c :
  sealed g (shared c) -> (g' = g -> w = LockFreeQueue.closed_bit) ->
  settled g c (update j p (LockFreeQueue.with_gate g' w) c).
Proof.
  unfold settled, sealed. intros Hs Hw. destruct c as [[]]. destruct g, g'; cbn in *; auto.
Qed.

Lemma log_step_settled g sp wk j p c c' :
  inv c -> threads c !! j = Some p -> step_pc sp wk j p c = Some c' -> at_gate_or_log p = true ->
  sealed g (shared c) -> settled g c c'.
Proof.
  intros (r & free & queued & Hi) Hj Hst Hp Hse.
  assert (inside g p ≠ 1) as Hin by by intros H1; destruct (inside_unsealed _ _ _ _ _ _ _ Hi Hj H1).
  destruct p; try discriminate Hp;
    cbn [step_pc guard_step push_step pop_step close_step discard_step] in Hst.
  - destruct (LockFreeQueue.guard_admits state) as [f|[state'|]] eqn:Ha;
      [injection Hst as <-; by apply frame_settled| |injection Hst as <-; by apply frame_settled].
    destruct (negb sp && _) eqn:Hc; injection Hst as <-; [|by apply frame_settled].
    apply andb_true_iff in Hc as [_ Hc%Z.eqb_eq]. apply gate_step_settled; [done|].
    intros <-. unfold sealed in Hse. rewrite Hse in Hc. subst state. discriminate.
  - injection Hst as <-. apply gate_step_settled; [done|]. intros <-. by destruct Hin.
  - injection Hst as <-. destruct g; [by destruct Hin|]. unfold call, LockFreeQueue.on_published.
    unfold settled, sealed in *. destruct c as [[]]. cbn in *. by destruct (IndexRing.enqueue _ _ _).
  - injection Hst as <-. apply gate_step_settled; [done|]. intros <-. by destruct Hin.
  - injection Hst as <-. destruct g; [|by destruct Hin].
    destruct (dequeue_published_eq sp _ _ _ _ Hi) as (pu & _ & ->).
    destruct (misses sp c); [by apply frame_settled|].
    unfold settled, sealed in *. destruct c as [[]]. by destruct queued as [|[]].
  - injection Hst as <-. apply gate_step_settled; [done|]. intros <-. by destruct Hin.
  - injection Hst as <-. apply gate_step_settled; [done|]. unfold sealed in Hse. intros <-.
    cbn in Hse. by rewrite Hse.
  - injection Hst as <-. apply gate_step_settled; [done|]. unfold sealed in Hse. intros <-.
    cbn in Hse. by rewrite Hse.
Qed.

(** A choice is a step of one thread, or leaves gates and logs alone. *)
Lemma step_shared ch c c' :
  step ch c = Some c' ->
  frame c c' \/ ∃ j sp wk p, threads c !! j = Some p /\ step_pc sp wk j p c = Some c'.
Proof.
  destruct ch as [j sp wk|j kind event|j waits|j d|j|j|j|j]; cbn [step]; unfold stop_callback;
    try (intros (p0 & _ & _ & _ & ->)%begin_begins; by left).
  - destruct (threads c !! j) as [p|] eqn:Hj; [|done]. right. by exists j, sp, wk, p.
  - destruct (threads c !! j); [|done]. destruct (_ || _); [|done]. intros [= <-]. by left.
  - destruct (stop_token _); try done. intros [= <-]. by left.
  - destruct (threads c !! j) as [p|]; [|done].
    destruct (surrounding j c) as [[] [w|] ex]; cbn; try done.
    + destruct (at_rest p); [done|]. intros [= <-]. left. split_and!; [|done..].
      by destruct c as [[]], w; intros [].
    + intros [= <-]. by left.
  - intros [= <-]. by left.
Qed.

Lemma step_settled g ch c c' :
  inv c -> step ch c = Some c' -> sealed g (shared c) -> settled g c c'.
Proof.
  intros Hc Hst Hse.
  destruct (step_shared _ _ _ Hst) as [Hf|(j & sp & wk & p & Hj & Hp)]; [by apply frame_settled|].
  destruct (at_gate_or_log p) eqn:Hl; [by eapply log_step_settled|].
  by eapply frame_settled, step_frame.
Qed.

Lemma lock_free_reachable_inv c c' : inv c -> reachable c c' -> inv c'.
Proof. apply rtc_invariant. intros a b Ha [ch Hs]. by eapply lock_free_step_inv. Qed.

Lemma reachable_settled g c c' :
  inv c -> reachable c c' -> sealed g (shared c) -> settled g c c'.
Proof.
  intros Hc Hr Hs. assert (inv c' /\ settled g c c'); [|tauto].
  eapply (rtc_invariant one_step (λ x, inv x /\ settled g c x)); [| |done].
  - intros a b [Ha [Hsa Hla]] [ch Hst]. split; [by eapply lock_free_step_inv|].
    destruct (step_settled g ch a b Ha Hst Hsa) as [Hsb Hlb].
    split; [done|]. destruct g; congruence.
  - split; [done|]. split; [done|]. by destruct g.
Qed.

(** ** What every schedule guarantees *)

Lemma counted_owned p : counted p <= zlength (owned p).
Proof. by destruct p. Qed.

Lemma in_hands_length ts : zlength (concat (owned <$> ts)) = sum_of (λ p, zlength (owned p)) ts.
Proof. induction ts as [|p ts IH]; [done|]. cbn. rewrite zlength_app, IH. by sum_cons. Qed.

Lemma occupied_range r c free queued :
  inv_with r c free queued ->
  zlength queued <= LockFreeQueue.occupied_count_ (shared c) <= LockFreeQueue.capacity_ (shared c).
Proof.
  intros []. destruct inv_table0 as (Hp & _). apply Permutation_length in Hp.
  pose proof (RingAbs.size_bound r ltac:(lia)). pose proof (RingAbs.size_half r ltac:(lia)).
  assert (zlength (slot_table free queued (in_hands c)) = half r) as Hl.
  { rewrite <- (zlength_fmap fst). unfold zlength. rewrite Hp, length_seqZ. lia. }
  rewrite slot_table_length in Hl. unfold in_hands in Hl. rewrite in_hands_length in Hl.
  pose proof (sum_of_le counted (λ p, zlength (owned p)) (threads c) ltac:(intros; apply counted_owned)).
  pose proof (sum_of_nonneg counted (threads c) ltac:(by intros [])).
  pose proof (zlength_nonneg free). pose proof (zlength_nonneg queued).
  rewrite inv_count0, inv_capacity0, u64_small; lia.
Qed.

(** Behind a sealed consumer gate no pop holds an event. *)
Lemma nothing_carried r c free queued :
  inv_with r c free queued -> sealed LockFreeQueue.consumer_gate (shared c) ->
  concat (carried <$> threads c) = [].
Proof.
  intros Hi Hs. assert (∀ p, p ∈ threads c -> carried p = []) as Hall.
  { intros p [j Hj]%list_elem_of_lookup. destruct p; try done.
    by destruct (inside_unsealed _ _ _ _ LockFreeQueue.consumer_gate _ _ Hi Hj). }
  clear Hi Hs. induction (threads c) as [|p ts IH]; [done|]. cbn.
  rewrite (Hall p), IH by (try intros; try apply Hall; by constructor). done.
Qed.

Section started.
Context (cap : Z) (q : queue) (n : nat) (c : config).
Context (Hcap : 0 <= cap <= 2 ^ 58) (Hmake : LockFreeQueue.make cap = inr q).
Context (Hn : Z.of_nat n < few) (Hreach : reachable (start q n) c).

Lemma started_inv : inv c.
Proof. apply (lock_free_reachable_inv (start q n)); [|done]. by apply (lock_free_start_inv cap). Qed.

Lemma started_uncrowded : Z.of_nat n <= cap -> crowded c = false.
Proof.
  intros Hle. destruct (reachable_size _ _ Hreach) as [H1 H2]. rewrite (crowded_same _ _ H1 H2).
  by apply (start_uncrowded cap).
Qed.

(** C20: however pushes, pops and closing calls interleave, every slot is
    used as its state allows: none is overwritten while it holds an event,
    none is read, freed or destroyed while it holds none, and the gates never
    overflow. *)
Theorem slots_are_never_misused ch c' j f :
  step ch c = Some c' -> threads c' !! j ≠ Some (Crashed f).
Proof.
  intros Hs Hj. destruct (lock_free_step_inv ch c c' started_inv Hs) as (r & free & queued & Hi).
  by pose proof (inv_pcs _ _ _ _ Hi _ _ Hj).
Qed.

(** C19: events leave in the order they were published: pops dequeue a
    prefix, discarding takes what follows and the rest is queued; each event
    dequeued by a pop is returned once or still on its way out of its slot,
    and [size] stays between the queued events and the capacity. *)
Theorem events_leave_in_order :
  ∃ queued, accepted c = taken c ++ discarded c ++ queued /\
    taken c ≡ₚ returned c ++ concat (carried <$> threads c) /\
    zlength queued <= LockFreeQueue.occupied_count_ (shared c) <= LockFreeQueue.capacity_ (shared c).
Proof.
  destruct started_inv as (r & free & queued & Hi). exists queued.*2. split_and!; try apply Hi.
  - rewrite zlength_fmap. by apply (occupied_range r c free queued).
  - by apply (occupied_range r c free queued).
Qed.

(** Once [close] has returned no push succeeds any more, whatever
    pushes were under way. *)
Theorem close_settles_pushes j c' :
  threads c !! j = Some (Finished Closed) -> reachable c c' ->
  accepted c' = accepted c /\ sealed LockFreeQueue.producer_gate (shared c').
Proof.
  intros Hj Hr. pose proof started_inv as Hc. pose proof Hc as (r & free & queued & Hi).
  destruct (reachable_settled LockFreeQueue.producer_gate c c' Hc Hr); [|done].
  apply (inv_pcs _ _ _ _ Hi _ _ Hj).
Qed.

(** C21: when [close_and_discard] has returned, every event ever accepted was
    returned by a pop, discarded or left in the queue, once; nothing is left if
    the threads are no more than the slots; and from then on nothing is accepted
    or dequeued. *)
Theorem discard_settles_everything j k c' :
  threads c !! j = Some (Finished (Discarded k)) -> reachable c c' ->
  ∃ left, accepted c ≡ₚ returned c ++ discarded c ++ left /\ (Z.of_nat n <= cap -> left = []) /\
    accepted c' = accepted c /\ taken c' = taken c.
Proof.
  intros Hj Hr. pose proof started_inv as Hc. pose proof Hc as (r & free & queued & Hi).
  destruct (inv_pcs _ _ _ _ Hi _ _ Hj) as [Hs Hq]. exists queued.*2. split_and!.
  - rewrite (inv_log _ _ _ _ Hi), (inv_taken _ _ _ _ Hi), (nothing_carried _ _ _ _ Hi (Hs _)).
    cbn. by rewrite !app_nil_r.
  - intros Hle. destruct Hq as [Hq| ->]; [|done]. by rewrite started_uncrowded in Hq.
  - apply (reachable_settled LockFreeQueue.producer_gate c c' Hc Hr (Hs _)).
  - apply (reachable_settled LockFreeQueue.consumer_gate c c' Hc Hr (Hs _)).
Qed.

End started.

End threads.
Arguments outcome : clear implicits.
Arguments operation : clear implicits.
Arguments pc : clear implicits.
Arguments config : clear implicits.
Arguments choice : clear implicits.

Lemma lock_free_run_reachable {E} (sched : list (choice E)) c : reachable c (run sched c).
Proof.
  revert c. induction sched as [|ch sched IH]; intros c; [apply rtc_refl|]. cbn.
  destruct (step ch c) as [c'|] eqn:Hs; [|apply IH]. eapply rtc_l; [by exists ch|apply IH].
Qed.

(** ** Schedules on a queue of two slots *)

(** Run thread [j] for [n] steps; no sleeper is woken. *)
Definition go (j n : nat) : list (choice Z) := replicate n (Go j false None).

Definition two_start (n : nat) : config Z := start LockFreeQueue.two_free n.

(** A pop finds nothing; then an event is pushed and the queue is closed. *)
Definition late_close : list (choice Z) :=
  StartPop 0 false :: go 0 3 ++ StartPush 1 KindTry (inr 7) :: go 1 8 ++ StartClose 2 false :: go 2 8 ++ go 0 2.

(** Two consumers sleep when the queue is closed. *)
Definition sleeping_close : list (choice Z) :=
  StartPop 0 true :: go 0 14 ++ StartPop 1 true :: go 1 14 ++
  StartClose 2 false :: go 2 5 ++ [Go 2 false (Some 0%nat)] ++ go 2 2 ++ go 0 12.

Lemma two_make : LockFreeQueue.make (E:=Z) 2 = inr LockFreeQueue.two_free.
Proof. done. Qed.

Lemma two_capacity : 0 <= 2 <= 2 ^ 58.
Proof. lia. Qed.

Lemma three_few : Z.of_nat 3 < few.
Proof. done. Qed.

(** A pop that found nothing reads whether producers are done only
    afterwards: an event pushed and a [close] completed in between make it
    report [closed], although the event is queued and a later pop returns it. *)
Theorem closed_reported_before_drained :
  let c := run late_close (two_start 3) in
  reachable (two_start 3) c /\
  threads c = [Finished (Popped make_closed); Finished (Pushed success); Finished Closed] /\
  accepted c = [7] /\ taken c = [] /\ discarded c = [] /\
  threads (run (StartPop 1 false :: go 1 9) c) !! 1%nat = Some (Finished (Popped (make_success 7))).
Proof. split; [exact (lock_free_run_reachable late_close (two_start 3))|]. vm_compute. by split_and!. Qed.

(** [close] wakes one sleeper: of two consumers waiting on an empty
    queue one reports [closed] and the other sleeps on, with every other call
    finished and the epoch it waits on already past. *)
Theorem close_leaves_a_sleeper :
  let c := run sleeping_close (two_start 3) in
  reachable (two_start 3) c /\
  threads c = [Finished (Popped make_closed); AsleepPop 0; Finished Closed] /\
  LockFreeQueue.data_epoch_ (shared c) ≠ 0 /\
  ∀ sp wk, step (Go 1 sp wk) c = None.
Proof.
  split; [exact (lock_free_run_reachable sleeping_close (two_start 3))|].
  split; [by vm_compute|]. split; [by vm_compute|]. intros sp wk. by vm_compute.
Qed.

(** Two events pushed, one popped, the other discarded. *)
Definition push_pop_discard : list (choice Z) :=
  StartPush 0 KindTry (inr 7) :: go 0 8 ++ StartPush 0 KindTry (inr 8) :: go 0 8 ++ StartPop 1 false :: go 1 8 ++
  StartClose 0 true :: go 0 19.

Definition discarded_all : config Z := run push_pop_discard (two_start 2).

Lemma discarded_all_reachable : reachable (two_start 2) discarded_all.
Proof. exact (lock_free_run_reachable push_pop_discard (two_start 2)). Qed.

Lemma two_few : Z.of_nat 2 < few.
Proof. done. Qed.

Lemma slots_are_never_misused_witness :
  threads (run [StartPop 1 false] (two_start 3)) !! 1%nat
    ≠ Some (Crashed undefined_behaviour).
Proof.
  exact (slots_are_never_misused 2 _ 3 (two_start 3) two_capacity two_make three_few (rtc_refl _ _)
    (StartPop 1 false) _ 1%nat undefined_behaviour ltac:(vm_compute; reflexivity)).
Defined.

Lemma events_leave_in_order_witness :
  accepted discarded_all = [7; 8] /\
  ∃ queued, accepted discarded_all = taken discarded_all ++ discarded discarded_all ++ queued.
Proof.
  split; [vm_compute; reflexivity|].
  destruct (events_leave_in_order 2 _ 2 _ two_capacity two_make two_few discarded_all_reachable)
    as (queued & H & _).
  exists queued. exact H.
Defined.

Lemma discard_settles_everything_witness :
  discarded discarded_all = [8] /\
  ∃ left, accepted discarded_all ≡ₚ returned discarded_all ++ discarded discarded_all ++ left /\
    (Z.of_nat 2 <= 2 -> left = []).
Proof.
  split; [vm_compute; reflexivity|].
  destruct (discard_settles_everything 2 _ 2 _ two_capacity two_make two_few
    discarded_all_reachable 0%nat 1 discarded_all ltac:(vm_compute; reflexivity) (rtc_refl _ _)) as (left & H1 & H2 & _).
  exists left. split; [exact H1|exact H2].
Defined.

Definition closed_once : config Z := run (StartClose 2 false :: go 2 8) (two_start 3).

Lemma close_settles_pushes_witness :
  accepted (run (StartPush 0 KindTry (inr 7) :: go 0 8) closed_once) = [].
Proof.
  exact (proj1 (close_settles_pushes 2 _ 3 closed_once two_capacity two_make three_few
    (lock_free_run_reachable (StartClose 2 false :: go 2 8) (two_start 3)) 2%nat _
    ltac:(vm_compute; reflexivity)
    (lock_free_run_reachable (StartPush 0 KindTry (inr 7) :: go 0 8) closed_once))).
Defined.

End LockFreeConc.
