(* ===== verification/LockFreeWait.v ===== *)
(** * Waiting on the lock-free queue

    Waiting pushes and pops of [LockFreeConc] sleep on an epoch that every
    change of the queue raises before it wakes one sleeper. This file shows
    that, with no more threads than slots and until the queue is closed, the
    wake-ups suffice: each event queued
    (each slot free) is matched by a signal still to come or by a waiting
    call that is awake and will look again. Epochs are counted without
    wrapping: a run takes fewer than [2^64] steps. *)

From S2P Require Import Prelude Types QueueSpec IndexRing RingWords RingAbs RingSolo LockFreeQueue LockFreeConc.
Import PopResult LockFreeConc.
Local Open Scope Z_scope.

Module LockFreeWait.

#[local] Instance epoch_word_eq_dec : EqDecision epoch_word.
Proof. solve_decision. Defined.

Section waiting.
Context {E : Type}.
Implicit Types (c : config E) (p : pc E).

(** ** What sleepers wait for *)

(** Events queued, by the logs, and slots that are free. *)
Definition queued_count c : Z := zlength (accepted c) - zlength (taken c) - zlength (discarded c).
Definition slots_held p : Z := zlength (owned p).
Definition stock (w : epoch_word) c : Z :=
  match w with
  | data_epoch => queued_count c
  | capacity_epoch =>
      LockFreeQueue.capacity_ (shared c) - queued_count c - sum_of slots_held (threads c)
  end.

Definition epoch (w : epoch_word) c : Z :=
  match w with
  | data_epoch => LockFreeQueue.data_epoch_ (shared c)
  | capacity_epoch => LockFreeQueue.capacity_epoch_ (shared c)
  end.

(** Threads that have changed the stock and still have to raise the epoch,
    or have raised it and still have to wake a sleeper. *)
Definition raising (w : epoch_word) p : Z :=
  match w, p with
  | data_epoch, PushRaise | capacity_epoch, (GiveBackRaise _ | FreeRaise _ _) => 1
  | _, _ => 0
  end.
Definition waking (w : epoch_word) p : Z :=
  match w, p with
  | data_epoch, PushWake | capacity_epoch, (GiveBackWake _ | FreeWake _ _) => 1
  | _, _ => 0
  end.

(** Polling calls look again too, but no wake-up counts on them. *)
Definition waits (md : mode) : Z := match md with Once | Polled _ => 0 | First | Again _ => 1 end.

Definition current (md : mode) (cur : Z) : bool :=
  match md with Again e => e =? cur | _ => false end.

Definition found_nothing (r : pop_result E) : bool :=
  match status r with empty => true | _ => false end.

(** Waiting calls about to look at the stock. A call that has just found
    nothing is none of them: it leaves if it has been stopped. *)
Definition checks (w : epoch_word) (cur : Z) p : Z :=
  match w, p with
  | data_epoch, (GateLoad (OpPop md) | GateCas (OpPop md) _ | Take md) => waits md
  | data_epoch, WaitData e => if e =? cur then 0 else 1
  | capacity_epoch, (GateLoad (OpPush md _) | GateCas (OpPush md _) _ | Reserve md _) => waits md
  | capacity_epoch, WaitCapacity _ e => if e =? cur then 0 else 1
  | _, _ => 0
  end.

(** Calls that found nothing since the epoch became what it is. *)
Definition blind (w : epoch_word) (cur : Z) p : bool :=
  match w, p with
  | data_epoch, Quiesced md => current md cur
  | data_epoch, PopLeave md r => found_nothing r && current md cur
  | data_epoch, StopPop md => current md cur
  | data_epoch, (WaitData e | AsleepPop e) => e =? cur
  | capacity_epoch, (FullLeave md _ | StopPush md _) => current md cur
  | capacity_epoch, (WaitCapacity _ e | AsleepPush _ e) => e =? cur
  | _, _ => false
  end.

Definition mode_epoch (md : mode) : option Z := match md with Again e => Some e | _ => None end.

Definition remembered (w : epoch_word) p : option Z :=
  match w, p with
  | data_epoch, (GateLoad (OpPop md) | GateCas (OpPop md) _ | Take md | Quiesced md
      | MoveOut md _ _ | Free md _ _ | FreeRaise md _ | FreeWake md _ | PopLeave md _ | StopPop md) => mode_epoch md
  | data_epoch, (WaitData e | AsleepPop e) => Some e
  | capacity_epoch, (GateLoad (OpPush md _) | GateCas (OpPush md _) _ | Reserve md _
      | FullLeave md _ | StopPush md _) => mode_epoch md
  | capacity_epoch, (WaitCapacity _ e | AsleepPush _ e) => Some e
  | _, _ => None
  end.

Definition token (w : epoch_word) (cur : Z) p : Z := raising w p + waking w p + checks w cur p.

Record ready (w : epoch_word) c : Prop := mk_ready {
  ready_epochs : ∀ j p e, threads c !! j = Some p -> remembered w p = Some e -> e <= epoch w c;
  ready_blind : ∀ j p, threads c !! j = Some p -> blind w (epoch w c) p = true ->
    stock w c <= sum_of (raising w) (threads c);
  ready_asleep : ∀ j p, threads c !! j = Some p -> asleep_on w p = true ->
    stock w c <= sum_of (token w (epoch w c)) (threads c);
}.

Lemma raising_nonneg w p : 0 <= raising w p.
Proof. by destruct w, p. Qed.

Lemma token_raising w cur p : raising w p <= token w cur p.
Proof.
  unfold token. assert (0 <= waking w p) by by destruct w, p.
  assert (0 <= checks w cur p); [|lia].
  assert (∀ md, 0 <= waits md) as H1 by by intros [].
  destruct w, p; cbn; repeat case_match; auto; lia.
Qed.

Lemma token_nonneg w cur p : 0 <= token w cur p.
Proof. pose proof (token_raising w cur p). pose proof (raising_nonneg w p). lia. Qed.

(** ** Steps of one thread that leave the epochs alone *)

(** Thread [j] goes from [p] to [p'] and [d] events join the queue, while the
    epoch of [w] stays. *)
Record moves (w : epoch_word) (j : nat) p p' (d : Z) c c' : Prop := mk_moves {
  moves_threads : threads c' = <[j:=p']> (threads c);
  moves_capacity : LockFreeQueue.capacity_ (shared c') = LockFreeQueue.capacity_ (shared c);
  moves_epoch : epoch w c' = epoch w c;
  moves_queued : queued_count c' = queued_count c + d;
}.

Definition gain (w : epoch_word) p p' (d : Z) : Z :=
  match w with data_epoch => d | capacity_epoch => slots_held p - slots_held p' - d end.

Lemma stock_moves w j p p' d c c' :
  moves w j p p' d c c' -> threads c !! j = Some p -> stock w c' = stock w c + gain w p p' d.
Proof.
  intros [Ht Hc _ Hd] Hj. destruct w; cbn; [done|].
  rewrite Ht, Hc, Hd, (sum_of_insert _ _ _ _ _ Hj). lia.
Qed.

(** Going from [p] to [p'] leaves [w] with no more to look at than with
    threads to look. *)
Definition shift_ok (w : epoch_word) (cur : Z) p p' (d : Z) : Prop :=
  gain w p p' d <= raising w p' - raising w p /\
  gain w p p' d <= token w cur p' - token w cur p /\
  (blind w cur p' = true -> blind w cur p = true) /\
  (asleep_on w p' = true -> asleep_on w p = true \/ blind w cur p = true).

Definition recalls (w : epoch_word) (cur : Z) p p' : Prop :=
  remembered w p' = remembered w p \/ remembered w p' = None \/ remembered w p' = Some cur.

Lemma ready_moves w j p p' d c c' :
  ready w c -> threads c !! j = Some p -> moves w j p p' d c c' ->
  recalls w (epoch w c) p p' -> stock w c' <= 0 \/ shift_ok w (epoch w c) p p' d ->
  ready w c'.
Proof.
  intros [He Hb Ha] Hj Hm Hr Hs. pose proof (stock_moves w _ _ _ _ _ _ Hm Hj) as Hst.
  pose proof (moves_epoch _ _ _ _ _ _ _ Hm) as Hep. pose proof (moves_threads _ _ _ _ _ _ _ Hm) as Ht.
  assert (sum_of (raising w) (threads c) <= sum_of (token w (epoch w c)) (threads c)) as Hrt.
  { apply sum_of_le. intros. apply token_raising. }
  pose proof (sum_of_nonneg (raising w) (threads c') (raising_nonneg w)) as H0.
  pose proof (sum_of_nonneg (token w (epoch w c)) (threads c') (token_nonneg w _)) as H1.
  pose proof (sum_of_insert (raising w) _ _ _ p' Hj) as Hsr.
  pose proof (sum_of_insert (token w (epoch w c)) _ _ _ p' Hj) as Hsa.
  rewrite <- Ht in Hsr, Hsa. split; rewrite ?Hep.
  - intros i x e Hx Hxe. rewrite Ht in Hx.
    apply list_lookup_insert_Some in Hx as [(<- & -> & _)|[_ Hx]]; [|by eapply He].
    destruct Hr as [Hr|[Hr|Hr]]; rewrite Hr in Hxe; [by eapply He|done|by simplify_eq].
  - intros i x Hx Hxb. destruct Hs as [|(Hg & _ & Hbb & _)]; [lia|].
    assert (stock w c <= sum_of (raising w) (threads c)); [|lia]. rewrite Ht in Hx.
    apply list_lookup_insert_Some in Hx as [(<- & -> & _)|[_ Hx]]; eapply Hb; eauto.
  - intros i x Hx Hxa. destruct Hs as [|(_ & Hg & _ & Haa)]; [lia|].
    assert (stock w c <= sum_of (token w (epoch w c)) (threads c)); [|lia]. rewrite Ht in Hx.
    apply list_lookup_insert_Some in Hx as [(<- & -> & _)|[_ Hx]]; [|by eapply Ha].
    destruct (Haa Hxa) as [Hp|Hp]; [by eapply Ha|]. specialize (Hb _ _ Hj Hp). lia.
Qed.

(** ** Raising an epoch and waking a sleeper *)

Lemma blind_remembers w cur p : blind w cur p = true -> remembered w p = Some cur.
Proof.
  assert (∀ md, current md cur = true -> mode_epoch md = Some cur) as Hm
    by (intros []; cbn; try done; by intros ->%Z.eqb_eq).
  destruct w, p; cbn; try done; auto; try (by intros ->%Z.eqb_eq).
  intros [_ ?]%andb_true_iff. auto.
Qed.

Lemma token_mono w cur p :
  (∀ e, remembered w p = Some e -> e <= cur) -> token w cur p <= token w (cur + 1) p.
Proof.
  intros He. unfold token. assert (checks w cur p <= checks w (cur + 1) p); [|lia].
  destruct w, p; cbn [checks]; try lia; try (case_match; lia); specialize (He _ eq_refl); destruct_ltb; lia.
Qed.

Lemma ready_raise w j p p' c c' :
  ready w c -> threads c !! j = Some p -> threads c' = <[j:=p']> (threads c) ->
  epoch w c' = epoch w c + 1 -> stock w c' = stock w c ->
  remembered w p' = remembered w p \/ remembered w p' = None ->
  (∀ cur, token w cur p = 1 /\ token w cur p' = 1) ->
  (∀ cur, blind w cur p' = false) -> asleep_on w p' = false -> ready w c'.
Proof.
  intros [He Hb Ha] Hj Ht Hep Hst Hr Htok Hbl Has.
  assert (∀ i x e, threads c' !! i = Some x -> remembered w x = Some e -> e <= epoch w c) as He'.
  { intros i x e Hx Hxe. rewrite Ht in Hx.
    apply list_lookup_insert_Some in Hx as [(<- & -> & _)|[_ Hx]]; [|by eapply He].
    destruct Hr as [Hr|Hr]; rewrite Hr in Hxe; [by eapply He|done]. }
  split; rewrite ?Hep, ?Hst.
  - intros i x e Hx Hxe. specialize (He' _ _ _ Hx Hxe). lia.
  - intros i x Hx Hxb%blind_remembers. specialize (He' _ _ _ Hx Hxb). lia.
  - intros i x Hx Hxa. assert (stock w c <= sum_of (token w (epoch w c)) (threads c)) as Hold.
    { rewrite Ht in Hx. apply list_lookup_insert_Some in Hx as [(<- & -> & _)|[_ Hx]]; [congruence|].
      by eapply Ha. }
    assert (sum_of (token w (epoch w c)) (threads c') <= sum_of (token w (epoch w c + 1)) (threads c')) as Hle.
    { apply sum_of_le. intros y [k Hk]%list_elem_of_lookup. apply token_mono.
      intros e. by apply He' with k. }
    pose proof (sum_of_insert (token w (epoch w c)) _ _ _ p' Hj) as Hs. rewrite <- Ht in Hs.
    destruct (Htok (epoch w c)). lia.
Qed.

Lemma weights_wake w cur x :
  asleep_on w x = true ->
  remembered w (wake x) = remembered w x /\ raising w (wake x) = raising w x /\
  blind w cur (wake x) = blind w cur x /\ token w cur x = 0 /\
  (blind w cur x = true \/ token w cur (wake x) = 1).
Proof. destruct w, x; try done; intros _; split_and!; try done; unfold token; cbn; destruct (_ =? _); auto. Qed.

(** What the thread that wakes a sleeper was, and is afterwards. *)
Definition wakes_at (w : epoch_word) (cur : Z) p p' : Prop :=
  raising w p = 0 /\ token w cur p = 1 /\ raising w p' = 0 /\
  (remembered w p' = remembered w p \/ remembered w p' = None) /\
  blind w cur p' = false /\ asleep_on w p' = false.

Lemma remembers_wakes w cur (ts : list (pc E)) j p p' :
  wakes_at w cur p p' -> ts !! j = Some p ->
  (∀ i y e, ts !! i = Some y -> remembered w y = Some e -> e <= cur) ->
  ∀ i y e, <[j:=p']> ts !! i = Some y -> remembered w y = Some e -> e <= cur.
Proof.
  intros (_ & _ & _ & Hr & _) Hj He i y e Hy Hye.
  apply list_lookup_insert_Some in Hy as [(<- & -> & _)|[_ Hy]]; [|by eapply He].
  destruct Hr as [Hr|Hr]; rewrite Hr in Hye; [by apply (He j p)|done].
Qed.

(** The woken sleeper takes the place of the waking thread, or had found
    nothing since the epoch was raised. *)
Lemma ready_wake_one w j p p' k x c c' :
  ready w c -> threads c !! k = Some x -> asleep_on w x = true ->
  <[k:=wake x]> (threads c) !! j = Some p ->
  threads c' = <[j:=p']> (<[k:=wake x]> (threads c)) ->
  epoch w c' = epoch w c -> stock w c' = stock w c -> wakes_at w (epoch w c) p p' -> ready w c'.
Proof.
  intros [He Hb Ha] Hk Hx Hj Ht Hep Hst Hw.
  destruct (weights_wake w (epoch w c) x Hx) as (Hrx & Hrwx & Hbx & Htx & Hcase).
  pose proof (token_nonneg w (epoch w c) p').
  pose proof (sum_of_insert (raising w) _ _ _ (wake x) Hk) as R1.
  pose proof (sum_of_insert (raising w) _ _ _ p' Hj) as R2.
  pose proof (sum_of_insert (token w (epoch w c)) _ _ _ (wake x) Hk) as T1.
  pose proof (sum_of_insert (token w (epoch w c)) _ _ _ p' Hj) as T2.
  pose proof (token_nonneg w (epoch w c) (wake x)).
  pose proof (remembers_wakes w (epoch w c) _ j p p' Hw Hj) as Hm.
  destruct Hw as (Hrp & Htp & Hrp' & _ & Hbl & _). rewrite <- Ht in R2, T2, Hm.
  assert (sum_of (raising w) (threads c') <= sum_of (token w (epoch w c)) (threads c')) as Hrt
    by (apply sum_of_le; intros; apply token_raising).
  split; rewrite ?Hep, ?Hst.
  - apply Hm. intros i y e Hy Hye.
    apply list_lookup_insert_Some in Hy as [(<- & <- & _)|[_ Hy]]; [|by eapply He].
    rewrite Hrx in Hye. by apply (He k x).
  - intros i y Hy Hyb. assert (stock w c <= sum_of (raising w) (threads c)); [|lia].
    rewrite Ht in Hy. apply list_lookup_insert_Some in Hy as [(<- & -> & _)|[_ Hy]]; [congruence|].
    apply list_lookup_insert_Some in Hy as [(<- & <- & _)|[_ Hy]]; [|by eapply Hb].
    rewrite Hbx in Hyb. by apply (Hb k x).
  - intros i y _ _. pose proof (Ha _ _ Hk Hx). destruct Hcase as [Hc|Hc]; [|lia].
    specialize (Hb _ _ Hk Hc). lia.
Qed.

Lemma ready_wake_none w j p p' c c' :
  ready w c -> existsb (asleep_on w) (threads c) = false -> threads c !! j = Some p ->
  threads c' = <[j:=p']> (threads c) ->
  epoch w c' = epoch w c -> stock w c' = stock w c -> wakes_at w (epoch w c) p p' -> ready w c'.
Proof.
  intros [He Hb _] Hex Hj Ht Hep Hst Hw.
  pose proof (sum_of_insert (raising w) _ _ _ p' Hj) as R2.
  pose proof (remembers_wakes w (epoch w c) _ j p p' Hw Hj He) as Hm.
  destruct Hw as (Hrp & _ & Hrp' & _ & Hbl & Has). rewrite <- Ht in R2, Hm.
  split; rewrite ?Hep, ?Hst.
  - apply Hm.
  - intros i y Hy Hyb. assert (stock w c <= sum_of (raising w) (threads c)); [|lia].
    rewrite Ht in Hy. apply list_lookup_insert_Some in Hy as [(<- & -> & _)|[_ Hy]]; [congruence|].
    by apply (Hb i y).
  - intros i y Hy Hya. exfalso. rewrite Ht in Hy.
    apply list_lookup_insert_Some in Hy as [(<- & -> & _)|[_ Hy]]; [congruence|].
    assert (existsb (asleep_on w) (threads c) = true); [|congruence].
    apply existsb_exists. exists y. split; [|done]. apply list_elem_of_In. by eapply list_elem_of_lookup_2.
Qed.

(** A notification on the other epoch changes nothing here. *)
Lemma ready_elsewhere w w' k x c c' :
  ready w c -> w ≠ w' -> threads c !! k = Some x -> asleep_on w' x = true ->
  moves w k x (wake x) 0 c c' -> ready w c'.
Proof.
  intros Hr Hw Hk Hx Hm. eapply ready_moves; [done..| |].
  - left. by destruct w, w', x.
  - right. by destruct w, w', x.
Qed.

(** ** Steps on the queue *)

Definition steady (q q' : LockFreeQueue.queue E) : Prop :=
  LockFreeQueue.capacity_ q' = LockFreeQueue.capacity_ q /\
  LockFreeQueue.data_epoch_ q' = LockFreeQueue.data_epoch_ q /\
  LockFreeQueue.capacity_epoch_ q' = LockFreeQueue.capacity_epoch_ q.

Lemma on_available_steady {A} (m : M IndexRing.ring A) q a q' :
  LockFreeQueue.on_available m q = Ret a q' -> steady q q'.
Proof. destruct q. unfold LockFreeQueue.on_available. cbn. by destruct (m _); intros [= _ <-]. Qed.

Lemma on_published_steady {A} (m : M IndexRing.ring A) q a q' :
  LockFreeQueue.on_published m q = Ret a q' -> steady q q'.
Proof. destruct q. unfold LockFreeQueue.on_published. cbn. by destruct (m _); intros [= _ <-]. Qed.

Lemma empty_slot_steady i q a q' : empty_slot i q = Ret a q' -> steady q q'.
Proof.
  destruct q. unfold empty_slot, LockFreeQueue.take_at. run_m.
  destruct (_ !!z i) as [[]|]; try done. by intros [= _ <-].
Qed.

Lemma no_crash c j f : inv c -> threads c !! j ≠ Some (Crashed f).
Proof. intros (r & free & queued & Hi) Hj. exact (inv_pcs _ _ _ _ Hi j _ Hj). Qed.

(** A call of a step that keeps the invariant returns. *)
Lemma call_returns {A} j c (m : M (LockFreeQueue.queue E) A) k p :
  threads c !! j = Some p -> inv (call j c m k) ->
  ∃ a q', m (shared c) = Ret a q' /\ call j c m k = k a (with_shared q' c).
Proof.
  intros Hj Hi. unfold call in *. destruct (m (shared c)) as [a q'|e q'|f]; [by eauto|exfalso..].
  all: eapply (no_crash _ j _ Hi); cbn.
  all: by rewrite list_lookup_insert_eq by (eapply lookup_lt_Some; done).
Qed.

Lemma moves_to w j p p' d c q' mu acc tak ret dis ws :
  steady (shared c) q' ->
  zlength acc - zlength tak - zlength dis = queued_count c + d ->
  moves w j p p' d c (mk_config q' (<[j:=p']> (threads c)) mu acc tak ret dis ws).
Proof. intros (? & ? & ?) Hd. split; try done. by destruct w. Qed.

Lemma moves_update w j p p' f c :
  steady (shared c) (f (shared c)) -> moves w j p p' 0 c (update j p' f c).
Proof.
  intros Hs. apply (moves_to w j p p' 0 c); [done|]. unfold queued_count. cbn. lia.
Qed.

Lemma moves_goto w j p p' c : moves w j p p' 0 c (goto j p' c).
Proof. apply (moves_to w j p p' 0 c); [done|]. unfold queued_count. lia. Qed.

Lemma moves_call {A} w j p p' c (m : M (LockFreeQueue.queue E) A) :
  threads c !! j = Some p -> inv (call j c m (fun _ => goto j p')) ->
  (∀ a q', m (shared c) = Ret a q' -> steady (shared c) q') ->
  moves w j p p' 0 c (call j c m (fun _ => goto j p')).
Proof.
  intros Hj Hi Hs. destruct (call_returns _ _ _ _ _ Hj Hi) as (a & q' & Hm & ->).
  apply (moves_to w j p p' 0 c); [by eapply Hs|]. unfold queued_count. cbn. lia.
Qed.

Lemma gate_steady g w (q : LockFreeQueue.queue E) : steady q (LockFreeQueue.with_gate g w q).
Proof. by destruct q, g. Qed.

(** ** Both epochs at once *)

Definition all_ready c : Prop := ∀ w, ready w c.
Definition unwrapped c : Prop := ∀ w, 0 <= epoch w c < 2 ^ 64 - 1.

Definition passes (w : epoch_word) (cur : Z) p p' (d : Z) : Prop :=
  recalls w cur p p' /\ shift_ok w cur p p' d.

Lemma ready_pass c c' j p p' d :
  all_ready c -> threads c !! j = Some p -> (∀ w, moves w j p p' d c c') ->
  (∀ w cur, passes w cur p p' d) -> all_ready c'.
Proof. intros Hr Hj Hm Hp w. destruct (Hp w (epoch w c)). eapply ready_moves; eauto. Qed.

(** [signal_data] or [signal_capacity]. *)
Definition signal_of (w : epoch_word) : M (LockFreeQueue.queue E) unit :=
  match w with
  | data_epoch => LockFreeQueue.signal_data
  | capacity_epoch => LockFreeQueue.signal_capacity
  end.

Lemma ready_signal w0 c j p p' :
  all_ready c -> unwrapped c -> threads c !! j = Some p ->
  (∀ cur, token w0 cur p = 1 /\ token w0 cur p' = 1 /\ blind w0 cur p' = false) ->
  asleep_on w0 p' = false -> slots_held p = 0 -> slots_held p' = 0 ->
  remembered w0 p' = remembered w0 p \/ remembered w0 p' = None ->
  (∀ w cur, w ≠ w0 -> passes w cur p p' 0) -> all_ready (signal j p' (signal_of w0) c).
Proof.
  intros Hr Hu Hj Htok Ha Hs Hs' Hre Hp w. destruct (decide (w = w0)) as [->|Hw].
  - assert (epoch w0 (signal j p' (signal_of w0) c) = epoch w0 c + 1) as He.
    { specialize (Hu w0). destruct c as [[]], w0; cbn in *; by rewrite u64_small by lia. }
    assert (threads (signal j p' (signal_of w0) c) = <[j:=p']> (threads c)) as Ht by by destruct w0.
    eapply ready_raise; try done; try (by intros cur; destruct (Htok cur) as (? & ? & ?)).
    pose proof (sum_of_insert slots_held _ _ _ p' Hj).
    destruct c as [[]], w0; cbn in *; unfold queued_count; cbn; lia.
  - destruct (Hp w (epoch w c) Hw). eapply (ready_moves w j p p' 0); eauto.
    split; [by destruct w0|by destruct c as [[]], w0|by destruct c as [[]], w0, w|].
    destruct w0; unfold queued_count; cbn; lia.
Qed.

(** The [notify_one()] of a signal. *)
Lemma ready_notify w0 wk c j p p' c' :
  all_ready c -> threads c !! j = Some p -> notify j p' w0 wk c = Some c' -> wake p = p ->
  (∀ cur, wakes_at w0 cur p p') -> slots_held p = 0 -> slots_held p' = 0 ->
  (∀ w cur, w ≠ w0 -> passes w cur p p' 0) -> all_ready c'.
Proof.
  intros Hr Hj Hn Hwp Hw Hs Hs' Hp w. unfold notify, notify_one in Hn.
  pose proof (sum_of_insert slots_held _ _ _ p' Hj) as Hsl.
  destruct wk as [k|].
  - destruct (threads c !! k) as [x|] eqn:Hk; [|done].
    destruct (asleep_on w0 x) eqn:Hx; [|done]. injection Hn as <-.
    assert (k ≠ j) as Hkj by (intros ->; assert (x = p) as -> by congruence; by destruct w0, p).
    assert (<[k:=wake x]> (threads c) !! j = Some p) as Hj' by by rewrite list_lookup_insert_ne.
    assert (slots_held x = 0 /\ slots_held (wake x) = 0) as [Hsx Hswx] by by destruct w0, x.
    pose proof (sum_of_insert slots_held _ _ _ (wake x) Hk).
    pose proof (sum_of_insert slots_held _ _ _ p' Hj').
    destruct (decide (w = w0)) as [->|Hne].
    + eapply (ready_wake_one w0 j p p' k x c); try done.
      destruct w0; unfold stock, queued_count; cbn in *; lia.
    + assert (ready w (with_threads (<[k:=wake x]> (threads c)) c)) as Hr1.
      { eapply (ready_elsewhere w w0 k x c); try done. apply moves_goto. }
      destruct (Hp w (epoch w c) Hne). eapply (ready_moves w j p p' 0); eauto. apply moves_goto.
  - destruct (existsb (asleep_on w0) (threads c)) eqn:Hex; [done|]. injection Hn as <-.
    destruct (decide (w = w0)) as [->|Hne].
    + eapply (ready_wake_none w0 j p p' c); try done.
      destruct w0; unfold stock, queued_count; cbn in *; lia.
    + destruct (Hp w (epoch w c) Hne). eapply (ready_moves w j p p' 0); eauto.
      apply (moves_goto w j p p' c).
Qed.

(** ** Closed gates *)

(** The closing steps. *)
Definition closes (g : LockFreeQueue.gate) p : bool :=
  match g, p with
  | LockFreeQueue.producer_gate, CloseOr _ | LockFreeQueue.consumer_gate, DiscardOr => true
  | _, _ => false
  end.

Lemma closing_with_gate g g' w (q : LockFreeQueue.queue E) :
  closing_gate g (LockFreeQueue.with_gate g' w q) <->
  if decide (g = g') then LockFreeQueue.closed_bit <= w else closing_gate g q.
Proof. unfold closing_gate. by destruct q, g, g'. Qed.

Lemma leave_closing r c free queued j p g g' p' :
  inv_with r c free queued -> threads c !! j = Some p -> inside g' p = 1 ->
  closing_gate g (shared (update j p' (LockFreeQueue.guard_leave g') c)) <->
  closing_gate g (shared c).
Proof.
  intros Hi Hj Hp. pose proof (inside_few _ _ _ _ g' Hi) as Hf.
  pose proof (inv_gate _ _ _ _ Hi g') as Hg.
  pose proof (sum_of_lookup _ _ _ _ (inside_nonneg g') Hj) as Hs.
  cbn. unfold LockFreeQueue.guard_leave. rewrite closing_with_gate.
  destruct (decide (g = g')) as [->|]; [|done]. split.
  - intros Hc. unfold closing_gate. destruct Hg as [_ [Hg|Hg]]; [|rewrite Hg; lia].
    rewrite Hg, u64_small in Hc by (unfold few in *; lia).
    unfold few, LockFreeQueue.closed_bit in *. lia.
  - apply (gate_word_leave_closed _ _ Hg); [done|lia].
Qed.

Lemma frame_closing c c' g :
  frame c c' -> closing_gate g (shared c') <-> closing_gate g (shared c).
Proof. intros [Hg _]. unfold closing_gate. by rewrite Hg. Qed.

Lemma call_closing {A} j c (m : M (LockFreeQueue.queue E) A) k g :
  gentle m -> (∀ a c1, shared (k a c1) = shared c1) ->
  closing_gate g (shared (call j c m k)) <-> closing_gate g (shared c).
Proof.
  intros Hm Hk. unfold call, closing_gate. specialize (Hm (shared c)).
  destruct (m (shared c)); [rewrite Hk| |done]; cbn; by rewrite Hm.
Qed.

Lemma or_closing r c free queued g :
  inv_with r c free queued ->
  LockFreeQueue.closed_bit <= Z.lor (LockFreeQueue.gate_of g (shared c)) LockFreeQueue.closed_bit.
Proof.
  intros Hi. pose proof (inv_gate _ _ _ _ Hi g) as Hg.
  rewrite (gate_word_close _ _ Hg (inside_few _ _ _ _ g Hi)). destruct Hg. lia.
Qed.

Lemma cas_closing sp j op state c c' g :
  inv c -> threads c !! j = Some (GateCas op state) ->
  guard_step sp j (GateCas op state) c = Some c' ->
  closing_gate g (shared c') <-> closing_gate g (shared c).
Proof.
  intros (r & free & queued & Hi) Hj. pose proof (inv_pcs _ _ _ _ Hi _ _ Hj) as ((n & Hw & Hn) & _).
  cbn [guard_step]. rewrite (guard_admits_word _ _ Hw Hn).
  destruct (Z.eqb_spec state n) as [->|]; [|by intros [= <-]].
  destruct (negb sp && _) eqn:Hc; intros [= <-]; [|done].
  apply andb_true_iff in Hc as [_ Hc%Z.eqb_eq]. cbn [shared update goto with_threads with_shared].
  rewrite closing_with_gate. destruct (decide (g = gate_for op)) as [->|]; [|done].
  unfold closing_gate. rewrite Hc. unfold few, LockFreeQueue.closed_bit in *. lia.
Qed.

(** A gate is closed by its closing step and by no other. *)
Lemma step_pc_closing sp wk j p c c' g :
  inv c -> threads c !! j = Some p -> step_pc sp wk j p c = Some c' ->
  closing_gate g (shared c') <-> closing_gate g (shared c) \/ closes g p = true.
Proof.
  intros Hc Hj Hst. pose proof Hc as (r & free & queued & Hi).
  destruct (closes g p) eqn:Hcl.
  { assert (closing_gate g (shared c')); [|tauto].
    destruct g, p; try discriminate Hcl; injection Hst as <-;
      cbn [shared update goto with_threads with_shared]; rewrite closing_with_gate;
      rewrite decide_True by done;
      first [exact (or_closing _ _ _ _ LockFreeQueue.producer_gate Hi)
        |exact (or_closing _ _ _ _ LockFreeQueue.consumer_gate Hi)]. }
  assert (closing_gate g (shared c') <-> closing_gate g (shared c)); [|intuition discriminate].
  destruct (at_gate_or_log p) eqn:Hp; [|by eapply frame_closing, step_frame].
  destruct p; try discriminate Hp; cbn [step_pc] in Hst.
  - by eapply cas_closing.
  - injection Hst as <-.
    apply (leave_closing r c free queued j _ g LockFreeQueue.producer_gate _ Hi Hj eq_refl).
  - injection Hst as <-. apply call_closing; [apply on_published_gentle|done].
  - injection Hst as <-.
    apply (leave_closing r c free queued j _ g LockFreeQueue.producer_gate _ Hi Hj eq_refl).
  - injection Hst as <-. unfold dequeue_published. destruct (misses sp c); [done|].
    apply call_closing; [apply on_published_gentle|].
    intros [i|] c1; [|done]. by destruct (slot_event _ _).
  - injection Hst as <-.
    apply (leave_closing r c free queued j _ g LockFreeQueue.consumer_gate _ Hi Hj eq_refl).
  - injection Hst as <-. cbn [shared update goto with_threads with_shared].
    rewrite closing_with_gate. by destruct g.
  - injection Hst as <-. cbn [shared update goto with_threads with_shared].
    rewrite closing_with_gate. by destruct g.
Qed.

(** Pops are refused only after pushes are. *)
Definition consumers_after c : Prop :=
  closing_gate LockFreeQueue.consumer_gate (shared c) ->
  closing_gate LockFreeQueue.producer_gate (shared c).

Lemma step_closing_mono ch c c' g :
  inv c -> step ch c = Some c' -> closing_gate g (shared c) -> closing_gate g (shared c').
Proof.
  intros Hi [Hf|(j & sp & wk & p & Hj & Hs)]%step_shared; [by rewrite (frame_closing _ _ g Hf)|].
  rewrite (step_pc_closing _ _ _ _ _ _ g Hi Hj Hs). auto.
Qed.

Lemma step_consumers_after ch c c' :
  inv c -> step ch c = Some c' -> consumers_after c -> consumers_after c'.
Proof.
  intros Hi Hst Ha Hc. apply (step_closing_mono ch c c' _ Hi Hst).
  destruct (step_shared _ _ _ Hst) as [Hf|(j & sp & wk & p & Hj & Hs)].
  { apply Ha. by rewrite <- (frame_closing _ _ _ Hf). }
  rewrite (step_pc_closing _ _ _ _ _ _ _ Hi Hj Hs) in Hc. destruct Hc as [Hc|Hc]; [auto|].
  destruct p; try discriminate Hc. destruct Hi as (r & free & queued & Hi).
  pose proof (inv_pcs _ _ _ _ Hi _ _ Hj) as Hse. unfold closing_gate. cbn in Hse.
  unfold sealed in Hse. rewrite Hse. done.
Qed.

(** ** Every step before the queue is closed *)

Lemma stock_data r c free queued : inv_with r c free queued -> stock data_epoch c = zlength queued.
Proof.
  intros []. cbn. unfold queued_count. rewrite inv_log0. zlen.
Qed.

Lemma stock_capacity r c free queued :
  inv_with r c free queued -> stock capacity_epoch c = zlength free.
Proof.
  intros Hi. pose proof (stock_data _ _ _ _ Hi) as Hd. destruct Hi. cbn in *.
  destruct inv_table0 as (Hp & _). apply Permutation_length in Hp.
  pose proof (RingAbs.half_pos r ltac:(lia)).
  assert (zlength (slot_table free queued (in_hands c)) = RingAbs.half r) as Hl.
  { rewrite <- (zlength_fmap fst). unfold zlength. rewrite Hp, length_seqZ. lia. }
  rewrite slot_table_length in Hl. unfold in_hands in Hl. rewrite in_hands_length in Hl.
  change (λ p, zlength (owned p)) with slots_held in Hl. lia.
Qed.

(** Compare the weights of two program counters. *)
Local Ltac weigh :=
  unfold passes, recalls, shift_ok, gain, token, slots_held, zlength; cbn;
  try split_and!; cbn; try done; try lia; auto; try (intros; done).
Local Ltac pass := intros [] cur; weigh.
Local Ltac pass_elsewhere := intros [] cur Hne; [try done|try done]; weigh.

Section step.
Context (c c' : config E) (r : Z) (free : list Z) (queued : list (Z * E)).
Context (Hi : inv_with r c free queued) (Hi' : inv c') (Hr : all_ready c) (Hu : unwrapped c).
Context (Hopen : ~ closing_gate LockFreeQueue.producer_gate (shared c)) (Hafter : consumers_after c).
Context (Hcr : crowded c = false) (sp : bool) (wk : option nat) (j : nat).

Lemma not_sealed : ~ sealed LockFreeQueue.producer_gate (shared c).
Proof. intros Hs. apply Hopen. unfold closing_gate. by rewrite Hs. Qed.

Lemma guard_ready p :
  threads c !! j = Some p -> guard_step sp j p c = Some c' -> all_ready c'.
Proof.
  intros Hj. destruct p; try discriminate; cbn [guard_step].
  - intros [= <-]. eapply ready_pass; [done..|by intros; apply moves_goto|].
    destruct op; pass.
  - pose proof (inv_pcs _ _ _ _ Hi _ _ Hj) as ((n & Hw & Hn) & Hcl).
    rewrite (guard_admits_word _ _ Hw Hn). destruct (Z.eqb_spec state n) as [->|Hne].
    + destruct (_ && _); intros [= <-]; (eapply ready_pass; [done..| |]).
      * intros. apply moves_update, gate_steady.
      * destruct op; pass.
      * intros. apply moves_goto.
      * destruct op; pass.
    + exfalso. assert (closing_gate (gate_for op) (shared c)) as Hc.
      { apply Hcl. destruct Hw as [? [?|?]]; lia. }
      destruct op; [done|]. by apply Hopen, Hafter.
Qed.

(** One epoch has nothing left to look at, the other is not concerned. *)
Lemma ready_found_nothing w0 p p' d :
  threads c !! j = Some p -> (∀ w, moves w j p p' d c c') -> stock w0 c' <= 0 -> (∀ cur, recalls w0 cur p p') ->
  (∀ w cur, w ≠ w0 -> passes w cur p p' d) -> all_ready c'.
Proof.
  intros Hj Hm H0 Hrec Hp w. destruct (decide (w = w0)) as [->|Hne].
  - eapply ready_moves; eauto.
  - destruct (Hp w (epoch w c) Hne). eapply ready_moves; eauto.
Qed.

Lemma reserve_ready md event :
  threads c !! j = Some (Reserve md event) -> push_step sp wk j (Reserve md event) c = Some c' ->
  all_ready c'.
Proof.
  intros Hj [= Hc']. pose proof Hi as []. rewrite uncrowded_misses in Hc' by done.
  destruct (RingSolo.try_dequeue_holds r ltac:(lia) free _ inv_available0) as (av & Hd & Hav).
  assert (LockFreeQueue.on_available (IndexRing.try_dequeue false) (shared c) =
    Ret (head free) (LockFreeQueue.with_available av (shared c))) as Hcall
    by (unfold LockFreeQueue.on_available; by rewrite Hd).
  pose proof (on_available_steady _ _ _ _ Hcall) as Hs.
  unfold call in Hc'. rewrite Hcall in Hc'.
  assert (∀ w p' q', steady (shared c) q' -> moves w j (Reserve md event) p' 0 c
    (goto j p' (with_shared q' c))) as Hm.
  { intros w p' q' Hq. apply (moves_to w j _ p' 0 c); [done|]. unfold queued_count. cbn. lia. }
  assert (head free = None -> zlength free = 0) as Hempty by by destruct free.
  destruct (head free) as [i|].
  - rewrite <- Hc'. eapply ready_pass; [done..|by intros; apply Hm|]. destruct md; pass.
  - apply (ready_found_nothing capacity_epoch _ (FullLeave md event) 0 Hj); [by rewrite <- Hc'; auto| |by intros; left|].
    + rewrite <- Hc', (stock_moves capacity_epoch _ _ _ _ _ _ (Hm capacity_epoch (FullLeave md event) _ Hs) Hj).
      rewrite (stock_capacity _ _ _ _ Hi), Hempty by done. unfold gain, slots_held. cbn. zlen_nil. lia.
    + pass_elsewhere.
Qed.

Lemma construct_ready index event :
  threads c !! j = Some (Construct index event) ->
  push_step sp wk j (Construct index event) c = Some c' -> all_ready c'.
Proof.
  intros Hj. cbn [push_step]. unfold LockFreeQueue.construct_at.
  assert (∀ f, c' ≠ goto j (Crashed f) c) as Hnc.
  { intros f ->. apply (no_crash _ j f Hi'). cbn.
    by rewrite list_lookup_insert_eq by (eapply lookup_lt_Some; done). }
  destruct (shared c) as [cap sl av pu oc pg cg qu de ce] eqn:Hq. cbn.
  destruct (sl !!z index) as [[]|]; try (by intros [= <-]; destruct (Hnc undefined_behaviour)).
  destruct event as [e|e]; intros [= <-].
  - eapply (ready_pass c _ j _ (GiveBack index e) 0); [done..| |pass].
    intros w. apply (moves_to w j _ _ 0 c); [by rewrite Hq|]. unfold queued_count. cbn. lia.
  - eapply (ready_pass c _ j _ (Publish index e) 0); [done..| |pass].
    intros w. apply (moves_to w j _ _ 0 c); [by rewrite Hq|]. unfold queued_count. cbn. lia.
Qed.

Lemma publish_ready index event :
  threads c !! j = Some (Publish index event) ->
  push_step sp wk j (Publish index event) c = Some c' -> all_ready c'.
Proof.
  intros Hj [= Hc']. pose proof Hi' as Hinv. rewrite <- Hc' in Hinv |- *.
  destruct (call_returns _ _ _ _ _ Hj Hinv) as (a & q' & Hm & ->).
  eapply (ready_pass c _ j _ PushRaise 1); [done..| |pass].
  intros w. apply (moves_to w j _ _ 1 c); [by eapply on_published_steady|].
  unfold queued_count. cbn. zlen.
Qed.

Lemma push_ready p : threads c !! j = Some p -> push_step sp wk j p c = Some c' -> all_ready c'.
Proof.
  intros Hj Hst. destruct p as [| | |md event|md event|index event|index e|e|e|index event| | |o| | | | | | | | | | | | | | | | | | | | | | | | | | | | | | | |];
    try discriminate Hst; cbn [push_step] in Hst.
  - by eapply reserve_ready.
  - injection Hst as <-. eapply ready_pass; [done..|by intros; apply moves_update, gate_steady|].
    destruct md as [| | |[]]; pass.
  - by eapply construct_ready.
  - injection Hst as Hc'. pose proof Hi' as Hinv. rewrite <- Hc' in Hinv |- *.
    eapply ready_pass; [done..| |].
    + intros w. apply moves_call; [done..|]. intros. by eapply on_available_steady.
    + pass.
  - injection Hst as <-. apply (ready_signal capacity_epoch c j (GiveBackRaise e)); try done; auto.
    pass_elsewhere.
  - eapply (ready_notify capacity_epoch wk c j (GiveBackWake e)); try done; auto.
    + intros cur. unfold wakes_at. split_and!; auto.
    + pass_elsewhere.
  - by eapply publish_ready.
  - injection Hst as <-. apply (ready_signal data_epoch c j PushRaise); try done; auto.
    pass_elsewhere.
  - eapply (ready_notify data_epoch wk c j PushWake); try done; auto.
    + intros cur. unfold wakes_at. split_and!; auto.
    + pass_elsewhere.
  - injection Hst as <-. eapply ready_pass; [done..|by intros; apply moves_update, gate_steady|pass].
Qed.

Lemma take_ready md :
  threads c !! j = Some (Take md) -> pop_step sp wk j (Take md) c = Some c' -> all_ready c'.
Proof.
  intros Hj [= Hc']. destruct (dequeue_published_eq sp _ _ _ _ Hi) as (pu & _ & Heq).
  rewrite Heq, uncrowded_misses in Hc' by done. clear Heq. cbv zeta in Hc'.
  assert (steady (shared c) (LockFreeQueue.with_published pu (shared c))) as Hs
    by by destruct (shared c).
  assert (queued = [] -> stock data_epoch c = 0) as Hempty
    by (intros ->; by rewrite (stock_data _ _ _ _ Hi)).
  destruct queued as [|[i e] rest] eqn:Hq.
  - assert (∀ w, moves w j (Take md) (Quiesced md) 0 c c') as Hm.
    { intros w. rewrite <- Hc'. apply (moves_to w j _ _ 0 c); [done|]. unfold queued_count. cbn. lia. }
    apply (ready_found_nothing data_epoch _ (Quiesced md) 0 Hj); [done| |by intros; left|].
    + rewrite (stock_moves data_epoch _ _ _ _ _ _ (Hm data_epoch) Hj), Hempty by done. done.
    + pass_elsewhere.
  - rewrite <- Hc'. eapply (ready_pass c _ j _ (MoveOut md i e) (-1)); [done..| |destruct md; pass].
    intros w. apply (moves_to w j _ _ (-1) c); [done|]. unfold queued_count. cbn. zlen.
Qed.

Lemma pop_ready p : threads c !! j = Some p -> pop_step sp wk j p c = Some c' -> all_ready c'.
Proof.
  intros Hj Hst. destruct p as [| | | | | | | | | | | | | | | | | | |md|md|md i e|md i e|md e|md e|md res| | | | | | | | | | | | | | | | | | |];
    try discriminate Hst; cbn [pop_step] in Hst.
  - by eapply take_ready.
  - destruct (LockFreeQueue.producer_quiesced_ (shared c)) eqn:Hqu.
    { by destruct (not_sealed (inv_quiesced _ _ _ _ Hi Hqu)). }
    injection Hst as <-. eapply ready_pass; [done..|by intros; apply moves_goto|]. destruct md; pass.
  - injection Hst as Hc'. pose proof Hi' as Hinv. rewrite <- Hc' in Hinv |- *.
    destruct (call_returns _ _ _ _ _ Hj Hinv) as (a & q' & Hm & ->).
    eapply (ready_pass c _ j _ (Free md i a) 0); [done..| |pass].
    intros w. apply (moves_to w j _ _ 0 c); [by eapply empty_slot_steady|].
    unfold queued_count. cbn. lia.
  - injection Hst as Hc'. pose proof Hi' as Hinv. rewrite <- Hc' in Hinv |- *.
    eapply ready_pass; [done..| |].
    + intros w. apply moves_call; [done..|]. intros. by eapply on_available_steady.
    + pass.
  - injection Hst as <-. apply (ready_signal capacity_epoch c j (FreeRaise md e)); try done; auto.
    pass_elsewhere.
  - eapply (ready_notify capacity_epoch wk c j (FreeWake md e)); try done; auto.
    + intros cur. unfold wakes_at. split_and!; auto.
    + pass_elsewhere.
  - injection Hst as <-. eapply ready_pass; [done..|by intros; apply moves_update, gate_steady|].
    assert (bool_decide (status res = empty) = found_nothing res) as Hb
      by by destruct res as [[]].
    unfold after_pop. rewrite Hb. destruct (found_nothing res) eqn:Hf; [destruct md|];
      intros [] cur; unfold passes, recalls, shift_ok, gain, token, slots_held; cbn; rewrite ?Hf;
      weigh.
Qed.

(** Loading an epoch, and going to sleep on one that has not moved. *)
Lemma load_ready w0 p p' :
  threads c !! j = Some p -> c' = goto j p' c ->
  recalls w0 (epoch w0 c) p p' -> shift_ok w0 (epoch w0 c) p p' 0 ->
  (∀ w cur, w ≠ w0 -> passes w cur p p' 0) -> all_ready c'.
Proof.
  intros Hj -> H1 H2 Hp w. destruct (decide (w = w0)) as [->|Hne].
  - eapply ready_moves; eauto. apply moves_goto.
  - destruct (Hp w (epoch w c) Hne). eapply ready_moves; eauto. apply moves_goto.
Qed.

Lemma sleep_shift w (cur e : Z) p p1 p2 :
  token w cur p = (if e =? cur then 0 else 1) -> blind w cur p = (e =? cur) ->
  raising w p = 0 -> slots_held p = 0 ->
  token w cur p1 = 0 -> raising w p1 = 0 -> slots_held p1 = 0 -> blind w cur p1 = (e =? cur) ->
  token w cur p2 = 1 -> raising w p2 = 0 -> slots_held p2 = 0 -> blind w cur p2 = false ->
  asleep_on w p2 = false ->
  shift_ok w cur p (if cur =? e then p1 else p2) 0.
Proof.
  intros Ht Hb H1 H2. intros. unfold shift_ok, gain. rewrite Ht, Hb, H1, H2. cbn.
  rewrite (Z.eqb_sym e cur). destruct (Z.eqb_spec cur e) as [->|].
  - rewrite Z.eqb_refl in *. destruct w; split_and!; auto; lia.
  - destruct w; split_and!; try lia; congruence.
Qed.

Lemma goto_ready p p' :
  threads c !! j = Some p -> c' = goto j p' c -> (∀ w cur, passes w cur p p' 0) -> all_ready c'.
Proof. intros Hj -> Hp. eapply ready_pass; [done..|by intros; apply moves_goto|done]. Qed.

Lemma wait_ready p :
  threads c !! j = Some p ->
  wait_push_step j p c = Some c' \/ wait_pop_step j p c = Some c' -> all_ready c'.
Proof.
  intros Hj [Hst|Hst]; destruct p; try discriminate Hst; injection Hst as Hst; symmetry in Hst.
  - eapply (goto_ready _ _ Hj Hst). case_match; [pass|destruct md; pass; case_match; lia].
  - eapply (load_ready capacity_epoch); [done..|weigh|weigh|pass_elsewhere].
  - eapply (load_ready capacity_epoch); [done..| | |].
    + case_match; weigh.
    + by apply sleep_shift.
    + case_match; pass_elsewhere.
  - eapply (goto_ready _ _ Hj Hst). case_match; pass.
  - eapply (goto_ready _ _ Hj Hst). pass.
  - eapply (goto_ready _ _ Hj Hst). case_match; [pass|destruct md; pass; case_match; lia].
  - eapply (load_ready data_epoch); [done..|weigh|weigh|pass_elsewhere].
  - eapply (load_ready data_epoch); [done..| | |].
    + case_match; weigh.
    + by apply sleep_shift.
    + case_match; pass_elsewhere.
Qed.

Lemma close_ready p : threads c !! j = Some p -> close_step wk j p c = Some c' -> all_ready c'.
Proof.
  intros Hj Hst. pose proof (inv_pcs _ _ _ _ Hi _ _ Hj) as Hok. pose proof not_sealed as Hns.
  destruct p; try discriminate Hst; cbn [close_step] in Hst;
    try (exfalso; cbn in Hok; repeat case_match; intuition auto; done).
  - destruct (close_mutex c); [done|]. injection Hst as <-.
    eapply (ready_pass c _ j _ (CloseOr discards) 0); [done..| |pass].
    intros w. apply (moves_to w j _ _ 0 c); [done|]. unfold queued_count. cbn. lia.
  - injection Hst as <-. eapply ready_pass; [done..|by intros; apply moves_update, gate_steady|pass].
Qed.

Lemma discard_not_yet p : threads c !! j = Some p -> discard_step sp j p c = Some c' -> False.
Proof.
  intros Hj Hst. pose proof (inv_pcs _ _ _ _ Hi _ _ Hj) as Hok. pose proof not_sealed as Hns.
  destruct p; try discriminate Hst; cbn in Hok; intuition auto.
Qed.

Lemma step_pc_ready p : threads c !! j = Some p -> step_pc sp wk j p c = Some c' -> all_ready c'.
Proof.
  intros Hj Hst. destruct p; try discriminate Hst; cbn [step_pc] in Hst;
    first [by eapply guard_ready|by eapply push_ready|by eapply pop_ready|by eapply wait_ready; eauto
      |by eapply close_ready|by destruct (discard_not_yet _ Hj Hst)].
Qed.

End step.

Lemma begin_ready j p cb c c' :
  all_ready c -> (∀ w cur, raising w p = 0 /\ 0 <= token w cur p /\ blind w cur p = false) ->
  (∀ w, asleep_on w p = false /\ remembered w p = None) -> slots_held p = 0 ->
  begin j p cb c = Some c' -> all_ready c'.
Proof.
  intros Hr Hp Hp' Hs (p0 & Hj & Hp0 & _ & ->)%begin_begins.
  eapply (ready_pass c _ j p0 p 0); [done..| |].
  { intros w. apply (moves_to w j p0 p 0 c); [done|]. unfold queued_count. cbn. lia. }
  intros w cur. destruct (Hp w cur) as (H1 & H2 & H3), (Hp' w) as [H4 H5].
  unfold passes, recalls, shift_ok, gain. rewrite H1, H3, H4, H5, Hs.
  destruct p0, w; try done; split; auto; unfold token, slots_held, zlength in *; cbn in *; split_and!; done || lia.
Qed.

(** ** Stop callbacks *)

Lemma ready_rethread w c ts' :
  ready w c -> Forall2 (λ p p', p' = p \/ ∃ w', asleep_on w' p = true /\ p' = wake p) (threads c) ts' ->
  ready w (with_threads ts' c).
Proof.
  intros [He Hb Ha] Hts.
  assert (∀ i p', ts' !! i = Some p' -> ∃ p, threads c !! i = Some p /\
    remembered w p' = remembered w p /\ raising w p' = raising w p /\
    blind w (epoch w c) p' = blind w (epoch w c) p /\
    (asleep_on w p' = true -> asleep_on w p = true)) as Hl.
  { intros i p' Hi. destruct (Forall2_lookup_r _ _ _ _ _ Hts Hi) as (p & Hp & Hcase).
    exists p. split; [done|]. destruct Hcase as [->|(w' & Hw' & ->)]; [done|].
    by destruct w, w', p. }
  assert (sum_of (raising w) ts' = sum_of (raising w) (threads c) /\
    sum_of slots_held ts' = sum_of slots_held (threads c) /\
    sum_of (token w (epoch w c)) (threads c) <= sum_of (token w (epoch w c)) ts') as (Hsr & Hss & Hst).
  { clear -Hts. induction Hts as [|p p' ts ts' Hp _ IH]; [done|]. sum_cons.
    assert (raising w p' = raising w p /\ slots_held p' = slots_held p /\
      token w (epoch w c) p <= token w (epoch w c) p'); [|lia].
    destruct Hp as [->|(w' & Hw' & ->)]; [done|].
    destruct w, w', p; try done; unfold token; cbn; split_and!; try done; case_match; lia. }
  assert (stock w (with_threads ts' c) = stock w c) as Hs.
  { destruct w; cbn; [done|]. unfold queued_count. cbn. lia. }
  split; rewrite ?Hs; cbn [threads with_threads]; change (epoch w (with_threads ts' c)) with (epoch w c).
  - intros i p' e Hi. destruct (Hl i p' Hi) as (p & Hp & -> & _). by eapply He.
  - intros i p' Hi. destruct (Hl i p' Hi) as (p & Hp & _ & _ & Hbb & _).
    rewrite Hbb. intros Hx. specialize (Hb _ _ Hp Hx). lia.
  - intros i p' Hi. destruct (Hl i p' Hi) as (p & Hp & _ & _ & _ & Haa).
    intros Hx. specialize (Ha _ _ Hp (Haa Hx)). lia.
Qed.

Lemma ready_raised w w0 c :
  ready w c -> unwrapped c -> ready w (with_shared (raise w0 (shared c)) c).
Proof.
  intros [He Hb Ha] Hu. specialize (Hu w).
  assert (stock w (with_shared (raise w0 (shared c)) c) = stock w c) as Hs
    by by destruct c as [[]], w, w0.
  destruct (decide (w = w0)) as [<-|Hne].
  - assert (epoch w (with_shared (raise w (shared c)) c) = epoch w c + 1) as Hep
      by (destruct c as [[]], w; cbn in *; by rewrite u64_small by lia).
    split; rewrite ?Hep, ?Hs; cbn [threads with_shared].
    + intros i x e Hx Hxe. specialize (He _ _ _ Hx Hxe). lia.
    + intros i x Hx Hxb%blind_remembers. specialize (He _ _ _ Hx Hxb). lia.
    + intros i x Hx Hxa. specialize (Ha _ _ Hx Hxa).
      assert (sum_of (token w (epoch w c)) (threads c) <= sum_of (token w (epoch w c + 1)) (threads c)); [|lia].
      apply sum_of_le. intros y [k Hk]%list_elem_of_lookup. apply token_mono. intros e. by apply He with k.
  - assert (epoch w (with_shared (raise w0 (shared c)) c) = epoch w c) as Hep
      by by destruct c as [[]], w, w0.
    split; rewrite ?Hep, ?Hs; done.
Qed.

Lemma notify_all_woken w (ts : list (pc E)) :
  Forall2 (λ p p', p' = p \/ ∃ w', asleep_on w' p = true /\ p' = wake p) ts (notify_all w ts).
Proof.
  unfold notify_all. apply Forall2_fmap_r, Forall_Forall2_diag, Forall_forall. intros x _. cbn.
  destruct (asleep_on w x) eqn:?; eauto.
Qed.

Lemma callback_ready j c c' :
  all_ready c -> unwrapped c -> stop_callback j c = Some c' -> all_ready c'.
Proof.
  intros Hr Hu. unfold stop_callback. destruct (threads c !! j) as [p|]; [|done].
  destruct (surrounding j c) as [[] [w|] ex]; cbn; try done.
  - destruct (at_rest p); [done|]. intros [= <-] w'. destruct (ready_raised w' w c (Hr w') Hu). by split.
  - intros [= <-] w'.
    destruct (ready_rethread w' c _ (Hr w') (notify_all_woken w (threads c))). by split.
Qed.

Lemma ready_recalled ws c : all_ready c -> all_ready (with_calls ws c).
Proof. intros Hr w. destruct (Hr w). by split. Qed.

Lemma step_ready ch r c free queued c' :
  inv_with r c free queued -> inv c' -> all_ready c -> unwrapped c -> crowded c = false ->
  ~ closing_gate LockFreeQueue.producer_gate (shared c) -> consumers_after c ->
  step ch c = Some c' -> all_ready c'.
Proof.
  intros Hi Hi' Hr Hu Hcr Ho Ha.
  destruct ch as [j sp wk|j [] event|j []|j d|j|j|j|j]; cbn [step];
    try (apply begin_ready; [done|by intros []|by intros []|done]).
  - destruct (threads c !! j) as [p|] eqn:Hj; [|done]. by eapply step_pc_ready.
  - destruct (threads c !! j) as [p|] eqn:Hj; [|done].
    destruct (_ || _) eqn:Hp; [|done]. intros [= <-].
    eapply ready_pass; [done..|by intros; apply moves_goto|].
    intros [] cur; destruct p; try done; weigh; case_match; cbn; lia || auto.
  - destruct (stop_token _); try done. intros [= <-]. by apply ready_recalled.
  - by apply callback_ready.
  - intros [= <-]. by apply ready_recalled.
Qed.

(** ** Epochs count the signals *)

Definition ticks (q q' : LockFreeQueue.queue E) : Prop :=
  ∀ e e', (e, e') = (LockFreeQueue.data_epoch_ q, LockFreeQueue.data_epoch_ q') \/
          (e, e') = (LockFreeQueue.capacity_epoch_ q, LockFreeQueue.capacity_epoch_ q') ->
  e' = e \/ e' = u64 (e + 1).

Lemma steady_ticks q q' : steady q q' -> ticks q q'.
Proof. intros (_ & H1 & H2) e e' [[= -> ->]|[= -> ->]]; auto. Qed.

Definition ticking {A} (m : M (LockFreeQueue.queue E) A) : Prop := ∀ q,
  match m q with Ret _ q' | Throw _ q' => ticks q q' | Stuck _ => True end.

Lemma on_available_ticking {A} (m : M IndexRing.ring A) : ticking (LockFreeQueue.on_available m).
Proof.
  intros []. unfold LockFreeQueue.on_available. cbn. destruct (m _); cbn; try done;
    by apply steady_ticks.
Qed.

Lemma on_published_ticking {A} (m : M IndexRing.ring A) : ticking (LockFreeQueue.on_published m).
Proof.
  intros []. unfold LockFreeQueue.on_published. cbn. destruct (m _); cbn; try done;
    by apply steady_ticks.
Qed.

Lemma empty_slot_ticking i : ticking (empty_slot (E:=E) i).
Proof.
  intros []. unfold empty_slot, LockFreeQueue.take_at. run_m.
  destruct (_ !!z i) as [[]|]; try done; by apply steady_ticks.
Qed.

Lemma signal_ticking m :
  m = LockFreeQueue.signal_data \/ m = LockFreeQueue.signal_capacity -> ticking m.
Proof. intros [-> | ->] [] e e' [[= -> ->]|[= -> ->]]; cbn; auto. Qed.

Lemma call_ticks {A} j c (m : M (LockFreeQueue.queue E) A) k :
  ticking m -> (∀ a c1, shared (k a c1) = shared c1) -> ticks (shared c) (shared (call j c m k)).
Proof.
  intros Hm Hk. unfold call. specialize (Hm (shared c)).
  destruct (m (shared c)); [by rewrite Hk|done|by apply steady_ticks].
Qed.

Lemma notify_shared w wk j p c c' : notify j p w wk c = Some c' -> shared c' = shared c.
Proof. unfold notify. destruct (notify_one w wk (threads c)); [|done]. by intros [= <-]. Qed.

Lemma construct_ticks i event q :
  match LockFreeQueue.construct_at i (fun u : unit => (event, u)) (q, tt) with
  | Ret _ (q', _) | Throw _ (q', _) => steady q q'
  | Stuck _ => True
  end.
Proof.
  unfold LockFreeQueue.construct_at. destruct q. cbn.
  destruct (_ !!z i) as [[]|]; try done. by destruct event.
Qed.

Lemma dequeue_ticks sp j c none some :
  (∀ i e c1, shared (some i e c1) = shared c1) ->
  ticks (shared c) (shared (dequeue_published sp j c none some)).
Proof.
  intros Hs. unfold dequeue_published. destruct (misses sp c); [by apply steady_ticks|]. apply call_ticks; [apply on_published_ticking|].
  intros [i|] c1; [|done]. destruct (slot_event _ _); [apply Hs|done].
Qed.

Lemma step_pc_ticks sp wk j p c c' :
  step_pc sp wk j p c = Some c' -> ticks (shared c) (shared c').
Proof.
  assert (ticks (shared c) (shared c)) as Hrefl by by apply steady_ticks.
  destruct p; try discriminate;
    cbn [step_pc guard_step push_step wait_push_step pop_step wait_pop_step close_step discard_step];
    intros Hs; try (injection Hs as <-); try done; try (by apply dequeue_ticks);
    try (destruct (misses sp c); [done|]);
    try (by apply steady_ticks, gate_steady);
    try (by apply call_ticks; [|done]; first [apply on_available_ticking|apply on_published_ticking
      |apply empty_slot_ticking|apply signal_ticking; auto]);
    try (by apply notify_shared in Hs; rewrite Hs);
    try (by case_match; [|done]; injection Hs as <-);
    try (by case_match; [done|]; injection Hs as <-).
  - destruct (LockFreeQueue.guard_admits state) as [f|[state'|]]; try (by injection Hs as <-).
    destruct (_ && _); injection Hs as <-; [|done]. apply steady_ticks, gate_steady.
  - pose proof (construct_ticks index event (shared c)) as Hc.
    destruct (LockFreeQueue.construct_at _ _ _) as [a [q' []]|e [q' []]|f]; injection Hs as <-;
      [|exact (steady_ticks _ _ Hc)|done].
    apply steady_ticks. cbn. by destruct q'.
  - apply steady_ticks. cbn. by destruct (shared c).
  - destruct k as [[]|]; apply notify_shared in Hs; by rewrite Hs.
Qed.

Lemma raise_ticks w (q : LockFreeQueue.queue E) : ticks q (raise w q).
Proof. destruct q, w; intros e e' [[= -> ->]|[= -> ->]]; cbn; auto. Qed.

Lemma step_ticks ch c c' : step ch c = Some c' -> ticks (shared c) (shared c').
Proof.
  assert (ticks (shared c) (shared c)) as Hrefl by by apply steady_ticks.
  destruct ch as [j sp wk|j kind event|j waits|j d|j|j|j|j]; cbn [step]; unfold stop_callback;
    try (by intros (p0 & _ & _ & _ & ->)%begin_begins).
  - destruct (threads c !! j); [|done]. apply step_pc_ticks.
  - destruct (threads c !! j); [|done]. destruct (_ || _); [|done]. by intros [= <-].
  - destruct (stop_token _); try done. by intros [= <-].
  - destruct (threads c !! j) as [p|]; [|done].
    destruct (surrounding j c) as [[] [w|] ex]; cbn; try done.
    + destruct (at_rest p); [done|]. intros [= <-]. apply raise_ticks.
    + by intros [= <-].
  - by intros [= <-].
Qed.

Lemma step_epoch ch c c' w :
  step ch c = Some c' -> 0 <= epoch w c < 2 ^ 64 - 1 -> epoch w c <= epoch w c' <= epoch w c + 1.
Proof.
  intros Hst Hb. assert (ticks (shared c) (shared c')) as Ht.
  { by eapply step_ticks. }
  destruct (Ht (epoch w c) (epoch w c')) as [->| ->]; [destruct w; auto|lia|].
  rewrite u64_small; lia.
Qed.

(** ** The invariant of a run *)

(** After at most [t] steps. *)
Record watched (t : Z) c : Prop := mk_watched {
  watched_inv : inv c;
  watched_after : consumers_after c;
  watched_epochs : ∀ w, 0 <= epoch w c <= t;
  watched_crowd : crowded c = false;
  watched_ready : closing_gate LockFreeQueue.producer_gate (shared c) \/ all_ready c;
}.

Lemma watched_step t ch c c' :
  t < 2 ^ 64 - 1 -> watched t c -> step ch c = Some c' -> watched (t + 1) c'.
Proof.
  intros Ht [Hi Ha He Hcr Hr] Hst. assert (unwrapped c) as Hu by (intros w; specialize (He w); lia).
  split.
  - by eapply lock_free_step_inv.
  - by eapply step_consumers_after.
  - intros w. pose proof (step_epoch _ _ _ w Hst (Hu w)). specialize (He w). lia.
  - by rewrite (step_crowded _ _ _ Hst).
  - destruct (decide (LockFreeQueue.closed_bit <= LockFreeQueue.producer_gate_ (shared c))) as [Hc|Hc].
    + left. by eapply step_closing_mono.
    + destruct Hr as [Hr|Hr]; [done|]. right. pose proof Hi as (r & free & queued & Hi').
      eapply step_ready; try done. by eapply lock_free_step_inv.
Qed.

Lemma watched_run sched : ∀ t c,
  0 <= t -> t + zlength sched < 2 ^ 64 -> watched t c -> watched (t + zlength sched) (run sched c).
Proof.
  induction sched as [|ch sched IH]; intros t c H0 Ht Hw; [by zlen_nil; rewrite Z.add_0_r|].
  rewrite zlength_cons in *. pose proof (zlength_nonneg sched). cbn [run].
  replace (t + (zlength sched + 1)) with ((t + 1) + zlength sched) by lia.
  apply IH; [lia..|]. destruct (step ch c) as [c'|] eqn:Hst; cbn.
  - apply (watched_step t ch c); [lia|done..].
  - destruct Hw as [? ? He ? ?]. split; try done. intros w. specialize (He w). lia.
Qed.

Lemma start_epochs cap q n w : LockFreeQueue.make cap = inr q -> epoch w (start q n : config E) = 0.
Proof.
  unfold LockFreeQueue.make. destruct (LockFreeQueue.validate_capacity cap); [done|]. intros [= <-]. by destruct w.
Qed.

Lemma start_watched cap q n :
  0 <= cap <= 2 ^ 58 -> LockFreeQueue.make cap = inr q -> Z.of_nat n < few -> Z.of_nat n <= cap ->
  watched 0 (start q n).
Proof.
  intros Hcap Hq Hn Hle. destruct (lock_free_start_inv cap q n Hcap Hq Hn) as [Hi _].
  assert (LockFreeQueue.consumer_gate_ q = 0) as H3.
  { unfold LockFreeQueue.make in Hq. destruct (LockFreeQueue.validate_capacity cap); [done|].
    by injection Hq as <-. }
  split; [done| | |by apply (start_uncrowded cap)|right].
  - unfold consumers_after, closing_gate. cbn. rewrite H3. by intros [].
  - intros w. by rewrite (start_epochs cap).
  - intros w. split; intros j p; [intros e|..]; intros [-> _]%lookup_replicate; by destruct w.
Qed.

Lemma open_gate r c free queued g :
  inv_with r c free queued ->
  Z.land (LockFreeQueue.gate_of g (shared c)) LockFreeQueue.closed_bit = 0 ->
  ~ closing_gate g (shared c).
Proof.
  intros Hi Hz Hc. unfold closing_gate in Hc.
  destruct (gate_word_cases _ _ (inv_gate _ _ _ _ Hi g) (inside_few _ _ _ _ g Hi)) as (b & Hb & He & Hn).
  destruct (word_bits b (sum_of (inside g) (threads c)) ltac:(lia)) as (Hl & _).
  rewrite He, Hl in Hz. unfold LockFreeQueue.closed_bit in Hc. destruct Hb as [-> | ->]; [lia|].
  by cbn in Hz.
Qed.

(** ** What the wake-ups guarantee *)

(** Between calls, or asleep in one. *)
Definition parked p : bool :=
  at_rest p || asleep_on data_epoch p || asleep_on capacity_epoch p.

Lemma parked_weights w cur p :
  parked p = true -> token w cur p = 0 /\ owned p = [] /\ counted p = 0.
Proof. by destruct w, p. Qed.

Lemma parked_sum (f : pc E -> Z) (ts : list (pc E)) :
  (∀ j p, ts !! j = Some p -> f p = 0) -> sum_of f ts = 0.
Proof.
  intros Hf. induction ts as [|p ts IH]; [done|]. sum_cons. rewrite (Hf 0%nat p), IH by done || (intros j x; apply (Hf (S j) x)).
  done.
Qed.

Section started.
Context (cap : Z) (q : LockFreeQueue.queue E) (n : nat) (sched : list (choice E)).
Context (Hcap : 0 <= cap <= 2 ^ 58) (Hmake : LockFreeQueue.make cap = inr q).
Context (Hn : Z.of_nat n < few) (Hfit : Z.of_nat n <= cap) (Hsched : zlength sched < 2 ^ 64).

(** C22: with no more threads than slots no wake-up is lost before the queue
    is closed: when every call has returned or sleeps, a pop still asleep sees
    an empty queue, and a push still asleep a full one. *)
Theorem sleepers_have_to_wait :
  let c := run sched (start q n) in
  Z.land (LockFreeQueue.producer_gate_ (shared c)) LockFreeQueue.closed_bit = 0 ->
  (∀ j p, threads c !! j = Some p -> parked p = true) ->
  ∀ w j p, threads c !! j = Some p -> asleep_on w p = true ->
  match w with
  | data_epoch => accepted c = taken c ++ discarded c
  | capacity_epoch => LockFreeQueue.occupied_count_ (shared c) = LockFreeQueue.capacity_ (shared c)
  end.
Proof.
  intros c Hopen Hpark w j p Hj Hs.
  pose proof (watched_run sched 0 _ ltac:(lia) ltac:(lia) (start_watched cap q n Hcap Hmake Hn Hfit)) as Hw.
  destruct Hw as [(r & free & queued & Hi) _ _ _ [Hc|Hr]].
  { exfalso. exact (open_gate _ _ _ _ LockFreeQueue.producer_gate Hi Hopen Hc). }
  pose proof (ready_asleep _ _ (Hr w) j p Hj Hs) as Hst. fold c in Hi, Hst.
  rewrite (parked_sum (token w (epoch w c))) in Hst by (intros i x Hx; by eapply parked_weights, Hpark).
  destruct w.
  - rewrite (stock_data _ _ _ _ Hi) in Hst. rewrite (inv_log _ _ _ _ Hi).
    destruct queued as [|x queued]; [by rewrite app_nil_r|]. rewrite zlength_cons in Hst.
    pose proof (zlength_nonneg queued). lia.
  - pose proof (stock_capacity _ _ _ _ Hi) as Hf. pose proof (stock_data _ _ _ _ Hi) as Hd.
    pose proof (occupied_range _ _ _ _ Hi). cbn in Hst, Hd, Hf.
    assert (sum_of slots_held (threads c) = 0) as H0.
    { apply parked_sum. intros i x Hx. unfold slots_held.
      by destruct (parked_weights data_epoch 0 x (Hpark _ _ Hx)) as (_ & -> & _). }
    lia.
Qed.

End started.

End waiting.

(** ** A consumer that sleeps, is woken by a push, and sleeps again *)

Definition one_push : list (choice Z) :=
  StartPop 0 true :: go 0 14 ++ StartPush 1 KindTry (inr 7) :: go 1 6 ++ [Go 1 false (Some 0%nat)] ++ go 1 1 ++
  go 0 10 ++ StartPop 0 true :: go 0 14.

Definition pushed_once : config Z := run one_push (start LockFreeQueue.two_free 2).

Lemma one_push_short : zlength one_push < 2 ^ 64.
Proof. by vm_compute. Qed.

Lemma two_fit : Z.of_nat 2 <= 2.
Proof. done. Qed.

Lemma pushed_once_open :
  Z.land (LockFreeQueue.producer_gate_ (shared (run one_push (start LockFreeQueue.two_free 2))))
    LockFreeQueue.closed_bit = 0.
Proof. by vm_compute. Qed.

Lemma pushed_once_parked j p :
  threads (run one_push (start LockFreeQueue.two_free 2)) !! j = Some p -> parked p = true.
Proof. destruct j as [|[|j]]; vm_compute; [by intros [= <-]..|done]. Qed.

Lemma pushed_once_sleeper :
  threads (run one_push (start LockFreeQueue.two_free 2)) !! 0%nat = Some (AsleepPop 1).
Proof. by vm_compute. Qed.

Lemma sleepers_have_to_wait_witness :
  accepted pushed_once = [7] /\ accepted pushed_once = taken pushed_once ++ discarded pushed_once.
Proof.
  split; [vm_compute; reflexivity|].
  exact (sleepers_have_to_wait 2 LockFreeQueue.two_free 2 one_push two_capacity two_make two_few two_fit
    one_push_short pushed_once_open pushed_once_parked data_epoch 0%nat (AsleepPop 1)
    pushed_once_sleeper eq_refl).
Defined.

End LockFreeWait.
