(* ===== verification/LockFreeStop.v ===== *)
(** * Stop requests on the lock-free queue

    [wait_push] and [wait_pop] register a callback with their stop token that
    raises the epoch they sleep on and wakes all its sleepers. This file
    shows that this suffices: once the callback of a call has run, the call
    is not asleep and never falls asleep again, closed queue or not. *)

From S2P Require Import Prelude Types QueueSpec LockFreeQueue LockFreeConc LockFreeWait.
Import PopResult LockFreeConc LockFreeWait.
Local Open Scope Z_scope.

Module LockFreeStop.

Section stops.
Context {E : Type}.
Implicit Types (c : config E) (p : pc E).

(** The epoch a waiting call waits on. *)
Definition mode_word (w : epoch_word) (md : mode) : option epoch_word :=
  match md with First | Again _ => Some w | Once | Polled _ => None end.
Definition call_word p : option epoch_word :=
  match p with
  | GateLoad (OpPush md _) | GateCas (OpPush md _) _ | Reserve md _ | FullLeave md _ =>
      mode_word capacity_epoch md
  | StopPush (Polled _) _ => None
  | StopPush _ _ | LoadCapacity _ | WaitCapacity _ _ | AsleepPush _ _ => Some capacity_epoch
  | GateLoad (OpPop md) | GateCas (OpPop md) _ | Take md | Quiesced md | MoveOut md _ _
  | Free md _ _ | FreeRaise md _ | FreeWake md _ | PopLeave md _ => mode_word data_epoch md
  | StopPop _ | LoadData | WaitData _ | AsleepPop _ => Some data_epoch
  | _ => None
  end.

(** The epoch a call compares with, past its second test of the token. *)
Definition compares (w : epoch_word) p : option Z :=
  match w, p with
  | data_epoch, (WaitData e | AsleepPop e) => Some e
  | capacity_epoch, (WaitCapacity _ e | AsleepPush _ e) => Some e
  | _, _ => None
  end.

(** A thread inside [close] or [close_and_discard]. *)
Definition closes_queue p : bool :=
  match p with
  | CloseLock _ | CloseOr _ | CloseWait _ | CloseQuiesce _ | CloseRaise _ | CloseWake _
  | CloseCapacity _ | CloseCapacityWake _ | DiscardOr | DiscardWait | DiscardTake _
  | DiscardDestroy _ _ _ | DiscardFree _ _ => true
  | _ => false
  end.

(** A step of thread [j] from [p] to [p']. *)
Record goes c (j : nat) p p' : Prop := mk_goes {
  goes_remembered : ∀ w, remembered w p' = remembered w p \/ remembered w p' = None \/
    remembered w p' = Some (epoch w c);
  goes_word : call_word p' = None \/ call_word p' = call_word p;
  goes_compares : ∀ w e, compares w p' = Some e ->
    compares w p = Some e \/ (stop_requested j c = false /\ remembered w p = Some e);
  goes_asleep : ∀ w, asleep_on w p' = true -> compares w p = Some (epoch w c);
  goes_closing : closes_queue p' = true -> closes_queue p = true;
}.

(** Some sleepers are woken. *)
Definition woken (ts ts' : list (pc E)) : Prop :=
  Forall2 (λ p p', p' = p \/ ∃ w, asleep_on w p = true /\ p' = wake p) ts ts'.

Lemma woken_refl (ts : list (pc E)) : woken ts ts.
Proof. apply Forall_Forall2_diag, Forall_forall. auto. Qed.

Lemma woken_insert (ts : list (pc E)) w k p :
  ts !! k = Some p -> asleep_on w p = true -> woken ts (<[k:=wake p]> ts).
Proof.
  intros Hk Hp. rewrite <- (list_insert_id ts k p Hk) at 1.
  apply Forall2_insert; [apply woken_refl|eauto].
Qed.

(** Thread [j] takes a step, and wakes sleepers in doing so. *)
Definition thread_step c (j : nat) p c' : Prop :=
  calls c' = calls c /\
  ∃ p' ts, woken (threads c) ts /\ threads c' = <[j:=p']> ts /\ goes c j p p'.

Lemma thread_goto c j p p' c' :
  calls c' = calls c -> threads c' = <[j:=p']> (threads c) -> goes c j p p' -> thread_step c j p c'.
Proof. intros ? ? ?. split; [done|]. exists p', (threads c). auto using woken_refl. Qed.

Lemma thread_notify c c0 j p p' w wk c' :
  calls c0 = calls c -> threads c0 = threads c ->
  notify j p' w wk c0 = Some c' -> goes c j p p' -> thread_step c j p c'.
Proof.
  unfold notify, notify_one. intros Hc Ht Hn Hg. rewrite Ht in Hn.
  destruct wk as [k|].
  - destruct (threads c !! k) as [x|] eqn:Hk; [|done].
    destruct (asleep_on w x) eqn:Hx; [|done]. injection Hn as <-. split; [done|].
    exists p', (<[k:=wake x]> (threads c)). split; [by eapply woken_insert|done].
  - destruct (existsb _ _); [done|]. injection Hn as <-.
    by apply (thread_goto _ _ _ p').
Qed.

Local Ltac weigh_steps := split; [intros []|..]; cbn; auto; try done; try (intros []; cbn; auto; done).

Local Ltac by_eqb := match goal with H : (_ =? _) = true |- _ => apply Z.eqb_eq in H; subst end.

Lemma goes_crash c j p f : goes c j p (Crashed f).
Proof. weigh_steps. Qed.

Lemma thread_call {A} c j p (m : M (LockFreeQueue.queue E) A) k :
  (∀ a q, thread_step c j p (k a (with_shared q c))) -> thread_step c j p (call j c m k).
Proof.
  intros Hk. unfold call. destruct (m (shared c)); [apply Hk|..];
    by eapply thread_goto; [..|apply goes_crash].
Qed.

Lemma thread_dequeue sp c j p none some :
  goes c j p none ->
  (∀ i e c1, calls c1 = calls c -> threads c1 = threads c -> thread_step c j p (some i e c1)) ->
  thread_step c j p (dequeue_published sp j c none some).
Proof.
  intros Hn Hs. unfold dequeue_published. destruct (misses sp c); [by eapply thread_goto|].
  apply thread_call. intros [i|] q; [|by eapply thread_goto].
  destruct (slot_event _ i); [by apply Hs|]. eapply thread_goto; [done..|]. apply goes_crash.
Qed.

Lemma guard_thread sp j p c c' : guard_step sp j p c = Some c' -> thread_step c j p c'.
Proof.
  destruct p; try discriminate; cbn [guard_step].
  - intros [= <-]. eapply thread_goto; [done..|]. destruct op; weigh_steps.
  - destruct (LockFreeQueue.guard_admits state) as [f|[state'|]].
    + intros [= <-]. eapply thread_goto; [done..|]. apply goes_crash.
    + destruct (_ && _); intros [= <-]; (eapply thread_goto; [done..|]); destruct op; weigh_steps.
    + intros [= <-]. eapply thread_goto; [done..|]. destruct op; weigh_steps.
Qed.

Lemma push_thread sp wk j p c c' : push_step sp wk j p c = Some c' -> thread_step c j p c'.
Proof.
  destruct p; try discriminate; cbn [push_step]; try (intros [= <-]).
  - destruct (misses sp c); [eapply thread_goto; [done..|]; weigh_steps|]. apply thread_call. intros o q. eapply thread_goto; [done..|]. destruct o; weigh_steps.
  - eapply thread_goto; [done..|]. destruct md as [| | |[]]; weigh_steps.
  - destruct (LockFreeQueue.construct_at _ _ _) as [? [q' []]|? [q' []]|f]; intros [= <-];
      (eapply thread_goto; [done..|]); [destruct event; weigh_steps|weigh_steps|apply goes_crash].
  - apply thread_call. intros o q. eapply thread_goto; [done..|]. weigh_steps.
  - apply thread_call. intros o q. eapply thread_goto; [done..|]. weigh_steps.
  - intros Hn. eapply thread_notify; [done..|]. weigh_steps.
  - apply thread_call. intros o q. eapply thread_goto; [done..|]. weigh_steps.
  - apply thread_call. intros o q. eapply thread_goto; [done..|]. weigh_steps.
  - intros Hn. eapply thread_notify; [done..|]. weigh_steps.
  - eapply thread_goto; [done..|]. weigh_steps.
Qed.

Lemma wait_push_thread j p c c' : wait_push_step j p c = Some c' -> thread_step c j p c'.
Proof.
  destruct p; try discriminate; cbn [wait_push_step]; intros [= <-]; (eapply thread_goto; [done..|]).
  - destruct (stop_requested j c) eqn:Hs; [weigh_steps|]. destruct md; weigh_steps.
  - weigh_steps.
  - case_match; [by_eqb|]; weigh_steps.
  - destruct (expired _); weigh_steps.
  - weigh_steps.
Qed.

Lemma wait_pop_thread j p c c' : wait_pop_step j p c = Some c' -> thread_step c j p c'.
Proof.
  destruct p; try discriminate; cbn [wait_pop_step]; intros [= <-]; (eapply thread_goto; [done..|]).
  - destruct (stop_requested j c) eqn:Hs; [weigh_steps|]. destruct md; weigh_steps.
  - weigh_steps.
  - case_match; [by_eqb|]; weigh_steps.
Qed.

Lemma pop_thread sp wk j p c c' : pop_step sp wk j p c = Some c' -> thread_step c j p c'.
Proof.
  destruct p; try discriminate; cbn [pop_step]; try (intros [= <-]).
  - apply thread_dequeue; [weigh_steps|]. intros i e c1 Hc Ht.
    eapply thread_goto; [done|cbn; by rewrite Ht|]. weigh_steps.
  - eapply thread_goto; [done..|]. weigh_steps.
  - apply thread_call. intros o q. eapply thread_goto; [done..|]. weigh_steps.
  - apply thread_call. intros o q. eapply thread_goto; [done..|]. weigh_steps.
  - apply thread_call. intros o q. eapply thread_goto; [done..|]. weigh_steps.
  - intros Hn. eapply thread_notify; [done..|]. weigh_steps.
  - eapply thread_goto; [done..|]. unfold after_pop. case_bool_decide; destruct md; weigh_steps.
Qed.

Lemma close_thread wk j p c c' : close_step wk j p c = Some c' -> thread_step c j p c'.
Proof.
  destruct p; try discriminate; cbn [close_step]; try (intros [= <-]).
  - destruct (close_mutex c); [done|]. intros [= <-]. eapply thread_goto; [done..|]. weigh_steps.
  - eapply thread_goto; [done..|]. weigh_steps.
  - destruct (_ =? 0); [|done]. intros [= <-]. eapply thread_goto; [done..|]. weigh_steps.
  - eapply thread_goto; [done..|]. weigh_steps.
  - apply thread_call. intros o q. eapply thread_goto; [done..|]. weigh_steps.
  - intros Hn. eapply thread_notify; [done..|]. weigh_steps.
  - apply thread_call. intros o q. eapply thread_goto; [done..|]. weigh_steps.
  - destruct k as [[]|n]; intros Hn; (eapply thread_notify; [| |exact Hn|]; [done..|]); weigh_steps.
Qed.

Lemma discard_thread sp j p c c' : discard_step sp j p c = Some c' -> thread_step c j p c'.
Proof.
  destruct p; try discriminate; cbn [discard_step]; try (intros [= <-]).
  - eapply thread_goto; [done..|]. weigh_steps.
  - destruct (_ =? 0); [|done]. intros [= <-]. eapply thread_goto; [done..|]. weigh_steps.
  - apply thread_dequeue; [weigh_steps|]. intros i e c1 Hc Ht.
    eapply thread_goto; [done|cbn; by rewrite Ht|]. weigh_steps.
  - apply thread_call. intros o q. eapply thread_goto; [done..|]. weigh_steps.
  - apply thread_call. intros o q. eapply thread_goto; [done..|]. weigh_steps.
Qed.

Lemma step_pc_thread sp wk j p c c' : step_pc sp wk j p c = Some c' -> thread_step c j p c'.
Proof.
  destruct p; try discriminate; cbn [step_pc];
    first [apply guard_thread|apply push_thread|apply wait_push_thread|apply pop_thread
      |apply wait_pop_thread|apply close_thread|apply discard_thread].
Qed.

(** ** The invariant *)

Definition called (t : stopping) : bool :=
  match t with StopWake | StopDone => true | Unstopped | StopRaise => false end.

(** Thread [j] at [p], with what surrounds its call. *)
Record heeds c p (s : surroundings) : Prop := mk_heeds {
  heeds_epochs : ∀ w e, remembered w p = Some e -> e <= epoch w c;
  heeds_word : call_word p = None \/ call_word p = callback s;
  heeds_raised : called (stop_token s) = true -> ∀ w e, compares w p = Some e -> e < epoch w c;
  heeds_woken : stop_token s = StopDone -> ∀ w, asleep_on w p = false;
  heeds_called : called (stop_token s) = true -> callback s ≠ None;
  heeds_closing : closes_queue p = true -> callback s = None;
}.

Definition heeded c : Prop := ∀ j p, threads c !! j = Some p -> heeds c p (surrounding j c).

Lemma compares_remembered w p e : compares w p = Some e -> remembered w p = Some e.
Proof. by destruct w, p. Qed.

Lemma asleep_compares w p : asleep_on w p = true -> ∃ e, compares w p = Some e.
Proof. destruct w, p; try done; eauto. Qed.

Lemma compares_word w p e : compares w p = Some e -> call_word p = Some w.
Proof. by destruct w, p. Qed.

(** Epochs only grow. *)
Lemma heeds_later c c' p s : (∀ w, epoch w c <= epoch w c') -> heeds c p s -> heeds c' p s.
Proof.
  intros He [H1 H2 H3 H4 H5 H6]. split; [|done| |done..].
  - intros w e Hp. specialize (H1 w e Hp). specialize (He w). lia.
  - intros Ht w e Hp. specialize (H3 Ht w e Hp). specialize (He w). lia.
Qed.

Lemma wake_recalls w w' p :
  asleep_on w p = true ->
  remembered w' (wake p) = remembered w' p /\ compares w' (wake p) = compares w' p /\
  call_word (wake p) = call_word p /\ asleep_on w' (wake p) = false /\
  closes_queue (wake p) = closes_queue p.
Proof. by destruct w, w', p. Qed.

Lemma heeds_wake c p s w : asleep_on w p = true -> heeds c p s -> heeds c (wake p) s.
Proof.
  intros Hw [H1 H2 H3 H4 H5 H6]. split.
  - intros w' e. destruct (wake_recalls w w' p Hw) as (-> & _). apply H1.
  - by destruct (wake_recalls w w p Hw) as (_ & _ & -> & _).
  - intros Ht w' e. destruct (wake_recalls w w' p Hw) as (_ & -> & _). by apply H3.
  - intros _ w'. by destruct (wake_recalls w w' p Hw) as (_ & _ & _ & -> & _).
  - done.
  - by destruct (wake_recalls w w p Hw) as (_ & _ & _ & _ & ->).
Qed.

Lemma heeds_goes c j p p' s :
  heeds c p s -> goes c j p p' -> s = surrounding j c -> heeds c p' s.
Proof.
  intros [H1 H2 H3 H4 H5 H6] [G1 G2 G3 G4 G5] ->. split.
  - intros w e Hp. destruct (G1 w) as [G|[G|G]]; rewrite G in Hp; [auto|done|].
    injection Hp as ->. lia.
  - destruct G2 as [G|G]; rewrite G; auto.
  - intros Ht w e Hp. destruct (G3 w e Hp) as [|[Hs _]]; [auto|].
    unfold stop_requested in Hs. by destruct (stop_token _).
  - intros Ht w. destruct (asleep_on w p') eqn:Ha; [|done].
    assert (called (stop_token (surrounding j c)) = true) as Hc by by rewrite Ht.
    specialize (H3 Hc w _ (G4 w Ha)). lia.
  - done.
  - auto.
Qed.

Lemma woken_heeds c ts j p :
  heeded c -> woken (threads c) ts -> ts !! j = Some p -> heeds c p (surrounding j c).
Proof.
  intros Hh Hw Hj. destruct (Forall2_lookup_r _ _ _ _ _ Hw Hj) as (p0 & Hp0 & [->|(w & Hp & ->)]);
    [by apply Hh|]. by eapply heeds_wake, Hh.
Qed.

Lemma thread_heeded c j p c' :
  heeded c -> threads c !! j = Some p -> thread_step c j p c' ->
  (∀ w, epoch w c <= epoch w c') -> heeded c'.
Proof.
  intros Hh Hj (Hc & p' & ts & Hw & Ht & Hg) He i x Hi. apply (heeds_later c); [done|].
  assert (surrounding i c' = surrounding i c) as -> by (unfold surrounding; by rewrite Hc).
  rewrite Ht in Hi. apply list_lookup_insert_Some in Hi as [(<- & <- & _)|[_ Hi]].
  - eapply heeds_goes; [by apply Hh|done..].
  - by eapply woken_heeds.
Qed.

(** A change of the surroundings of [j]'s call. *)
Lemma surrounding_alter f j i c :
  surrounding i (set_surrounding j f c) = surrounding i c \/
  (i = j /\ surrounding i (set_surrounding j f c) = f (surrounding i c)).
Proof.
  unfold surrounding. cbn. destruct (decide (i = j)) as [->|Hne].
  - rewrite list_lookup_alter_eq. destruct (calls c !! j); cbn; auto.
  - rewrite list_lookup_alter_ne by done. auto.
Qed.

Lemma begin_heeded j p w c c' :
  heeded c -> begin j p w c = Some c' -> (∀ w', remembered w' p = None) ->
  (∀ w', compares w' p = None) -> call_word p = None \/ call_word p = w ->
  (closes_queue p = true -> w = None) -> length (calls c) = length (threads c) -> heeded c'.
Proof.
  intros Hh (p0 & Hj & _ & _ & ->)%begin_begins Hr Hc Hw Hcl Hl i x Hi. cbn in Hi.
  assert (∀ w', asleep_on w' p = false) as Ha.
  { intros w'. destruct (asleep_on w' p) eqn:Ha; [|done].
    destruct (asleep_compares _ _ Ha) as [e He]. by rewrite Hc in He. }
  apply list_lookup_insert_Some in Hi as [(<- & <- & Hlt)|[Hne Hi]].
  - unfold surrounding. cbn. rewrite list_lookup_insert_eq by lia. cbn.
    split; cbn; [intros w' e; by rewrite Hr|done..].
  - unfold surrounding. cbn. rewrite list_lookup_insert_ne by done.
    by apply (heeds_later c), Hh.
Qed.

Lemma reset_heeds c p s s' :
  heeds c p s -> callback s' = callback s ->
  (called (stop_token s') = true -> callback s ≠ None /\ ∀ w e, compares w p = Some e -> e < epoch w c) ->
  (stop_token s' = StopDone -> ∀ w, asleep_on w p = false) -> heeds c p s'.
Proof.
  intros [H1 H2 H3 H4 H5 H6] Hc Hr Hd. split; rewrite ?Hc; try done; intros Ht; by destruct (Hr Ht).
Qed.

(** Raising the epoch of the callback. *)
Lemma raise_heeded w j c :
  heeded c -> (∀ w, 0 <= epoch w c < 2 ^ 64 - 1) -> callback (surrounding j c) = Some w ->
  heeded (set_surrounding j (set_token StopWake) (with_shared (raise w (shared c)) c)).
Proof.
  intros Hh Hu Hcb i x Hi. set (c1 := with_shared (raise w (shared c)) c).
  assert (epoch w c1 = epoch w c + 1 /\ ∀ w', epoch w' c <= epoch w' c1) as [Hw He].
  { pose proof (Hu w). subst c1. clear -H. destruct c as [[]], w; cbn in *; rewrite u64_small by lia.
    - split; [done|]. intros []; cbn; lia.
    - split; [done|]. intros []; cbn; lia. }
  specialize (Hh _ _ Hi). apply (heeds_later c1 _); [intros []; cbn; lia|].
  pose proof Hh as [H1 H2 _ _ _ _]. apply (heeds_later c c1) in Hh; [|done].
  destruct (surrounding_alter (set_token StopWake) j i c1) as [->|[-> ->]]; [done|].
  change (surrounding j c1) with (surrounding j c) in *.
  apply (reset_heeds c1 x (surrounding j c)); [done|done| |done]. intros _. split; [congruence|].
  intros w' e Hx. destruct H2 as [H2|H2]; rewrite (compares_word w' x e Hx) in H2; [done|].
  assert (w' = w) as -> by congruence. specialize (H1 w e (compares_remembered _ _ _ Hx)). lia.
Qed.

(** Waking all its sleepers. *)
Lemma notify_heeded w j c :
  heeded c -> stop_token (surrounding j c) = StopWake -> callback (surrounding j c) = Some w ->
  heeded (set_surrounding j (set_token StopDone) (with_threads (notify_all w (threads c)) c)).
Proof.
  intros Hh Hs Hcb i x Hi. set (c1 := with_threads (notify_all w (threads c)) c).
  apply (heeds_later c); [by intros []|].
  assert (heeds c x (surrounding i c)) as Hx by (eapply woken_heeds; [done|apply (notify_all_woken w)|exact Hi]).
  destruct (surrounding_alter (set_token StopDone) j i c1) as [->|[-> ->]]; [done|].
  change (surrounding j c1) with (surrounding j c) in *.
  apply (reset_heeds c x (surrounding j c)); [done|done|..].
  - intros _. split; [congruence|]. apply Hx. by rewrite Hs.
  - intros _ w'. destruct (asleep_on w' x) eqn:Ha; [|done].
    destruct (asleep_compares _ _ Ha) as [e He]. apply compares_word in He.
    destruct (heeds_word _ _ _ Hx) as [Hw|Hw]; [congruence|].
    assert (w' = w) as -> by congruence.
    apply notify_all_lookup in Hi as (x0 & _ & ->).
    destruct (asleep_on w x0) eqn:Hx0; [|congruence].
    destruct (wake_recalls w w x0 Hx0) as (_ & _ & _ & H & _). congruence.
Qed.

(** After at most [t] steps. *)
Record attended (t : Z) c : Prop := mk_attended {
  attended_inv : inv c;
  attended_epochs : ∀ w, 0 <= epoch w c <= t;
  attended_calls : length (calls c) = length (threads c);
  attended_heeded : heeded c;
}.

Lemma thread_step_length c j p c' :
  thread_step c j p c' -> length (calls c) = length (threads c) -> length (calls c') = length (threads c').
Proof.
  intros (-> & p' & ts & Hw & -> & _). rewrite length_insert.
  by rewrite <- (Forall2_length _ _ _ Hw).
Qed.

Lemma set_surrounding_heeded j f c :
  heeded c -> (∀ p, threads c !! j = Some p -> heeds c p (f (surrounding j c))) ->
  heeded (set_surrounding j f c).
Proof.
  intros Hh Hf i x Hi. apply (heeds_later c); [by intros []|].
  destruct (surrounding_alter f j i c) as [->|[-> ->]]; [by apply Hh|by apply Hf].
Qed.

Lemma attended_step t ch c c' :
  t < 2 ^ 64 - 1 -> attended t c -> step ch c = Some c' -> attended (t + 1) c'.
Proof.
  intros Ht [Hi He Hl Hh] Hst.
  assert (∀ w, 0 <= epoch w c < 2 ^ 64 - 1) as Hu by (intros w; specialize (He w); lia).
  assert (∀ w, epoch w c <= epoch w c' <= epoch w c + 1) as Hep
    by (intros w; by apply (step_epoch ch)).
  assert (length (calls c') = length (threads c') /\ heeded c') as [Hl' Hh'].
  2:{ split; [by eapply lock_free_step_inv| |done..]. intros w. specialize (He w). specialize (Hep w). lia. }
  destruct ch as [j sp wk|j kind event|j waits|j d|j|j|j|j]; cbn [step] in Hst.
  - destruct (threads c !! j) as [p|] eqn:Hj; [|done]. apply step_pc_thread in Hst.
    split; [by eapply thread_step_length|]. eapply thread_heeded; [done..|]. intros w. apply Hep.
  - split; [|destruct kind; (eapply begin_heeded; [exact Hh|exact Hst|by intros []|by intros []|cbn; auto|done|exact Hl])].
    apply begin_begins in Hst as (p0 & _ & _ & _ & ->). cbn. by rewrite !length_insert.
  - split; [|destruct waits; (eapply begin_heeded; [exact Hh|exact Hst|by intros []|by intros []|cbn; auto|done|exact Hl])].
    apply begin_begins in Hst as (p0 & _ & _ & _ & ->). cbn. by rewrite !length_insert.
  - split; [|(eapply begin_heeded; [exact Hh|exact Hst|by intros []|by intros []|cbn; auto|done|exact Hl])].
    apply begin_begins in Hst as (p0 & _ & _ & _ & ->). cbn. by rewrite !length_insert.
  - destruct (threads c !! j) as [p|] eqn:Hj; [|done]. destruct (_ || _) eqn:Hp; [|done].
    injection Hst as <-. cbn. rewrite length_insert. split; [done|]. intros i x Hx.
    apply (heeds_later c); [by intros []|]. cbn in Hx.
    apply list_lookup_insert_Some in Hx as [(<- & <- & _)|[_ Hx]]; [|by apply Hh].
    apply orb_true_iff in Hp as [Hp|Hp]; eapply heeds_wake; eauto.
  - destruct (stop_token (surrounding j c)) eqn:Hs; try done. injection Hst as <-.
    cbn. rewrite length_alter. split; [done|]. apply set_surrounding_heeded; [done|].
    intros p Hj. by apply (reset_heeds c p (surrounding j c)); [apply Hh|..].
  - unfold stop_callback in Hst. destruct (threads c !! j) as [p|] eqn:Hj; [|done].
    destruct (stop_token (surrounding j c)) eqn:Hs, (callback (surrounding j c)) as [w|] eqn:Hc; try done.
    + destruct (at_rest p); [done|]. injection Hst as <-. cbn. rewrite length_alter.
      split; [done|]. by apply raise_heeded.
    + injection Hst as <-. cbn. rewrite length_alter. unfold notify_all. rewrite length_fmap.
      split; [done|]. by apply notify_heeded.
  - injection Hst as <-. cbn. rewrite length_alter. split; [done|].
    apply set_surrounding_heeded; [done|]. intros p Hj.
    pose proof (Hh _ _ Hj) as []. by apply (reset_heeds c p (surrounding j c)); auto.
Qed.

Lemma attended_run sched : ∀ t c,
  0 <= t -> t + zlength sched < 2 ^ 64 -> attended t c -> attended (t + zlength sched) (run sched c).
Proof.
  induction sched as [|ch sched IH]; intros t c H0 Ht Hw; [by zlen_nil; rewrite Z.add_0_r|].
  rewrite zlength_cons in *. pose proof (zlength_nonneg sched). cbn [run].
  replace (t + (zlength sched + 1)) with ((t + 1) + zlength sched) by lia.
  apply IH; [lia..|]. destruct (step ch c) as [c'|] eqn:Hst; cbn.
  - apply (attended_step t ch c); [lia|done..].
  - destruct Hw as [? He ? ?]. split; try done. intros w. specialize (He w). lia.
Qed.

Lemma start_attended cap q n :
  0 <= cap <= 2 ^ 58 -> LockFreeQueue.make cap = inr q -> Z.of_nat n < few -> attended 0 (start q n).
Proof.
  intros Hcap Hq Hn. destruct (lock_free_start_inv cap q n Hcap Hq Hn) as [Hi _].
  split; [done|intros w; by rewrite (start_epochs cap)| |].
  - cbn. by rewrite !length_replicate.
  - intros j p Hj. cbn in Hj. apply lookup_replicate in Hj as [-> Hj].
    assert (surrounding j (start q n) = unattended) as ->.
    { unfold surrounding, start. cbn. destruct (replicate n unattended !! j) eqn:Hx; [|done].
      by apply lookup_replicate in Hx as [-> _]. }
    split; first [done|by left|by intros []].
Qed.

(** ** A stopped call comes back *)

(** Steps a call has left once it has been stopped, a failed exchange of a
    gate word apart. *)
Definition steps_left p : Z :=
  match p with
  | StopPop _ | StopPush _ _ => 1
  | PopLeave _ _ | FullLeave _ _ | PushLeave _ => 2
  | Quiesced _ | FreeWake _ _ | PushWake | GiveBackWake _ => 3
  | FreeRaise _ _ | PushRaise | GiveBackRaise _ => 4
  | Free _ _ _ | Publish _ _ | GiveBack _ _ => 5
  | MoveOut _ _ _ | Construct _ _ => 6
  | Take _ | Reserve _ _ => 7
  | GateCas _ _ => 8
  | GateLoad _ => 9
  | LoadData | LoadCapacity _ | WaitData _ | WaitCapacity _ _ | PollWait _ => 10
  | PollClock _ => 11
  | _ => 0
  end.

Lemma steps_left_bound p : 0 <= steps_left p <= 11.
Proof. by destruct p. Qed.

Lemma notify_one_enabled w (ts : list (pc E)) : ∃ wk ts', notify_one w wk ts = Some ts'.
Proof.
  destruct (existsb (asleep_on w) ts) eqn:He.
  - apply existsb_exists in He as (x & [k Hk]%list_elem_of_In%list_elem_of_lookup & Hx).
    exists (Some k), (<[k:=wake x]> ts). unfold notify_one. by rewrite Hk, Hx.
  - exists None, ts. unfold notify_one. by rewrite He.
Qed.

Lemma notify_enabled j p w c : ∃ wk c', notify j p w wk c = Some c'.
Proof.
  destruct (notify_one_enabled w (threads c)) as (wk & ts & Hn). exists wk. unfold notify.
  rewrite Hn. eauto.
Qed.

(** A call under way can step, unless it sleeps or belongs to [close]. *)
Lemma step_pc_enabled j p c :
  (∀ f, p ≠ Crashed f) -> at_rest p = false -> (∀ w, asleep_on w p = false) ->
  closes_queue p = false -> ∃ wk c', step_pc false wk j p c = Some c'.
Proof.
  intros Hf Hr Ha Hc. pose proof (Ha data_epoch). pose proof (Ha capacity_epoch).
  destruct p; try discriminate; try (by exists None; eexists);
    try (cbn [step_pc push_step pop_step]; apply notify_enabled); try (by destruct (Hf f)).
  - exists None. cbn. destruct (LockFreeQueue.guard_admits state) as [|[]]; [eauto| |eauto].
    destruct (_ =? _); eauto.
  - exists None. cbn [step_pc push_step].
    destruct (LockFreeQueue.construct_at _ _ _) as [? []|? []|]; eauto.
Qed.

(** Thread [j], at [p] before, is done or closer to it. *)
Definition nearer p p' : Prop :=
  (∃ f, p' = Crashed f) \/ at_rest p' = true \/ steps_left p' < steps_left p \/
  ∃ op s s', p = GateCas op s /\ p' = GateCas op s'.
Definition nears (j : nat) p c' : Prop := ∃ p', threads c' !! j = Some p' /\ nearer p p'.

Section stopped.
Context c (j : nat) p (Hj : threads c !! j = Some p).

Lemma nears_goto p' c0 c' :
  threads c0 = threads c -> threads c' = <[j:=p']> (threads c0) -> nearer p p' -> nears j p c'.
Proof.
  intros H0 H1 Hn. exists p'. split; [|done]. rewrite H1, H0.
  by apply list_lookup_insert_eq, (lookup_lt_Some _ _ _ Hj).
Qed.

Lemma nears_call {A} (m : M (LockFreeQueue.queue E) A) k :
  (∀ a c1, threads c1 = threads c -> nears j p (k a c1)) -> nears j p (call j c m k).
Proof.
  intros Hk. unfold call. destruct (m (shared c)); [by apply Hk|..];
    (eapply nears_goto; [done..|]); left; eauto.
Qed.

Lemma nears_notify p' w wk c' :
  notify j p' w wk c = Some c' -> asleep_on w p = false -> nearer p p' -> nears j p c'.
Proof.
  unfold notify, notify_one. intros Hn Hp Hd. exists p'. split; [|done].
  pose proof (lookup_lt_Some _ _ _ Hj). destruct wk as [k|].
  - destruct (threads c !! k) as [x|]; [|done]. destruct (asleep_on w x); [|done].
    injection Hn as <-. cbn. apply list_lookup_insert_eq. by rewrite length_insert.
  - destruct (existsb _ _); [done|]. injection Hn as <-. by apply list_lookup_insert_eq.
Qed.

Lemma nears_dequeue sp none some :
  nearer p none -> (∀ i e c1, threads c1 = threads c -> nears j p (some i e c1)) ->
  nears j p (dequeue_published sp j c none some).
Proof.
  intros Hn Hs. unfold dequeue_published. destruct (misses sp c); [by eapply nears_goto|]. apply nears_call. intros [i|] c1 H1; [|by eapply nears_goto].
  destruct (slot_event _ i); [by apply Hs|]. eapply nears_goto; [done..|]. left. eauto.
Qed.

End stopped.

Local Ltac closer Hj := (eapply (nears_goto _ _ _ Hj); [done..|]); unfold nearer; cbn; auto with lia.

Lemma step_pc_nears c j p sp wk c' :
  threads c !! j = Some p -> stop_requested j c = true -> closes_queue p = false ->
  (∀ w e, compares w p = Some e -> e ≠ epoch w c) ->
  step_pc sp wk j p c = Some c' -> nears j p c'.
Proof.
  intros Hj Hstop Hcl Hcmp. destruct p; try discriminate;
    cbn [step_pc guard_step push_step wait_push_step pop_step wait_pop_step]; rewrite ?Hstop;
    try (intros [= <-]); try (by closer Hj);
    try (by apply (nears_call _ _ _ Hj); intros; closer Hj);
    try (by intros Hn; eapply (nears_notify _ _ _ Hj); [done..|]; unfold nearer; cbn; auto with lia).
  - destruct (LockFreeQueue.guard_admits state) as [f|[]].
    + intros [= <-]. closer Hj.
    + destruct (_ && _); intros [= <-].
      * closer Hj. right; right; left. by destruct op.
      * eapply (nears_goto _ _ _ Hj); [done..|]. right; right; right. eauto.
    + intros [= <-]. closer Hj. right; left. by destruct op.
  - destruct (misses sp c); [closer Hj|]. apply (nears_call _ _ _ Hj). intros [i|] c1 H1; closer Hj.
  - closer Hj. destruct md as [| | |[]]; cbn; auto with lia.
  - destruct (LockFreeQueue.construct_at _ _ _) as [? []|? []|]; intros [= <-]; closer Hj; eauto.
    destruct event; cbn; eauto with lia.
  - specialize (Hcmp capacity_epoch _ eq_refl). cbn in Hcmp.
    destruct (Z.eqb_spec (LockFreeQueue.capacity_epoch_ (shared c)) epoch0); [done|]. closer Hj.
  - destruct (expired _); closer Hj.
  - apply (nears_dequeue _ _ _ Hj); [unfold nearer; cbn; auto with lia|].
    intros i e c1 H1. eapply (nears_goto _ _ _ Hj); [exact H1|cbn; done|]. unfold nearer. cbn. auto with lia.
  - closer Hj. unfold after_pop. case_bool_decide; [destruct md|]; cbn; auto with lia.
  - specialize (Hcmp data_epoch _ eq_refl). cbn in Hcmp.
    destruct (Z.eqb_spec (LockFreeQueue.data_epoch_ (shared c)) epoch0); [done|]. closer Hj.
Qed.

Section started.
Context (cap : Z) (q : LockFreeQueue.queue E) (n : nat) (sched : list (choice E)).
Context (Hcap : 0 <= cap <= 2 ^ 58) (Hmake : LockFreeQueue.make cap = inr q).
Context (Hn : Z.of_nat n < few) (Hsched : zlength sched < 2 ^ 64).

(** C8: a stop request brings a waiting call back, on a closed queue too:
    once the callback of the call's token has run, the call is not asleep,
    can take a step whatever the other threads do, and each of its steps ends
    it or brings it closer to its end, except for a failed exchange of a gate
    word. *)
Theorem stopped_calls_return :
  let c := run sched (start q n) in
  ∀ j p, threads c !! j = Some p -> stop_token (surrounding j c) = StopDone ->
  at_rest p = false ->
  (∀ w, asleep_on w p = false) /\
  (∃ wk c', step (Go j false wk) c = Some c') /\
  ∀ sp wk c', step (Go j sp wk) c = Some c' ->
    ∃ p', threads c' !! j = Some p' /\
      (at_rest p' = true \/ steps_left p' < steps_left p <= 11 \/
       ∃ op s s', p = GateCas op s /\ p' = GateCas op s').
Proof.
  intros c j p Hj Hs Hr.
  pose proof (attended_run sched 0 _ ltac:(lia) ltac:(lia) (start_attended cap q n Hcap Hmake Hn)) as Ha.
  fold c in Ha. destruct Ha as [Hi _ _ Hh].
  destruct (Hh _ _ Hj) as [_ _ H3 H4 H5 H6]. rewrite Hs in H3, H5.
  assert (closes_queue p = false) as Hc by (destruct (closes_queue p); [by destruct (H5 eq_refl (H6 eq_refl))|done]).
  assert (∀ f, p ≠ Crashed f) as Hf by (intros f ->; by eapply no_crash).
  split; [by apply H4|]. cbn [step]. rewrite Hj. split; [by apply step_pc_enabled; auto|].
  intros sp wk c' Hst. destruct (step_pc_nears c j p sp wk c') as (p' & Hp' & Hn'); try done.
  - unfold stop_requested. by rewrite Hs.
  - intros w e He. specialize (H3 eq_refl w e He). lia.
  - exists p'. split; [done|]. pose proof (steps_left_bound p).
    destruct Hn' as [[f ->]|[?|[?|?]]]; [|auto with lia..].
    destruct (no_crash c' j f); [|done]. by eapply (step_pc_inv sp wk j p).
Qed.

End started.

End stops.

(** ** A stopped consumer *)

(** A consumer sleeps; its token is stopped and the callback runs. *)
Definition stop_a_pop : list (choice Z) :=
  StartPop 0 true :: go 0 14 ++ [RequestStop 0; StopCallback 0; StopCallback 0].

Definition stopped_pop : config Z := run stop_a_pop (start LockFreeQueue.two_free 1).

Lemma stop_a_pop_short : zlength stop_a_pop < 2 ^ 64.
Proof. by vm_compute. Qed.

Lemma one_few : Z.of_nat 1 < few.
Proof. done. Qed.

Lemma stopped_pop_thread :
  threads (run stop_a_pop (start LockFreeQueue.two_free 1)) !! 0%nat = Some (WaitData 0).
Proof. by vm_compute. Qed.

Lemma stopped_pop_token :
  stop_token (surrounding 0 (run stop_a_pop (start LockFreeQueue.two_free 1))) = StopDone.
Proof. by vm_compute. Qed.

Lemma stopped_calls_return_witness :
  threads (run (go 0 7) stopped_pop) !! 0%nat = Some (Finished (Popped make_stopped)) /\
  ∃ wk c', step (Go 0 false wk) stopped_pop = Some c'.
Proof.
  split; [vm_compute; reflexivity|].
  exact (proj1 (proj2 (stopped_calls_return 2 LockFreeQueue.two_free 1 stop_a_pop two_capacity two_make
    one_few stop_a_pop_short 0%nat (WaitData 0) stopped_pop_thread stopped_pop_token eq_refl))).
Defined.

End LockFreeStop.
