(* ===== verification/LockFreeCalls.v ===== *)
(** * What a call of the lock-free queue contributes

    A client that runs one call per thread of [LockFreeConc] wants to know
    what its call does to the events of the queue, whatever the other
    threads do meanwhile. A push adds its event to the accepted ones at most
    once, and its outcome says whether; a pop carries the event it dequeued
    until it returns it; [close_and_discard] counts the events it discards. *)

From S2P Require Import Prelude Types QueueSpec LockFreeQueue LockFreeConc LockFreeWait LockFreeStop.
Import PopResult LockFreeConc LockFreeWait LockFreeStop.
Local Open Scope Z_scope.

Module LockFreeCalls.

Section calls.
Context {E : Type}.
Implicit Types (c : config E) (p : pc E).

(** The call a thread is in, or has returned from. *)
Inductive call : Type := PushCall | PopCall | CloseCall (discards : bool).

Definition call_of p : option call :=
  match p with
  | GateLoad (OpPush _ _) | GateCas (OpPush _ _) _ | Reserve _ _ | FullLeave _ _ | Construct _ _
  | GiveBack _ _ | GiveBackRaise _ | GiveBackWake _ | Publish _ _ | PushRaise | PushWake
  | PushLeave _ | StopPush _ _ | LoadCapacity _ | WaitCapacity _ _ | AsleepPush _ _ | PollClock _
  | PollWait _ | Finished (Pushed _ | PushThrew _) => Some PushCall
  | GateLoad (OpPop _) | GateCas (OpPop _) _ | Take _ | Quiesced _ | MoveOut _ _ _ | Free _ _ _
  | FreeRaise _ _ | FreeWake _ _ | PopLeave _ _ | StopPop _ | LoadData | WaitData _ | AsleepPop _
  | Finished (Popped _) => Some PopCall
  | CloseLock d | CloseOr d | CloseWait d | CloseQuiesce d | CloseRaise (AfterProducers d)
  | CloseWake (AfterProducers d) | CloseCapacity (AfterProducers d)
  | CloseCapacityWake (AfterProducers d) => Some (CloseCall d)
  | CloseRaise (AfterDiscard _) | CloseWake (AfterDiscard _) | CloseCapacity (AfterDiscard _)
  | CloseCapacityWake (AfterDiscard _) | DiscardOr | DiscardWait | DiscardTake _
  | DiscardDestroy _ _ _ | DiscardFree _ _ | Finished (Discarded _) => Some (CloseCall true)
  | Finished Closed => Some (CloseCall false)
  | Idle | Crashed _ => None
  end.

Definition event_of (r : pop_result E) : list E :=
  match r with mk_pop_result success (Some e) => [e] | _ => [] end.

(** The event a pop has dequeued, until the caller has it. *)
Definition in_pipe p : list E :=
  match p with
  | MoveOut _ _ e | Free _ _ e | FreeRaise _ e | FreeWake _ e => [e]
  | PopLeave _ r | Finished (Popped r) => event_of r
  | _ => []
  end.

(** Whether a push has published its event. *)
Definition landed p : Z :=
  match p with
  | PushRaise | PushWake => 1
  | PushLeave (Pushed success) | Finished (Pushed success) => 1
  | _ => 0
  end.

(** The events [close_and_discard] has discarded. *)
Definition tally p : Z :=
  match p with
  | DiscardTake n | CloseRaise (AfterDiscard n) | CloseWake (AfterDiscard n)
  | CloseCapacity (AfterDiscard n) | CloseCapacityWake (AfterDiscard n) | Finished (Discarded n) => n
  | DiscardDestroy _ _ n | DiscardFree _ n => u64 (n + 1)
  | _ => 0
  end.

(** The step of thread [j] from [p] to [p']. *)
Record contributes c p c' p' : Prop := mk_contributes {
  con_call : call_of p' = call_of p;
  con_taken : (taken c' = taken c /\ in_pipe p' = in_pipe p) \/
    (∃ e, taken c' = taken c ++ [e] /\ in_pipe p = [] /\ in_pipe p' = [e] /\ call_of p = Some PopCall);
  con_accepted : (accepted c' = accepted c /\ landed p' = landed p) \/
    (∃ e, accepted c' = accepted c ++ [e] /\ landed p = 0 /\ landed p' = 1 /\ call_of p = Some PushCall);
  con_discarded : (discarded c' = discarded c /\ tally p' = tally p) \/
    (∃ e, discarded c' = discarded c ++ [e] /\ tally p' = u64 (tally p + 1) /\
       call_of p = Some (CloseCall true));
}.

Definition contribution c (j : nat) p c' : Prop :=
  ∃ p' ts, woken (threads c) ts /\ threads c' = <[j:=p']> ts /\
    ((∃ f, p' = Crashed f) \/ contributes c p c' p').

(** A step that records nothing. *)
Definition same_logs c c' : Prop :=
  taken c' = taken c /\ accepted c' = accepted c /\ discarded c' = discarded c.
Definition alike p p' : Prop :=
  call_of p' = call_of p /\ in_pipe p' = in_pipe p /\ landed p' = landed p /\ tally p' = tally p.

Lemma alike_contributes c c' p p' : same_logs c c' -> alike p p' -> contributes c p c' p'.
Proof. intros (? & ? & ?) (? & ? & ? & ?). split; auto. Qed.

Lemma contribution_goto c j p p' c' :
  threads c' = <[j:=p']> (threads c) -> same_logs c c' -> alike p p' -> contribution c j p c'.
Proof.
  intros Ht Hl Ha. exists p', (threads c). split; [apply woken_refl|]. split; [done|].
  right. by apply alike_contributes.
Qed.

Lemma contribution_crash c j p c' f : threads c' = <[j:=Crashed f]> (threads c) -> contribution c j p c'.
Proof. intros Ht. exists (Crashed f), (threads c). eauto using woken_refl. Qed.

Lemma contribution_call {A} c j p (m : M (LockFreeQueue.queue E) A) k :
  (∀ a q, m (shared c) = Ret a q -> contribution c j p (k a (with_shared q c))) ->
  contribution c j p (LockFreeConc.call j c m k).
Proof.
  intros Hk. unfold LockFreeConc.call. destruct (m (shared c)); [by apply Hk|..];
    by eapply contribution_crash.
Qed.

Lemma contribution_notify c c0 j p p' w wk c' :
  threads c0 = threads c -> same_logs c c0 -> notify j p' w wk c0 = Some c' -> alike p p' ->
  contribution c j p c'.
Proof.
  unfold notify, notify_one. intros Ht Hl Hn Ha. rewrite Ht in Hn.
  destruct wk as [k|].
  - destruct (threads c !! k) as [x|] eqn:Hk; [|done].
    destruct (asleep_on w x) eqn:Hx; [|done]. injection Hn as <-.
    exists p', (<[k:=wake x]> (threads c)). split; [by eapply woken_insert|]. split; [done|].
    right. by apply alike_contributes.
  - destruct (existsb _ _); [done|]. injection Hn as <-. by apply (contribution_goto _ _ _ p').
Qed.

Lemma contribution_dequeue sp c j p none some :
  alike p none ->
  (∀ i e c1, threads c1 = threads c -> same_logs c c1 -> contribution c j p (some i e c1)) ->
  contribution c j p (dequeue_published sp j c none some).
Proof.
  intros Hn Hs. unfold dequeue_published. destruct (misses sp c); [by eapply contribution_goto|]. apply contribution_call. intros [i|] q _; [|by eapply contribution_goto].
  destruct (slot_event _ i); [by apply Hs|by eapply contribution_crash].
Qed.

Local Ltac plain := (eapply contribution_goto; [done..|]); split_and!; cbn; auto.

Lemma step_pc_contribution sp wk j p c c' :
  inv c -> threads c !! j = Some p -> step_pc sp wk j p c = Some c' -> contribution c j p c'.
Proof.
  intros (r & free & queued & Hi) Hj. destruct p; try discriminate;
    cbn [step_pc guard_step push_step wait_push_step pop_step wait_pop_step close_step discard_step];
    try (intros [= <-]); try (by plain);
    try (by apply contribution_call; intros; plain);
    try (by intros Hn; eapply contribution_notify; [..|exact Hn|]; [done..|]; split_and!; cbn; auto);
    try (by case_match; [|done]; intros [= <-]; plain);
    try (by case_match; [done|]; intros [= <-]; plain).
  - destruct (LockFreeQueue.guard_admits state) as [f|[]].
    + intros [= <-]. by eapply contribution_crash.
    + destruct (_ && _); intros [= <-]; destruct op; plain.
    + intros [= <-]. destruct op; plain.
  - destruct (misses sp c); [plain|]. apply contribution_call. intros [i|] q _; plain.
  - destruct md as [| | |[]]; plain.
  - destruct (LockFreeQueue.construct_at _ _ _) as [? []|? []|]; intros [= <-];
      [destruct event|..]; first [by plain|by eapply contribution_crash].
  - apply contribution_call. intros [] q _. exists PushRaise, (threads c).
    split; [apply woken_refl|]. split; [done|]. right. split; cbn; auto.
    right. exists event. auto.
  - pose proof (inv_pcs _ _ _ _ Hi _ _ Hj) as Ho. destruct o; try done; plain.
  - destruct (stop_requested j c); [plain|]. destruct md; plain.
  - case_match; plain.
  - case_match; plain.
  - apply contribution_dequeue; [split_and!; done|]. intros i e c1 Ht (H1 & H2 & H3).
    exists (MoveOut md i e), (threads c). split; [apply woken_refl|]. split; [cbn; by rewrite Ht|].
    right. split; cbn; auto. right. exists e. rewrite H1. auto.
  - case_match; plain.
  - unfold LockFreeConc.call. rewrite (empty_slot_eq _ _ _ _ _ _ _ _ Hi Hj eq_refl). plain.
  - unfold after_pop. case_bool_decide as Hr; [|plain].
    destruct r0 as [st v]. cbn in Hr. subst st. destruct md; plain.
  - destruct (stop_requested j c); [plain|]. destruct md; plain.
  - case_match; plain.
  - destruct k as [[]|n]; intros Hn; (eapply contribution_notify; [..|exact Hn|]; [done..|]);
      split_and!; cbn; auto.
  - apply contribution_dequeue; [split_and!; done|]. intros i e c1 Ht (H1 & H2 & H3).
    exists (DiscardDestroy i e n), (threads c). split; [apply woken_refl|]. split; [cbn; by rewrite Ht|].
    right. split; cbn; auto. right. exists e. rewrite H3. auto.
Qed.

(** ** A step of the queue, for a client *)

(** Nothing is left in the queue. *)
Definition drained c : Prop := accepted c = taken c ++ discarded c.

(** A pop that has found nothing and is to ask whether the queue is closed,
    or that ends because of that or of its token. *)
Definition told p : bool :=
  match p with
  | Quiesced _ => true
  | PopLeave _ r | Finished (Popped r) => bool_decide (status r = closed \/ status r = stopped)
  | _ => false
  end.

Definition closes_consumers p : Prop := call_of p = Some (CloseCall true).

(** A step inside the call of thread [j], or one of no thread's program. *)
Inductive queue_step c c' : Prop :=
  | step_inside j p p' ts
      (step_before : threads c !! j = Some p) (step_woken : woken (threads c) ts)
      (step_after : threads c' = <[j:=p']> ts) (step_contributes : contributes c p c' p')
      (step_running : at_rest p = false)
      (step_told : ~ closing_gate LockFreeQueue.consumer_gate (shared c) ->
         told p' = true -> told p = true \/ (crowded c = false -> drained c') \/ stop_requested j c = true)
      (step_closes : closing_gate LockFreeQueue.consumer_gate (shared c') ->
         closing_gate LockFreeQueue.consumer_gate (shared c) \/ closes_consumers p)
  | step_outside
      (step_woken : woken (threads c) (threads c')) (step_logs : same_logs c c')
      (step_closes : closing_gate LockFreeQueue.consumer_gate (shared c') ->
         closing_gate LockFreeQueue.consumer_gate (shared c)).

Lemma wake_alike w p :
  asleep_on w p = true ->
  alike p (wake p) /\ told (wake p) = told p /\ at_rest (wake p) = at_rest p.
Proof. by destruct w, p. Qed.

(** What a client sees of a thread survives a wake-up. *)
Lemma woken_alike (ts ts' : list (pc E)) j p' :
  woken ts ts' -> ts' !! j = Some p' ->
  ∃ p, ts !! j = Some p /\ alike p p' /\ told p' = told p /\ at_rest p' = at_rest p.
Proof.
  intros Hw Hj. destruct (Forall2_lookup_r _ _ _ _ _ Hw Hj) as (p & Hp & [->|(w & Ha & ->)]);
    exists p; (split; [done|]); [by repeat split|by apply (wake_alike w)].
Qed.

Lemma drained_queued r c free queued : inv_with r c free queued -> drained c <-> queued = [].
Proof.
  intros Hi. unfold drained. rewrite (inv_log _ _ _ _ Hi). split; [|by intros ->; rewrite app_nil_r].
  intros H. assert (queued.*2 = []) as Hq; [|by apply fmap_nil_inv in Hq].
  rewrite (assoc_L (++)) in H. by rewrite <- (app_nil_r (taken c ++ discarded c)) in H at 2; apply app_inv_head in H.
Qed.

(** A pop is told to end, or about to be, because it found nothing, which in
    a queue with no more threads than slots means that there was nothing, or
    was stopped. *)
Definition tells c (j : nat) p c' : Prop :=
  ∀ p', threads c' !! j = Some p' -> told p' = true ->
  told p = true \/ (crowded c = false -> drained c') \/ stop_requested j c = true.

Lemma tells_goto c j p p' ts c' :
  threads c' = <[j:=p']> ts ->
  (told p' = true -> told p = true \/ (crowded c = false -> drained c') \/ stop_requested j c = true) -> tells c j p c'.
Proof.
  intros Ht Hp x Hx. rewrite Ht in Hx.
  by apply list_lookup_insert_Some in Hx as [(_ & <- & _)|[? _]].
Qed.

Lemma tells_call {A} c j p (m : M (LockFreeQueue.queue E) A) k :
  (∀ a q, tells c j p (k a (with_shared q c))) -> tells c j p (LockFreeConc.call j c m k).
Proof.
  intros Hk. unfold LockFreeConc.call. destruct (m (shared c)); [apply Hk|..]; by eapply tells_goto.
Qed.

Lemma tells_notify c c0 j p p' w wk c' :
  notify j p' w wk c0 = Some c' -> told p' = false -> tells c j p c'.
Proof.
  unfold notify. destruct (notify_one w wk (threads c0)) as [ts|]; [|done]. intros [= <-] Hp.
  eapply tells_goto; [done|congruence].
Qed.

Local Ltac silent := (eapply tells_goto; [done|]); by auto.

Lemma step_pc_tells sp wk j p c c' :
  inv c -> threads c !! j = Some p -> step_pc sp wk j p c = Some c' ->
  ~ closing_gate LockFreeQueue.consumer_gate (shared c) -> tells c j p c'.
Proof.
  intros (r & free & queued & Hi) Hj Hst Hcl. destruct p; try discriminate;
    cbn [step_pc guard_step push_step wait_push_step pop_step wait_pop_step close_step discard_step] in Hst;
    try (injection Hst as <-); try silent;
    try (by apply tells_call; intros; silent);
    try (by eapply tells_notify);
    try (by case_match; [|done]; injection Hst as <-; silent);
    try (by case_match; [done|]; injection Hst as <-; silent).
  - pose proof (inv_pcs _ _ _ _ Hi _ _ Hj) as ((n & Hw & Hn) & Hcg).
    rewrite (guard_admits_word _ _ Hw Hn) in Hst. destruct (Z.eqb_spec state n) as [->|Hne].
    + destruct (_ && _); injection Hst as <-; [destruct op; silent|silent].
    + injection Hst as <-. destruct op as [md event|md]; [silent|]. destruct Hcl. apply Hcg.
      destruct Hw as [? [?|?]]; lia.
  - destruct (misses sp c); [silent|]. apply tells_call. intros [i|] q; silent.
  - destruct md as [| | |[]]; silent.
  - destruct (LockFreeQueue.construct_at _ _ _) as [? []|? []|]; injection Hst as <-;
      [destruct event|..]; silent.
  - pose proof (inv_pcs _ _ _ _ Hi _ _ Hj) as Ho. destruct o; done || silent.
  - destruct (stop_requested j c); [silent|]. destruct md; silent.
  - case_match; silent.
  - case_match; silent.
  - destruct (dequeue_published_eq sp _ _ _ _ Hi) as (pu & _ & ->). destruct (misses sp c) eqn:Hm.
    { eapply tells_goto; [done|]. intros _. right; left. intros Hcr. by rewrite uncrowded_misses in Hm. }
    destruct queued as [|[i e] rest]; [|silent]. eapply tells_goto; [done|]. intros _. right; left. intros _.
    unfold drained. cbn. rewrite (inv_log _ _ _ _ Hi). cbn. by rewrite app_nil_r.
  - eapply tells_goto; [done|]. unfold after_pop. case_bool_decide as Hr; [|by auto].
    destruct md; cbn; rewrite ?bool_decide_eq_true, ?Hr; by auto.
  - destruct (stop_requested j c) eqn:Hs; [eapply tells_goto; [done|]; auto|]. destruct md; silent.
  - case_match; silent.
  - destruct k as [[]|n]; by eapply tells_notify.
  - unfold dequeue_published. destruct (misses sp c); [silent|].
    apply tells_call. intros [i|] q; [|silent]. destruct (slot_event _ i); silent.
Qed.

(** A gate is closed by its closing step only. *)
Lemma step_pc_closes sp wk j p c c' :
  inv c -> threads c !! j = Some p -> step_pc sp wk j p c = Some c' ->
  closing_gate LockFreeQueue.consumer_gate (shared c') ->
  closing_gate LockFreeQueue.consumer_gate (shared c) \/ closes_consumers p.
Proof.
  intros Hi Hj Hst. rewrite (step_pc_closing _ _ _ _ _ _ LockFreeQueue.consumer_gate Hi Hj Hst).
  intros [?|Hp]; [by left|right]. by destruct p.
Qed.

(** The choices that do not begin a call. *)
Definition continues (ch : choice E) : bool :=
  match ch with StartPush _ _ _ | StartPop _ _ | StartClose _ _ => false | _ => true end.

Lemma continue_step ch c c' :
  inv c -> continues ch = true -> step ch c = Some c' -> queue_step c c'.
Proof.
  intros Hi Hch Hst. assert (inv c') as Hi' by by eapply lock_free_step_inv.
  destruct ch as [j sp wk| | | |j|j|j|j]; try discriminate Hch; cbn [step] in Hst.
  - destruct (threads c !! j) as [p|] eqn:Hj; [|done].
    destruct (step_pc_contribution _ _ _ _ _ _ Hi Hj Hst) as (p' & ts & Hw & Ht & Hp).
    assert (threads c' !! j = Some p') as Hj'.
    { rewrite Ht. apply list_lookup_insert_eq. rewrite <- (Forall2_length _ _ _ Hw).
      by apply (lookup_lt_Some _ _ _ Hj). }
    destruct Hp as [[f ->]|Hp]; [by destruct (no_crash c' j f)|].
    eapply (step_inside _ _ j p p'); try done.
    + by destruct p.
    + intros Hcl. by apply (step_pc_tells sp wk j p c).
    + by apply (step_pc_closes sp wk j).
  - destruct (threads c !! j) as [p|] eqn:Hj; [|done].
    destruct (_ || _) eqn:Hp; [|done]. injection Hst as <-.
    apply step_outside; [|done..]. cbn.
    apply orb_true_iff in Hp as [Hp|Hp]; by eapply woken_insert.
  - destruct (stop_token _); try done. injection Hst as <-. by apply step_outside; [apply woken_refl|..].
  - unfold stop_callback in Hst. destruct (threads c !! j) as [p|]; [|done].
    destruct (surrounding j c) as [[] [w|] ex]; cbn in Hst; try done.
    + destruct (at_rest p); [done|]. injection Hst as <-. apply step_outside; [apply woken_refl|done|].
      unfold closing_gate. cbn. by destruct (shared c), w.
    + injection Hst as <-. apply step_outside; [apply notify_all_woken|done..].
  - injection Hst as <-. by apply step_outside; [apply woken_refl|..].
Qed.

(** A token is stopped by its request only. *)
Lemma step_requested ch c c' i :
  continues ch = true -> step ch c = Some c' -> stop_requested i c' = true ->
  stop_requested i c = true \/ ch = RequestStop i.
Proof.
  assert (∀ f c0, (∀ s, stop_token s = Unstopped -> stop_token (f s) = Unstopped) -> ∀ j, calls c0 = calls c ->
    stop_requested i (set_surrounding j f c0) = true -> stop_requested i c = true) as Hset.
  { intros f c0 Hf j Hc. unfold stop_requested.
    assert (surrounding i c0 = surrounding i c) as Heq by (unfold surrounding; by rewrite Hc).
    destruct (surrounding_alter f j i c0) as [->|[-> ->]]; rewrite Heq; [done|].
    destruct (stop_token (surrounding j c)) eqn:Hs; [by rewrite (Hf _ Hs)|done..]. }
  intros Hch Hst. destruct ch as [j sp wk| | | |j|j|j|j]; try discriminate Hch; cbn [step] in Hst.
  - destruct (threads c !! j); [|done]. apply step_pc_thread in Hst as [Hc _].
    unfold stop_requested, surrounding. rewrite Hc. auto.
  - destruct (threads c !! j); [|done]. destruct (_ || _); [|done]. injection Hst as <-. auto.
  - destruct (stop_token (surrounding j c)) eqn:Hs; try done. injection Hst as <-.
    destruct (decide (j = i)) as [->|Hne]; [auto|]. unfold stop_requested.
    destruct (surrounding_alter (set_token StopRaise) j i c) as [->|[-> _]]; [auto|done].
  - unfold stop_callback in Hst. destruct (threads c !! j) as [p|]; [|done].
    destruct (surrounding j c) as [[] [w|] ex] eqn:Hs; cbn in Hst; try done.
    + destruct (at_rest p); [done|]. injection Hst as <-. unfold stop_requested.
      destruct (surrounding_alter (set_token StopWake) j i (with_shared (raise w (shared c)) c))
        as [->|[-> _]]; [auto|]. rewrite Hs. auto.
    + injection Hst as <-. unfold stop_requested.
      destruct (surrounding_alter (set_token StopDone) j i (with_threads (notify_all w (threads c)) c))
        as [->|[-> _]]; [auto|]. rewrite Hs. auto.
  - injection Hst as <-. intros Hr. left. by eapply Hset in Hr.
Qed.

(** Behind a closed gate for pushes a drained queue stays drained, and then
    behind both nothing is recorded any more. *)
Lemma queue_step_sealed c c' :
  inv c -> one_step c c' -> ∀ g, sealed g (shared c) -> sealed g (shared c').
Proof. intros Hi [ch Hst] g Hs. by destruct (step_settled g ch c c' Hi Hst Hs). Qed.

Lemma queue_step_drained c c' :
  inv c -> one_step c c' -> queue_step c c' -> sealed LockFreeQueue.producer_gate (shared c) ->
  drained c -> drained c' /\ taken c' = taken c /\ discarded c' = discarded c.
Proof.
  intros Hi [ch Hst] Hq Hs Hd. destruct (step_settled _ ch c c' Hi Hst Hs) as [_ Ha].
  destruct (lock_free_step_inv ch c c' Hi Hst) as (r & free & queued & Hi').
  pose proof (inv_log _ _ _ _ Hi') as Hl. unfold drained in *. rewrite Ha, Hd in Hl.
  rewrite Ha, Hd.
  destruct Hq as [j p p' ts _ _ _ [_ [[Ht _]|(e & Ht & _)] _ [[Hx _]|(e' & Hx & _)]]|_ (Ht & _ & Hx)];
    rewrite Ht, Hx in *; try done; apply (f_equal length) in Hl; rewrite !length_app in Hl; cbn in Hl; lia.
Qed.

End calls.
End LockFreeCalls.
