(* ===== verification/Subscriber.v ===== *)
(** * [subscriber_state]: one registration and its delivery policy

    The critical sections and atomic updates of
    [subscription/subscriber_state.hpp] as state transformers, and the
    operations as one thread runs them. [W] is the user's world, which
    callbacks and error handlers read and change; waiting is [None]. The
    interleavings of several threads are in [SubscriberConc]. *)

From S2P Require Import Prelude Types.
Local Open Scope Z_scope.

Module Subscriber.

Record subscriber (E : Type) : Type := mk_subscriber {
  options_ : subscription_options;
  in_flight_ : Z;
  active_ : bool;
  retirement_started_ : bool;
  mailbox_ : list E;
  mailbox_accepting_ : bool;
  executor_stopping_ : bool;
  drain_mailbox_ : bool;
  metrics_ : subscription_metrics;
}.
Arguments mk_subscriber {E}.
Arguments options_ {E} s.
Arguments in_flight_ {E} s.
Arguments active_ {E} s.
Arguments retirement_started_ {E} s.
Arguments mailbox_ {E} s.
Arguments mailbox_accepting_ {E} s.
Arguments executor_stopping_ {E} s.
Arguments drain_mailbox_ {E} s.
Arguments metrics_ {E} s.

(** The six atomic counters. *)
Inductive counter : Type :=
  | Offered | Delivered | Dropped | Rejected | CallbackErrors | SlowCallbacks.

Definition count_in (k : counter) (n : Z) (m : subscription_metrics) : subscription_metrics :=
  let '(mk_subscription_metrics o d dr re ce sl) := m in
  match k with
  | Offered => mk_subscription_metrics (u64 (o + n)) d dr re ce sl
  | Delivered => mk_subscription_metrics o (u64 (d + n)) dr re ce sl
  | Dropped => mk_subscription_metrics o d (u64 (dr + n)) re ce sl
  | Rejected => mk_subscription_metrics o d dr (u64 (re + n)) ce sl
  | CallbackErrors => mk_subscription_metrics o d dr re (u64 (ce + n)) sl
  | SlowCallbacks => mk_subscription_metrics o d dr re ce (u64 (sl + n))
  end.

Definition is_isolated (o : subscription_options) : bool := bool_decide (delivery o = isolated).

Section state.
Context {E : Type}.
Implicit Types s : subscriber E.

Definition with_state (in_flight : Z) (active retired : bool) s : subscriber E :=
  mk_subscriber (options_ s) in_flight active retired (mailbox_ s) (mailbox_accepting_ s)
    (executor_stopping_ s) (drain_mailbox_ s) (metrics_ s).
Definition with_mailbox (mailbox : list E) s : subscriber E :=
  mk_subscriber (options_ s) (in_flight_ s) (active_ s) (retirement_started_ s) mailbox
    (mailbox_accepting_ s) (executor_stopping_ s) (drain_mailbox_ s) (metrics_ s).
Definition with_executor (accepting stopping drain : bool) s : subscriber E :=
  mk_subscriber (options_ s) (in_flight_ s) (active_ s) (retirement_started_ s) (mailbox_ s)
    accepting stopping drain (metrics_ s).
Definition with_metrics (m : subscription_metrics) s : subscriber E :=
  mk_subscriber (options_ s) (in_flight_ s) (active_ s) (retirement_started_ s) (mailbox_ s)
    (mailbox_accepting_ s) (executor_stopping_ s) (drain_mailbox_ s) m.

(** [counter.fetch_add(n)]. *)
Definition fetch_add (k : counter) (n : Z) s : subscriber E :=
  with_metrics (count_in k n (metrics_ s)) s.

(** ** Construction *)

(** [copyable] is [std::copy_constructible<Event>]. *)
Definition make (options : subscription_options) (copyable : bool) : exn + subscriber E :=
  if slow_callback_threshold options <? 0 then inl invalid_argument
  else if is_isolated options then
    if mailbox_capacity options =? 0 then inl invalid_argument
    else if negb copyable then inl invalid_argument
    else inr (mk_subscriber options 0 true false [] true false true zero_metrics)
  else inr (mk_subscriber options 0 true false [] true false true zero_metrics).

(** ** Sections under [state_mutex_] *)

Definition begin_invocation s : bool * subscriber E :=
  if active_ s then
    (true, with_state (u64 (in_flight_ s + 1)) (active_ s) (retirement_started_ s) s)
  else (false, s).

(** [finish_invocation(elapsed)]: the counters, then the section, which also
    tells whether [no_callbacks_] is notified. *)
Definition finish_count (elapsed : Z) s : subscriber E :=
  let s := fetch_add Delivered 1 s in
  let threshold := slow_callback_threshold (options_ s) in
  if negb (threshold =? 0) && (threshold <=? elapsed) then fetch_add SlowCallbacks 1 s else s.
Definition finish_leave s : bool * subscriber E :=
  let s := with_state (u64 (in_flight_ s - 1)) (active_ s) (retirement_started_ s) s in
  (in_flight_ s =? 0, s).
Definition finish_invocation (elapsed : Z) s : bool * subscriber E :=
  finish_leave (finish_count elapsed s).

(** First section of [unsubscribe]: the result says whether this call is the
    one that runs the retirement callback. *)
Definition unsubscribe_mark s : bool * subscriber E :=
  (negb (retirement_started_ s), with_state (in_flight_ s) false true s).

Definition subscribed s : bool := active_ s.
Definition metrics s : subscription_metrics := metrics_ s.
Definition in_flight s : Z := in_flight_ s.

(** ** Sections under [mailbox_mutex_] *)

Definition mailbox_full s : bool := zlength (mailbox_ s) =? mailbox_capacity (options_ s).

(** [enqueue_isolated] at one wake-up; [copy] is the event's copy
    constructor, [None] when it has none. *)
Definition enqueue_isolated (copy : option (E -> exn + E)) (event : E) :
    M (subscriber E) (option bool) := fun s =>
  match copy with
  | None => Ret (Some false) (fetch_add Rejected 1 s)
  | Some copy =>
      let push :=
        if negb (mailbox_accepting_ s) then Ret (Some false) (fetch_add Rejected 1 s)
        else match copy event with
        | inl e => Throw e (fetch_add Rejected 1 s)
        | inr event => Ret (Some true) (with_mailbox (mailbox_ s ++ [event]) s)
        end in
      match guarantee (options_ s) with
      | lossless =>
          if negb (mailbox_accepting_ s) ||
             (zlength (mailbox_ s) <? mailbox_capacity (options_ s)) then push
          else Ret None s
      | best_effort =>
          if mailbox_full s then Ret (Some true) (fetch_add Dropped 1 s) else push
      end
  end.

(** One turn of the wait and dequeue at the head of [executor_loop]. *)
Inductive executor_turn : Type := TurnWait | TurnExit | TurnEvent (event : E).

Definition executor_take s : executor_turn * subscriber E :=
  match mailbox_ s with
  | [] => if executor_stopping_ s then (TurnExit, s) else (TurnWait, s)
  | event :: rest =>
      if executor_stopping_ s && negb (drain_mailbox_ s) then (TurnExit, s)
      else (TurnEvent event, with_mailbox rest s)
  end.

(** The section of [stop_delivery]. *)
Definition stop_mark (drain : bool) s : subscriber E :=
  let s := with_executor false true (drain_mailbox_ s && drain) s in
  if drain then s
  else with_mailbox [] (fetch_add Dropped (zlength (mailbox_ s)) s).

(** The section of the destructor of an isolated subscriber: what is left in
    the mailbox goes uncounted. *)
Definition destroy_mark s : subscriber E :=
  with_mailbox [] (with_executor false true false s).

End state.
Arguments executor_turn : clear implicits.
Arguments TurnWait {E}.
Arguments TurnExit {E}.
Arguments TurnEvent {E} event.

(** ** The operations of one thread *)

Section run.
Context {E W : Type}.

(** What the user supplies: the callback, which may throw and takes some
    time, the event's copy constructor and the error handler. *)
Record client : Type := mk_client {
  callback : E -> W -> option exn * W;
  elapsed : E -> W -> Z;
  copy : option (E -> exn + E);
  on_error : option (exn -> W -> W);
}.
Context (u : client).

Definition report_error (e : exn) : M (subscriber E * W) unit := fun '(s, w) =>
  match on_error u with
  | None => Ret tt (s, w)
  | Some handler => Ret tt (s, handler e w)
  end.

(** [invoke_callback], with the [invocation_guard]'s [finish_invocation]
    that runs on return and on throw. *)
Definition execute_callback (event : E) : M (subscriber E * W) unit := fun '(s, w) =>
  let finish s := (finish_invocation (elapsed u event w) s).2 in
  match callback u event w with
  | (None, w') => Ret tt (finish s, w')
  | (Some e, w') => Throw e (finish (fetch_add CallbackErrors 1 s), w')
  end.

(** [try_invoke]; [None] when it waits for room in the mailbox. *)
Definition try_invoke (event : E) : M (subscriber E * W) (option bool) :=
  on_fst (modify (fetch_add Offered 1));;
  '(s, _) ← gets id;
  if is_isolated (options_ s) then on_fst (enqueue_isolated (copy u) event)
  else fun '(s, w) =>
    match begin_invocation s with
    | (false, s) => Ret (Some false) (fetch_add Rejected 1 s, w)
    | (true, s) => (execute_callback event;; mret (Some true)) (s, w)
    end.

(** One round of [executor_loop]: [true] when the loop goes on. *)
Definition executor_round : M (subscriber E * W) (option bool) := fun '(s, w) =>
  match executor_take s with
  | (TurnWait, s) => Ret None (s, w)
  | (TurnExit, s) => Ret (Some false) (s, w)
  | (TurnEvent event, s) =>
      match begin_invocation s with
      | (false, s) => Ret (Some true) (fetch_add Dropped 1 s, w)
      | (true, s) =>
          (catch (execute_callback event) report_error;; mret (Some true)) (s, w)
      end
  end.

(** [executor_loop] until it waits ([None]) or returns. *)
Fixpoint executor_loop (fuel : nat) : M (subscriber E * W) (option unit) :=
  match fuel with
  | O => stuck blocked
  | S fuel =>
      r ← executor_round;
      match r with
      | None => mret None
      | Some false => mret (Some tt)
      | Some true => executor_loop fuel
      end
  end.

(** ** One thread's view *)

(** What happens to the world when the executor handles an event. *)
Definition handle (w : W) (event : E) : W :=
  match callback u event w, on_error u with
  | (Some e, w'), Some handler => handler e w'
  | (_, w'), _ => w'
  end.

(** The number of callbacks that throw while the executor handles [l]. *)
Fixpoint raised (l : list E) (w : W) : Z :=
  match l with
  | [] => 0
  | event :: l =>
      (if (callback u event w).1 is Some _ then 1 else 0) + raised l (handle w event)
  end.

(** The counters after a completed invocation. *)
Definition invoked (event : E) (w : W) (threshold : Z) (m : subscription_metrics) :
    subscription_metrics :=
  let m := if (callback u event w).1 is Some _ then count_in CallbackErrors 1 m else m in
  let m := count_in Delivered 1 m in
  if negb (threshold =? 0) && (threshold <=? elapsed u event w) then count_in SlowCallbacks 1 m
  else m.

(** A direct invocation leaves the subscriber as it was, up to its counters. *)
Lemma execute_callback_spec event (s : subscriber E) w :
  0 <= in_flight s < 2 ^ 64 ->
  let s' := with_metrics
    (invoked event w (slow_callback_threshold (options_ s)) (metrics s)) s in
  execute_callback event (with_state (u64 (in_flight s + 1)) (active_ s) (retirement_started_ s) s, w) =
    match callback u event w with
    | (None, w') => Ret tt (s', w')
    | (Some e, w') => Throw e (s', w')
    end.
Proof.
  intros Hf. assert (u64 (u64 (in_flight s + 1) - 1) = in_flight s) as Hback.
  { rewrite u64_sub_l, u64_small; lia. }
  unfold execute_callback, invoked. destruct s as [o fl ac re mb acc st dr m]. cbn in *.
  unfold finish_invocation, finish_count, finish_leave, fetch_add. cbn.
  destruct (callback u event w) as [[e|] w']; cbn; destruct (_ && _); cbn; by rewrite Hback.
Qed.

Lemma begin_active (s : subscriber E) :
  active_ s = true ->
  begin_invocation s =
    (true, with_state (u64 (in_flight s + 1)) (active_ s) (retirement_started_ s) s).
Proof. intros Ha. unfold begin_invocation. by rewrite Ha. Qed.

#[local] Arguments execute_callback : simpl never.
#[local] Arguments begin_invocation : simpl never.
#[local] Arguments with_state : simpl never.

Lemma direct_invocation event (s : subscriber E) w :
  is_isolated (options_ s) = false -> active_ s = true -> 0 <= in_flight s < 2 ^ 64 ->
  let s' := with_metrics (invoked event w (slow_callback_threshold (options_ s))
    (count_in Offered 1 (metrics s))) s in
  try_invoke event (s, w) =
    match callback u event w with
    | (None, w') => Ret (Some true) (s', w')
    | (Some e, w') => Throw e (s', w')
    end.
Proof.
  intros Hd Ha Hf. unfold try_invoke. run_m. rewrite Hd, begin_active by done.
  rewrite (execute_callback_spec event (fetch_add Offered 1 s) w Hf).
  by destruct (callback u event w) as [[e|] w'].
Qed.

Lemma refused_invocation event (s : subscriber E) w :
  is_isolated (options_ s) = false -> active_ s = false ->
  try_invoke event (s, w) =
    Ret (Some false) (fetch_add Rejected 1 (fetch_add Offered 1 s), w).
Proof.
  intros Hd Ha. unfold try_invoke. run_m. rewrite Hd. unfold begin_invocation. cbn. by rewrite Ha.
Qed.

(** A concurrent or serialized subscriber that is subscribed runs the
    callback exactly once and counts the delivery, also when the callback
    throws, and the exception reaches the caller; one that is not never runs
    it and counts a rejection. *)
Theorem try_invoke_direct event (s : subscriber E) w :
  is_isolated (options_ s) = false -> 0 <= in_flight s < 2 ^ 64 ->
  let s' := with_metrics (invoked event w (slow_callback_threshold (options_ s))
    (count_in Offered 1 (metrics s))) s in
  try_invoke event (s, w) =
    if active_ s then
      match callback u event w with
      | (None, w') => Ret (Some true) (s', w')
      | (Some e, w') => Throw e (s', w')
      end
    else Ret (Some false) (fetch_add Rejected 1 (fetch_add Offered 1 s), w).
Proof.
  intros Hd Hf. destruct (active_ s) eqn:Ha; [by apply direct_invocation|by apply refused_invocation].
Qed.

(** ** Draining the mailbox *)

Fixpoint drained (l : list E) (w : W) (threshold : Z) (m : subscription_metrics) :
    subscription_metrics :=
  match l with
  | [] => m
  | event :: l => drained l (handle w event) threshold (invoked event w threshold m)
  end.

(** An active executor told to stop and drain handles every mailed
    event in order, a throwing callback included, and then returns. *)
Theorem executor_loop_drains (s : subscriber E) w fuel :
  active_ s = true -> executor_stopping_ s = true -> drain_mailbox_ s = true ->
  0 <= in_flight s < 2 ^ 64 -> (length (mailbox_ s) < fuel)%nat ->
  executor_loop fuel (s, w) =
    Ret (Some tt)
      (with_metrics (drained (mailbox_ s) w (slow_callback_threshold (options_ s)) (metrics s))
         (with_mailbox [] s), foldl handle w (mailbox_ s)).
Proof.
  intros Ha Hst Hd Hf. remember (mailbox_ s) as l eqn:Hl. revert s w fuel Hl Ha Hst Hd Hf.
  induction l as [|event l IH]; intros s w [|fuel] Hl Ha Hst Hd Hf Hfuel; simpl in Hfuel; try lia.
  - cbn [executor_loop]. unfold executor_round, executor_take. run_m. rewrite <- Hl, Hst.
    destruct s; cbn in *; by subst.
  - cbn [executor_loop]. unfold executor_round, executor_take. run_m. rewrite <- Hl, Hst, Hd. cbn.
    rewrite begin_active by done. unfold catch.
    rewrite (execute_callback_spec event (with_mailbox l s) w Hf).
    set (s1 := with_metrics (invoked event w _ _) _).
    assert (executor_loop fuel (s1, handle w event) = Ret (Some tt)
      (with_metrics (drained l (handle w event) (slow_callback_threshold (options_ s))
         (metrics s1)) (with_mailbox [] s1), foldl handle (handle w event) l)) as HIH.
    { rewrite (IH s1 (handle w event) fuel); try done. lia. }
    unfold handle, report_error in *. destruct (callback u event w) as [[e|] w'].
    + destruct (on_error u); cbn; exact HIH.
    + exact HIH.
Qed.

End run.
Arguments client : clear implicits.

(** ** A client that records its events and throws on zero *)

Definition recorder : client Z (list Z) :=
  mk_client (fun e w => (if e =? 0 then Some (user_exception 0) else None, w ++ [e]))
    (fun _ _ => 5) (Some inr) (Some (fun _ w => w ++ [-1])).

Definition direct_options : subscription_options := mk_subscription_options concurrent best_effort 1 3.
Definition isolated_options : subscription_options := mk_subscription_options isolated best_effort 2 3.

Definition direct_subscriber : subscriber Z :=
  mk_subscriber direct_options 0 true false [] true false true zero_metrics.
Definition stopping_subscriber : subscriber Z :=
  mk_subscriber isolated_options 0 true false [7; 0] false true true zero_metrics.

Lemma try_invoke_direct_witness :
  (∃ s', try_invoke recorder 0 (direct_subscriber, []) = Throw (user_exception 0) (s', [0]) /\
    metrics s' = mk_subscription_metrics 1 1 0 0 1 1).
Proof.
  eexists. split; [|].
  - etransitivity; [exact (try_invoke_direct recorder 0 direct_subscriber [] eq_refl
      ltac:(vm_compute; split; [discriminate|reflexivity]))|reflexivity].
  - reflexivity.
Defined.

Lemma executor_loop_drains_witness :
  ∃ s', executor_loop recorder 3 (stopping_subscriber, []) = Ret (Some tt) (s', [7; 0; -1]) /\
    mailbox_ s' = [] /\ metrics s' = mk_subscription_metrics 0 2 0 0 1 2.
Proof.
  eexists. split; [|split].
  - etransitivity; [exact (executor_loop_drains recorder stopping_subscriber [] 3 eq_refl eq_refl
      eq_refl ltac:(vm_compute; split; [discriminate|reflexivity]) ltac:(cbn; lia))|reflexivity].
  - reflexivity.
  - reflexivity.
Defined.

End Subscriber.
