(* ===== verification/Invocation.v ===== *)
(** * Which callbacks the calling thread is inside of

    [subscriber_state] keeps, per thread, a list of [invocation_context]s
    linked through the C++ stack: [invocation_scope] puts one in front when a
    callback starts and takes it off when the callback returns or throws.
    [invoking_on_this_thread], which lets a callback end its own subscription
    without waiting for itself, and [callback_active_for], with which
    [dispatcher::shutdown] refuses a caller it would wait for, walk the list.
    Here the list is in memory, addresses and all, and a program is a tree of
    nested callbacks that may throw and catch. *)

From S2P Require Import Prelude.
Local Open Scope Z_scope.

Module Invocation.

(** [invocation_context]: [state] and [previous] are addresses, [0] is
    [nullptr]. *)
Record context : Type := mk_context { state : Z; previous : Z }.

(** A thread: the contexts on its stack, the next free address of the stack
    and [current_invocation_]. *)
Record thread : Type := mk_thread {
  contexts : gmap Z context;
  top : Z;
  current_invocation_ : Z;
}.

(** A thread that is in no callback. *)
Definition fresh_thread : thread := mk_thread ∅ 1 0.

Section invocation.

(** [owner_tag_] of the subscriber at an address; [core_.get()] of its
    registry. *)
Context (owner_tag_ : Z -> Z).

(** The two queries walk the list from [current_invocation_] until [test]
    holds of a context's subscriber; a context that is not there any more is
    read all the same. The list is no longer than the stack. *)
Fixpoint walk (fuel : nat) (test : Z -> bool) (address : Z) : M thread bool := fun t =>
  if address =? 0 then Ret false t
  else match fuel with
  | O => Stuck blocked
  | S fuel =>
      match contexts t !! address with
      | None => Stuck undefined_behaviour
      | Some c => if test (state c) then Ret true t else walk fuel test (previous c) t
      end
  end.

Definition invoking_on_this_thread (this : Z) : M thread bool := fun t =>
  walk (Z.to_nat (top t)) (fun s => s =? this) (current_invocation_ t) t.

Definition callback_active_for (owner_tag : Z) : M thread bool := fun t =>
  walk (Z.to_nat (top t)) (fun s => owner_tag_ s =? owner_tag) (current_invocation_ t) t.

(** [snapshot_registry::callback_active_on_this_thread]. *)
Definition callback_active_on_this_thread (core : Z) : M thread bool := callback_active_for core.

(** The constructor and the destructor of [invocation_scope]; its [context_]
    is an object of the stack, here at the address the scope returns. *)
Definition scope_enter (s : Z) : M thread Z := fun t =>
  Ret (top t)
    (mk_thread (<[top t := mk_context s (current_invocation_ t)]> (contexts t)) (top t + 1) (top t)).

Definition scope_leave (scope : Z) : M thread unit := fun t =>
  match contexts t !! scope with
  | None => Stuck undefined_behaviour
  | Some c => Ret tt (mk_thread (delete scope (contexts t)) scope (previous c))
  end.

(** ** Programs of nested callbacks *)

(** What a callback does that matters here, then how it goes on: it asks one
    of the questions, throws, runs part of itself under a [catch (...)], or
    has another subscriber's callback (or its own again) called from it. *)
Inductive query : Type :=
  | InvokingOn (s : Z)
  | ActiveFor (owner_tag : Z).

Inductive code : Type :=
  | Return
  | Ask (q : query) (k : code)
  | Raise (e : exn)
  | Try (body k : code)
  | Invoke (s : Z) (body k : code).

Definition ask (q : query) : M thread bool :=
  match q with
  | InvokingOn s => invoking_on_this_thread s
  | ActiveFor owner_tag => callback_active_for owner_tag
  end.

(** [execute_callback]: the scope is left on return and on throw. *)
Definition execute_callback {A} (s : Z) (callback : M (thread * A) unit) : M (thread * A) unit :=
  scope ← on_fst (scope_enter s);
  catch callback (fun e => on_fst (scope_leave scope);; throw e);;
  on_fst (scope_leave scope).

(** The thread's run of a program, with the answers it got in order. *)
Fixpoint exec (c : code) : M (thread * list bool) unit :=
  match c with
  | Return => mret tt
  | Ask q k =>
      b ← on_fst (ask q);
      modify (fun '(t, answers) => (t, answers ++ [b]));;
      exec k
  | Raise e => throw e
  | Try body k => catch (exec body) (fun _ => mret tt);; exec k
  | Invoke s body k => execute_callback s (exec body);; exec k
  end.

(** ** What the queries should answer *)

(** [inside] are the subscribers whose callbacks enclose the point. *)
Definition answer (inside : list Z) (q : query) : bool :=
  match q with
  | InvokingOn s => bool_decide (s ∈ inside)
  | ActiveFor owner_tag => bool_decide (owner_tag ∈ owner_tag_ <$> inside)
  end.

Fixpoint answers (inside : list Z) (c : code) : list bool * option exn :=
  match c with
  | Return => ([], None)
  | Ask q k => let '(l, o) := answers inside k in (answer inside q :: l, o)
  | Raise e => ([], Some e)
  | Try body k =>
      let l := (answers inside body).1 in
      let '(l', o) := answers inside k in (l ++ l', o)
  | Invoke s body k =>
      match answers (s :: inside) body with
      | (l, Some e) => (l, Some e)
      | (l, None) => let '(l', o) := answers inside k in (l ++ l', o)
      end
  end.

(** ** The list in memory *)

(** [chain m bound a inside]: the contexts from address [a] on, all below
    [bound], are those of [inside], innermost first. *)
Inductive chain (m : gmap Z context) : Z -> Z -> list Z -> Prop :=
  | chain_null bound : 0 < bound -> chain m bound 0 []
  | chain_context bound address s rest inside :
      m !! address = Some (mk_context s rest) -> 0 < address < bound ->
      chain m address rest inside -> chain m bound address (s :: inside).

Record wf (t : thread) (inside : list Z) : Prop := {
  wf_chain : chain (contexts t) (top t) (current_invocation_ t) inside;
  wf_free : ∀ a, top t <= a -> contexts t !! a = None;
}.

Lemma chain_bound m bound a inside : chain m bound a inside -> Z.of_nat (length inside) < bound.
Proof. induction 1; cbn [length]; lia. Qed.

Lemma chain_insert m bound a inside b c :
  chain m bound a inside -> bound <= b -> chain (<[b := c]> m) bound a inside.
Proof.
  intros Hc. revert b c. induction Hc as [|bound a s rest inside Hm Ha _ IH]; intros b c Hb.
  - by constructor.
  - apply (chain_context _ _ _ _ rest); [by rewrite lookup_insert_ne by lia|done|].
    apply IH. lia.
Qed.

Lemma walk_chain test m bound a inside fuel t :
  chain m bound a inside -> contexts t = m -> (length inside <= fuel)%nat ->
  walk fuel test a t = Ret (existsb test inside) t.
Proof.
  intros Hc Hm. revert fuel. induction Hc as [|bound a s rest inside Ha Hb _ IH]; intros fuel Hf.
  - by destruct fuel.
  - destruct fuel as [|fuel]; cbn [length] in Hf; [lia|]. cbn [walk existsb].
    rewrite (proj2 (Z.eqb_neq a 0)) by lia. rewrite Hm, Ha. cbn [state previous].
    destruct (test s); [done|]. apply IH. lia.
Qed.

Lemma existsb_tag {A} (f : A -> Z) x l :
  existsb (fun s => f s =? x) l = bool_decide (x ∈ f <$> l).
Proof.
  induction l as [|s l IH]; [done|]. cbn [existsb fmap list_fmap]. rewrite IH.
  destruct (Z.eqb_spec (f s) x) as [<-|Hn]; cbn; symmetry.
  - apply bool_decide_eq_true. left.
  - apply bool_decide_ext. rewrite elem_of_cons. split; [by intros [->|?]|by right].
Qed.

Lemma ask_answer q inside t : wf t inside -> ask q t = Ret (answer inside q) t.
Proof.
  intros [Hc _]. assert (Hb := chain_bound _ _ _ _ Hc).
  destruct q as [s|owner_tag]; cbn [ask answer];
    unfold invoking_on_this_thread, callback_active_for;
    rewrite (walk_chain _ _ _ _ _ _ _ Hc eq_refl) by lia; f_equal.
  - rewrite (existsb_tag (fun s => s)). by rewrite list_fmap_id.
  - apply existsb_tag.
Qed.

(** The thread inside of a scope that was just entered. *)
Definition within (s : Z) (t : thread) : thread :=
  mk_thread (<[top t := mk_context s (current_invocation_ t)]> (contexts t)) (top t + 1) (top t).

Lemma within_wf s t inside : wf t inside -> wf (within s t) (s :: inside).
Proof.
  intros [Hc Hf]. assert (Hb := chain_bound _ _ _ _ Hc). split; cbn.
  - eapply chain_context; [by apply lookup_insert_eq|lia|]. by apply chain_insert.
  - intros a Ha. rewrite lookup_insert_ne by lia. apply Hf. lia.
Qed.

(** Leaving the scope puts back the thread as it was. *)
Lemma scope_leave_within s t inside :
  wf t inside -> scope_leave (top t) (within s t) = Ret tt t.
Proof.
  intros [_ Hf]. unfold scope_leave, within. cbn. rewrite lookup_insert_eq. cbn.
  rewrite delete_insert_id by (apply Hf; lia). by destruct t.
Qed.

(** The outcome of a program whose answers are [l] and that throws [o]. *)
Definition outcome (t : thread) (log : list bool) (r : list bool * option exn) :
    result (thread * list bool) unit :=
  match r with
  | (l, None) => Ret tt (t, log ++ l)
  | (l, Some e) => Throw e (t, log ++ l)
  end.

(** A callback that keeps the list restores it when its scope ends. *)
Lemma execute_callback_outcome s (body : M (thread * list bool) unit) t inside log r :
  wf t inside -> body (within s t, log) = outcome (within s t) log r ->
  execute_callback s body (t, log) = outcome t log r.
Proof.
  intros Hw Hb. unfold execute_callback. run_m. fold (within s t). unfold catch. rewrite Hb.
  pose proof (scope_leave_within s t inside Hw) as Hl.
  destruct r as [l [e|]]; cbn; by rewrite Hl.
Qed.

Lemma exec_outcome c : ∀ t inside log,
  wf t inside -> exec c (t, log) = outcome t log (answers inside c).
Proof.
  induction c as [|q k IHk|e|body IHb k IHk|s body IHb k IHk]; intros t inside log Hw;
    cbn [exec answers].
  - run_m. by rewrite app_nil_r.
  - run_m. rewrite (ask_answer q inside t Hw), (IHk t inside) by done.
    destruct (answers inside k) as [l [e|]]; cbn; by rewrite <- app_assoc.
  - run_m. by rewrite app_nil_r.
  - run_m. unfold catch. rewrite (IHb t inside) by done.
    destruct (answers inside body) as [l [e|]]; cbn; rewrite (IHk t inside) by done;
      destruct (answers inside k) as [l' [e'|]]; cbn; by rewrite <- app_assoc.
  - unfold mbind, M_bind.
    rewrite (execute_callback_outcome s _ t inside log _ Hw (IHb _ _ log (within_wf s t inside Hw))).
    destruct (answers (s :: inside) body) as [l [e|]]; cbn; [done|].
    rewrite (IHk t inside) by done.
    destruct (answers inside k) as [l' [e'|]]; cbn; by rewrite <- app_assoc.
Qed.

(** C30: however callbacks nest, throw and catch, each query answers what the
    callbacks around it are: [invoking_on_this_thread] is true exactly inside
    a callback of that subscriber, [callback_active_for] exactly inside one
    of the same registry; the walk never reads a context that is gone, and
    the thread is left as it was. *)
Theorem queries_see_enclosing_callbacks c t inside log :
  wf t inside -> exec c (t, log) = outcome t log (answers inside c).
Proof. apply exec_outcome. Qed.

End invocation.

(** ** Two registries, [100] with the subscribers [1] and [2], [200] with [3] *)

Definition tags (s : Z) : Z := if s <? 3 then 100 else 200.

Lemma fresh_wf : wf fresh_thread [].
Proof. split; [by constructor|done]. Qed.

(** The callback of [1] calls that of [3], which throws into a [catch]. *)
Definition nested : code :=
  Invoke 1
    (Try (Invoke 3 (Ask (InvokingOn 1) (Ask (ActiveFor 200) (Raise logic_error))) Return)
       (Ask (ActiveFor 200) (Ask (InvokingOn 2) Return)))
    (Ask (ActiveFor 100) Return).

Lemma queries_see_enclosing_callbacks_witness :
  exec tags nested (fresh_thread, []) = Ret tt (fresh_thread, [true; true; false; false; false]).
Proof.
  etransitivity;
    [exact (queries_see_enclosing_callbacks tags nested fresh_thread [] [] fresh_wf)|reflexivity].
Defined.

End Invocation.
