(* ===== verification/SubscriberConc.v ===== *)
(** * Threads on one subscriber

    Deliveries, the mailbox executor, unsubscription (also from inside the
    callback) and [stop_delivery] as threads with a stack of frames, one
    critical section or atomic update per step. A wait is a step that is not
    enabled while its predicate fails. Thread 0 is the executor of an
    isolated subscriber. *)

From S2P Require Import Prelude Types Subscriber.
Import Subscriber.
Local Open Scope Z_scope.

Module SubscriberConc.

Section threads.
Context {E : Type} (copy : option (E -> exn + E)).
Implicit Types s : subscriber E.

(** What a thread still has to do, innermost call first. *)
Inductive frame : Type :=
  (* try_invoke *)
  | Offer (event : E)
  | Begin (event : E)
  | SerialLock (event : E)
  | SerialUnlock
  | Enqueue (event : E)
  (* execute_callback: user code, then the guard's destructor *)
  | Callback (event : E)
  | Finish (elapsed : Z)
  | Leave
  (* executor_loop *)
  | Loop
  | ExecBegin (event : E)
  (* unsubscribe: marked, then stop_delivery(false), then the final wait *)
  | Unsubscribe
  | IdleWait (from_callback : bool)
  (* stop_delivery *)
  | StopMark (drain : bool)
  | StopJoin
  | Join.

Definition stack : Type := list frame.

Record config : Type := mk_config {
  sub : subscriber E;
  stacks : list stack;
  serial_owner : option nat;
  join_owner : option nat;
  joinable : bool;
  (* events that entered the mailbox and events the executor took from it *)
  accepted : list E;
  taken : list E;
}.

(** Where the code leaves a choice: what an idle thread does next and what
    the user's callback does. *)
Inductive choice : Type :=
  | Go
  | StartInvoke (event : E)
  | StartUnsubscribe
  | StartStop (drain : bool)
  | Return (elapsed : Z)
  | Raise (elapsed : Z)
  | CallUnsubscribe.

Definition with_sub s c : config :=
  mk_config s (stacks c) (serial_owner c) (join_owner c) (joinable c) (accepted c) (taken c).
Definition set_stack (j : nat) (k : stack) c : config :=
  mk_config (sub c) (<[j := k]> (stacks c)) (serial_owner c) (join_owner c) (joinable c)
    (accepted c) (taken c).
Definition with_serial (o : option nat) c : config :=
  mk_config (sub c) (stacks c) o (join_owner c) (joinable c) (accepted c) (taken c).
Definition with_join (o : option nat) (b : bool) c : config :=
  mk_config (sub c) (stacks c) (serial_owner c) o b (accepted c) (taken c).
Definition with_logs (acc tak : list E) c : config :=
  mk_config (sub c) (stacks c) (serial_owner c) (join_owner c) (joinable c) acc tak.

Definition policy c : delivery_policy := delivery (options_ (sub c)).

(** [executor_.get_id() == std::this_thread::get_id()]. *)
Definition is_executor (j : nat) c : bool := (j =? 0)%nat && bool_decide (policy c = isolated).

(** [invoking_on_this_thread()]. *)
Definition invoking (k : stack) : bool :=
  existsb (fun f => if f is Callback _ then true else false) k.

(** One step of thread [j] with stack [f :: k]; [None] when it has to wait or
    the choice does not apply. *)
Definition step_frame (ch : choice) (j : nat) (f : frame) (k : stack) c : option config :=
  match f, ch with
  | Offer e, Go =>
      let c := with_sub (fetch_add Offered 1 (sub c)) c in
      Some (set_stack j ((if is_isolated (options_ (sub c)) then Enqueue e else Begin e) :: k) c)
  | Begin e, Go =>
      match begin_invocation (sub c) with
      | (false, s) => Some (set_stack j k (with_sub (fetch_add Rejected 1 s) c))
      | (true, s) =>
          Some (set_stack j
            ((if bool_decide (policy c = serialized) then SerialLock e else Callback e) :: k)
            (with_sub s c))
      end
  | SerialLock e, Go =>
      if serial_owner c is Some _ then None
      else Some (set_stack j (Callback e :: SerialUnlock :: k) (with_serial (Some j) c))
  | SerialUnlock, Go => Some (set_stack j k (with_serial None c))
  | Enqueue e, Go =>
      match enqueue_isolated copy e (sub c) with
      | Ret None _ => None
      | Ret (Some _) s | Throw _ s =>
          Some (set_stack j k (with_sub s (with_logs
            (accepted c ++ drop (length (mailbox_ (sub c))) (mailbox_ s)) (taken c) c)))
      | Stuck _ => None
      end
  | Callback e, Return t => Some (set_stack j (Finish t :: k) c)
  | Callback e, Raise t =>
      Some (set_stack j (Finish t :: k) (with_sub (fetch_add CallbackErrors 1 (sub c)) c))
  | Callback e, CallUnsubscribe => Some (set_stack j (Unsubscribe :: Callback e :: k) c)
  | Finish t, Go => Some (set_stack j (Leave :: k) (with_sub (finish_count t (sub c)) c))
  | Leave, Go => Some (set_stack j k (with_sub (finish_leave (sub c)).2 c))
  | Loop, Go =>
      match executor_take (sub c) with
      | (TurnWait, _) => None
      | (TurnExit, s) => Some (set_stack j k (with_sub s c))
      | (TurnEvent e, s) =>
          Some (set_stack j (ExecBegin e :: Loop :: k)
            (with_sub s (with_logs (accepted c) (taken c ++ [e]) c)))
      end
  | ExecBegin e, Go =>
      match begin_invocation (sub c) with
      | (false, s) => Some (set_stack j k (with_sub (fetch_add Dropped 1 s) c))
      | (true, s) => Some (set_stack j (Callback e :: k) (with_sub s c))
      end
  | Unsubscribe, Go =>
      Some (set_stack j (StopMark false :: IdleWait (invoking k) :: k)
        (with_sub (unsubscribe_mark (sub c)).2 c))
  | StopMark drains, Go =>
      if is_isolated (options_ (sub c)) then
        Some (set_stack j (StopJoin :: k) (with_sub (stop_mark drains (sub c)) c))
      else Some (set_stack j k c)
  | StopJoin, Go =>
      if join_owner c is Some _ then None
      else if joinable c && is_executor j c then Some (set_stack j k c)
      else if joinable c then Some (set_stack j (Join :: k) (with_join (Some j) true c))
      else Some (set_stack j k c)
  | Join, Go =>
      if stacks c !! 0%nat is Some [] then Some (set_stack j k (with_join None false c)) else None
  | IdleWait from_callback, Go =>
      if from_callback || (in_flight_ (sub c) =? 0) then Some (set_stack j k c) else None
  | _, _ => None
  end.

Definition step (ch : choice) (j : nat) c : option config :=
  match stacks c !! j with
  | None => None
  | Some (f :: k) => step_frame ch j f k c
  | Some [] =>
      if is_executor j c then None
      else match ch with
      | StartInvoke e => Some (set_stack j [Offer e] c)
      | StartUnsubscribe => Some (set_stack j [Unsubscribe] c)
      | StartStop drains => Some (set_stack j [StopMark drains] c)
      | _ => None
      end
  end.

Definition one_step c c' : Prop := ∃ ch j, step ch j c = Some c'.
Definition reachable : config -> config -> Prop := rtc one_step.

(** Follow a schedule; an entry that is not enabled is skipped. *)
Fixpoint run (sched : list (choice * nat)) c : config :=
  match sched with
  | [] => c
  | (ch, j) :: sched => run sched (default c (step ch j c))
  end.

(** [n] idle threads; an isolated subscriber also has its executor. *)
Definition start (s : subscriber E) (n : nat) : config :=
  mk_config s ((if is_isolated (options_ s) then [Loop] else []) :: replicate n []) None None
    (is_isolated (options_ s)) [] [].

(** ** Counting frames *)

(** Between [begin_invocation] and the decrement of [in_flight_]. *)
Definition inside (f : frame) : Z :=
  match f with SerialLock _ | Callback _ | Finish _ | Leave => 1 | _ => 0 end.

(** An event offered but not yet delivered, dropped, rejected or mailed. *)
Definition pending (f : frame) : Z :=
  match f with
  | Begin _ | SerialLock _ | Callback _ | Finish _ | Enqueue _ | ExecBegin _ => 1
  | _ => 0
  end.

Definition total (w : frame -> Z) c : Z := sum_of (sum_of w) (stacks c).

Lemma total_upd w c c' j l l' :
  stacks c !! j = Some l -> stacks c' = <[j := l']> (stacks c) ->
  total w c' = total w c - sum_of w l + sum_of w l'.
Proof. intros Hl Hc'. unfold total. rewrite Hc'. by apply sum_of_insert. Qed.

(** Case analysis on an enabled step: the stack before is [l], and [c'] the
    configuration after, in each case in the form its definition gives. *)
Ltac step_cases Hs Hl :=
  match type of Hs with step _ ?j ?c = Some _ =>
    unfold step in Hs; destruct (stacks c !! j) as [[|f k]|] eqn:Hl; [|destruct f|done]
  end;
  cbn [step_frame] in Hs; repeat (case_match; try done); simplify_eq.

(** Expand the sections a step ran on the subscriber. *)
Ltac effects :=
  unfold begin_invocation, executor_take, enqueue_isolated, finish_leave, stop_mark,
    finish_count, unsubscribe_mark in *; case_tests.

Ltac sum_up Hl := erewrite total_upd by (exact Hl || reflexivity); sum_cons; cbn.

Lemma flight_step ch j c c' :
  step ch j c = Some c' -> eq64 (in_flight_ (sub c)) (total inside c) ->
  eq64 (in_flight_ (sub c')) (total inside c').
Proof.
  intros Hs H. step_cases Hs Hl; sum_up Hl; effects; cbn; eq64_by H.
Qed.

(** Every offered event is delivered, dropped, rejected, in the mailbox or
    on its way. *)
Definition accounted c : Prop :=
  let m := metrics_ (sub c) in
  eq64 (offered m)
    (delivered m + dropped m + rejected m + zlength (mailbox_ (sub c)) + total pending c).

Lemma accounted_step ch j c c' : step ch j c = Some c' -> accounted c -> accounted c'.
Proof.
  unfold accounted. intros Hs H. step_cases Hs Hl; sum_up Hl; effects; cbn;
    destruct (metrics_ (sub c)) as [o d dr re ce sl]; cbn in *;
    repeat match goal with Hm : mailbox_ _ = _ |- _ => rewrite Hm in * end; zlen; eq64_by H.
Qed.

(** *** The mailbox *)

(** What entered the mailbox has been taken from it in the same order, is
    still there, or was thrown away when delivery stopped without draining,
    after which nothing enters. *)
Record mailbox_inv c : Prop := {
  mailbox_order : ∃ lost, accepted c = taken c ++ mailbox_ (sub c) ++ lost /\
    (lost <> [] -> drain_mailbox_ (sub c) = false);
  mailbox_bound : is_isolated (options_ (sub c)) = true ->
    zlength (mailbox_ (sub c)) <= mailbox_capacity (options_ (sub c));
  mailbox_stopped : executor_stopping_ (sub c) = true -> mailbox_accepting_ (sub c) = false;
  mailbox_cleared : drain_mailbox_ (sub c) = false ->
    mailbox_ (sub c) = [] /\ executor_stopping_ (sub c) = true;
}.

Lemma mailbox_push e j k c :
  mailbox_inv c -> mailbox_accepting_ (sub c) = true ->
  (is_isolated (options_ (sub c)) = true ->
   zlength (mailbox_ (sub c)) < mailbox_capacity (options_ (sub c))) ->
  mailbox_inv (set_stack j k (with_sub (with_mailbox (mailbox_ (sub c) ++ [e]) (sub c))
    (with_logs (accepted c ++ drop (length (mailbox_ (sub c))) (mailbox_ (sub c) ++ [e]))
       (taken c) c))).
Proof.
  intros [(lost & Ho & Hlost) Hb Hst Hcl] Hacc Hroom.
  assert (drain_mailbox_ (sub c) = true) as Hd.
  { destruct (drain_mailbox_ (sub c)) eqn:Hd; [done|]. destruct (Hcl eq_refl) as [_ Hs].
    rewrite Hst in Hacc by done. done. }
  assert (lost = []) as ->.
  { destruct lost; [done|]. rewrite Hlost in Hd by done. done. }
  split; cbn; rewrite ?drop_app_length.
  - exists []. rewrite Ho, !app_nil_r. split; [by rewrite (assoc_L (++))|done].
  - intros Hi. rewrite zlength_app, zlength_cons. zlen_nil. specialize (Hroom Hi). lia.
  - done.
  - intros Hf. congruence.
Qed.

Lemma mailbox_take e l j k c :
  mailbox_inv c -> mailbox_ (sub c) = e :: l ->
  mailbox_inv (set_stack j k (with_sub (with_mailbox l (sub c))
    (with_logs (accepted c) (taken c ++ [e]) c))).
Proof.
  intros [(lost & Ho & Hlost) Hb Hst Hcl] Hm. rewrite Hm in *. split; cbn.
  - exists lost. split; [|done]. rewrite Ho. by rewrite <- (assoc_L (++)).
  - intros Hi. specialize (Hb Hi). rewrite zlength_cons in Hb. lia.
  - done.
  - intros Hf. by destruct (Hcl Hf).
Qed.

Lemma mailbox_stop d j k c :
  mailbox_inv c -> mailbox_inv (set_stack j k (with_sub (stop_mark d (sub c)) c)).
Proof.
  intros [(lost & Ho & Hlost) Hb Hst Hcl]. unfold stop_mark. destruct d; split; cbn; try done.
  - exists lost. split; [done|]. intros Hl. by rewrite (Hlost Hl).
  - rewrite andb_true_r. intros Hf. by destruct (Hcl Hf).
  - exists (mailbox_ (sub c) ++ lost). split; [done|]. by rewrite andb_false_r.
  - intros Hi. specialize (Hb Hi). pose proof (zlength_nonneg (mailbox_ (sub c))). zlen_nil. lia.
Qed.

(** Only the mailbox, its flags and the two logs matter. *)
Lemma mailbox_ext c c' :
  mailbox_inv c -> options_ (sub c') = options_ (sub c) ->
  mailbox_ (sub c') = mailbox_ (sub c) ->
  mailbox_accepting_ (sub c') = mailbox_accepting_ (sub c) ->
  executor_stopping_ (sub c') = executor_stopping_ (sub c) ->
  drain_mailbox_ (sub c') = drain_mailbox_ (sub c) ->
  accepted c' = accepted c -> taken c' = taken c -> mailbox_inv c'.
Proof. intros [] Ho Hm Ha He Hd Hac Ht. split; by rewrite ?Ho, ?Hm, ?Ha, ?He, ?Hd, ?Hac, ?Ht. Qed.

Lemma mailbox_enqueue e s j k c :
  mailbox_inv c ->
  (∃ r, enqueue_isolated copy e (sub c) = Ret r s) \/ (∃ x, enqueue_isolated copy e (sub c) = Throw x s) ->
  mailbox_inv (set_stack j k (with_sub s (with_logs
    (accepted c ++ drop (length (mailbox_ (sub c))) (mailbox_ s)) (taken c) c))).
Proof.
  intros Hi He. destruct (mailbox_accepting_ (sub c)) eqn:Ha.
  - assert (zlength (mailbox_ (sub c)) <> mailbox_capacity (options_ (sub c)) \/
      zlength (mailbox_ (sub c)) < mailbox_capacity (options_ (sub c)) ->
      is_isolated (options_ (sub c)) = true ->
      zlength (mailbox_ (sub c)) < mailbox_capacity (options_ (sub c))) as Hroom.
    { intros H Hiso. pose proof (mailbox_bound _ Hi Hiso). lia. }
    unfold enqueue_isolated, mailbox_full in He. rewrite Ha in He. cbn in He.
    destruct He as [[r He]|[x He]]; case_tests;
      first [ by (apply mailbox_push; [done..|apply Hroom; lia])
            | by (eapply mailbox_ext; [exact Hi|..]; cbn; rewrite ?drop_all, ?app_nil_r) ].
  - unfold enqueue_isolated, mailbox_full in He. rewrite Ha in He. cbn in He.
    destruct He as [[r He]|[x He]]; case_tests;
      by (eapply mailbox_ext; [exact Hi|..]; cbn; rewrite ?drop_all, ?app_nil_r).
Qed.

Lemma mailbox_step ch j c c' : step ch j c = Some c' -> mailbox_inv c -> mailbox_inv c'.
Proof.
  intros Hs Hi.
  step_cases Hs Hl; try (eapply mailbox_ext; [exact Hi|..]; effects; done).
  - eapply mailbox_enqueue; eauto.
  - eapply mailbox_enqueue; eauto.
  - effects. by apply mailbox_take.
  - by apply mailbox_stop.
Qed.

(** ** The shape of a thread's stack *)

(** What is below an invocation. *)
Definition below (p : delivery_policy) (k : stack) : bool :=
  match p, k with
  | concurrent, [] | serialized, [SerialUnlock] | isolated, [Loop] => true
  | _, _ => false
  end.

Definition is_nil {A} (k : list A) : bool := match k with [] => true | _ => false end.

Fixpoint shape (p : delivery_policy) (l : stack) : bool :=
  match l with
  | [] => true
  | f :: k =>
      match f with
      | Offer _ | Enqueue _ | SerialUnlock => is_nil k
      | Loop => is_nil k && bool_decide (p = isolated)
      | Begin _ => is_nil k && negb (bool_decide (p = isolated))
      | SerialLock _ => is_nil k && bool_decide (p = serialized)
      | ExecBegin _ => below isolated k && bool_decide (p = isolated)
      | Callback _ | Finish _ | Leave => below p k
      | Unsubscribe | IdleWait _ | StopMark _ | StopJoin | Join => shape p k
      end
  end.

Lemma step_options ch j c c' : step ch j c = Some c' -> options_ (sub c') = options_ (sub c).
Proof. intros Hs. step_cases Hs Hl; effects; done. Qed.

Lemma below_cases p k : below p k = true ->
  (p = concurrent /\ k = []) \/ (p = serialized /\ k = [SerialUnlock]) \/ (p = isolated /\ k = [Loop]).
Proof. unfold below. intros Hb. case_tests; naive_solver. Qed.

Definition shapes c : Prop := ∀ j l, stacks c !! j = Some l -> shape (policy c) l = true.

Lemma shape_step ch j c c' : step ch j c = Some c' -> shapes c -> shapes c'.
Proof.
  intros Hs Hsh. assert (policy c' = policy c) as Hp.
  { unfold policy. by rewrite (step_options ch j c c' Hs). }
  assert (∀ l, stacks c !! j = Some l -> shape (policy c) l = true -> ∃ l',
    stacks c' = <[j := l']> (stacks c) /\ shape (policy c) l' = true) as Hj.
  { intros l Hlj Hl'. step_cases Hs Hl; eexists; (split; [reflexivity|]); cbn in *.
    all: unfold is_isolated, policy, below in *;
      destruct (delivery (options_ (sub c))); try done; destruct k as [|[] [|]]; done. }
  intros i l Hi. rewrite Hp. unfold step in Hs. destruct (stacks c !! j) as [l0|] eqn:Hl; [|done].
  destruct (Hj l0 eq_refl (Hsh j l0 Hl)) as (l' & Heq & Hl'). rewrite Heq in Hi.
  apply list_lookup_insert_Some in Hi as [(_ & <- & _)|[_ Hi]]; [done|by eapply Hsh].
Qed.

Lemma shape_inside p l : shape p l = true -> 0 <= sum_of inside l <= 1.
Proof.
  induction l as [|f k IH]; [done|]. intros Hs. sum_cons.
  destruct f; cbn in *; try (apply andb_true_iff in Hs as [Hs _]);
    first [ specialize (IH Hs); lia
          | destruct k; [sum_cons; lia|done]
          | apply below_cases in Hs as [[_ ->]|[[_ ->]|[_ ->]]]; sum_cons; cbn; lia
          | apply (below_cases isolated) in Hs as [[_ ->]|[[_ ->]|[_ ->]]]; sum_cons; cbn; lia ].
Qed.

(** ** Unsubscription *)

(** Once [unsubscribe] has marked the subscriber it stays inactive. *)
Definition gone c : Prop :=
  ∀ j l b, stacks c !! j = Some l -> IdleWait b ∈ l -> active_ (sub c) = false.

Lemma inactive_step ch j c c' :
  step ch j c = Some c' -> active_ (sub c) = false -> active_ (sub c') = false.
Proof. intros Hs Ha. step_cases Hs Hl; effects; cbn in *; congruence. Qed.

(** The stack of the stepping thread is replaced and the others are kept. *)
Lemma step_stacks ch j c c' : step ch j c = Some c' ->
  ∃ l l', stacks c !! j = Some l /\ stacks c' = <[j := l']> (stacks c).
Proof. intros Hs. step_cases Hs Hl; eexists _, _; (split; [reflexivity|cbn; reflexivity]). Qed.

Lemma gone_step ch j c c' : step ch j c = Some c' -> gone c -> gone c'.
Proof.
  intros Hs Hg. pose proof (inactive_step ch j c c' Hs) as Hin.
  destruct (decide (active_ (sub c') = false)) as [|Ha]; [by intros ????|].
  assert (active_ (sub c) = true) as Hac by (by destruct (active_ (sub c)); [|exfalso; auto]).
  assert (∀ i l b, stacks c !! i = Some l -> IdleWait b ∉ l) as Hno.
  { intros i l b Hi Hb. specialize (Hg i l b Hi Hb). congruence. }
  intros i l b Hi Hb. exfalso. revert Hi Hb.
  step_cases Hs Hl; cbn; intros [(_ & <- & _)|[_ Hi]]%list_lookup_insert_Some Hb;
    try (by eapply Hno); apply (Hno _ _ b Hl); try done;
    repeat (apply elem_of_cons in Hb as [Hb|Hb]; [done|]); try (by apply list_elem_of_further);
    by apply elem_of_nil in Hb.
Qed.

(** Nobody inside and nobody admitted any more. *)
Definition retired c : Prop := active_ (sub c) = false /\ total inside c <= 0.

Lemma retired_step ch j c c' : step ch j c = Some c' -> retired c -> retired c'.
Proof.
  intros Hs [Ha Hi]. split; [by eapply inactive_step|].
  step_cases Hs Hl; sum_up Hl; effects; cbn in *; try congruence; lia.
Qed.

(** ** The serial mutex *)

Definition unlocks (f : frame) : Z := match f with SerialUnlock => 1 | _ => 0 end.
Definition running (f : frame) : Z := match f with Callback _ => 1 | _ => 0 end.

Definition held (o : option nat) : Z := if o is Some _ then 1 else 0.

Definition serial_inv c : Prop := total unlocks c = held (serial_owner c).

Lemma held_range o : 0 <= held o <= 1.
Proof. destruct o; simpl; lia. Qed.

Lemma serial_step ch j c c' : step ch j c = Some c' -> serial_inv c -> serial_inv c'.
Proof.
  unfold serial_inv. intros Hs Hi. pose proof (held_range (serial_owner c)).
  assert (∀ l, stacks c !! j = Some l -> sum_of unlocks l <= total unlocks c) as Hle.
  { intros l. apply (sum_of_lookup (sum_of unlocks)). intros k. apply sum_of_nonneg. by intros []. }
  step_cases Hs Hl; sum_up Hl; specialize (Hle _ eq_refl); rewrite ?sum_of_cons in Hle;
    try pose proof (sum_of_nonneg unlocks k ltac:(by intros [])); cbn in *; try lia.
Qed.

(** ** The executor *)

(** Only thread 0 runs [executor_loop]. *)
Definition one_loop c : Prop := ∀ j l, stacks c !! j = Some l -> Loop ∈ l -> j = 0%nat.

Lemma one_loop_step ch j c c' : step ch j c = Some c' -> one_loop c -> one_loop c'.
Proof.
  intros Hs Ho. assert (∀ l, stacks c !! j = Some l -> ∃ l', stacks c' = <[j := l']> (stacks c) /\
    (Loop ∈ l' -> Loop ∈ l)) as Hj.
  { intros l Hlj. step_cases Hs Hl; eexists; (split; [reflexivity|]); intros Hin;
      repeat (apply elem_of_cons in Hin as [Hin|Hin]; [done|]);
      try (by apply elem_of_nil in Hin); by repeat (first [left; done | right]). }
  intros i l Hi Hin. unfold step in Hs. destruct (stacks c !! j) as [l0|] eqn:Hl; [|done].
  destruct (Hj l0 eq_refl) as (l' & Heq & Hl'). rewrite Heq in Hi.
  apply list_lookup_insert_Some in Hi as [(<- & <- & _)|[_ Hi]]; [|by eapply Ho].
  eapply Ho; [done|]. auto.
Qed.

(** The executor returns once it was told to stop and has nothing to do. *)
Definition exec_inv c : Prop :=
  policy c = isolated -> ∀ l, stacks c !! 0%nat = Some l ->
    last l = Some Loop \/
    (l = [] /\ executor_stopping_ (sub c) = true /\ mailbox_ (sub c) = []).

Lemma stopped_step ch j c c' :
  step ch j c = Some c' -> executor_stopping_ (sub c) = true ->
  mailbox_accepting_ (sub c) = false -> mailbox_ (sub c) = [] ->
  executor_stopping_ (sub c') = true /\ mailbox_ (sub c') = [].
Proof.
  intros Hs He Ha Hm.
  step_cases Hs Hl; effects; cbn in *; try done; simplify_eq; try congruence; by rewrite Ha in *.
Qed.

(** A step replaces the top frame. *)
Lemma step_frame_stack ch j f k c c' :
  step_frame ch j f k c = Some c' -> ∃ fs, stacks c' = <[j := fs ++ k]> (stacks c).
Proof.
  intros Hs. destruct f; cbn [step_frame] in Hs; repeat (case_match; try done); simplify_eq;
    first [ by exists [] | by eexists [_] | by eexists [_; _] ].
Qed.

Lemma loop_step ch j k c c' :
  mailbox_inv c -> step_frame ch j Loop k c = Some c' ->
  (stacks c' = <[j := k]> (stacks c) /\ executor_stopping_ (sub c') = true /\
   mailbox_ (sub c') = []) \/
  ∃ e, stacks c' = <[j := ExecBegin e :: Loop :: k]> (stacks c).
Proof.
  intros [_ _ _ Hcl] Hs. cbn [step_frame] in Hs.
  repeat (case_match; try done); simplify_eq; effects; cbn; [left..|by right; eexists].
  - done.
  - split; [done|]. match goal with Hb : _ && negb _ = true |- _ =>
      apply andb_true_iff in Hb as [Hst Hd%negb_true_iff] end.
    split; [done|]. apply Hcl in Hd as [Hd _]. congruence.
Qed.

Lemma exec_step ch j c c' :
  step ch j c = Some c' -> mailbox_inv c -> exec_inv c -> exec_inv c'.
Proof.
  intros Hs Hm He Hiso l Hl. unfold policy in Hiso. rewrite (step_options ch j c c' Hs) in Hiso.
  specialize (He Hiso). unfold step in Hs.
  destruct (stacks c !! j) as [[|f k]|] eqn:Hj; [| |done].
  - destruct (is_executor j c) eqn:Hx; [done|].
    assert (j <> 0%nat) as Hj0.
    { intros ->. unfold is_executor, policy in Hx. by rewrite Hiso in Hx. }
    destruct ch; simplify_eq; cbn in *; rewrite list_lookup_insert_ne in Hl by done; auto.
  - destruct (decide (j = 0%nat)) as [->|Hj0].
    + destruct (He _ Hj) as [Hlast|[? _]]; [|done]. destruct k as [|g k].
      * injection Hlast as ->. destruct (loop_step ch 0 [] c c' Hm Hs) as [(Hst & ? & ?)|[e Hst]];
          rewrite Hst, list_lookup_insert_eq in Hl by (by eapply lookup_lt_Some);
          simplify_eq; auto.
      * destruct (step_frame_stack _ _ _ _ _ _ Hs) as [fs Hst].
        rewrite Hst, list_lookup_insert_eq in Hl by (by eapply lookup_lt_Some). simplify_eq.
        left. rewrite last_app_cons. by rewrite last_cons_cons in Hlast.
    + destruct (step_frame_stack _ _ _ _ _ _ Hs) as [fs Hst].
      rewrite Hst, list_lookup_insert_ne in Hl by done.
      destruct (He l Hl) as [|(-> & Hstop & Hmb)]; [by left|right]. split; [done|].
      apply (stopped_step ch j c c'); try done; [unfold step; by rewrite Hj|].
      by apply (mailbox_stopped _ Hm).
Qed.

(** A subscriber that is not isolated never uses its mailbox. *)
Definition unmailed c : Prop :=
  is_isolated (options_ (sub c)) = false ->
  mailbox_ (sub c) = [] /\
  ∀ j l e, stacks c !! j = Some l -> Enqueue e ∉ l.

Lemma unmailed_step ch j c c' :
  step ch j c = Some c' -> unmailed c -> unmailed c'.
Proof.
  intros Hs Hu Hiso. rewrite (step_options ch j c c' Hs) in Hiso.
  destruct (Hu Hiso) as [Hm Hno]. clear Hu.
  assert (∀ l e, stacks c !! j = Some l -> Enqueue e ∉ l) as Hj
    by (intros; by eapply Hno).
  assert (mailbox_ (sub c') = [] /\ ∃ l', stacks c' = <[j := l']> (stacks c) /\
    ∀ e, Enqueue e ∉ l') as [? (l' & Hst & Hl')].
  { step_cases Hs Hl; try (exfalso; eapply (Hj _ _ eq_refl); left; done);
      (split; [effects; cbn in *; congruence|eexists; split; [reflexivity|]]);
      intros e0 Hin; repeat (apply elem_of_cons in Hin as [Hin|Hin]; [cbn in *; congruence|]);
      try (by apply elem_of_nil in Hin);
      eapply (Hj _ e0 eq_refl); repeat (first [exact Hin | right]). }
  split; [done|]. intros i l e Hi. rewrite Hst in Hi.
  apply list_lookup_insert_Some in Hi as [(_ & <- & _)|[_ Hi]]; [done|by eapply Hno].
Qed.

(** Once joined, the executor's thread stays joined. *)
Lemma joinable_step ch j c c' :
  step ch j c = Some c' -> joinable c' = true -> joinable c = true.
Proof. intros Hs Hj. step_cases Hs Hl; cbn in *; congruence. Qed.

(** ** The invariant *)

Record inv c : Prop := {
  inv_flight : eq64 (in_flight_ (sub c)) (total inside c);
  inv_accounted : accounted c;
  inv_mailbox : mailbox_inv c;
  inv_shapes : shapes c;
  inv_gone : gone c;
  inv_serial : serial_inv c;
  inv_loop : one_loop c;
  inv_exec : exec_inv c;
}.

Lemma sub_inv_step ch j c c' : step ch j c = Some c' -> inv c -> inv c'.
Proof.
  intros Hs []. split.
  - by eapply flight_step.
  - by eapply accounted_step.
  - by eapply mailbox_step.
  - by eapply shape_step.
  - by eapply gone_step.
  - by eapply serial_step.
  - by eapply one_loop_step.
  - by eapply exec_step.
Qed.

Lemma make_fresh options copyable (s : subscriber E) :
  make options copyable = inr s ->
  s = mk_subscriber options 0 true false [] true false true zero_metrics /\
  (is_isolated options = true -> mailbox_capacity options <> 0).
Proof.
  unfold make. intros Hm. destruct (_ <? 0); [done|]. destruct (is_isolated options).
  - destruct (Z.eqb_spec (mailbox_capacity options) 0); [done|]. destruct copyable; by simplify_eq/=.
  - by simplify_eq/=.
Qed.

Lemma start_total w s n :
  w Loop = 0 -> total w (start s n) = 0.
Proof.
  intros Hw. unfold total. cbn. sum_cons.
  assert (sum_of (sum_of w) (replicate n []) = 0) as ->.
  { induction n as [|n IH]; [done|]. cbn. sum_cons. by rewrite IH. }
  destruct (is_isolated (options_ s)); sum_cons; rewrite ?Hw; done.
Qed.

Lemma start_stack s n j l :
  stacks (start s n) !! j = Some l ->
  l = [] \/ (l = [Loop] /\ j = 0%nat /\ is_isolated (options_ s) = true).
Proof.
  cbn. destruct j as [|j]; cbn; [|intros [-> _]%lookup_replicate; by left].
  intros [= <-]. destruct (is_isolated (options_ s)); auto.
Qed.

Lemma sub_start_inv options copyable (s : subscriber E) n :
  make options copyable = inr s -> 0 <= mailbox_capacity options -> inv (start s n).
Proof.
  intros [-> _]%make_fresh Hc. split.
  - by rewrite start_total.
  - unfold accounted. rewrite start_total by done. done.
  - split; try done. by exists [].
  - intros j l [->|(-> & _ & Hi)]%start_stack; [done|].
    unfold is_isolated, policy in *. cbn in *. by rewrite Hi.
  - by intros j l b [->|(-> & _)]%start_stack Hb;
      [apply elem_of_nil in Hb|apply list_elem_of_singleton in Hb].
  - unfold serial_inv. by rewrite start_total.
  - intros j l [->|(-> & ? & _)]%start_stack Hin; [by apply elem_of_nil in Hin|done].
  - intros Hiso l Hl. left. cbn in Hl. unfold policy in Hiso. cbn in Hiso.
    unfold is_isolated in Hl. rewrite Hiso in Hl. by simplify_eq/=.
Qed.

Lemma sub_reachable_inv c c' : inv c -> reachable c c' -> inv c'.
Proof.
  intros Hi Hr. eapply rtc_invariant; [|exact Hi|exact Hr]. intros a b Ha (ch & j & Hs).
  by eapply sub_inv_step.
Qed.

Lemma reachable_length c c' : reachable c c' -> length (stacks c') = length (stacks c).
Proof.
  induction 1 as [|a b d (ch & j & Hs) _ IH]; [done|]. rewrite IH.
  destruct (step_stacks ch j a b Hs) as (l & l' & _ & ->). apply length_insert.
Qed.

Lemma reachable_options c c' : reachable c c' -> options_ (sub c') = options_ (sub c).
Proof.
  induction 1 as [|a b d (ch & j & Hs) _ IH]; [done|]. rewrite IH. by eapply step_options.
Qed.

(** As many invocations in flight as threads at most, so none when
    [in_flight_] is zero. *)
Lemma idle_means_nobody c :
  inv c -> zlength (stacks c) < 2 ^ 64 -> in_flight_ (sub c) = 0 -> total inside c <= 0.
Proof.
  intros Hi Hn Hf. pose proof (inv_flight _ Hi) as He. rewrite Hf in He.
  assert (total inside c <= 1 * zlength (stacks c)).
  { apply sum_of_bound. intros l [j Hl]%list_elem_of_lookup.
    apply (shape_inside (policy c)). by eapply (inv_shapes _ Hi). }
  assert (0 <= total inside c).
  { apply sum_of_nonneg. intros l. apply sum_of_nonneg. by intros []. }
  apply u64_inj_close in He; lia.
Qed.

Lemma reachable_run sched c : reachable c (run sched c).
Proof.
  revert c. induction sched as [|[ch j] sched IH]; intros c; cbn [run]; [constructor|].
  destruct (step ch j c) as [c'|] eqn:Hs; cbn; [|apply IH].
  eapply rtc_l; [by exists ch, j|apply IH].
Qed.

(** ** What the delivery protocol promises *)

Section promises.
Context (options : subscription_options) (copyable : bool) (s : subscriber E) (n : nat).
Context (Hmake : make options copyable = inr s) (Hcap : 0 <= mailbox_capacity options).
Context (Hn : Z.of_nat n < 2 ^ 64 - 1).

Lemma from_start c : reachable (start s n) c -> inv c /\ zlength (stacks c) < 2 ^ 64.
Proof.
  intros Hr. split; [by eapply sub_reachable_inv, Hr; eapply sub_start_inv|].
  unfold zlength. rewrite (reachable_length _ _ Hr). cbn. rewrite length_replicate. lia.
Qed.

Lemma from_options c : reachable (start s n) c -> options_ (sub c) = options.
Proof. intros Hr. rewrite (reachable_options _ _ Hr). by apply make_fresh in Hmake as [-> _]. Qed.

(** C23: when [unsubscribe], not called from the callback itself, returns,
    no callback of this subscription is running, and none ever starts again
    whatever the threads do. *)
Theorem unsubscribe_is_final c j k c1 c2 :
  reachable (start s n) c -> stacks c !! j = Some (IdleWait false :: k) ->
  step Go j c = Some c1 -> reachable c1 c2 ->
  ∀ i l e, stacks c2 !! i = Some l -> Callback e ∉ l.
Proof.
  intros Hr Hj Hs Hr2. destruct (from_start c Hr) as [Hi Hlen].
  assert (retired c1) as Hret.
  { eapply retired_step; [exact Hs|]. split.
    - apply (inv_gone _ Hi j _ false Hj). left.
    - apply idle_means_nobody; [done..|]. unfold step in Hs. rewrite Hj in Hs. cbn in Hs.
      by destruct (Z.eqb_spec (in_flight_ (sub c)) 0). }
  assert (retired c2) as [_ H2].
  { eapply rtc_invariant; [|exact Hret|exact Hr2]. intros a b Ha (ch & i & Hab).
    by eapply retired_step. }
  intros i l e Hl He.
  assert (∀ f, 0 <= inside f) as Hpos by by intros [].
  pose proof (sum_of_elem inside l (Callback e) Hpos He).
  pose proof (sum_of_lookup (sum_of inside) (stacks c2) i l
    (λ l, sum_of_nonneg inside l Hpos) Hl). unfold total in H2. cbn in *. lia.
Qed.

(** C25: at any moment, up to the wrap-around of the counters, the events
    offered are those delivered, dropped, rejected, waiting in the mailbox
    or in the hands of a thread. *)
Theorem metrics_account_for_every_event c :
  reachable (start s n) c ->
  eq64 (offered (metrics (sub c)))
    (delivered (metrics (sub c)) + dropped (metrics (sub c)) + rejected (metrics (sub c)) +
     zlength (mailbox_ (sub c)) + total pending c).
Proof. intros Hr. apply (inv_accounted _ (proj1 (from_start c Hr))). Qed.

(** C24: the mailbox of an isolated subscriber never exceeds its capacity,
    the executor takes events in the order they were accepted, and none is
    skipped unless delivery was stopped without draining. *)
Theorem mailbox_is_bounded_fifo c :
  reachable (start s n) c -> is_isolated options = true ->
  zlength (mailbox_ (sub c)) <= mailbox_capacity options /\
  (taken c ++ mailbox_ (sub c)) `prefix_of` accepted c /\
  (drain_mailbox_ (sub c) = true -> accepted c = taken c ++ mailbox_ (sub c)).
Proof.
  intros Hr Hiso. destruct (from_start c Hr) as [[] _].
  pose proof (from_options c Hr) as Ho.
  destruct inv_mailbox0 as [(lost & Hac & Hlost) Hb _ _]. rewrite Ho in Hb.
  split_and!; [by apply Hb|..].
  - exists lost. by rewrite Hac, (assoc_L (++)).
  - intros Hd. assert (lost = []) as ->; [|by rewrite app_nil_r in Hac].
    destruct lost; [done|]. rewrite Hlost in Hd; done.
Qed.

(** A serialized subscriber runs at most one callback at a time. *)
Theorem serialized_callbacks_exclusive c :
  reachable (start s n) c -> delivery options = serialized -> total running c <= 1.
Proof.
  intros Hr Hp. destruct (from_start c Hr) as [[] _].
  assert (policy c = serialized) as Hpc by (unfold policy; by rewrite (from_options c Hr)).
  assert (total running c <= total unlocks c) as Hle.
  { apply sum_of_le. intros l [j Hl]%list_elem_of_lookup. specialize (inv_shapes0 j l Hl).
    rewrite Hpc in inv_shapes0. clear -inv_shapes0.
    induction l as [|f l IH]; [done|]. sum_cons. 
    destruct f; cbn in *; try (apply andb_true_iff in inv_shapes0 as [Hx _]);
      try (specialize (IH inv_shapes0); lia);
      try (destruct l as [|[] [|]]; done). }
  rewrite inv_serial0 in Hle. pose proof (held_range (serial_owner c)). lia.
Qed.

#[local] Arguments below : simpl never.

Lemma no_loop_no_callback l e : shape isolated l = true -> Callback e ∈ l -> Loop ∈ l.
Proof.
  induction l as [|f l IH]; intros Hs He; [by apply elem_of_nil in He|].
  apply elem_of_cons in He as [<-|He].
  - cbn in Hs. apply below_cases in Hs as [[? _]|[[? _]|[_ ->]]]; [done..|]. right. left.
  - right. destruct f; cbn in Hs; try (apply andb_true_iff in Hs as [Hs _]);
      try (by apply IH); try (destruct l; [by apply elem_of_nil in He|done]);
      apply below_cases in Hs as [[? _]|[[? _]|[_ ->]]]; try done; left.
Qed.

(** C26: when a [stop_delivery] that joined the executor lets go, the
    executor has returned, no callback runs, the mailbox is empty, and if
    every stop so far asked to drain, the executor took every accepted event. *)
Theorem join_leaves_nothing_behind c j k c1 :
  reachable (start s n) c -> is_isolated options = true ->
  stacks c !! j = Some (Join :: k) -> step Go j c = Some c1 ->
  mailbox_ (sub c1) = [] /\
  (drain_mailbox_ (sub c1) = true -> taken c1 = accepted c1) /\
  ∀ i l e, stacks c1 !! i = Some l -> Callback e ∉ l.
Proof.
  intros Hr Hiso Hj Hs. destruct (from_start c Hr) as [Hi _].
  assert (policy c = isolated) as Hp.
  { unfold policy. rewrite (from_options c Hr). by apply bool_decide_eq_true in Hiso. }
  assert (inv c1) as Hi1 by by eapply sub_inv_step.
  unfold step in Hs. rewrite Hj in Hs. cbn in Hs.
  destruct (stacks c !! 0%nat) as [[|? ?]|] eqn:H0; simplify_eq.
  destruct (inv_exec _ Hi Hp [] H0) as [?|(_ & _ & Hm)]; [done|].
  split_and!; [done|..].
  - intros Hd. destruct (mailbox_order _ (inv_mailbox _ Hi)) as (lost & Ha & Hlost).
    cbn in *. destruct lost; [|by rewrite Hlost in Hd]. by rewrite Ha, Hm, app_nil_r.
  - intros i l e Hl He. pose proof (inv_shapes _ Hi1 i l Hl) as Hsh. unfold policy in *. cbn in *.
    rewrite Hp in Hsh. pose proof (no_loop_no_callback l e Hsh He) as Hloop.
    pose proof (inv_loop _ Hi1 i l Hl Hloop) as ->. cbn in Hl.
    destruct (decide (j = 0%nat)) as [->|]; [congruence|].
    rewrite list_lookup_insert_ne in Hl by done.
    assert (Some [] = Some l) as [= <-] by exact (eq_trans (eq_sym H0) Hl).
    by apply elem_of_nil in He.
Qed.

End promises.

End threads.
Arguments frame : clear implicits.
Arguments config : clear implicits.
Arguments choice : clear implicits.

Lemma run_app {E} copy sched sched' (c : config E) :
  run copy (sched ++ sched') c = run copy sched' (run copy sched c).
Proof. revert c. induction sched as [|[ch j] sched IH]; intros c; [done|apply IH]. Qed.

(** C33: a callback of an isolated subscriber that unsubscribes itself while
    a shutdown waits for the executor is stuck for good: the shutdown holds
    [executor_join_mutex_], for which the callback waits. *)
Theorem self_unsubscribe_deadlocks {E} options (copy : E -> exn + E) (s : subscriber E) e e' :
  make options true = inr s -> is_isolated options = true -> 0 < mailbox_capacity options ->
  copy e = inr e' ->
  ∃ sched, let c := run (Some copy) sched (start s 1) in
    stacks c = [[StopJoin; IdleWait true; Callback e'; Loop]; [Join]] /\
    ∀ ch j, step (Some copy) ch j c = None.
Proof.
  intros [-> _]%make_fresh Hiso Hcap He.
  destruct options as [d g cap thr]. unfold is_isolated in Hiso. cbn in Hiso, Hcap.
  apply bool_decide_eq_true in Hiso as ->. destruct cap as [|cap|cap]; [lia| |lia].
  set (fresh := mk_subscriber _ _ _ _ _ _ _ _ _).
  exists ([(StartInvoke e, 1%nat); (Go, 1%nat); (Go, 1%nat)] ++
    [(Go, 0%nat); (Go, 0%nat); (StartStop true, 1%nat); (Go, 1%nat); (Go, 1%nat);
     (CallUnsubscribe, 0%nat); (Go, 0%nat); (Go, 0%nat)]).
  rewrite run_app.
  assert (run (Some copy) [(StartInvoke e, 1%nat); (Go, 1%nat); (Go, 1%nat)] (start fresh 1) =
    with_sub (with_mailbox [e'] (fetch_add Offered 1 fresh))
      (with_logs [e'] [] (start fresh 1))) as ->.
  { destruct g; lazy; rewrite He; lazy; reflexivity. }
  cbv zeta. split; [destruct g; lazy; reflexivity|].
  intros ch [|[|j]]; destruct g, ch; lazy; reflexivity.
Qed.

(** ** Runs of two threads on one subscriber *)

Definition sample_options (d : delivery_policy) : subscription_options :=
  mk_subscription_options d lossless 2 0.

Definition sample (d : delivery_policy) : subscriber Z :=
  mk_subscriber (sample_options d) 0 true false [] true false true zero_metrics.

Lemma sample_made d : make (sample_options d) true = inr (sample d).
Proof. by destruct d. Qed.

Definition after (d : delivery_policy) (sched : list (choice Z * nat)) : config Z :=
  run (Some inr) sched (start (sample d) 2).

Lemma after_reachable d sched : reachable (Some inr) (start (sample d) 2) (after d sched).
Proof. exact (reachable_run (Some inr) sched (start (sample d) 2)). Qed.

Lemma two_fits : 0 <= 2 /\ Z.of_nat 2 < 2 ^ 64 - 1.
Proof. done. Qed.

Definition invoke (e : Z) (j : nat) : list (choice Z * nat) := [(StartInvoke e, j); (Go, j); (Go, j)].

(** Thread 1 finished a callback while thread 2 waits in [unsubscribe]. *)
Definition unsubscribing : config Z :=
  after concurrent (invoke 7 1 ++ [(StartUnsubscribe, 2); (Go, 2); (Go, 2); (Return 1, 1); (Go, 1);
    (Go, 1)]%nat).

Lemma unsubscribe_is_final_witness :
  ∃ c1, step (Some inr) Go 2 unsubscribing = Some c1 /\
    ∀ i l e, stacks c1 !! i = Some l -> Callback e ∉ l.
Proof.
  eexists. split; [vm_compute; reflexivity|].
  eapply (unsubscribe_is_final (Some inr) (sample_options concurrent) true (sample concurrent) 2
    (sample_made _) (proj1 two_fits) (proj2 two_fits) unsubscribing 2 []);
    [exact (after_reachable _ _)|vm_compute; reflexivity|vm_compute; reflexivity|apply rtc_refl].
Defined.

Lemma metrics_account_for_every_event_witness :
  metrics (sub unsubscribing) = mk_subscription_metrics 1 1 0 0 0 0 /\
  eq64 (offered (metrics (sub unsubscribing)))
    (delivered (metrics (sub unsubscribing)) + dropped (metrics (sub unsubscribing)) +
     rejected (metrics (sub unsubscribing)) + zlength (mailbox_ (sub unsubscribing)) +
     total pending unsubscribing).
Proof.
  split; [vm_compute; reflexivity|].
  exact (metrics_account_for_every_event (Some inr) (sample_options concurrent) true
    (sample concurrent) 2 (sample_made _) (proj1 two_fits) (proj2 two_fits) unsubscribing
    (after_reachable _ _)).
Defined.

(** Three events mailed, one of them in the hands of the executor. *)
Definition mailing : config Z :=
  after isolated (invoke 7 1 ++ invoke 8 2 ++ [(Go, 0)]%nat ++ invoke 9 1).

Lemma mailbox_is_bounded_fifo_witness :
  mailbox_ (sub mailing) = [8; 9] /\ accepted mailing = [7; 8; 9] /\
  accepted mailing = taken mailing ++ mailbox_ (sub mailing).
Proof.
  split; [vm_compute; reflexivity|split; [vm_compute; reflexivity|]].
  apply (mailbox_is_bounded_fifo (Some inr) (sample_options isolated) true (sample isolated) 2
    (sample_made _) (proj1 two_fits) (proj2 two_fits) mailing (after_reachable _ _) eq_refl).
  vm_compute. reflexivity.
Defined.

(** Two deliveries of a serialized subscriber, one in its callback. *)
Definition contending : config Z :=
  after serialized (invoke 7 1 ++ invoke 8 2 ++ [(Go, 1); (Go, 2)]%nat).

Lemma serialized_callbacks_exclusive_witness :
  total running contending = 1 /\ total running contending <= 1.
Proof.
  split; [vm_compute; reflexivity|].
  exact (serialized_callbacks_exclusive (Some inr) (sample_options serialized) true
    (sample serialized) 2 (sample_made _) (proj1 two_fits) (proj2 two_fits) contending
    (after_reachable _ _) eq_refl).
Defined.

(** A draining stop joins the executor, which has handled its event. *)
Definition joining : config Z :=
  after isolated (invoke 7 1 ++ [(StartStop true, 2); (Go, 2); (Go, 2); (Go, 0); (Go, 0);
    (Return 1, 0); (Go, 0); (Go, 0); (Go, 0)]%nat).

Lemma join_leaves_nothing_behind_witness :
  ∃ c1, step (Some inr) Go 2 joining = Some c1 /\ taken c1 = [7] /\ taken c1 = accepted c1.
Proof.
  eexists. split; [vm_compute; reflexivity|split; [reflexivity|]].
  eapply (join_leaves_nothing_behind (Some inr) (sample_options isolated) true (sample isolated) 2
    (sample_made _) (proj1 two_fits) (proj2 two_fits) joining 2 []);
    [exact (after_reachable _ _)|reflexivity|vm_compute; reflexivity..].
Defined.

Lemma self_unsubscribe_deadlocks_witness :
  ∃ sched, let c := run (Some inr) sched (start (sample isolated) 1) in
    stacks c = [[StopJoin; IdleWait true; Callback 7; Loop]; [Join]] /\
    ∀ ch j, step (Some inr) ch j c = None.
Proof.
  exact (self_unsubscribe_deadlocks (sample_options isolated) inr (sample isolated) 7 7
    (sample_made _) eq_refl ltac:(reflexivity) eq_refl).
Defined.

End SubscriberConc.
