(* ===== verification/MailboxWait.v ===== *)
(** * Sleeping and waking at a mailbox

    [SubscriberConc] lets a waiting thread go on whenever its condition holds.
    Here the condition variables of the mailbox are explicit: lossless
    producers sleep on [mailbox_space_], the executor on [mailbox_ready_],
    and they wake by a notification or spuriously. A critical section is one
    step and the notification that follows the unlock another. What the
    executor does with an event it took is one step here. *)

From S2P Require Import Prelude Types Subscriber.
Import Subscriber.
Local Open Scope Z_scope.

Module MailboxWait.

Inductive condvar : Type := mailbox_ready_ | mailbox_space_.

#[export] Instance condvar_eq_dec : EqDecision condvar.
Proof. solve_decision. Defined.

Section threads.
Context {E : Type} (copy : E -> exn + E).
Implicit Types s : subscriber E.

(** Thread 0 is the executor. [Parked] threads are asleep; a [Notify] thread
    is about to notify and then goes on as it says. *)
Inductive phase : Type :=
  (* enqueue_isolated; [None] is a throw *)
  | Offering (event : E)
  | ParkedOffer (event : E)
  | NotifyReady
  | Offered (r : option bool)
  (* executor_loop *)
  | Looping
  | ParkedLoop
  | NotifySpace (event : E)
  | Handling (event : E)
  | Exited
  (* stop_delivery up to the join *)
  | Stopping (drains : bool)
  | NotifyAllReady
  | NotifyAllSpace
  | Stopped.

Record config : Type := mk_config { sub : subscriber E; threads : list phase }.
Implicit Types c : config.

Definition goto (j : nat) (p : phase) c : config := mk_config (sub c) (<[j := p]> (threads c)).
Definition with_sub s c : config := mk_config s (threads c).

(** The section of [enqueue_isolated], after the lock or a wake-up. *)
Definition offer (j : nat) (event : E) c : config :=
  match enqueue_isolated (Some copy) event (sub c) with
  | Ret None _ => goto j (ParkedOffer event) c
  | Ret (Some r) s =>
      goto j (if zlength (mailbox_ s) =? zlength (mailbox_ (sub c)) then Offered (Some r) else NotifyReady)
        (with_sub s c)
  | Throw _ s => goto j (Offered None) (with_sub s c)
  | Stuck _ => c
  end.

(** The head of [executor_loop]. *)
Definition look (j : nat) c : config :=
  match executor_take (sub c) with
  | (TurnWait, _) => goto j ParkedLoop c
  | (TurnExit, s) => goto j Exited (with_sub s c)
  | (TurnEvent event, s) => goto j (NotifySpace event) (with_sub s c)
  end.

Definition wake (cv : condvar) (p : phase) : phase :=
  match cv, p with
  | mailbox_space_, ParkedOffer event => Offering event
  | mailbox_ready_, ParkedLoop => Looping
  | _, _ => p
  end.

Definition asleep_on (cv : condvar) (p : phase) : bool :=
  match cv, p with
  | mailbox_space_, ParkedOffer _ | mailbox_ready_, ParkedLoop => true
  | _, _ => false
  end.

(** [notify_one]: [who] is the thread the implementation picks; it picks
    nobody only if nobody sleeps. *)
Definition notify_one (cv : condvar) (who : option nat) (c : config) : option config :=
  match who with
  | Some k =>
      match threads c !! k with
      | Some p => if asleep_on cv p then Some (goto k (wake cv p) c) else None
      | None => None
      end
  | None => if existsb (asleep_on cv) (threads c) then None else Some c
  end.

Definition notify_all (cv : condvar) c : config := mk_config (sub c) (wake cv <$> threads c).

Definition step_phase (j : nat) (who : option nat) (p : phase) c : option config :=
  match p with
  | Offering event => Some (offer j event c)
  | NotifyReady => goto j (Offered (Some true)) <$> notify_one mailbox_ready_ who c
  | Looping => Some (look j c)
  | NotifySpace event => goto j (Handling event) <$> notify_one mailbox_space_ who c
  | Handling _ => Some (goto j Looping c)
  | Stopping drains => Some (goto j NotifyAllReady (with_sub (stop_mark drains (sub c)) c))
  | NotifyAllReady => Some (goto j NotifyAllSpace (notify_all mailbox_ready_ c))
  | NotifyAllSpace => Some (goto j Stopped (notify_all mailbox_space_ c))
  | ParkedOffer _ | ParkedLoop | Offered _ | Exited | Stopped => None
  end.

Inductive choice : Type := Step (j : nat) (who : option nat) | Spurious (j : nat).

Definition step (ch : choice) c : option config :=
  match ch with
  | Step j who => match threads c !! j with Some p => step_phase j who p c | None => None end
  | Spurious j =>
      match threads c !! j with
      | Some (ParkedOffer event) => Some (goto j (Offering event) c)
      | Some ParkedLoop => Some (goto j Looping c)
      | _ => None
      end
  end.

Definition one_step c c' : Prop := ∃ ch, step ch c = Some c'.
Definition reachable : config -> config -> Prop := rtc one_step.

Fixpoint run (sched : list choice) c : config :=
  match sched with
  | [] => c
  | ch :: sched => run sched (default c (step ch c))
  end.

(** The executor, the deliveries and the calls of [stop_delivery] to come. *)
Definition start s (events : list E) (stops : list bool) : config :=
  mk_config s (Looping :: (Offering <$> events) ++ (Stopping <$> stops)).

(** Nobody can go on without a spurious wake-up. *)
Definition notified c c' : Prop := ∃ j who, step (Step j who) c = Some c'.
Definition stuck c : Prop := ∀ j who, step (Step j who) c = None.
Definition at_rest (p : phase) : bool :=
  match p with ParkedOffer _ | ParkedLoop | Offered _ | Exited | Stopped => true | _ => false end.
Definition quiescent c : bool := forallb at_rest (threads c).

(** What is left to do: an event costs its producer's test, a notification
    and the executor's round; a [notify_all] may wake everybody. *)
Definition cost (n : Z) (p : phase) : Z :=
  match p with
  | Offering _ => 7 | ParkedOffer _ => 6 | NotifyReady => 2
  | Looping => 1 | NotifySpace _ => 4 | Handling _ => 2
  | Stopping _ => 2 * n + 3 | NotifyAllReady => 2 * n + 2 | NotifyAllSpace => n + 1
  | Offered _ | ParkedLoop | Exited | Stopped => 0
  end.
Definition work c : Z := sum_of (cost (zlength (threads c))) (threads c) + 4 * zlength (mailbox_ (sub c)).

(** ** Notifications run out *)

Lemma cost_nonneg n p : 0 <= n -> 0 <= cost n p.
Proof. destruct p; cbn; lia. Qed.

Lemma work_nonneg c : 0 <= work c.
Proof.
  unfold work. pose proof (zlength_nonneg (threads c)). pose proof (zlength_nonneg (mailbox_ (sub c))).
  pose proof (sum_of_nonneg (cost (zlength (threads c))) (threads c) ltac:(intros; by apply cost_nonneg)). lia.
Qed.

Lemma work_goto j p p' s c : threads c !! j = Some p ->
  work (goto j p' (with_sub s c)) =
  work c - cost (zlength (threads c)) p + cost (zlength (threads c)) p' +
  4 * (zlength (mailbox_ s) - zlength (mailbox_ (sub c))).
Proof.
  intros Hj. unfold work, goto, with_sub. cbn [sub threads].
  rewrite (sum_of_insert _ _ _ _ _ Hj), zlength_insert. lia.
Qed.

Lemma work_move j p p' c : threads c !! j = Some p ->
  work (goto j p' c) = work c - cost (zlength (threads c)) p + cost (zlength (threads c)) p'.
Proof. intros Hj. pose proof (work_goto j p p' (sub c) c Hj) as H. unfold with_sub, goto in *. cbn in *. lia. Qed.

Lemma wake_cost n cv p : 0 <= n -> cost n (wake cv p) <= cost n p + 1.
Proof. destruct cv, p; cbn; lia. Qed.

Lemma work_notify_all cv c : work (notify_all cv c) <= work c + zlength (threads c).
Proof.
  unfold work, notify_all. cbn [sub threads]. rewrite zlength_fmap.
  pose proof (zlength_nonneg (threads c)). rewrite sum_of_fmap.
  pose proof (sum_of_le (λ p, cost (zlength (threads c)) (wake cv p))
    (λ p, cost (zlength (threads c)) p + 1) (threads c) ltac:(intros; by apply wake_cost)).
  rewrite sum_of_add_const in *. lia.
Qed.

Lemma work_offer j event c : threads c !! j = Some (Offering event) -> work (offer j event c) < work c.
Proof.
  intros Hj. pose proof (zlength_nonneg (threads c)).
  unfold offer, enqueue_isolated, fetch_add, with_mailbox.
  repeat case_match; simplify_eq/=; rewrite ?(work_goto _ _ _ _ _ Hj), ?(work_move _ _ _ _ Hj); cbn;
    rewrite ?zlength_app, ?zlength_cons in *; zlen_nil; try lia.
Qed.

Lemma work_look j c : threads c !! j = Some Looping -> work (look j c) < work c.
Proof.
  intros Hj. unfold look, executor_take.
  repeat case_match; simplify_eq/=; rewrite ?(work_goto _ _ _ _ _ Hj), ?(work_move _ _ _ _ Hj); cbn; try lia.
  match goal with Hm : mailbox_ (sub c) = _ |- _ => rewrite Hm, zlength_cons end. lia.
Qed.

Lemma work_notify_one j p p' cv who c c' : threads c !! j = Some p -> asleep_on cv p = false ->
  notify_one cv who c = Some c' -> cost (zlength (threads c)) p' + 1 < cost (zlength (threads c)) p ->
  work (goto j p' c') < work c.
Proof.
  intros Hj Hp Hn Hlt. pose proof (zlength_nonneg (threads c)). unfold notify_one in Hn. destruct who as [k|].
  - destruct (threads c !! k) as [q|] eqn:Hk; [|done]. destruct (asleep_on cv q) eqn:Ha; [|done]. injection Hn as <-.
    assert (j <> k) as Hne by congruence.
    assert (threads (goto k (wake cv q) c) !! j = Some p) as Hj' by (cbn; by rewrite list_lookup_insert_ne).
    rewrite (work_move _ _ _ _ Hj'), (work_move _ _ _ _ Hk). cbn. rewrite zlength_insert.
    pose proof (wake_cost (zlength (threads c)) cv q). lia.
  - destruct (existsb _ _); [done|]. injection Hn as <-. rewrite (work_move _ _ _ _ Hj). lia.
Qed.

Lemma notified_less c c' : notified c c' -> work c' < work c.
Proof.
  intros (j & who & Hs). cbn [step] in Hs. destruct (threads c !! j) as [p|] eqn:Hj; [|done].
  pose proof (zlength_nonneg (threads c)).
  assert (∀ cv, threads (notify_all cv c) !! j = Some (wake cv p)) as Hall
    by (intros; cbn; by rewrite list_lookup_fmap, Hj).
  pose proof (work_notify_all mailbox_ready_ c). pose proof (work_notify_all mailbox_space_ c).
  destruct p; cbn [step_phase] in Hs; try done;
    try (apply fmap_Some in Hs as (c0 & Hn & ->)); try (injection Hs as <-).
  - by apply work_offer.
  - apply (work_notify_one j _ _ mailbox_ready_ who c c0 Hj); [done..|cbn; lia].
  - by apply work_look.
  - apply (work_notify_one j _ _ mailbox_space_ who c c0 Hj); [done..|cbn; lia].
  - rewrite (work_move _ _ _ _ Hj). cbn. lia.
  - rewrite (work_goto _ _ _ _ _ Hj). pose proof (zlength_nonneg (mailbox_ (sub c))).
    destruct drains; cbn; [lia|zlen_nil; lia].
  - rewrite (work_move _ _ _ _ (Hall mailbox_ready_)). cbn. rewrite zlength_fmap. lia.
  - rewrite (work_move _ _ _ _ (Hall mailbox_space_)). cbn. rewrite zlength_fmap. lia.
Qed.

Lemma notify_someone cv c : ∃ who c', notify_one cv who c = Some c'.
Proof.
  destruct (existsb (asleep_on cv) (threads c)) eqn:He.
  - apply existsb_exists in He as (p & [k Hk]%list_elem_of_In%list_elem_of_lookup & Hp).
    exists (Some k). eexists. unfold notify_one. by rewrite Hk, Hp.
  - exists None, c. unfold notify_one. by rewrite He.
Qed.

Lemma stuck_rests c : stuck c -> quiescent c = true.
Proof.
  intros Hst. apply forallb_forall. intros p [j Hj]%list_elem_of_In%list_elem_of_lookup.
  destruct (at_rest p) eqn:Hr; [done|]. exfalso.
  assert (∃ who c', step (Step j who) c = Some c') as (who & c' & Hs); [|by rewrite (Hst j who) in Hs].
  cbn [step]. rewrite Hj.
  destruct p; try done; try (by exists None; eexists).
  - destruct (notify_someone mailbox_ready_ c) as (who & c' & Hn). exists who. cbn. rewrite Hn. by eexists.
  - destruct (notify_someone mailbox_space_ c) as (who & c' & Hn). exists who. cbn. rewrite Hn. by eexists.
Qed.

(** A run in which every wake-up is a notification ends: from every
    configuration there are at most [work] steps, each of them an atomic
    section, a notification or the handling of an event. *)
Theorem notified_runs_end n c c' : nsteps notified n c c' -> Z.of_nat n <= work c.
Proof.
  induction 1 as [c|n c c1 c2 Hs _ IH]; [apply work_nonneg|].
  pose proof (notified_less c c1 Hs). lia.
Qed.

(** ** While copies do not throw, no wake-up is lost *)

Section nothrow.
Context (options : subscription_options) (Hlossless : guarantee options = lossless).
Context (Hcopy : ∀ e, ∃ e', copy e = inr e').

Definition parked (p : phase) : Z := if p is ParkedOffer _ then 1 else 0.
Definition offering (p : phase) : Z := if p is Offering _ then 1 else 0.
Definition owes_space (p : phase) : Z := if p is NotifySpace _ then 1 else 0.
Definition owes_all (p : phase) : Z := match p with NotifyAllReady | NotifyAllSpace => 1 | _ => 0 end.
Definition owes_ready (p : phase) : Z := match p with NotifyReady | NotifyAllReady => 1 | _ => 0 end.
Definition total (w : phase -> Z) c : Z := sum_of w (threads c).

Definition executes (p : phase) : bool :=
  match p with Looping | ParkedLoop | NotifySpace _ | Handling _ | Exited => true | _ => false end.

Definition room s : Z := mailbox_capacity (options_ s) - zlength (mailbox_ s).

(** A producer asleep has its free slots matched by producers that will look
    again and by the executor's notification; an executor asleep has nothing
    to do; unless a notification is under way. *)
Record inv c : Prop := {
  inv_options : options_ (sub c) = options;
  inv_flags : executor_stopping_ (sub c) = negb (mailbox_accepting_ (sub c));
  inv_executor : ∃ p, threads c !! 0%nat = Some p /\ executes p = true;
  inv_others : ∀ j p, threads c !! j = Some p -> executes p = true -> j = 0%nat;
  inv_space : 0 < total parked c -> total owes_all c = 0 ->
    mailbox_accepting_ (sub c) = true /\ room (sub c) <= total offering c + total owes_space c;
  inv_ready : threads c !! 0%nat = Some ParkedLoop -> total owes_ready c = 0 ->
    mailbox_ (sub c) = [] /\ executor_stopping_ (sub c) = false;
  inv_exited : threads c !! 0%nat = Some Exited -> executor_stopping_ (sub c) = true;
}.

Lemma total_goto w j p p' s ts :
  ts !! j = Some p -> total w (mk_config s (<[j := p']> ts)) = sum_of w ts - w p + w p'.
Proof. intros Hj. unfold total. cbn. by rewrite (sum_of_insert w ts j p p' Hj). Qed.

Lemma weights_nonneg ts :
  0 <= sum_of parked ts /\ 0 <= sum_of offering ts /\ 0 <= sum_of owes_space ts /\
  0 <= sum_of owes_all ts /\ 0 <= sum_of owes_ready ts.
Proof. split_and!; apply sum_of_nonneg; by intros []. Qed.

(** The executor and the others after a step of thread [j]. *)
Lemma executor_goto j p p' (ts : list phase) :
  (∃ q, ts !! 0%nat = Some q /\ executes q = true) ->
  (∀ i q, ts !! i = Some q -> executes q = true -> i = 0%nat) ->
  ts !! j = Some p -> executes p' = executes p ->
  (∃ q, <[j := p']> ts !! 0%nat = Some q /\ executes q = true) /\
  (∀ i q, <[j := p']> ts !! i = Some q -> executes q = true -> i = 0%nat).
Proof.
  intros (q & Hq & Hex) Ho Hj Hp. split.
  - destruct (decide (j = 0%nat)) as [->|Hne].
    + exists p'. rewrite list_lookup_insert_eq by (by eapply lookup_lt_Some). split; [done|].
      simplify_eq. congruence.
    + exists q. by rewrite list_lookup_insert_ne.
  - intros i r [(<- & <- & _)|[_ Hi]]%list_lookup_insert_Some Hr; [|by eapply Ho].
    apply (Ho j p Hj). congruence.
Qed.

Lemma head_goto j p p' q (ts : list phase) :
  ts !! j = Some p -> <[j := p']> ts !! 0%nat = Some q -> (j = 0%nat /\ q = p') \/ (j <> 0%nat /\ ts !! 0%nat = Some q).
Proof. intros _ [(-> & <- & _)|[Hj Hq]]%list_lookup_insert_Some; [by left|by right]. Qed.

(** A step of one thread: what it needs to keep the invariant. *)
Lemma mail_goto j p p' s' c :
  inv c -> threads c !! j = Some p -> executes p' = executes p ->
  options_ s' = options -> executor_stopping_ s' = negb (mailbox_accepting_ s') ->
  (0 < total parked c - parked p + parked p' -> total owes_all c - owes_all p + owes_all p' = 0 ->
   mailbox_accepting_ s' = true /\
   room s' <= total offering c - offering p + offering p' + (total owes_space c - owes_space p + owes_space p')) ->
  (<[j := p']> (threads c) !! 0%nat = Some ParkedLoop -> total owes_ready c - owes_ready p + owes_ready p' = 0 ->
   mailbox_ s' = [] /\ executor_stopping_ s' = false) ->
  (<[j := p']> (threads c) !! 0%nat = Some Exited -> executor_stopping_ s' = true) ->
  inv (goto j p' (with_sub s' c)).
Proof.
  intros [Ho Hf He Hot Hs Hr Hx] Hj Hp Ho' Hf' Hs' Hr' Hx'.
  destruct (executor_goto j p p' (threads c) He Hot Hj Hp) as [He' Hot'].
  split; try done; unfold goto, with_sub; cbn [sub threads].
  - rewrite !(total_goto _ j p p' s' _ Hj). unfold total in Hs'. done.
  - rewrite !(total_goto _ j p p' s' _ Hj). unfold total in Hr'. done.
Qed.

Lemma inv_offer j event c : inv c -> threads c !! j = Some (Offering event) -> inv (offer j event c).
Proof.
  intros Hi Hj. pose proof Hi as [Ho Hf _ _ Hs Hr Hx].
  pose proof (weights_nonneg (threads c)) as (N1 & N2 & N3 & N4 & N5).
  assert (∀ p', executes p' = false -> <[j := p']> (threads c) !! 0%nat = threads c !! 0%nat) as Hhd.
  { intros p' _. rewrite list_lookup_insert_ne; [done|]. intros ->.
    destruct (inv_executor _ Hi) as (p & Hp & He). by simplify_eq. }
  destruct (Hcopy event) as [e' He']. unfold offer, enqueue_isolated. rewrite Ho, Hlossless, He'.
  destruct (mailbox_accepting_ (sub c)) eqn:Ha; cbn [negb orb].
  - destruct (Z.ltb_spec (zlength (mailbox_ (sub c))) (mailbox_capacity options)) as [Hlt|Hge].
    + cbn [mailbox_ with_mailbox]. rewrite zlength_app, zlength_cons. zlen_nil.
      rewrite (proj2 (Z.eqb_neq _ _)) by lia.
      eapply mail_goto; [done|exact Hj|done|exact Ho|by cbn; rewrite Ha| | |]; cbn.
      * intros Hp Hn. destruct Hs as [_ Hs]; [lia..|]. split; [done|]. unfold room in *. cbn. rewrite zlength_app, zlength_cons.
        zlen_nil. lia.
      * rewrite Hhd by done. unfold total. lia.
      * rewrite Hhd by done. apply Hx.
    + eapply (mail_goto j (Offering event) (ParkedOffer event) (sub c)); try done; [by rewrite Ha| | |]; cbn.
      * intros _ _. split; [done|]. unfold room, total. rewrite Ho.
        pose proof (sum_of_lookup offering (threads c) j _ ltac:(by intros []) Hj). cbn in *. lia.
      * rewrite Hhd by done. intros Hp Hz. apply Hr; [done|lia].
      * rewrite Hhd by done. apply Hx.
  - cbn. rewrite Z.eqb_refl. eapply mail_goto; [done|exact Hj|done|exact Ho|by cbn; rewrite Ha| | |]; cbn.
    + intros Hp Hz. destruct Hs; [lia..|]. done.
    + rewrite Hhd by done. intros Hp Hz. destruct Hr; [done|lia|done].
    + rewrite Hhd by done. apply Hx.
Qed.

Lemma head_insert p' (ts : list phase) j p : ts !! j = Some p -> j = 0%nat ->
  <[j := p']> ts !! 0%nat = Some p'.
Proof. intros Hj ->. apply list_lookup_insert_eq. by eapply lookup_lt_Some. Qed.

(** Only the executor moves, and it owes no less than before. *)
Lemma inv_look j c : inv c -> threads c !! j = Some Looping -> inv (look j c).
Proof.
  intros Hi Hj. pose proof Hi as [Ho Hf _ Hot Hs Hr Hx].
  pose proof (Hot j Looping Hj eq_refl) as Hj0.
  pose proof (λ p', head_insert p' (threads c) j Looping Hj Hj0) as Hhd.
  assert (∀ p' s', executes p' = true -> options_ s' = options ->
    executor_stopping_ s' = executor_stopping_ (sub c) -> mailbox_accepting_ s' = mailbox_accepting_ (sub c) ->
    parked p' = 0 -> owes_all p' = 0 -> offering p' = 0 -> room s' <= room (sub c) + owes_space p' ->
    (p' = ParkedLoop -> mailbox_ s' = [] /\ executor_stopping_ s' = false) ->
    (p' = Exited -> executor_stopping_ s' = true) -> inv (goto j p' (with_sub s' c))) as Hgo.
  { intros p' s' Hp Ho' Hst Hac H1 H2 H3 Hroom' Hpk Hex. eapply mail_goto; [done|exact Hj|done|done| | | |].
    - by rewrite Hst, Hac.
    - cbn. rewrite H1, H2, H3, Hac. intros Hp0 Hz. destruct Hs as [Ha Hs]; [lia..|]. split; [done|]. lia.
    - rewrite Hhd. intros [= ->] _. by apply Hpk.
    - rewrite Hhd. intros [= ->]. by apply Hex. }
  unfold look, executor_take. destruct (mailbox_ (sub c)) as [|event rest] eqn:Hm.
  - destruct (executor_stopping_ (sub c)) eqn:Hst; [by apply Hgo; try done; cbn; lia|].
    apply (Hgo ParkedLoop (sub c)); try done; cbn; lia.
  - destruct (_ && _) eqn:Hd.
    + apply andb_true_iff in Hd as [Hst _]. apply Hgo; try done; cbn; lia.
    + apply Hgo; try done. unfold room. cbn. rewrite Hm, zlength_cons. lia.
Qed.

Lemma inv_same j p p' c :
  inv c -> threads c !! j = Some p -> executes p' = executes p ->
  parked p' = parked p -> offering p <= offering p' -> owes_all p' = owes_all p ->
  owes_space p <= owes_space p' -> owes_ready p' = owes_ready p ->
  p' <> ParkedLoop -> p' <> Exited -> inv (goto j p' c).
Proof.
  intros Hi Hj He Hp Hof Hal Hsp Hre Hn1 Hn2. pose proof Hi as [Ho Hf _ _ Hs Hr Hx].
  apply (mail_goto j p p' (sub c) c); try done.
  - intros Hp0 Hz. destruct Hs as [Ha Hs]; [lia..|]. split; [done|lia].
  - intros [[_ Hq]|[_ Hq]]%(head_goto j p); [congruence| |done]. intros Hz. apply Hr; [done|lia].
  - intros [[_ Hq]|[_ Hq]]%(head_goto j p); [congruence|by apply Hx|done].
Qed.

Lemma inv_stop j drains c :
  inv c -> threads c !! j = Some (Stopping drains) ->
  inv (goto j NotifyAllReady (with_sub (stop_mark drains (sub c)) c)).
Proof.
  intros Hi Hj. pose proof Hi as [Ho Hf _ _ Hs Hr Hx].
  pose proof (weights_nonneg (threads c)) as (N1 & N2 & N3 & N4 & N5).
  apply (mail_goto j (Stopping drains)); try done.
  - unfold stop_mark. by destruct drains.
  - unfold stop_mark. by destruct drains.
  - cbn. unfold total. intros _ Hz. lia.
  - cbn. unfold total. intros _ Hz. lia.
  - intros _. unfold stop_mark. by destruct drains.
Qed.

(** A wake-up without a notification is harmless. *)
Lemma mail_wake cv k p c : inv c -> threads c !! k = Some p -> asleep_on cv p = true -> inv (goto k (wake cv p) c).
Proof.
  intros Hi Hk Ha. pose proof Hi as [Ho Hf _ _ Hs Hr Hx].
  apply (mail_goto k p (wake cv p) (sub c) c); try done.
  - by destruct cv, p.
  - intros Hp Hz. destruct Hs as [Hac Hs]; [destruct cv, p; cbn in *; try done; lia..|]. split; [done|].
    destruct cv, p; cbn in *; try done; lia.
  - intros [[_ Hq]|[_ Hq]]%(head_goto k p); [|intros Hz|done].
    + by destruct cv, p.
    + apply Hr; [done|]. destruct cv, p; cbn in *; try done; lia.
  - intros [[_ Hq]|[_ Hq]]%(head_goto k p); [by destruct cv, p|by apply Hx|done].
Qed.

Lemma nobody_asleep cv c : existsb (asleep_on cv) (threads c) = false ->
  ∀ j p, threads c !! j = Some p -> asleep_on cv p = false.
Proof.
  intros He j p Hj. destruct (asleep_on cv p) eqn:Ha; [|done].
  assert (existsb (asleep_on cv) (threads c) = true) as Ht; [|congruence].
  apply existsb_exists. exists p. split; [|done]. apply list_elem_of_In. by eapply list_elem_of_lookup_2.
Qed.

Lemma nobody_parked c : (∀ j p, threads c !! j = Some p -> asleep_on mailbox_space_ p = false) -> total parked c <= 0.
Proof.
  intros Hn. unfold total. pose proof (sum_of_bound parked (threads c) 0) as Hb. rewrite Z.mul_0_l in Hb.
  apply Hb. intros p [j Hj]%list_elem_of_lookup. specialize (Hn j p Hj). by destruct p.
Qed.

(** The producer woken looks again in place of the executor's debt. *)
Lemma inv_space_one j event k e c :
  inv c -> threads c !! j = Some (NotifySpace event) -> threads c !! k = Some (ParkedOffer e) ->
  inv (goto j (Handling event) (goto k (Offering e) c)).
Proof.
  intros Hi Hj Hk. pose proof Hi as [Ho Hf _ _ Hs _ _].
  pose proof (mail_wake mailbox_space_ k _ c Hi Hk eq_refl) as Hi1. cbn [wake] in Hi1.
  assert (j <> k) as Hne by congruence.
  assert (threads (goto k (Offering e) c) !! j = Some (NotifySpace event)) as Hj1
    by (cbn; by rewrite list_lookup_insert_ne).
  apply (mail_goto j (NotifySpace event) (Handling event) (sub c) (goto k (Offering e) c)); try done.
  - unfold goto. rewrite !(total_goto _ k _ _ _ _ Hk). cbn. unfold total in *. intros Hp Hz.
    destruct Hs as [Ha Hs]; [lia..|]. split; [done|lia].
  - cbn. intros [[_ ?]|[_ Hq]]%(head_goto j (NotifySpace event)); [done| |done]. intros Hz.
    apply (inv_ready _ Hi1); [done|]. cbn in *. lia.
  - cbn. intros [[_ ?]|[_ Hq]]%(head_goto j (NotifySpace event)); [done| |done].
    by apply (inv_exited _ Hi1).
Qed.

(** A debt of space is no debt when no producer sleeps. *)
Lemma inv_nobody_parked j p p' c :
  inv c -> threads c !! j = Some p -> executes p' = executes p -> total parked c <= 0 ->
  parked p = 0 -> parked p' = 0 -> owes_ready p' = owes_ready p -> p' <> ParkedLoop -> p' <> Exited ->
  inv (goto j p' c).
Proof.
  intros Hi Hj He Hn Hp Hp' Hre Hn1 Hn2. pose proof Hi as [Ho Hf _ _ Hs Hr Hx].
  apply (mail_goto j p p' (sub c) c); try done.
  - lia.
  - intros [[_ Hq]|[_ Hq]]%(head_goto j p); [congruence| |done]. intros Hz. apply Hr; [done|lia].
  - intros [[_ Hq]|[_ Hq]]%(head_goto j p); [congruence|by apply Hx|done].
Qed.

(** A debt to the executor is no debt when it is awake. *)
Lemma inv_awake j p p' c :
  inv c -> threads c !! j = Some p -> executes p = false -> executes p' = false ->
  threads c !! 0%nat <> Some ParkedLoop -> parked p' = parked p -> offering p' = offering p ->
  owes_space p' = owes_space p -> owes_all p' = owes_all p -> inv (goto j p' c).
Proof.
  intros Hi Hj He He' Hn Hp Hof Hsp Hal. pose proof Hi as [Ho Hf _ _ Hs Hr Hx].
  apply (mail_goto j p p' (sub c) c); try done; [congruence| | |].
  - intros Hp0 Hz. destruct Hs as [Ha Hs]; [lia..|]. split; [done|lia].
  - intros [[_ <-]|[_ Hq]]%(head_goto j p); [done|done|done].
  - intros [[_ <-]|[_ Hq]]%(head_goto j p); [done|by apply Hx|done].
Qed.

(** [notify_all] leaves every debt as it is. *)
Lemma mail_notify_all cv c : inv c -> inv (notify_all cv c).
Proof.
  intros Hi. pose proof Hi as [Ho Hf (p & Hp & He) Hot Hs Hr Hx].
  assert (∀ q, wake cv <$> threads c !! 0%nat = Some q -> q = ParkedLoop \/ q = Exited -> threads c !! 0%nat = Some q) as Hhd.
  { rewrite Hp. intros q [= <-] [Hq|Hq]; by destruct cv, p. }
  assert (∀ w, (∀ q, w (wake cv q) = w q) -> sum_of w (wake cv <$> threads c) = sum_of w (threads c)) as Hsum.
  { intros w Hw. apply sum_of_fmap_eq. intros q _. apply Hw. }
  split; unfold total, notify_all; cbn [sub threads].
  - done.
  - done.
  - exists (wake cv p). rewrite list_lookup_fmap, Hp. split; [done|]. by destruct cv, p.
  - intros j q. rewrite list_lookup_fmap. intros (r & Hj & ->)%fmap_Some He'. apply (Hot j r Hj). by destruct cv, r.
  - rewrite (Hsum owes_all), (Hsum owes_space) by (by intros; destruct cv, q).
    assert (sum_of parked (wake cv <$> threads c) <= sum_of parked (threads c) /\
            sum_of offering (threads c) <= sum_of offering (wake cv <$> threads c)) as [H1 H2]
      by (split; [apply sum_of_fmap_le|apply sum_of_fmap_ge]; intros [] _; by destruct cv).
    unfold total in Hs. intros Hp0 Hz. destruct Hs as [Ha Hs]; [lia..|]. split; [done|lia].
  - rewrite list_lookup_fmap, (Hsum owes_ready) by (by intros; destruct cv, q). intros Hq Hz.
    apply Hr; [|done]. apply Hhd; [done|by left].
  - rewrite list_lookup_fmap. intros Hq. apply Hx. apply Hhd; [done|by right].
Qed.

Lemma no_sleeper cv c : ∀ j p, threads (notify_all cv c) !! j = Some p -> asleep_on cv p = false.
Proof. intros j p. cbn. rewrite list_lookup_fmap. intros (q & _ & ->)%fmap_Some. by destruct cv, q. Qed.

(** The notifications, each followed by what its thread does next. *)
Lemma mail_notify_ready j who c c' : inv c -> threads c !! j = Some NotifyReady ->
  notify_one mailbox_ready_ who c = Some c' -> inv (goto j (Offered (Some true)) c').
Proof.
  intros Hi Hj. unfold notify_one. destruct who as [k|].
  - destruct (threads c !! k) as [p|] eqn:Hk; [|done]. destruct (asleep_on _ p) eqn:Ha; [|done]. intros [= <-].
    destruct p; try done. pose proof (inv_others _ Hi k _ Hk eq_refl) as ->.
    assert (j <> 0%nat) as Hne by congruence.
    apply (inv_awake j NotifyReady); try done; [by apply (mail_wake mailbox_ready_ 0 ParkedLoop c)| |]; cbn.
    + by rewrite list_lookup_insert_ne.
    + rewrite list_lookup_insert_eq; [done|]. by eapply lookup_lt_Some.
  - destruct (existsb _ _) eqn:He; [done|]. intros [= <-]. apply (inv_awake j NotifyReady); try done.
    intros Hp. by specialize (nobody_asleep _ _ He _ _ Hp).
Qed.

Lemma mail_notify_space j event who c c' : inv c -> threads c !! j = Some (NotifySpace event) ->
  notify_one mailbox_space_ who c = Some c' -> inv (goto j (Handling event) c').
Proof.
  intros Hi Hj. unfold notify_one. destruct who as [k|].
  - destruct (threads c !! k) as [p|] eqn:Hk; [|done]. destruct (asleep_on _ p) eqn:Ha; [|done]. intros [= <-].
    destruct p; try done. by apply inv_space_one.
  - destruct (existsb _ _) eqn:He; [done|]. intros [= <-]. apply (inv_nobody_parked j (NotifySpace event)); try done.
    apply nobody_parked. by apply nobody_asleep.
Qed.

Lemma mail_notify_all_ready j c : inv c -> threads c !! j = Some NotifyAllReady ->
  inv (goto j NotifyAllSpace (notify_all mailbox_ready_ c)).
Proof.
  intros Hi Hj. apply (inv_awake j NotifyAllReady); try done; [by apply mail_notify_all| |].
  - cbn. by rewrite list_lookup_fmap, Hj.
  - intros Hp. by specialize (no_sleeper mailbox_ready_ c _ _ Hp).
Qed.

Lemma mail_notify_all_space j c : inv c -> threads c !! j = Some NotifyAllSpace ->
  inv (goto j Stopped (notify_all mailbox_space_ c)).
Proof.
  intros Hi Hj. apply (inv_nobody_parked j NotifyAllSpace); try done; [by apply mail_notify_all| |].
  - cbn. by rewrite list_lookup_fmap, Hj.
  - apply nobody_parked. apply no_sleeper.
Qed.

Lemma mail_step ch c c' : inv c -> step ch c = Some c' -> inv c'.
Proof.
  intros Hi. destruct ch as [j who|j]; cbn [step]; destruct (threads c !! j) as [p|] eqn:Hj; try done.
  - destruct p; cbn [step_phase]; try done; try (intros (c0 & Hn & ->)%fmap_Some); try (intros [= <-]).
    + by apply inv_offer.
    + by eapply mail_notify_ready.
    + by apply inv_look.
    + by eapply mail_notify_space.
    + by apply (inv_same j (Handling event)).
    + by apply inv_stop.
    + by apply mail_notify_all_ready.
    + by apply mail_notify_all_space.
  - destruct p; try done; intros [= <-].
    + by apply (mail_wake mailbox_space_ j (ParkedOffer event)).
    + by apply (mail_wake mailbox_ready_ j ParkedLoop).
Qed.

Lemma mail_reachable c c' : inv c -> reachable c c' -> inv c'.
Proof. intros Hi Hr. induction Hr as [|c c1 c' [ch Hs] _ IH]; [done|]. apply IH. by eapply mail_step. Qed.

Lemma mail_start s events stops : make options true = inr s -> inv (start s events stops).
Proof.
  intros Hm.
  assert (options_ s = options /\ executor_stopping_ s = negb (mailbox_accepting_ s)) as [Ho Hf].
  { unfold make in Hm. repeat case_match; by simplify_eq/=. }
  assert (∀ j p, threads (start s events stops) !! j = Some p ->
    (j = 0%nat /\ p = Looping) \/ (∃ e, p = Offering e) \/ (∃ d, p = Stopping d)) as Hth.
  { intros [|j] p Hp; cbn in Hp; [left; by simplify_eq|]. right.
    apply lookup_app_Some in Hp as [Hp|[_ Hp]]; rewrite list_lookup_fmap in Hp;
      apply fmap_Some in Hp as (x & _ & ->); eauto. }
  split; cbn [start sub threads]; try done.
  - by exists Looping.
  - intros j p Hj Hp. destruct (Hth j p Hj) as [[-> _]|[[e ->]|[d ->]]]; done.
  - intros (j & p & Hj & Hp)%sum_of_pos. destruct (Hth j p Hj) as [[_ ->]|[[e ->]|[d ->]]]; done.
Qed.

(** At rest the executor has nothing to do and the producers are through. *)
Lemma rest_in_peace c : 0 < mailbox_capacity options -> inv c -> quiescent c = true ->
  (∀ j e, threads c !! j <> Some (ParkedOffer e)) /\
  ((threads c !! 0%nat = Some ParkedLoop /\ mailbox_ (sub c) = [] /\ mailbox_accepting_ (sub c) = true) \/
   (threads c !! 0%nat = Some Exited /\ mailbox_accepting_ (sub c) = false)).
Proof.
  intros Hroom Hi Hq. pose proof Hi as [Ho Hf (p & Hp & He) _ Hs Hr Hx].
  assert (∀ w, (∀ q, at_rest q = true -> w q = 0) -> (∀ q, 0 <= w q) -> total w c = 0) as Hz.
  { intros w Hw Hn. apply Z.le_antisymm; [|by apply sum_of_nonneg]. unfold total.
    rewrite <- (Z.mul_0_l (zlength (threads c))). apply sum_of_bound. intros q Hin. rewrite Hw; [done|].
    unfold quiescent in Hq. rewrite forallb_forall in Hq. apply Hq. by apply list_elem_of_In. }
  rewrite (Hz owes_ready), (Hz owes_all), (Hz offering), (Hz owes_space) in * by (by intros []).
  assert ((threads c !! 0%nat = Some ParkedLoop /\ mailbox_ (sub c) = [] /\ mailbox_accepting_ (sub c) = true) \/
   (threads c !! 0%nat = Some Exited /\ mailbox_accepting_ (sub c) = false)) as Hex.
  { assert (at_rest p = true) as Har.
    { unfold quiescent in Hq. rewrite forallb_forall in Hq. apply Hq, list_elem_of_In. by eapply list_elem_of_lookup_2. }
    destruct p; try done; [left|right]; split; try done.
    - destruct Hr as [Hm Hst]; [done..|]. split; [done|]. rewrite Hst in Hf. by destruct mailbox_accepting_.
    - rewrite (Hx Hp) in Hf. by destruct mailbox_accepting_. }
  split; [|done]. intros j e Hj.
  pose proof (sum_of_lookup parked (threads c) j _ ltac:(by intros []) Hj) as Hpk. cbn in Hpk.
  destruct Hs as [Ha Hroom']; [unfold total; lia|done|].
  destruct Hex as [(_ & Hm & _)|[_ Hac]]; [|congruence].
  unfold room in Hroom'. rewrite Ho, Hm in Hroom'. revert Hroom'. zlen_nil. lia.
Qed.

End nothrow.

(** C27: while copies do not throw, the mailbox's notifications are enough:
    in every reachable configuration where nobody can go on, every delivery
    has returned, every call of [stop_delivery] is at its join, and the
    executor either waits at an empty mailbox that is open or has left its
    loop after a stop. *)
Theorem mailbox_sleepers_have_to_wait (options : subscription_options) s events stops c :
  is_isolated options = true -> guarantee options = lossless -> 0 <= mailbox_capacity options ->
  make options true = inr s -> (∀ e, ∃ e', copy e = inr e') ->
  reachable (start s events stops) c -> stuck c ->
  (∀ j p, threads c !! S j = Some p -> p = Stopped \/ ∃ r, p = Offered r) /\
  ((threads c !! 0%nat = Some ParkedLoop /\ mailbox_ (sub c) = [] /\ mailbox_accepting_ (sub c) = true) \/
   (threads c !! 0%nat = Some Exited /\ mailbox_accepting_ (sub c) = false)).
Proof.
  intros His Hl Hcap Hm Hcopy Hr Hst. apply stuck_rests in Hst as Hq.
  assert (0 < mailbox_capacity options) as Hroom.
  { unfold make in Hm. rewrite His in Hm. destruct (Z.eqb_spec (mailbox_capacity options) 0); [|lia]. by case_match. }
  pose proof (mail_reachable options Hl Hcopy _ _ (mail_start options Hl s events stops Hm) Hr) as Hi.
  destruct (rest_in_peace options c Hroom Hi Hq) as [Hnone Hex]. split; [|done].
  intros j p Hj. assert (at_rest p = true) as Hp.
  { unfold quiescent in Hq. rewrite forallb_forall in Hq. apply Hq, list_elem_of_In. by eapply list_elem_of_lookup_2. }
  destruct p; try done; try (by left).
  - by destruct (Hnone _ _ Hj).
  - right. by eexists.
  - by pose proof (inv_others _ _ Hi _ _ Hj eq_refl).
  - by pose proof (inv_others _ _ Hi _ _ Hj eq_refl).
Qed.

End threads.
Arguments phase : clear implicits.
Arguments config : clear implicits.

(** ** A producer that sleeps beside an empty mailbox *)

(** Copying event 0 throws; the mailbox holds one event. *)
Definition picky (e : Z) : exn + Z := if e =? 0 then inl (user_exception 0) else inr e.
Definition narrow : subscriber Z :=
  mk_subscriber (mk_subscription_options isolated lossless 1 0) 0 true false [] true false true zero_metrics.

(** Of three workers one fills the mailbox; the other two, one of them with
    event 0, wait for room; the executor takes the event and wakes the one
    whose copy throws; then the executor waits for events. *)
Definition swallowed : list choice :=
  [Step 1 None; Step 1 None; Step 2 None; Step 3 None; Step 0 None; Step 0 (Some 2%nat); Step 2 None;
   Step 0 None; Step 0 None].

(** C28: a copy that throws in [enqueue_isolated] swallows the wake-up of its
    producer: another producer sleeps on beside an empty mailbox, with the
    executor asleep as well, and nobody can go on. *)
Theorem throwing_copy_blocks_a_producer :
  let c := run picky swallowed (start narrow [7; 0; 9] []) in
  threads c = [ParkedLoop; Offered (Some true); Offered None; ParkedOffer 9] /\
  mailbox_ (sub c) = [] /\ mailbox_accepting_ (sub c) = true /\
  ∀ j who, step picky (Step j who) c = None.
Proof.
  split; [vm_compute; reflexivity|]. split; [vm_compute; reflexivity|].
  split; [vm_compute; reflexivity|]. intros j who. by destruct j as [|[|[|[|j]]]]; vm_compute.
Qed.

(** ** Two deliveries and a stop, and their witnesses *)

Definition fine (e : Z) : exn + Z := inr e.
Definition one_slot : subscription_options := mk_subscription_options isolated lossless 1 0.

(** One producer waits for the other's event to be taken; the stop comes
    last. *)
Definition handed_over : list choice :=
  [Step 1 None; Step 2 None; Step 1 None; Step 0 None; Step 0 (Some 2%nat); Step 2 None; Step 2 None;
   Step 0 None; Step 0 None; Step 0 None; Step 0 None; Step 0 None;
   Step 3 None; Step 3 (Some 0%nat); Step 3 None; Step 0 None].

Definition handed_over_end : config Z := run fine handed_over (start narrow [7; 9] [true]).

Lemma mail_run_reachable {E} (copy : E -> exn + E) sched c : reachable copy c (run copy sched c).
Proof.
  revert c. induction sched as [|ch sched IH]; intros c; cbn; [apply rtc_refl|].
  destruct (step copy ch c) as [c1|] eqn:Hs; cbn; [|apply IH].
  eapply rtc_l; [by exists ch|apply IH].
Qed.

Lemma handed_over_stuck : stuck fine handed_over_end.
Proof. intros j who. by destruct j as [|[|[|[|j]]]]; vm_compute. Qed.

Lemma mailbox_sleepers_have_to_wait_witness :
  threads handed_over_end = [Exited; Offered (Some true); Offered (Some true); Stopped] /\
  (∀ j p, threads handed_over_end !! S j = Some p -> p = Stopped \/ ∃ r, p = Offered r).
Proof.
  split; [vm_compute; reflexivity|].
  apply (mailbox_sleepers_have_to_wait fine one_slot narrow [7; 9] [true] handed_over_end);
    [reflexivity..|done|reflexivity|intros e; by exists e|apply mail_run_reachable|apply handed_over_stuck].
Defined.

Lemma notified_runs_end_witness : Z.of_nat 1 <= work (start narrow [7; 9] [true]).
Proof.
  apply (notified_runs_end fine 1 (start narrow [7; 9] [true]) (run fine [Step 1 None] (start narrow [7; 9] [true]))).
  apply nsteps_once. exists 1%nat, None. reflexivity.
Defined.

End MailboxWait.

