(* ===== verification/SubscriberLifetime.v ===== *)
(** * Who owns a subscriber, and its destruction

    A [subscriber_state] is shared: handles, registry snapshots, the threads
    that call it and the executor's closure hold [shared_ptr]s to it, and the
    thread that lets go of the last one runs [~subscriber_state]. Here the
    threads of [SubscriberConc] are run with their pointers. A thread inside
    a call holds a pointer until the call returns (the handle's [control_],
    the dispatcher's snapshot, the closure's [self]); the executor's thread
    has ended once its closure is destroyed, and a join waits for that. *)

From S2P Require Import Prelude Types Subscriber SubscriberConc.
Import Subscriber.
Local Open Scope Z_scope.

Module SubscriberLifetime.

(** The points of [~subscriber_state]: before and after the section under
    [mailbox_mutex_], inside [executor_.join()], and after its body. *)
Inductive phase : Type := Entered | Marked | Joining | Destroyed.

#[export] Instance phase_eq_dec : EqDecision phase.
Proof. solve_decision. Defined.

Section lifetime.
Context {E : Type} (copy : option (E -> exn + E)).

(** [holds]: the pointers of each thread; [others]: those in handles and
    snapshots that no thread is using; [dying]: the thread in the destructor. *)
Record config : Type := mk_config {
  threads : SubscriberConc.config E;
  holds : list nat;
  others : nat;
  dying : option (nat * phase);
}.
Implicit Types c : config.

(** A step of a thread; copying a pointer out of a handle or snapshot or
    into one; dropping a thread's own pointer or destroying a handle or
    snapshot; the next step of the destructor. *)
Inductive choice : Type :=
  | Act (ch : SubscriberConc.choice E) (j : nat)
  | Take (j : nat)
  | Store (j : nat)
  | Drop (j : nat)
  | Erase (j : nat)
  | Destruct.

Definition idle (j : nat) c : bool :=
  if SubscriberConc.stacks (threads c) !! j is Some [] then true else false.
Definition held_by (j : nat) c : nat := default 0%nat (holds c !! j).
Definition held c : Z := sum_of Z.of_nat (holds c) + Z.of_nat (others c).

(** The executor returned from [executor_loop] and its closure is gone, the
    destructor that may have run with it included. *)
Definition dying_on_executor c : bool :=
  if dying c is Some (j, ph)
  then SubscriberConc.is_executor j (threads c) && negb (bool_decide (ph = Destroyed)) else false.
Definition ended c : bool := idle 0 c && (held_by 0 c =? 0)%nat && negb (dying_on_executor c).

(** Once its loop returned, the executor's thread only destroys its closure. *)
Definition able (j : nat) c : bool := negb (SubscriberConc.is_executor j (threads c) && idle j c).

Definition joining (j : nat) c : bool :=
  if SubscriberConc.stacks (threads c) !! j is Some (SubscriberConc.Join :: _) then true else false.

Definition act (ch : SubscriberConc.choice E) (j : nat) c : option config :=
  if idle j c && (held_by j c =? 0)%nat then None
  else if joining j c && negb (ended c) then None
  else match SubscriberConc.step copy ch j (threads c) with
  | Some t => Some (mk_config t (holds c) (others c) (dying c))
  | None => None
  end.

(** [shared_ptr::~shared_ptr] on thread [j]: the last one runs the destructor. *)
Definition release (j : nat) c : config :=
  if held c =? 0 then mk_config (threads c) (holds c) (others c) (Some (j, Entered)) else c.

Definition with_pointers (hs : list nat) (n : nat) c : config :=
  mk_config (threads c) hs n (dying c).

Definition with_executor_thread (s : subscriber E) (joinable : bool) c : SubscriberConc.config E :=
  let t := threads c in
  SubscriberConc.mk_config s (SubscriberConc.stacks t) (SubscriberConc.serial_owner t)
    (SubscriberConc.join_owner t) joinable (SubscriberConc.accepted t) (SubscriberConc.taken t).

Definition die (t : SubscriberConc.config E) (j : nat) (ph : phase) c : config :=
  mk_config t (holds c) (others c) (Some (j, ph)).

(** [~subscriber_state] on thread [j]; [None] while it waits in [join]. *)
Definition destroy (j : nat) (ph : phase) c : option config :=
  let t := threads c in
  let s := SubscriberConc.sub t in
  match ph with
  | Entered =>
      if negb (is_isolated (options_ s)) then Some (die t j Destroyed c)
      else Some (die (with_executor_thread (destroy_mark s) (SubscriberConc.joinable t) c) j Marked c)
  | Marked =>
      if SubscriberConc.joinable t then
        if SubscriberConc.is_executor j t
        then Some (die (with_executor_thread s false c) j Destroyed c)
        else Some (die t j Joining c)
      else Some (die t j Destroyed c)
  | Joining =>
      if ended c then Some (die (with_executor_thread s false c) j Destroyed c) else None
  | Destroyed => None
  end.

Definition step (ch : choice) c : option config :=
  match ch with
  | Act ch j => act ch j c
  | Take j =>
      if (0 <? others c)%nat && able j c && bool_decide (j < length (holds c))%nat
      then Some (with_pointers (alter S j (holds c)) (others c) c) else None
  | Store j =>
      if (0 <? held_by j c)%nat && able j c
      then Some (with_pointers (holds c) (S (others c)) c) else None
  | Drop j =>
      if (0 <? held_by j c)%nat && (idle j c || (1 <? held_by j c)%nat)
      then Some (release j (with_pointers (alter pred j (holds c)) (others c) c))
      else None
  | Erase j =>
      if (0 <? others c)%nat && able j c && bool_decide (j < length (holds c))%nat
      then Some (release j (with_pointers (holds c) (pred (others c)) c)) else None
  | Destruct =>
      match dying c with Some (j, ph) => destroy j ph c | None => None end
  end.

Definition one_step c c' : Prop := ∃ ch, step ch c = Some c'.
Definition reachable : config -> config -> Prop := rtc one_step.

Fixpoint run (sched : list choice) c : config :=
  match sched with
  | [] => c
  | ch :: sched => run sched (default c (step ch c))
  end.

(** [registry_core::subscribe] on thread 1 has made the state and, for an
    isolated subscriber, started the executor with its own pointer. *)
Definition start (s : subscriber E) (m : nat) : config :=
  mk_config (SubscriberConc.start s (S m))
    ((if is_isolated (options_ s) then 1 else 0)%nat :: 1%nat :: replicate m 0%nat) 0 None.

Lemma idle_empty j c : SubscriberConc.stacks (threads c) !! j = Some [] -> idle j c = true.
Proof. unfold idle. intros Hl. by destruct (SubscriberConc.stacks (threads c) !! j) as [[]|]; simplify_eq. Qed.

(** ** What the pointers guarantee *)

Section invariant.
Context (options : subscription_options) (m : nat).

(** What is known of the subscriber once no pointer to it is left. *)
Record settled (s : subscriber E) : Prop := {
  settled_executor :
    is_isolated options = true -> executor_stopping_ s = true /\ mailbox_ s = [];
  settled_metrics :
    eq64 (offered (metrics_ s))
      (delivered (metrics_ s) + dropped (metrics_ s) + rejected (metrics_ s));
}.

Record inv c : Prop := {
  life_threads : dying c = None -> SubscriberConc.inv (threads c);
  life_mailbox : dying c = None -> SubscriberConc.unmailed (threads c);
  life_options : options_ (SubscriberConc.sub (threads c)) = options;
  life_stacks : length (SubscriberConc.stacks (threads c)) = S (S m);
  life_holds : length (holds c) = S (S m);
  life_calls : ∀ j l, SubscriberConc.stacks (threads c) !! j = Some l -> l <> [] -> (0 < held_by j c)%nat;
  life_joinable : SubscriberConc.joinable (threads c) = true -> is_isolated options = true;
  life_alive : dying c = None -> 0 < held c;
  life_dead : dying c <> None -> held c = 0 /\ settled (SubscriberConc.sub (threads c));
  life_joining : ∀ j, dying c = Some (j, Joining) -> SubscriberConc.is_executor j (threads c) = false;
  life_destroyed : ∀ j, dying c = Some (j, Destroyed) -> SubscriberConc.joinable (threads c) = false;
}.

Lemma held_nonneg c : 0 <= held c.
Proof. unfold held. pose proof (sum_of_nonneg Z.of_nat (holds c) Nat2Z.is_nonneg). lia. Qed.

Lemma held_at_least j c : Z.of_nat (held_by j c) + Z.of_nat (others c) <= held c.
Proof.
  unfold held, held_by. destruct (holds c !! j) as [n|] eqn:Hn; cbn.
  - pose proof (sum_of_lookup Z.of_nat _ _ _ Nat2Z.is_nonneg Hn). lia.
  - pose proof (sum_of_nonneg Z.of_nat (holds c) Nat2Z.is_nonneg). lia.
Qed.

(** With no pointer left no thread is inside a call. *)
Lemma nobody_calls c : inv c -> held c = 0 ->
  ∀ j l, SubscriberConc.stacks (threads c) !! j = Some l -> l = [].
Proof.
  intros Hi Hh j l Hl. destruct l as [|f l]; [done|]. pose proof (held_at_least j c).
  pose proof (life_calls _ Hi j _ Hl ltac:(done)). lia.
Qed.

Lemma nobody_pending (t : SubscriberConc.config E) w :
  (∀ j l, SubscriberConc.stacks t !! j = Some l -> l = []) -> SubscriberConc.total w t = 0.
Proof.
  unfold SubscriberConc.total. destruct t as [s st so jo jb ac ta]. cbn.
  induction st as [|l st IH]; intros Hst; [done|]. sum_cons.
  rewrite (Hst 0%nat l eq_refl), IH; [done|]. intros j. apply (Hst (S j)).
Qed.

(** The last pointer goes when every accepted event has been handled. *)
Lemma settled_at_last c : inv c -> dying c = None ->
  (∀ j l, SubscriberConc.stacks (threads c) !! j = Some l -> l = []) ->
  settled (SubscriberConc.sub (threads c)).
Proof.
  intros Hi Hd Hno. pose proof (life_threads _ Hi Hd) as Ht.
  assert (is_isolated options = true -> executor_stopping_ (SubscriberConc.sub (threads c)) = true /\
    mailbox_ (SubscriberConc.sub (threads c)) = []) as Hex.
  { intros Hiso. unfold is_isolated in Hiso. apply bool_decide_eq_true in Hiso.
    destruct (SubscriberConc.stacks (threads c) !! 0%nat) as [l|] eqn:Hl.
    - destruct (SubscriberConc.inv_exec _ Ht) with (l := l) as [Hlast|(_ & ? & ?)]; try done.
      + unfold SubscriberConc.policy. by rewrite (life_options _ Hi).
      + by rewrite (Hno 0%nat l Hl) in Hlast.
    - apply lookup_ge_None in Hl. rewrite (life_stacks _ Hi) in Hl. lia. }
  split; [done|]. pose proof (SubscriberConc.inv_accounted _ Ht) as Ha.
  unfold SubscriberConc.accounted in Ha. rewrite (nobody_pending _ _ Hno) in Ha.
  assert (mailbox_ (SubscriberConc.sub (threads c)) = []) as Hm.
  { destruct (is_isolated options) eqn:Hiso; [by apply Hex|].
    apply (life_mailbox _ Hi Hd). by rewrite (life_options _ Hi). }
  rewrite Hm in Ha. zlen_nil. by rewrite !Z.add_0_r in Ha.
Qed.

(** ** Every step keeps the invariant *)

Lemma inv_act ch j c c' : act ch j c = Some c' -> inv c -> inv c'.
Proof.
  intros Hs Hi. unfold act in Hs.
  destruct (idle j c && (held_by j c =? 0)%nat) eqn:Hidle; [done|].
  destruct (joining j c && negb (ended c)); [done|].
  destruct (SubscriberConc.step copy ch j (threads c)) as [t|] eqn:Ht; [|done]. simplify_eq.
  destruct (SubscriberConc.step_stacks copy ch j _ _ Ht) as (l & l' & Hl & Hst).
  assert (0 < held_by j c)%nat as Hj.
  { destruct l as [|f l]; [|by eapply (life_calls _ Hi)]. rewrite (idle_empty j c Hl) in Hidle.
    apply Nat.eqb_neq in Hidle. lia. }
  assert (dying c = None) as Hd.
  { destruct (dying c) as [[]|] eqn:Hd; [|done].
    destruct (life_dead _ Hi ltac:(by rewrite Hd)) as [Hz _]. pose proof (held_at_least j c). lia. }
  split; cbn; try (by intros; congruence).
  - intros _. eapply SubscriberConc.sub_inv_step; [exact Ht|by apply life_threads].
  - intros _. eapply SubscriberConc.unmailed_step; [exact Ht|by apply life_mailbox].
  - rewrite (SubscriberConc.step_options copy ch j _ _ Ht). apply (life_options _ Hi).
  - rewrite Hst, length_insert. apply (life_stacks _ Hi).
  - apply (life_holds _ Hi).
  - intros i k Hk Hne. rewrite Hst in Hk.
    apply list_lookup_insert_Some in Hk as [(<- & _ & _)|[_ Hk]]; [done|by eapply (life_calls _ Hi)].
  - intros Hjo. by apply (life_joinable _ Hi), (SubscriberConc.joinable_step copy ch j _ _ Ht).
  - intros _. apply (life_alive _ Hi Hd).
Qed.

(** Pointers may move while they are not all gone and callers keep theirs. *)
Lemma inv_pointers hs n c :
  inv c -> dying c = None -> length hs = length (holds c) ->
  (∀ i, idle i c = false -> 0 < held_by i c -> 0 < held_by i (with_pointers hs n c))%nat ->
  ∀ j, inv (release j (with_pointers hs n c)).
Proof.
  intros Hi Hd Hlen Hcalls j.
  assert (∀ i l, SubscriberConc.stacks (threads c) !! i = Some l -> l <> [] ->
    (0 < held_by i (with_pointers hs n c))%nat) as Hbusy.
  { intros i l Hl Hne. apply Hcalls; [|by eapply (life_calls _ Hi)]. unfold idle.
    by destruct (SubscriberConc.stacks (threads c) !! i) as [[]|]; simplify_eq. }
  unfold release. destruct (Z.eqb_spec (held (with_pointers hs n c)) 0) as [Hz|Hz].
  - assert (∀ i l, SubscriberConc.stacks (threads c) !! i = Some l -> l = []) as Hno.
    { intros i l Hl. destruct l as [|f l]; [done|]. pose proof (Hbusy i _ Hl ltac:(done)).
      pose proof (held_at_least i (with_pointers hs n c)). lia. }
    split; cbn; try (by intros; congruence); try apply Hi; try done.
    + by rewrite Hlen; apply (life_holds _ Hi).
    + intros _. split; [done|]. by apply settled_at_last.
  - split; cbn; try (by intros; congruence); try (by intros; apply Hi); try done.
    + by rewrite Hlen; apply (life_holds _ Hi).
    + intros _. fold (with_pointers hs n c). pose proof (held_nonneg (with_pointers hs n c)). lia.
Qed.

Lemma release_alive j c : 0 < held c -> release j c = c.
Proof. intros Hh. unfold release. destruct (Z.eqb_spec (held c) 0); [lia|done]. Qed.

Lemma held_alive c : inv c -> 0 < held c -> dying c = None.
Proof.
  intros Hi Hh. destruct (dying c) as [x|] eqn:Hd; [|done].
  destruct (life_dead _ Hi ltac:(by rewrite Hd)) as [Hz _]. lia.
Qed.

Lemma alter_hold f j hs n :
  hs !! j = Some n ->
  sum_of Z.of_nat (alter f j hs) = sum_of Z.of_nat hs - Z.of_nat n + Z.of_nat (f n).
Proof.
  intros Hn. rewrite <- (sum_of_insert Z.of_nat hs j n (f n) Hn). f_equal.
  apply list_eq. intros i. destruct (decide (i = j)) as [->|Hne].
  - rewrite list_lookup_alter_eq, Hn. cbn. by rewrite list_lookup_insert_eq by (by eapply lookup_lt_Some).
  - by rewrite list_lookup_alter_ne, list_lookup_insert_ne by done.
Qed.

Lemma held_by_alter f j i hs n c :
  held_by i (with_pointers (alter f j hs) n c) =
    if decide (i = j) then default 0%nat (f <$> hs !! j) else default 0%nat (hs !! i).
Proof.
  unfold held_by. cbn. case_decide; subst; [by rewrite list_lookup_alter_eq|].
  by rewrite list_lookup_alter_ne by done.
Qed.

Lemma inv_alter f j n c x :
  inv c -> dying c = None -> holds c !! j = Some x -> (idle j c = false -> 0 < f x)%nat ->
  inv (release j (with_pointers (alter f j (holds c)) n c)).
Proof.
  intros Hi Hd Hx Hf. apply inv_pointers; [done..|by rewrite length_alter|].
  intros i Hb Hh. rewrite held_by_alter. case_decide; subst; [|done].
  rewrite Hx. cbn. auto.
Qed.

Lemma inv_step_pointers ch c c' :
  match ch with Act _ _ | Destruct => False | _ => True end ->
  step ch c = Some c' -> inv c -> inv c'.
Proof.
  intros Hch Hs Hi. destruct ch as [| j | j | j | j |]; cbn [step] in Hs; try done; clear Hch;
    case_match eqn:Hg; try done; simplify_eq;
    repeat match goal with H : _ && _ = true |- _ => apply andb_true_iff in H as [? ?] end;
    repeat match goal with H : (_ <? _)%nat = true |- _ => apply Nat.ltb_lt in H end;
    pose proof (held_at_least j c) as Hat; assert (dying c = None) as Hd by (apply held_alive; [done|lia]).
  - match goal with H : bool_decide _ = true |- _ => apply bool_decide_eq_true in H end.
    destruct (lookup_lt_is_Some_2 (holds c) j) as [x Hx]; [done|].
    rewrite <- (release_alive j); [apply (inv_alter _ _ _ _ x); try done; lia|].
    unfold held. cbn. rewrite (alter_hold _ _ _ _ Hx).
    pose proof (life_alive _ Hi Hd) as Ha. unfold held in Ha. lia.
  - rewrite <- (release_alive j); [by apply inv_pointers|].
    pose proof (life_alive _ Hi Hd) as Ha. unfold held in *. cbn. lia.
  - unfold held_by in *. destruct (holds c !! j) as [x|] eqn:Hx;
      cbn [default from_option id] in *; [|lia].
    apply (inv_alter _ _ _ _ x); try done. intros Hb.
    match goal with H : _ || _ = true |- _ => rewrite Hb, orb_false_l in H; apply Nat.ltb_lt in H end. lia.
  - by apply inv_pointers.
Qed.

Lemma inv_destroy j ph c c' : dying c = Some (j, ph) -> destroy j ph c = Some c' -> inv c -> inv c'.
Proof.
  intros Hd Hs Hi. pose proof (life_dead _ Hi ltac:(by rewrite Hd)) as [Hz [Hex Hm]].
  assert (∀ t ph', SubscriberConc.stacks t = SubscriberConc.stacks (threads c) ->
    options_ (SubscriberConc.sub t) = options -> settled (SubscriberConc.sub t) ->
    (SubscriberConc.joinable t = true -> SubscriberConc.joinable (threads c) = true) ->
    (ph' = Joining -> SubscriberConc.is_executor j t = false) ->
    (ph' = Destroyed -> SubscriberConc.joinable t = false) -> inv (die t j ph' c)) as Hinv.
  { intros t ph' Hst Ho Hse Hj Hjo Hde. split; cbn; try (by intros; congruence); try done.
    - rewrite Hst. apply (life_stacks _ Hi).
    - apply (life_holds _ Hi).
    - rewrite Hst. intros i l Hl Hne. by apply (life_calls _ Hi i l).
    - intros ?. by apply (life_joinable _ Hi), Hj.
    - intros i [= <- ->]. by apply Hjo.
    - intros i [= <- ->]. by apply Hde. }
  pose proof (life_options _ Hi) as Ho. destruct ph; cbn [destroy] in Hs; [..|done]; case_tests;
    apply Hinv; try done.
  - intros _. destruct (SubscriberConc.joinable (threads c)) eqn:Hj; [|done].
    match goal with H : negb _ = true |- _ => rewrite Ho, (life_joinable _ Hi Hj) in H; done end.
  - congruence.
Qed.

Lemma lifetime_inv_step ch c c' : step ch c = Some c' -> inv c -> inv c'.
Proof.
  intros Hs Hi. destruct ch as [ch j| | | | |]; try (by eapply inv_step_pointers; [|exact Hs|]).
  - by eapply inv_act.
  - cbn in Hs. destruct (dying c) as [[j ph]|] eqn:Hd; [|done]. by eapply inv_destroy.
Qed.

(** A subscriber made for a registration starts so. *)
Lemma lifetime_start_inv copyable (s : subscriber E) :
  make options copyable = inr s -> 0 <= mailbox_capacity options -> inv (start s m).
Proof.
  intros Hmake Hcap. pose proof (SubscriberConc.sub_start_inv options copyable s (S m) Hmake Hcap) as Hi.
  assert (options_ s = options /\ mailbox_ s = []) as [Ho Hm]
    by (by apply SubscriberConc.make_fresh in Hmake as [-> _]).
  split; try done.
  - intros _ Hiso. split; [done|]. intros j l e [->|(-> & _)]%SubscriberConc.start_stack Hin;
      [by apply elem_of_nil in Hin|by apply list_elem_of_singleton in Hin].
  - cbn. by rewrite length_replicate.
  - cbn. by rewrite length_replicate.
  - intros j l [?|(_ & -> & Hiso)]%SubscriberConc.start_stack Hne; [done|].
    unfold held_by, start. cbn. rewrite Hiso. lia.
  - cbn. by rewrite Ho.
  - intros _. unfold held. cbn. sum_cons.
    pose proof (sum_of_nonneg Z.of_nat (replicate m 0%nat) Nat2Z.is_nonneg). lia.
Qed.

Lemma lifetime_reachable_inv c c' : inv c -> reachable c c' -> inv c'.
Proof. intros Hi Hr. eapply rtc_invariant; [|exact Hi|exact Hr]. intros a b Ha [ch Hs]. by eapply lifetime_inv_step. Qed.

(** Nothing but the destructor is left to run, and it runs through. *)
Lemma nobody_acts c ch i : inv c -> held c = 0 -> act ch i c = None.
Proof.
  intros Hi Hz. pose proof (nobody_calls c Hi Hz) as Hno. pose proof (held_at_least i c).
  unfold act, idle. destruct (SubscriberConc.stacks (threads c) !! i) as [l|] eqn:Hl.
  - rewrite (Hno i l Hl). by replace (held_by i c) with 0%nat by lia.
  - cbn. destruct (joining i c && negb (ended c)); [done|]. unfold SubscriberConc.step.
    replace (SubscriberConc.stacks (threads c) !! i) with (@None (list (SubscriberConc.frame E))) by exact (eq_sym Hl).
    done.
Qed.

Lemma destruct_enabled c j ph :
  inv c -> held c = 0 -> dying c = Some (j, ph) -> ph <> Destroyed -> is_Some (destroy j ph c).
Proof.
  intros Hi Hz Hd Hph. destruct ph; cbn [destroy]; [| | |done].
  - by case_match.
  - by repeat case_match.
  - unfold ended. pose proof (held_at_least 0 c). replace (held_by 0 c) with 0%nat by lia.
    destruct (lookup_lt_is_Some_2 (SubscriberConc.stacks (threads c)) 0) as [l Hl];
      [rewrite (life_stacks _ Hi); lia|].
    pose proof (nobody_calls c Hi Hz 0%nat l Hl) as ->. rewrite (idle_empty 0 c Hl).
    unfold dying_on_executor. by rewrite Hd, (life_joining _ Hi j Hd).
Qed.

(** C29: the destructor of a subscriber only runs when no thread is inside
    any of its operations and none can enter one again; an isolated
    subscriber's executor has been told to stop and its mailbox is empty, so
    no event is lost uncounted and the metrics balance; the destructor never
    waits, also not on the executor's own thread; and the thread object it
    destroys is not joinable. *)
Theorem destruction_is_safe copyable (s : subscriber E) c j ph :
  make options copyable = inr s -> 0 <= mailbox_capacity options ->
  reachable (start s m) c -> dying c = Some (j, ph) ->
  let sub := SubscriberConc.sub (threads c) in
  (∀ i l, SubscriberConc.stacks (threads c) !! i = Some l -> l = []) /\
  (∀ ch i, act ch i c = None) /\
  (is_isolated options = true -> executor_stopping_ sub = true /\ mailbox_ sub = []) /\
  eq64 (offered (metrics_ sub)) (delivered (metrics_ sub) + dropped (metrics_ sub) + rejected (metrics_ sub)) /\
  (if ph is Destroyed then SubscriberConc.joinable (threads c) = false
   else is_Some (step Destruct c)).
Proof.
  intros Hmake Hcap Hr Hd. pose proof (lifetime_reachable_inv _ _ (lifetime_start_inv copyable s Hmake Hcap) Hr) as Hi.
  destruct (life_dead _ Hi ltac:(by rewrite Hd)) as [Hz [Hex Hm]].
  pose proof (nobody_calls c Hi Hz) as Hno.
  assert (∀ i, held_by i c = 0%nat) as Hh by (intros i; pose proof (held_at_least i c); lia).
  split_and!; [done| |done..|].
  - intros ch i. by apply nobody_acts.
  - destruct ph; [..|by apply (life_destroyed _ Hi j)]; cbn [step]; rewrite Hd; by apply destruct_enabled.
Qed.

End invariant.
End lifetime.
Arguments config : clear implicits.
Arguments choice : clear implicits.

(** ** An executor that ends its own subscription and outlives the handle

    Thread 1 publishes one event; its callback, on the executor, unsubscribes;
    thread 1 lets the handle go; the executor's closure is the last owner. *)

Definition last_owner : list (choice Z) :=
  Act (SubscriberConc.StartInvoke 7) 1 ::
  replicate 2 (Act SubscriberConc.Go 1) ++
  replicate 2 (Act SubscriberConc.Go 0) ++ [Act SubscriberConc.CallUnsubscribe 0] ++
  replicate 4 (Act SubscriberConc.Go 0) ++ [Act (SubscriberConc.Return 3) 0] ++
  replicate 3 (Act SubscriberConc.Go 0) ++ [Drop 1; Drop 0].

Definition outliving (sched : list (choice Z)) : config Z :=
  run (Some inr) sched (start (SubscriberConc.sample isolated) 0).

Lemma lifetime_run_reachable {E} copy sched (c : config E) : reachable copy c (run copy sched c).
Proof.
  revert c. induction sched as [|ch sched IH]; intros c; cbn [run]; [constructor|].
  destruct (step copy ch c) as [c'|] eqn:Hs; cbn; [|apply IH].
  eapply rtc_l; [by exists ch|apply IH].
Qed.

Lemma outliving_dies : dying (outliving last_owner) = Some (0%nat, Entered).
Proof. vm_compute. reflexivity. Qed.

Lemma outliving_capacity : 0 <= mailbox_capacity (SubscriberConc.sample_options isolated).
Proof. vm_compute. discriminate. Qed.

Lemma destruction_is_safe_witness :
  mailbox_ (SubscriberConc.sub (threads (outliving last_owner))) = [] /\
  dying (outliving (last_owner ++ [Destruct; Destruct])) = Some (0%nat, Destroyed).
Proof.
  split; [|vm_compute; reflexivity].
  exact (proj2 (proj1 (proj2 (proj2 (destruction_is_safe (Some inr) (SubscriberConc.sample_options isolated)
    0 true (SubscriberConc.sample isolated) (outliving last_owner) 0 Entered
    (SubscriberConc.sample_made isolated) outliving_capacity
    (lifetime_run_reachable _ _ _) outliving_dies))) eq_refl)).
Defined.

End SubscriberLifetime.
