(* ===== verification/Registry.v ===== *)
(** * [snapshot_registry]: copy-on-write membership

    A snapshot is an immutable list of subscriber pointers; pointers are
    subscriber identifiers into the store of subscriber objects, which
    snapshots share. Operations run one at a time, as the writer mutex
    orders them. [oom] tells that an allocation of the operation fails. *)

From S2P Require Import Prelude Types Subscriber.
Import Subscriber.
Local Open Scope Z_scope.

Module Registry.

Record registry (E : Type) : Type := mk_registry {
  next_id_ : Z;
  current : list Z;
  objects : gmap Z (subscriber E);
}.
Arguments mk_registry {E}.
Arguments next_id_ {E} r.
Arguments current {E} r.
Arguments objects {E} r.

Section ops.
Context {E : Type}.
Implicit Types r : registry E.

Definition make : registry E := mk_registry 1 [] ∅.

Definition acquire_snapshot r : list Z := current r.

(** [subscriber->subscribed()] through the shared pointer. *)
Definition subscribed_in r (id : Z) : bool :=
  match objects r !! id with Some s => subscribed s | None => false end.

Definition update_object (id : Z) (f : subscriber E -> subscriber E) r : registry E :=
  mk_registry (next_id_ r) (current r) (alter f id (objects r)).

Definition publish_snapshot (next : list Z) r : registry E :=
  mk_registry (next_id_ r) next (objects r).

Definition allocate_id : M (registry E) Z :=
  r ← gets id;
  if next_id_ r =? size_max then throw overflow_error
  else
    modify (fun r => mk_registry (u64 (next_id_ r + 1)) (current r) (objects r));;
    mret (next_id_ r).

(** [registry_core::subscribe]. The executor of an isolated subscriber starts
    with the state already complete. *)
Definition core_subscribe (options : subscription_options) (copyable oom : bool) : M (registry E) Z :=
  id ← allocate_id;
  match Subscriber.make options copyable with
  | inl e => throw e
  | inr state =>
      if oom then throw bad_alloc
      else
        modify (fun r =>
          let r := mk_registry (next_id_ r) (current r) (<[id := state]> (objects r)) in
          publish_snapshot (List.filter (subscribed_in r) (current r) ++ [id]) r);;
        mret id
  end.

(** [callable] says the callback is not empty. *)
Definition subscribe (callable : bool) (options : subscription_options) (copyable oom : bool) :
    M (registry E) Z :=
  if negb callable then throw invalid_argument else core_subscribe options copyable oom.

Definition retire (id : Z) (oom : bool) : M (registry E) unit :=
  r ← gets Datatypes.id;
  if bool_decide (id ∈ current r) then
    if oom then throw bad_alloc
    else modify (publish_snapshot
           (List.filter (fun i => negb (i =? id) && subscribed_in r i) (current r)))
  else mret tt.

Definition active_count r : Z := zlength (List.filter (subscribed_in r) (acquire_snapshot r)).

(** [subscriber_state::stop_delivery], before it joins the executor. *)
Definition stop_one (drains : bool) (s : subscriber E) : subscriber E :=
  if is_isolated (options_ s) then stop_mark drains s else s.

Definition stop_delivery (drains : bool) r : registry E :=
  foldl (fun r i => update_object i (stop_one drains) r) r (acquire_snapshot r).

(** [~snapshot_registry]. *)
Definition destroy r : registry E := stop_delivery false r.

(** [subscriber_state::unsubscribe] with its retirement callback, which is
    [retire] on this registry and whose failure is swallowed; the final wait
    blocks while another thread is inside the callback. *)
Definition unsubscribe (id : Z) (from_callback oom : bool) : M (registry E) unit :=
  r ← gets Datatypes.id;
  match objects r !! id with
  | None => stuck undefined_behaviour
  | Some s =>
      modify (update_object id (fun s => (unsubscribe_mark s).2));;
      (if (unsubscribe_mark s).1 then catch (retire id oom) (fun _ => mret tt) else mret tt);;
      modify (update_object id (stop_one false));;
      if from_callback || (in_flight s =? 0) then mret tt else stuck blocked
  end.

(** ** What the registry maintains *)

Record wf r : Prop := {
  wf_next : 1 <= next_id_ r < 2 ^ 64;
  wf_current : NoDup (current r);
  wf_live : ∀ i, i ∈ current r -> is_Some (objects r !! i);
  wf_objects : ∀ i, is_Some (objects r !! i) -> 1 <= i < next_id_ r;
  wf_retired : ∀ i s, objects r !! i = Some s -> active_ s = true ->
    retirement_started_ s = false /\ i ∈ current r;
}.

(** The subscribers a dispatch can reach, in subscription order. *)
Definition active r : list Z := List.filter (subscribed_in r) (current r).

Lemma make_wf : wf make.
Proof.
  split; cbn; try done; try lia.
  - constructor.
  - by intros i ?%elem_of_nil.
  - intros i. rewrite lookup_empty. by intros [].
Qed.

(** *** Membership *)

Lemma elem_of_filter_in (f : Z -> bool) l i : i ∈ List.filter f l <-> i ∈ l /\ f i = true.
Proof. rewrite !list_elem_of_In. apply List.filter_In. Qed.

Lemma filter_nodup (f : Z -> bool) l : NoDup l -> NoDup (List.filter f l).
Proof. rewrite !NoDup_ListNoDup. apply List.NoDup_filter. Qed.

Lemma filter_twice (f g : Z -> bool) l :
  List.filter f (List.filter g l) = List.filter (fun i => g i && f i) l.
Proof.
  induction l as [|i l IH]; [done|]. cbn. destruct (g i); cbn; [|done]. destruct (f i); congruence.
Qed.

Lemma filter_same (f g : Z -> bool) l :
  (∀ i, i ∈ l -> f i = g i) -> List.filter f l = List.filter g l.
Proof.
  induction l as [|i l IH]; intros H; [done|]. cbn. rewrite (H i) by left.
  rewrite IH; [done|]. intros j Hj. apply H. by right.
Qed.

Lemma subscribed_update r id f i :
  subscribed_in (update_object id f r) i =
    if decide (i = id) then
      match objects r !! id with Some s => subscribed (f s) | None => false end
    else subscribed_in r i.
Proof.
  unfold subscribed_in, update_object. cbn. case_decide as Hi.
  - subst. rewrite lookup_alter_eq. by destruct (objects r !! id).
  - by rewrite lookup_alter_ne.
Qed.

(** Updates that keep the registration state of an object. *)
Lemma update_wf r id f :
  wf r -> (∀ s, (active_ (f s) = true -> active_ s = true /\
    (retirement_started_ s = false -> retirement_started_ (f s) = false))) ->
  wf (update_object id f r).
Proof.
  intros [] Hf. split; cbn; try done.
  - intros i Hi. apply lookup_alter_is_Some. auto.
  - intros i Hi. apply lookup_alter_is_Some in Hi. auto.
  - intros i s Hs Ha. destruct (decide (i = id)) as [->|Hne].
    + rewrite lookup_alter_eq in Hs. destruct (objects r !! id) as [s0|] eqn:Ho; [|done].
      simplify_eq/=. destruct (Hf s0 Ha) as [Ha0 Hr0]. destruct (wf_retired0 id s0 Ho Ha0). auto.
    + rewrite lookup_alter_ne in Hs by done. by apply (wf_retired0 i s).
Qed.

Lemma publish_wf r next :
  wf r -> NoDup next -> (∀ i, i ∈ next -> i ∈ current r) ->
  (∀ i, i ∈ current r -> subscribed_in r i = true -> i ∈ next) ->
  wf (publish_snapshot next r).
Proof.
  intros [] Hn Hsub Hkeep. split; cbn; try done; [auto|].
  intros i s Hs Ha. destruct (wf_retired0 i s Hs Ha). split; [done|]. apply Hkeep; [done|].
  unfold subscribed_in. by rewrite Hs.
Qed.

Lemma active_publish r next :
  active (publish_snapshot next r) = List.filter (subscribed_in r) next.
Proof. done. Qed.

(** ** The registry as a membership list

    The abstract registry is the next identifier and the subscribed ones in
    order; it knows nothing of snapshots, tombstones or allocation. *)

Inductive call : Type :=
  | Subscribe (callable : bool) (options : subscription_options) (copyable oom : bool)
  | Unsubscribe (id : Z) (from_callback oom : bool).

Definition spec_call (c : call) (m : Z * list Z) : Z * list Z :=
  let '(next, members) := m in
  match c with
  | Subscribe callable options copyable oom =>
      if negb callable || (next =? size_max) then (next, members)
      else match Subscriber.make (E:=E) options copyable with
      | inl _ => (next + 1, members)
      | inr _ => (next + 1, if oom then members else members ++ [next])
      end
  | Unsubscribe id _ _ => (next, List.filter (fun i => negb (i =? id)) members)
  end.

Definition abstract r : Z * list Z := (next_id_ r, active r).

(** Nobody is inside a callback, as between operations of one thread. *)
Definition quiet r : Prop := ∀ i s, objects r !! i = Some s -> in_flight s = 0.

Lemma update_quiet r id f :
  quiet r -> (∀ s, in_flight (f s) = in_flight s) -> quiet (update_object id f r).
Proof.
  intros Hq Hf i s. cbn. destruct (decide (i = id)) as [->|].
  - rewrite lookup_alter_eq. destruct (objects r !! id) as [s0|] eqn:Ho; [|done].
    intros [= <-]. rewrite Hf. by eapply Hq.
  - rewrite lookup_alter_ne by done. apply Hq.
Qed.

(** *** Subscribing *)

Lemma allocate_wf r :
  wf r -> next_id_ r <> size_max ->
  wf (mk_registry (u64 (next_id_ r + 1)) (current r) (objects r)).
Proof.
  intros [[H1 H2] ? ? Ho ?] Hn. unfold size_max in Hn. rewrite u64_small by lia.
  split; cbn; try done; [lia|]. intros i Hi. specialize (Ho i Hi). lia.
Qed.

Lemma insert_wf r id s :
  wf r -> 1 <= id < next_id_ r -> objects r !! id = None -> active_ s = true ->
  retirement_started_ s = false ->
  let r' := mk_registry (next_id_ r) (current r) (<[id := s]> (objects r)) in
  let next := List.filter (subscribed_in r') (current r) ++ [id] in
  wf (publish_snapshot next r') /\ next = active r ++ [id] /\
  active (publish_snapshot next r') = next.
Proof.
  intros [Hn Hnd Hl Ho Hr] Hid Hf Ha Hre. cbv zeta. set (r' := mk_registry _ _ _).
  assert (id ∉ current r) as Hnew.
  { intros Hin. destruct (Hl id Hin). congruence. }
  assert (List.filter (subscribed_in r') (current r) = active r) as Hact.
  { apply filter_same. intros i Hi. unfold subscribed_in. cbn.
    by rewrite lookup_insert_ne by (intros ->; done). }
  assert (subscribed_in r' id = true) as Hs.
  { unfold subscribed_in. cbn. by rewrite lookup_insert_eq. }
  rewrite Hact. split_and!; [|done|].
  2: { unfold active at 1. change (subscribed_in (publish_snapshot _ r')) with (subscribed_in r').
    cbn [current publish_snapshot]. rewrite List.filter_app. cbn. rewrite Hs. f_equal.
    rewrite <- Hact, filter_twice. apply filter_same. intros i _. apply andb_diag. }
  split; cbn.
  - done.
  - apply NoDup_app. split_and!; [by apply filter_nodup| |apply NoDup_singleton].
    intros i [Hi _]%elem_of_filter_in ->%list_elem_of_singleton. done.
  - intros i [[Hi _]%elem_of_filter_in| ->%list_elem_of_singleton]%elem_of_app.
    + apply lookup_insert_is_Some'. auto.
    + rewrite lookup_insert_eq. by eexists.
  - intros i [->|Hi]%lookup_insert_is_Some'; [done|auto].
  - intros i s' [[<- <-]|[Hne Hs']]%lookup_insert_Some Ha'.
    + split; [done|]. apply elem_of_app. right. by apply list_elem_of_singleton.
    + destruct (Hr i s' Hs' Ha'). split; [done|]. apply elem_of_app. left.
      apply elem_of_filter_in. split; [done|]. unfold subscribed_in. by rewrite Hs'.
Qed.

(** Subscribing either fails and leaves the reachable subscribers as they
    were, or appends a subscriber with an identifier never used before, and
    leaves no unsubscribed entry in the new snapshot. *)
Lemma subscribe_ok callable options copyable oom r :
  wf r ->
  let c := Subscribe callable options copyable oom in
  match subscribe callable options copyable oom r with
  | Ret id r' =>
      wf r' /\ objects r !! id = None /\ id = next_id_ r /\ active r' = active r ++ [id] /\
      current r' = active r' /\ abstract r' = spec_call c (abstract r) /\
      (quiet r -> quiet r')
  | Throw e r' =>
      wf r' /\ current r' = current r /\ objects r' = objects r /\
      abstract r' = spec_call c (abstract r)
  | Stuck _ => False
  end.
Proof.
  intros Hw. unfold subscribe, core_subscribe, allocate_id. run_m. destruct callable; cbn; [|done].
  destruct (Z.eqb_spec (next_id_ r) size_max) as [|Hn]; cbn; [done|].
  pose proof (allocate_wf r Hw Hn) as Hw1. set (r1 := mk_registry _ _ _) in *.
  destruct Hw as [[Hn1 Hn2] Hnd Hl Ho Hr].
  assert (next_id_ r1 = next_id_ r + 1) as Hnext.
  { cbn. unfold size_max in Hn. rewrite u64_small; lia. }
  assert (∀ ms, ms = active r -> abstract r1 = (next_id_ r + 1, ms)) as Habs.
  { intros ms ->. unfold abstract. by rewrite Hnext. }
  destruct (Subscriber.make options copyable) as [e|s] eqn:Hm; [by auto|].
  destruct oom; [by auto|].
  assert (active_ s = true /\ retirement_started_ s = false /\ in_flight s = 0) as (Ha & Hre & Hfl).
  { unfold Subscriber.make in Hm. repeat case_match; by simplify_eq/=. }
  assert (objects r !! next_id_ r = None) as Hfresh.
  { apply eq_None_not_Some. intros Hs. specialize (Ho _ Hs). lia. }
  destruct (insert_wf r1 (next_id_ r) s Hw1) as (Hw2 & Hnext2 & Hact); try done; [lia|].
  assert (∀ r', active r' = active r1 ++ [next_id_ r] -> next_id_ r' = next_id_ r1 ->
    abstract r' = (next_id_ r + 1, active r ++ [next_id_ r])) as Habs2.
  { intros r' H1 H2. unfold abstract. by rewrite H1, H2, Hnext. }
  pose proof (eq_trans Hact Hnext2) as Hfin. split_and!; try done.
  - by apply Habs2.
  - intros Hq i s' Hs'. cbn in Hs'.
    apply lookup_insert_Some in Hs' as [[_ <-]|[_ Hs']]; [done|by apply (Hq i)].
Qed.

(** *** Unsubscribing *)

Lemma mark_wf r id :
  wf r -> wf (update_object id (fun s => (unsubscribe_mark s).2) r).
Proof. intros Hw. by apply update_wf. Qed.

Lemma stop_one_state drains (s : subscriber E) :
  active_ (stop_one drains s) = active_ s /\
  retirement_started_ (stop_one drains s) = retirement_started_ s /\
  in_flight_ (stop_one drains s) = in_flight_ s.
Proof. unfold stop_one, stop_mark. by destruct (is_isolated _), drains. Qed.

Lemma stop_wf r id drains : wf r -> wf (update_object id (stop_one drains) r).
Proof.
  intros Hw. apply update_wf; [done|]. intros s. destruct (stop_one_state drains s) as (-> & -> & _).
  auto.
Qed.

Lemma subscribed_stop r id drains i :
  subscribed_in (update_object id (stop_one drains) r) i = subscribed_in r i.
Proof.
  rewrite subscribed_update. case_decide; [subst|done]. unfold subscribed_in.
  destruct (objects r !! id) as [s|]; [|done]. unfold subscribed.
  by rewrite (proj1 (stop_one_state drains s)).
Qed.

Lemma subscribed_mark r id i :
  subscribed_in (update_object id (fun s => (unsubscribe_mark s).2) r) i =
    negb (i =? id) && subscribed_in r i.
Proof.
  rewrite subscribed_update. case_decide as Hi; subst.
  - rewrite Z.eqb_refl. by destruct (objects r !! id).
  - by rewrite (proj2 (Z.eqb_neq _ _)).
Qed.

(** [retire] leaves the reachable subscribers as they were: the retired one
    was inactive before. *)
Lemma retire_spec r id oom :
  wf r -> subscribed_in r id = false ->
  ∃ r', catch (retire id oom) (fun _ => mret tt) r = Ret tt r' /\ wf r' /\
    active r' = active r /\ objects r' = objects r.
Proof.
  intros Hw Hid. unfold retire, catch. run_m. case_bool_decide as Hin; [|by exists r].
  destruct oom; [by exists r|]. eexists. split; [done|].
  assert (∀ i, i ∈ current r ->
    negb (i =? id) && subscribed_in r i = subscribed_in r i) as Hsame.
  { intros i _. destruct (Z.eqb_spec i id) as [->|]; [by rewrite Hid|done]. }
  rewrite (filter_same _ _ _ Hsame). split_and!; [|by unfold active; cbn; rewrite filter_twice; 
    apply filter_same; intros; apply andb_diag|done].
  apply publish_wf; [done|apply filter_nodup, Hw|by intros i [? _]%elem_of_filter_in|].
  intros i Hi Hs. by apply elem_of_filter_in.
Qed.

Lemma unsubscribe_ok id from_callback oom r s :
  wf r -> objects r !! id = Some s -> from_callback = true \/ in_flight s = 0 ->
  ∃ r', unsubscribe id from_callback oom r = Ret tt r' /\ wf r' /\
    active r' = List.filter (fun i => negb (i =? id)) (active r) /\
    next_id_ r' = next_id_ r /\ (quiet r -> quiet r').
Proof.
  intros Hw Ho Hf. unfold unsubscribe. rewrite bind_gets_id, Ho.
  set (r1 := update_object id (fun s => (unsubscribe_mark s).2) r).
  assert (wf r1) as Hw1 by by apply mark_wf.
  assert (∀ i, subscribed_in r1 i = negb (i =? id) && subscribed_in r i) as Hs1.
  { intros i. apply subscribed_mark. }
  assert (active r1 = List.filter (fun i => negb (i =? id)) (active r)) as Ha1.
  { unfold active. cbn. rewrite filter_twice. apply filter_same. intros i _.
    rewrite Hs1. apply andb_comm. }
  assert (∃ r2, (if (unsubscribe_mark s).1 then catch (retire id oom) (fun _ => mret tt)
    else mret tt) r1 = Ret tt r2 /\ wf r2 /\ active r2 = active r1 /\ next_id_ r2 = next_id_ r1 /\ objects r2 = objects r1) as
    (r2 & H2 & Hw2 & Ha2 & Hn2 & Ho2).
  { destruct (unsubscribe_mark s).1; [|by exists r1].
    destruct (retire_spec r1 id oom Hw1) as (r2 & H2 & Hw2 & Ha2 & Ho2).
    { rewrite Hs1, Z.eqb_refl. done. }
    exists r2. split_and!; try done. revert H2. clear. unfold retire, catch. run_m.
    case_bool_decide; [destruct oom|]; by intros [= <-]. }
  exists (update_object id (stop_one false) r2).
  unfold mbind at 1, M_bind at 1, modify at 1. fold r1.
  unfold mbind at 1, M_bind at 1. rewrite H2.
  split_and!; [|by apply stop_wf| |done|].
  - unfold mbind, M_bind, modify. destruct Hf as [->| ->]; [done|]. by rewrite orb_true_r.
  - rewrite <- Ha1, <- Ha2. unfold active. cbn. apply filter_same. intros i _.
    apply subscribed_stop.
  - intros Hq. apply update_quiet; [|intros s'; apply stop_one_state].
    intros i s'. rewrite Ho2. by apply update_quiet.
Qed.


(** Only the holder of a registration can unsubscribe it, so an identifier
    that was never given out is not a call. *)
Definition exec_call (c : call) r : registry E :=
  match c with
  | Subscribe callable options copyable oom =>
      match subscribe callable options copyable oom r with
      | Ret _ r' | Throw _ r' => r'
      | Stuck _ => r
      end
  | Unsubscribe id from_callback oom =>
      match objects r !! id with
      | None => r
      | Some _ =>
          match unsubscribe id from_callback oom r with
          | Ret _ r' | Throw _ r' => r'
          | Stuck _ => r
          end
      end
  end.

Lemma exec_call_ok c r :
  wf r -> quiet r ->
  wf (exec_call c r) /\ quiet (exec_call c r) /\
  abstract (exec_call c r) = spec_call c (abstract r).
Proof.
  intros Hw Hq. destruct c as [callable options copyable oom|id from_callback oom]; cbn [exec_call].
  - pose proof (subscribe_ok callable options copyable oom r Hw) as H.
    destruct (subscribe callable options copyable oom r) as [id r'|e r'|f]; [| |done].
    + destruct H as (? & _ & _ & _ & _ & ? & ?). auto.
    + destruct H as (? & _ & Ho & ?). split_and!; [done| |done].
      intros i s. rewrite Ho. apply Hq.
  - destruct (objects r !! id) as [s|] eqn:Ho.
    + destruct (unsubscribe_ok id from_callback oom r s Hw Ho (or_intror (Hq _ _ Ho)))
        as (r' & -> & Hw' & Ha & Hn & Hq').
      split_and!; [done|auto|]. unfold abstract. by rewrite Ha, Hn.
    + split_and!; [done..|]. unfold abstract. cbn. f_equal. unfold active.
      rewrite filter_twice. apply filter_same. intros i _. unfold subscribed_in.
      destruct (Z.eqb_spec i id) as [->|]; [by rewrite Ho|]. by rewrite andb_true_r.
Qed.

(** Whatever is subscribed and unsubscribed, in whatever order and with
    whatever allocation failures, the reachable subscribers are those of the
    abstract registry, in the order they subscribed. *)
Theorem registry_refines_membership calls :
  abstract (foldl (fun r c => exec_call c r) make calls) =
    foldl (fun m c => spec_call c m) (1, []) calls.
Proof.
  assert (∀ r, wf r -> quiet r -> abstract (foldl (fun r c => exec_call c r) r calls) =
    foldl (fun m c => spec_call c m) (abstract r) calls) as H.
  { induction calls as [|c calls IH]; intros r Hw Hq; [done|]. cbn [foldl].
    destruct (exec_call_ok c r Hw Hq) as (Hw' & Hq' & <-). by apply IH. }
  apply (H make); [apply make_wf|]. by intros i s.
Qed.

End ops.
End Registry.
