(* ===== verification/RegistryConc.v ===== *)
(** * Writers and readers of one registry

    [registry_core::subscribe] and [retire] hold [writer_mutex] while they
    copy the current list; which subscribers they keep they ask one by one,
    and [unsubscribe] deactivates a subscriber without that mutex, at any
    moment. Readers load the current list at any moment too. Threads run the
    operations one critical section, mutex operation or atomic access at a
    time, on the registry of [Registry]. *)

From S2P Require Import Prelude Types Subscriber Registry.
Import Subscriber.
From Stdlib Require Import Sorted.
Local Open Scope Z_scope.

Module RegistryConc.

Section threads.
Context {E : Type}.
Abbreviation registry := (Registry.registry E).
Implicit Types r : registry.

Inductive outcome : Type :=
  | Subscribed (id : Z)
  | Refused (e : exn)
  | Unsubscribed (id : Z)
  | Snapshot (l : list Z).

(** [todo] is what is left of [*previous], [next] the copy so far. *)
Inductive pc : Type :=
  | Idle
  (* registry_core::subscribe *)
  | SubLock (options : subscription_options) (copyable : bool)
  | SubAllocate (options : subscription_options) (copyable : bool)
  | SubFilter (id : Z) (state : subscriber E) (todo next : list Z)
  | SubStore (id : Z) (state : subscriber E) (next : list Z)
  | SubUnlock (o : outcome)
  (* subscriber_state::unsubscribe, with retire from RetLock to RetUnlock,
     which knows whether the list was left without the subscriber *)
  | UnsubMark (id : Z)
  | RetLock (id : Z)
  | RetLoad (id : Z)
  | RetFilter (id : Z) (todo next : list Z)
  | RetStore (id : Z) (next : list Z)
  | RetUnlock (id : Z) (removed : bool)
  | UnsubStop (id : Z)
  (* acquire_snapshot *)
  | Load
  | Returned (o : outcome).

Record config : Type := mk_config {
  shared : registry;
  writer : option nat;
  threads : list pc;
}.
Implicit Types c : config.

Definition goto (j : nat) (p : pc) c : config :=
  mk_config (shared c) (writer c) (<[j := p]> (threads c)).
Definition with_shared r c : config := mk_config r (writer c) (threads c).
Definition with_writer (o : option nat) c : config := mk_config (shared c) o (threads c).

(** [std::lock_guard writer_lock{writer_mutex}] and its destructor. *)
Definition lock (j : nat) (p : pc) c : option config :=
  if writer c is Some _ then None else Some (goto j p (with_writer (Some j) c)).
Definition unlock (j : nat) (p : pc) c : config := goto j p (with_writer None c).

(** The state and its identifier, under the mutex. *)
Definition allocate (options : subscription_options) (copyable oom : bool) (j : nat) c : option config :=
  match Registry.allocate_id (shared c) with
  | Throw e r => Some (goto j (SubUnlock (Refused e)) (with_shared r c))
  | Stuck _ => None
  | Ret id r =>
      let c := with_shared r c in
      match Subscriber.make options copyable with
      | inl e => Some (goto j (SubUnlock (Refused e)) c)
      | inr state =>
          if oom then Some (goto j (SubUnlock (Refused bad_alloc)) c)
          else Some (goto j (SubFilter id state (Registry.current r) []) c)
      end
  end.

(** The store that publishes a registration. *)
Definition register (id : Z) (state : subscriber E) (next : list Z) r : registry :=
  Registry.publish_snapshot next
    (Registry.mk_registry (Registry.next_id_ r) (Registry.current r) (<[id := state]> (Registry.objects r))).

Definition keep (b : bool) (i : Z) (next : list Z) : list Z := if b then next ++ [i] else next.

(** One step of thread [j]; [oom] makes its allocation, or the creation of
    the executor's thread, fail. *)
Definition step_pc (oom : bool) (j : nat) (p : pc) c : option config :=
  match p with
  | SubLock options copyable => lock j (SubAllocate options copyable) c
  | SubAllocate options copyable => allocate options copyable oom j c
  | SubFilter id state (i :: todo) next =>
      Some (goto j (SubFilter id state todo (keep (Registry.subscribed_in (shared c) i) i next)) c)
  | SubFilter id state [] next => Some (goto j (SubStore id state (next ++ [id])) c)
  | SubStore id state next =>
      if oom then Some (goto j (SubUnlock (Refused bad_alloc)) c)
      else Some (goto j (SubUnlock (Subscribed id)) (with_shared (register id state next (shared c)) c))
  | SubUnlock o => Some (unlock j (Returned o) c)
  | UnsubMark id =>
      match Registry.objects (shared c) !! id with
      | None => None
      | Some s =>
          Some (goto j (if (unsubscribe_mark s).1 then RetLock id else UnsubStop id)
            (with_shared (Registry.update_object id (fun s => (unsubscribe_mark s).2) (shared c)) c))
      end
  | RetLock id => lock j (RetLoad id) c
  | RetLoad id =>
      if bool_decide (id ∈ Registry.current (shared c)) then
        if oom then Some (goto j (RetUnlock id false) c)
        else Some (goto j (RetFilter id (Registry.current (shared c)) []) c)
      else Some (goto j (RetUnlock id true) c)
  | RetFilter id (i :: todo) next =>
      Some (goto j (RetFilter id todo
        (keep (negb (i =? id) && Registry.subscribed_in (shared c) i) i next)) c)
  | RetFilter id [] next => Some (goto j (RetStore id next) c)
  | RetStore id next =>
      Some (goto j (RetUnlock id true) (with_shared (Registry.publish_snapshot next (shared c)) c))
  | RetUnlock id _ => Some (unlock j (UnsubStop id) c)
  | UnsubStop id =>
      Some (goto j (Returned (Unsubscribed id))
        (with_shared (Registry.update_object id (Registry.stop_one false) (shared c)) c))
  | Load => Some (goto j (Returned (Snapshot (Registry.acquire_snapshot (shared c)))) c)
  | Idle | Returned _ => None
  end.

(** A thread that is not in a call makes one; every call steps. *)
Inductive choice : Type :=
  | StartSubscribe (j : nat) (options : subscription_options) (copyable : bool)
  | StartUnsubscribe (j : nat) (id : Z)
  | StartLoad (j : nat)
  | Step (j : nat) (oom : bool).

Definition call (j : nat) (p : pc) c : option config :=
  match threads c !! j with
  | Some (Idle | Returned _) => Some (goto j p c)
  | _ => None
  end.

Definition step (ch : choice) c : option config :=
  match ch with
  | StartSubscribe j options copyable => call j (SubLock options copyable) c
  | StartUnsubscribe j id => call j (UnsubMark id) c
  | StartLoad j => call j Load c
  | Step j oom => match threads c !! j with Some p => step_pc oom j p c | None => None end
  end.

Definition one_step c c' : Prop := ∃ ch, step ch c = Some c'.
Definition reachable : config -> config -> Prop := rtc one_step.

Fixpoint run (sched : list choice) c : config :=
  match sched with
  | [] => c
  | ch :: sched => run sched (default c (step ch c))
  end.

Definition start (n : nat) : config := mk_config Registry.make None (replicate n Idle).

(** ** What a writer relies on *)

Definition registered r (i : Z) : Prop := is_Some (Registry.objects r !! i).
Definition ascending (l : list Z) : Prop := StronglySorted Z.lt l.

Record sound r : Prop := {
  sound_next : 1 <= Registry.next_id_ r < 2 ^ 64;
  sound_order : ascending (Registry.current r);
  sound_live : ∀ i, i ∈ Registry.current r -> registered r i;
  sound_ids : ∀ i, registered r i -> 1 <= i < Registry.next_id_ r;
  sound_reach : ∀ i, Registry.subscribed_in r i = true -> i ∈ Registry.current r;
}.

(** What every step keeps: objects stay, and a subscriber that is not
    subscribed any more never is again. *)
Definition evolves r r' : Prop :=
  ∀ i, registered r i -> registered r' i /\
    (Registry.subscribed_in r' i = true -> Registry.subscribed_in r i = true).

(** What a step without the mutex changes at most. *)
Record quiet r r' : Prop := {
  quiet_next : Registry.next_id_ r' = Registry.next_id_ r;
  quiet_current : Registry.current r' = Registry.current r;
  quiet_objects : ∀ i, registered r' i <-> registered r i;
  quiet_flags : ∀ i, Registry.subscribed_in r' i = true -> Registry.subscribed_in r i = true;
}.

#[export] Instance evolves_preorder : PreOrder evolves.
Proof.
  split; [by intros r i Hi|]. intros r1 r2 r3 H12 H23 i Hi. destruct (H12 i Hi) as [H2 Hs].
  destruct (H23 i H2) as [H3 Hs']. auto.
Qed.

Lemma quiet_evolves r r' : quiet r r' -> evolves r r'.
Proof. intros [_ _ Ho Hf] i Hi. split; [by apply Ho|apply Hf]. Qed.

Lemma sound_quiet r r' : quiet r r' -> sound r -> sound r'.
Proof.
  intros [Hn Hc Ho Hf] [Hb Hs Hl Hi Hr]. split; rewrite ?Hn, ?Hc; try done.
  - intros i Hin. by apply Ho, Hl.
  - intros i Hin. by apply Hi, Ho.
  - intros i Hin. by apply Hr, Hf.
Qed.

Lemma registered_alter r id f i : registered (Registry.update_object id f r) i <-> registered r i.
Proof. unfold registered, Registry.update_object. cbn. apply lookup_alter_is_Some. Qed.

(** Deactivating or stopping one subscriber is such a step. *)
Lemma update_is_quiet r id f :
  (∀ s, active_ (f s) = true -> active_ s = true) -> quiet r (Registry.update_object id f r).
Proof.
  intros Hf. split; try done; [by intros; apply registered_alter|].
  intros i. rewrite Registry.subscribed_update. case_decide as Hi; [subst|done].
  unfold Registry.subscribed_in. destruct (Registry.objects r !! id) as [s|]; [apply Hf|done].
Qed.

Definition marked r (id : Z) : Prop := registered r id /\ Registry.subscribed_in r id = false.

Lemma marked_evolves r r' id : evolves r r' -> marked r id -> marked r' id.
Proof.
  intros He [Hr Hs]. destruct (He id Hr) as [Hr' Hs']. split; [done|].
  destruct (Registry.subscribed_in r' id); [|done]. by rewrite Hs' in Hs.
Qed.

(** ** Copies under way *)

(** [next] is an ordered copy of [seen] without some that are not subscribed. *)
Record copied r (seen next : list Z) : Prop := {
  copied_order : ascending next;
  copied_from : ∀ i, i ∈ next -> i ∈ seen;
  copied_all : ∀ i, i ∈ seen -> Registry.subscribed_in r i = true -> i ∈ next;
}.

Lemma ascending_snoc l i : ascending l -> (∀ k, k ∈ l -> k < i) -> ascending (l ++ [i]).
Proof.
  unfold ascending. induction 1 as [|a l Hl IH Ha]; intros Hi; cbn; [repeat constructor|].
  constructor; [apply IH; intros k Hk; apply Hi; by right|].
  apply Forall_app. split; [done|]. constructor; [apply Hi; left|constructor].
Qed.

Lemma ascending_middle l i k : ascending (l ++ i :: k) -> ∀ j, j ∈ l -> j < i.
Proof.
  unfold ascending. induction l as [|a l IH]; intros Hs j Hj; [by apply elem_of_nil in Hj|].
  cbn in Hs. apply StronglySorted_inv in Hs as [Hs Ha]. apply elem_of_cons in Hj as [->|Hj]; [|by apply IH].
  rewrite Forall_forall in Ha. apply Ha. in_list.
Qed.

Lemma copied_nil r : copied r [] [].
Proof. split; [constructor|done|done]. Qed.

Lemma copied_quiet r r' seen next : quiet r r' -> copied r seen next -> copied r' seen next.
Proof. intros [_ _ _ Hf] [Ho Hs Ha]. split; try done. intros i Hi Hsub. by apply Ha, Hf. Qed.

(** Reading one more subscriber; one read as not subscribed stays so. *)
Lemma copied_read r seen next i todo (b : bool) :
  ascending (seen ++ i :: todo) -> copied r seen next ->
  (Registry.subscribed_in r i = true -> b = true) ->
  copied r (seen ++ [i]) (keep b i next).
Proof.
  intros Has [Ho Hs Ha] Hb. pose proof (ascending_middle _ _ _ Has) as Hlt. destruct b; cbn; split.
  - apply ascending_snoc; [done|]. intros k Hk. by apply Hlt, Hs.
  - intros k [Hk|Hk]%elem_of_app; apply elem_of_app; [left; auto|by right].
  - intros k [Hk|Hk]%elem_of_app Hsub; apply elem_of_app; [left; auto|by right].
  - done.
  - intros k Hk. apply elem_of_app. left. auto.
  - intros k [Hk|Hk]%elem_of_app Hsub; [auto|]. apply list_elem_of_singleton in Hk as ->.
    by specialize (Hb Hsub).
Qed.

(** A new identifier is above all others. *)
Record fresh_id r (id : Z) : Prop := {
  fresh_range : 1 <= id < Registry.next_id_ r;
  fresh_above : ∀ i, registered r i -> i < id;
}.

Definition local r (p : pc) : Prop :=
  match p with
  | SubFilter id _ todo next =>
      fresh_id r id /\ ∃ seen, Registry.current r = seen ++ todo /\ copied r seen next
  | SubStore id _ next =>
      fresh_id r id /\ ∃ next', next = next' ++ [id] /\ copied r (Registry.current r) next'
  | RetLock id | RetLoad id | RetUnlock id false | UnsubStop id => marked r id
  | RetFilter id todo next =>
      marked r id /\ (id ∉ next) /\ ∃ seen, Registry.current r = seen ++ todo /\ copied r seen next
  | RetStore id next => marked r id /\ (id ∉ next) /\ copied r (Registry.current r) next
  | RetUnlock id true => marked r id /\ id ∉ Registry.current r
  | _ => True
  end.

Definition critical (p : pc) : bool :=
  match p with
  | SubAllocate _ _ | SubFilter _ _ _ _ | SubStore _ _ _ | SubUnlock _
  | RetLoad _ | RetFilter _ _ _ | RetStore _ _ | RetUnlock _ _ => true
  | _ => false
  end.

Lemma local_quiet r r' p : quiet r r' -> local r p -> local r' p.
Proof.
  intros Hq Hl. pose proof (quiet_evolves _ _ Hq) as He.
  assert (∀ id, fresh_id r id -> fresh_id r' id) as Hfr.
  { intros id [Hr Ha]. destruct Hq as [Hn _ Ho _]. split; [by rewrite Hn|].
    intros i Hi. by apply Ha, Ho. }
  pose proof (fun id => marked_evolves r r' id He) as Hm.
  pose proof (fun seen next => copied_quiet r r' seen next Hq) as Hc.
  destruct p; cbn in *; rewrite ?(quiet_current _ _ Hq); try done; try (by apply Hm).
  - destruct Hl as [? (seen & ? & ?)]. split; [auto|]. exists seen. auto.
  - destruct Hl as [? (next' & ? & ?)]. split; [auto|]. exists next'. auto.
  - destruct Hl as (? & ? & seen & ? & ?). split_and!; [auto..|]. exists seen. auto.
  - destruct Hl as (? & ? & ?). split_and!; auto.
  - destruct removed; [destruct Hl; split; auto|by apply Hm].
Qed.

Lemma local_free r r' p : critical p = false -> evolves r r' -> local r p -> local r' p.
Proof. intros Hc He. destruct p; cbn in *; try done; by apply marked_evolves. Qed.

(** ** Every step keeps it *)

Lemma quiet_refl r : quiet r r.
Proof. by split. Qed.

(** What a step of thread [j] from [p] to [p'] does to the rest. *)
Record stepped (j : nat) (p p' : pc) c c' : Prop := {
  stepped_threads : threads c' = <[j := p']> (threads c);
  stepped_sound : sound (shared c');
  stepped_local : local (shared c') p';
  stepped_evolves : evolves (shared c) (shared c');
  stepped_members : ∀ i, registered (shared c) i ->
    i ∈ Registry.current (shared c') -> i ∈ Registry.current (shared c);
  stepped_quiet : critical p = true \/ quiet (shared c) (shared c');
  stepped_writer :
    (writer c' = writer c /\ (critical p' = true -> critical p = true)) \/
    (writer c = None /\ writer c' = Some j) \/
    (writer c' = None /\ critical p = true /\ critical p' = false);
}.

(** A step that changes nothing but the thread. *)
Lemma stepped_goto j p p' c :
  sound (shared c) -> local (shared c) p' -> (critical p' = true -> critical p = true) ->
  stepped j p p' c (goto j p' c).
Proof. intros Hs Hl Hc. split; try done; [right; apply quiet_refl|by left]. Qed.

Lemma stepped_with_shared j p p' r c :
  sound r -> local r p' -> evolves (shared c) r ->
  (∀ i, registered (shared c) i -> i ∈ Registry.current r -> i ∈ Registry.current (shared c)) ->
  critical p = true ->
  stepped j p p' c (goto j p' (with_shared r c)).
Proof. intros Hs Hl He Hm Hc. split; try done; by left. Qed.

Lemma lock_stepped j p p' c c' :
  lock j p' c = Some c' -> sound (shared c) -> local (shared c) p' -> stepped j p p' c c'.
Proof.
  unfold lock. destruct (writer c) eqn:Hw; [done|]. intros [= <-] Hs Hl.
  split; try done; [right; apply quiet_refl|by right; left].
Qed.

Lemma unlock_stepped j p p' c :
  sound (shared c) -> local (shared c) p' -> critical p = true -> critical p' = false ->
  stepped j p p' c (unlock j p' c).
Proof. intros Hs Hl Hp Hp'. split; try done; [by left|by right; right]. Qed.

(** Publishing a copy of the current list. *)
Lemma publish_sound r next :
  sound r -> copied r (Registry.current r) next -> sound (Registry.publish_snapshot next r).
Proof.
  intros [Hn Ho Hl Hi Hr] [Ho' Hf Ha]. split; try done.
  - intros i Hin. by apply Hl, Hf.
  - intros i Hs. apply Ha; [by apply Hr|done].
Qed.

Lemma registered_insert r id state next i :
  registered (register id state next r) i <-> i = id \/ registered r i.
Proof.
  unfold registered, register. cbn. rewrite lookup_insert_is_Some'.
  split; (intros [->|?]; [by left|by right]).
Qed.

Lemma subscribed_insert r id state next i :
  i <> id -> Registry.subscribed_in (register id state next r) i = Registry.subscribed_in r i.
Proof. intros Hi. unfold Registry.subscribed_in, register. cbn. by rewrite lookup_insert_ne. Qed.

(** Publishing a registration with a new identifier. *)
Lemma register_sound r id state next :
  sound r -> fresh_id r id -> copied r (Registry.current r) next ->
  sound (register id state (next ++ [id]) r) /\ evolves r (register id state (next ++ [id]) r).
Proof.
  intros Hs [Hid Hab] [Ho Hf Ha]. split.
  - split; cbn.
    + apply (sound_next _ Hs).
    + apply ascending_snoc; [done|]. intros i Hi. by apply Hab, (sound_live _ Hs), Hf.
    + intros i Hi. apply registered_insert. apply elem_of_app in Hi as [Hi|Hi].
      * right. by apply (sound_live _ Hs), Hf.
      * left. by apply list_elem_of_singleton in Hi.
    + intros i [->|Hi]%registered_insert; [done|by apply (sound_ids _ Hs)].
    + intros i Hsub. apply elem_of_app. destruct (decide (i = id)) as [->|Hi]; [right; left|left].
      rewrite subscribed_insert in Hsub by done. apply Ha; [by apply (sound_reach _ Hs)|done].
  - intros i Hi. split; [apply registered_insert; by right|].
    rewrite subscribed_insert; [done|]. intros ->. specialize (Hab id Hi). lia.
Qed.

Lemma allocate_stepped options copyable oom j c c' :
  allocate options copyable oom j c = Some c' -> sound (shared c) ->
  ∃ p', stepped j (SubAllocate options copyable) p' c c'.
Proof.
  unfold allocate, Registry.allocate_id. run_m. intros Ha Hs.
  destruct (Z.eqb_spec (Registry.next_id_ (shared c)) size_max) as [|Hn]; cbn in Ha.
  - simplify_eq. eexists. by apply stepped_with_shared.
  - set (r1 := Registry.mk_registry _ _ _) in *. unfold size_max in Hn.
    pose proof (sound_next _ Hs) as Hr. assert (Registry.next_id_ r1 = Registry.next_id_ (shared c) + 1) as Hn1.
    { cbn. rewrite u64_small; lia. }
    assert (sound r1) as Hs1.
    { destruct Hs as [? Ho Hl Hi Hre]. split; try done; [rewrite Hn1; lia|].
      intros i Hin. rewrite Hn1. specialize (Hi i Hin). lia. }
    assert (evolves (shared c) r1) as He by (by intros i Hi).
    destruct (Subscriber.make options copyable) as [e|state]; [simplify_eq; eexists; by apply stepped_with_shared|].
    destruct oom; simplify_eq; eexists; apply stepped_with_shared; try done.
    split.
    + split; [rewrite Hn1; lia|]. intros i Hi. by apply (sound_ids _ Hs).
    + exists []. split; [done|apply copied_nil].
Qed.

Lemma keep_not id b i next : id ∉ next -> (b = true -> i <> id) -> id ∉ keep b i next.
Proof.
  intros Hn Hb. destruct b; [|done]. intros [?|Hi]%elem_of_app; [done|].
  apply list_elem_of_singleton in Hi as ->. by apply Hb.
Qed.

(** One more subscriber of the current list is looked at. *)
Lemma read_next r seen i todo next b :
  sound r -> Registry.current r = seen ++ i :: todo -> copied r seen next ->
  (Registry.subscribed_in r i = true -> b = true) ->
  ∃ seen', Registry.current r = seen' ++ todo /\ copied r seen' (keep b i next).
Proof.
  intros Hs Hc Hn Hb. exists (seen ++ [i]). split; [by rewrite Hc, <- (assoc_L (++))|].
  apply (copied_read r seen next i todo b); [rewrite <- Hc; apply (sound_order _ Hs)|done|done].
Qed.

(** The copy of the whole list. *)
Lemma copied_whole r next :
  (∃ seen, Registry.current r = seen ++ [] /\ copied r seen next) -> copied r (Registry.current r) next.
Proof. intros (seen & -> & Hc). by rewrite app_nil_r. Qed.

Lemma mark_stepped j id s c :
  Registry.objects (shared c) !! id = Some s -> sound (shared c) ->
  ∃ p', stepped j (UnsubMark id) p' c
    (goto j (if (unsubscribe_mark s).1 then RetLock id else UnsubStop id)
       (with_shared (Registry.update_object id (fun s => (unsubscribe_mark s).2) (shared c)) c)).
Proof.
  intros Ho Hs. pose proof (update_is_quiet (shared c) id (fun s => (unsubscribe_mark s).2) ltac:(done)) as Hq.
  assert (marked (Registry.update_object id (fun s => (unsubscribe_mark s).2) (shared c)) id) as Hm.
  { split; [by apply registered_alter; eexists|]. rewrite Registry.subscribed_update.
    rewrite decide_True by done. by rewrite Ho. }
  exists (if (unsubscribe_mark s).1 then RetLock id else UnsubStop id). destruct (unsubscribe_mark s).1;
    (split; [done|by apply (sound_quiet (shared c))|exact Hm|by apply quiet_evolves|done|by right|by left]).
Qed.

Lemma stop_stepped j id c :
  sound (shared c) -> marked (shared c) id ->
  stepped j (UnsubStop id) (Returned (Unsubscribed id)) c
    (goto j (Returned (Unsubscribed id))
       (with_shared (Registry.update_object id (Registry.stop_one false) (shared c)) c)).
Proof.
  intros Hs Hm.
  assert (quiet (shared c) (Registry.update_object id (Registry.stop_one false) (shared c))) as Hq.
  { apply update_is_quiet. intros s. unfold Registry.stop_one. by destruct (is_isolated _). }
  split; cbn; try done; [by apply (sound_quiet (shared c))|by apply quiet_evolves|by right|by left].
Qed.

Lemma step_pc_stepped oom j p c c' :
  step_pc oom j p c = Some c' -> sound (shared c) -> local (shared c) p -> ∃ p', stepped j p p' c c'.
Proof.
  intros Hst Hs Hl. destruct p as [|o cp|o cp|id st [|i todo] next|id st next|o|id|id|id|id [|i todo] next|id next|id rm|id| |o];
    cbn [step_pc] in Hst; try done.
  - eexists. by eapply lock_stepped.
  - by eapply allocate_stepped.
  - simplify_eq. eexists. apply stepped_goto; [done| |done]. destruct Hl as [Hf Hc].
    split; [done|]. exists next. split; [done|by apply copied_whole].
  - simplify_eq. eexists. apply stepped_goto; [done| |done]. destruct Hl as (Hf & seen & Hc & Hn).
    split; [done|]. by apply (read_next _ seen i).
  - destruct Hl as (Hf & next' & -> & Hc). destruct oom; simplify_eq; eexists; [by apply stepped_goto|].
    destruct (register_sound (shared c) id st next' Hs Hf Hc). apply stepped_with_shared; try done.
    intros i Hi [Hn|Hn]%elem_of_app; [by apply (copied_from _ _ _ Hc)|].
    apply list_elem_of_singleton in Hn as ->. pose proof (fresh_above _ _ Hf id Hi). lia.
  - simplify_eq. eexists. by apply unlock_stepped.
  - destruct (Registry.objects (shared c) !! id) as [s|] eqn:Ho; [|done]. simplify_eq.
    by apply mark_stepped.
  - eexists. by eapply lock_stepped.
  - case_bool_decide as Hin; [destruct oom|]; simplify_eq; eexists; apply stepped_goto; try done.
    split_and!; [done|by intros ?%elem_of_nil|]. exists []. split; [done|apply copied_nil].
  - simplify_eq. eexists. apply stepped_goto; [done| |done]. destruct Hl as (Hm & Hn & Hc).
    split_and!; [done..|by apply copied_whole].
  - simplify_eq. eexists. apply stepped_goto; [done| |done]. destruct Hl as ([Hr Hm] & Hn & seen & Hc & Hk).
    split_and!; [done| |apply (read_next _ seen i); try done].
    + apply keep_not; [done|]. intros [Hb _]%andb_true_iff. by apply Z.eqb_neq, negb_true_iff.
    + intros Hsub. rewrite Hsub, andb_true_r. apply negb_true_iff, Z.eqb_neq. intros ->. congruence.
  - simplify_eq. eexists. destruct Hl as ([Hr Hm] & Hn & Hc). apply stepped_with_shared; try done; [by apply publish_sound|].
    intros i _. apply (copied_from _ _ _ Hc).
  - simplify_eq. eexists. apply unlock_stepped; try done. by destruct rm; [destruct Hl|].
  - simplify_eq. eexists. by apply stop_stepped.
  - simplify_eq. eexists. by apply stepped_goto.
Qed.

(** ** The invariant *)

Record inv c : Prop := {
  inv_sound : sound (shared c);
  inv_local : ∀ j p, threads c !! j = Some p -> local (shared c) p;
  inv_writer : ∀ j p, threads c !! j = Some p -> critical p = true -> writer c = Some j;
}.

Lemma inv_stepped j p p' c c' : threads c !! j = Some p -> stepped j p p' c c' -> inv c -> inv c'.
Proof.
  intros Hj [Ht Hs Hl He _ Hq Hw] [Hs0 Hl0 Hw0].
  assert (∀ i p0, i <> j -> threads c !! i = Some p0 -> critical p0 = true -> writer c' = Some i) as Hothers.
  { intros i p0 Hi Hp0 Hc0. pose proof (Hw0 i p0 Hp0 Hc0) as Hwi.
    destruct Hw as [[-> _]|[[Hw _]|(_ & Hc & _)]]; [done|congruence|].
    pose proof (Hw0 j p Hj Hc). congruence. }
  split; [done| |].
  - intros i p0 Hp0. rewrite Ht in Hp0. apply list_lookup_insert_Some in Hp0 as [(<- & <- & _)|[Hi Hp0]]; [done|].
    destruct Hq as [Hc|Hq]; [|by apply (local_quiet (shared c)); [|eapply Hl0]].
    destruct (critical p0) eqn:Hc0; [|by eapply local_free; [| |eapply Hl0]].
    pose proof (Hw0 j p Hj Hc). pose proof (Hw0 i p0 Hp0 Hc0). congruence.
  - intros i p0 Hp0 Hc0. rewrite Ht in Hp0.
    apply list_lookup_insert_Some in Hp0 as [(<- & <- & _)|[Hi Hp0]]; [|by eapply (Hothers i p0)].
    destruct Hw as [[-> Hc]|[[_ ?]|(_ & _ & ?)]]; [by eapply Hw0; [|apply Hc]|done|congruence].
Qed.

(** A step is a call of a thread that makes none, or a step of a call. *)
Lemma step_stepped ch c c' : step ch c = Some c' -> inv c ->
  ∃ j p p', threads c !! j = Some p /\ stepped j p p' c c'.
Proof.
  intros Hs Hi.
  assert (∀ j p', call j p' c = Some c' -> local (shared c) p' -> critical p' = false ->
    ∃ j p p', threads c !! j = Some p /\ stepped j p p' c c') as Hcall.
  { unfold call. intros j p' Hc Hl Hn. destruct (threads c !! j) as [p|] eqn:Hj; [|done].
    exists j, p, p'. split; [done|].
    assert (c' = goto j p' c) as -> by (by destruct p; simplify_eq).
    apply stepped_goto; [apply Hi|done|congruence]. }
  destruct ch as [j o cp|j id|j|j oom]; cbn in Hs; try (by eapply Hcall).
  destruct (threads c !! j) as [p|] eqn:Hj; [|done].
  destruct (step_pc_stepped oom j p c c' Hs (inv_sound _ Hi) (inv_local _ Hi j p Hj)) as [p' Hp].
  by exists j, p, p'.
Qed.

Lemma registry_inv_step ch c c' : step ch c = Some c' -> inv c -> inv c'.
Proof. intros Hs Hi. destruct (step_stepped ch c c' Hs Hi) as (j & p & p' & Hj & Hp). by eapply inv_stepped. Qed.

Lemma registry_start_inv n : inv (start n).
Proof.
  split; cbn.
  - split; cbn; try done; try lia.
    + constructor.
    + by intros i ?%elem_of_nil.
    + unfold registered. cbn. intros i. rewrite lookup_empty. by intros [].
  - by intros j p [-> _]%lookup_replicate.
  - by intros j p [-> _]%lookup_replicate.
Qed.

Lemma registry_reachable_inv c c' : inv c -> reachable c c' -> inv c'.
Proof. intros Hi Hr. eapply rtc_invariant; [|exact Hi|exact Hr]. intros a b Ha [ch Hs]. by eapply registry_inv_step. Qed.

(** ** What readers and callers may rely on *)

Lemma ascending_ext l k : ascending l -> ascending k -> (∀ i, i ∈ l <-> i ∈ k) -> l = k.
Proof.
  unfold ascending. intros Hl. revert k. induction Hl as [|a l Hl IH Ha]; intros k Hk He.
  - destruct k as [|b k]; [done|]. exfalso. apply (elem_of_nil b), He. left.
  - destruct Hk as [|b k Hk Hb]; [exfalso; apply (elem_of_nil a), He; left|].
    rewrite Forall_forall in Ha, Hb.
    assert (a = b) as ->.
    { assert (a ∈ b :: k) as [?|Ha']%elem_of_cons by (apply He; left); [done|].
      assert (b ∈ a :: l) as [?|Hb']%elem_of_cons by (apply He; left); [done|].
      specialize (Ha b Hb'). specialize (Hb a Ha'). lia. }
    f_equal. apply IH; [done|]. intros i. specialize (He i). rewrite !elem_of_cons in He.
    split; intros Hi; [specialize (Ha i Hi)|specialize (Hb i Hi)];
      destruct (proj1 He (or_intror Hi)) || destruct (proj2 He (or_intror Hi)); try done; lia.
Qed.

Lemma ascending_filter f l : ascending l -> ascending (List.filter f l).
Proof.
  unfold ascending. induction 1 as [|a l Hl IH Ha]; cbn; [constructor|]. destruct (f a); [|done].
  constructor; [done|]. rewrite Forall_forall in *. intros i [Hi _]%Registry.elem_of_filter_in. by apply Ha.
Qed.

Lemma ascending_seqZ a n : ascending (seqZ a n).
Proof.
  unfold ascending, seqZ. generalize 0%nat as k. induction (Z.to_nat n) as [|m IH]; intros k; cbn; [constructor|].
  constructor; [apply IH|]. apply Forall_fmap, Forall_forall. intros i Hi%elem_of_seq. cbn. lia.
Qed.

(** C34: at any moment, whoever subscribes, unsubscribes, runs out of memory
    or reads, the subscribed members of the current list are all
    identifiers given out so far whose subscriber is registered and
    subscribed, each once and in the order they subscribed: no writer ever
    loses the change of another. *)
Theorem membership_is_exact n c :
  reachable (start n) c ->
  Registry.active (shared c) =
    List.filter (Registry.subscribed_in (shared c)) (seqZ 1 (Registry.next_id_ (shared c) - 1)).
Proof.
  intros Hr. pose proof (inv_sound _ (registry_reachable_inv _ _ (registry_start_inv n) Hr)) as Hs.
  apply ascending_ext; [apply ascending_filter, (sound_order _ Hs)|apply ascending_filter, ascending_seqZ|].
  intros i. unfold Registry.active. rewrite !Registry.elem_of_filter_in, elem_of_seqZ.
  split; intros [Hi Hsub]; (split; [|done]).
  - pose proof (sound_ids _ Hs i (sound_live _ Hs i Hi)). lia.
  - by apply (sound_reach _ Hs).
Qed.

(** Once [retire] has stored its list, or found the subscriber gone, no
    list that is current later, and so no later snapshot, contains the
    subscriber again, and it stays unsubscribed. *)
Theorem retired_members_stay_out n c c' j id :
  reachable (start n) c -> threads c !! j = Some (RetUnlock id true) -> reachable c c' ->
  (id ∉ Registry.acquire_snapshot (shared c')) /\ Registry.subscribed_in (shared c') id = false.
Proof.
  intros Hr Hj Hr'. pose proof (registry_reachable_inv _ _ (registry_start_inv n) Hr) as Hi.
  destruct (inv_local _ Hi j _ Hj) as [Hm Hn]. clear Hr Hj.
  induction Hr' as [c|c c1 c2 [ch Hs] _ IH]; [by destruct Hm|].
  destruct (step_stepped ch c c1 Hs Hi) as (i & p & p' & _ & Hp).
  apply IH; [by eapply registry_inv_step|eapply marked_evolves; [apply Hp|done]|].
  intros Hin. apply Hn, (stepped_members _ _ _ _ _ Hp); [apply Hm|done].
Qed.

(** A snapshot misses nobody: a subscriber registered when it is taken
    and still subscribed at some later moment is in it. *)
Theorem snapshots_miss_nobody n c c' i :
  reachable (start n) c -> registered (shared c) i -> reachable c c' ->
  Registry.subscribed_in (shared c') i = true -> i ∈ Registry.acquire_snapshot (shared c).
Proof.
  intros Hr Hi Hr' Hsub. pose proof (registry_reachable_inv _ _ (registry_start_inv n) Hr) as Hinv.
  apply (sound_reach _ (inv_sound _ Hinv)). revert Hi Hsub. clear Hr.
  induction Hr' as [c|c c1 c2 [ch Hs] _ IH]; [done|]. intros Hi Hsub.
  destruct (step_stepped ch c c1 Hs Hinv) as (k & p & p' & _ & Hp).
  destruct (stepped_evolves _ _ _ _ _ Hp i Hi) as [Hi1 Hsub1]. apply Hsub1, IH; [by eapply registry_inv_step|done..].
Qed.

End threads.
Arguments config : clear implicits.

(** ** A subscription that copies while another ends

    Thread 0 has subscribed twice and subscribes again; between two reads of
    its copy thread 1 unsubscribes the first, and removes it afterwards. *)

Definition options : subscription_options := mk_subscription_options concurrent best_effort 1 0.

Definition steps (j n : nat) : list choice := replicate n (Step j false).

Definition crossing : list choice :=
  (StartSubscribe 0 options true :: steps 0 5) ++
  (StartSubscribe 0 options true :: steps 0 6) ++
  (StartSubscribe 0 options true :: steps 0 3) ++
  (StartUnsubscribe 1 1 :: steps 1 1) ++ steps 0 3 ++ steps 0 1 ++ steps 1 7.

Definition crossed : config Z := run crossing (start 2).
Definition crossed_out : config Z := run (steps 1 2) crossed.

Lemma registry_run_reachable {E} sched (c : config E) : reachable c (run sched c).
Proof.
  revert c. induction sched as [|ch sched IH]; intros c; cbn [run]; [constructor|].
  destruct (step ch c) as [c'|] eqn:Hs; cbn; [|apply IH].
  eapply rtc_l; [by exists ch|apply IH].
Qed.

Lemma membership_is_exact_witness :
  Registry.current (shared crossed) = [2; 3] /\ Registry.active (shared crossed) = [2; 3].
Proof.
  split; [vm_compute; reflexivity|].
  etransitivity; [exact (membership_is_exact 2 crossed (registry_run_reachable crossing (start 2)))|
    vm_compute; reflexivity].
Defined.

Lemma crossed_removed : threads crossed !! 1%nat = Some (RetUnlock 1 true).
Proof. vm_compute. reflexivity. Qed.

Lemma retired_members_stay_out_witness :
  threads crossed_out !! 1%nat = Some (Returned (Unsubscribed 1)) /\
  1 ∉ Registry.acquire_snapshot (shared crossed_out).
Proof.
  split; [vm_compute; reflexivity|].
  exact (proj1 (retired_members_stay_out 2 crossed crossed_out 1 1 (registry_run_reachable crossing (start 2))
    crossed_removed (registry_run_reachable (steps 1 2) crossed))).
Defined.

Lemma crossed_registered : registered (shared crossed) 3.
Proof. vm_compute. by eexists. Qed.

Lemma crossed_subscribed : Registry.subscribed_in (shared crossed_out) 3 = true.
Proof. vm_compute. reflexivity. Qed.

Lemma snapshots_miss_nobody_witness : 3 ∈ Registry.acquire_snapshot (shared crossed).
Proof.
  exact (snapshots_miss_nobody 2 crossed crossed_out 3 (registry_run_reachable crossing (start 2))
    crossed_registered (registry_run_reachable (steps 1 2) crossed) crossed_subscribed).
Defined.

End RegistryConc.
