(* ===== verification/Subscription.v ===== *)
(** * [subscription]: the RAII handle of a registration

    A handle is an optional pointer to an object of the type-erased interface
    of [detail/subscription_control.hpp], here a class; its operations act on
    the store the object lives in. What the handle promises is proved against
    the laws of the interface, which the objects of a registry obey. Another
    object in the place of [this] or [other] is a second handle. *)

From S2P Require Import Prelude Types Subscriber Registry.
Local Open Scope Z_scope.

Module Subscription.

(** [subscription_control]: the methods of the object with an address, over
    the store [S] of all objects. *)
Class SubscriptionControl (S : Type) : Type := {
  control_unsubscribe : Z -> M S unit;
  control_subscribed : Z -> S -> bool;
  control_metrics : Z -> S -> subscription_metrics;
}.

(** What a handle relies on: while nobody is inside its callback, an object
    of a sound store unsubscribes without waiting, and leaves the list of
    registrations, the others staying in order. *)
Class SubscriptionControlLaws (S : Type) `{!SubscriptionControl S} : Type := {
  sound : S -> Prop;
  quiescent : Z -> S -> Prop;
  registrations : S -> list Z;
  subscribed_registered s id : sound s -> control_subscribed id s = true -> id ∈ registrations s;
  unsubscribe_leaves s id : sound s -> quiescent id s ->
    ∃ s', control_unsubscribe id s = Ret tt s' /\ sound s' /\
      registrations s' = List.filter (fun i => negb (i =? id)) (registrations s);
}.

(** [control_]. *)
Definition handle : Type := option Z.

Section ops.
Context {S : Type} `{!SubscriptionControl S}.
Implicit Types s : S.

Definition empty_handle : handle := None.
Definition of_control (control : Z) : handle := Some control.

Definition reset (h : handle) : M S handle :=
  match h with
  | None => mret None
  | Some control => control_unsubscribe control;; mret None
  end.

(** The destructor. *)
Definition destroy (h : handle) : M S unit := reset h;; mret tt.

Definition move_construct (other : handle) : handle * handle := (other, None).

(** [this = std::move(other)]: the two handles afterwards; [same] says they
    are one object. *)
Definition move_assign (same : bool) (this other : handle) : M S (handle * handle) :=
  if same then mret (this, other)
  else
    reset this;;
    mret (other, None).

Definition subscribed (h : handle) s : bool :=
  match h with None => false | Some control => control_subscribed control s end.

Definition metrics (h : handle) s : subscription_metrics :=
  match h with None => zero_metrics | Some control => control_metrics control s end.

Definition operator_bool (h : handle) s : bool := subscribed h s.

(** ** What the handle promises *)

Context `{!SubscriptionControlLaws S}.

(** A handle nobody is inside the callback of. *)
Definition valid (h : handle) s : Prop := ∀ id, h = Some id -> quiescent id s.

(** The registrations left when that of a handle ends. *)
Definition without (h : handle) (l : list Z) : list Z :=
  match h with None => l | Some id => List.filter (fun i => negb (i =? id)) l end.

Lemma reset_spec h s :
  sound s -> valid h s ->
  ∃ s', reset h s = Ret None s' /\ sound s' /\ registrations s' = without h (registrations s).
Proof.
  intros Hw Hv. destruct h as [id|]; [|by exists s].
  destruct (unsubscribe_leaves s id Hw (Hv id eq_refl)) as (s' & He & Hw' & Ha).
  exists s'. split; [|done]. cbn [reset]. unfold mbind, M_bind. by rewrite He.
Qed.

(** Resetting, destroying or overwriting a handle ends its registration
    and no other, and the handle moved from is left empty; assigning a handle
    to itself changes nothing. *)
Theorem handle_ends_registration this other s :
  sound s -> valid this s ->
  ∃ s',
    reset this s = Ret None s' /\ destroy this s = Ret tt s' /\
    move_assign false this other s = Ret (other, None) s' /\
    move_assign true this this s = Ret (this, this) s /\
    sound s' /\ registrations s' = without this (registrations s) /\
    operator_bool this s' = false.
Proof.
  intros Hw Hv. destruct (reset_spec this s Hw Hv) as (s' & He & Hw' & Ha).
  exists s'. unfold destroy, move_assign, mbind, M_bind. rewrite He. split_and!; try done.
  destruct this as [id|]; [|done]. unfold operator_bool, subscribed.
  destruct (control_subscribed id s') eqn:Hs; [|done].
  apply (subscribed_registered s' id Hw') in Hs. rewrite Ha in Hs. cbn in Hs.
  apply list_elem_of_In, filter_In in Hs as [_ Hs]. by rewrite Z.eqb_refl in Hs.
Qed.

End ops.

(** ** The subscribers of a registry as controls *)

Section registry.
Context {E : Type} (oom : bool).

(** [oom] is the failure of the registry's allocation while it retires. *)
#[export] Instance registry_control : SubscriptionControl (Registry.registry E) := {
  control_unsubscribe id := Registry.unsubscribe id false oom;
  control_subscribed id r := Registry.subscribed_in r id;
  control_metrics id r :=
    match Registry.objects r !! id with
    | Some s => Subscriber.metrics s
    | None => zero_metrics
    end;
}.

Definition nobody_inside (id : Z) (r : Registry.registry E) : Prop :=
  ∃ s, Registry.objects r !! id = Some s /\ Subscriber.in_flight s = 0.

Lemma subscribed_in_active (r : Registry.registry E) id :
  Registry.wf r -> Registry.subscribed_in r id = true -> id ∈ Registry.active r.
Proof.
  intros Hw Hs. unfold Registry.active. apply list_elem_of_In, filter_In. split; [|done].
  apply list_elem_of_In. unfold Registry.subscribed_in in Hs.
  destruct (Registry.objects r !! id) as [s|] eqn:Ho; [|done]. by eapply Registry.wf_retired.
Qed.

Lemma registry_unsubscribes (r : Registry.registry E) id :
  Registry.wf r -> nobody_inside id r ->
  ∃ r', Registry.unsubscribe id false oom r = Ret tt r' /\ Registry.wf r' /\
    Registry.active r' = List.filter (fun i => negb (i =? id)) (Registry.active r).
Proof.
  intros Hw (s & Hs & Hf).
  destruct (Registry.unsubscribe_ok id false oom r s Hw Hs (or_intror Hf)) as (r' & He & Hw' & Ha & _).
  by exists r'.
Qed.

#[export] Instance registry_control_laws : SubscriptionControlLaws (Registry.registry E) := {
  sound := Registry.wf;
  quiescent := nobody_inside;
  registrations := Registry.active;
  subscribed_registered := subscribed_in_active;
  unsubscribe_leaves := registry_unsubscribes;
}.

End registry.

(** ** A handle of a registry with two subscribers *)

Definition two_registered : Registry.registry Z :=
  foldl (fun r c => Registry.exec_call c r) Registry.make
    [Registry.Subscribe true Subscriber.direct_options true false;
     Registry.Subscribe true Subscriber.direct_options true false].

Lemma two_registered_wf : Registry.wf two_registered /\ Registry.quiet two_registered.
Proof.
  split; cbn [two_registered foldl].
  - apply Registry.exec_call_ok; [apply Registry.exec_call_ok; [apply Registry.make_wf|by intros i s]|].
    apply Registry.exec_call_ok; [apply Registry.make_wf|by intros i s].
  - apply Registry.exec_call_ok; [apply Registry.exec_call_ok; [apply Registry.make_wf|by intros i s]|].
    apply Registry.exec_call_ok; [apply Registry.make_wf|by intros i s].
Qed.

Lemma first_valid : valid (SubscriptionControlLaws0 := registry_control_laws (E := Z) false) (Some 1) two_registered.
Proof. intros id [= <-]. by eexists. Qed.

Lemma handle_ends_registration_witness :
  Registry.active two_registered = [1; 2] /\
  ∃ r', reset (SubscriptionControl0 := registry_control false) (Some 1) two_registered = Ret None r' /\
    Registry.active r' = [2].
Proof.
  split; [reflexivity|].
  destruct (handle_ends_registration (SubscriptionControlLaws0 := registry_control_laws false)
    (Some 1) None two_registered (proj1 two_registered_wf) first_valid)
    as (r' & He & _ & _ & _ & _ & Ha & _).
  exists r'. split; [exact He|exact Ha].
Defined.

End Subscription.
