(* ===== verification/WorkerPool.v ===== *)
(** * [worker_pool]: ownership of the worker threads

    The pool of [src/execution/worker_pool.cpp]: its [jthread]s, what starts
    and stops them, and how a caller waits for them. A worker body ends on
    its own, as an event of the model. *)

From S2P Require Import Prelude.
Local Open Scope Z_scope.

Module WorkerPool.

(** One [std::jthread] of the pool. *)
Record worker : Type := mk_worker {
  index : Z;
  stop_requested : bool;
  returned : bool;
  joined : bool;
}.

Record pool : Type := mk_pool { workers : list worker }.

Definition make : pool := mk_pool [].

Definition joinable (w : worker) : bool := negb (joined w).

(** [current_pool_] of the calling thread, innermost scope first: the pools
    whose [worker_scope] it is inside of. *)
Definition pool_id : Type := nat.
Definition scope : Type := list pool_id.

Definition is_worker_thread (self : pool_id) (caller : scope) : bool :=
  match caller with [] => false | p :: _ => bool_decide (p = self) end.

(** The loop of [start]; the system creates [spawnable] more threads before
    it fails with [resource_unavailable], here [bad_alloc]. *)
Fixpoint spawn (n : nat) (i : Z) (spawnable : nat) : M pool unit :=
  match n, spawnable with
  | O, _ => mret tt
  | S _, O => throw bad_alloc
  | S n, S spawnable =>
      modify (fun p => mk_pool (workers p ++ [mk_worker i false false false]));;
      spawn n (i + 1) spawnable
  end.

(** [callable] says the worker function is not empty. *)
Definition start (worker_count : Z) (callable : bool) (spawnable : nat) : M pool unit :=
  if worker_count =? 0 then throw invalid_argument
  else if negb callable then throw invalid_argument
  else
    p ← gets id;
    if negb (bool_decide (workers p = [])) then throw logic_error
    else spawn (Z.to_nat worker_count) 0 spawnable.

(** [worker_pool(worker_count, worker)]. *)
Definition construct (worker_count : Z) (callable : bool) (spawnable : nat) : result pool unit :=
  start worker_count callable spawnable make.

Definition request_stop (p : pool) : pool :=
  mk_pool ((fun w => mk_worker (index w) true (returned w) (joined w)) <$> workers p).

Definition mark_joined (p : pool) : pool :=
  mk_pool ((fun w => mk_worker (index w) (stop_requested w) (returned w) true) <$> workers p).

(** [join]: [None] while it waits for a worker to return. *)
Definition join (self : pool_id) (caller : scope) : M pool (option unit) :=
  if is_worker_thread self caller then throw logic_error
  else
    p ← gets id;
    if forallb (fun w => negb (joinable w) || returned w) (workers p) then
      modify mark_joined;;
      mret (Some tt)
    else mret None.

(** The destructor: [None] while it waits; [std::terminate] on a worker. *)
Definition destroy (self : pool_id) (caller : scope) : M pool (option unit) :=
  modify request_stop;;
  if is_worker_thread self caller then stuck terminated
  else fun p =>
    match join self caller p with
    | Throw _ _ => Stuck terminated
    | r => r
    end.

Definition size (p : pool) : Z := zlength (workers p).

(** The body of worker [i] returns. *)
Definition body_returns (i : nat) (p : pool) : pool :=
  mk_pool (alter (fun w => mk_worker (index w) (stop_requested w) true (joined w)) i (workers p)).

(** ** Properties *)

Lemma spawn_spec n : ∀ i spawnable p,
  (n <= spawnable)%nat ->
  spawn n i spawnable p =
    Ret tt (mk_pool (workers p ++
      ((fun i => mk_worker i false false false) <$> seqZ i (Z.of_nat n)))).
Proof.
  induction n as [|n IH]; intros i spawnable p Hs.
  - cbn [spawn]. replace (seqZ i (Z.of_nat 0)) with (@nil Z) by done.
    cbn. rewrite app_nil_r. by destruct p.
  - destruct spawnable as [|spawnable]; [lia|]. cbn [spawn]. run_m. rewrite IH by lia. cbn.
    rewrite (seqZ_cons i) by lia. cbn. rewrite <- (assoc_L (++)). do 3 f_equal. cbn. do 2 f_equal.
    f_equal; lia.
Qed.

Lemma spawn_fails n : ∀ i spawnable p,
  (spawnable < n)%nat ->
  spawn n i spawnable p =
    Throw bad_alloc (mk_pool (workers p ++
      ((fun i => mk_worker i false false false) <$> seqZ i (Z.of_nat spawnable)))).
Proof.
  induction n as [|n IH]; intros i spawnable p Hs; [lia|].
  destruct spawnable as [|spawnable]; cbn [spawn].
  - replace (seqZ i (Z.of_nat 0)) with (@nil Z) by done. cbn. rewrite app_nil_r. by destruct p.
  - run_m. rewrite IH by lia. cbn. rewrite (seqZ_cons i) by lia. cbn.
    rewrite <- (assoc_L (++)). do 3 f_equal. cbn. do 2 f_equal. f_equal; lia.
Qed.

Lemma start_fresh count spawnable :
  0 < count <= Z.of_nat spawnable ->
  start count true spawnable make =
    Ret tt (mk_pool ((fun i => mk_worker i false false false) <$> seqZ 0 count)).
Proof.
  intros Hc. unfold start. rewrite (proj2 (Z.eqb_neq count 0)) by lia. cbn [negb].
  rewrite bind_gets_id. rewrite bool_decide_true by done. cbn [negb].
  rewrite spawn_spec by lia. cbn. by rewrite Z2Nat.id by lia.
Qed.

(** A pool starts once, with workers numbered from zero, and refuses a
    zero count, an empty function and a second start without starting a
    thread. *)
Theorem start_once count callable spawnable p :
  0 <= count -> count <= Z.of_nat spawnable ->
  start count callable spawnable p =
    if (count =? 0) || negb callable then Throw invalid_argument p
    else if bool_decide (workers p = []) then
      Ret tt (mk_pool ((fun i => mk_worker i false false false) <$> seqZ 0 count))
    else Throw logic_error p.
Proof.
  intros Hc Hs. unfold start. destruct (count =? 0); [done|]. destruct callable; [|done].
  cbn [negb orb]. rewrite bind_gets_id. case_bool_decide as Hw; [|done]. cbn [negb].
  rewrite spawn_spec by lia. rewrite Hw. cbn. by rewrite Z2Nat.id.
Qed.

Lemma mark_joined_twice p : mark_joined (mark_joined p) = mark_joined p.
Proof. unfold mark_joined. cbn [workers]. by rewrite <- list_fmap_compose. Qed.

(** [join] returns only once every worker body has returned, never on
    a thread of the pool itself, and a later [join] returns at once. *)
Theorem join_waits_for_all self caller p :
  match join self caller p with
  | Ret (Some _) p' =>
      is_worker_thread self caller = false /\ (∀ w, w ∈ workers p -> joined w = false -> returned w = true) /\
      join self caller p' = Ret (Some tt) p'
  | Ret None p' => p' = p /\ ∃ w, w ∈ workers p /\ returned w = false
  | Throw e p' => e = logic_error /\ p' = p /\ is_worker_thread self caller = true
  | Stuck _ => False
  end.
Proof.
  unfold join. destruct (is_worker_thread self caller); [done|]. rewrite !bind_gets_id.
  destruct (forallb _ (workers p)) eqn:Hall; run_m.
  - rewrite List.forallb_forall in Hall. split_and!; [done|..].
    + intros w Hw Hj. apply list_elem_of_In in Hw. specialize (Hall w Hw).
      unfold joinable in Hall. by rewrite Hj in Hall.
    + destruct (forallb _ _) eqn:Hall2.
      * by rewrite mark_joined_twice.
      * exfalso. apply not_true_iff_false in Hall2. apply Hall2, List.forallb_forall.
        intros w Hw. apply List.in_map_iff in Hw as (w0 & <- & _). done.
  - split; [done|]. apply not_true_iff_false in Hall. rewrite List.forallb_forall in Hall.
    destruct (decide (Exists (fun w => returned w = false) (workers p))) as [Hex|Hnex].
    + apply Exists_exists in Hex as (w & Hw & Hr). by exists w.
    + exfalso. apply Hall. intros w Hw. apply list_elem_of_In in Hw.
      destruct (returned w) eqn:Hr; [apply orb_true_r|]. exfalso. apply Hnex, Exists_exists. by exists w.
Qed.

Lemma start_once_witness :
  start 2 true 4 make =
    Ret tt (mk_pool [mk_worker 0 false false false; mk_worker 1 false false false]).
Proof. exact (start_once 2 true 4 make ltac:(lia) ltac:(lia)). Defined.

End WorkerPool.
