(* ===== verification/Dispatcher.v ===== *)
(** * [dispatcher]: publishing, the worker loop and shutdown

    The whole of [dispatcher.hpp] over any queue policy ([ConcurrentQueue]),
    run by one thread at a time: publishers, the caller of [shutdown], and
    the workers it waits for, one after another. [W] is the world the user's callbacks and
    error handler act on. Waiting is [None]; what other threads do meanwhile
    is in [DispatcherConc]. *)

From S2P Require Import Prelude Types QueueSpec MutexQueue Subscriber Registry WorkerPool.
Import PopResult.
Local Open Scope Z_scope.

Module Dispatcher.

Record dispatcher (E Q : Type) : Type := mk_dispatcher {
  events : Q;
  worker_batch_size_ : Z;
  subscribers : Registry.registry E;
  lifecycle_ : lifecycle_state;
  accepted_ : Z;
  rejected_ : Z;
  dropped_ : Z;
  workers_ : WorkerPool.pool;
  shutdown_policy_ : shutdown_policy;
}.
Arguments mk_dispatcher {E Q}.
Arguments events {E Q} d.
Arguments worker_batch_size_ {E Q} d.
Arguments subscribers {E Q} d.
Arguments lifecycle_ {E Q} d.
Arguments accepted_ {E Q} d.
Arguments rejected_ {E Q} d.
Arguments dropped_ {E Q} d.
Arguments workers_ {E Q} d.
Arguments shutdown_policy_ {E Q} d.

Section ops.
Context {E Q : Type} `{!ConcurrentQueue E Q}.
Implicit Types d : dispatcher E Q.

Definition with_events (q : Q) d : dispatcher E Q :=
  mk_dispatcher q (worker_batch_size_ d) (subscribers d) (lifecycle_ d) (accepted_ d)
    (rejected_ d) (dropped_ d) (workers_ d) (shutdown_policy_ d).
Definition with_subscribers (r : Registry.registry E) d : dispatcher E Q :=
  mk_dispatcher (events d) (worker_batch_size_ d) r (lifecycle_ d) (accepted_ d)
    (rejected_ d) (dropped_ d) (workers_ d) (shutdown_policy_ d).
Definition with_lifecycle (l : lifecycle_state) d : dispatcher E Q :=
  mk_dispatcher (events d) (worker_batch_size_ d) (subscribers d) l (accepted_ d)
    (rejected_ d) (dropped_ d) (workers_ d) (shutdown_policy_ d).
Definition with_counts (acc rej dro : Z) d : dispatcher E Q :=
  mk_dispatcher (events d) (worker_batch_size_ d) (subscribers d) (lifecycle_ d) acc rej dro
    (workers_ d) (shutdown_policy_ d).
Definition with_workers (p : WorkerPool.pool) d : dispatcher E Q :=
  mk_dispatcher (events d) (worker_batch_size_ d) (subscribers d) (lifecycle_ d) (accepted_ d)
    (rejected_ d) (dropped_ d) p (shutdown_policy_ d).

Definition count_accepted d : dispatcher E Q :=
  with_counts (u64 (accepted_ d + 1)) (rejected_ d) (dropped_ d) d.
Definition count_rejected d : dispatcher E Q :=
  with_counts (accepted_ d) (u64 (rejected_ d + 1)) (dropped_ d) d.
Definition count_dropped (n : Z) d : dispatcher E Q :=
  with_counts (accepted_ d) (rejected_ d) (u64 (dropped_ d + n)) d.

Definition metrics d : dispatcher_metrics :=
  mk_dispatcher_metrics (accepted_ d) (rejected_ d) (dropped_ d).
Definition subscriber_count d : Z := Registry.active_count (subscribers d).
Definition lifecycle d : lifecycle_state := lifecycle_ d.
Definition worker_count_of d : Z := WorkerPool.size (workers_ d).

(** ** Construction *)

(** [shared_state] with no worker started; [make_queue] is the policy's
    constructor and [oom] tells that reserving the workers' batches fails. *)
Definition make_shared_state (make_queue : Z -> exn + Q) (oom : bool) (capacity batch_size : Z)
    (policy : shutdown_policy) : exn + dispatcher E Q :=
  match make_queue capacity with
  | inl e => inl e
  | inr q =>
      if oom then inl bad_alloc
      else inr (mk_dispatcher q batch_size Registry.make created 0 0 0 WorkerPool.make policy)
  end.

Definition make_state (make_queue : Z -> exn + Q) (oom : bool) (config : dispatcher_config) :
    exn + dispatcher E Q :=
  if worker_count config =? 0 then inl invalid_argument
  else if worker_batch_size config =? 0 then inl invalid_argument
  else make_shared_state make_queue oom (queue_capacity config) (worker_batch_size config)
         (shutdown config).

(** The constructor; [spawnable] is the number of threads the system can
    still create. *)
Definition make (make_queue : Z -> exn + Q) (oom : bool) (config : dispatcher_config)
    (spawnable : nat) : exn + dispatcher E Q :=
  match make_state make_queue oom config with
  | inl e => inl e
  | inr d =>
      match WorkerPool.start (worker_count config) true spawnable (workers_ d) with
      | Ret _ p => inr (with_lifecycle running (with_workers p d))
      | Throw e _ => inl e
      | Stuck _ => inl invalid_argument
      end
  end.

(** ** Publishing *)

Definition is_running d : bool := bool_decide (lifecycle_ d = running).

(** Run an operation of the queue inside the dispatcher. *)
Definition on_events {C A} (m : M (Q * C) A) : M (dispatcher E Q * C) A := fun '(d, c) =>
  match m (events d, c) with
  | Ret a (q, c') => Ret a (with_events q d, c')
  | Throw e (q, c') => Throw e (with_events q d, c')
  | Stuck f => Stuck f
  end.

(** [publish_with]; an operation that parks has not been counted yet. *)
Definition publish_with {C} (operation : M (Q * C) (option queue_status)) :
    M (dispatcher E Q * C) (option queue_status) :=
  '(d, _) ← gets id;
  if negb (is_running d) then
    on_fst (modify count_rejected);;
    mret (Some closed)
  else
    result ← on_events operation;
    match result with
    | None => mret None
    | Some st =>
        on_fst (modify (if bool_decide (st = success) then count_accepted else count_rejected));;
        mret (Some st)
    end.

Definition now {C} (m : M (Q * C) queue_status) : M (Q * C) (option queue_status) :=
  st ← m; mret (Some st).

Definition try_publish {C} (fwd : forward C E) : M (dispatcher E Q * C) (option queue_status) :=
  publish_with (now (q_try_push fwd)).
Definition try_emplace {C} (fwd : forward C E) : M (dispatcher E Q * C) (option queue_status) :=
  publish_with (now (q_try_emplace fwd)).
Definition publish {C} (stop : bool) (fwd : forward C E) :
    M (dispatcher E Q * C) (option queue_status) :=
  publish_with (q_wait_push stop fwd).
Definition publish_until {C} (stop expired : bool) (fwd : forward C E) :
    M (dispatcher E Q * C) (option queue_status) :=
  publish_with (q_wait_push_until stop expired fwd).
(** [publish_for] called at [start] and looked at again at [time]. *)
Definition publish_for {C} (stop : bool) (start timeout time : Z) (fwd : forward C E) :
    M (dispatcher E Q * C) (option queue_status) :=
  publish_until stop (start + timeout <=? time) fwd.

(** The span of [try_publish_batch]: its [i]-th element, moved from or
    copied. *)
Definition span_move (i : nat) : forward (list (option E)) E := fun span =>
  match span !! i with
  | Some (Some e) => (inr e, <[i := None]> span)
  | _ => (inl bad_optional_access, span)
  end.
Definition span_copy (copy : E -> exn + E) (i : nat) : forward (list E) E := fun span =>
  match span !! i with
  | Some e => (copy e, span)
  | None => (inl bad_optional_access, span)
  end.

(** The loop over the [n] elements left, of [size]. *)
Fixpoint batch_loop {C} (fwd : nat -> forward C E) (size n : nat) (accepted : Z) :
    M (dispatcher E Q * C) batch_publish_result :=
  match n with
  | O => mret (mk_batch_publish_result (Z.of_nat size) accepted success)
  | S n =>
      st ← try_publish (fwd (size - S n)%nat);
      match st with
      | Some st =>
          if bool_decide (st = success) then batch_loop fwd size n (u64 (accepted + 1))
          else mret (mk_batch_publish_result (Z.of_nat size) accepted st)
      | None => stuck blocked
      end
  end.

Definition try_publish_batch (span : list (option E)) :
    dispatcher E Q -> result (dispatcher E Q * list (option E)) batch_publish_result :=
  fun d => batch_loop span_move (length span) (length span) 0 (d, span).
Definition try_publish_batch_copy (copy : E -> exn + E) (span : list E) :
    dispatcher E Q -> result (dispatcher E Q * list E) batch_publish_result :=
  fun d => batch_loop (span_copy copy) (length span) (length span) 0 (d, span).

(** ** Subscribing *)

Definition subscribe (callable : bool) (options : subscription_options) (copyable oom : bool) :
    M (dispatcher E Q) Z := fun d =>
  if negb (is_running d) then Throw logic_error d
  else match Registry.subscribe callable options copyable oom (subscribers d) with
  | Ret id r => Ret id (with_subscribers r d)
  | Throw e r => Throw e (with_subscribers r d)
  | Stuck f => Stuck f
  end.

End ops.

(** ** The worker *)

Section workers.
Context {E Q W : Type} `{!ConcurrentQueue E Q}.

(** What the user supplies: the callback of each subscriber, its running
    time, the event's copy constructor and the dispatcher's error handler,
    whose own exceptions are swallowed. *)
Record program : Type := mk_program {
  callback_of : Z -> E -> W -> option exn * W;
  elapsed_of : Z -> E -> W -> Z;
  copy_of : option (E -> exn + E);
  handler : option (exn -> W -> W);
}.
Context (u : program).
Abbreviation state := (dispatcher E Q * W)%type.

Definition report_error (e : exn) (w : W) : W :=
  match handler u with None => w | Some h => h e w end.

(** The registry hands [report_error] to every subscriber. *)
Definition client_of (id : Z) : Subscriber.client E W :=
  Subscriber.mk_client (callback_of u id) (elapsed_of u id) (copy_of u) (Some report_error).

(** Run an operation of the subscriber object [id]. *)
Definition on_subscriber {A} (id : Z) (m : M (Subscriber.subscriber E * W) A) : M state A :=
  fun '(d, w) =>
  match Registry.objects (subscribers d) !! id with
  | None => Stuck undefined_behaviour
  | Some s =>
      let put s' := with_subscribers (Registry.update_object id (fun _ => s') (subscribers d)) d in
      match m (s, w) with
      | Ret a (s', w') => Ret a (put s', w')
      | Throw e (s', w') => Throw e (put s', w')
      | Stuck f => Stuck f
      end
  end.

(** [subscriber->try_invoke(event)] with the errors reported; a full mailbox
    of a lossless subscriber blocks the worker. *)
Definition deliver (event : E) (id : Z) : M state unit :=
  catch
    (r ← on_subscriber id (Subscriber.try_invoke (client_of id) event);
     match r with Some _ => mret tt | None => stuck blocked end)
    (fun e => fun '(d, w) => Ret tt (d, report_error e w)).

Fixpoint each {A} (f : A -> M state unit) (l : list A) : M state unit :=
  match l with
  | [] => mret tt
  | x :: l => f x;; each f l
  end.

Definition broadcast_batch (batch : list E) : M state unit :=
  '(d, _) ← gets id;
  let snapshot := Registry.acquire_snapshot (subscribers d) in
  each (fun event => each (deliver event) snapshot) batch.

Definition on_queue {A} (m : M Q A) : M state A := fun '(d, w) =>
  match m (events d) with
  | Ret a q => Ret a (with_events q d, w)
  | Throw e q => Throw e (with_events q d, w)
  | Stuck f => Stuck f
  end.

(** [while (batch.size() < worker_batch_size)]. *)
Fixpoint fill_batch (n : nat) (batch : list E) : M state (list E) :=
  '(d, _) ← gets id;
  if zlength batch <? worker_batch_size_ d then
    match n with
    | O => stuck blocked
    | S n =>
        next ← on_queue q_try_pop;
        if bool_decide (status next = success) then
          match value next with
          | inr e => fill_batch n (batch ++ [e])
          | inl e => throw e
          end
        else mret batch
    end
  else mret batch.

(** One round of [run]: [false] when the worker returns. *)
Definition run_round (stop : bool) : M state (option bool) :=
  r ← on_queue (q_wait_pop stop);
  match r with
  | None => mret None
  | Some r =>
      match status r with
      | success =>
          match value r with
          | inl e => throw e
          | inr e =>
              '(d, _) ← gets id;
              batch ← fill_batch (Z.to_nat (worker_batch_size_ d)) [e];
              broadcast_batch batch;;
              mret (Some true)
          end
      | closed | stopped => mret (Some false)
      | _ => mret (Some true)
      end
  end.

(** [run] until it waits or returns. *)
Fixpoint run (fuel : nat) (stop : bool) : M state (option unit) :=
  match fuel with
  | O => stuck blocked
  | S fuel =>
      r ← run_round stop;
      match r with
      | None => mret None
      | Some false => mret (Some tt)
      | Some true => run fuel stop
      end
  end.

(** ** Shutdown *)

(** The caller is on a worker of this pool, or inside a callback of one of
    this registry's subscribers. *)
Definition refused (on_worker in_callback : bool) : bool := on_worker || in_callback.

(** [stop_delivery(drain)] of every subscriber of the snapshot, with the
    executors it waits for run to their end. *)
Definition stop_subscriber (drains : bool) (fuel : nat) (id : Z) : M state unit :=
  '(d, _) ← gets Datatypes.id;
  match Registry.objects (subscribers d) !! id with
  | None => stuck undefined_behaviour
  | Some s =>
      if Subscriber.is_isolated (Subscriber.options_ s) then
        r ← on_subscriber id (on_fst (modify (Subscriber.stop_mark drains));;
              Subscriber.executor_loop (client_of id) fuel);
        match r with Some _ => mret tt | None => stuck blocked end
      else mret tt
  end.
Definition stop_delivery (drains : bool) (fuel : nat) : M state unit :=
  '(d, _) ← gets Datatypes.id;
  each (stop_subscriber drains fuel) (Registry.acquire_snapshot (subscribers d)).

(** [workers_.join()]: every worker loop runs to its end. For one worker this
    is what happens while nobody else does anything; several run at the same
    time, which is [DispatcherConc]'s subject: here they are taken one after
    another, and no theorem of this file concludes an order from that. *)
Definition join_one (fuel : nat) (_ : WorkerPool.worker) : M state unit :=
  r ← run fuel false;
  match r with Some _ => mret tt | None => stuck blocked end.
Definition join_workers (fuel : nat) : M state unit :=
  '(d, _) ← gets id;
  each (join_one fuel) (WorkerPool.workers (workers_ d));;
  modify (fun '(d, w) =>
    (with_workers (WorkerPool.mark_joined (workers_ d)) d, w)).

Definition shutdown_with (policy : shutdown_policy) (on_worker in_callback : bool) (fuel : nat) :
    M state unit :=
  if refused on_worker in_callback then throw logic_error
  else
    '(d, _) ← gets id;
    match lifecycle_ d with
    | lifecycle_stopped => mret tt
    | drain_stopping | discard_stopping => stuck blocked
    | created | running =>
        modify (fun '(d, w) =>
          (with_lifecycle (if bool_decide (policy = drain) then drain_stopping
                           else discard_stopping) d, w));;
        (if bool_decide (policy = drain) then on_queue q_close
         else
           discarded ← on_queue q_close_and_discard;
           modify (fun '(d, w) => (count_dropped discarded d, w));;
           stop_delivery false fuel);;
        join_workers fuel;;
        (if bool_decide (policy = drain) then stop_delivery true fuel else mret tt);;
        modify (fun '(d, w) => (with_lifecycle lifecycle_stopped d, w))
    end.

Definition shutdown_default (on_worker in_callback : bool) (fuel : nat) : M state unit :=
  '(d, _) ← gets id;
  shutdown_with (shutdown_policy_ d) on_worker in_callback fuel.

(** The destructor: an exception of [shutdown] terminates. *)
Definition destroy (on_worker in_callback : bool) (fuel : nat) : M state unit :=
  catch (shutdown_default on_worker in_callback fuel) (fun _ => stuck terminated).

(** ** Delivery *)

(** Every subscriber of the snapshot is called directly. *)
Definition direct (r : Registry.registry E) : Prop :=
  ∀ id, id ∈ Registry.current r -> ∃ s, Registry.objects r !! id = Some s /\
    Subscriber.is_isolated (Subscriber.options_ s) = false /\
    0 <= Subscriber.in_flight s < 2 ^ 64.

(** The same membership, up to the subscribers' counters. *)
Definition same_members (r r' : Registry.registry E) : Prop :=
  Registry.current r' = Registry.current r /\
  (∀ id, Registry.subscribed_in r' id = Registry.subscribed_in r id) /\
  (direct r -> direct r').

(** One event handled by the active subscribers in order. *)
Definition deliver_event (ids : list Z) (w : W) (event : E) : W :=
  foldl (fun w id => Subscriber.handle (client_of id) w event) w ids.
Definition deliver_events (ids : list Z) (w : W) (batch : list E) : W :=
  foldl (deliver_event ids) w batch.

#[export] Instance same_members_preorder : PreOrder same_members.
Proof.
  split; [by intros r; split_and!|].
  intros r1 r2 r3 (H1 & H2 & H3) (H4 & H5 & H6). split_and!; [congruence|congruence|auto].
Qed.

Lemma update_members r id s s' :
  Registry.objects r !! id = Some s ->
  Subscriber.subscribed s' = Subscriber.subscribed s ->
  Subscriber.options_ s' = Subscriber.options_ s ->
  Subscriber.in_flight s' = Subscriber.in_flight s ->
  same_members r (Registry.update_object id (fun _ => s') r).
Proof.
  intros Ho Ha Hopt Hf. split_and!; [done|..].
  - intros i. rewrite Registry.subscribed_update. case_decide as Hi; [subst|done].
    unfold Registry.subscribed_in. by rewrite Ho, Ha.
  - intros Hd i Hi. cbn. destruct (decide (i = id)) as [->|].
    + rewrite lookup_alter_eq, Ho. exists s'. split; [done|]. rewrite Hopt, Hf.
      destruct (Hd id Hi) as (s0 & Hs0 & ? & ?). by simplify_eq.
    + rewrite lookup_alter_ne by done. by apply Hd.
Qed.

Lemma deliver_spec d w event id :
  direct (subscribers d) -> id ∈ Registry.current (subscribers d) ->
  ∃ r', same_members (subscribers d) r' /\
    deliver event id (d, w) =
      Ret tt (with_subscribers r' d,
        if Registry.subscribed_in (subscribers d) id
        then Subscriber.handle (client_of id) w event else w).
Proof.
  intros Hd Hid. destruct (Hd id Hid) as (s & Hs & Hiso & Hf).
  unfold deliver, catch, on_subscriber. run_m. rewrite Hs.
  unfold Registry.subscribed_in. rewrite Hs.
  destruct (Subscriber.active_ s) eqn:Ha.
  - pose proof (Subscriber.direct_invocation (client_of id) event s w Hiso Ha Hf) as Hi.
    rewrite Hi. unfold Subscriber.subscribed. rewrite Ha. unfold Subscriber.handle.
    match goal with |- context [(?s1, _)] => match type of s1 with
      Subscriber.subscriber E => exists (Registry.update_object id (fun _ => s1) (subscribers d)) end end.
    split; [by apply (update_members _ id s)|].
    cbn. by destruct (callback_of u id event w) as [[e|] w'].
  - pose proof (Subscriber.refused_invocation (client_of id) event s w Hiso Ha) as Hi.
    rewrite Hi. unfold Subscriber.subscribed. rewrite Ha.
    eexists. split; [|reflexivity]. by apply (update_members _ id s _ Hs).
Qed.

Lemma each_deliver l : ∀ d w event,
  direct (subscribers d) -> (∀ id, id ∈ l -> id ∈ Registry.current (subscribers d)) ->
  ∃ r', same_members (subscribers d) r' /\
    each (deliver event) l (d, w) =
      Ret tt (with_subscribers r' d,
        deliver_event (List.filter (Registry.subscribed_in (subscribers d)) l) w event).
Proof.
  induction l as [|id l IH]; intros d w event Hd Hl.
  - exists (subscribers d). split; [reflexivity|]. by destruct d.
  - destruct (deliver_spec d w event id Hd (Hl id ltac:(left))) as (r1 & Hm1 & H1).
    destruct Hm1 as (Hc1 & Hs1 & Hd1) eqn:Hm1'.
    destruct (IH (with_subscribers r1 d) (if Registry.subscribed_in (subscribers d) id
      then Subscriber.handle (client_of id) w event else w) event) as (r2 & Hm2 & H2).
    { by apply Hd1. }
    { intros i Hi. cbn. rewrite Hc1. apply Hl. by right. }
    exists r2. split; [by etrans; [exact Hm1|]|].
    cbn [each]. unfold mbind, M_bind. rewrite H1, H2. f_equal. f_equal. cbn [subscribers with_subscribers].
    rewrite (Registry.filter_same _ (Registry.subscribed_in (subscribers d)) l) by (intros; apply Hs1).
    cbn [List.filter]. unfold deliver_event. by destruct (Registry.subscribed_in (subscribers d) id).
Qed.

Lemma broadcast_spec batch : ∀ d w,
  direct (subscribers d) ->
  ∃ r', same_members (subscribers d) r' /\
    broadcast_batch batch (d, w) =
      Ret tt (with_subscribers r' d,
        deliver_events (Registry.active (subscribers d)) w batch).
Proof.
  intros d w Hd. unfold broadcast_batch. unfold mbind at 1, M_bind at 1, gets. cbn [id].
  unfold Registry.acquire_snapshot. set (ids := Registry.current (subscribers d)).
  assert (∀ d0 w, direct (subscribers d0) -> Registry.current (subscribers d0) = ids ->
    (∀ i, Registry.subscribed_in (subscribers d0) i = Registry.subscribed_in (subscribers d) i) ->
    ∃ r', same_members (subscribers d0) r' /\
      each (fun event => each (deliver event) ids) batch (d0, w) =
        Ret tt (with_subscribers r' d0,
          deliver_events (Registry.active (subscribers d)) w batch)) as H; [|by apply H].
  clear w. induction batch as [|event batch IH]; intros d0 w Hd0 Hc Hs.
  - exists (subscribers d0). split; [reflexivity|]. by destruct d0.
  - destruct (each_deliver ids d0 w event Hd0) as (r1 & Hm1 & H1); [by intros; rewrite Hc|].
    pose proof Hm1 as (Hc1 & Hs1 & Hd1).
    destruct (IH (with_subscribers r1 d0) (deliver_event
      (List.filter (Registry.subscribed_in (subscribers d0)) ids) w event)) as (r2 & Hm2 & H2).
    { by apply Hd1. }
    { cbn. congruence. }
    { intros i. cbn. by rewrite Hs1. }
    exists r2. split; [by etrans|]. cbn [each]. unfold mbind, M_bind. rewrite H1, H2.
    f_equal. f_equal. unfold deliver_events at 2. cbn [foldl].
    by rewrite (Registry.filter_same _ (Registry.subscribed_in (subscribers d))) by (intros; apply Hs).
Qed.

(** *** Isolated subscribers among the others *)

(** A subscriber that [n] more events do not block: a lossless mailbox has
    room for them. *)
Definition ready (n : Z) (s : Subscriber.subscriber E) : Prop :=
  0 <= Subscriber.in_flight s < 2 ^ 64 /\
  (Subscriber.is_isolated (Subscriber.options_ s) = true -> Subscriber.mailbox_accepting_ s = true ->
   zlength (Subscriber.mailbox_ s) <= mailbox_capacity (Subscriber.options_ s) /\
   (guarantee (Subscriber.options_ s) = lossless ->
    zlength (Subscriber.mailbox_ s) + n <= mailbox_capacity (Subscriber.options_ s))).

(** What [batch] does to a subscriber, its counters apart: an accepting
    mailbox takes the events there is room for. *)
Definition handed (batch : list E) (s s' : Subscriber.subscriber E) : Prop :=
  Subscriber.options_ s' = Subscriber.options_ s /\ Subscriber.active_ s' = Subscriber.active_ s /\
  Subscriber.in_flight s' = Subscriber.in_flight s /\
  Subscriber.mailbox_accepting_ s' = Subscriber.mailbox_accepting_ s /\
  Subscriber.mailbox_ s' =
    if Subscriber.is_isolated (Subscriber.options_ s) && Subscriber.mailbox_accepting_ s
    then take (Z.to_nat (mailbox_capacity (Subscriber.options_ s))) (Subscriber.mailbox_ s ++ batch)
    else Subscriber.mailbox_ s.

Definition all_ready (n : Z) (r : Registry.registry E) : Prop :=
  ∀ id, id ∈ Registry.current r -> ∃ s, Registry.objects r !! id = Some s /\ ready n s.
Definition handed_all (batch : Z -> list E) (r r' : Registry.registry E) : Prop :=
  Registry.current r' = Registry.current r /\
  ∀ id s, id ∈ Registry.current r -> Registry.objects r !! id = Some s ->
    ∃ s', Registry.objects r' !! id = Some s' /\ handed (batch id) s s'.

(** The active subscribers whose callback runs on the worker. *)
Definition called_in (r : Registry.registry E) (id : Z) : bool :=
  match Registry.objects r !! id with
  | Some s => Subscriber.active_ s && negb (Subscriber.is_isolated (Subscriber.options_ s))
  | None => false
  end.
Definition called (r : Registry.registry E) : list Z := List.filter (called_in r) (Registry.current r).

Lemma ready_less n m s : m <= n -> ready n s -> ready m s.
Proof.
  intros Hle [Hf Hi]. split; [done|]. intros H1 H2. destruct (Hi H1 H2) as [H3 H4].
  split; [done|]. intros H5. specialize (H4 H5). lia.
Qed.

Lemma handed_nothing n s : ready n s -> handed [] s s.
Proof.
  intros [_ Hi]. unfold handed. split_and!; try done.
  destruct (Subscriber.is_isolated _) eqn:H1; [|done]. destruct (Subscriber.mailbox_accepting_ s) eqn:H2; [|done].
  cbn. rewrite app_nil_r, take_ge; [done|]. destruct (Hi eq_refl eq_refl) as [H _]. unfold zlength in H. lia.
Qed.

Lemma handed_more b1 b2 s s1 s2 : handed b1 s s1 -> handed b2 s1 s2 -> handed (b1 ++ b2) s s2.
Proof.
  intros (O1 & A1 & F1 & M1 & B1) (O2 & A2 & F2 & M2 & B2). unfold handed.
  rewrite O2, O1, A2, A1, F2, F1, M2, M1, B2, O1, M1, B1. split_and!; try done.
  destruct (_ && _); [|done]. by rewrite take_app_take, <- (assoc_L (++)).
Qed.

Lemma handed_ready n batch s s' : ready n s -> handed batch s s' -> ready (n - zlength batch) s'.
Proof.
  intros [Hf Hi] (HO & HA & HF & HM & HB). split; [by rewrite HF|]. rewrite HO, HM, HB.
  intros H1 H2. rewrite H1, H2. cbn. destruct (Hi H1 H2) as [H3 H4].
  unfold zlength in *. rewrite length_take, length_app. split; [lia|]. intros H5. specialize (H4 H5). lia.
Qed.

(** An isolated subscriber keeps the event if there is room for it. *)
Lemma offered_isolated id event s w :
  copy_of u = Some inr -> Subscriber.is_isolated (Subscriber.options_ s) = true -> ready 1 s ->
  ∃ b s', Subscriber.try_invoke (client_of id) event (s, w) = Ret (Some b) (s', w) /\ handed [event] s s'.
Proof.
  intros Hc Hs [_ Hi]. unfold Subscriber.try_invoke. run_m. rewrite Hs.
  unfold on_fst, Subscriber.enqueue_isolated, handed. cbn. rewrite Hc, Hs.
  unfold Subscriber.mailbox_full. cbn. destruct s as [o fl ac re mb acc st dr m]. cbn in *.
  destruct acc; cbn; [destruct (Hi Hs eq_refl) as [H1 H2]|].
  - destruct (guarantee o); cbn.
    + destruct (Z.eqb_spec (zlength mb) (mailbox_capacity o)) as [Heq|Hne]; cbn.
      * eexists _, _. split; [done|]. cbn. split_and!; try done.
        unfold zlength in Heq. by rewrite take_app_le, take_ge by lia.
      * eexists _, _. split; [done|]. cbn. split_and!; try done.
        rewrite take_ge; [done|]. unfold zlength in *. rewrite length_app. cbn. lia.
    + specialize (H2 eq_refl). destruct (Z.ltb_spec (zlength mb) (mailbox_capacity o)); [|lia].
      eexists _, _. split; [done|]. cbn. split_and!; try done.
      rewrite take_ge; [done|]. unfold zlength in *. rewrite length_app. cbn. lia.
  - destruct (guarantee o); cbn; [destruct (_ =? _)|]; eexists _, _; by split.
Qed.

Lemma deliver_any d w event id s :
  copy_of u = Some inr -> Registry.objects (subscribers d) !! id = Some s -> ready 1 s ->
  ∃ s', handed [event] s s' /\
    deliver event id (d, w) =
      Ret tt (with_subscribers (Registry.update_object id (fun _ => s') (subscribers d)) d,
        if called_in (subscribers d) id then Subscriber.handle (client_of id) w event else w).
Proof.
  intros Hc Hs Hr. unfold deliver, catch, on_subscriber. run_m. unfold called_in. rewrite Hs.
  assert (Subscriber.is_isolated (Subscriber.options_ s) = false -> ∀ s', Subscriber.options_ s' = Subscriber.options_ s ->
    Subscriber.active_ s' = Subscriber.active_ s -> Subscriber.in_flight s' = Subscriber.in_flight s ->
    Subscriber.mailbox_accepting_ s' = Subscriber.mailbox_accepting_ s ->
    Subscriber.mailbox_ s' = Subscriber.mailbox_ s -> handed [event] s s') as Hsame
    by (intros Hn s' ? ? ? ? ?; unfold handed; by rewrite Hn).
  destruct (Subscriber.is_isolated (Subscriber.options_ s)) eqn:Hiso.
  - destruct (offered_isolated id event s w Hc Hiso Hr) as (b & s' & -> & Hh). exists s'.
    split; [done|]. by rewrite andb_false_r.
  - destruct (Subscriber.active_ s) eqn:Ha; cbn [andb negb].
    + pose proof (Subscriber.direct_invocation (client_of id) event s w Hiso Ha (proj1 Hr)) as Hi.
      cbn zeta in Hi. rewrite Hi. unfold Subscriber.handle.
      match goal with |- context [Subscriber.with_metrics ?m s] =>
        exists (Subscriber.with_metrics m s); split; [by apply (Hsame eq_refl)|] end.
      cbn. by destruct (callback_of u id event w) as [[e|] w'].
    + rewrite (Subscriber.refused_invocation (client_of id) event s w Hiso Ha).
      eexists. split; [|reflexivity]. by apply (Hsame eq_refl).
Qed.

Lemma handed_alike batch s s' :
  handed batch s s' ->
  Subscriber.active_ s' && negb (Subscriber.is_isolated (Subscriber.options_ s')) =
  Subscriber.active_ s && negb (Subscriber.is_isolated (Subscriber.options_ s)).
Proof. by intros (-> & -> & _). Qed.

(** The events of two rounds, round after round. *)
Lemma handed_all_more b1 b2 r r1 r2 :
  handed_all b1 r r1 -> handed_all b2 r1 r2 -> handed_all (fun id => b1 id ++ b2 id) r r2.
Proof.
  intros [C1 H1] [C2 H2]. split; [congruence|]. intros id s Hid Hs.
  destruct (H1 id s Hid Hs) as (s1 & Hs1 & Hh1).
  destruct (H2 id s1 ltac:(by rewrite C1) Hs1) as (s2 & Hs2 & Hh2).
  exists s2. split; [done|]. by eapply handed_more.
Qed.

Lemma handed_all_ready n batch k r r' :
  all_ready n r -> handed_all batch r r' -> (∀ id, zlength (batch id) <= k) -> all_ready (n - k) r'.
Proof.
  intros Hr [Hc Hh] Hk id Hid. rewrite Hc in Hid. destruct (Hr id Hid) as (s & Hs & Hrs).
  destruct (Hh id s Hid Hs) as (s' & Hs' & Hhs). exists s'. split; [done|].
  eapply ready_less; [|by eapply handed_ready]. specialize (Hk id). lia.
Qed.

Lemma handed_all_called batch r r' id :
  handed_all batch r r' -> all_ready 0 r -> id ∈ Registry.current r -> called_in r' id = called_in r id.
Proof.
  intros [_ Hh] Hr Hid. destruct (Hr id Hid) as (s & Hs & _). destruct (Hh id s Hid Hs) as (s' & Hs' & Hhs).
  unfold called_in. rewrite Hs, Hs'. by apply (handed_alike _ _ _ Hhs).
Qed.

Lemma handed_all_active batch r r' :
  handed_all batch r r' -> all_ready 0 r -> Registry.active r' = Registry.active r.
Proof.
  intros [Hc Hh] Hr. unfold Registry.active. rewrite Hc. apply Registry.filter_same. intros id Hid.
  destruct (Hr id Hid) as (s & Hs & _). destruct (Hh id s Hid Hs) as (s' & Hs' & (_ & Ha & _)).
  unfold Registry.subscribed_in. by rewrite Hs, Hs'.
Qed.

(** One event for the subscribers of [l]. *)
Lemma each_deliver_any l : ∀ d w event,
  copy_of u = Some inr -> NoDup l -> (∀ id, id ∈ l -> id ∈ Registry.current (subscribers d)) ->
  all_ready 0 (subscribers d) ->
  (∀ id s, id ∈ l -> Registry.objects (subscribers d) !! id = Some s -> ready 1 s) ->
  ∃ r', handed_all (fun id => if decide (id ∈ l) then [event] else []) (subscribers d) r' /\
    each (deliver event) l (d, w) =
      Ret tt (with_subscribers r' d,
        deliver_event (List.filter (called_in (subscribers d)) l) w event).
Proof.
  induction l as [|id l IH]; intros d w event Hc Hnd Hl H0 H1.
  - exists (subscribers d). split; [|by destruct d]. split; [done|]. intros id s Hid Hs.
    exists s. split; [done|]. rewrite decide_False by apply not_elem_of_nil.
    destruct (H0 id Hid) as (s0 & Hs0 & Hr). simplify_eq. by eapply handed_nothing.
  - apply NoDup_cons in Hnd as [Hni Hnd]. destruct (H0 id (Hl id ltac:(left))) as (s & Hs & _).
    destruct (deliver_any d w event id s Hc Hs (H1 id s ltac:(left) Hs)) as (s' & Hh & He).
    set (r1 := Registry.update_object id (fun _ => s') (subscribers d)) in *.
    assert (handed_all (fun i => if decide (i = id) then [event] else []) (subscribers d) r1) as Hr1.
    { split; [done|]. intros i si Hi Hsi. cbn. case_decide as Heq.
      - subst i. simplify_eq. exists s'. by rewrite lookup_alter_eq, Hs.
      - exists si. rewrite lookup_alter_ne by done. split; [done|].
        destruct (H0 i Hi) as (s0 & Hs0 & Hr). simplify_eq. by eapply handed_nothing. }
    destruct (IH (with_subscribers r1 d) (if called_in (subscribers d) id
      then Subscriber.handle (client_of id) w event else w) event) as (r2 & Hr2 & H2); [done|done| | | |].
    { intros i Hi. apply Hl. by right. }
    { intros i Hi. destruct (decide (i = id)) as [->|Hne].
      - exists s'. cbn. rewrite lookup_alter_eq, Hs. split; [done|].
        eapply ready_less; [|exact (handed_ready 1 _ _ _ (H1 id s ltac:(left) Hs) Hh)]. by vm_compute.
      - destruct (H0 i Hi) as (si & Hsi & Hri). exists si. cbn. by rewrite lookup_alter_ne. }
    { intros i si Hi. cbn. rewrite lookup_alter_ne by (by intros ->). apply H1. by right. }
    exists r2. split.
    + destruct (handed_all_more _ _ _ _ _ Hr1 Hr2) as [Hcur Hall]. split; [done|]. intros i si Hi Hsi.
      destruct (Hall i si Hi Hsi) as (s2 & Hs2 & Hh2). exists s2. split; [done|].
      destruct (decide (i = id)) as [->|Hne]; destruct (decide (_ ∈ l)) as [Hin|Hin]; try done.
      * rewrite decide_True by left. exact Hh2.
      * rewrite decide_True by (by right). exact Hh2.
      * rewrite decide_False; [exact Hh2|]. by rewrite elem_of_cons; intros [].
    + cbn [each]. unfold mbind, M_bind. rewrite He, H2. f_equal. f_equal. cbn [subscribers with_subscribers].
      rewrite (Registry.filter_same _ (called_in (subscribers d)) l).
      2: { intros i Hi. apply (handed_all_called _ _ _ _ Hr1 H0), Hl. by right. }
      cbn [List.filter]. unfold deliver_event. by destruct (called_in (subscribers d) id).
Qed.

Lemma broadcast_any batch d w :
  copy_of u = Some inr -> NoDup (Registry.current (subscribers d)) ->
  all_ready (zlength batch) (subscribers d) ->
  ∃ r', handed_all (fun _ => batch) (subscribers d) r' /\
    broadcast_batch batch (d, w) =
      Ret tt (with_subscribers r' d, deliver_events (called (subscribers d)) w batch).
Proof.
  intros Hc Hnd Hr. unfold broadcast_batch. unfold mbind at 1, M_bind at 1, gets. cbn [id].
  unfold Registry.acquire_snapshot, called. set (ids := Registry.current (subscribers d)) in *.
  assert (∀ d0 w, Registry.current (subscribers d0) = ids -> all_ready (zlength batch) (subscribers d0) ->
    (∀ i, i ∈ ids -> called_in (subscribers d0) i = called_in (subscribers d) i) ->
    ∃ r', handed_all (fun _ => batch) (subscribers d0) r' /\
      each (fun event => each (deliver event) ids) batch (d0, w) =
        Ret tt (with_subscribers r' d0,
          deliver_events (List.filter (called_in (subscribers d)) ids) w batch)) as H; [|by apply H].
  clear w Hr. induction batch as [|event batch IH]; intros d0 w Hcur Hr Hs.
  - exists (subscribers d0). split; [|by destruct d0]. split; [done|]. intros id s Hid Hso.
    exists s. split; [done|]. destruct (Hr id Hid) as (s0 & Hs0 & Hrs). simplify_eq. by eapply handed_nothing.
  - rewrite zlength_cons in Hr.
    assert (∀ n, n <= zlength batch + 1 -> all_ready n (subscribers d0)) as Hless.
    { intros n Hn id Hid. destruct (Hr id Hid) as (s & ? & ?). exists s. split; [done|]. by eapply ready_less. }
    assert (0 <= zlength batch) by apply zlength_nonneg.
    destruct (each_deliver_any ids d0 w event Hc Hnd) as (r1 & Hr1 & H1).
    { by intros id; rewrite Hcur. }
    { apply Hless. lia. }
    { intros id s Hid Hso. destruct (Hless 1 ltac:(lia) id) as (s0 & ? & ?); [by rewrite Hcur|]. by simplify_eq. }
    assert (handed_all (fun _ => [event]) (subscribers d0) r1) as Hr1'.
    { destruct Hr1 as [Hc1 Hh1]. split; [done|]. intros id s Hid Hso.
      destruct (Hh1 id s Hid Hso) as (s' & ? & Hh). exists s'. split; [done|].
      rewrite decide_True in Hh; [done|]. by rewrite <- Hcur. }
    destruct (IH (with_subscribers r1 d0) (deliver_event (List.filter (called_in (subscribers d0)) ids) w event))
      as (r2 & Hr2 & H2).
    { cbn. rewrite (proj1 Hr1'). done. }
    { replace (zlength batch) with (zlength batch + 1 - 1) by lia. by apply (handed_all_ready _ (fun _ => [event]) _ _ _ Hr). }
    { intros i Hi. etransitivity; [|by apply Hs].
      apply (handed_all_called _ _ _ _ Hr1'); [apply Hless; lia|by rewrite Hcur]. }
    exists r2. split; [exact (handed_all_more _ _ _ _ _ Hr1' Hr2)|].
    cbn [each]. unfold mbind, M_bind. rewrite H1, H2. f_equal. f_equal. unfold deliver_events at 2. cbn [foldl].
    by rewrite (Registry.filter_same (called_in (subscribers d0)) (called_in (subscribers d))) by (intros; by apply Hs).
Qed.

End workers.
Arguments program : clear implicits.

(** ** Draining a closed queue *)

Section draining.
Context {E Q W : Type} {CQ : ConcurrentQueue E Q} {HQ : QueueRefines E Q} (u : program E W).
Implicit Types d : dispatcher E Q.

(** The queue holds [its]; it is closed or not. *)
Definition holding (q : Q) (its : list E) (cl : bool) : Prop :=
  ∃ b, q_rep q b /\ items b = its /\ QueueSpec.is_closed b = cl.

Lemma try_pop_item q e its cl :
  holding q (e :: its) cl ->
  ∃ q', q_try_pop q = Ret (make_success e) q' /\ holding q' its cl.
Proof.
  intros (b & Hr & Hi & Hc). pose proof (q_try_pop_refines q b Hr) as H.
  unfold spec_try_pop in H. rewrite bind_gets_id, Hi in H. destruct H as (q' & Hq & Hr').
  exists q'. split; [done|]. by eexists.
Qed.

Lemma try_pop_none q cl :
  holding q [] cl ->
  ∃ q' r, q_try_pop q = Ret r q' /\ status r <> success /\ holding q' [] cl.
Proof.
  intros (b & Hr & Hi & Hc). pose proof (q_try_pop_refines q b Hr) as H.
  unfold spec_try_pop in H. rewrite bind_gets_id, Hi, Hc in H. destruct H as (q' & Hq & Hr').
  eexists q', _. split; [exact Hq|]. split; [by destruct cl|]. by eexists.
Qed.

Lemma wait_pop_item q e its cl stop :
  holding q (e :: its) cl ->
  ∃ q', q_wait_pop stop q = Ret (Some (make_success e)) q' /\ holding q' its cl.
Proof.
  intros (b & Hr & Hi & Hc). pose proof (q_wait_pop_refines stop q b Hr) as H.
  unfold spec_wait_pop in H. rewrite bind_gets_id, Hi in H. destruct H as (q' & Hq & Hr').
  exists q'. split; [done|]. by eexists.
Qed.

Lemma wait_pop_closed q stop :
  holding q [] true ->
  ∃ q', q_wait_pop stop q = Ret (Some make_closed) q' /\ holding q' [] true.
Proof.
  intros (b & Hr & Hi & Hc). pose proof (q_wait_pop_refines stop q b Hr) as H.
  unfold spec_wait_pop in H. rewrite bind_gets_id, Hi, Hc in H. destruct H as (q' & Hq & Hr').
  exists q'. split; [done|]. by eexists.
Qed.

(** A worker takes some prefix of the queue into its batch. *)
Lemma fill_batch_spec n : ∀ batch its cl d (w : W),
  holding (events d) its cl -> worker_batch_size_ d <= zlength batch + Z.of_nat n ->
  ∃ k q', fill_batch n batch (d, w) = Ret (batch ++ take k its) (with_events q' d, w) /\
    holding q' (drop k its) cl.
Proof.
  induction n as [|n IH]; intros batch its cl d w Hh Hn; cbn [fill_batch];
    unfold mbind at 1, M_bind at 1, gets; cbn [id];
    destruct (Z.ltb_spec (zlength batch) (worker_batch_size_ d)); try lia.
  1, 3: exists 0%nat, (events d); rewrite take_0, app_nil_r; by destruct d.
  unfold on_queue. unfold mbind at 1, M_bind at 1. destruct its as [|e its].
  - destruct (try_pop_none _ _ Hh) as (q' & r & -> & Hs & Hh').
    rewrite bool_decide_false by done. exists 0%nat, q'. by rewrite app_nil_r.
  - destruct (try_pop_item _ _ _ _ Hh) as (q' & -> & Hh').
    rewrite bool_decide_true by done. cbn [value make_success value_].
    destruct (IH (batch ++ [e]) its cl (with_events q' d) w) as (k & q2 & H2 & Hh2); [done| |].
    { cbn. rewrite zlength_app, zlength_cons. zlen_nil. lia. }
    exists (S k), q2. rewrite H2. rewrite <- (assoc_L (++)). by split.
Qed.

(** One round on a closed queue that still holds events. *)
Lemma run_round_spec d (w : W) e its :
  holding (events d) (e :: its) true -> direct (subscribers d) ->
  ∃ k q' r', run_round u false (d, w) =
      Ret (Some true) (with_subscribers r' (with_events q' d),
        deliver_events u (Registry.active (subscribers d)) w (e :: take k its)) /\
    holding q' (drop k its) true /\ same_members (subscribers d) r'.
Proof.
  intros Hh Hd. unfold run_round, on_queue. unfold mbind at 1, M_bind at 1.
  destruct (wait_pop_item _ _ _ _ false Hh) as (q1 & -> & Hh1).
  cbn [status make_success status_ value value_].
  unfold mbind at 1, M_bind at 1, gets. cbn [id]. unfold mbind at 1, M_bind at 1.
  destruct (fill_batch_spec (Z.to_nat (worker_batch_size_ (with_events q1 d))) [e] its true
    (with_events q1 d) w Hh1) as (k & q2 & -> & Hh2).
  { rewrite zlength_cons. zlen_nil. lia. }
  destruct (broadcast_spec u ([e] ++ take k its) (with_events q2 (with_events q1 d)) w Hd)
    as (r' & Hm & Hb).
  exists k, q2, r'. unfold mbind, M_bind. rewrite Hb. by split_and!.
Qed.

(** The worker loop on a closed queue handles everything and returns. *)
Lemma run_drains n : ∀ its d (w : W) fuel,
  (length its <= n)%nat -> (n < fuel)%nat ->
  holding (events d) its true -> direct (subscribers d) ->
  ∃ q' r', run u fuel false (d, w) =
      Ret (Some tt) (with_subscribers r' (with_events q' d),
        deliver_events u (Registry.active (subscribers d)) w its) /\
    holding q' [] true /\ same_members (subscribers d) r'.
Proof.
  induction n as [|n IH]; intros its d w [|fuel] Hn Hfuel Hh Hd; try lia; cbn [run];
    destruct its as [|e its]; simpl in Hn; try lia.
  1, 2: unfold run_round, on_queue, mbind, M_bind;
    destruct (wait_pop_closed _ false Hh) as (q1 & -> & Hh1);
    exists q1, (subscribers d); (split; [by destruct d|]); (split; [done|reflexivity]).
  destruct (run_round_spec d w e its Hh Hd) as (k & q1 & r1 & H1 & Hh1 & Hm1).
  unfold mbind, M_bind. rewrite H1.
  destruct (IH (drop k its) (with_subscribers r1 (with_events q1 d))
    (deliver_events u (Registry.active (subscribers d)) w (e :: take k its)) fuel)
    as (q2 & r2 & H2 & Hh2 & Hm2); [rewrite length_drop; lia|lia|done|by apply Hm1|].
  exists q2, r2. rewrite H2. split_and!; [|done|by etrans].
  f_equal. f_equal. cbn [subscribers with_subscribers].
  assert (Registry.active r1 = Registry.active (subscribers d)) as ->.
  { destruct Hm1 as (Hc & Hs & _). unfold Registry.active. rewrite Hc.
    apply Registry.filter_same. intros. apply Hs. }
  unfold deliver_events. rewrite <- foldl_app. f_equal. cbn. by rewrite take_drop.
Qed.

(** ** Shutdown *)

Lemma join_drains ws : ∀ its d (w : W) fuel,
  (ws = [] -> its = []) -> (length its < fuel)%nat ->
  holding (events d) its true -> direct (subscribers d) ->
  ∃ q' r',
    each (join_one u fuel) ws (d, w) =
      Ret tt (with_subscribers r' (with_events q' d),
        deliver_events u (Registry.active (subscribers d)) w its) /\
    holding q' [] true /\ same_members (subscribers d) r'.
Proof.
  induction ws as [|wk ws IH]; intros its d w fuel Hws Hfuel Hh Hd.
  - rewrite (Hws eq_refl) in *. exists (events d), (subscribers d).
    split_and!; [by destruct d|done|reflexivity].
  - destruct (run_drains (length its) its d w fuel (le_n _) Hfuel Hh Hd)
      as (q1 & r1 & H1 & Hh1 & Hm1).
    destruct (IH [] (with_subscribers r1 (with_events q1 d))
      (deliver_events u (Registry.active (subscribers d)) w its) fuel) as (q2 & r2 & H2 & Hh2 & Hm2);
      [done|simpl; lia|done|by apply Hm1|].
    exists q2, r2. cbn [each].
    assert (join_one u fuel wk (d, w) = Ret tt (with_subscribers r1 (with_events q1 d),
      deliver_events u (Registry.active (subscribers d)) w its)) as Hone.
    { unfold join_one, mbind, M_bind. by rewrite H1. }
    unfold mbind, M_bind. rewrite Hone, H2. split_and!; [done|done|by etrans].
Qed.

(** Without isolated subscribers there is no executor to stop. *)
Lemma stop_direct drains fuel d (w : W) :
  direct (subscribers d) -> stop_delivery u drains fuel (d, w) = Ret tt (d, w).
Proof.
  intros Hd. unfold stop_delivery. unfold mbind, M_bind, gets. cbn [Datatypes.id].
  unfold Registry.acquire_snapshot.
  assert (∀ l, (∀ id, id ∈ l -> id ∈ Registry.current (subscribers d)) ->
    each (stop_subscriber u drains fuel) l (d, w) = Ret tt (d, w)) as H; [|by apply H].
  induction l as [|id l IH]; intros Hl; [done|]. cbn [each].
  destruct (Hd id (Hl id ltac:(left))) as (s & Hs & Hiso & _).
  unfold stop_subscriber. unfold mbind, M_bind, gets. cbn. rewrite Hs, Hiso. cbn.
  apply IH. intros i Hi. apply Hl. by right.
Qed.

Lemma close_holding q its cl :
  holding q its cl -> ∃ q', q_close q = Ret tt q' /\ holding q' its true.
Proof.
  intros (b & Hr & Hi & Hc). pose proof (q_close_refines q b Hr) as H.
  destruct H as (q' & Hq & Hr'). exists q'. split; [done|]. by eexists.
Qed.

Lemma discard_holding q its cl :
  holding q its cl ->
  ∃ q', q_close_and_discard q = Ret (zlength its) q' /\ holding q' [] true.
Proof.
  intros (b & Hr & Hi & Hc). pose proof (q_close_and_discard_refines q b Hr) as H.
  destruct H as (q' & Hq & Hr'). exists q'. split; [rewrite Hq; unfold id; by rewrite Hi|]. by eexists.
Qed.

(** C35: with one worker, which is at the head of its loop, and no isolated
    subscriber, whatever the queue policy, the batch size and the exceptions
    of the callbacks, a draining shutdown hands every queued event, in order,
    to every active subscriber in subscription order, and leaves the
    dispatcher stopped with a closed, empty queue. *)
Theorem drain_shutdown_delivers d (w : W) its cl fuel :
  is_running d = true -> holding (events d) its cl -> direct (subscribers d) ->
  length (WorkerPool.workers (workers_ d)) = 1%nat -> (length its < fuel)%nat ->
  ∃ d', shutdown_with u drain false false fuel (d, w) =
      Ret tt (d', deliver_events u (Registry.active (subscribers d)) w its) /\
    lifecycle_ d' = lifecycle_stopped /\ holding (events d') [] true /\
    Registry.active (subscribers d') = Registry.active (subscribers d) /\
    metrics d' = metrics d.
Proof.
  intros Hrun Hh Hd Hws Hfuel. apply bool_decide_eq_true in Hrun.
  destruct (close_holding _ _ _ Hh) as (q1 & Hq1 & Hh1).
  destruct (join_drains (WorkerPool.workers (workers_ d)) its
    (with_events q1 (with_lifecycle drain_stopping d)) w fuel) as (q2 & r2 & H2 & Hh2 & Hm2);
    [cbn; intros Hnone; by rewrite Hnone in Hws|done|done|done|].
  unfold shutdown_with, join_workers. cbn [refused orb]. unfold mbind, M_bind, gets, modify. cbn [id].
  rewrite Hrun. change (bool_decide (drain = drain)) with true. cbn.
  unfold on_queue. cbn. rewrite Hq1. cbn in H2 |- *. rewrite H2. cbn. rewrite stop_direct by by apply Hm2. cbn.
  eexists. split; [done|]. split_and!; try done.
  destruct Hm2 as (Hc & Hs & _). unfold Registry.active. cbn in *. rewrite Hc.
  apply Registry.filter_same. intros. apply Hs.
Qed.

(** A discarding shutdown runs no callback for the queued events and
    counts exactly them as dropped. *)
Theorem discard_shutdown_drops d (w : W) its cl fuel :
  is_running d = true -> holding (events d) its cl -> direct (subscribers d) -> (0 < fuel)%nat ->
  ∃ d', shutdown_with u discard false false fuel (d, w) = Ret tt (d', w) /\
    lifecycle_ d' = lifecycle_stopped /\ holding (events d') [] true /\
    metrics d' =
      mk_dispatcher_metrics (accepted_ d) (rejected_ d) (u64 (dropped_ d + zlength its)).
Proof.
  intros Hrun Hh Hd Hfuel. apply bool_decide_eq_true in Hrun.
  destruct (discard_holding _ _ _ Hh) as (q1 & Hq1 & Hh1).
  set (d1 := count_dropped (zlength its) (with_events q1 (with_lifecycle discard_stopping d))).
  destruct (join_drains (WorkerPool.workers (workers_ d)) [] d1 w fuel)
    as (q2 & r2 & H2 & Hh2 & Hm2); [done|simpl; lia|done|done|].
  unfold shutdown_with, join_workers. cbn [refused orb]. unfold mbind, M_bind, gets, modify. cbn [id].
  rewrite Hrun. change (bool_decide (discard = drain)) with false. cbn.
  unfold on_queue. cbn. rewrite Hq1. cbn.
  fold d1. rewrite stop_direct by done. cbn in H2 |- *. rewrite H2. cbn. eexists. by split.
Qed.

(** ** Publishing *)

(** The counters after a publication that returned [st]. *)
Definition counted (st : queue_status) (m : dispatcher_metrics) : dispatcher_metrics :=
  let '(mk_dispatcher_metrics acc rej dro) := m in
  if bool_decide (st = success) then mk_dispatcher_metrics (u64 (acc + 1)) rej dro
  else mk_dispatcher_metrics acc (u64 (rej + 1)) dro.

(** [publish_with] on a queue that represents [b], for an operation that
    refines [spec]. *)
Lemma publish_with_ok {C} (op : M (Q * C) (option queue_status)) spec d b c :
  refines (with_caller q_rep) op spec -> q_rep (events d) b ->
  match (if is_running d then spec (b, c) else Ret (Some closed) (b, c)) with
  | Ret o (b', c') =>
      ∃ d', publish_with op (d, c) = Ret o (d', c') /\ q_rep (events d') b' /\
        lifecycle_ d' = lifecycle_ d /\ subscribers d' = subscribers d /\
        metrics d' = match o with Some st => counted st (metrics d) | None => metrics d end
  | Throw e (b', c') =>
      ∃ d', publish_with op (d, c) = Throw e (d', c') /\ q_rep (events d') b' /\
        lifecycle_ d' = lifecycle_ d /\ metrics d' = metrics d
  | Stuck f => publish_with op (d, c) = Stuck f
  end.
Proof.
  intros Hop Hr. unfold publish_with. rewrite bind_gets_id.
  destruct (is_running d) eqn:Hrun; cbn [negb].
  2: { run_m. by eexists. }
  specialize (Hop (events d, c) (b, c) (conj Hr eq_refl)). unfold on_events, mbind, M_bind.
  destruct (spec (b, c)) as [o [b' c']|e [b' c']|f].
  - destruct Hop as ([q' c''] & -> & Hr' & Hc). cbn in Hr', Hc. subst c''.
    destruct o as [st|]; [|by eexists]. run_m. unfold counted.
    case_bool_decide; by eexists.
  - destruct Hop as ([q' c''] & -> & Hr' & Hc). cbn in Hr', Hc. subst c''. by eexists.
  - by rewrite Hop.
Qed.

Lemma now_refines {C} (m : M (Q * C) queue_status) spec :
  refines (with_caller q_rep) m spec ->
  refines (with_caller q_rep) (now m) (st ← spec; mret (Some st)).
Proof. intros Hm. apply refines_bind; [done|]. intros st. apply refines_ret. Qed.

(** A publication reports what the bounded FIFO does, counts itself
    accepted or rejected accordingly, and outside the running state is
    refused with [closed] without touching the queue or the caller's event;
    one that throws is not counted. *)
Theorem publishing_reports_the_queue {C} (fwd : forward C E) stop expired d b c :
  q_rep (events d) b ->
  let reports (o : result (bounded_fifo E * C) (option queue_status))
      (r : result (dispatcher E Q * C) (option queue_status)) :=
    match (if is_running d then o else Ret (Some closed) (b, c)) with
    | Ret st (b', c') =>
        ∃ d', r = Ret st (d', c') /\ q_rep (events d') b' /\ lifecycle_ d' = lifecycle_ d /\
          subscribers d' = subscribers d /\
          metrics d' = match st with Some st => counted st (metrics d) | None => metrics d end
    | Throw e (b', c') =>
        ∃ d', r = Throw e (d', c') /\ q_rep (events d') b' /\ lifecycle_ d' = lifecycle_ d /\
          metrics d' = metrics d
    | Stuck f => r = Stuck f
    end in
  reports ((st ← spec_try_push fwd; mret (Some st)) (b, c)) (try_publish fwd (d, c)) /\
  reports ((st ← spec_try_push fwd; mret (Some st)) (b, c)) (try_emplace fwd (d, c)) /\
  reports (spec_wait_push stop fwd (b, c)) (publish stop fwd (d, c)) /\
  reports (spec_wait_push_until stop expired fwd (b, c)) (publish_until stop expired fwd (d, c)).
Proof.
  intros Hr. cbv zeta. split_and!.
  - apply publish_with_ok; [|done]. apply now_refines, q_try_push_refines.
  - apply publish_with_ok; [|done]. apply now_refines, q_try_emplace_refines.
  - apply publish_with_ok; [|done]. apply q_wait_push_refines.
  - apply publish_with_ok; [|done]. apply q_wait_push_until_refines.
Qed.

(** *** Batches *)

Definition span_at (k : nat) (rest : list E) : list (option E) :=
  replicate k None ++ (Some <$> rest).

Lemma span_move_next k e rest :
  span_move k (span_at k (e :: rest)) = (inr e, span_at (S k) rest).
Proof.
  unfold span_move, span_at.
  rewrite lookup_app_r, length_replicate, Nat.sub_diag by (by rewrite length_replicate). cbn.
  rewrite insert_app_r_alt, length_replicate, Nat.sub_diag by (by rewrite length_replicate). cbn.
  f_equal. trans ((replicate k (@None E) ++ [None]) ++ (Some <$> rest)).
  - by rewrite <- (assoc_L (++)).
  - by rewrite <- replicate_S_end.
Qed.

Lemma try_publish_move k e rest d b :
  is_running d = true -> q_rep (events d) b ->
  let room := negb (QueueSpec.is_closed b) && negb (is_full b) in
  ∃ d', q_rep (events d') (if room then mk_fifo (items b ++ [e]) (bound b) (QueueSpec.is_closed b) else b) /\
    is_running d' = true /\
    metrics d' = counted (if room then success else if QueueSpec.is_closed b then closed else full) (metrics d) /\
    try_publish (span_move k) (d, span_at k (e :: rest)) =
      Ret (Some (if room then success else if QueueSpec.is_closed b then closed else full))
        (d', if room then span_at (S k) rest else span_at k (e :: rest)).
Proof.
  intros Hrun Hr. pose proof (publish_with_ok (now (q_try_push (span_move k))) _ d b
    (span_at k (e :: rest)) (now_refines _ _ (q_try_push_refines (span_move k))) Hr) as H.
  unfold spec_try_push, spec_append in H. rewrite Hrun in H. run_in H. unfold is_running in *.
  destruct (QueueSpec.is_closed b) eqn:Hcl; cbn in H |- *.
  { destruct H as (d' & Hp & Hr' & Hl & _ & Hm). exists d'. rewrite Hl. by split_and!. }
  destruct (is_full b); cbn in H |- *.
  { destruct H as (d' & Hp & Hr' & Hl & _ & Hm). exists d'. rewrite Hl. by split_and!. }
  rewrite span_move_next in H. cbn in H.
  rewrite Hcl in H. destruct H as (d' & Hp & Hr' & Hl & _ & Hm). exists d'. rewrite Hl.
  by split_and!.
Qed.

(** The counters after [j] acceptances. *)
Fixpoint accept_times (j : nat) (m : dispatcher_metrics) : dispatcher_metrics :=
  match j with O => m | S j => accept_times j (counted success m) end.

Lemma batch_loop_move rest : ∀ k acc d b,
  is_running d = true -> q_rep (events d) b -> 0 <= acc -> acc + zlength rest < 2 ^ 64 ->
  ∃ j st d' b', (j <= length rest)%nat /\
    batch_loop span_move (k + length rest) (length rest) acc (d, span_at k rest) =
      Ret (mk_batch_publish_result (Z.of_nat (k + length rest)) (acc + Z.of_nat j) st)
        (d', span_at (k + j) (drop j rest)) /\
    q_rep (events d') b' /\ items b' = items b ++ take j rest /\
    if decide (j = length rest) then st = success /\ metrics d' = accept_times j (metrics d)
    else st = (if QueueSpec.is_closed b' then closed else full) /\
      (QueueSpec.is_closed b' || is_full b' = true) /\
      metrics d' = counted st (accept_times j (metrics d)).
Proof.
  induction rest as [|e rest IH]; intros k acc d b Hrun Hr Hacc Hlt.
  - exists 0%nat, success, d, b. cbn. rewrite Nat.add_0_r, Z.add_0_r, app_nil_r.
    rewrite decide_True by done. split_and!; done || lia.
  - rewrite zlength_cons in Hlt. pose proof (zlength_nonneg rest).
    destruct (try_publish_move k e rest d b Hrun Hr) as (d1 & Hr1 & Hrun1 & Hm1 & H1).
    cbn [batch_loop length]. replace (k + S (length rest) - S (length rest))%nat with k by lia.
    unfold mbind, M_bind. rewrite H1.
    destruct (negb (QueueSpec.is_closed b) && negb (is_full b)) eqn:Hroom.
    + rewrite bool_decide_true by done.
      destruct (IH (S k) (acc + 1) d1 _ Hrun1 Hr1 ltac:(lia) ltac:(lia))
        as (j & st & d' & b' & Hj & Hb & Hr' & Hi & Hst).
      exists (S j), st, d', b'. rewrite u64_small by lia.
      replace (k + S (length rest))%nat with (S k + length rest)%nat by lia.
      replace (k + S j)%nat with (S k + j)%nat by lia.
      replace (acc + Z.of_nat (S j)) with (acc + 1 + Z.of_nat j) by lia.
      cbn in Hi. split_and!; [lia|done|done|by rewrite Hi, <- (assoc_L (++))|].
      rewrite Hm1 in Hst. do 2 case_decide; try lia; done.
    + assert ((if QueueSpec.is_closed b then closed else full) <> success) as Hne
        by by destruct (QueueSpec.is_closed b).
      rewrite bool_decide_false by done.
      exists 0%nat, (if QueueSpec.is_closed b then closed else full), d1, b.
      rewrite Nat.add_0_r, Z.add_0_r, app_nil_r. rewrite decide_False by lia.
      split_and!; try done; [lia|].
      by destruct (QueueSpec.is_closed b), (is_full b).
Qed.

(** A moved batch is accepted as an ordered prefix: the queue receives
    it, the objects after it are left untouched, and the status is the
    reason the next one was refused. *)
Theorem batch_accepts_a_prefix span d b :
  is_running d = true -> q_rep (events d) b -> zlength span < 2 ^ 64 ->
  ∃ j st d' b',
    try_publish_batch (Some <$> span) d =
      Ret (mk_batch_publish_result (zlength span) (Z.of_nat j) st)
        (d', replicate j None ++ (Some <$> drop j span)) /\
    q_rep (events d') b' /\ items b' = items b ++ take j span /\
    if decide (j = length span) then st = success /\ metrics d' = accept_times j (metrics d)
    else (j < length span)%nat /\ st = (if QueueSpec.is_closed b' then closed else full) /\
      (QueueSpec.is_closed b' || is_full b' = true) /\
      metrics d' = counted st (accept_times j (metrics d)).
Proof.
  intros Hrun Hr Hlen.
  destruct (batch_loop_move span 0 0 d b Hrun Hr (Z.le_refl _) Hlen)
    as (j & st & d' & b' & Hj & Hb & Hr' & Hi & Hst).
  exists j, st, d', b'. unfold try_publish_batch. rewrite length_fmap. split_and!; try done.
  case_decide; [done|]. destruct Hst as (? & ? & ?). split_and!; try done. lia.
Qed.

(** ** Broadcasting *)

(** C36: a batch is handed event by event to every subscriber. Those called
    on the worker, which are the active ones that are not isolated, get every
    event in subscription order, whatever their callbacks throw. The mailbox
    of an isolated one that accepts takes the events in order as long as there
    is room. The executors stand still meanwhile, copying an event does not
    throw, and a lossless mailbox has room for the batch. *)
Theorem broadcast_reaches_every_subscriber batch d (w : W) :
  copy_of u = Some inr -> NoDup (Registry.current (subscribers d)) ->
  all_ready (zlength batch) (subscribers d) ->
  ∃ r', broadcast_batch u batch (d, w) =
      Ret tt (with_subscribers r' d, deliver_events u (called (subscribers d)) w batch) /\
    Registry.current r' = Registry.current (subscribers d) /\
    Registry.active r' = Registry.active (subscribers d) /\
    ∀ id s, id ∈ Registry.current (subscribers d) -> Registry.objects (subscribers d) !! id = Some s ->
      ∃ s', Registry.objects r' !! id = Some s' /\ handed batch s s'.
Proof.
  intros Hc Hnd Hr. destruct (broadcast_any u batch d w Hc Hnd Hr) as (r' & [Hcur Hh] & He).
  exists r'. split_and!; [done..| |done]. apply (handed_all_active (fun _ => batch)); [done|].
  intros id Hid. destruct (Hr id Hid) as (s & Hs & Hrs). exists s. split; [done|].
  eapply ready_less; [|exact Hrs]. apply zlength_nonneg.
Qed.

(** ** Construction and the stopped dispatcher *)

(** A configuration without workers or with empty batches is refused,
    so is one the queue refuses or whose batches do not fit; any other gives a running dispatcher with
    that many workers, nobody subscribed and nothing counted. *)
Theorem construction_outcome (make_queue : Z -> exn + Q) oom config spawnable :
  0 <= worker_count config <= Z.of_nat spawnable ->
  make (E:=E) make_queue oom config spawnable =
    if (worker_count config =? 0) || (worker_batch_size config =? 0) then inl invalid_argument
    else match make_queue (queue_capacity config) with
    | inl e => inl e
    | inr q =>
        if oom then inl bad_alloc
        else inr (mk_dispatcher q (worker_batch_size config) (@Registry.make E) running 0 0 0
        (WorkerPool.mk_pool ((fun i => WorkerPool.mk_worker i false false false) <$>
           seqZ 0 (worker_count config))) (shutdown config))
    end.
Proof.
  intros [Hc Hs]. unfold make, make_state, make_shared_state. destruct (Z.eqb_spec (worker_count config) 0) as [|Hne]; [done|].
  destruct (worker_batch_size config =? 0); [done|]. cbn [orb].
  destruct (make_queue _) as [e|q]; [done|]. destruct oom; [done|]. cbn [workers_].
  by rewrite WorkerPool.start_fresh by lia.
Qed.

(** C37: once shutdown has begun, nobody can subscribe or publish any more,
    and a publication only counts its refusal; a second shutdown after the
    end does nothing, and one from a worker or a callback is refused. *)
Theorem stopped_dispatcher_is_inert {C} d (w : W) (fwd : forward C E) c callable options copyable oom policy fuel :
  lifecycle_ d <> running ->
  subscribe callable options copyable oom d = Throw logic_error d /\
  try_publish fwd (d, c) = Ret (Some closed) (count_rejected d, c) /\
  publish false fwd (d, c) = Ret (Some closed) (count_rejected d, c) /\
  (lifecycle_ d = lifecycle_stopped ->
     shutdown_with u policy false false fuel (d, w) = Ret tt (d, w)) /\
  shutdown_with u policy true false fuel (d, w) = Throw logic_error (d, w) /\
  shutdown_with u policy false true fuel (d, w) = Throw logic_error (d, w).
Proof.
  intros Hl. assert (Hr : is_running d = false) by by apply bool_decide_eq_false.
  unfold subscribe, try_publish, publish, publish_with. rewrite !bind_gets_id, Hr.
  split_and!; try done. intros Hs. unfold shutdown_with. cbn [refused orb]. rewrite bind_gets_id.
  by rewrite Hs.
Qed.

End draining.

(** ** A dispatcher over a mutex queue of two slots, with one subscriber *)

Definition empty_slots : MutexQueue.queue Z := MutexQueue.mk_queue [None; None] 0 0 0 false.
Definition two_queued : MutexQueue.queue Z := MutexQueue.mk_queue [Some 7; Some 8] 0 0 2 false.

Definition sample (q : MutexQueue.queue Z) : dispatcher Z (MutexQueue.queue Z) :=
  mk_dispatcher q 1 (Registry.mk_registry 2 [1] {[ 1 := Subscriber.direct_subscriber ]})
    running 0 0 0 (WorkerPool.mk_pool [WorkerPool.mk_worker 0 false false false]) drain.

(** The callback records the subscriber and the event, and throws on 7. *)
Definition recorder : program Z (list (Z * Z)) :=
  mk_program (fun id e (w : list (Z * Z)) =>
      (if e =? 7 then Some (user_exception 0) else None, w ++ [(id, e)]))
    (fun _ _ _ => 0) (Some inr) None.

Lemma empty_slots_rep : q_rep empty_slots (mk_fifo [] 2 false).
Proof. by apply (MutexQueue.mutex_make_rep 2). Qed.

Lemma two_queued_rep : q_rep two_queued (mk_fifo [7; 8] 2 false).
Proof.
  exact (proj2 (run_ops_refines [OpTryPush (inr 7); OpTryPush (inr 8)] empty_slots
    (mk_fifo [] 2 false) empty_slots_rep)).
Qed.

Lemma two_queued_holding : holding two_queued [7; 8] false.
Proof. by exists (mk_fifo [7; 8] 2 false); split; [apply two_queued_rep|]. Qed.

Lemma sample_direct q : direct (subscribers (sample q)).
Proof. intros id ->%list_elem_of_singleton. by exists Subscriber.direct_subscriber. Qed.

Lemma drain_shutdown_delivers_witness :
  ∃ d', shutdown_with recorder drain false false 3 (sample two_queued, []) =
      Ret tt (d', [(1, 7); (1, 8)]) /\
    lifecycle_ d' = lifecycle_stopped /\ holding (events d') [] true.
Proof.
  destruct (drain_shutdown_delivers recorder (sample two_queued) [] [7; 8] false 3 eq_refl
    two_queued_holding (sample_direct _) eq_refl ltac:(cbn; lia))
    as (d' & He & Hl & Hh & _).
  exists d'. split; [exact He|split; assumption].
Defined.

Lemma discard_shutdown_drops_witness :
  ∃ d', shutdown_with recorder discard false false 1 (sample two_queued, []) = Ret tt (d', []) /\
    lifecycle_ d' = lifecycle_stopped /\ metrics d' = mk_dispatcher_metrics 0 0 2.
Proof.
  destruct (discard_shutdown_drops recorder (sample two_queued) [] [7; 8] false 1 eq_refl
    two_queued_holding (sample_direct _) ltac:(lia)) as (d' & He & Hl & _ & Hm).
  exists d'. split; [exact He|split; [exact Hl|exact Hm]].
Defined.

Lemma publishing_reports_the_queue_witness :
  ∃ d', try_publish move_from (sample two_queued, Some 9) = Ret (Some full) (d', Some 9) /\
    metrics d' = mk_dispatcher_metrics 0 1 0.
Proof.
  destruct (publishing_reports_the_queue move_from false false (sample two_queued) _ (Some 9)
    two_queued_rep) as [(d' & He & _ & _ & _ & Hm) _].
  exists d'. split; [exact He|exact Hm].
Defined.

Lemma batch_accepts_a_prefix_witness :
  ∃ j st d' b',
    try_publish_batch (Some <$> [4; 5; 6]) (sample empty_slots) =
      Ret (mk_batch_publish_result 3 (Z.of_nat j) st)
        (d', replicate j None ++ (Some <$> drop j [4; 5; 6])) /\
    items b' = [] ++ take j [4; 5; 6].
Proof.
  destruct (batch_accepts_a_prefix [4; 5; 6] (sample empty_slots) _ eq_refl empty_slots_rep
    ltac:(vm_compute; reflexivity)) as (j & st & d' & b' & He & _ & Hi & _).
  exists j, st, d', b'. split; [exact He|exact Hi].
Defined.

(** Subscriber 1 is called on the worker; 2 has a mailbox of one event. *)
Definition one_event : Subscriber.subscriber Z :=
  Subscriber.mk_subscriber (mk_subscription_options isolated best_effort 1 0)
    0 true false [] true false true zero_metrics.
Definition mixed : dispatcher Z (MutexQueue.queue Z) :=
  with_subscribers
    (Registry.mk_registry 3 [1; 2] {[ 1 := Subscriber.direct_subscriber; 2 := one_event ]})
    (sample empty_slots).

Lemma mixed_ready : all_ready 2 (subscribers mixed).
Proof.
  intros id Hid. apply elem_of_cons in Hid as [->|Hid].
  - exists Subscriber.direct_subscriber. split; [reflexivity|]. split; [by split|discriminate].
  - apply list_elem_of_singleton in Hid as ->. exists one_event. split; [reflexivity|].
    split; [by split|]. intros _ _. split; [discriminate|discriminate].
Qed.

Lemma mixed_distinct : NoDup (Registry.current (subscribers mixed)).
Proof. apply (bool_decide_unpack _). vm_compute. exact I. Qed.

Lemma broadcast_reaches_every_subscriber_witness :
  ∃ r', broadcast_batch recorder [7; 8] (mixed, []) =
      Ret tt (with_subscribers r' mixed, [(1, 7); (1, 8)]) /\
    ∃ s', Registry.objects r' !! 2 = Some s' /\ Subscriber.mailbox_ s' = [7].
Proof.
  destruct (broadcast_reaches_every_subscriber recorder [7; 8] mixed [] eq_refl mixed_distinct
    mixed_ready) as (r' & He & _ & _ & Hh).
  exists r'. split; [exact He|].
  destruct (Hh 2 one_event) as (s' & Hs' & (_ & _ & _ & _ & Hm)); [by right; left|reflexivity|].
  exists s'. split; [exact Hs'|exact Hm].
Defined.

Lemma construction_outcome_witness :
  make (E:=Z) (@MutexQueue.make Z) false (hardware_concurrency_defaults 0) 1 =
    inr (mk_dispatcher (MutexQueue.mk_queue (replicate (Z.to_nat 4096) None) 0 0 0 false) 1
      Registry.make running 0 0 0 (WorkerPool.mk_pool [WorkerPool.mk_worker 0 false false false]) drain).
Proof.
  exact (construction_outcome (@MutexQueue.make Z) false (hardware_concurrency_defaults 0) 1
    ltac:(cbn; lia)).
Defined.

Lemma stopped_dispatcher_is_inert_witness :
  try_publish move_from (with_lifecycle drain_stopping (sample empty_slots), Some 9) =
    Ret (Some closed) (count_rejected (with_lifecycle drain_stopping (sample empty_slots)), Some 9).
Proof.
  exact (proj1 (proj2 (stopped_dispatcher_is_inert recorder
    (with_lifecycle drain_stopping (sample empty_slots)) [] move_from (Some 9)
    true Subscriber.direct_options true false drain 1 ltac:(discriminate)))).
Defined.

End Dispatcher.
