(* ===== verification/DispatcherConc.v ===== *)
(** * Publishers, workers and shutdown callers on one dispatcher

    Any number of threads publish, run the worker loop and call [shutdown],
    one atomic access or queue operation per step. The queue is any policy
    that refines the bounded FIFO with atomic operations, as the mutex queue
    has; delivering one event to the snapshot is one step, and the waiting
    of [shutdown] for the isolated executors belongs to [SubscriberConc].
    The logs record every event pushed and every event handed to the
    subscribers, and count the events discarded. *)

From S2P Require Import Prelude Types QueueSpec MutexQueue.
Import PopResult.
Local Open Scope Z_scope.

Module DispatcherConc.

Section threads.
Context {E Q : Type} {CQ : ConcurrentQueue E Q} (batch_size : Z).

(** [try_publish], [publish], [publish_until]. *)
Inductive push_kind : Type := KindTry | KindWait | KindUntil.

(** One evaluation of the queue operation; constructing the event from
    [inl ex] throws. *)
Definition push (kind : push_kind) (stop expired : bool) (event : exn + E) :
    M (Q * unit) (option queue_status) :=
  match kind with
  | KindTry => st ← q_try_push (fun u => (event, u)); mret (Some st)
  | KindWait => q_wait_push stop (fun u => (event, u))
  | KindUntil => q_wait_push_until stop expired (fun u => (event, u))
  end.

Inductive publisher : Type :=
  | PubIdle
  | PubCheck (kind : push_kind) (event : exn + E)
  | PubPush (kind : push_kind) (event : exn + E)
  | PubCount (st : queue_status).

Inductive worker : Type :=
  | WorkPop
  | WorkFill (batch : list E)
  | WorkBroadcast (batch : list E)
  | WorkExit.

Inductive closer : Type :=
  | CloseIdle
  | CloseEnter (policy : shutdown_policy)
  | CloseWait
  | CloseQueue (policy : shutdown_policy)
  | CloseCount (discarded : Z)
  | CloseJoin
  | CloseFinish
  | CloseDone.

Record config : Type := mk_config {
  events : Q;
  lifecycle : lifecycle_state;
  accepted : Z;
  rejected : Z;
  dropped : Z;
  publishers : list publisher;
  workers : list worker;
  closers : list closer;
  pushed : list E;
  delivered : list E;
  discarded : Z;
  winner : option shutdown_policy;
}.

Inductive choice : Type :=
  | StartPublish (j : nat) (kind : push_kind) (event : exn + E)
  | Publish (j : nat) (stop expired : bool)
  | Work (j : nat)
  | StartShutdown (j : nat) (policy : shutdown_policy)
  | Shutdown (j : nat).

Definition with_publisher (j : nat) (p : publisher) (c : config) : config :=
  mk_config (events c) (lifecycle c) (accepted c) (rejected c) (dropped c)
    (<[j := p]> (publishers c)) (workers c) (closers c) (pushed c) (delivered c) (discarded c) (winner c).
Definition with_worker (j : nat) (w : worker) (c : config) : config :=
  mk_config (events c) (lifecycle c) (accepted c) (rejected c) (dropped c)
    (publishers c) (<[j := w]> (workers c)) (closers c) (pushed c) (delivered c) (discarded c) (winner c).
Definition with_closer (j : nat) (s : closer) (c : config) : config :=
  mk_config (events c) (lifecycle c) (accepted c) (rejected c) (dropped c)
    (publishers c) (workers c) (<[j := s]> (closers c)) (pushed c) (delivered c) (discarded c) (winner c).
Definition with_events (q : Q) (c : config) : config :=
  mk_config q (lifecycle c) (accepted c) (rejected c) (dropped c)
    (publishers c) (workers c) (closers c) (pushed c) (delivered c) (discarded c) (winner c).
Definition with_lifecycle (l : lifecycle_state) (w : option shutdown_policy) (c : config) : config :=
  mk_config (events c) l (accepted c) (rejected c) (dropped c)
    (publishers c) (workers c) (closers c) (pushed c) (delivered c) (discarded c) w.
Definition with_counts (acc rej dro : Z) (c : config) : config :=
  mk_config (events c) (lifecycle c) acc rej dro
    (publishers c) (workers c) (closers c) (pushed c) (delivered c) (discarded c) (winner c).
Definition with_logs (pu de : list E) (di : Z) (c : config) : config :=
  mk_config (events c) (lifecycle c) (accepted c) (rejected c) (dropped c)
    (publishers c) (workers c) (closers c) pu de di (winner c).

(** [publish_with]: the early test, the queue operation, the counter. *)
Definition publisher_step (j : nat) (stop expired : bool) (c : config) : option config :=
  match publishers c !! j with
  | Some (PubCheck kind e) =>
      if bool_decide (lifecycle c = running) then Some (with_publisher j (PubPush kind e) c)
      else Some (with_publisher j PubIdle
             (with_counts (accepted c) (u64 (rejected c + 1)) (dropped c) c))
  | Some (PubPush kind e) =>
      match push kind stop expired e (events c, tt) with
      | Ret (Some success) (q, _) =>
          Some (with_publisher j (PubCount success)
            (with_events q
               (with_logs (pushed c ++ (if e is inr v then [v] else [])) (delivered c) (discarded c) c)))
      | Ret (Some st) (q, _) => Some (with_publisher j (PubCount st) (with_events q c))
      | Ret None (q, _) => Some (with_events q c)
      | Throw _ (q, _) => Some (with_publisher j PubIdle (with_events q c))
      | Stuck _ => None
      end
  | Some (PubCount st) =>
      Some (with_publisher j PubIdle
        (if bool_decide (st = success)
         then with_counts (u64 (accepted c + 1)) (rejected c) (dropped c) c
         else with_counts (accepted c) (u64 (rejected c + 1)) (dropped c) c))
  | _ => None
  end.

(** [run] and [broadcast_batch]. *)
Definition worker_step (j : nat) (c : config) : option config :=
  match workers c !! j with
  | Some WorkPop =>
      match q_wait_pop false (events c) with
      | Ret (Some (mk_pop_result success (Some e))) q =>
          Some (with_worker j (WorkFill [e]) (with_events q c))
      | Ret (Some (mk_pop_result (closed | stopped) _)) q =>
          Some (with_worker j WorkExit (with_events q c))
      | _ => None
      end
  | Some (WorkFill batch) =>
      if zlength batch <? batch_size then
        match q_try_pop (events c) with
        | Ret (mk_pop_result success (Some e)) q =>
            Some (with_worker j (WorkFill (batch ++ [e])) (with_events q c))
        | Ret _ q => Some (with_worker j (WorkBroadcast batch) (with_events q c))
        | _ => None
        end
      else Some (with_worker j (WorkBroadcast batch) c)
  | Some (WorkBroadcast (e :: batch)) =>
      Some (with_worker j (WorkBroadcast batch)
        (with_logs (pushed c) (delivered c ++ [e]) (discarded c) c))
  | Some (WorkBroadcast []) => Some (with_worker j WorkPop c)
  | _ => None
  end.

Definition exited (w : worker) : bool := match w with WorkExit => true | _ => false end.

(** [shutdown(policy)]. *)
Definition closer_step (j : nat) (c : config) : option config :=
  match closers c !! j with
  | Some (CloseEnter policy) =>
      match lifecycle c with
      | lifecycle_stopped => Some (with_closer j CloseDone c)
      | drain_stopping | discard_stopping => Some (with_closer j CloseWait c)
      | created | running =>
          Some (with_closer j (CloseQueue policy)
            (with_lifecycle (match policy with drain => drain_stopping | discard => discard_stopping end)
               (Some policy) c))
      end
  | Some CloseWait =>
      if bool_decide (lifecycle c = lifecycle_stopped) then Some (with_closer j CloseDone c)
      else None
  | Some (CloseQueue drain) =>
      match q_close (events c) with
      | Ret _ q => Some (with_closer j CloseJoin (with_events q c))
      | _ => None
      end
  | Some (CloseQueue discard) =>
      match q_close_and_discard (events c) with
      | Ret n q =>
          Some (with_closer j (CloseCount n)
            (with_events q (with_logs (pushed c) (delivered c) (discarded c + n) c)))
      | _ => None
      end
  | Some (CloseCount n) =>
      Some (with_closer j CloseJoin
        (with_counts (accepted c) (rejected c) (u64 (dropped c + n)) c))
  | Some CloseJoin =>
      if forallb exited (workers c)
      then Some (with_closer j CloseFinish c) else None
  | Some CloseFinish => Some (with_closer j CloseDone (with_lifecycle lifecycle_stopped (winner c) c))
  | _ => None
  end.

Definition step (ch : choice) (c : config) : option config :=
  match ch with
  | StartPublish j kind e =>
      match publishers c !! j with
      | Some PubIdle => Some (with_publisher j (PubCheck kind e) c)
      | _ => None
      end
  | Publish j stop expired => publisher_step j stop expired c
  | Work j => worker_step j c
  | StartShutdown j policy =>
      match closers c !! j with
      | Some CloseIdle => Some (with_closer j (CloseEnter policy) c)
      | _ => None
      end
  | Shutdown j => closer_step j c
  end.

Definition one_step (c c' : config) : Prop := ∃ ch, step ch c = Some c'.
Definition reachable : config -> config -> Prop := rtc one_step.

(** [p] publishers, [w] workers and [s] callers of [shutdown] on a running
    dispatcher with queue [q]. *)
Definition start (q : Q) (p w s : nat) : config :=
  mk_config q running 0 0 0 (replicate p PubIdle) (replicate w WorkPop) (replicate s CloseIdle)
    [] [] 0 None.

Fixpoint run (sched : list choice) (c : config) : config :=
  match sched with
  | [] => c
  | ch :: sched => run sched (default c (step ch c))
  end.

(** ** The invariant *)

Definition in_hand (w : worker) : list E :=
  match w with WorkFill batch | WorkBroadcast batch => batch | _ => [] end.

(** A caller of [shutdown] that has won the lifecycle transition. *)
Definition active (s : closer) : Z :=
  match s with CloseQueue _ | CloseCount _ | CloseJoin | CloseFinish => 1 | _ => 0 end.

(** A success not yet counted. *)
Definition uncounted (p : publisher) : Z :=
  match p with PubCount success => 1 | _ => 0 end.

Definition stopping (l : lifecycle_state) : bool :=
  match l with drain_stopping | discard_stopping => true | _ => false end.

Context {HQ : QueueRefines E Q}.

Definition closer_ok (c : config) (cl : bool) (s : closer) : Prop :=
  match s with
  | CloseQueue p => winner c = Some p /\ dropped c = 0 /\ discarded c = 0
  | CloseCount n => winner c = Some discard /\ cl = true /\ dropped c = 0 /\ discarded c = n
  | CloseJoin => cl = true /\ dropped c = u64 (discarded c)
  | CloseFinish => cl = true /\ dropped c = u64 (discarded c) /\ forallb exited (workers c) = true
  | CloseDone => lifecycle c = lifecycle_stopped
  | _ => True
  end.

(** Every event pushed is delivered, in a worker's batch, queued or
    discarded; with one worker it is even in that order. *)
Definition located (c : config) (its : list E) : Prop :=
  ∃ di, zlength di = discarded c /\
    pushed c ≡ₚ delivered c ++ concat (in_hand <$> workers c) ++ its ++ di /\
    (length (workers c) = 1%nat ->
     pushed c = delivered c ++ concat (in_hand <$> workers c) ++ its ++ di).

Record inv_with (c : config) (b : bounded_fifo E) : Prop := mk_inv {
  inv_rep : q_rep (events c) b;
  inv_located : located c (items b);
  inv_one : sum_of active (closers c) = if stopping (lifecycle c) then 1 else 0;
  inv_closers : ∀ j s, closers c !! j = Some s -> closer_ok c (is_closed b) s;
  inv_winner : winner c = None <-> lifecycle c = running;
  inv_created : lifecycle c ≠ created;
  inv_drain : winner c ≠ Some discard -> discarded c = 0;
  inv_open : is_closed b = false -> discarded c = 0;
  inv_running : lifecycle c = running -> dropped c = 0 /\ discarded c = 0;
  inv_stopped : lifecycle c = lifecycle_stopped ->
    is_closed b = true /\ dropped c = u64 (discarded c) /\ forallb exited (workers c) = true;
  inv_exited : ∀ j, workers c !! j = Some WorkExit -> is_closed b = true /\ items b = [];
  inv_counted : eq64 (accepted c + sum_of uncounted (publishers c)) (zlength (pushed c));
}.

Definition inv (c : config) : Prop := ∃ b, inv_with c b.

(** What is left to do for workers and callers of [shutdown]. *)
Definition worker_weight (w : worker) : Z :=
  match w with
  | WorkPop => 1
  | WorkFill batch => 3 + zlength batch
  | WorkBroadcast batch => 2 + zlength batch
  | WorkExit => 0
  end.

Definition closer_weight (s : closer) : Z :=
  match s with
  | CloseEnter _ => 6 | CloseQueue _ => 5 | CloseCount _ => 4 | CloseJoin => 3
  | CloseFinish => 2 | CloseWait => 1 | CloseIdle | CloseDone => 0
  end.

Definition measure (c : config) (b : bounded_fifo E) : Z :=
  5 * zlength (items b) + sum_of worker_weight (workers c) + sum_of closer_weight (closers c).

(** The invariant holds again, with less to do. *)
Definition inv_less (c' : config) (n : Z) : Prop := ∃ b', inv_with c' b' /\ measure c' b' < n.

(** ** The queue operations *)

Lemma push_ok q b kind stop expired event :
  q_rep q b ->
  match push kind stop expired event (q, tt) with
  | Ret (Some success) (q', _) =>
      ∃ e, event = inr e /\ is_closed b = false /\
           q_rep q' (mk_fifo (items b ++ [e]) (bound b) false)
  | Ret _ (q', _) | Throw _ (q', _) => q_rep q' b
  | Stuck _ => False
  end.
Proof.
  intros Hr. set (fwd := fun u : unit => (event, u)).
  assert (Ht := q_try_push_refines fwd (q, tt) (b, tt) (conj Hr eq_refl)).
  assert (Hw := q_wait_push_refines stop fwd (q, tt) (b, tt) (conj Hr eq_refl)).
  assert (Hu := q_wait_push_until_refines stop expired fwd (q, tt) (b, tt) (conj Hr eq_refl)).
  unfold push, mbind, M_bind, mret, M_ret. fold fwd.
  destruct b as [its bd cl].
  destruct kind; [clear Hw Hu; rename Ht into H|clear Ht Hu; rename Hw into H
    |clear Ht Hw; rename Hu into H].
  all: unfold spec_try_push, spec_wait_push, spec_wait_push_until, spec_append in H; run_in H.
  all: destruct cl; [|destruct (is_full _); [|destruct event as [ex|e]]];
    try destruct stop; try destruct expired; cbn in H;
    destruct H as ([q' []] & -> & H & _); cbn in *; eauto.
Qed.

Lemma pop_ok q b :
  q_rep q b ->
  ∃ r q', q_try_pop q = Ret r q' /\
    match items b with
    | e :: rest => r = make_success e /\ q_rep q' (mk_fifo rest (bound b) (is_closed b))
    | [] => status_ r ≠ success /\ q_rep q' b
    end.
Proof.
  intros Hr. assert (H := q_try_pop_refines q b Hr). destruct b as [its bd cl].
  unfold spec_try_pop in H. run_in H. destruct its as [|e its]; [destruct cl|]; cbn in *;
    destruct H as (q' & -> & H); repeat eexists; eauto.
Qed.

Lemma wait_pop_ok q b :
  q_rep q b ->
  ∃ r q', q_wait_pop false q = Ret r q' /\
    match items b with
    | e :: rest => r = Some (make_success e) /\ q_rep q' (mk_fifo rest (bound b) (is_closed b))
    | [] => r = (if is_closed b then Some make_closed else None) /\ q_rep q' b
    end.
Proof.
  intros Hr. assert (H := q_wait_pop_refines false q b Hr). destruct b as [its bd cl].
  unfold spec_wait_pop in H. run_in H. destruct its as [|e its]; [destruct cl|]; cbn in *;
    destruct H as (q' & -> & H); repeat eexists; eauto.
Qed.

Lemma close_ok q b :
  q_rep q b -> ∃ q', q_close q = Ret tt q' /\ q_rep q' (mk_fifo (items b) (bound b) true).
Proof. intros Hr. apply (q_close_refines q b Hr). Qed.

Lemma discard_ok q b :
  q_rep q b ->
  ∃ q', q_close_and_discard q = Ret (zlength (items b)) q' /\ q_rep q' (mk_fifo [] (bound b) true).
Proof. intros Hr. apply (q_close_and_discard_refines q b Hr). Qed.

(** ** Preservation *)

Lemma others_inactive c b j s k s' :
  inv_with c b -> closers c !! j = Some s -> active s = 1 -> k ≠ j ->
  closers c !! k = Some s' -> active s' = 0.
Proof.
  intros Hi Hj Ha Hkj Hk.
  assert (Hs := sum_of_insert active _ _ _ CloseIdle Hj).
  assert (Hk' : <[j:=CloseIdle]> (closers c) !! k = Some s') by by rewrite list_lookup_insert_ne.
  assert (Hl := sum_of_lookup active _ _ _ (ltac:(by intros [])) Hk').
  rewrite (inv_one _ _ Hi), Ha in Hs. cbn in Hs.
  destruct (stopping _); destruct s'; cbn in *; lia.
Qed.

Lemma active_stopping c b j s :
  inv_with c b -> closers c !! j = Some s -> active s = 1 -> stopping (lifecycle c) = true.
Proof.
  intros Hi Hj Ha. assert (Hl := sum_of_lookup active _ _ _ (ltac:(by intros [])) Hj).
  rewrite (inv_one _ _ Hi) in Hl. destruct (stopping _); [done|lia].
Qed.

Lemma inactive_ok c c' cl cl' s :
  active s = 0 -> (lifecycle c = lifecycle_stopped -> lifecycle c' = lifecycle_stopped) ->
  closer_ok c cl s -> closer_ok c' cl' s.
Proof. by destruct s; cbn; auto. Qed.

(** Steps of publishers and workers leave the fields [closer_ok] reads. *)
Lemma closer_ok_frame c c' cl s :
  lifecycle c' = lifecycle c -> winner c' = winner c -> dropped c' = dropped c ->
  discarded c' = discarded c ->
  (forallb exited (workers c) = true -> forallb exited (workers c') = true) ->
  closer_ok c cl s -> closer_ok c' cl s.
Proof. intros Hl Hw Hd Hx He. destruct s; cbn; rewrite ?Hl, ?Hw, ?Hd, ?Hx; intuition auto. Qed.

(** Moving events between the queue, one worker's hands and the delivered
    ones keeps every event located. *)
Lemma located_move c c' its its' j w w' moved :
  workers c !! j = Some w -> workers c' = <[j:=w']> (workers c) ->
  pushed c' = pushed c -> discarded c' = discarded c -> delivered c' = delivered c ++ moved ->
  in_hand w ++ its = moved ++ in_hand w' ++ its' ->
  located c its -> located c' its'.
Proof.
  intros Hj Hw Hp Hd Hdel Hm (di & Hn & Hperm & Hseq).
  destruct (concat_split in_hand (workers c) j w Hj) as (A & B & Hins & Hold & Hone).
  exists di. rewrite Hw, Hp, Hd, Hdel, Hins. split_and!; [done| |].
  - rewrite Hperm, Hold.
    transitivity (delivered c ++ A ++ B ++ (in_hand w ++ its) ++ di); [solve_Permutation|].
    rewrite Hm. solve_Permutation.
  - rewrite length_insert. intros Hl. rewrite (Hseq Hl), Hold.
    destruct (Hone Hl) as [-> ->]. cbn. rewrite !app_nil_r.
    rewrite (app_assoc (in_hand w)), Hm. by rewrite <- !app_assoc.
Qed.

Lemma exited_lookup (ws : list worker) j w :
  forallb exited ws = true -> ws !! j = Some w -> w = WorkExit.
Proof.
  rewrite forallb_forall. intros Hf Hj. apply list_elem_of_lookup_2, list_elem_of_In, Hf in Hj.
  by destruct w.
Qed.

(** What a worker step owes the invariant: it moved events, and exits only
    from a closed, empty queue. *)
Lemma worker_inv c c' b b' j w w' moved :
  inv_with c b -> workers c !! j = Some w -> w ≠ WorkExit ->
  workers c' = <[j:=w']> (workers c) ->
  lifecycle c' = lifecycle c -> accepted c' = accepted c -> dropped c' = dropped c ->
  publishers c' = publishers c -> closers c' = closers c -> pushed c' = pushed c ->
  discarded c' = discarded c -> winner c' = winner c ->
  delivered c' = delivered c ++ moved ->
  in_hand w ++ items b = moved ++ in_hand w' ++ items b' ->
  is_closed b' = is_closed b -> (items b = [] -> items b' = []) ->
  (w' = WorkExit -> is_closed b = true /\ items b' = []) ->
  5 * zlength (items b') + worker_weight w' < 5 * zlength (items b) + worker_weight w ->
  q_rep (events c') b' -> inv_less c' (measure c b).
Proof.
  intros Hi Hj Hne Hw Hl Ha Hd Hp Hc Hpu Hdi Hwi Hdel Hm Hcl Hits Hx Hlt Hr.
  exists b'. split; [|unfold measure; rewrite Hw, Hc, (sum_of_insert _ _ _ _ _ Hj); lia].
  assert (Hnot : forallb exited (workers c) = true -> False)
    by (intros Hf; by apply (exited_lookup _ j w) in Hf).
  split; rewrite ?Hl, ?Ha, ?Hd, ?Hp, ?Hc, ?Hpu, ?Hdi, ?Hwi, ?Hcl; try apply Hi; try done.
  - by apply (located_move c c' (items b) (items b') j w w' moved), Hi.
  - intros k s Hk. eapply closer_ok_frame; [done..| |by apply (inv_closers _ _ Hi k)].
    intros Hf. by destruct (Hnot Hf).
  - intros Hs. destruct (inv_stopped _ _ Hi Hs) as (_ & _ & Hf). by destruct (Hnot Hf).
  - intros k. rewrite Hw. destruct (decide (k = j)) as [->|Hkj].
    + rewrite list_lookup_insert_eq by by apply lookup_lt_Some in Hj. intros [= ->]. by apply Hx.
    + rewrite list_lookup_insert_ne by done. intros Hk.
      destruct (inv_exited _ _ Hi k Hk). auto.
Qed.

Lemma worker_step_inv j c c' b :
  inv_with c b -> worker_step j c = Some c' -> inv_less c' (measure c b).
Proof.
  intros Hi Hs. unfold worker_step in Hs.
  destruct (workers c !! j) as [w|] eqn:Hj; [|done].
  destruct w as [|batch|[|e batch]|]; [..|done].
  - destruct (wait_pop_ok _ _ (inv_rep _ _ Hi)) as (r & q' & Hq & Hrest). rewrite Hq in Hs.
    destruct (items b) as [|e its] eqn:Hits; destruct Hrest as [-> Hr].
    + destruct (is_closed b) eqn:Hcl; [|done]. injection Hs as <-.
      apply (worker_inv c _ b b j WorkPop WorkExit []); rewrite ?app_nil_r; try done. cbn. lia.
    + injection Hs as <-.
      apply (worker_inv c _ b (mk_fifo its (bound b) (is_closed b)) j WorkPop (WorkFill [e]) []);
        rewrite ?app_nil_r, ?Hits; try done. cbn. zlen.
  - destruct (_ <? _).
    + destruct (pop_ok _ _ (inv_rep _ _ Hi)) as (r & q' & Hq & Hrest). rewrite Hq in Hs.
      destruct (items b) as [|e its] eqn:Hits.
      * destruct Hrest as [Hne Hr].
        assert (Hc' : c' = with_worker j (WorkBroadcast batch) (with_events q' c))
          by (destruct r as [[] []]; cbn in *; congruence).
        subst c'. apply (worker_inv c _ b b j (WorkFill batch) (WorkBroadcast batch) []);
          rewrite ?app_nil_r; try done. cbn. lia.
      * destruct Hrest as [-> Hr]. injection Hs as <-.
        apply (worker_inv c _ b (mk_fifo its (bound b) (is_closed b)) j
                 (WorkFill batch) (WorkFill (batch ++ [e])) []);
          rewrite ?app_nil_r, ?Hits; try done; cbn; [by rewrite <- ?app_assoc|zlen].
    + injection Hs as <-.
      apply (worker_inv c _ b b j (WorkFill batch) (WorkBroadcast batch) []);
        rewrite ?app_nil_r; try done; try apply Hi. cbn. lia.
  - injection Hs as <-.
    apply (worker_inv c _ b b j (WorkBroadcast []) WorkPop []); rewrite ?app_nil_r; try done;
      try apply Hi. cbn. zlen.
  - injection Hs as <-.
    apply (worker_inv c _ b b j (WorkBroadcast (e :: batch)) (WorkBroadcast batch) [e]);
      try done; try apply Hi. cbn. zlen.
Qed.

(** What a publisher step owes the invariant: it appends what it pushed to
    an open queue, and keeps the count of successes. *)
Lemma publisher_inv c c' b b' new :
  inv_with c b ->
  workers c' = workers c -> lifecycle c' = lifecycle c -> dropped c' = dropped c ->
  closers c' = closers c -> discarded c' = discarded c -> winner c' = winner c ->
  delivered c' = delivered c -> pushed c' = pushed c ++ new -> items b' = items b ++ new ->
  is_closed b' = is_closed b -> (new = [] \/ is_closed b = false) ->
  eq64 (accepted c' + sum_of uncounted (publishers c'))
       (accepted c + sum_of uncounted (publishers c) + zlength new) ->
  q_rep (events c') b' -> inv_with c' b'.
Proof.
  intros Hi Hw Hl Hd Hc Hdi Hwi Hdel Hpu Hits Hcl Hopen Hacc Hr.
  split; rewrite ?Hw, ?Hl, ?Hd, ?Hc, ?Hdi, ?Hwi, ?Hcl; try apply Hi; try done.
  - destruct (inv_located _ _ Hi) as (di & Hn & Hperm & Hseq). exists di.
    rewrite Hw, Hdi, Hdel, Hpu, Hits. split_and!; [done| |].
    + rewrite Hperm. solve_Permutation.
    + intros H1. rewrite (Hseq H1). destruct Hopen as [->|Hopen]; [by rewrite !app_nil_r|].
      destruct di as [|d di]; [by rewrite !app_nil_r, <- !app_assoc|exfalso].
      assert (Hx := inv_open _ _ Hi Hopen). rewrite Hx in Hn.
      assert (Hz := zlength_nonneg di). zlen.
  - intros k s Hk. eapply closer_ok_frame; [done..| |by apply (inv_closers _ _ Hi k)].
    by rewrite Hw.
  - intros k Hk. destruct (inv_exited _ _ Hi k Hk) as [Hcb Hib].
    destruct Hopen as [->|Hopen]; [|congruence]. by rewrite Hits, Hib.
  - rewrite Hacc, Hpu, zlength_app, (inv_counted _ _ Hi). done.
Qed.
Lemma uncounted_insert c j p p' :
  publishers c !! j = Some p ->
  sum_of uncounted (<[j:=p']> (publishers c)) =
    sum_of uncounted (publishers c) - uncounted p + uncounted p'.
Proof. apply sum_of_insert. Qed.

Lemma publisher_step_inv j stop expired c c' :
  inv c -> publisher_step j stop expired c = Some c' -> inv c'.
Proof.
  intros [b Hi] Hs. unfold publisher_step in Hs.
  destruct (publishers c !! j) as [p|] eqn:Hj; [|done].
  assert (Hu := fun p' => uncounted_insert c j p p' Hj).
  destruct p as [|kind e|kind e|st]; [done|..].
  - destruct (bool_decide _); injection Hs as <-; exists b;
      eapply (publisher_inv c _ b b []); rewrite ?app_nil_r; try apply Hi; try done; auto; cbn;
      rewrite Hu; cbn; f_equal; zlen.
  - assert (Hp := push_ok (events c) b kind stop expired e (inv_rep _ _ Hi)).
    destruct (push _ _ _ _ _) as [[st|] [q' u]|ex [q' u]|f]; [|injection Hs as <-..|done].
    + destruct (decide (st = success)) as [->|Hne].
      * destruct Hp as (v & -> & Hcl & Hr). injection Hs as <-.
        exists (mk_fifo (items b ++ [v]) (bound b) false).
        eapply (publisher_inv c _ b _ [v]); try done; auto. cbn. rewrite Hu. cbn. f_equal. zlen.
      * assert (Hc' : c' = with_publisher j (PubCount st) (with_events q' c)) by (destruct st; congruence).
        assert (Hr : q_rep q' b) by by destruct st.
        subst c'. exists b. eapply (publisher_inv c _ b b []); rewrite ?app_nil_r; try done; auto.
        cbn. rewrite Hu. destruct st; try done; cbn; f_equal; zlen.
    + exists b. eapply (publisher_inv c _ b b []); rewrite ?app_nil_r; try done; auto. cbn. f_equal. zlen.
    + exists b. eapply (publisher_inv c _ b b []); rewrite ?app_nil_r; try done; auto.
      cbn. rewrite Hu. cbn. f_equal. zlen.
  - injection Hs as <-. exists b. assert (Hr := inv_rep _ _ Hi).
    destruct (bool_decide_reflect (st = success)) as [->|Hne];
      eapply (publisher_inv c _ b b []); rewrite ?app_nil_r; try done; auto; cbn; rewrite Hu.
    + rewrite eq64_u64. cbn. unfold eq64. f_equal. zlen.
    + assert (Hn : uncounted (PubCount st) = 0) by by destruct st.
      rewrite Hn. cbn. f_equal. zlen.
Qed.
Lemma closers_update c c' b cl j s s' :
  inv_with c b -> closers c !! j = Some s -> closers c' = <[j:=s']> (closers c) ->
  (∀ k t, k ≠ j -> closers c !! k = Some t -> closer_ok c (is_closed b) t -> closer_ok c' cl t) ->
  closer_ok c' cl s' -> ∀ k t, closers c' !! k = Some t -> closer_ok c' cl t.
Proof.
  intros Hi Hj -> Ho Hs' k t. destruct (decide (k = j)) as [->|Hkj].
  - rewrite list_lookup_insert_eq by by apply lookup_lt_Some in Hj. by intros [= ->].
  - rewrite list_lookup_insert_ne by done. intros Hk. apply (Ho k); [done..|].
    by apply (inv_closers _ _ Hi k).
Qed.

Lemma passive_inv c b j s s' :
  inv_with c b -> closers c !! j = Some s -> active s = active s' ->
  closer_ok c (is_closed b) s' -> inv_with (with_closer j s' c) b.
Proof.
  intros Hi Hj Ha Hs'. split; try apply Hi.
  - cbn. rewrite (sum_of_insert active _ _ _ _ Hj), (inv_one _ _ Hi). lia.
  - apply (closers_update c _ b _ j s s'); try done.
Qed.

Lemma passive_less c b j s s' :
  inv_with c b -> closers c !! j = Some s -> active s = active s' ->
  closer_ok c (is_closed b) s' -> closer_weight s' < closer_weight s ->
  inv_less (with_closer j s' c) (measure c b).
Proof.
  intros Hi Hj Ha Hs' Hw. exists b. split; [by apply (passive_inv c b j s)|].
  unfold measure. cbn. rewrite (sum_of_insert closer_weight _ _ _ _ Hj). lia.
Qed.

(** A step of the one active caller: the others are inactive, and what it
    writes is checked field by field. *)
Lemma active_inv c c' b b' j s s' :
  inv_with c b -> closers c !! j = Some s -> active s = 1 ->
  closers c' = <[j:=s']> (closers c) -> active s' = (if stopping (lifecycle c') then 1 else 0) ->
  lifecycle c' ≠ running -> lifecycle c' ≠ created -> winner c' = winner c ->
  workers c' = workers c -> publishers c' = publishers c -> accepted c' = accepted c ->
  pushed c' = pushed c -> is_closed b' = true ->
  closer_ok c' true s' -> located c' (items b') ->
  (items b = [] -> items b' = []) -> (winner c ≠ Some discard -> discarded c' = discarded c) ->
  (lifecycle c' = lifecycle_stopped ->
   dropped c' = u64 (discarded c') /\ forallb exited (workers c) = true) ->
  closer_weight s' < closer_weight s -> zlength (items b') <= zlength (items b) ->
  q_rep (events c') b' -> inv_less c' (measure c b).
Proof.
  intros Hi Hj Ha Hc Ha' Hnr Hnc Hwi Hw Hp Hacc Hpu Hcl Hok Hloc Hits Hd Hst Hlt Hle Hr.
  exists b'. split; [|unfold measure; rewrite Hw, Hc, (sum_of_insert closer_weight _ _ _ _ Hj); lia].
  assert (Hstop := active_stopping c b j s Hi Hj Ha).
  split; rewrite ?Hw, ?Hp, ?Hacc, ?Hpu, ?Hwi, ?Hcl; try apply Hi; try done.
  - rewrite Hc, (sum_of_insert active _ _ _ _ Hj), (inv_one _ _ Hi), Hstop, Ha'. lia.
  - apply (closers_update c c' b true j s s'); try done. intros k t Hk Ht.
    apply inactive_ok; [by apply (others_inactive c b j s k)|].
    intros Hx. by rewrite Hx in Hstop.
  - split; [|done]. intros Hn. by rewrite (proj1 (inv_winner _ _ Hi) Hn) in Hstop.
  - intros Hn. rewrite (Hd Hn). by apply (inv_drain _ _ Hi).
  - intros Hs. by destruct (Hst Hs).
  - intros k Hk. destruct (inv_exited _ _ Hi k Hk). auto.
Qed.

Lemma enter_inv j c b p :
  inv_with c b -> closers c !! j = Some (CloseEnter p) -> lifecycle c = running ->
  inv_less (with_closer j (CloseQueue p)
    (with_lifecycle (match p with drain => drain_stopping | discard => discard_stopping end) (Some p) c))
    (measure c b).
Proof.
  intros Hi Hj Hl. exists b. destruct (inv_running _ _ Hi Hl) as [Hd Hx].
  split; [|unfold measure; cbn; rewrite (sum_of_insert closer_weight _ _ _ _ Hj); cbn; lia].
  assert (Hone := inv_one _ _ Hi). rewrite Hl in Hone.
  split; try apply Hi; try by destruct p.
  - cbn. rewrite (sum_of_insert active _ _ _ _ Hj), Hone. by destruct p.
  - apply (closers_update c _ b _ j _ (CloseQueue p) Hi Hj); try done. intros k t Hk Ht.
    apply inactive_ok; [|by rewrite Hl].
    assert (Hle := sum_of_lookup active _ _ _ (ltac:(by intros [])) Ht). destruct t; cbn in *; lia.
Qed.

Lemma close_inv j c c' b p :
  inv_with c b -> closers c !! j = Some (CloseQueue p) -> closer_step j c = Some c' ->
  inv_less c' (measure c b).
Proof.
  intros Hi Hj Hs. assert (Hstop := active_stopping c b j _ Hi Hj eq_refl).
  destruct (inv_closers _ _ Hi j _ Hj) as (Hwin & Hd & Hx).
  unfold closer_step in Hs. rewrite Hj in Hs. assert (Hnn := zlength_nonneg (items b)). destruct p.
  - destruct (close_ok _ _ (inv_rep _ _ Hi)) as (q' & Hq & Hr). rewrite Hq in Hs.
    injection Hs as <-.
    apply (active_inv c _ b (mk_fifo (items b) (bound b) true) j (CloseQueue drain) CloseJoin Hi Hj);
      try done; try apply Hi; cbn; try by destruct (lifecycle c).
    by rewrite Hd, Hx.
  - destruct (discard_ok _ _ (inv_rep _ _ Hi)) as (q' & Hq & Hr). rewrite Hq in Hs.
    injection Hs as <-.
    apply (active_inv c _ b (mk_fifo [] (bound b) true) j (CloseQueue discard)
             (CloseCount (zlength (items b))) Hi Hj);
      try done; cbn; try by destruct (lifecycle c).
    + rewrite Hx. split_and!; try done; lia.
    + destruct (inv_located _ _ Hi) as (di & Hn & Hperm & Hseq).
      exists (items b ++ di). cbn. split_and!; [zlen|done|done].
Qed.

Lemma closer_step_inv j c c' b :
  inv_with c b -> closer_step j c = Some c' -> inv_less c' (measure c b).
Proof.
  intros Hi Hs. assert (Hs' := Hs). unfold closer_step in Hs.
  destruct (closers c !! j) as [s|] eqn:Hj; [|done].
  assert (Hok := inv_closers _ _ Hi j s Hj).
  destruct s as [|p| |p|n| | |]; [done|..|done].
  - destruct (lifecycle c) eqn:Hl; [by destruct (inv_created _ _ Hi)| |injection Hs as <-..].
    + injection Hs as <-. by apply enter_inv.
    + by apply (passive_less c b j (CloseEnter p)).
    + by apply (passive_less c b j (CloseEnter p)).
    + by apply (passive_less c b j (CloseEnter p)).
  - destruct (bool_decide_reflect (lifecycle c = lifecycle_stopped)); [|done].
    injection Hs as <-. by apply (passive_less c b j CloseWait).
  - by apply (close_inv j c c' b p).
  - assert (Hstop := active_stopping c b j _ Hi Hj eq_refl).
    destruct Hok as (Hwin & Hcl & Hd & Hx). injection Hs as <-.
    apply (active_inv c _ b b j (CloseCount n) CloseJoin Hi Hj); try done; try apply Hi; cbn;
      try by destruct (lifecycle c).
    by rewrite Hd, Hx.
  - destruct (forallb exited (workers c)) eqn:He; [|done]. injection Hs as <-.
    destruct Hok. by apply (passive_less c b j CloseJoin).
  - destruct Hok as (Hcl & Hd & Hx). injection Hs as <-.
    apply (active_inv c _ b b j CloseFinish CloseDone Hi Hj); try done; try apply Hi.
Qed.

Lemma less_inv c n : inv_less c n -> inv c.
Proof. intros (b & Hb & _). by exists b. Qed.

Lemma step_inv ch c c' : inv c -> step ch c = Some c' -> inv c'.
Proof.
  intros Hi Hs. destruct ch as [j kind e|j stop expired|j|j p|j]; cbn in Hs.
  - destruct (publishers c !! j) as [[]|] eqn:Hj; try done. injection Hs as <-.
    destruct Hi as [b Hi]. exists b. assert (Hr := inv_rep _ _ Hi).
    eapply (publisher_inv c _ b b []); rewrite ?app_nil_r; try done; auto.
    cbn. rewrite (uncounted_insert _ _ _ _ Hj). cbn. f_equal. zlen.
  - by eapply publisher_step_inv.
  - destruct Hi as [b Hi]. by eapply less_inv, worker_step_inv.
  - destruct (closers c !! j) as [[]|] eqn:Hj; try done. injection Hs as <-.
    destruct Hi as [b Hi]. exists b. by eapply passive_inv.
  - destruct Hi as [b Hi]. by eapply less_inv, closer_step_inv.
Qed.

Lemma start_inv q bd p w s : q_rep q (mk_fifo [] bd false) -> inv (start q p w s).
Proof.
  intros Hr. exists (mk_fifo [] bd false). split; cbn; try done.
  - exists []. cbn. rewrite app_nil_r. assert (Hn : concat (in_hand <$> replicate w WorkPop) = [])
      by (induction w; cbn in *; auto).
    by rewrite Hn.
  - induction s; [done|]. cbn. by rewrite sum_of_cons, IHs.
  - intros j t [-> _]%lookup_replicate. done.
  - by intros j [? _]%lookup_replicate.
  - f_equal. cbn. induction p; [done|]. cbn. by rewrite sum_of_cons.
Qed.

Lemma reachable_inv q bd p w s c :
  q_rep q (mk_fifo [] bd false) -> reachable (start q p w s) c -> inv c.
Proof.
  intros Hr. apply rtc_invariant; [|by eapply start_inv]. intros a b Ha [ch Hs]. by eapply step_inv.
Qed.
(** ** Shutdown terminates *)







Lemma winner_step ch c c' p :
  inv c -> step ch c = Some c' -> winner c = Some p -> winner c' = Some p.
Proof.
  intros [b Hi] Hs Hw. destruct ch as [j kind e|j stop expired|j|j p'|j]; cbn in Hs;
    unfold publisher_step, worker_step, closer_step in Hs; repeat case_match; simplify_eq/=; try done.
  all: try (by destruct (inv_created _ _ Hi)).
  all: assert (winner c = None) by (by apply (inv_winner _ _ Hi)); congruence.
Qed.
Lemma run_reachable sched c : reachable c (run sched c).
Proof.
  revert c. induction sched as [|ch sched IH]; intros c; [apply rtc_refl|]. cbn.
  destruct (step ch c) as [c'|] eqn:Hs; [|apply IH]. eapply rtc_l; [by exists ch|apply IH].
Qed.

Lemma reachable_trans c1 c2 c3 : reachable c1 c2 -> reachable c2 c3 -> reachable c1 c3.
Proof. unfold reachable. by etrans. Qed.

Lemma winner_stays c c' p : inv c -> reachable c c' -> winner c = Some p -> winner c' = Some p.
Proof.
  intros Hi Hr. induction Hr as [|c1 c2 c3 [ch Hs] _ IH]; [done|]. intros Hw.
  apply IH; [by eapply step_inv|by eapply winner_step].
Qed.

Lemma pool_size_step ch c c' : step ch c = Some c' -> length (workers c') = length (workers c).
Proof.
  destruct ch; cbn; unfold publisher_step, worker_step, closer_step; intros Hs;
    repeat case_match; simplify_eq/=; try done; by rewrite length_insert.
Qed.

Lemma pool_size q p w s c : reachable (start q p w s) c -> length (workers c) = w.
Proof.
  apply (rtc_invariant _ (fun c => length (workers c) = w)); [|apply length_replicate].
  intros c1 c2 <- [ch Hs]. by eapply pool_size_step.
Qed.

Lemma hands_empty (ws : list worker) : forallb exited ws = true -> concat (in_hand <$> ws) = [].
Proof. induction ws as [|[] ws IH]; cbn; auto; done. Qed.

Section reached.
Context (q : Q) (bd : Z) (p w s : nat) (Hq : q_rep q (mk_fifo [] bd false)) (Hw : (1 <= w)%nat).

(** A stopped dispatcher, spelled out. *)
Lemma stopped_spec c :
  reachable (start q p w s) c -> lifecycle c = lifecycle_stopped ->
  forallb exited (workers c) = true /\ sum_of active (closers c) = 0 /\
  (∃ b, q_rep (events c) b /\ items b = [] /\ is_closed b = true) /\
  (∃ di, zlength di = discarded c /\ pushed c ≡ₚ delivered c ++ di) /\
  dropped c = u64 (discarded c) /\ (winner c ≠ Some discard -> discarded c = 0).
Proof.
  intros Hr Hl. assert (Hlen := pool_size _ _ _ _ _ Hr).
  destruct (reachable_inv _ _ _ _ _ _ Hq Hr) as [b Hi].
  destruct (inv_stopped _ _ Hi Hl) as (Hcl & Hd & He).
  assert (Hone := inv_one _ _ Hi). rewrite Hl in Hone.
  destruct (lookup_lt_is_Some_2 (workers c) 0) as [wk H0]; [lia|].
  assert (wk = WorkExit) as -> by by eapply exited_lookup.
  destruct (inv_exited _ _ Hi _ H0) as [_ Hits].
  split_and!; try done; try apply Hi.
  - exists b. split_and!; try done. apply Hi.
  - destruct (inv_located _ _ Hi) as (di & Hn & Hp & _). exists di.
    rewrite Hits, (hands_empty _ He) in Hp. done.
Qed.

(** C1: when any caller of [shutdown] has returned, the dispatcher is
    stopped, every worker has exited, no other caller is still closing, the
    queue is closed and empty, and every event that was ever pushed was
    delivered exactly once, all of them after a draining shutdown, all but
    the counted dropped ones after a discarding shutdown. *)
Theorem returned_shutdown_is_complete c j :
  reachable (start q p w s) c -> closers c !! j = Some CloseDone ->
  lifecycle c = lifecycle_stopped /\
  Forall (fun wk => wk = WorkExit) (workers c) /\
  Forall (fun cl => active cl = 0) (closers c) /\
  (∃ b, q_rep (events c) b /\ items b = [] /\ is_closed b = true) /\
  (winner c = Some drain -> delivered c ≡ₚ pushed c /\ dropped c = 0) /\
  (∃ di, delivered c ++ di ≡ₚ pushed c /\ dropped c = u64 (zlength di)).
Proof.
  intros Hr Hj. destruct (reachable_inv _ _ _ _ _ _ Hq Hr) as [b Hi].
  assert (Hl := inv_closers _ _ Hi j _ Hj). cbn in Hl.
  destruct (stopped_spec c Hr Hl) as (He & Ha & Hb & (di & Hn & Hp) & Hd & Hx).
  split_and!; try done.
  - apply Forall_lookup. intros i wk. by apply exited_lookup.
  - apply Forall_lookup. intros k cl Hk.
    assert (Hle := sum_of_lookup active _ _ _ (ltac:(by intros [])) Hk). destruct cl; cbn in *; lia.
  - intros Hwin. rewrite Hx in Hn, Hd by congruence. split; [|done].
    destruct di; [by rewrite Hp, app_nil_r|zlen]. assert (Hz := zlength_nonneg di). lia.
  - exists di. by rewrite Hn.
Qed.

(** The first caller's policy governs: once a policy has won, no later
    step changes it, publications stay refused, and at no time do two
    callers close the queue. *)
Theorem first_shutdown_wins c c' policy :
  reachable (start q p w s) c -> reachable c c' -> winner c = Some policy ->
  winner c' = Some policy /\ lifecycle c' ≠ running /\
  (∀ j k t u, j ≠ k -> closers c' !! j = Some t -> closers c' !! k = Some u ->
   active t = 1 -> active u = 0).
Proof.
  intros Hr Hr' Hwin. assert (Hi := reachable_inv _ _ _ _ _ _ Hq Hr).
  assert (Hw' := winner_stays _ _ _ Hi Hr' Hwin).
  destruct (reachable_inv _ _ _ _ _ _ Hq (reachable_trans _ _ _ Hr Hr')) as [b Hb].
  split_and!; [done| |].
  - intros Hl. apply (inv_winner _ _ Hb) in Hl. congruence.
  - intros j k t u Hjk Hj Hk Ht. by eapply (others_inactive c' b j t k u); try done; auto.
Qed.

(** With one worker, events reach the subscribers in the order the
    queue accepted them, none skipped or repeated, until a discarding
    shutdown drops the rest. *)
Theorem one_worker_keeps_order c :
  w = 1%nat -> reachable (start q p w s) c -> delivered c `prefix_of` pushed c.
Proof.
  intros H1 Hr. destruct (reachable_inv _ _ _ _ _ _ Hq Hr) as [b Hi].
  destruct (inv_located _ _ Hi) as (di & _ & _ & Hseq).
  rewrite (pool_size _ _ _ _ _ Hr) in Hseq. rewrite (Hseq H1). by eexists.
Qed.

(** At any moment, whatever the interleaving, the accepted counter plus
    the successes not yet counted is the number of events delivered, in a
    worker's batch, queued or discarded, modulo the counter's width. *)
Theorem accepted_events_are_accounted_for c :
  reachable (start q p w s) c ->
  ∃ b, q_rep (events c) b /\
    eq64 (accepted c + sum_of uncounted (publishers c))
      (zlength (delivered c) + zlength (concat (in_hand <$> workers c)) +
       zlength (items b) + discarded c).
Proof.
  clear Hw. intros Hr. destruct (reachable_inv _ _ _ _ _ _ Hq Hr) as [b Hi]. exists b.
  split; [apply Hi|]. rewrite (inv_counted _ _ Hi).
  destruct (inv_located _ _ Hi) as (di & <- & Hp & _). unfold zlength at 1.
  rewrite Hp, !length_app. unfold zlength, eq64. f_equal. lia.
Qed.


End reached.
End threads.
Arguments publisher : clear implicits.
Arguments worker : clear implicits.
Arguments config : clear implicits.
Arguments choice : clear implicits.

(** ** Two runs on a mutex queue of two slots *)

Definition two_slots : MutexQueue.queue Z := MutexQueue.mk_queue [None; None] 0 0 0 false.

Lemma two_slots_fresh : q_rep two_slots (mk_fifo [] 2 false).
Proof. by apply (MutexQueue.mutex_make_rep 2). Qed.

Definition publish_one (e : Z) : list (choice Z) :=
  [StartPublish 0 KindTry (inr e); Publish 0 false false; Publish 0 false false;
   Publish 0 false false].

Definition begin_shutdown (policy : shutdown_policy) : list (choice Z) :=
  [StartShutdown 0 policy; Shutdown 0; StartShutdown 1 drain; Shutdown 1].

(** Two events are published, two callers shut down: the worker delivers one
    event before the first caller closes the queue. *)
Definition until_closing (policy : shutdown_policy) : list (choice Z) :=
  publish_one 7 ++ publish_one 8 ++ [Work 0; Work 0; Work 0] ++ begin_shutdown policy.

Definition until_closed : list (choice Z) :=
  [Shutdown 0; Shutdown 0] ++ replicate 6 (Work 0) ++ [Shutdown 0; Shutdown 0; Shutdown 0; Shutdown 1].

Definition closing (policy : shutdown_policy) : config Z (MutexQueue.queue Z) :=
  run 1 (until_closing policy) (start two_slots 1 1 2).

Definition closed_down (policy : shutdown_policy) : config Z (MutexQueue.queue Z) :=
  run 1 until_closed (closing policy).

Lemma closing_reachable policy : reachable 1 (start two_slots 1 1 2) (closing policy).
Proof. exact (run_reachable 1 (until_closing policy) (start two_slots 1 1 2)). Qed.

Lemma shutting_down policy : reachable 1 (closing policy) (closed_down policy).
Proof. exact (run_reachable 1 until_closed (closing policy)). Qed.

Lemma closed_down_reachable policy : reachable 1 (start two_slots 1 1 2) (closed_down policy).
Proof. exact (reachable_trans 1 _ _ _ (closing_reachable policy) (shutting_down policy)). Qed.

Lemma returned_shutdown_is_complete_witness :
  (closers (closed_down drain) !! 1%nat = Some CloseDone /\
   delivered (closed_down drain) ≡ₚ pushed (closed_down drain) /\
   pushed (closed_down drain) = [7; 8]) /\
  (delivered (closed_down discard) = [7] /\
   ∃ di, delivered (closed_down discard) ++ di ≡ₚ pushed (closed_down discard) /\
         dropped (closed_down discard) = u64 (zlength di)).
Proof.
  destruct (returned_shutdown_is_complete 1 two_slots 2 1 1 2 two_slots_fresh (le_n 1) _ 1
    (closed_down_reachable drain) eq_refl) as (_ & _ & _ & _ & Hd & _).
  destruct (returned_shutdown_is_complete 1 two_slots 2 1 1 2 two_slots_fresh (le_n 1) _ 1
    (closed_down_reachable discard) eq_refl) as (_ & _ & _ & _ & _ & Hx).
  split; [split; [reflexivity|split; [by apply Hd|reflexivity]]|split; [reflexivity|exact Hx]].
Defined.

Lemma first_shutdown_wins_witness :
  winner (closing discard) = Some discard /\ winner (closed_down discard) = Some discard.
Proof.
  split; [reflexivity|].
  exact (proj1 (first_shutdown_wins 1 two_slots 2 1 1 2 two_slots_fresh (closing discard) _ discard
    (closing_reachable discard) (shutting_down discard) eq_refl)).
Defined.

Lemma one_worker_keeps_order_witness :
  delivered (closing drain) = [7] /\ delivered (closing drain) `prefix_of` pushed (closing drain).
Proof.
  split; [reflexivity|].
  by apply (one_worker_keeps_order 1 two_slots 2 1 1 2 two_slots_fresh), closing_reachable.
Defined.

Lemma accepted_events_are_accounted_for_witness :
  accepted (closing drain) = 2 /\
  ∃ b, q_rep (events (closing drain)) b /\
    eq64 (2 + 0) (1 + zlength (concat (in_hand <$> workers (closing drain))) + zlength (items b) + 0).
Proof.
  split; [reflexivity|].
  exact (accepted_events_are_accounted_for 1 two_slots 2 1 1 2 two_slots_fresh (closing drain)
    (closing_reachable drain)).
Defined.


End DispatcherConc.
