(* ===== verification/DispatcherLockFree.v ===== *)
(** * A dispatcher on the lock-free queue

    [DispatcherConc] runs the dispatcher over queues whose operations are
    atomic. Here each thread of the dispatcher runs its queue calls on the
    threads of [LockFreeConc], step by step: thread [j] of the one is thread
    [j] of the other. Publishers may be given a token that is stopped; the
    token of a worker is not (the pool stops it only after [shutdown] has
    joined it). Delivering an event is one step, as in [DispatcherConc].

    As in [LockFreeConc] a dequeue may find nothing although an event is
    published when there are more threads than slots. What needs a queue that
    was found empty to be empty is stated for no more threads than slots. *)

From S2P Require Import Prelude Types QueueSpec IndexRing LockFreeQueue LockFreeConc LockFreeWait LockFreeStop LockFreeCalls.
Import PopResult LockFreeCalls.
Local Open Scope Z_scope.

Module DispatcherLockFree.

Section threads.
Context {E : Type} (batch_size : Z).
Abbreviation push_kind := LockFreeConc.push_kind.
Abbreviation pc := (LockFreeConc.pc E).

(** Where a thread is in [publish_with], in [run] and [broadcast_batch], or in
    [shutdown]; at a [Return] it is inside a call of the queue. *)
Inductive role : Type :=
  | PubIdle
  | PubCheck (kind : push_kind) (event : exn + E)
  | PubCall (kind : push_kind) (event : exn + E)
  | PubReturn
  | PubCount (st : queue_status)
  | WorkPop
  | WorkReturn
  | WorkFill (batch : list E)
  | WorkFillReturn (batch : list E)
  | WorkBroadcast (batch : list E)
  | WorkExit
  | ShutIdle
  | ShutEnter (policy : shutdown_policy)
  | ShutWait
  | ShutQueue (policy : shutdown_policy)
  | ShutReturn (policy : shutdown_policy)
  | ShutCount (discarded : Z)
  | ShutJoin
  | ShutFinish
  | ShutDone.

Record config : Type := mk_config {
  events : LockFreeConc.config E;
  roles : list role;
  lifecycle : lifecycle_state;
  accepted : Z;
  rejected : Z;
  dropped : Z;
  (* handed to the subscribers; the policy of the shutdown that came first *)
  delivered : list E;
  winner : option shutdown_policy;
}.

Inductive choice : Type :=
  | StartPublish (j : nat) (kind : push_kind) (event : exn + E)
  | StartShutdown (j : nat) (policy : shutdown_policy)
  | Run (j : nat)
  | Queue (ch : LockFreeConc.choice E).

Definition with_events (q : LockFreeConc.config E) (c : config) : config :=
  mk_config q (roles c) (lifecycle c) (accepted c) (rejected c) (dropped c) (delivered c) (winner c).
Definition with_roles (rs : list role) (c : config) : config :=
  mk_config (events c) rs (lifecycle c) (accepted c) (rejected c) (dropped c) (delivered c) (winner c).
Definition with_lifecycle (l : lifecycle_state) (w : option shutdown_policy) (c : config) : config :=
  mk_config (events c) (roles c) l (accepted c) (rejected c) (dropped c) (delivered c) w.
Definition with_counts (acc rej dro : Z) (c : config) : config :=
  mk_config (events c) (roles c) (lifecycle c) acc rej dro (delivered c) (winner c).
Definition with_delivered (de : list E) (c : config) : config :=
  mk_config (events c) (roles c) (lifecycle c) (accepted c) (rejected c) (dropped c) de (winner c).
Definition goto (j : nat) (r : role) (c : config) : config := with_roles (<[j := r]> (roles c)) c.

(** What the queue call of thread [j] has returned. *)
Definition returned (j : nat) (c : config) : option (LockFreeConc.outcome E) :=
  match LockFreeConc.threads (events c) !! j with
  | Some (LockFreeConc.Finished o) => Some o
  | _ => None
  end.

Definition call_queue (j : nat) (ch : LockFreeConc.choice E) (r : role) (c : config) : option config :=
  (fun q => goto j r (with_events q c)) <$> LockFreeConc.step ch (events c).

(** [publish_with]: the early test, the queue operation, the counter. *)
Definition publisher_step (j : nat) (r : role) (c : config) : option config :=
  match r with
  | PubCheck kind event =>
      if bool_decide (lifecycle c = running) then Some (goto j (PubCall kind event) c)
      else Some (goto j PubIdle (with_counts (accepted c) (u64 (rejected c + 1)) (dropped c) c))
  | PubCall kind event => call_queue j (LockFreeConc.StartPush j kind event) PubReturn c
  | PubReturn =>
      match returned j c with
      | Some (LockFreeConc.Pushed st) => Some (goto j (PubCount st) c)
      | Some (LockFreeConc.PushThrew _) => Some (goto j PubIdle c)
      | _ => None
      end
  | PubCount st =>
      Some (goto j PubIdle
        (if bool_decide (st = success)
         then with_counts (u64 (accepted c + 1)) (rejected c) (dropped c) c
         else with_counts (accepted c) (u64 (rejected c + 1)) (dropped c) c))
  | _ => None
  end.

(** [run] and [broadcast_batch]. *)
Definition worker_step (j : nat) (r : role) (c : config) : option config :=
  match r with
  | WorkPop => call_queue j (LockFreeConc.StartPop j true) WorkReturn c
  | WorkReturn =>
      match returned j c with
      | Some (LockFreeConc.Popped (mk_pop_result success (Some e))) => Some (goto j (WorkFill [e]) c)
      | Some (LockFreeConc.Popped (mk_pop_result (closed | stopped) _)) => Some (goto j WorkExit c)
      | Some (LockFreeConc.Popped _) => Some (goto j WorkPop c)
      | _ => None
      end
  | WorkFill batch =>
      if zlength batch <? batch_size
      then call_queue j (LockFreeConc.StartPop j false) (WorkFillReturn batch) c
      else Some (goto j (WorkBroadcast batch) c)
  | WorkFillReturn batch =>
      match returned j c with
      | Some (LockFreeConc.Popped (mk_pop_result success (Some e))) =>
          Some (goto j (WorkFill (batch ++ [e])) c)
      | Some (LockFreeConc.Popped _) => Some (goto j (WorkBroadcast batch) c)
      | _ => None
      end
  | WorkBroadcast (e :: batch) =>
      Some (goto j (WorkBroadcast batch) (with_delivered (delivered c ++ [e]) c))
  | WorkBroadcast [] => Some (goto j WorkPop c)
  | _ => None
  end.

(** What [workers_.join()] waits for. *)
Definition gone (r : role) : bool :=
  match r with
  | WorkPop | WorkReturn | WorkFill _ | WorkFillReturn _ | WorkBroadcast _ => false
  | _ => true
  end.

(** [shutdown(policy)]. *)
Definition closer_step (j : nat) (r : role) (c : config) : option config :=
  match r with
  | ShutEnter policy =>
      match lifecycle c with
      | lifecycle_stopped => Some (goto j ShutDone c)
      | drain_stopping | discard_stopping => Some (goto j ShutWait c)
      | created | running =>
          Some (goto j (ShutQueue policy)
            (with_lifecycle (match policy with drain => drain_stopping | discard => discard_stopping end)
               (Some policy) c))
      end
  | ShutWait =>
      if bool_decide (lifecycle c = lifecycle_stopped) then Some (goto j ShutDone c) else None
  | ShutQueue policy =>
      call_queue j (LockFreeConc.StartClose j (bool_decide (policy = discard))) (ShutReturn policy) c
  | ShutReturn policy =>
      match policy, returned j c with
      | drain, Some LockFreeConc.Closed => Some (goto j ShutJoin c)
      | discard, Some (LockFreeConc.Discarded n) => Some (goto j (ShutCount n) c)
      | _, _ => None
      end
  | ShutCount n =>
      Some (goto j ShutJoin (with_counts (accepted c) (rejected c) (u64 (dropped c + n)) c))
  | ShutJoin => if forallb gone (roles c) then Some (goto j ShutFinish c) else None
  | ShutFinish => Some (goto j ShutDone (with_lifecycle lifecycle_stopped (winner c) c))
  | _ => None
  end.

Definition step_role (j : nat) (r : role) (c : config) : option config :=
  match r with
  | PubCheck _ _ | PubCall _ _ | PubReturn | PubCount _ => publisher_step j r c
  | WorkPop | WorkReturn | WorkFill _ | WorkFillReturn _ | WorkBroadcast _ => worker_step j r c
  | ShutEnter _ | ShutWait | ShutQueue _ | ShutReturn _ | ShutCount _ | ShutJoin | ShutFinish =>
      closer_step j r c
  | PubIdle | WorkExit | ShutIdle | ShutDone => None
  end.

(** The steps of the queue inside a call; only a publisher's token is stopped. *)
Definition queue_choice (ch : LockFreeConc.choice E) (c : config) : bool :=
  match ch with
  | LockFreeConc.StartPush _ _ _ | LockFreeConc.StartPop _ _ | LockFreeConc.StartClose _ _ => false
  | LockFreeConc.RequestStop j =>
      match roles c !! j with Some PubReturn => true | _ => false end
  | _ => true
  end.

Definition step (ch : choice) (c : config) : option config :=
  match ch with
  | StartPublish j kind event =>
      match roles c !! j with
      | Some PubIdle => Some (goto j (PubCheck kind event) c)
      | _ => None
      end
  | StartShutdown j policy =>
      match roles c !! j with
      | Some ShutIdle => Some (goto j (ShutEnter policy) c)
      | _ => None
      end
  | Run j => match roles c !! j with Some r => step_role j r c | None => None end
  | Queue ch =>
      if queue_choice ch c
      then (fun q => with_events q c) <$> LockFreeConc.step ch (events c) else None
  end.

Definition one_step (c c' : config) : Prop := ∃ ch, step ch c = Some c'.
Definition reachable : config -> config -> Prop := rtc one_step.

(** [p] publishers, [w] workers and [s] callers of [shutdown] on a running
    dispatcher with queue [q]. *)
Definition start (q : LockFreeQueue.queue E) (p w s : nat) : config :=
  mk_config (LockFreeConc.start q (p + w + s))
    (replicate p PubIdle ++ replicate w WorkPop ++ replicate s ShutIdle) running 0 0 0 [] None.

Fixpoint run (sched : list choice) (c : config) : config :=
  match sched with
  | [] => c
  | ch :: sched => run sched (default c (step ch c))
  end.

(** ** The steps, by what they do to the queue *)

(** The queue call a thread is in. *)
Definition inside (r : role) : option call :=
  match r with
  | PubReturn => Some PushCall
  | WorkReturn | WorkFillReturn _ => Some PopCall
  | ShutReturn policy => Some (CloseCall (bool_decide (policy = discard)))
  | _ => None
  end.

(** The call a thread is about to make, and where it waits for it. *)
Definition calls (j : nat) (r : role) : option (LockFreeConc.choice E * role) :=
  match r with
  | PubCall kind event => Some (LockFreeConc.StartPush j kind event, PubReturn)
  | WorkPop => Some (LockFreeConc.StartPop j true, WorkReturn)
  | WorkFill batch =>
      if zlength batch <? batch_size
      then Some (LockFreeConc.StartPop j false, WorkFillReturn batch) else None
  | ShutQueue policy =>
      Some (LockFreeConc.StartClose j (bool_decide (policy = discard)), ShutReturn policy)
  | _ => None
  end.

(** Thread [j] at [r] takes a step of its own, with the queue left alone. *)
Inductive local (c : config) (j : nat) : role -> config -> Prop :=
  | local_start_publish kind event : local c j PubIdle (goto j (PubCheck kind event) c)
  | local_check kind event : lifecycle c = running ->
      local c j (PubCheck kind event) (goto j (PubCall kind event) c)
  | local_refuse kind event : lifecycle c ≠ running ->
      local c j (PubCheck kind event)
        (goto j PubIdle (with_counts (accepted c) (u64 (rejected c + 1)) (dropped c) c))
  | local_pushed st : returned j c = Some (LockFreeConc.Pushed st) ->
      local c j PubReturn (goto j (PubCount st) c)
  | local_threw e : returned j c = Some (LockFreeConc.PushThrew e) ->
      local c j PubReturn (goto j PubIdle c)
  | local_count_success :
      local c j (PubCount success)
        (goto j PubIdle (with_counts (u64 (accepted c + 1)) (rejected c) (dropped c) c))
  | local_count_failure st : st ≠ success ->
      local c j (PubCount st)
        (goto j PubIdle (with_counts (accepted c) (u64 (rejected c + 1)) (dropped c) c))
  | local_popped e : returned j c = Some (LockFreeConc.Popped (make_success e)) ->
      local c j WorkReturn (goto j (WorkFill [e]) c)
  | local_exit st v : returned j c = Some (LockFreeConc.Popped (mk_pop_result st v)) ->
      st = closed \/ st = stopped -> local c j WorkReturn (goto j WorkExit c)
  | local_nothing r : returned j c = Some (LockFreeConc.Popped r) -> event_of r = [] ->
      local c j WorkReturn (goto j WorkPop c)
  | local_full batch : batch_size <= zlength batch ->
      local c j (WorkFill batch) (goto j (WorkBroadcast batch) c)
  | local_filled batch e : returned j c = Some (LockFreeConc.Popped (make_success e)) ->
      local c j (WorkFillReturn batch) (goto j (WorkFill (batch ++ [e])) c)
  | local_last batch r : returned j c = Some (LockFreeConc.Popped r) -> event_of r = [] ->
      local c j (WorkFillReturn batch) (goto j (WorkBroadcast batch) c)
  | local_deliver e batch :
      local c j (WorkBroadcast (e :: batch))
        (goto j (WorkBroadcast batch) (with_delivered (delivered c ++ [e]) c))
  | local_next : local c j (WorkBroadcast []) (goto j WorkPop c)
  | local_start_shutdown policy : local c j ShutIdle (goto j (ShutEnter policy) c)
  | local_enter policy : lifecycle c = running \/ lifecycle c = created ->
      local c j (ShutEnter policy)
        (goto j (ShutQueue policy)
          (with_lifecycle (match policy with drain => drain_stopping | discard => discard_stopping end)
             (Some policy) c))
  | local_late policy : lifecycle c = drain_stopping \/ lifecycle c = discard_stopping ->
      local c j (ShutEnter policy) (goto j ShutWait c)
  | local_over r : r = ShutWait \/ (∃ policy, r = ShutEnter policy) ->
      lifecycle c = lifecycle_stopped -> local c j r (goto j ShutDone c)
  | local_closed : returned j c = Some LockFreeConc.Closed ->
      local c j (ShutReturn drain) (goto j ShutJoin c)
  | local_discarded n : returned j c = Some (LockFreeConc.Discarded n) ->
      local c j (ShutReturn discard) (goto j (ShutCount n) c)
  | local_count_dropped n :
      local c j (ShutCount n)
        (goto j ShutJoin (with_counts (accepted c) (rejected c) (u64 (dropped c + n)) c))
  | local_joined : forallb gone (roles c) = true -> local c j ShutJoin (goto j ShutFinish c)
  | local_finish :
      local c j ShutFinish (goto j ShutDone (with_lifecycle lifecycle_stopped (winner c) c)).

Inductive step_kind (c c' : config) : Prop :=
  | step_local j r (Hr : roles c !! j = Some r) (Hl : local c j r c')
  | step_call j r ch r' q (Hr : roles c !! j = Some r) (Hc : calls j r = Some (ch, r'))
      (Hq : LockFreeConc.step ch (events c) = Some q) (Hc' : c' = goto j r' (with_events q c))
  | step_queue ch q (Hch : queue_choice ch c = true)
      (Hq : LockFreeConc.step ch (events c) = Some q) (Hc' : c' = with_events q c).

Lemma queue_continues ch c : queue_choice ch c = true -> LockFreeCalls.continues ch = true.
Proof. by destruct ch. Qed.

Lemma step_kinds ch c c' : step ch c = Some c' -> step_kind c c'.
Proof.
  destruct ch as [j kind event|j policy|j|ch]; cbn [step].
  - destruct (roles c !! j) as [[]|] eqn:Hr; try done. intros [= <-].
    eapply step_local; [done|constructor].
  - destruct (roles c !! j) as [[]|] eqn:Hr; try done. intros [= <-].
    eapply step_local; [done|constructor].
  - destruct (roles c !! j) as [r|] eqn:Hr; [|done]. intros Hs.
    assert (∀ ch r', calls j r = Some (ch, r') -> call_queue j ch r' c = Some c' -> step_kind c c') as Hcall.
    { intros ch r' Hc. unfold call_queue. destruct (LockFreeConc.step ch (events c)) as [q|] eqn:Hq; [|done].
      intros [= <-]. by eapply step_call. }
    assert (local c j r c' -> step_kind c c') as Hloc by by apply step_local.
    destruct r; try discriminate Hs; cbn [step_role publisher_step worker_step closer_step] in Hs.
    all: try (by eapply Hcall).
    + case_bool_decide; injection Hs as <-; apply Hloc; by constructor.
    + destruct (returned j c) as [[]|] eqn:Ho; try done; injection Hs as <-; apply Hloc; by econstructor.
    + injection Hs as <-. apply Hloc. case_bool_decide; subst; by constructor.
    + destruct (returned j c) as [[| |[[] []]| |]|] eqn:Ho; try done; injection Hs as <-; apply Hloc;
        first [by apply local_popped|by eapply local_nothing|by eapply local_exit; eauto].
    + destruct (zlength batch <? batch_size) eqn:Hb; [by eapply Hcall; cbn; rewrite ?Hb|].
      injection Hs as <-. apply Hloc. constructor. lia.
    + destruct (returned j c) as [[| |[[] []]| |]|] eqn:Ho; try done; injection Hs as <-; apply Hloc;
        first [by apply local_filled|by eapply local_last].
    + destruct batch as [|e batch]; injection Hs as <-; apply Hloc; constructor.
    + destruct (lifecycle c) eqn:Hl; injection Hs as <-; apply Hloc; constructor; eauto.
    + case_bool_decide; [|done]. injection Hs as <-. apply Hloc. constructor; auto.
    + destruct policy, (returned j c) as [[]|] eqn:Ho; try done; injection Hs as <-; apply Hloc; by constructor.
    + injection Hs as <-. apply Hloc. constructor.
    + destruct (forallb gone (roles c)) eqn:Hg; [|done]. injection Hs as <-. apply Hloc. by constructor.
    + injection Hs as <-. apply Hloc. constructor.
  - destruct (queue_choice ch c) eqn:Hch; [|done].
    destruct (LockFreeConc.step ch (events c)) as [q|] eqn:Hq; [|done]. intros [= <-].
    by apply (step_queue _ _ ch q).
Qed.

(** ** A thread of the dispatcher and its queue calls *)

Definition is_worker (r : role) : bool :=
  match r with
  | WorkPop | WorkReturn | WorkFill _ | WorkFillReturn _ | WorkBroadcast _ | WorkExit => true
  | _ => false
  end.

Definition inside_ok (r : role) (p : pc) : Prop :=
  match inside r with
  | Some k => call_of p = Some k
  | None => LockFreeConc.at_rest p = true
  end.

Record linked (c : config) : Prop := mk_linked {
  linked_inv : LockFreeConc.inv (events c);
  linked_length : length (roles c) = length (LockFreeConc.threads (events c));
  linked_inside : ∀ j r p, roles c !! j = Some r -> LockFreeConc.threads (events c) !! j = Some p ->
    inside_ok r p;
}.

Lemma local_shape c j r c' :
  local c j r c' ->
  ∃ r', events c' = events c /\ roles c' = <[j:=r']> (roles c) /\ inside r' = None /\
    (inside r = None \/ ∃ o, returned j c = Some o) /\
    (gone r = true -> gone r' = true) /\ is_worker r' = is_worker r.
Proof.
  destruct 1; eexists; (repeat match goal with |- _ /\ _ => split end); try reflexivity; eauto; try done.
  all: match goal with H : _ = ShutWait \/ _ |- _ => by destruct H as [->|[? ->]]; auto end.
Qed.

Lemma call_shape j r ch r' q q' :
  calls j r = Some (ch, r') -> LockFreeConc.step ch q = Some q' ->
  ∃ p p', LockFreeConc.threads q !! j = Some p /\
    LockFreeConc.threads q' = <[j:=p']> (LockFreeConc.threads q) /\ same_logs q q' /\
    LockFreeConc.shared q' = LockFreeConc.shared q /\
    (inside r = None /\ inside r' = call_of p' /\ is_Some (call_of p') /\
     is_worker r' = is_worker r /\ (gone r = true -> gone r' = true)) /\
    in_pipe p' = [] /\ landed p' = 0 /\ tally p' = 0 /\ told p' = false.
Proof.
  destruct r; try discriminate; cbn [calls]; try (destruct (_ <? _); [|done]);
    intros [= <- <-]; cbn [LockFreeConc.step];
    intros (p & Hj & _ & _ & ->)%LockFreeConc.begin_begins; do 2 eexists;
    (split; [done|]); repeat split; eauto.
Qed.

Definition parts (c : config) : list (role * pc) := zip (roles c) (LockFreeConc.threads (events c)).

Section views.
Context {A : Type} (f : role * pc -> A) (Hf : ∀ r p p', alike p p' -> f (r, p') = f (r, p)).

Lemma parts_woken rs ts ts' :
  LockFreeStop.woken ts ts' -> f <$> zip rs ts' = f <$> zip rs ts.
Proof.
  intros Hw. revert rs. induction Hw as [|p p' ts ts' Hp _ IH]; intros [|r rs]; try done. cbn.
  rewrite IH. f_equal. destruct Hp as [->|(w & Hp & ->)]; [done|]. by apply Hf, (wake_alike w).
Qed.

(** One thread moves, and some sleepers are woken. *)
Lemma parts_move c c' j r p r' p' ts :
  linked c -> roles c !! j = Some r -> LockFreeConc.threads (events c) !! j = Some p ->
  LockFreeStop.woken (LockFreeConc.threads (events c)) ts ->
  roles c' = <[j:=r']> (roles c) -> LockFreeConc.threads (events c') = <[j:=p']> ts ->
  (f <$> parts c) !! j = Some (f (r, p)) /\ f <$> parts c' = <[j:=f (r', p')]> (f <$> parts c).
Proof.
  intros Hl Hr Hp Hw Hr' Hp'. split.
  - rewrite list_lookup_fmap. unfold parts. by rewrite lookup_zip_with, Hr, Hp.
  - unfold parts. rewrite Hr', Hp'. rewrite <- (insert_zip_with pair), list_fmap_insert.
    f_equal. by apply parts_woken.
Qed.
End views.

Definition total (f : role * pc -> Z) (c : config) : Z := sum_of id (f <$> parts c).
Definition line_up (f : role * pc -> list E) (c : config) : list E := concat (f <$> parts c).

(** The step of thread [j] from [(r, p)] to [(r', p')]. *)
Definition moves (c c' : config) (j : nat) (r : role) (p : pc) (r' : role) (p' : pc) : Prop :=
  roles c !! j = Some r /\ LockFreeConc.threads (events c) !! j = Some p /\
  roles c' = <[j:=r']> (roles c) /\
  ∃ ts, LockFreeStop.woken (LockFreeConc.threads (events c)) ts /\
    LockFreeConc.threads (events c') = <[j:=p']> ts.

Lemma total_move f c c' j r p r' p' :
  (∀ r p p', alike p p' -> f (r, p') = f (r, p)) -> linked c -> moves c c' j r p r' p' ->
  total f c' = total f c - f (r, p) + f (r', p').
Proof.
  intros Hf Hl (Hr & Hp & Hr' & ts & Hw & Ht).
  destruct (parts_move f Hf c c' j r p r' p' ts Hl Hr Hp Hw Hr' Ht) as [Hj Heq].
  unfold total. by rewrite Heq, (sum_of_insert _ _ _ _ _ Hj).
Qed.

Lemma line_up_move f c c' j r p r' p' :
  (∀ r p p', alike p p' -> f (r, p') = f (r, p)) -> linked c -> moves c c' j r p r' p' ->
  ∃ l k, line_up f c = l ++ f (r, p) ++ k /\ line_up f c' = l ++ f (r', p') ++ k.
Proof.
  intros Hf Hl (Hr & Hp & Hr' & ts & Hw & Ht).
  destruct (parts_move f Hf c c' j r p r' p' ts Hl Hr Hp Hw Hr' Ht) as [Hj Heq].
  destruct (concat_split id (f <$> parts c) j _ Hj) as (l & k & H1 & H2 & _).
  exists l, k. unfold line_up. specialize (H1 (f (r', p'))).
  rewrite !list_fmap_id in *. rewrite Heq. auto.
Qed.

(** Sleepers are woken and the threads stay where they are. *)
Lemma parts_other {A} (f : role * pc -> A) c c' :
  (∀ r p p', alike p p' -> f (r, p') = f (r, p)) -> roles c' = roles c ->
  LockFreeStop.woken (LockFreeConc.threads (events c)) (LockFreeConc.threads (events c')) ->
  f <$> parts c' = f <$> parts c.
Proof. intros Hf Hr Hw. unfold parts. rewrite Hr. by apply parts_woken. Qed.

(** ** The invariant *)

(** Events a worker holds, oldest first: its batch and what its pop carries. *)
Definition line (x : role * pc) : list E :=
  match x with
  | (WorkFill batch, _) | (WorkBroadcast batch, _) => batch
  | (WorkReturn, p) => in_pipe p
  | (WorkFillReturn batch, p) => batch ++ in_pipe p
  | _ => []
  end.

(** Successes of the queue not yet counted. *)
Definition uncounted (x : role * pc) : Z :=
  match x with
  | (PubReturn, p) => landed p
  | (PubCount success, _) => 1
  | _ => 0
  end.

(** A caller of [shutdown] that has won the lifecycle transition. *)
Definition active (r : role) : Z :=
  match r with ShutQueue _ | ShutReturn _ | ShutCount _ | ShutJoin | ShutFinish => 1 | _ => 0 end.

Definition stopping (l : lifecycle_state) : bool :=
  match l with drain_stopping | discard_stopping => true | _ => false end.

Definition sealed (g : LockFreeQueue.gate) (c : config) : Prop :=
  LockFreeConc.sealed g (LockFreeConc.shared (events c)).

(** Unless there are more threads than slots, in which case a dequeue may
    have missed an event, nothing is queued. *)
Definition clear (q : LockFreeConc.config E) : Prop := LockFreeConc.crowded q = false -> drained q.

(** What the queue is like once the winner's call has returned. *)
Definition settled (c : config) : Prop :=
  match winner c with
  | None => False
  | Some drain => sealed LockFreeQueue.producer_gate c
  | Some discard =>
      (∀ g, sealed g c) /\ clear (events c) /\
      dropped c = u64 (zlength (LockFreeConc.discarded (events c)))
  end.

Definition role_ok (c : config) (x : role * pc) : Prop :=
  match x with
  | (ShutQueue policy, _) =>
      winner c = Some policy /\ dropped c = 0 /\ LockFreeConc.discarded (events c) = []
  | (ShutReturn policy, p) =>
      winner c = Some policy /\ dropped c = 0 /\
      eq64 (tally p) (zlength (LockFreeConc.discarded (events c)))
  | (ShutCount n, _) =>
      winner c = Some discard /\ dropped c = 0 /\ (∀ g, sealed g c) /\ clear (events c) /\
      eq64 n (zlength (LockFreeConc.discarded (events c)))
  | (ShutJoin, _) => settled c
  | (ShutFinish, _) => settled c /\ forallb gone (roles c) = true
  | (ShutDone, _) => lifecycle c = lifecycle_stopped
  | _ => True
  end.

(** Thread [j] is the only worker. *)
Definition sole (j : nat) (c : config) : Prop :=
  ∀ i r, roles c !! i = Some r -> is_worker r = true -> i = j.

(** Threads and their calls, events, counters. *)
Record flow (c : config) : Prop := mk_flow {
  flow_linked : linked c;
  flow_line : LockFreeConc.taken (events c) ≡ₚ delivered c ++ line_up line c;
  flow_order : ∀ j, sole j c -> LockFreeConc.taken (events c) = delivered c ++ line_up line c;
  flow_counted : eq64 (accepted c + total uncounted c) (zlength (LockFreeConc.accepted (events c)));
}.

(** The lifecycle and the callers of [shutdown]. *)
Record ending (c : config) : Prop := mk_ending {
  end_one : sum_of active (roles c) = if stopping (lifecycle c) then 1 else 0;
  end_roles : ∀ j x, parts c !! j = Some x -> role_ok c x;
  end_winner : winner c = None <-> lifecycle c = running;
  end_created : lifecycle c ≠ created;
  end_running : winner c = None -> dropped c = 0;
  end_drain : winner c ≠ Some discard -> LockFreeConc.discarded (events c) = [] /\
    ~ LockFreeConc.closing_gate LockFreeQueue.consumer_gate (LockFreeConc.shared (events c));
  end_stopped : lifecycle c = lifecycle_stopped -> settled c /\ forallb gone (roles c) = true;
}.

Definition inv (c : config) : Prop := flow c /\ ending c.

(** ** Preservation: the threads and their calls *)

Lemma moves_lookup c c' j r p r' p' i x' :
  linked c -> moves c c' j r p r' p' -> parts c' !! i = Some x' ->
  (i = j /\ x' = (r', p')) \/
  (i ≠ j /\ ∃ x, parts c !! i = Some x /\ x.1 = x'.1 /\ alike x.2 x'.2 /\ told x'.2 = told x.2 /\
     LockFreeConc.at_rest x'.2 = LockFreeConc.at_rest x.2).
Proof.
  intros Hl (Hr & Hp & Hr' & ts & Hw & Ht) Hx. unfold parts in *.
  apply lookup_zip_with_Some in Hx as (ri & pi & -> & Hri & Hpi). rewrite Hr', Ht in *.
  apply list_lookup_insert_Some in Hri as [(<- & <- & _)|[Hne Hri]];
    apply list_lookup_insert_Some in Hpi as [(? & <- & _)|[? Hpi]]; try done; [by left|right].
  destruct (woken_alike _ _ _ _ Hw Hpi) as (p0 & Hp0 & Ha & Htold & Hrest).
  split; [done|]. exists (ri, p0). rewrite lookup_zip_with, Hri, Hp0. by split_and!.
Qed.

Lemma inside_ok_alike r p p' :
  alike p p' -> LockFreeConc.at_rest p' = LockFreeConc.at_rest p -> inside_ok r p -> inside_ok r p'.
Proof. intros (Hc & _) Hr. unfold inside_ok. by rewrite Hc, Hr. Qed.

Lemma parts_lookup c i r p :
  parts c !! i = Some (r, p) <-> roles c !! i = Some r /\ LockFreeConc.threads (events c) !! i = Some p.
Proof.
  unfold parts. rewrite lookup_zip_with_Some. split; [by intros (? & ? & [= <- <-] & ?)|].
  intros [? ?]. by exists r, p.
Qed.

Lemma linked_part c i x : linked c -> parts c !! i = Some x -> inside_ok x.1 x.2.
Proof. destruct x as [r p]. intros Hl [Hr Hp]%parts_lookup. by eapply linked_inside. Qed.

Lemma moves_length c c' j r p r' p' :
  linked c -> moves c c' j r p r' p' ->
  length (roles c') = length (LockFreeConc.threads (events c')).
Proof.
  intros Hl (_ & _ & -> & ts & Hw & ->). rewrite !length_insert, <- (Forall2_length _ _ _ Hw).
  apply Hl.
Qed.

Lemma linked_moves c c' j r p r' p' :
  linked c -> LockFreeConc.inv (events c') -> moves c c' j r p r' p' -> inside_ok r' p' -> linked c'.
Proof.
  intros Hl Hi Hm Hok. split; [done|by eapply moves_length|].
  intros i ri pi Hri Hpi. assert (parts c' !! i = Some (ri, pi)) as Hx by by apply parts_lookup.
  destruct (moves_lookup _ _ _ _ _ _ _ _ _ Hl Hm Hx) as [[-> [= -> ->]]|(_ & [r0 p0] & H0 & Hr & Ha & _ & Hrest)];
    [done|]. cbn in *. subst r0. eapply inside_ok_alike; [done..|]. by apply (linked_part c i _ Hl) in H0.
Qed.

Lemma linked_thread c j r : linked c -> roles c !! j = Some r ->
  ∃ p, LockFreeConc.threads (events c) !! j = Some p /\ inside_ok r p.
Proof.
  intros Hl Hr. destruct (LockFreeConc.threads (events c) !! j) as [p|] eqn:Hp.
  - exists p. split; [done|]. by eapply linked_inside.
  - apply lookup_lt_Some in Hr. apply lookup_ge_None in Hp. rewrite (linked_length _ Hl) in Hr. lia.
Qed.

(** ** Preservation: where the events are *)

Lemma line_alike r p p' : alike p p' -> line (r, p') = line (r, p).
Proof. intros (_ & Hp & _). by destruct r; cbn; rewrite ?Hp. Qed.

Lemma uncounted_alike r p p' : alike p p' -> uncounted (r, p') = uncounted (r, p).
Proof. intros (_ & _ & Hp & _). by destruct r; cbn; rewrite ?Hp. Qed.

Lemma line_sole c j x :
  sole j c -> parts c !! j = Some x -> line_up line c = line x.
Proof.
  intros Hs Hx. apply (concat_only line (parts c) j x Hx). intros i [r p] [Hr _]%parts_lookup Hne.
  destruct (is_worker r) eqn:Hw; [by destruct Hne; apply (Hs i r)|by destruct r].
Qed.

Lemma sole_moves c c' j r p r' p' i :
  moves c c' j r p r' p' -> is_worker r' = is_worker r -> sole i c' -> sole i c.
Proof.
  intros (Hr & _ & Hr' & _) Hw Hs k x Hk Hx. destruct (decide (k = j)) as [->|Hne].
  - apply (Hs j r'); [|congruence]. rewrite Hr'. apply list_lookup_insert_eq. by apply lookup_lt_Some in Hr.
  - apply (Hs k x); [|done]. rewrite Hr'. by rewrite list_lookup_insert_ne.
Qed.

Lemma line_moves c c' j r p r' p' took gave :
  linked c -> linked c' -> moves c c' j r p r' p' ->
  LockFreeConc.taken (events c') = LockFreeConc.taken (events c) ++ took ->
  delivered c' = delivered c ++ gave ->
  line (r, p) ++ took = gave ++ line (r', p') -> is_worker r' = is_worker r ->
  is_worker r = true \/ took = [] ->
  LockFreeConc.taken (events c) ≡ₚ delivered c ++ line_up line c ->
  (∀ i, sole i c -> LockFreeConc.taken (events c) = delivered c ++ line_up line c) ->
  LockFreeConc.taken (events c') ≡ₚ delivered c' ++ line_up line c' /\
  ∀ i, sole i c' -> LockFreeConc.taken (events c') = delivered c' ++ line_up line c'.
Proof.
  intros Hl Hl' Hm Ht Hd He Hw Ho Hp Hs.
  destruct (line_up_move line c c' j r p r' p' line_alike Hl Hm) as (l & k & H1 & H2). split.
  - rewrite Ht, Hd, Hp, H1, H2. transitivity (delivered c ++ l ++ k ++ line (r, p) ++ took); [solve_Permutation|].
    rewrite He. solve_Permutation.
  - intros i Hsi'. pose proof (sole_moves _ _ _ _ _ _ _ _ Hm Hw Hsi') as Hsi.
    rewrite Ht, Hd, (Hs i Hsi). pose proof Hm as (Hr & Hpj & _).
    assert (parts c !! j = Some (r, p)) as Hx by by apply parts_lookup.
    destruct (is_worker r) eqn:Hwr.
    + assert (j = i) as -> by by apply (Hsi j r).
      rewrite (line_sole c i _ Hsi Hx). rewrite (line_sole c' i (r', p') Hsi').
      * by rewrite <- !(assoc_L (++)), He.
      * destruct Hm as (_ & _ & Hr' & ts & Hwk & Ht'). apply parts_lookup. rewrite Hr', Ht'.
        split; apply list_lookup_insert_eq; [by apply lookup_lt_Some in Hr|].
        rewrite <- (Forall2_length _ _ _ Hwk). by apply lookup_lt_Some in Hpj.
    + destruct Ho as [ | ->]; [done|]. rewrite app_nil_r in *.
      assert (line (r, p) = []) as H0 by by destruct r. rewrite H0 in He.
      symmetry in He. apply app_eq_nil in He as [-> H0']. by rewrite H1, H2, H0, H0', app_nil_r.
Qed.

Lemma flow_moves c c' j r p r' p' took gave new :
  flow c -> moves c c' j r p r' p' -> LockFreeConc.inv (events c') -> inside_ok r' p' ->
  LockFreeConc.taken (events c') = LockFreeConc.taken (events c) ++ took ->
  delivered c' = delivered c ++ gave ->
  line (r, p) ++ took = gave ++ line (r', p') -> is_worker r' = is_worker r ->
  is_worker r = true \/ took = [] ->
  LockFreeConc.accepted (events c') = LockFreeConc.accepted (events c) ++ new ->
  eq64 (accepted c' + uncounted (r', p')) (accepted c + uncounted (r, p) + zlength new) ->
  flow c'.
Proof.
  intros [Hl Hli Hor Hco] Hm Hi Hok Ht Hd Hline Hw Htook Ha Hc.
  assert (linked c') as Hl' by by eapply linked_moves.
  destruct (line_moves _ _ _ _ _ _ _ took gave Hl Hl' Hm Ht Hd Hline Hw Htook Hli Hor) as [H1 H2].
  split; [done..|]. rewrite Ha, zlength_app.
  rewrite (total_move uncounted c c' j r p r' p' uncounted_alike Hl Hm).
  rewrite <- Hco. replace (accepted c' + (total uncounted c - uncounted (r, p) + uncounted (r', p')))
    with (accepted c' + uncounted (r', p') + (total uncounted c - uncounted (r, p))) by lia.
  rewrite Hc. unfold eq64. f_equal. lia.
Qed.

Lemma flow_outside c q :
  flow c -> LockFreeConc.inv q ->
  LockFreeStop.woken (LockFreeConc.threads (events c)) (LockFreeConc.threads q) ->
  same_logs (events c) q -> flow (with_events q c).
Proof.
  intros [Hl Hli Hor Hco] Hi Hw (Ht & Ha & _).
  assert (line <$> parts (with_events q c) = line <$> parts c) as H1
    by (by apply parts_other; [intros; apply line_alike|..]).
  assert (uncounted <$> parts (with_events q c) = uncounted <$> parts c) as H2
    by (by apply parts_other; [intros; apply uncounted_alike|..]).
  split; unfold line_up, total in *; cbn [events with_events delivered accepted];
    rewrite ?H1, ?H2, ?Ht, ?Ha; try done.
  split; cbn; [done| |].
  - rewrite <- (Forall2_length _ _ _ Hw). apply Hl.
  - intros i r p Hr Hp. destruct (woken_alike _ _ _ _ Hw Hp) as (p0 & Hp0 & Hal & _ & Hrest).
    eapply inside_ok_alike; [done..|]. by eapply linked_inside.
Qed.

(** ** Preservation: shutting down *)

(** The queue goes from [q] to [q']: what is over stays over. *)
Definition later (q q' : LockFreeConc.config E) : Prop :=
  (∀ g, LockFreeConc.sealed g (LockFreeConc.shared q) -> LockFreeConc.sealed g (LockFreeConc.shared q')) /\
  (LockFreeConc.sealed LockFreeQueue.producer_gate (LockFreeConc.shared q) -> clear q -> clear q').

Lemma settled_later c c' :
  later (events c) (events c') -> winner c' = winner c -> dropped c' = dropped c ->
  LockFreeConc.discarded (events c') = LockFreeConc.discarded (events c) ->
  settled c -> settled c'.
Proof.
  intros [Hs Hd] Hw Hdr Hdi. unfold settled, sealed. rewrite Hw, Hdr, Hdi.
  destruct (winner c) as [[]|]; [auto| |done]. intros (H1 & H2 & H3). auto.
Qed.

Lemma lockfree_inactive_ok c c' x :
  (lifecycle c = lifecycle_stopped -> lifecycle c' = lifecycle_stopped) ->
  active x.1 = 0 -> role_ok c x -> role_ok c' x.
Proof. by destruct x as [[] ?]. Qed.

Lemma role_ok_alike c r p p' : alike p p' -> role_ok c (r, p) -> role_ok c (r, p').
Proof. intros (_ & _ & _ & Ht). destruct r; cbn; rewrite ?Ht; done. Qed.

(** Nothing changes for the callers of [shutdown]. *)
Lemma role_ok_later c c' x :
  later (events c) (events c') -> winner c' = winner c -> dropped c' = dropped c ->
  lifecycle c' = lifecycle c -> (forallb gone (roles c) = true -> forallb gone (roles c') = true) ->
  LockFreeConc.discarded (events c') = LockFreeConc.discarded (events c) ->
  role_ok c x -> role_ok c' x.
Proof.
  intros Hla Hw Hd Hl Hg Hdi. pose proof (settled_later c c' Hla Hw Hd Hdi) as Hset.
  destruct x as [[] p]; cbn; rewrite ?Hw, ?Hd, ?Hl, ?Hdi; auto.
  - intros (H1 & H2 & H3 & H4 & H5). destruct Hla as [Hs Hdr]. split_and!; auto.
    + intros g. by apply Hs, H3.
    + apply Hdr; [apply H3|done].
  - intros []. auto.
Qed.

Lemma lockfree_others_inactive c j i r r' :
  ending c -> roles c !! j = Some r -> active r = 1 -> i ≠ j -> roles c !! i = Some r' -> active r' = 0.
Proof.
  intros He Hj Ha Hne Hi. pose proof (sum_of_insert active _ _ _ ShutIdle Hj) as Hs.
  assert (<[j:=ShutIdle]> (roles c) !! i = Some r') as Hi' by by rewrite list_lookup_insert_ne.
  pose proof (sum_of_lookup active _ _ _ ltac:(by intros []) Hi') as Hle.
  rewrite (end_one _ He), Ha in Hs. cbn in Hs.
  destruct (stopping _), r'; cbn in *; lia.
Qed.

Lemma lockfree_active_stopping c j r :
  ending c -> roles c !! j = Some r -> active r = 1 -> stopping (lifecycle c) = true.
Proof.
  intros He Hj Ha. pose proof (sum_of_lookup active _ _ _ ltac:(by intros []) Hj) as Hle.
  rewrite (end_one _ He) in Hle. destruct (stopping _); [done|lia].
Qed.

Lemma roles_moves c c' j r p r' p' :
  linked c -> moves c c' j r p r' p' ->
  (∀ i x, i ≠ j -> parts c !! i = Some x -> role_ok c x -> role_ok c' x) ->
  (∀ i x, parts c !! i = Some x -> role_ok c x) -> role_ok c' (r', p') ->
  ∀ i x, parts c' !! i = Some x -> role_ok c' x.
Proof.
  intros Hl Hm Ho Hr Hok i [ri pi] Hx.
  destruct (moves_lookup _ _ _ _ _ _ _ _ _ Hl Hm Hx) as [[-> [= -> ->]]|(Hne & [r0 p0] & H0 & Hri & Ha & _)];
    [done|]. cbn in *. subst r0. eapply role_ok_alike; [done|]. apply (Ho i); [done..|]. by eapply Hr.
Qed.

Lemma gone_moves c c' j r p r' p' :
  moves c c' j r p r' p' -> (gone r = true -> gone r' = true) ->
  forallb gone (roles c) = true -> forallb gone (roles c') = true.
Proof.
  intros (Hr & _ & -> & _) Hg Hf. rewrite forallb_forall in *. intros x Hx%list_elem_of_In.
  apply list_elem_of_lookup in Hx as [i Hi].
  apply list_lookup_insert_Some in Hi as [(_ & <- & _)|[_ Hi]].
  - apply Hg, Hf, list_elem_of_In. by eapply list_elem_of_lookup_2.
  - apply Hf, list_elem_of_In. by eapply list_elem_of_lookup_2.
Qed.

(** A step that leaves the lifecycle, its winner and [dropped] alone. *)
Lemma ending_passive c c' j r p r' p' :
  flow c -> ending c -> moves c c' j r p r' p' ->
  lifecycle c' = lifecycle c -> winner c' = winner c -> dropped c' = dropped c ->
  later (events c) (events c') -> (gone r = true -> gone r' = true) -> active r' = active r ->
  LockFreeConc.discarded (events c') = LockFreeConc.discarded (events c) \/
    active r = 1 /\ winner c = Some discard ->
  (LockFreeConc.closing_gate LockFreeQueue.consumer_gate (LockFreeConc.shared (events c')) ->
   LockFreeConc.closing_gate LockFreeQueue.consumer_gate (LockFreeConc.shared (events c)) \/
   winner c = Some discard) ->
  role_ok c' (r', p') -> ending c'.
Proof.
  intros Hf He Hm Hl Hw Hd Hla Hg Ha Hdi Hcl Hok. pose proof He as [].
  pose proof (gone_moves _ _ _ _ _ _ _ Hm Hg) as Hgone.
  split; rewrite ?Hl, ?Hw, ?Hd; try done.
  - pose proof Hm as (Hr & _ & -> & _). rewrite (sum_of_insert _ _ _ _ _ Hr), Ha, end_one0. lia.
  - eapply roles_moves; [apply Hf|done| |done|done]. intros i [ri pi] Hne Hx Hi.
    destruct Hdi as [Hdi|[Hr1 _]].
    + by apply (role_ok_later c).
    + apply (lockfree_inactive_ok c); [by rewrite Hl| |done]. apply parts_lookup in Hx as [Hri _].
      pose proof Hm as (Hr & _). by eapply lockfree_others_inactive.
  - intros Hnd. destruct (end_drain0 Hnd) as [H1 H2]. destruct Hdi as [Hdi|[_ ?]]; [|done].
    rewrite Hdi. split; [done|]. intros Hc. by destruct (Hcl Hc).
  - intros Hs. destruct (end_stopped0 Hs) as [H1 H2]. split; [|auto].
    apply (settled_later c); try done. destruct Hdi as [?|[Hr1 _]]; [done|]. pose proof Hm as (Hr & _).
    pose proof (lockfree_active_stopping c j r He Hr Hr1) as Hstop. by rewrite Hs in Hstop.
Qed.

Lemma ending_outside c q :
  ending c -> LockFreeStop.woken (LockFreeConc.threads (events c)) (LockFreeConc.threads q) ->
  same_logs (events c) q -> later (events c) q ->
  (LockFreeConc.closing_gate LockFreeQueue.consumer_gate (LockFreeConc.shared q) ->
   LockFreeConc.closing_gate LockFreeQueue.consumer_gate (LockFreeConc.shared (events c))) ->
  ending (with_events q c).
Proof.
  intros He Hw (_ & _ & Hdi) Hla Hcl. pose proof He as []. split; try done.
  - intros i [r p] Hx. apply parts_lookup in Hx as [Hr Hp]. cbn in Hr, Hp.
    destruct (woken_alike _ _ _ _ Hw Hp) as (p0 & Hp0 & Hal & _).
    apply (role_ok_alike _ _ p0); [done|]. apply (role_ok_later c); try done.
    by apply (end_roles0 i), parts_lookup.
  - intros Hnd. destruct (end_drain0 Hnd) as [H1 H2]. cbn. rewrite Hdi. auto.
  - intros Hs. destruct (end_stopped0 Hs) as [H1 H2]. split; [|done]. by apply (settled_later c).
Qed.

(** ** Every step keeps the invariant *)

Lemma later_refl q : later q q.
Proof. by repeat split. Qed.

Lemma later_call q q' :
  same_logs q q' -> LockFreeConc.shared q' = LockFreeConc.shared q ->
  LockFreeConc.crowded q' = LockFreeConc.crowded q -> later q q'.
Proof.
  intros (Ht & Ha & Hd) Hs Hc. unfold later, clear, drained. rewrite Hs, Ht, Ha, Hd, Hc. auto.
Qed.

Lemma drained_step ch (q q' : LockFreeConc.config E) :
  LockFreeConc.inv q -> LockFreeCalls.continues ch = true -> LockFreeConc.step ch q = Some q' ->
  LockFreeConc.sealed LockFreeQueue.producer_gate (LockFreeConc.shared q) -> drained q -> drained q'.
Proof.
  intros Hi Hch Hst. apply queue_step_drained; [done|by exists ch|by apply (continue_step ch)].
Qed.

Lemma later_step ch q q' :
  LockFreeConc.inv q -> LockFreeCalls.continues ch = true -> LockFreeConc.step ch q = Some q' ->
  later q q'.
Proof.
  intros Hi Hch Hst. split; [apply queue_step_sealed; [done|by exists ch]|].
  intros Hs Hd Hc. rewrite (LockFreeConc.step_crowded _ _ _ Hst) in Hc. eapply drained_step; eauto.
Qed.

Lemma inside_stays (r : role) p p' q q' :
  contributes q p q' p' -> inside_ok r p -> LockFreeConc.at_rest p = false ->
  inside r = call_of p /\ inside_ok r p'.
Proof.
  intros Hc Hok Hr. unfold inside_ok in *. destruct (inside r); [|congruence].
  by rewrite (con_call _ _ _ _ Hc), Hok.
Qed.

Lemma step_queue_inv c ch q :
  inv c -> LockFreeCalls.continues ch = true -> LockFreeConc.step ch (events c) = Some q ->
  inv (with_events q c).
Proof.
  intros [Hf He] Hch Hq. pose proof (flow_linked _ Hf) as Hl. pose proof (linked_inv _ Hl) as Hi.
  assert (LockFreeConc.inv q) as Hi' by by eapply LockFreeConc.lock_free_step_inv.
  pose proof (later_step _ _ _ Hi Hch Hq) as Hla.
  destruct (continue_step _ _ _ Hi Hch Hq) as [j p p' ts Hp Hw Ht Hc Hrun _ Hcl|Hw Hlogs Hcl];
    [|split; [by apply flow_outside|by apply ending_outside]].
  destruct (lookup_lt_is_Some_2 (roles c) j) as [r Hr].
  { rewrite (linked_length _ Hl). by apply lookup_lt_Some in Hp. }
  assert (moves c (with_events q c) j r p r p') as Hm.
  { split_and!; [done..| |by exists ts]. cbn. by rewrite list_insert_id. }
  pose proof (linked_inside _ Hl _ _ _ Hr Hp) as Hin.
  destruct (inside_stays r p p' _ _ Hc Hin Hrun) as [Hcall Hin'].
  assert (parts c !! j = Some (r, p)) as Hx by by apply parts_lookup.
  pose proof (end_roles _ He _ _ Hx) as Hok.
  split.
  - destruct Hc as [_ Htk Hac _].
    assert (∃ took, LockFreeConc.taken q = LockFreeConc.taken (events c) ++ took /\
      line (r, p) ++ took = line (r, p') /\ (is_worker r = true \/ took = [])) as (took & H1 & H2 & H3).
    { destruct Htk as [[-> Hpp]|(e & -> & Hp0 & Hp1 & Hk)].
      - exists []. rewrite !app_nil_r. split_and!; [done| |auto]. destruct r; cbn; by rewrite ?Hpp.
      - exists [e]. split; [done|]. rewrite Hk in Hcall.
        destruct r; try discriminate Hcall; cbn; rewrite Hp0, Hp1, ?app_nil_r; auto. }
    assert (∃ new, LockFreeConc.accepted q = LockFreeConc.accepted (events c) ++ new /\
      uncounted (r, p') = uncounted (r, p) + zlength new) as (new & H4 & H5).
    { destruct Hac as [[-> Hpp]|(e & -> & Hp0 & Hp1 & Hk)].
      - exists []. rewrite app_nil_r. split; [done|]. zlen_nil. destruct r; cbn; rewrite ?Hpp; lia.
      - exists [e]. split; [done|]. rewrite Hk in Hcall.
        destruct r; try discriminate Hcall. cbn. rewrite Hp0, Hp1. done. }
    eapply (flow_moves c _ j r p r p' took [] new); try done.
    + cbn. by rewrite app_nil_r.
    + cbn [accepted with_events]. rewrite H5. by rewrite Z.add_assoc.
  - assert (LockFreeConc.discarded q = LockFreeConc.discarded (events c) \/ r = ShutReturn discard) as Hd.
    { destruct Hc as [_ _ _ [[? _]|(e & _ & _ & Hk)]]; [by left|right]. rewrite Hk in Hcall.
      destruct r as [| | | | | | | | | | | | | | |[]| | | |]; try discriminate Hcall. done. }
    eapply (ending_passive c _ j r p r p'); try done.
    + destruct Hd as [Hd| ->]; [by left|right]. by destruct Hok.
    + intros Hc'. destruct (Hcl Hc') as [?|Hk]; [by left|right]. unfold closes_consumers in Hk.
      rewrite Hk in Hcall. destruct r as [| | | | | | | | | | | | | | |[]| | | |]; try discriminate Hcall.
      by destruct Hok.
    + destruct Hd as [Hd| ->].
      * assert (role_ok c (r, p')) as Hok'.
        { destruct Hc as [_ _ _ [[_ Hta]|(e & Hdd & _)]]; [|by apply (f_equal length) in Hdd;
            rewrite Hd, length_app in Hdd; cbn in Hdd; lia].
          destruct r; cbn in *; rewrite ?Hta; done. }
        by apply (role_ok_later c).
      * destruct Hok as (H1 & H2 & H3). split_and!; [done..|]. cbn [events with_events].
        destruct Hc as [_ _ _ [[-> ->]|(e & -> & -> & _)]]; [done|].
        rewrite zlength_app, eq64_u64, H3. done.
Qed.

Lemma step_call_inv c j r ch r' q :
  inv c -> roles c !! j = Some r -> calls j r = Some (ch, r') ->
  LockFreeConc.step ch (events c) = Some q -> inv (goto j r' (with_events q c)).
Proof.
  intros [Hf He] Hr Hc Hq. pose proof (flow_linked _ Hf) as Hl. pose proof (linked_inv _ Hl) as Hi.
  destruct (call_shape _ _ _ _ _ _ Hc Hq)
    as (p & p' & Hp & Ht & Hlogs & Hsh & (Hin & Hin' & [k Hk] & Hw & Hg) & Hpipe & Hland & Htally & _).
  pose proof (later_call _ _ Hlogs Hsh (LockFreeConc.step_crowded _ _ _ Hq)) as Hla. destruct Hlogs as (Htk & Hac & Hdi).
  assert (moves c (goto j r' (with_events q c)) j r p r' p') as Hm.
  { split_and!; [done..|]. exists (LockFreeConc.threads (events c)). split; [apply LockFreeStop.woken_refl|done]. }
  assert (parts c !! j = Some (r, p)) as Hx by by apply parts_lookup.
  pose proof (end_roles _ He _ _ Hx) as Hok.
  assert (inside_ok r' p') as Hin''.
  { unfold inside_ok. by rewrite Hin', Hk. }
  split.
  - eapply (flow_moves c _ j r p r' p' [] [] []); try done; cbn; rewrite ?app_nil_r; try done.
    + by eapply LockFreeConc.lock_free_step_inv.
    + destruct r; try discriminate Hc; cbn in Hc; try (destruct (_ <? _); [|done]);
        injection Hc as <- <-; cbn; by rewrite ?Hpipe, ?app_nil_r.
    + auto.
    + zlen_nil. destruct r; try discriminate Hc; cbn in Hc; try (destruct (_ <? _); [|done]);
        injection Hc as <- <-; cbn; unfold eq64; f_equal; lia.
  - eapply (ending_passive c _ j r p r' p'); try done; auto.
    + destruct r; try discriminate Hc; cbn in Hc; try (destruct (_ <? _); [|done]); by injection Hc as <- <-.
    + cbn. rewrite Hsh. auto.
    + destruct r; try discriminate Hc; cbn in Hc; try (destruct (_ <? _); [|done]);
        injection Hc as <- <-; try done. cbn in Hok |- *. rewrite Htally, Hdi.
      by destruct Hok as (? & ? & ->).
Qed.

(** A step of [shutdown] that only moves its caller on. *)
Lemma ending_goto c j r p r' :
  flow c -> ending c -> roles c !! j = Some r -> LockFreeConc.threads (events c) !! j = Some p ->
  (gone r = true -> gone r' = true) -> active r' = active r -> role_ok (goto j r' c) (r', p) ->
  ending (goto j r' c).
Proof.
  intros Hf He Hr Hp Hg Ha Hok. eapply (ending_passive c _ j r p r' p); auto using later_refl; try done.
  split_and!; [done..|]. exists (LockFreeConc.threads (events c)). split; [apply LockFreeStop.woken_refl|].
  cbn. by rewrite list_insert_id.
Qed.

Lemma returned_thread c j p o :
  LockFreeConc.threads (events c) !! j = Some p -> returned j c = Some o -> p = LockFreeConc.Finished o.
Proof. unfold returned. intros ->. destruct p; try done. by intros [= ->]. Qed.

Lemma local_flow c j r c' : flow c -> roles c !! j = Some r -> local c j r c' -> flow c'.
Proof.
  intros Hf Hr Hloc. pose proof (flow_linked _ Hf) as Hl.
  destruct (linked_thread c j r Hl Hr) as (p & Hp & Hok).
  destruct (local_shape c j r c' Hloc) as (r' & Hev & Hr' & Hin & Hret & _ & Hw).
  assert (LockFreeConc.at_rest p = true) as Hrest.
  { destruct Hret as [Hn|[o Ho]]; [unfold inside_ok in Hok; by rewrite Hn in Hok|].
    by rewrite (returned_thread c j p o Hp Ho). }
  assert (moves c c' j r p r' p) as Hm.
  { split_and!; [done..|]. exists (LockFreeConc.threads (events c)).
    split; [apply LockFreeStop.woken_refl|]. by rewrite Hev, list_insert_id. }
  assert (∃ gave, delivered c' = delivered c ++ gave /\ line (r, p) = gave ++ line (r', p) /\
    eq64 (accepted c' + uncounted (r', p)) (accepted c + uncounted (r, p))) as (gave & H1 & H2 & H3).
  { pose proof (returned_thread c j p) as Hp'. assert (roles c' !! j = Some r') as Hr''.
    { rewrite Hr'. apply list_lookup_insert_eq. by apply lookup_lt_Some in Hr. }
    assert (∀ x (c0 : config), roles c0 = roles c -> roles (goto j x c0) !! j = Some x) as Hg.
    { intros x c0 H0. cbn. rewrite H0. apply list_lookup_insert_eq. by apply lookup_lt_Some in Hr. }
    destruct Hloc; rewrite Hg in Hr'' by done; injection Hr'' as <-;
      try (specialize (Hp' _ Hp H); subst p);
      first [exists [e]; split; [done|]|exists []; cbn [goto with_roles with_counts delivered with_lifecycle];
        rewrite app_nil_r; split; [done|]]; cbn; rewrite ?app_nil_r; split; try done.
    - rewrite eq64_u64. unfold eq64. f_equal. lia.
    - by destruct st.
    - by destruct H0 as [-> | ->].
    - by rewrite H0, app_nil_r.
    - by destruct H as [->|[? ->]].
    - by destruct H as [->|[? ->]]. }
  eapply (flow_moves c c' j r p r' p [] gave []); rewrite ?app_nil_r, ?Hev; try done; auto.
  - apply Hl.
  - unfold inside_ok. by rewrite Hin.
  - rewrite H3. zlen_nil. by rewrite Z.add_0_r.
Qed.

(** What the winner's call has achieved when it returns. *)
Lemma closed_settled c j p :
  linked c -> LockFreeConc.threads (events c) !! j = Some p -> p = LockFreeConc.Finished LockFreeConc.Closed ->
  sealed LockFreeQueue.producer_gate c.
Proof.
  intros [(r & free & queued & Hi) _ _] Hp ->. apply (LockFreeConc.inv_pcs _ _ _ _ Hi _ _ Hp).
Qed.

Lemma discarded_settled c j p n :
  linked c -> LockFreeConc.threads (events c) !! j = Some p ->
  p = LockFreeConc.Finished (LockFreeConc.Discarded n) -> (∀ g, sealed g c) /\ clear (events c).
Proof.
  intros [(r & free & queued & Hi) _ _] Hp ->. destruct (LockFreeConc.inv_pcs _ _ _ _ Hi _ _ Hp) as [Hs Hq].
  split; [exact Hs|]. intros Hc. destruct Hq as [Hq|Hq]; [congruence|]. by apply (drained_queued r _ free queued).
Qed.

(** The steps that write the lifecycle, its winner or [dropped]. *)
Lemma ending_active c c' j r p r' :
  flow c -> ending c -> moves c c' j r p r' p -> events c' = events c ->
  (∀ i x, i ≠ j -> roles c !! i = Some x -> active x = 0) ->
  (lifecycle c = lifecycle_stopped -> lifecycle c' = lifecycle_stopped) ->
  (gone r = true -> gone r' = true) ->
  sum_of active (roles c) - active r + active r' = (if stopping (lifecycle c') then 1 else 0) ->
  role_ok c' (r', p) -> (winner c' = None <-> lifecycle c' = running) -> lifecycle c' ≠ created ->
  winner c' ≠ None -> (winner c = Some discard -> winner c' = Some discard) ->
  (lifecycle c' = lifecycle_stopped -> settled c' /\ forallb gone (roles c) = true) -> ending c'.
Proof.
  intros Hf He Hm Hev Ho Hls Hg Hone Hok Hwin Hcr Hnw Hwd Hst. pose proof He as [].
  split; rewrite ?Hev; try done.
  - pose proof Hm as (Hr & _ & -> & _). by rewrite (sum_of_insert _ _ _ _ _ Hr).
  - eapply roles_moves; [apply Hf|done| |done|done]. intros i [ri pi] Hne Hx.
    apply lockfree_inactive_ok; [done|]. apply parts_lookup in Hx as [Hx _]. by apply (Ho i).
  - intros Hnd. apply end_drain0. auto.
  - intros Hs. destruct (Hst Hs). split; [done|]. by eapply gone_moves.
Qed.

Lemma local_ending c j r c' : flow c -> ending c -> roles c !! j = Some r -> local c j r c' -> ending c'.
Proof.
  intros Hf He Hr Hloc. pose proof (flow_linked _ Hf) as Hl.
  destruct (linked_thread c j r Hl Hr) as (p & Hp & Hok).
  assert (parts c !! j = Some (r, p)) as Hx by by apply parts_lookup.
  pose proof (end_roles _ He _ _ Hx) as Hro.
  destruct (local_shape c j r c' Hloc) as (r' & Hev & Hr' & _ & _ & Hg & _).
  assert (moves c c' j r p r' p) as Hm.
  { split_and!; [done..|]. exists (LockFreeConc.threads (events c)).
    split; [apply LockFreeStop.woken_refl|]. by rewrite Hev, list_insert_id. }
  assert (active r = 1 -> ∀ i x, i ≠ j -> roles c !! i = Some x -> active x = 0) as Hoth.
  { intros Ha i x Hne Hi. by apply (lockfree_others_inactive c j i r). }
  pose proof (returned_thread c j p) as Hp'. assert (roles c' !! j = Some r') as Hr''.
  { rewrite Hr'. apply list_lookup_insert_eq. by apply lookup_lt_Some in Hr. }
  assert (∀ x (c0 : config), roles c0 = roles c -> roles (goto j x c0) !! j = Some x) as Hgo.
  { intros x c0 H0. cbn. rewrite H0. apply list_lookup_insert_eq. by apply lookup_lt_Some in Hr. }
  assert (lifecycle c' = lifecycle c -> winner c' = winner c -> dropped c' = dropped c ->
    active r' = active r -> role_ok c' (r', p) -> ending c') as Hpass.
  { intros. eapply (ending_passive c c' j r p r' p); rewrite ?Hev; auto using later_refl. }
  destruct Hloc; rewrite Hgo in Hr'' by done; injection Hr'' as <-;
    try (specialize (Hp' _ Hp H)); try (by apply Hpass).
  - assert (lifecycle c = running) as Hlr by (destruct H; [done|by destruct (end_created _ He)]).
    pose proof (proj2 (end_winner _ He) Hlr) as Hw. pose proof (end_one _ He) as H1. rewrite Hlr in H1.
    eapply (ending_active c _ j (ShutEnter policy) p (ShutQueue policy)); try done.
    + intros i x _ Hi. pose proof (sum_of_lookup active _ _ _ ltac:(by intros []) Hi).
      destruct x; cbn in *; lia.
    + by rewrite Hlr.
    + rewrite H1. by destruct policy.
    + split; [done|]. split; [by apply (end_running _ He)|]. apply (end_drain _ He). by rewrite Hw.
    + by destruct policy.
    + by destruct policy.
    + by rewrite Hw.
    + by destruct policy.
  - by destruct H as [->|[? ->]]; apply Hpass.
  - destruct Hro as (Hw & _). apply Hpass; try done. cbn. unfold settled. cbn. rewrite Hw.
    by apply (closed_settled c j p).
  - destruct Hro as (Hw & Hd & Ht). subst p. apply Hpass; try done.
    destruct (discarded_settled c j _ n Hl Hp eq_refl). by split_and!.
  - destruct Hro as (Hw & Hd & Hs & Hdr & Hn).
    pose proof (lockfree_active_stopping c j _ He Hr eq_refl) as Hstop. pose proof (end_one _ He) as H1.
    rewrite Hstop in H1.
    eapply (ending_active c _ j (ShutCount n) p ShutJoin); try done; cbn [lifecycle goto with_counts with_roles winner].
    + by apply Hoth.
    + rewrite H1, Hstop. done.
    + cbn. unfold settled. cbn. rewrite Hw, Hd. split_and!; [done..|]. exact Hn.
    + apply He.
    + apply He.
    + by rewrite Hw.
    + intros Hx'. by rewrite Hx' in Hstop.
  - apply Hpass; try done. split; [done|]. by eapply gone_moves.
  - destruct Hro as [Hset Hgone].
    pose proof (lockfree_active_stopping c j _ He Hr eq_refl) as Hstop. pose proof (end_one _ He) as H1.
    rewrite Hstop in H1.
    eapply (ending_active c _ j ShutFinish p ShutDone); try done; cbn [lifecycle goto with_lifecycle with_roles winner].
    + by apply Hoth.
    + by rewrite H1.
    + split; [|done]. intros Hw. apply (end_winner _ He) in Hw. by rewrite Hw in Hstop.
    + intros Hw. apply (end_winner _ He) in Hw. by rewrite Hw in Hstop.
Qed.

Lemma lockfree_step_inv ch c c' : inv c -> step ch c = Some c' -> inv c'.
Proof.
  intros [Hf He] Hst. destruct (step_kinds ch c c' Hst) as [j r Hr Hl|j r ch' r' q Hr Hc Hq ->|ch' q Hch Hq ->].
  - split; [by eapply local_flow|by eapply local_ending].
  - by eapply step_call_inv.
  - eapply step_queue_inv; [done|by eapply queue_continues|done].
Qed.

(** ** A running dispatcher *)

Lemma start_part (q : LockFreeQueue.queue E) p w s i x :
  parts (start q p w s) !! i = Some x ->
  x.2 = LockFreeConc.Idle /\ (x.1 = PubIdle \/ x.1 = WorkPop \/ x.1 = ShutIdle).
Proof.
  destruct x as [r t]. intros [Hr Ht]%parts_lookup. cbn in *. apply lookup_replicate in Ht as [-> _].
  split; [done|]. apply lookup_app_Some in Hr as [[-> _]%lookup_replicate|[_ Hr]]; [auto|].
  apply lookup_app_Some in Hr as [[-> _]%lookup_replicate|[_ [-> _]%lookup_replicate]]; auto.
Qed.

Lemma lockfree_start_inv cap q p w s :
  0 <= cap <= 2 ^ 58 -> LockFreeQueue.make cap = inr q ->
  Z.of_nat (p + w + s) < LockFreeConc.few -> inv (start q p w s).
Proof.
  intros Hcap Hq Hn. destruct (LockFreeConc.lock_free_start_inv cap q _ Hcap Hq Hn) as [Hi _].
  pose proof (start_part q p w s) as Hparts.
  assert (linked (start q p w s)) as Hl.
  { split; [done| |].
    - cbn. rewrite !length_app, !length_replicate. lia.
    - intros j r t Hr Ht. destruct (Hparts j (r, t)) as [Hx Hy]; [by apply parts_lookup|].
      cbn in *. subst t. by destruct Hy as [->|[->| ->]]. }
  assert (line_up line (start q p w s) = []) as H1.
  { unfold line_up. apply concat_nil_Forall, Forall_fmap, Forall_lookup. intros i [r t] Hx.
    destruct (Hparts i _ Hx) as [H2 H3]. cbn in *. by destruct H3 as [->|[->| ->]]. }
  assert (total uncounted (start q p w s) = 0) as H2.
  { unfold total. assert (Forall (λ n, n = 0) (uncounted <$> parts (start q p w s))) as Hf.
    - apply Forall_fmap, Forall_lookup. intros i [r t] Hx.
      destruct (Hparts i _ Hx) as [H2 H3]. cbn in *. by destruct H3 as [->|[->| ->]].
    - induction Hf as [|n l -> _ IH]; [done|]. by sum_cons. }
  assert (sum_of active (roles (start q p w s)) = 0) as H3.
  { assert (Forall (λ r, active r = 0) (roles (start q p w s))) as Hf.
    - cbn. rewrite !Forall_app. split_and!; by apply Forall_replicate.
    - induction Hf as [|r l Hr _ IH]; [done|]. sum_cons. by rewrite Hr, IH. }
  split; split; rewrite ?H1, ?H2, ?H3; try done.
  - intros i [r t] Hx. destruct (Hparts i _ Hx) as [H4 H5]. cbn in *.
    by destruct H5 as [->|[->| ->]].
  - intros _. split; [done|]. unfold LockFreeConc.closing_gate. cbn.
    unfold LockFreeQueue.make in Hq. destruct (LockFreeQueue.validate_capacity cap); [done|].
    injection Hq as <-. cbn. unfold LockFreeQueue.closed_bit. lia.
Qed.

Lemma lockfree_reachable_inv c c' : inv c -> reachable c c' -> inv c'.
Proof. apply rtc_invariant. intros a b Ha [ch Hs]. by eapply lockfree_step_inv. Qed.

(** A queue call or step of it, or none. *)
Lemma step_events ch c c' :
  step ch c = Some c' ->
  events c' = events c \/ ∃ qch, LockFreeConc.step qch (events c) = Some (events c').
Proof.
  intros Hst. destruct (step_kinds ch c c' Hst) as [j r Hr Hl|j r ch' r' q Hr Hc Hq ->|ch' q Hch Hq ->];
    [left|right; by eexists..].
  by destruct (local_shape _ _ _ _ Hl) as (r' & -> & _).
Qed.

(** Behind a sealed gate nothing is accepted. *)
Lemma reachable_sealed c c' :
  inv c -> reachable c c' -> sealed LockFreeQueue.producer_gate c ->
  sealed LockFreeQueue.producer_gate c' /\
  LockFreeConc.accepted (events c') = LockFreeConc.accepted (events c).
Proof.
  intros Hi Hr Hs. assert (inv c' /\ sealed LockFreeQueue.producer_gate c' /\
    LockFreeConc.accepted (events c') = LockFreeConc.accepted (events c)); [|tauto].
  eapply (rtc_invariant one_step (λ x, inv x /\ sealed LockFreeQueue.producer_gate x /\
    LockFreeConc.accepted (events x) = LockFreeConc.accepted (events c))); [|done..].
  intros a b (Ha & Hsa & Hla) [ch Hst]. split; [by eapply lockfree_step_inv|].
  destruct (step_events _ _ _ Hst) as [Hev|[qch Hq]].
  - unfold sealed in *. by rewrite Hev.
  - destruct (LockFreeConc.step_settled LockFreeQueue.producer_gate qch (events a) (events b)) as [? Hacc];
      [apply Ha|done..|]. split; [done|]. congruence.
Qed.

(** The policy of the first shutdown stays. *)
Lemma lockfree_winner_stays policy c c' :
  inv c -> reachable c c' -> winner c = Some policy -> winner c' = Some policy.
Proof.
  intros Hi Hr Hw. assert (inv c' /\ winner c' = Some policy); [|tauto].
  eapply (rtc_invariant one_step (λ x, inv x /\ winner x = Some policy)); [|done..].
  intros a b [Ha Hwa] [ch Hst]. split; [by eapply lockfree_step_inv|].
  destruct (step_kinds ch a b Hst) as [j r Hrj Hl|j r ch' r' q Hrj Hc Hq ->|ch' q Hch Hq ->]; try done.
  destruct Hl; try done. destruct Ha as [_ He].
  destruct H as [H|H]; [|by destruct (end_created _ He)]. apply (end_winner _ He) in H. congruence.
Qed.

Lemma settled_sealed c : settled c -> sealed LockFreeQueue.producer_gate c.
Proof. unfold settled. destruct (winner c) as [[]|]; [done| |done]. by intros (H & _). Qed.

(** ** Draining without a race *)

(** The tokens of the workers are not stopped. *)
Definition patient (c : config) : Prop :=
  ∀ j r, roles c !! j = Some r -> is_worker r = true -> LockFreeConc.stop_requested j (events c) = false.

(** There are no more threads than slots, pushes are over, and whoever was
    told to leave found the queue empty. *)
Record heard (c : config) : Prop := mk_heard {
  heard_crowd : LockFreeConc.crowded (events c) = false;
  heard_sealed : sealed LockFreeQueue.producer_gate c;
  heard_patient : patient c;
  heard_told : ∀ j r p, parts c !! j = Some (r, p) -> told p = true \/ r = WorkExit -> drained (events c);
}.

Lemma uncrowded_step ch c c' :
  step ch c = Some c' -> LockFreeConc.crowded (events c) = false -> LockFreeConc.crowded (events c') = false.
Proof.
  intros Hst <-. destruct (step_events _ _ _ Hst) as [->|[qch Hq]]; [done|by eapply LockFreeConc.step_crowded].
Qed.

Lemma begin_unstopped ch q q' j r r' i :
  calls j r = Some (ch, r') -> LockFreeConc.step ch q = Some q' ->
  LockFreeConc.stop_requested i q = false -> LockFreeConc.stop_requested i q' = false.
Proof.
  intros Hc Hq. assert (∃ p w, LockFreeConc.begin j p w q = Some q') as (p & w & Hb)
    by (destruct r; try discriminate Hc; cbn in Hc; try (destruct (_ <? _); [|done]);
        injection Hc as <- <-; eauto).
  apply LockFreeConc.begin_begins in Hb as (_ & _ & _ & _ & ->).
  unfold LockFreeConc.stop_requested, LockFreeConc.surrounding. cbn.
  destruct (decide (i = j)) as [->|Hne]; [|by rewrite list_lookup_insert_ne].
  destruct (decide (j < length (LockFreeConc.calls q))%nat).
  - by rewrite list_lookup_insert_eq.
  - by rewrite list_insert_ge by lia.
Qed.

Lemma patient_step ch c c' : linked c -> patient c -> step ch c = Some c' -> patient c'.
Proof.
  intros Hl Hp Hst i x Hi Hx.
  assert (∀ j r r', roles c !! j = Some r -> is_worker r' = is_worker r ->
    roles c' = <[j:=r']> (roles c) -> ∃ y, roles c !! i = Some y /\ is_worker y = true) as Hwas.
  { intros j r r' Hr Hw Hr'. rewrite Hr' in Hi.
    apply list_lookup_insert_Some in Hi as [(<- & <- & _)|[_ Hi]]; [|by eauto]. exists r. by rewrite <- Hw. }
  destruct (step_kinds _ _ _ Hst) as [k r Hr Hloc|k r ch' r' q Hr Hc Hq ->|ch' q Hch Hq ->].
  - destruct (local_shape _ _ _ _ Hloc) as (r' & -> & Hr' & _ & _ & _ & Hw).
    destruct (Hwas _ _ _ Hr Hw Hr') as (y & Hy & Hyw). by apply (Hp i y).
  - destruct (call_shape _ _ _ _ _ _ Hc Hq) as (? & ? & _ & _ & _ & _ & (_ & _ & _ & Hw & _) & _).
    destruct (Hwas _ _ _ Hr Hw eq_refl) as (y & Hy & Hyw).
    eapply begin_unstopped; [done..|by apply (Hp i y)].
  - cbn in Hi |- *. apply not_true_iff_false. intros Hs.
    destruct (step_requested _ _ _ _ (queue_continues _ _ Hch) Hq Hs) as [H| ->].
    + by rewrite (Hp i x Hi Hx) in H.
    + cbn in Hch. rewrite Hi in Hch. by destruct x.
Qed.

Lemma told_pop (p : pc) : told p = true -> call_of p = Some PopCall.
Proof. destruct p; try done. by match goal with o : LockFreeConc.outcome _ |- _ => destruct o end. Qed.

Lemma heard_step ch c c' :
  inv c -> heard c -> winner c ≠ Some discard -> step ch c = Some c' -> heard c'.
Proof.
  intros Hi [Hcr Hse Hpa Hto] Hw Hst. pose proof Hi as [[Hl _ _ _] He].
  assert (reachable c c') as Hre by (apply rtc_once; by exists ch).
  destruct (reachable_sealed c c' Hi Hre Hse) as [Hse' _].
  split; [by eapply uncrowded_step|done|by eapply patient_step|].
  destruct (end_drain _ He Hw) as [_ Hcl]. pose proof (linked_inv _ Hl) as Hq0.
  assert (∀ q qch, continues qch = true -> LockFreeConc.step qch (events c) = Some q ->
    drained (events c) -> drained q) as Hdr.
  { intros q qch Hc Hq. by apply (drained_step qch). }
  destruct (step_kinds _ _ _ Hst) as [j r Hr Hloc|j r ch' r' q Hr Hc Hq ->|ch' q Hch Hq ->].
  - destruct (linked_thread c j r Hl Hr) as (p & Hp & _).
    assert (parts c !! j = Some (r, p)) as Hx by by apply parts_lookup.
    destruct (local_shape _ _ _ _ Hloc) as (r' & Hev & Hr' & _). rewrite Hev.
    intros i ri pi Hi'. apply parts_lookup in Hi' as [Hri Hpi]. rewrite Hev in Hpi. rewrite Hr' in Hri.
    apply list_lookup_insert_Some in Hri as [(<- & <- & _)|[Hne Hri]];
      [|by apply (Hto i), parts_lookup].
    assert (pi = p) as -> by congruence. intros [Ht|Hx']; [by apply (Hto j r p Hx); left|].
    subst r'. assert (roles c' !! j = Some WorkExit) as Hx'.
    { rewrite Hr'. apply list_lookup_insert_eq. by apply lookup_lt_Some in Hr. }
    destruct Hloc; cbn in Hx'; rewrite list_lookup_insert_eq in Hx' by (by apply lookup_lt_Some in Hr); try done.
    apply (Hto j _ p Hx). left. rewrite (returned_thread c j p _ Hp H). cbn. by apply bool_decide_eq_true.
  - destruct (call_shape _ _ _ _ _ _ Hc Hq)
      as (p & p' & Hp & Ht & Hlogs & Hsh & _ & _ & _ & _ & Htold).
    intros i ri pi [Hri Hpi]%parts_lookup. cbn in Hri, Hpi |- *.
    assert (drained (events c) -> drained q) as Hd.
    { destruct Hlogs as (H1 & H2 & H3). unfold drained. by rewrite H1, H2, H3. }
    destruct (decide (i = j)) as [->|Hne].
    + rewrite Ht, list_lookup_insert_eq in Hpi by (by apply lookup_lt_Some in Hp).
      rewrite list_lookup_insert_eq in Hri by (by apply lookup_lt_Some in Hr).
      injection Hpi as <-. injection Hri as <-. rewrite Htold. intros [?|Hx]; [done|].
      destruct r; try discriminate Hc; cbn in Hc; try (destruct (_ <? _); [|done]); congruence.
    + rewrite Ht, list_lookup_insert_ne in Hpi by done. rewrite list_lookup_insert_ne in Hri by done.
      intros Hx. apply Hd, (Hto i ri pi); [by apply parts_lookup|done].
  - pose proof (queue_continues _ _ Hch) as Hcont.
    destruct (continue_step _ _ _ Hq0 Hcont Hq) as [j p p' ts Hp Hwk Ht Hc Hrun Htold _|Hwk Hlogs _].
    + intros i ri pi [Hri Hpi]%parts_lookup. cbn in Hri, Hpi |- *. rewrite Ht in Hpi.
      apply list_lookup_insert_Some in Hpi as [(<- & <- & _)|[Hne Hpi]].
      * intros [Htp| ->]; [|apply (Hdr q ch' Hcont Hq), (Hto j WorkExit p); [by apply parts_lookup|by right]].
        destruct (Htold Hcl Htp) as [Hx|[Hx|Hs]]; [|by apply Hx|].
        -- apply (Hdr q ch' Hcont Hq), (Hto j ri p); [by apply parts_lookup|by left].
        -- pose proof (linked_inside _ Hl _ _ _ Hri Hp) as Hok.
           destruct (inside_stays _ _ _ _ _ Hc Hok Hrun) as [Hcall _].
           rewrite <- (con_call _ _ _ _ Hc), (told_pop _ Htp) in Hcall.
           rewrite (Hpa j ri Hri) in Hs; [done|]. by destruct ri.
      * destruct (woken_alike _ _ _ _ Hwk Hpi) as (p0 & Hp0 & _ & Hte & _). rewrite Hte.
        intros Hx. apply (Hdr q ch' Hcont Hq), (Hto i ri p0); [by apply parts_lookup|done].
    + intros i ri pi [Hri Hpi]%parts_lookup. cbn in Hri, Hpi |- *.
      destruct (woken_alike _ _ _ _ Hwk Hpi) as (p0 & Hp0 & _ & Hte & _). rewrite Hte.
      intros Hx. apply (Hdr q ch' Hcont Hq), (Hto i ri p0); [by apply parts_lookup|done].
Qed.

Lemma heard_reachable c c' :
  reachable c c' -> winner c' ≠ Some discard -> inv c -> heard c -> heard c'.
Proof.
  induction 1 as [c|c c1 c' [ch Hst] Hr IH]; [done|]. intros Hw Hi Hh.
  apply IH; [done|by eapply lockfree_step_inv|]. eapply heard_step; try done.
  intros Hc. apply Hw. apply (lockfree_winner_stays discard c); [done| |done].
  eapply rtc_l; [by exists ch|done].
Qed.

Definition has_worker (c : config) : Prop := ∃ j r, roles c !! j = Some r /\ is_worker r = true.

Lemma has_worker_step ch c c' : has_worker c -> step ch c = Some c' -> has_worker c'.
Proof.
  intros (i & x & Hi & Hx) Hst.
  assert (∀ j r r', roles c !! j = Some r -> is_worker r' = is_worker r ->
    roles c' = <[j:=r']> (roles c) -> has_worker c') as Hw.
  { intros j r r' Hj Hw Hr'. destruct (decide (i = j)) as [->|Hne].
    - exists j, r'. rewrite Hr', list_lookup_insert_eq by (by apply lookup_lt_Some in Hj).
      split; [done|]. congruence.
    - exists i, x. by rewrite Hr', list_lookup_insert_ne. }
  destruct (step_kinds _ _ _ Hst) as [j r Hr Hloc|j r ch' r' q Hr Hc Hq ->|ch' q Hch Hq ->].
  - destruct (local_shape _ _ _ _ Hloc) as (r' & _ & Hr' & _ & _ & _ & ?). by eapply Hw.
  - destruct (call_shape _ _ _ _ _ _ Hc Hq) as (? & ? & _ & _ & _ & _ & (_ & _ & _ & ? & _) & _). by eapply Hw.
  - by exists i, x.
Qed.

Lemma start_patient (q : LockFreeQueue.queue E) p w s : patient (start q p w s).
Proof.
  intros j r _ _. unfold LockFreeConc.stop_requested, LockFreeConc.surrounding. cbn.
  destruct (replicate _ _ !! j) as [x|] eqn:Hx; [|done]. by apply lookup_replicate in Hx as [-> _].
Qed.

Lemma start_has_worker (q : LockFreeQueue.queue E) p w s : (0 < w)%nat -> has_worker (start q p w s).
Proof.
  intros Hw. exists p, WorkPop. cbn. split; [|done].
  rewrite lookup_app_r by (by rewrite length_replicate). rewrite length_replicate, Nat.sub_diag.
  by destruct w; [lia|].
Qed.

(** Nobody holds an event once all workers have left. *)
Lemma gone_line c : forallb gone (roles c) = true -> line_up line c = [].
Proof.
  rewrite forallb_forall. intros Hg. unfold line_up. apply concat_nil_Forall, Forall_fmap, Forall_lookup.
  intros i [r t] [Hr _]%parts_lookup. apply list_elem_of_lookup_2, list_elem_of_In, Hg in Hr. by destruct r.
Qed.

Lemma done_stopped c j :
  inv c -> roles c !! j = Some ShutDone ->
  lifecycle c = lifecycle_stopped /\ settled c /\ forallb gone (roles c) = true.
Proof.
  intros [Hf He] Hj. destruct (linked_thread c j _ (flow_linked _ Hf) Hj) as (p & Hp & _).
  assert (parts c !! j = Some (ShutDone, p)) as Hx by by apply parts_lookup.
  pose proof (end_roles _ He _ _ Hx) as Hl. split; [done|]. by apply (end_stopped _ He).
Qed.

Section started.
Context (cap : Z) (q : LockFreeQueue.queue E) (p w s : nat) (c : config).
Context (Hcap : 0 <= cap <= 2 ^ 58) (Hmake : LockFreeQueue.make cap = inr q).
Context (Hn : Z.of_nat (p + w + s) < LockFreeConc.few) (Hreach : reachable (start q p w s) c).

Lemma lockfree_started_inv : inv c.
Proof. eapply lockfree_reachable_inv; [|done]. by eapply lockfree_start_inv. Qed.

Lemma lockfree_started_uncrowded :
  Z.of_nat (p + w + s) <= cap -> LockFreeConc.crowded (events c) = false.
Proof.
  intros Hle. assert (LockFreeConc.crowded (events (start q p w s)) = false) as H0
    by exact (LockFreeConc.start_uncrowded cap q _ Hcap Hmake Hn Hle).
  refine (rtc_invariant one_step (λ x, LockFreeConc.crowded (events x) = false) _ _ _ H0 Hreach).
  intros a b Ha [ch Hst]. by eapply uncrowded_step.
Qed.

(** C4: however the calls interleave inside the lock-free queue, every
    accepted event is delivered, in the hands of a worker, queued or
    discarded, once; with one worker also in that order; and the accepted
    counter plus the successes not yet counted is their number. *)
Theorem events_are_conserved :
  ∃ queued,
    LockFreeConc.accepted (events c) ≡ₚ
      delivered c ++ line_up line c ++ LockFreeConc.discarded (events c) ++ queued /\
    (∀ j, sole j c -> LockFreeConc.accepted (events c) =
      delivered c ++ line_up line c ++ LockFreeConc.discarded (events c) ++ queued) /\
    eq64 (accepted c + total uncounted c) (zlength (LockFreeConc.accepted (events c))).
Proof.
  destruct lockfree_started_inv as [[[Hi _ _] Hli Hor Hco] _]. destruct Hi as (r & free & queued & Hi).
  exists queued.*2. pose proof (LockFreeConc.inv_log _ _ _ _ Hi) as Hl. split_and!; [|intros j Hj|done].
  - rewrite Hl, Hli. by rewrite <- (assoc_L (++)).
  - rewrite Hl, (Hor j Hj). by rewrite <- (assoc_L (++)).
Qed.

(** C3: once a [shutdown] has returned the workers have left and the queue
    accepts nothing more. Every accepted event was delivered, discarded or is
    still in the queue. A discarding shutdown has counted in [dropped] the
    events it discarded and, if there are no more threads than slots, has left
    none in the queue; a draining one has discarded none. *)
Theorem returned_shutdown_accounts j c' :
  roles c !! j = Some ShutDone -> reachable c c' ->
  forallb gone (roles c) = true /\
  LockFreeConc.accepted (events c') = LockFreeConc.accepted (events c) /\
  ∃ queued,
    LockFreeConc.accepted (events c) ≡ₚ
      delivered c ++ LockFreeConc.discarded (events c) ++ queued /\
    match winner c with
    | Some discard =>
        (Z.of_nat (p + w + s) <= cap -> queued = []) /\
        dropped c = u64 (zlength (LockFreeConc.discarded (events c)))
    | _ => LockFreeConc.discarded (events c) = []
    end.
Proof.
  intros Hj Hr. pose proof lockfree_started_inv as Hi. destruct (done_stopped c j Hi Hj) as (_ & Hset & Hg).
  pose proof lockfree_started_uncrowded as Hcr.
  split; [done|]. split; [by apply reachable_sealed, settled_sealed|].
  destruct Hi as [[[Hq _ _] Hli _ _] He]. pose proof (gone_line c Hg) as Hline.
  rewrite Hline, app_nil_r in Hli. destruct Hq as (r & free & queued & Hq).
  exists queued.*2. split.
  - by rewrite (LockFreeConc.inv_log _ _ _ _ Hq), Hli.
  - unfold settled in Hset. destruct (winner c) as [[]|] eqn:Hw; [|by destruct Hset as (_ & Hd & ?);
      split; [intros Hle; by apply (drained_queued _ _ _ _ Hq) in Hd as ->; [|apply Hcr]|]|done].
    apply (end_drain _ He). by rewrite Hw.
Qed.

(** C5: with no more threads than slots a draining [shutdown] delivers
    everything if no pop that found nothing has still to ask whether producers
    are done, and no worker was told to leave, when producers are marked done. *)
Theorem quiet_drain_delivers_everything j c' :
  (0 < w)%nat -> Z.of_nat (p + w + s) <= cap ->
  LockFreeQueue.producer_quiesced_ (LockFreeConc.shared (events c)) = true ->
  (∀ i t, LockFreeConc.threads (events c) !! i = Some t -> told t = false) ->
  (∀ i, roles c !! i ≠ Some WorkExit) ->
  reachable c c' -> roles c' !! j = Some ShutDone -> winner c' = Some drain ->
  LockFreeConc.accepted (events c') ≡ₚ delivered c'.
Proof.
  intros Hw Hle Hqu Htold Hexit Hr Hj Hwin. pose proof lockfree_started_inv as Hi.
  assert (patient c /\ has_worker c /\ inv c) as (Hpa & _ & _).
  { eapply (rtc_invariant one_step (λ x, patient x /\ has_worker x /\ inv x)); [| |exact Hreach].
    - intros a b (Ha & Hb & Hc) [ch Hst]. split_and!; [|by eapply has_worker_step|by eapply lockfree_step_inv].
      eapply patient_step; [apply Hc|done..].
    - split_and!; [apply start_patient|by apply start_has_worker|]. by eapply lockfree_start_inv. }
  assert (has_worker c') as (i & r & Hir & Hwr).
  { eapply (rtc_invariant one_step has_worker); [| |exact (transitivity Hreach Hr)].
    - intros a b Ha [ch Hst]. by eapply has_worker_step.
    - by apply start_has_worker. }
  assert (heard c) as Hh.
  { pose proof (linked_inv _ (flow_linked _ (proj1 Hi))) as (r0 & free & queued & Hq).
    split; [by apply lockfree_started_uncrowded|by apply (LockFreeConc.inv_quiesced _ _ _ _ Hq)|done|].
    intros k rk pk [Hrk Hpk]%parts_lookup [Ht|Hx]; [by rewrite (Htold _ _ Hpk) in Ht|].
    subst rk. by destruct (Hexit k). }
  assert (heard c') as [_ _ _ Hto] by (apply (heard_reachable c); [done|by rewrite Hwin|done..]).
  assert (inv c') as Hi' by by eapply lockfree_reachable_inv.
  destruct (done_stopped c' j Hi' Hj) as (_ & _ & Hg).
  assert (r = WorkExit) as ->.
  { rewrite forallb_forall in Hg. apply list_elem_of_lookup_2 in Hir.
    apply list_elem_of_In, Hg in Hir. by destruct r. }
  destruct Hi' as [[Hl Hli _ _] He].
  destruct (linked_thread c' i _ Hl Hir) as (t & Ht & _).
  assert (drained (events c')) as Hd by (apply (Hto i WorkExit t); [by apply parts_lookup|by right]).
  unfold drained in Hd. destruct (end_drain _ He) as [Hnd _]; [by rewrite Hwin|].
  by rewrite Hd, Hnd, app_nil_r, Hli, (gone_line _ Hg), app_nil_r.
Qed.

End started.

End threads.
Arguments role : clear implicits.
Arguments config : clear implicits.
Arguments choice : clear implicits.

Lemma lockfree_run_reachable {E} batch (sched : list (choice E)) c : reachable batch c (run batch sched c).
Proof.
  revert c. induction sched as [|ch sched IH]; intros c; [apply rtc_refl|]. cbn.
  destruct (step batch ch c) as [c'|] eqn:Hs; [|apply IH]. eapply rtc_l; [by exists ch|apply IH].
Qed.

(** ** Schedules: a publisher, a worker and a caller of [shutdown] *)

(** [n] steps of thread [j], inside the queue and outside. *)
Definition inner (j n : nat) : list (choice Z) := replicate n (Queue (LockFreeConc.Go j false None)).
Definition outer (j n : nat) : list (choice Z) := replicate n (Run j).

Definition publish_7 : list (choice Z) :=
  StartPublish 0 LockFreeConc.KindTry (inr 7) :: outer 0 2 ++ inner 0 8 ++ outer 0 2.

Definition small_start : config Z := start LockFreeQueue.two_free 1 1 1.

(** The worker finds nothing; then an event is published and the queue closed. *)
Definition lost_drain : list (choice Z) :=
  outer 1 1 ++ inner 1 3 ++ publish_7 ++
  StartShutdown 2 drain :: outer 2 2 ++ inner 2 8 ++ outer 2 1 ++ inner 1 2 ++ outer 1 1 ++ outer 2 2.

(** Both workers sleep when the queue is closed. *)
Definition stuck_drain : list (choice Z) :=
  outer 0 1 ++ inner 0 14 ++ outer 1 1 ++ inner 1 14 ++
  StartShutdown 2 drain :: outer 2 2 ++ inner 2 5 ++
  Queue (LockFreeConc.Go 2 false (Some 0%nat)) :: inner 2 2 ++ outer 2 1 ++ inner 0 12 ++ outer 0 1 ++ outer 2 2.

(** C6: a draining [shutdown] on the lock-free queue can lose an event: it
    returns with the dispatcher stopped and the one accepted event neither
    delivered nor counted as dropped, because the worker was told [closed]
    for a queue that was not empty. *)
Theorem drain_leaves_an_event :
  let c := run 4 lost_drain small_start in
  reachable 4 small_start c /\
  roles c = [PubIdle; WorkExit; ShutDone] /\ lifecycle c = lifecycle_stopped /\
  accepted c = 1 /\ dropped c = 0 /\ delivered c = [] /\
  LockFreeConc.accepted (events c) = [7] /\ LockFreeConc.taken (events c) = [].
Proof. split; [exact (lockfree_run_reachable 4 lost_drain small_start)|]. vm_compute. by split_and!. Qed.

(** C7: with two workers idle a draining [shutdown] on the lock-free queue
    can wait for ever: closing wakes one of them, the other sleeps on and
    [workers_.join()] waits for it; no thread can take a step. *)
Theorem drain_never_returns :
  let c := run 4 stuck_drain (start LockFreeQueue.two_free 0 2 1) in
  reachable 4 (start LockFreeQueue.two_free 0 2 1) c /\
  roles c = [WorkExit; WorkReturn; ShutJoin] /\ LockFreeConc.accepted (events c) = [] /\
  ∀ j sp wk, step 4 (Run j) c = None /\ step 4 (Queue (LockFreeConc.Go j sp wk)) c = None.
Proof.
  split; [exact (lockfree_run_reachable 4 stuck_drain (start LockFreeQueue.two_free 0 2 1))|].
  split; [by vm_compute|]. split; [by vm_compute|].
  intros j sp wk. destruct j as [|[|[|j]]]; by vm_compute.
Qed.

(** The worker delivers the event before the queue is closed. *)
Definition quiet_until : list (choice Z) :=
  publish_7 ++ outer 1 1 ++ inner 1 8 ++ outer 1 2 ++ inner 1 5 ++ outer 1 4 ++
  StartShutdown 2 drain :: outer 2 2 ++ inner 2 4.
Definition quiet_rest : list (choice Z) :=
  inner 2 4 ++ outer 2 1 ++ inner 1 5 ++ outer 1 1 ++ outer 2 2.

(** The event is published and discarded. *)
Definition discarding : list (choice Z) :=
  publish_7 ++ StartShutdown 2 discard :: outer 2 2 ++ inner 2 18 ++ outer 2 2 ++ outer 1 1 ++ inner 1 2 ++
  outer 1 1 ++ outer 2 2.

(** As many slots as threads, and one more. *)
Definition four_free : LockFreeQueue.queue Z :=
  LockFreeQueue.mk_queue 4 [None; None; None; None] (IndexRing.make 4 true) (IndexRing.make 4 false)
    0 0 0 false 0 0.
Definition roomy_start : config Z := start four_free 1 1 1.

Definition quiet : config Z := run 4 quiet_until roomy_start.
Definition quiet_end : config Z := run 4 quiet_rest quiet.
Definition discard_end : config Z := run 4 discarding roomy_start.

Lemma three_threads : Z.of_nat (1 + 1 + 1) < LockFreeConc.few.
Proof. done. Qed.

Lemma three_fit : Z.of_nat (1 + 1 + 1) <= 4.
Proof. done. Qed.

Lemma four_capacity : 0 <= 4 <= 2 ^ 58.
Proof. done. Qed.

Lemma four_make : LockFreeQueue.make (E:=Z) 4 = inr four_free.
Proof. by vm_compute. Qed.

Lemma quiet_reachable : reachable 4 (start four_free 1 1 1) quiet.
Proof. exact (lockfree_run_reachable 4 quiet_until roomy_start). Qed.

Lemma quiet_end_reachable : reachable 4 quiet quiet_end.
Proof. exact (lockfree_run_reachable 4 quiet_rest quiet). Qed.

Lemma discard_end_reachable : reachable 4 (start four_free 1 1 1) discard_end.
Proof. exact (lockfree_run_reachable 4 discarding roomy_start). Qed.

Lemma quiet_quiesced :
  LockFreeQueue.producer_quiesced_ (LockFreeConc.shared (events quiet)) = true.
Proof. by vm_compute. Qed.

Lemma quiet_untold i t : LockFreeConc.threads (events quiet) !! i = Some t -> told t = false.
Proof. destruct i as [|[|[|i]]]; vm_compute; [by intros [= <-]..|done]. Qed.

Lemma quiet_unexited i : roles quiet !! i ≠ Some WorkExit.
Proof. destruct i as [|[|[|i]]]; by vm_compute. Qed.

Lemma quiet_done : roles quiet_end !! 2%nat = Some ShutDone.
Proof. by vm_compute. Qed.

Lemma quiet_winner : winner quiet_end = Some drain.
Proof. by vm_compute. Qed.

Lemma discard_done : roles discard_end !! 2%nat = Some ShutDone.
Proof. by vm_compute. Qed.

Lemma discard_winner : winner discard_end = Some discard.
Proof. by vm_compute. Qed.

Lemma events_are_conserved_witness :
  delivered quiet = [7] /\ eq64 (accepted quiet + total uncounted quiet) 1.
Proof.
  split; [vm_compute; reflexivity|].
  destruct (events_are_conserved 4 4 four_free 1 1 1 quiet four_capacity
    four_make three_threads quiet_reachable) as (queued & _ & _ & H).
  exact H.
Defined.

Lemma returned_shutdown_accounts_witness :
  LockFreeConc.accepted (events discard_end) ≡ₚ
    delivered discard_end ++ LockFreeConc.discarded (events discard_end) ++ [] /\ dropped discard_end = 1.
Proof.
  split; [|vm_compute; reflexivity].
  destruct (returned_shutdown_accounts 4 4 four_free 1 1 1 discard_end
    four_capacity four_make three_threads discard_end_reachable 2%nat discard_end
    discard_done (rtc_refl _ _)) as (_ & _ & queued & H & Hq).
  rewrite discard_winner in Hq. rewrite (proj1 Hq three_fit) in H. exact H.
Defined.

Lemma quiet_drain_delivers_everything_witness :
  LockFreeConc.accepted (events quiet_end) ≡ₚ delivered quiet_end.
Proof.
  exact (quiet_drain_delivers_everything 4 4 four_free 1 1 1 quiet four_capacity
    four_make three_threads quiet_reachable 2%nat quiet_end ltac:(lia) three_fit quiet_quiesced
    quiet_untold quiet_unexited quiet_end_reachable quiet_done quiet_winner).
Defined.

End DispatcherLockFree.
