(* ===== verification/Examples.v ===== *)
(** * The programs of [src/examples]

    Each program as its [main], on the queue, registry, handle and dispatcher
    of this library, with the text it writes. [main] is one thread; between
    its statements the workers of a dispatcher run as many rounds of their
    loop as the argument [rounds] says, and [shutdown] runs the rest. *)

From stdpp Require Import pretty strings.
From S2P Require Import Prelude Types QueueSpec MutexQueue Subscriber Registry Subscription WorkerPool Dispatcher.
Import PopResult.
Local Open Scope string_scope.
Local Open Scope Z_scope.
Local Open Scope list_scope.

Module Examples.

(** A line on [std::cout] or [std::cerr]. *)
Inductive line : Type := Out (text : string) | Err (text : string).
Definition console : Type := list line.

(** [operator<<] of an integer. *)
Definition show (z : Z) : string := pretty z.
Definition cat (l : list string) : string := foldr String.append "" l.

Abbreviation queue := MutexQueue.queue.
Abbreviation subscription_of := Subscription.handle.

(** ** Statements *)

Section statements.
Context {E : Type} (u : Dispatcher.program E console).
Abbreviation dispatcher := (Dispatcher.dispatcher E (queue E)).
Abbreviation state := (dispatcher * console)%type.
Context (fuel : nat).

Definition put (l : line) {S} : M (S * console) unit := modify (fun '(s, w) => (s, w ++ [l])).

(** A call that is given a temporary or a moved-from object. *)
Definition passing {S A} (e : E) (m : M (S * option E) A) : M (S * console) A := fun '(s, w) =>
  match m (s, Some e) with
  | Ret a (s', _) => Ret a (s', w)
  | Throw x (s', _) => Throw x (s', w)
  | Stuck f => Stuck f
  end.

(** A call that is given a variable to copy. *)
Definition copying {S A} (e : E) (m : M (S * E) A) : M (S * console) A := fun '(s, w) =>
  match m (s, e) with
  | Ret a (s', _) => Ret a (s', w)
  | Throw x (s', _) => Throw x (s', w)
  | Stuck f => Stuck f
  end.

(** The workers run [n] rounds of their loop. *)
Fixpoint work (n : nat) : M state unit :=
  match n with
  | O => mret tt
  | S n => Dispatcher.run_round u false;; work n
  end.

(** The subscribe call of a registration that fits in memory. *)
Definition subscribe (options : subscription_options) : M state subscription_of :=
  control ← on_fst (Dispatcher.subscribe true options true false);
  mret (Subscription.of_control control).

Definition publish (e : E) : M state (option queue_status) :=
  passing e (Dispatcher.publish false move_from).
Definition try_publish (e : E) : M state (option queue_status) :=
  passing e (Dispatcher.try_publish move_from).

Definition shutdown : M state unit := Dispatcher.shutdown_default u false false fuel.
Definition metrics_of : M state dispatcher_metrics := gets (fun '(d, _) => Dispatcher.metrics d).

Definition metrics_through (h : subscription_of) : M state subscription_metrics :=
  gets (fun '(d, _) => Subscription.metrics
    (SubscriptionControl0 := Subscription.registry_control false) h (Dispatcher.subscribers d)).

(** [publish_for] of a variable, called at time 0: it waits while the workers
    run [rounds] rounds and looks again when [timeout] has passed. *)
Definition publish_for (e : E) (timeout : Z) (rounds : nat) : M state (option queue_status) :=
  let attempt time := copying e (Dispatcher.publish_for false 0 timeout time (copy_from inr)) in
  result ← attempt 0;
  match result with
  | Some status => mret (Some status)
  | None => work rounds;; attempt timeout
  end.

(** The end of [main]: its handles and the dispatcher are destroyed. *)
Definition drop_handle (h : subscription_of) : M state unit := fun '(d, w) =>
  match Subscription.destroy (SubscriptionControl0 := Subscription.registry_control false) h
          (Dispatcher.subscribers d) with
  | Ret a r => Ret a (Dispatcher.with_subscribers r d, w)
  | Throw x r => Throw x (Dispatcher.with_subscribers r d, w)
  | Stuck f => Stuck f
  end.
Fixpoint leave (handles : list subscription_of) : M state unit :=
  match handles with
  | [] => Dispatcher.destroy u false false fuel
  | h :: handles => drop_handle h;; leave handles
  end.

(** [main] declares the dispatcher; an exception of its constructor leaves
    [main]. What is left in the end is the text and the exit code. *)
Definition program_output (config : dispatcher_config) (main : M state Z) : result console Z :=
  match Dispatcher.make (@MutexQueue.make E) false config (Z.to_nat (worker_count config)) with
  | inl _ => Stuck terminated
  | inr d =>
      match main (d, []) with
      | Ret code (_, w) => Ret code w
      | Throw _ _ => Stuck terminated
      | Stuck f => Stuck f
      end
  end.

End statements.

(** What an error handler prints of an exception, [exception.what()], is the
    text it was made with. *)
Section programs.
Context (what : exn -> string).

(** ** dispatcher_usage.cpp *)

Definition dispatcher_usage_program : Dispatcher.program Z console :=
  Dispatcher.mk_program
    (fun id event w =>
       (None, w ++ [Out (cat [if id =? 1 then "first" else "second";
                              " subscriber received "; show event])]))
    (fun _ _ _ => 0) (Some inr)
    (Some (fun error w => w ++ [Err (cat ["subscriber failed: "; what error])])).

Definition dispatcher_usage (rounds : nat) : result console Z :=
  let u := dispatcher_usage_program in
  program_output (mk_dispatcher_config 256 2 1 drain)
    (first ← subscribe default_options;
     second ← subscribe default_options;
     published ← publish 42;
     if negb (bool_decide (published = Some success)) then
       leave u 3 [second; first];;
       mret 1
     else
       work u rounds;;
       shutdown u 3;;
       leave u 3 [second; first];;
       mret 0).

(** ** error_handling.cpp: the first subscriber throws, here exception [0] *)

Definition error_handling_program : Dispatcher.program Z console :=
  Dispatcher.mk_program
    (fun id event w =>
       if id =? 1 then (Some (user_exception 0), w)
       else (None, w ++ [Out (cat ["healthy subscriber received "; show event])]))
    (fun _ _ _ => 0) (Some inr)
    (Some (fun error w => w ++ [Err (cat ["callback error: "; what error])])).

Definition error_handling (rounds : nat) : result console Z :=
  let u := error_handling_program in
  program_output default_config
    (failing ← subscribe default_options;
     healthy ← subscribe default_options;
     publish 7;;
     work u rounds;;
     shutdown u 3;;
     leave u 3 [healthy; failing];;
     mret 0).

(** ** lifecycle_usage.cpp *)

Definition lifecycle_usage_program : Dispatcher.program Z console :=
  Dispatcher.mk_program (fun _ event w => (None, w ++ [Out (cat ["received "; show event])]))
    (fun _ _ _ => 0) (Some inr) None.

Definition lifecycle_usage (rounds1 rounds2 rounds3 : nat) : result console Z :=
  let u := lifecycle_usage_program in
  program_output (mk_dispatcher_config 64 1 1 drain)
    (subscription ← subscribe default_options;
     try_publish 1;;
     work u rounds1;;
     publish 2;;
     work u rounds2;;
     publish_for u 3 10000000 0;;
     work u rounds3;;
     shutdown u 5;;
     metrics ← metrics_of;
     put (Out (cat ["accepted="; show (events_accepted metrics); ", rejected=";
                    show (events_rejected metrics); ", dropped="; show (events_dropped metrics)]));;
     leave u 5 [subscription];;
     mret 0).

(** ** object_subscriber.cpp: the callback calls [on_event] of the object *)

Definition on_event (event : string) (w : console) : console :=
  w ++ [Out (cat ["connection monitor: "; event])].

Definition object_subscriber_program : Dispatcher.program string console :=
  Dispatcher.mk_program (fun _ event w => (None, on_event event w)) (fun _ _ _ => 0) (Some inr) None.

Definition object_subscriber (rounds : nat) : result console Z :=
  let u := object_subscriber_program in
  program_output default_config
    (token ← subscribe default_options;
     publish "connected";;
     work u rounds;;
     shutdown u 3;;
     leave u 3 [token];;
     mret 0).

(** ** isolated_subscriber.cpp: a callback takes [time] nanoseconds *)

Definition isolated_subscriber_program (time : Z) : Dispatcher.program Z console :=
  Dispatcher.mk_program
    (fun _ event w => (None, w ++ [Out (cat ["isolated subscriber received "; show event])]))
    (fun _ _ _ => time) (Some inr) None.

Definition isolated_subscriber (time : Z) (rounds : nat) : result console Z :=
  let u := isolated_subscriber_program time in
  program_output default_config
    (slow_subscriber ← subscribe (mk_subscription_options isolated best_effort 16 5000000);
     Dispatcher.each (fun event => publish event;; work u rounds) [1; 2; 3; 4; 5];;
     shutdown u 7;;
     metrics ← metrics_through slow_subscriber;
     put (Out (cat ["delivered="; show (delivered metrics); ", dropped="; show (dropped metrics);
                    ", slow="; show (slow_callbacks metrics)]));;
     leave u 7 [slow_subscriber];;
     mret 0).

(** ** backpressure.cpp *)

(** [schedule]: the rounds of the worker while each publication waits. *)
Definition backpressure_program : Dispatcher.program Z console :=
  Dispatcher.mk_program (fun _ _ w => (None, w)) (fun _ _ _ => 10000000) (Some inr) None.

Definition backpressure (schedule : list nat) : result console Z :=
  let u := backpressure_program in
  program_output (mk_dispatcher_config 1 1 1 drain)
    (token ← subscribe default_options;
     Dispatcher.each (fun '(event, rounds) =>
       result ← publish_for u event 1000000 rounds;
       if bool_decide (result = Some timeout)
       then put (Out (cat ["timed out publishing "; show event])) else mret tt)
       (combine (seqZ 0 10) schedule);;
     shutdown u 3;;
     counters ← metrics_of;
     put (Out (cat ["accepted="; show (events_accepted counters); ", rejected=";
                    show (events_rejected counters)]));;
     leave u 3 [token];;
     mret 0).

End programs.

(** ** configuration.cpp *)

Definition configuration (detected : Z) : console :=
  let config := hardware_concurrency_defaults detected in
  [Out (cat ["event-dispatcher: workers="; show (worker_count config);
             ", worker-batch="; show (worker_batch_size config);
             ", queue-capacity="; show (queue_capacity config)])].

(** ** queue_usage.cpp *)

Section queue_usage.
Abbreviation state := (queue string * console)%type.

(** [queue.try_push] of an object that may be moved from, and what is left
    of it. *)
Definition try_push (event : string) : M state (queue_status * option string) := fun '(q, w) =>
  match q_try_push move_from (q, Some event) with
  | Ret st (q, kept) => Ret (st, kept) (q, w)
  | Throw e (q, _) => Throw e (q, w)
  | Stuck f => Stuck f
  end.

(** [while (true)]: print what [wait_pop] gives until it reports [closed]. *)
Fixpoint print_until_closed (fuel : nat) : M state unit :=
  match fuel with
  | O => stuck blocked
  | S fuel =>
      result ← on_fst (q_wait_pop false);
      match result with
      | None => stuck blocked
      | Some result =>
          if bool_decide (status result = closed) then mret tt
          else match value result with
          | inl e => throw e
          | inr event => put (Out (cat ["received: "; event]));; print_until_closed fuel
          end
      end
  end.

Definition queue_usage_main (fuel : nat) : M state Z :=
  '(connected, _) ← try_push "connected";
  unexpected ←
    (if negb (bool_decide (connected = success)) then mret true
     else '(ready, _) ← try_push "data-ready"; mret (negb (bool_decide (ready = success))));
  if (unexpected : bool) then put (Err "unexpected publication failure");; mret 1
  else
    '(full_status, retryable) ← try_push "retry-later";
    (if bool_decide (full_status = full)
     then put (Out (cat ["queue full; retained event: "; default "" retryable])) else mret tt);;
    on_fst q_close;;
    print_until_closed fuel;;
    mret 0.

Definition queue_usage (fuel : nat) : result console Z :=
  match MutexQueue.make 2 with
  | inl _ => Stuck terminated
  | inr q =>
      match queue_usage_main fuel (q, []) with
      | Ret code (_, w) => Ret code w
      | Throw _ _ => Stuck terminated
      | Stuck f => Stuck f
      end
  end.

End queue_usage.

(** ** registry_usage.cpp *)

Section registry_usage.
Abbreviation state := (Registry.registry string * console)%type.

Definition received : Subscriber.client string console :=
  Subscriber.mk_client (fun event w => (None, w ++ [Out (cat ["subscriber received: "; event])]))
    (fun _ _ => 0) (Some inr) None.

(** [subscriber->try_invoke(event)] through a pointer of the snapshot. *)
Definition try_invoke (event : string) (id : Z) : M state (option bool) := fun '(r, w) =>
  match Registry.objects r !! id with
  | None => Stuck undefined_behaviour
  | Some s =>
      let put s' := Registry.update_object id (fun _ => s') r in
      match Subscriber.try_invoke received event (s, w) with
      | Ret a (s', w') => Ret a (put s', w')
      | Throw e (s', w') => Throw e (put s', w')
      | Stuck f => Stuck f
      end
  end.

Fixpoint for_each (f : Z -> M state unit) (snapshot : list Z) : M state unit :=
  match snapshot with
  | [] => mret tt
  | id :: snapshot => f id;; for_each f snapshot
  end.

(** The handle is empty when [main] ends; the registry's destructor is left. *)
Definition registry_usage_main : M state unit :=
  subscription ← on_fst (Registry.subscribe true default_options true false);
  old_snapshot ← gets (fun '(r, _) => Registry.acquire_snapshot r);
  for_each (fun id => try_invoke "connected" id;; mret tt) old_snapshot;;
  on_fst (Subscription.reset (SubscriptionControl0 := Subscription.registry_control false)
    (Subscription.of_control subscription));;
  for_each (fun id =>
    invoked ← try_invoke "must-not-run" id;
    if bool_decide (invoked = Some false)
    then put (Out "old snapshot safely skipped inactive subscriber") else mret tt) old_snapshot;;
  modify (fun '(r, w) => (Registry.destroy r, w)).

Definition registry_usage : result console Z :=
  match registry_usage_main (Registry.make, []) with
  | Ret _ (_, w) => Ret 0 w
  | Throw _ _ => Stuck terminated
  | Stuck f => Stuck f
  end.

End registry_usage.

(** ** What the programs print *)

Definition value_of {S A} (r : result S A) : option A :=
  match r with Ret a _ => Some a | _ => None end.
Definition state_after {S A} (m : M S A) (s : S) : S :=
  match m s with Ret _ s' | Throw _ s' => s' | Stuck _ => s end.

Lemma value_of_ret {S A} (m : M S A) s a :
  value_of (m s) = Some a -> m s = Ret a (state_after m s).
Proof. unfold state_after. destruct (m s); cbn; [|done..]. by intros [= ->]. Qed.

Lemma bind_value {S A B} (m : M S A) (k : A -> M S B) s b :
  value_of ((m ≫= k) s) = Some b -> ∃ a s', m s = Ret a s' /\ value_of (k a s') = Some b.
Proof. unfold mbind, M_bind. destruct (m s) as [a s'|e s'|f]; [by exists a, s'|done..]. Qed.

Section rounds.
Context {E : Type} (u : Dispatcher.program E console).
Implicit Types st : Dispatcher.dispatcher E (queue E) * console.

Lemma wait_pop_waits (q q' : queue E) : q_wait_pop false q = Ret None q' -> q' = q.
Proof.
  cbn. unfold MutexQueue.wait_pop, MutexQueue.cv_wait. run_m.
  destruct (MutexQueue.can_pop q); [|by intros [= ->]].
  destruct (MutexQueue.size_ q =? 0); [done|]. by destruct (MutexQueue.pop_locked q).
Qed.

(** A round of a worker that has nothing to do leaves all as it is. *)
Lemma run_round_waits st : value_of (Dispatcher.run_round u false st) = Some None ->
  Dispatcher.run_round u false st = Ret None st.
Proof.
  unfold Dispatcher.run_round. intros (o & st1 & Hr & Ho)%bind_value. destruct o as [r|].
  - exfalso. destruct (status r); try done. destruct (value r); [done|].
    apply bind_value in Ho as ([d w] & st2 & _ & Ho).
    apply bind_value in Ho as (batch & st3 & _ & Ho).
    by apply bind_value in Ho as (? & st4 & _ & Ho).
  - rewrite (bind_ret _ _ _ _ _ Hr). clear Ho. destruct st as [d w]. cbn -[q_wait_pop] in Hr.
    destruct (q_wait_pop false (Dispatcher.events d)) as [o q|e q|f] eqn:Hq; [|done..].
    injection Hr as -> <-. apply wait_pop_waits in Hq as ->. by destruct d.
Qed.

Lemma work_waits n st : value_of (Dispatcher.run_round u false st) = Some None -> work u n st = Ret tt st.
Proof.
  intros Hr%run_round_waits. induction n as [|n IH]; [done|]. cbn [work]. unfold mbind, M_bind.
  by rewrite Hr.
Qed.

(** Once [k] rounds leave nothing to do, [n] rounds are as good as [k]. *)
Lemma work_enough k st n :
  value_of (work u k st) = Some tt ->
  value_of (Dispatcher.run_round u false (state_after (work u k) st)) = Some None ->
  ∃ m, (m <= k)%nat /\ work u n st = work u m st.
Proof.
  intros Hk%value_of_ret. set (st' := state_after (work u k) st) in *. clearbody st'. intros Hw.
  revert st n Hk. induction k as [|k IH]; intros st n Hk.
  - exists 0%nat. split; [done|]. injection Hk as ->. by apply work_waits.
  - destruct n as [|n]; [exists 0%nat; split; [lia|done]|].
    cbn [work] in Hk. unfold mbind, M_bind in Hk.
    destruct (Dispatcher.run_round u false st) as [o st1|e st1|f] eqn:Hr; [|done..].
    destruct (IH st1 n Hk) as (m & Hm & He). exists (S m). split; [lia|].
    cbn [work]. unfold mbind, M_bind. by rewrite Hr.
Qed.

End rounds.

Lemma bind_same {S A B} (m m' : M S A) (k : A -> M S B) s :
  m s = m' s -> (m ≫= k) s = (m' ≫= k) s.
Proof. unfold mbind, M_bind. by intros ->. Qed.

(** Run a statement of a program, and consider every number of rounds of its
    workers that makes a difference, [k] at most. States are only named, and
    computed with where a proof needs it. *)
Ltac statement :=
  match goal with |- context [@mbind _ _ ?A ?B ?k ?m ?s] =>
    tryif (lazymatch m with work _ ?n => is_var n end) then fail else
    let r := eval vm_compute in (value_of (m s)) in
    lazymatch r with
    | Some ?a =>
        rewrite (bind_ret m k s a _ (value_of_ret m s a (@eq_refl _ r <: value_of (m s) = r))); cbv beta;
        repeat match goal with |- context [(if ?b then _ else _) _] =>
          let v := eval vm_compute in b in change b with v; cbv iota
        end
    end
  end.
Ltac rounds k :=
  repeat statement;
  match goal with |- context [mbind ?k' (work ?u ?n) ?s] =>
    let m := fresh "m" in let Hm := fresh "Hm" in
    destruct (work_enough u k s n ltac:(vm_compute; reflexivity) ltac:(vm_compute; reflexivity))
      as (m & ? & Hm);
    rewrite (bind_same (work u n) (work u m) k' s Hm); clear Hm; repeat (destruct m as [|m]; [|try lia])
  end.
Ltac evaluate := match goal with |- ?x = ?y => exact (@eq_refl _ x <: x = y) end.

Definition lifecycle_usage_text : console :=
  [Out "received 1"; Out "received 2"; Out "received 3"; Out "accepted=3, rejected=0, dropped=0"].

(** The dispatcher a program starts with. *)
Ltac construct :=
  unfold program_output;
  match goal with |- context [@Dispatcher.make ?E ?Q ?a ?b ?c ?d] =>
    let r := eval lazy -[replicate] in (@Dispatcher.make E Q a b c d) in
    change (@Dispatcher.make E Q a b c d) with r
  end; cbv iota beta.

(** [lifecycle_usage] prints the events in order and then that all three
    were accepted, and returns 0, however many rounds the worker has run
    after each publication. *)
Theorem lifecycle_usage_prints rounds1 rounds2 rounds3 :
  lifecycle_usage rounds1 rounds2 rounds3 = Ret 0 lifecycle_usage_text.
Proof.
  unfold lifecycle_usage. construct. rounds 1%nat; rounds 2%nat; rounds 3%nat; evaluate.
Qed.

(** Both subscribers see the event, in the order they subscribed. *)
Lemma dispatcher_usage_prints what rounds :
  dispatcher_usage what rounds =
    Ret 0 [Out "first subscriber received 42"; Out "second subscriber received 42"].
Proof.
  unfold dispatcher_usage. construct. rounds 1%nat; evaluate.
Qed.

(** The exception of one subscriber is reported and the other still runs. *)
Lemma error_handling_prints what rounds :
  error_handling what rounds =
    Ret 0 [Err (cat ["callback error: "; what (user_exception 0)]); Out "healthy subscriber received 7"].
Proof.
  unfold error_handling. construct. rounds 1%nat; evaluate.
Qed.

Lemma object_subscriber_prints rounds :
  object_subscriber rounds = Ret 0 [Out "connection monitor: connected"].
Proof.
  unfold object_subscriber. construct. rounds 1%nat; evaluate.
Qed.

Definition received_lines (text : string) (events : list Z) : console :=
  (fun event => Out (cat [text; show event])) <$> events.

(** The mailbox is drained by [shutdown]; callbacks of 10 ms are slow. *)
Lemma isolated_subscriber_prints :
  isolated_subscriber 10000000 0 = isolated_subscriber 10000000 1 /\
  isolated_subscriber 10000000 0 =
    Ret 0 (received_lines "isolated subscriber received " [1; 2; 3; 4; 5] ++
           [Out "delivered=5, dropped=0, slow=5"]).
Proof. split; vm_compute; reflexivity. Qed.

(** A worker that makes no progress refuses all but one event, one that
    takes an event during every wait none. *)
Lemma backpressure_prints :
  backpressure (replicate 10 0%nat) =
    Ret 0 (received_lines "timed out publishing " (seqZ 1 9) ++ [Out "accepted=1, rejected=9"]) /\
  backpressure (replicate 10 1%nat) = Ret 0 [Out "accepted=10, rejected=0"].
Proof. split; vm_compute; reflexivity. Qed.

Lemma queue_usage_prints :
  queue_usage 3 =
    Ret 0 [Out "queue full; retained event: retry-later"; Out "received: connected";
           Out "received: data-ready"].
Proof. vm_compute. reflexivity. Qed.

Lemma registry_usage_prints :
  registry_usage =
    Ret 0 [Out "subscriber received: connected";
           Out "old snapshot safely skipped inactive subscriber"].
Proof. vm_compute. reflexivity. Qed.

(** An unknown number of processors counts as one. *)
Lemma configuration_prints :
  configuration 0 = [Out "event-dispatcher: workers=1, worker-batch=1, queue-capacity=4096"].
Proof. vm_compute. reflexivity. Qed.

End Examples.
